(* ===== verification/_CoqProject ===== *)
-Q . S2P
Prelude.v
Text.v
External.v
Proto.v
ProtoProps.v
Relay.v
RelaySpec.v
RelayRefine.v
RelayDurable.v
RelayRun.v
RelayProps.v
RelayPush.v
RelayGates.v
RelayTokens.v
RelayTypes.v
RelayFindings.v
RelayNet.v
RelayServe.v
DirLogic.v
DirStore.v
DirApi.v
DirNames.v
DirInv.v
DirProps.v
DirClaims.v
DirRestore.v
DirSearch.v
DirStatus.v
DirHttp.v
DirPrivacy.v
DirConc.v
DirOnce.v
CoreBackup.v
CoreSession.v
CoreProps.v
RelayClient.v
Wire.v
Engine.v
EngineInv.v
EngineProps.v
EnginePair.v
Network.v
NetworkCommit.v
Cli.v
Ffi.v
FfiProps.v
FfiRun.v
FfiUi.v
FfiExamples.v
Tls.v
Chat.v
ChatExamples.v
Deploy.v
