(* ===== verification/Prelude.v ===== *)
(** * Rosette: a verification development

    Rosette is an end-to-end encrypted messenger. A client pairs with a peer through
    a contact link, the two share an MLS group, and every message travels through a
    relay that stores envelopes it cannot read. A directory maps phone numbers to
    handles and keeps encrypted recovery bundles. The Rust workspace has seven
    crates, and the development follows them.

    ** The program and the files that model it

    - [proto] is the vocabulary of client and relay: limits, envelopes and padding,
      contact links, requests and replies, send tags, proof of work, attestation
      tokens, framing. [Proto.v] has its types and functions under their own names,
      [ProtoProps.v] their theorems.
    - [relay] serves mailboxes and group inboxes. [Relay.v] models relay/src/state.rs:
      a [World] is the relay's [Inner] with the push channels and the mutex's
      poisoning; a method is a computation of a state, rejection and panic monad, and
      [handle] is the dispatcher. [RelaySpec.v] is the abstract delivery service,
      [RelayRefine.v], [RelayDurable.v] and [RelayRun.v] prove that every request, a
      restart from the SQLite tables included, is a step of it. [RelayProps.v],
      [RelayPush.v], [RelayGates.v], [RelayTokens.v], [RelayTypes.v] and
      [RelayFindings.v] draw the consequences. [RelayNet.v] models the loop over a
      connection's frames, how its tasks end, and relay/src/identity.rs;
      [RelayServe.v] is relay/src/net.rs as a whole: a [Server] is the relay with all
      its connections, and a step is one of any task of any connection.
    - [directory] is an HTTP service over Postgres. [DirLogic.v] models username.rs,
      ratelimit.rs, search.rs and verify.rs; [DirStore.v] the methods of store.rs
      over the tables of the migrations; [DirApi.v] the handlers of api.rs with
      attestation.rs and config.rs. [DirNames.v] is about handles and rate limits,
      [DirInv.v] proves the invariant of the tables under every route ([serve]), and
      [DirProps.v], [DirClaims.v], [DirRestore.v] and [DirSearch.v] state what
      callers rely on; [DirStatus.v] has the status and body of answers.
      [DirHttp.v] is the service as a whole: the router and middleware of api.rs, its
      request and response types. [DirPrivacy.v] relates two directories to show what
      an account keeps from those who hold no credential of it. [DirConc.v] has the
      handlers as programs whose statements interleave, at Postgres's default isolation,
      with a rely-guarantee rule; [DirOnce.v] counts what they hand out.
    - [core] is the client without its network. [CoreBackup.v] models backup.rs,
      [CoreSession.v] storage.rs, identity.rs, session.rs and pairing.rs over OpenMLS
      as a parameter, [CoreProps.v] has their theorems.
    - [engine] connects a session to a relay. [RelayClient.v] models the pipelined
      connection of relay_client.rs as a state machine over any interleaving of
      callers and reader task; [Engine.v] models chat_engine.rs and pairing.rs as
      computations over a script of the outside world; [EngineInv.v],
      [EngineProps.v] and [EnginePair.v] have the invariant over crashes and
      restarts, its consequences, and pairing.
    - [ffi] is the object an app holds. [Ffi.v] models ffi/src/lib.rs: constructors,
      recovery, conversations, the engine's actor, the resuming loop and the dispatch
      thread. [FfiProps.v] is about recovery, [FfiRun.v] about events, [FfiUi.v] about
      conversations; [FfiExamples.v] has a concrete client object.
    - [cli] is a command line over the engine: its fingerprint parser is in
      [RelayNet.v], its commands and chat loop are in [Cli.v].
    - The parts together: [Wire.v] joins a client's connection and the server's by the
      byte streams between them. [Network.v] and [NetworkCommit.v] run engines against the
      relay's [handle], which they meet through requests, replies and pushes. A
      request an engine makes is given to the relay, the replies are what the
      engine's script holds, and a class ([SameCrates]) says that both are built
      with the same hash functions. [Chat.v] runs two client objects on top of that,
      from the call that sends to the conversation that shows ([ChatExamples.v] at
      concrete ones). [Tls.v] models engine/src/tls.rs and both TLS configurations, with
      rustls as a parameter. [Deploy.v] starts the binaries (main.rs of relay
      and directory, the OTP vendor's client) and follows an attestation token from
      the directory that signs it through the app to the relay that takes it.

    [Prelude.v] holds what all of them share: machine integers, result and option
    notations, tactics, hints, and lemmas on lists and finite maps. [Text.v] holds
    what the crates use of Rust's strings. [External.v] has one class per third-party
    crate (bincode, SHA-256, HMAC, Ed25519, SQLite, Argon2id, XChaCha20-Poly1305,
    base64), with a class of laws where a theorem needs its documented behaviour;
    theorems are proved against the classes, and [ToyInstances] implements each one.

    ** What the theorems show

    - Relay: it refines the delivery service ([relay_refinement]); a group inbox
      accepts one commit per epoch; an accepted message is in the mailbox until it is
      acknowledged, over restarts; the backlog is exactly what was accepted and not
      acknowledged; the byte counter is exact and bounded; a restart restores the
      abstract state; a failed request stores nothing; subscribers get the backlog
      and the fan-out; tokens are single-use; replies come in the order of requests;
      every value it holds is of its type and within its limits. These are about runs
      of admissible operations ([ops_ok]): values of their types and, on a relay with a
      database, no commit for epoch 2^63 - 1, after which the database cannot be opened
      ([last_epoch_commit_bricks_database]). However connections
      interleave, each is served as if it were alone, and nothing due to it is stuck.
    - Directory: the tables stay consistent under every request, and however the
      statements of concurrent requests interleave; erasure is final; a
      session needs an approved code; a deleted number cools down; every tenth wrong PIN
      locks an account, for 1, then 4, then 24 hours each time; a recovery bundle is released only to a
      proof and comes back as uploaded; a bootstrap is handed out once, to overlapping
      requests too; search
      answers exactly the accounts that opted in; free slots are least; while the
      database, the vendor and the hash function work, a request served alone is answered
      500 exactly if it hands Postgres a text with a zero byte. Over
      HTTP every response is its handler's and forbids caching. Requests without a
      credential of an account change nothing of it, and their answers do not depend on
      its number, bundle or lockout, where no sign-up names the number
      (noninterference).
    - Client: a message is applied at most once, joins and own merged commits included,
      and stays known over crashes; a
      received message survives a crash that follows its acknowledgement; both sides
      of a pairing agree on the inbox; pipelined calls get their own reply; snapshots
      and recovery bundles restore the account; a failed restore leaves no trace; the
      safety number is a digest of both keys and nothing else; with the relay's printed pin a client connects to
      the relay, and a connection proves the pinned certificate and its key; the app's listener gets each event once and in
      order; conversations stay consistent; what sending and receiving record; the
      command line shows every message once.
    - Together: a text one app sends is shown by the other, recorded and announced, when
      that one is next opened, whatever admissible operations the relay goes through
      meanwhile; a backlog is applied once, in order,
      and acknowledged (both where the session accepts every message, see
      [refused_message]); a member that lost any number of races to commit catches up and
      commits on the relay's epoch; a call on a pipelined connection gets the relay's answer to its
      own request; the public key a directory logs is the one a relay gates on,
      and every token of a batch buys one queue, through the creation requests.
    - Findings: theorems that show where the code does not do what it or its comments
      say are in [RelayFindings.v], [RelayGates.v], [DirSearch.v], [DirStatus.v], [DirConc.v], [EngineProps.v],
      [EnginePair.v], [FfiUi.v] and [RelayNet.v].

    ** Bounds and fuel

    Integers are [Z] with the release build's wrap-around written out ([+64], [+32],
    [+8]) and saturation where the source has it. Loops that are not structural:

    - the relay draws ids until one is free from a list of random draws in its [Env];
      a list that ends first is the outcome [OutOfEntropy], which claims count as
      failure, so none of them rests on the list being long;
    - [PowChallenge_solve] has fuel; [pow_solve_terminates] bounds the nonces it
      tries by the first solution;
    - eviction of outstanding challenges walks the deque, which is its fuel;
    - [first_free_slot] has one step of fuel per taken slot and one more, enough by a
      pigeonhole argument ([first_free_slot_least]); [claim_slot] at most nine widths;
    - the engine's loops take an entry off the script each turn, so its length plus
      one is enough; [Blocked] is a computation that waits for something the script
      does not hold, or that its caller drops there;
    - the frame loop of a connection reads at least one byte per turn, so the length
      of the stream plus one is enough;
    - [decimal] prints twenty digits, the width of a [u64].

    Theorems about results that depend on such a bound are stated as totality, or have
    the outcome in their conclusion. [conversations_consistent] bounds the message
    counter by the width of a [u64].

    ** Not modelled

    - TLS, sockets and the parsing of HTTP and JSON: they are rustls, tokio, axum and
      serde. What a handshake asks of the verifier is in [TlsLaws], what is extracted from
      a request in [FromRequest]; a stream delivers a prefix of what was written to it.
    - Time that only delays: pauses between reconnects, the 30 second limit on
      starting an engine. Clocks the code compares are inputs.
    - The texts of error messages, but for those of the directory's answers.
    - Failing reads of an open client database; failing writes are modelled.
    - Crate roots (re-exports) and what clap makes of a command line.
    - The Kotlin app and the site.

    ** What comes next

    [Network.v] and [Chat.v] follow one engine at a time against a relay whose other
    clients are arbitrary; a run of several engines in which every step of each is
    named, with the same theorems, is open. The error verdicts of the directory's
    handlers are stated together ([server_errors], [http_answers]) and not one by
    one. [DirConc.v] shows invariants of interleaved requests; the theorems about what a
    sequence of requests answers serve them one after the other. *)

From stdpp Require Export prelude strings gmap list sorting fin_maps.
From Stdlib Require Export ZArith Lia.

(** ** Scope, machine integers and byte strings *)

Declare Scope rosette_scope.
Delimit Scope rosette_scope with ros.
#[global] Open Scope Z_scope.
#[global] Open Scope rosette_scope.

(** A [u8] is an integer in [0, 256); a byte string is a list of them. The
    fixed-size arrays of the source ([[u8; 16]], [[u8; 32]]) are byte strings
    too: no operation of the program branches on their (static) length. *)
Abbreviation byte := Z (only parsing).
Abbreviation bytes := (list Z) (only parsing).

Definition u8_modulus : Z := 2 ^ 8.
Definition u32_modulus : Z := 2 ^ 32.
Definition u64_modulus : Z := 2 ^ 64.
Definition i64_max : Z := 2 ^ 63 - 1.
Definition u64_max : Z := 2 ^ 64 - 1.

(** Release-mode arithmetic: the result is reduced modulo the width. *)
Definition wrap8 (x : Z) : Z := x mod u8_modulus.
Definition wrap32 (x : Z) : Z := x mod u32_modulus.
Definition wrap64 (x : Z) : Z := x mod u64_modulus.

Notation "x +8 y" := (wrap8 (x + y)) (at level 50, left associativity) : rosette_scope.
Notation "x +32 y" := (wrap32 (x + y)) (at level 50, left associativity) : rosette_scope.
Notation "x +64 y" := (wrap64 (x + y)) (at level 50, left associativity) : rosette_scope.
Notation "x *64 y" := (wrap64 (x * y)) (at level 40, left associativity) : rosette_scope.

(** [u64::saturating_add] and [u64::saturating_sub]. *)
Definition saturating_add64 (x y : Z) : Z := Z.min (x + y) u64_max.
Definition saturating_sub64 (x y : Z) : Z := Z.max (x - y) 0.

(** [slice.len()], as an integer. *)
Definition len {A} (l : list A) : Z := Z.of_nat (length l).

Definition is_byte (b : byte) : Prop := 0 <= b < 256.
Definition are_bytes (bs : bytes) : Prop := Forall is_byte bs.

(** [to_le_bytes] and [from_le_bytes] on [n]-byte integers. *)
Fixpoint to_le_bytes (n : nat) (x : Z) : bytes :=
  match n with
  | O => []
  | S n' => (x mod 256) :: to_le_bytes n' (x / 256)
  end.

Fixpoint from_le_bytes (bs : bytes) : Z :=
  match bs with
  | [] => 0
  | b :: bs' => b + 256 * from_le_bytes bs'
  end.

Definition to_be_bytes (n : nat) (x : Z) : bytes := reverse (to_le_bytes n x).

(** String literals: a [str] is the byte string of its UTF-8 encoding. *)
Definition str (s : string) : bytes :=
  (fun c => Z.of_nat (Ascii.nat_of_ascii c)) <$> String.list_ascii_of_string s.

(** [u64 as i64] and [u32 as i32]. *)
Definition as_i64 (x : Z) : Z := if x <? 2 ^ 63 then x else x - 2 ^ 64.
Definition as_i32 (x : Z) : Z := if x <? 2 ^ 31 then x else x - 2 ^ 32.

Definition wrap_i32 (x : Z) : Z := (x + 2 ^ 31) mod u32_modulus - 2 ^ 31.

(** ** Results *)

(** [Result<A, E>]. *)
Inductive result (A E : Type) : Type :=
| Ok (a : A)
| Err (e : E).
Arguments Ok {A E} a.
Arguments Err {A E} e.

Definition result_bind {A B E} (r : result A E) (k : A -> result B E) : result B E :=
  match r with Ok a => k a | Err e => Err e end.

Definition map_err {A E F} (f : E -> F) (r : result A E) : result A F :=
  match r with Ok a => Ok a | Err e => Err (f e) end.

Definition ok_or {A E} (o : option A) (e : E) : result A E :=
  match o with Some a => Ok a | None => Err e end.

Definition is_ok {A E} (r : result A E) : bool :=
  match r with Ok _ => true | Err _ => false end.

Notation "x <-? r ; k" := (result_bind r (fun x => k))
  (at level 100, r at next level, right associativity) : rosette_scope.

(** [Iterator::find] on a list with a boolean test. *)
Fixpoint find_first {A} (p : A -> bool) (l : list A) : option A :=
  match l with
  | [] => None
  | x :: l' => if p x then Some x else find_first p l'
  end.

(** [Vec::retain] and [Iterator::filter] with a boolean test. *)
Fixpoint retain {A} (p : A -> bool) (l : list A) : list A :=
  match l with
  | [] => []
  | x :: l' => if p x then x :: retain p l' else retain p l'
  end.

(** Sum of a weight over a list and over the values of a map. *)
Fixpoint zsum {A} (f : A -> Z) (l : list A) : Z :=
  match l with [] => 0 | x :: l' => f x + zsum f l' end.

Definition zsum_map {K A} `{Countable K} (f : A -> Z) (m : gmap K A) : Z :=
  map_fold (fun _ x acc => f x + acc) 0 m.

(** ** Hint databases and tactics *)

Create HintDb rosette discriminated.
Create Rewrite HintDb lists.

(** Case analysis on every [match] and [if] of the goal or of a hypothesis,
    with the resulting equations simplified. *)
Ltac crush_match :=
  repeat (case_match; simplify_eq/=; try done).

Ltac crush_in H :=
  repeat (match type of H with
          | context [match ?x with _ => _ end] => destruct x eqn:?; simplify_eq/=; try done
          end).

(** Turn boolean comparisons into propositions. *)
Ltac bools :=
  repeat match goal with
  | H : (_ && _)%bool = true |- _ => apply andb_true_iff in H as [? ?]
  | H : (_ || _)%bool = false |- _ => apply orb_false_iff in H as [? ?]
  | H : negb _ = true |- _ => apply negb_true_iff in H
  | H : negb _ = false |- _ => apply negb_false_iff in H
  | H : (_ <=? _) = true |- _ => apply Z.leb_le in H
  | H : (_ <=? _) = false |- _ => apply Z.leb_gt in H
  | H : (_ <? _) = true |- _ => apply Z.ltb_lt in H
  | H : (_ <? _) = false |- _ => apply Z.ltb_ge in H
  | H : (_ =? _) = true |- _ => apply Z.eqb_eq in H
  | H : (_ =? _) = false |- _ => apply Z.eqb_neq in H
  | H : bool_decide _ = true |- _ => apply bool_decide_eq_true in H
  | H : bool_decide _ = false |- _ => apply bool_decide_eq_false in H
  end.

(** ** Lemmas on machine integers *)

Lemma wrap64_small x : 0 <= x < u64_modulus -> wrap64 x = x.
Proof. intros. unfold wrap64. by apply Z.mod_small. Qed.

Lemma wrap64_range x : 0 <= wrap64 x < u64_modulus.
Proof. apply Z.mod_pos_bound. done. Qed.

Lemma wrap32_small x : 0 <= x < u32_modulus -> wrap32 x = x.
Proof. intros. unfold wrap32. by apply Z.mod_small. Qed.

Lemma wrap64_add_idemp x y : wrap64 (wrap64 x + y) = wrap64 (x + y).
Proof. unfold wrap64. by rewrite Zplus_mod_idemp_l. Qed.

Lemma wrap64_eq_inv x y : wrap64 x = wrap64 y -> Z.abs (x - y) < u64_modulus -> x = y.
Proof.
  unfold wrap64, u64_modulus. intros E B.
  pose proof (Z.div_mod x (2 ^ 64)). pose proof (Z.div_mod y (2 ^ 64)). lia.
Qed.

Lemma len_nonneg {A} (l : list A) : 0 <= len l.
Proof. unfold len. lia. Qed.

Lemma len_app {A} (l k : list A) : len (l ++ k) = len l + len k.
Proof. unfold len. rewrite length_app. lia. Qed.

Lemma len_cons {A} (x : A) l : len (x :: l) = 1 + len l.
Proof. unfold len. simpl. lia. Qed.

Lemma len_nil {A} : len (@nil A) = 0.
Proof. done. Qed.

(** [lia] with the lengths in sight known to be nonnegative. *)
Ltac len_fact l :=
  lazymatch goal with
  | _ : 0 <= len l |- _ => fail
  | _ => pose proof (len_nonneg l)
  end.
Ltac len_facts :=
  repeat match goal with
  | |- context [len ?l] => len_fact l
  | _ : context [len ?l] |- _ => len_fact l
  end.
Ltac len_lia := len_facts; lia.

#[export] Hint Rewrite @len_app @len_cons @len_nil : lists.
#[export] Hint Resolve len_nonneg wrap64_range : rosette.

Lemma length_to_le_bytes n x : length (to_le_bytes n x) = n.
Proof. revert x. induction n; intros; simpl; auto. Qed.

Lemma length_to_be_bytes n x : length (to_be_bytes n x) = n.
Proof. unfold to_be_bytes. by rewrite length_reverse, length_to_le_bytes. Qed.

Lemma to_le_bytes_are_bytes n x : are_bytes (to_le_bytes n x).
Proof.
  unfold are_bytes. revert x. induction n; intros; simpl; constructor; auto.
  unfold is_byte. apply Z.mod_pos_bound. lia.
Qed.

Lemma from_to_le_bytes n x :
  0 <= x < 256 ^ Z.of_nat n -> from_le_bytes (to_le_bytes n x) = x.
Proof.
  revert x. induction n as [|n IH]; intros x Hx; simpl.
  - change (256 ^ Z.of_nat 0) with 1 in Hx. lia.
  - rewrite Nat2Z.inj_succ, Z.pow_succ_r in Hx by lia.
    rewrite IH.
    + rewrite (Z.div_mod x 256) at 3 by lia. lia.
    + split; [apply Z.div_pos; lia | apply Z.div_lt_upper_bound; lia].
Qed.

Lemma from_le_bytes_range bs :
  are_bytes bs -> 0 <= from_le_bytes bs < 256 ^ Z.of_nat (length bs).
Proof.
  unfold are_bytes, is_byte. induction 1 as [|b bs Hb _ IH]; simpl from_le_bytes.
  - done.
  - cbn [length]. rewrite Nat2Z.inj_succ, Z.pow_succ_r by lia. lia.
Qed.

Lemma to_le_bytes_inj n x y :
  0 <= x < 256 ^ Z.of_nat n -> 0 <= y < 256 ^ Z.of_nat n ->
  to_le_bytes n x = to_le_bytes n y -> x = y.
Proof.
  intros Hx Hy E. rewrite <- (from_to_le_bytes n x), <- (from_to_le_bytes n y) by done.
  by rewrite E.
Qed.

Lemma to_be_bytes_inj n x y :
  0 <= x < 256 ^ Z.of_nat n -> 0 <= y < 256 ^ Z.of_nat n ->
  to_be_bytes n x = to_be_bytes n y -> x = y.
Proof. intros Hx Hy E. apply (to_le_bytes_inj n); [done..|]. by apply (inj reverse). Qed.

(** ** Lemmas on lists *)

Lemma find_first_Some {A} (p : A -> bool) l x :
  find_first p l = Some x -> x ∈ l /\ p x = true.
Proof.
  induction l as [|y l IH]; simpl; intros H; [done|].
  destruct (p y) eqn:Hp; simplify_eq; [set_solver|]. destruct (IH H). set_solver.
Qed.

Lemma find_first_None {A} (p : A -> bool) l :
  find_first p l = None <-> Forall (fun x => p x = false) l.
Proof.
  induction l as [|y l IH]; simpl; [by split|].
  destruct (p y) eqn:Hp; split; intros H; try done.
  - inversion H; congruence.
  - constructor; [done|]. by apply IH.
  - inversion H; subst. by apply IH.
Qed.

Lemma retain_elem {A} (p : A -> bool) l x : x ∈ retain p l <-> x ∈ l /\ p x = true.
Proof.
  induction l as [|y l IH]; simpl; [set_solver|].
  destruct (p y) eqn:Hp; rewrite ?elem_of_cons, IH; naive_solver congruence.
Qed.

Lemma retain_app {A} (p : A -> bool) l k : retain p (l ++ k) = retain p l ++ retain p k.
Proof. induction l as [|y l IH]; simpl; [done|]. destruct (p y); simpl; by rewrite IH. Qed.

Lemma retain_all {A} (p : A -> bool) l : Forall (fun x => p x = true) l -> retain p l = l.
Proof. induction 1 as [|y l Hy _ IH]; simpl; [done|]. by rewrite Hy, IH. Qed.

Lemma retain_none {A} (p : A -> bool) l : Forall (fun x => p x = false) l -> retain p l = [].
Proof. induction 1 as [|y l Hy _ IH]; simpl; [done|]. by rewrite Hy, IH. Qed.

Lemma retain_length {A} (p : A -> bool) l : (length (retain p l) <= length l)%nat.
Proof. induction l as [|y l IH]; simpl; [lia|]. destruct (p y); simpl; lia. Qed.

Lemma retain_sublist {A} (p : A -> bool) l : retain p l `sublist_of` l.
Proof.
  induction l as [|y l IH]; simpl; [done|].
  destruct (p y); [by apply sublist_skip | by apply sublist_cons].
Qed.

Lemma retain_NoDup {A} (p : A -> bool) l : NoDup l -> NoDup (retain p l).
Proof. intros H. eapply sublist_NoDup; [exact H | apply retain_sublist]. Qed.

Lemma retain_map {A B} (f : A -> B) (p : B -> bool) l :
  retain p (f <$> l) = f <$> retain (fun x => p (f x)) l.
Proof. induction l as [|y l IH]; simpl; [done|]. destruct (p (f y)); simpl; by f_equal. Qed.

Lemma retain_ext {A} (p q : A -> bool) l :
  (forall x, x ∈ l -> p x = q x) -> retain p l = retain q l.
Proof.
  induction l as [|y l IH]; simpl; intros H; [done|].
  rewrite (H y), IH by set_solver. done.
Qed.

Lemma zsum_app {A} (f : A -> Z) l k : zsum f (l ++ k) = zsum f l + zsum f k.
Proof. induction l; simpl; lia. Qed.

Lemma zsum_nonneg {A} (f : A -> Z) l : (forall x, 0 <= f x) -> 0 <= zsum f l.
Proof. intros H. induction l as [|y l IH]; simpl; [lia|]. specialize (H y). lia. Qed.

Lemma zsum_retain {A} (f : A -> Z) (p : A -> bool) l :
  zsum f (retain p l) + zsum f (retain (fun x => negb (p x)) l) = zsum f l.
Proof. induction l as [|y l IH]; simpl; [lia|]. destruct (p y); simpl; lia. Qed.

#[export] Hint Rewrite @retain_app @zsum_app : lists.

(** ** Lemmas on map sums *)

Section zsum_map.
Context {K A} `{Countable K} (f : A -> Z).

Lemma zsum_map_empty : zsum_map f (∅ : gmap K A) = 0.
Proof. apply map_fold_empty. Qed.

Lemma zsum_map_insert_new (m : gmap K A) k x :
  m !! k = None -> zsum_map f (<[k:=x]> m) = f x + zsum_map f m.
Proof. intros Hk. unfold zsum_map. rewrite map_fold_insert_L; [done| |done]. intros. lia. Qed.

Lemma zsum_map_insert_old (m : gmap K A) k x y :
  m !! k = Some y -> zsum_map f (<[k:=x]> m) = zsum_map f m - f y + f x.
Proof.
  intros Hk. rewrite <- (insert_delete_eq m k x).
  rewrite zsum_map_insert_new by apply lookup_delete_eq.
  rewrite <- (insert_delete_id m k y Hk) at 2.
  rewrite zsum_map_insert_new by apply lookup_delete_eq. lia.
Qed.

Lemma zsum_map_nonneg (m : gmap K A) : (forall x, 0 <= f x) -> 0 <= zsum_map f m.
Proof.
  intros Hf. induction m as [|k x m Hk IH] using map_ind.
  - by rewrite zsum_map_empty.
  - rewrite zsum_map_insert_new by done. specialize (Hf x). lia.
Qed.

Lemma zsum_map_lookup_le (m : gmap K A) k x :
  (forall x, 0 <= f x) -> m !! k = Some x -> f x <= zsum_map f m.
Proof.
  intros Hf Hk. rewrite <- (insert_delete_id m k x Hk).
  rewrite zsum_map_insert_new by apply lookup_delete_eq.
  pose proof (zsum_map_nonneg (delete k m) Hf). lia.
Qed.
End zsum_map.
