(* ===== verification/Text.v ===== *)
(** * Text: what the crates use of Rust's [str]

    Strings are the byte strings of their UTF-8 encodings. White space, trimming
    and splitting by Unicode's White_Space property, hexadecimal and decimal
    numerals. *)

From S2P Require Import Prelude.

(** ** Characters *)

Definition is_ascii_digit (b : byte) : bool := (48 <=? b) && (b <=? 57).
Definition is_ascii_alphanumeric (b : byte) : bool :=
  is_ascii_digit b || ((65 <=? b) && (b <=? 90)) || ((97 <=? b) && (b <=? 122)).
Definition is_ascii_hexdigit (b : byte) : bool :=
  is_ascii_digit b || ((65 <=? b) && (b <=? 70)) || ((97 <=? b) && (b <=? 102)).

(** The White_Space characters, by the length of their encoding: U+0009 to U+000D
    and U+0020; U+0085 and U+00A0; U+1680, U+2000 to U+200A, U+2028, U+2029,
    U+202F, U+205F and U+3000. *)
Definition is_ascii_whitespace (b : byte) : bool := ((9 <=? b) && (b <=? 13)) || (b =? 32).
Definition is_ws2 (a b : byte) : bool := (a =? 194) && ((b =? 133) || (b =? 160)).
Definition is_ws3 (a b c : byte) : bool :=
  ((a =? 225) && (b =? 154) && (c =? 128)) ||
  ((a =? 226) && (b =? 128) && (((128 <=? c) && (c <=? 138)) || (c =? 168) || (c =? 169) || (c =? 175))) ||
  ((a =? 226) && (b =? 129) && (c =? 159)) ||
  ((a =? 227) && (b =? 128) && (c =? 128)).

(** ** The order of byte strings *)

Fixpoint blob_le (a b : bytes) : bool :=
  match a, b with
  | [], _ => true
  | _ :: _, [] => false
  | x :: a', y :: b' => (x <? y) || ((x =? y) && blob_le a' b')
  end.

(** ** [str::split_whitespace] *)

(** The word read so far, if any. *)
Definition flush (cur : bytes) : list bytes := match cur with [] => [] | _ => [cur] end.

Fixpoint split_ws (cur s : bytes) : list bytes :=
  match s with
  | [] => flush cur
  | a :: s1 =>
      if is_ascii_whitespace a then flush cur ++ split_ws [] s1
      else
        match s1 with
        | b :: s2 =>
            if is_ws2 a b then flush cur ++ split_ws [] s2
            else
              match s2 with
              | c :: s3 => if is_ws3 a b c then flush cur ++ split_ws [] s3 else split_ws (cur ++ [a]) s1
              | [] => split_ws (cur ++ [a]) s1
              end
        | [] => split_ws (cur ++ [a]) s1
        end
  end.

Definition split_whitespace (s : bytes) : list bytes := split_ws [] s.

(** [words.join(" ")]. *)
Fixpoint join_sp (ws : list bytes) : bytes :=
  match ws with
  | [] => []
  | [w] => w
  | w :: ws' => w ++ [32] ++ join_sp ws'
  end.

(** ** [str::trim] *)

Fixpoint trim_start (s : bytes) : bytes :=
  match s with
  | [] => []
  | a :: s1 =>
      if is_ascii_whitespace a then trim_start s1
      else
        match s1 with
        | b :: s2 =>
            if is_ws2 a b then trim_start s2
            else match s2 with c :: s3 => if is_ws3 a b c then trim_start s3 else s | [] => s end
        | [] => s
        end
  end.

(** On the reversed string, whose encodings are backwards. *)
Fixpoint trim_end_rev (s : bytes) : bytes :=
  match s with
  | [] => []
  | a :: s1 =>
      if is_ascii_whitespace a then trim_end_rev s1
      else
        match s1 with
        | b :: s2 =>
            if is_ws2 b a then trim_end_rev s2
            else match s2 with c :: s3 => if is_ws3 c b a then trim_end_rev s3 else s | [] => s end
        | [] => s
        end
  end.

Definition trim (s : bytes) : bytes := reverse (trim_end_rev (reverse (trim_start s))).

(** ** Hexadecimal *)

(** [format!("{b:02x}")] for every byte. *)
Definition hex_digit (n : Z) : byte := if n <? 10 then 48 + n else 87 + n.
Definition hex (bs : bytes) : bytes := bs ≫= (fun b => [hex_digit (b / 16); hex_digit (b mod 16)]).

Definition hex_value (b : byte) : option Z :=
  if is_ascii_digit b then Some (b - 48)
  else if (65 <=? b) && (b <=? 70) then Some (b - 55)
  else if (97 <=? b) && (b <=? 102) then Some (b - 87)
  else None.

(** [u8::from_str_radix(.., 16)] on two bytes; a leading [+] is accepted. *)
Definition u8_from_hex2 (a b : byte) : option Z :=
  if a =? 43 then hex_value b
  else x ← hex_value a; y ← hex_value b; Some (16 * x + y).

(** The next byte is in the middle of a character. *)
Definition mid_char (s : bytes) : bool :=
  match s with [] => false | b :: _ => (128 <=? b) && (b <? 192) end.

(** [u8::from_str_radix(&s[i * 2..i * 2 + 2], 16)] for [i] from 0 on. The outer
    [None] is the panic of a slice that ends inside of a character, [Some None] a
    pair that is not a number. *)
Fixpoint decode_hex_pairs (s : bytes) : option (option bytes) :=
  match s with
  | [] => Some (Some [])
  | a :: b :: s' =>
      if mid_char s' then None
      else match u8_from_hex2 a b with
           | None => Some None
           | Some x => r ← decode_hex_pairs s'; Some (option_map (cons x) r)
           end
  | [_] => Some None
  end.

(** ** Decimal *)

(** The decimal digits of a [u32], least significant first. *)
Fixpoint digits_rev (fuel : nat) (n : Z) : list Z :=
  match fuel with
  | O => []
  | S fuel' => (n mod 10) :: (if n <? 10 then [] else digits_rev fuel' (n / 10))
  end.

Definition decimal (n : Z) : bytes := reverse ((fun d => 48 + d) <$> digits_rev 20 n).

(** [format!("{value:0width$}")]. *)
Definition zero_padded (value width : Z) : bytes :=
  let d := decimal value in replicate (Z.to_nat (width - len d)) 48 ++ d.

(** ** UTF-8 *)

Definition is_cont (b : byte) : bool := (128 <=? b) && (b <=? 191).
(** The second byte of a three-byte and of a four-byte character. *)
Definition second3 (a b : byte) : bool :=
  is_cont b && (if a =? 224 then 160 <=? b else if a =? 237 then b <=? 159 else true).
Definition second4 (a b : byte) : bool :=
  is_cont b && (if a =? 240 then 144 <=? b else if a =? 244 then b <=? 143 else true).

Definition replacement : bytes := [239; 191; 189].

(** [String::from_utf8_lossy]: every maximal prefix of a character that does not go on
    as one becomes U+FFFD. *)
Fixpoint utf8_lossy (s : bytes) : bytes :=
  match s with
  | [] => []
  | a :: r =>
      if a <? 128 then a :: utf8_lossy r
      else if (194 <=? a) && (a <=? 223) then
        match r with
        | b :: r2 => if is_cont b then a :: b :: utf8_lossy r2 else replacement ++ utf8_lossy r
        | [] => replacement
        end
      else if (224 <=? a) && (a <=? 239) then
        match r with
        | b :: r2 =>
            if second3 a b then
              match r2 with
              | c :: r3 => if is_cont c then a :: b :: c :: utf8_lossy r3 else replacement ++ utf8_lossy r2
              | [] => replacement
              end
            else replacement ++ utf8_lossy r
        | [] => replacement
        end
      else if (240 <=? a) && (a <=? 244) then
        match r with
        | b :: r2 =>
            if second4 a b then
              match r2 with
              | c :: r3 =>
                  if is_cont c then
                    match r3 with
                    | d :: r4 => if is_cont d then a :: b :: c :: d :: utf8_lossy r4 else replacement ++ utf8_lossy r3
                    | [] => replacement
                    end
                  else replacement ++ utf8_lossy r2
              | [] => replacement
              end
            else replacement ++ utf8_lossy r
        | [] => replacement
        end
      else replacement ++ utf8_lossy r
  end.

(** The bytes of a [String]. *)
Inductive utf8 : bytes -> Prop :=
| utf8_nil : utf8 []
| utf8_1 a s : 0 <= a < 128 -> utf8 s -> utf8 (a :: s)
| utf8_2 a b s : 194 <= a <= 223 -> is_cont b = true -> utf8 s -> utf8 (a :: b :: s)
| utf8_3 a b c s : 224 <= a <= 239 -> second3 a b = true -> is_cont c = true -> utf8 s -> utf8 (a :: b :: c :: s)
| utf8_4 a b c d s : 240 <= a <= 244 -> second4 a b = true -> is_cont c = true -> is_cont d = true ->
    utf8 s -> utf8 (a :: b :: c :: d :: s).

(** ** Facts *)

(** Decide the comparisons of the leading byte. *)
Ltac lead_byte a :=
  repeat match goal with
  | |- context [a <? ?k] => (destruct (Z.ltb_spec a k); [lia|]) || (destruct (Z.ltb_spec a k); [|lia])
  | |- context [?k <=? a] => (destruct (Z.leb_spec k a); [|lia]) || (destruct (Z.leb_spec k a); [lia|])
  | |- context [a <=? ?k] => (destruct (Z.leb_spec a k); [|lia]) || (destruct (Z.leb_spec a k); [lia|])
  end.

Lemma utf8_lossy_id s : utf8 s -> utf8_lossy s = s.
Proof.
  induction 1 as [|a s Ha _ IH|a b s Ha Hb _ IH|a b c s Ha Hb Hc _ IH|a b c d s Ha Hb Hc Hd _ IH];
    cbn [utf8_lossy]; [done|..]; lead_byte a; cbn [andb]; rewrite ?Hb, ?Hc, ?Hd; by rewrite IH.
Qed.

(** The digits determine the number. *)
Lemma digits_rev_inj fuel n m :
  0 <= n < 10 ^ Z.of_nat fuel -> 0 <= m < 10 ^ Z.of_nat fuel -> digits_rev fuel n = digits_rev fuel m -> n = m.
Proof.
  revert n m. induction fuel as [|fuel IH]; intros n m Hn Hm E; [simpl in *; lia|].
  simpl in E. injection E as E1 E2.
  rewrite Nat2Z.inj_succ, Z.pow_succ_r in Hn, Hm by lia.
  pose proof (Z.div_mod n 10 ltac:(lia)). pose proof (Z.div_mod m 10 ltac:(lia)).
  destruct (Z.ltb_spec n 10), (Z.ltb_spec m 10).
  - rewrite (Z.mod_small n), (Z.mod_small m) in E1 by lia. done.
  - destruct fuel; [simpl in *; lia|done].
  - destruct fuel; [simpl in *; lia|done].
  - apply IH in E2; [lia|split; [apply Z.div_pos; lia|apply Z.div_lt_upper_bound; lia]
                        |split; [apply Z.div_pos; lia|apply Z.div_lt_upper_bound; lia]].
Qed.

Lemma decimal_inj n m : 0 <= n < 10 ^ 20 -> 0 <= m < 10 ^ 20 -> decimal n = decimal m -> n = m.
Proof.
  intros Hn Hm E. unfold decimal in E. apply (inj reverse) in E.
  apply list_fmap_eq_inj in E; [|intros x y ?; lia].
  by apply (digits_rev_inj 20) in E.
Qed.

(** Visible ASCII: no white space and no part of a longer encoding. *)
Definition visible (b : byte) : Prop := 33 <= b < 127.

Lemma split_ws_visible cur w rest :
  Forall visible w -> split_ws cur (w ++ rest) = split_ws (cur ++ w) rest.
Proof.
  intros Hw. revert cur. induction Hw as [|b w Hb Hw IH]; intros cur; [by rewrite app_nil_r|].
  assert (Ha : is_ascii_whitespace b = false).
  { unfold is_ascii_whitespace, visible in *. destruct (Z.leb_spec 9 b), (Z.leb_spec b 13), (Z.eqb_spec b 32); try done; lia. }
  assert (H2 : forall c, is_ws2 b c = false).
  { intros c. unfold is_ws2, visible in *. destruct (Z.eqb_spec b 194); [lia|done]. }
  assert (H3 : forall c e, is_ws3 b c e = false).
  { intros c e. unfold is_ws3, visible in *.
    destruct (Z.eqb_spec b 225), (Z.eqb_spec b 226), (Z.eqb_spec b 227); lia || done. }
  assert (E : split_ws cur ((b :: w) ++ rest) = split_ws (cur ++ [b]) (w ++ rest)).
  { cbn [app split_ws]. rewrite Ha. destruct (w ++ rest) as [|c s2]; [done|]. rewrite H2.
    destruct s2 as [|e s3]; [done|]. by rewrite H3. }
  rewrite E, IH, <- app_assoc. done.
Qed.

Lemma split_join ws :
  Forall (fun w => w <> [] /\ Forall visible w) ws -> split_whitespace (join_sp ws) = ws.
Proof.
  unfold split_whitespace. induction 1 as [|w ws [Hn Hv] Hws IH]; [done|].
  destruct ws as [|w' ws].
  - simpl. rewrite <- (app_nil_r w) at 1. rewrite split_ws_visible by done. by destruct w.
  - change (join_sp (w :: w' :: ws)) with (w ++ [32] ++ join_sp (w' :: ws)).
    rewrite split_ws_visible by done. rewrite app_nil_l. cbn [app split_ws].
    change (is_ascii_whitespace 32) with true. cbv iota. rewrite IH. by destruct w.
Qed.

(** *** The order of byte strings *)

Lemma blob_le_total a b : blob_le a b = true \/ blob_le b a = true.
Proof.
  revert b. induction a as [|x a IH]; intros [|y b]; simpl; try by eauto.
  destruct (IH b) as [-> | ->]; rewrite !orb_true_iff, !andb_true_iff, !Z.ltb_lt, !Z.eqb_eq; lia.
Qed.

Lemma blob_le_trans a b c : blob_le a b = true -> blob_le b c = true -> blob_le a c = true.
Proof.
  revert b c. induction a as [|x a IH]; intros [|y b] [|z c]; simpl; try done.
  rewrite !orb_true_iff, !andb_true_iff, !Z.ltb_lt, !Z.eqb_eq.
  intros [?|[-> ?]] [?|[-> ?]]; try (left; lia). right. split; [done|]. by eapply IH.
Qed.

Lemma blob_le_antisym a b : blob_le a b = true -> blob_le b a = true -> a = b.
Proof.
  revert b. induction a as [|x a IH]; intros [|y b]; simpl; try done.
  rewrite !orb_true_iff, !andb_true_iff, !Z.ltb_lt, !Z.eqb_eq.
  intros [?|[-> ?]] [?|[? ?]]; try lia. f_equal. by apply IH.
Qed.

(** *** Hexadecimal *)

Lemma hex_value_digit n : 0 <= n < 16 -> hex_value (hex_digit n) = Some n.
Proof.
  intros Hn. unfold hex_digit, hex_value, is_ascii_digit.
  destruct (Z.ltb_spec n 10).
  - destruct (Z.leb_spec 48 (48 + n)), (Z.leb_spec (48 + n) 57); simpl; try lia. f_equal. lia.
  - destruct (Z.leb_spec 48 (87 + n)), (Z.leb_spec (87 + n) 57), (Z.leb_spec 65 (87 + n)), (Z.leb_spec (87 + n) 70),
      (Z.leb_spec 97 (87 + n)), (Z.leb_spec (87 + n) 102); simpl; try lia. f_equal. lia.
Qed.

Lemma hex_digit_range n : 0 <= n < 16 -> 48 <= hex_digit n < 103.
Proof. intros Hn. unfold hex_digit. destruct (Z.ltb_spec n 10); lia. Qed.

Lemma hex_length bs : len (hex bs) = 2 * len bs.
Proof. unfold len. induction bs as [|b bs IH]; [done|]. csimpl. simpl in *. lia. Qed.

Lemma hex_not_mid bs : are_bytes bs -> mid_char (hex bs) = false.
Proof.
  intros Hb. destruct Hb as [|b bs Hb _]; [done|]. simpl. unfold is_byte in Hb.
  pose proof (hex_digit_range (b / 16)) as H. assert (0 <= b / 16 < 16) by (Z.to_euclidean_division_equations; lia).
  destruct (Z.leb_spec 128 (hex_digit (b / 16))); [lia|done].
Qed.

Lemma decode_hex_roundtrip bs : are_bytes bs -> decode_hex_pairs (hex bs) = Some (Some bs).
Proof.
  induction 1 as [|b bs Hb Hbs IH]; [done|]. unfold is_byte in Hb.
  change (hex (b :: bs)) with (hex_digit (b / 16) :: hex_digit (b mod 16) :: hex bs).
  assert (0 <= b / 16 < 16) by (Z.to_euclidean_division_equations; lia).
  assert (0 <= b mod 16 < 16) by (apply Z.mod_pos_bound; lia).
  cbn [decode_hex_pairs]. rewrite (hex_not_mid bs Hbs). unfold u8_from_hex2.
  pose proof (hex_digit_range (b / 16)). destruct (Z.eqb_spec (hex_digit (b / 16)) 43); [lia|].
  rewrite !hex_value_digit by done. simpl. rewrite IH. simpl. do 3 f_equal.
  pose proof (Z.div_mod b 16). lia.
Qed.

(** Nothing visible is trimmed. *)
Lemma trim_visible s : Forall visible s -> trim s = s.
Proof.
  assert (Hw : forall a, visible a -> is_ascii_whitespace a = false).
  { intros a Ha. unfold visible, is_ascii_whitespace in *. repeat (destruct (Z.leb_spec _ _) || destruct (Z.eqb_spec _ _)); simpl; lia. }
  assert (H2 : forall a b, visible a -> visible b -> is_ws2 a b = false).
  { intros a b Ha _. unfold visible, is_ws2 in *. destruct (Z.eqb_spec a 194); [lia|done]. }
  assert (H3 : forall a b c, visible a -> is_ws3 a b c = false).
  { intros a b c Ha. unfold visible, is_ws3 in *.
    destruct (Z.eqb_spec a 225), (Z.eqb_spec a 226), (Z.eqb_spec a 227); try lia; done. }
  assert (Hs : forall s, Forall visible s -> trim_start s = s).
  { intros t Ht. destruct Ht as [|a t Ha Ht]; [done|]. cbn [trim_start]. rewrite Hw by done.
    destruct Ht as [|b t Hb Ht]; [done|]. rewrite H2 by done. destruct t; [done|]. by rewrite H3. }
  assert (He : forall s, Forall visible s -> trim_end_rev s = s).
  { intros t Ht. destruct Ht as [|a t Ha Ht]; [done|]. cbn [trim_end_rev]. rewrite Hw by done.
    destruct Ht as [|b t Hb Ht]; [done|]. rewrite H2 by done. destruct Ht as [|c t Hc Ht]; [done|]. by rewrite H3. }
  intros Hv. unfold trim. rewrite Hs by done. rewrite He by by apply Forall_reverse. apply reverse_involutive.
Qed.

(** Nor is a zero byte. *)
Lemma whitespace_nonzero a b c :
  (is_ascii_whitespace a = true -> a <> 0) /\ (is_ws2 a b = true -> a <> 0 /\ b <> 0) /\
  (is_ws3 a b c = true -> a <> 0 /\ b <> 0 /\ c <> 0).
Proof.
  unfold is_ascii_whitespace, is_ws2, is_ws3. split_and!; intros H;
    rewrite ?orb_true_iff, ?andb_true_iff, ?orb_true_iff, ?andb_true_iff, ?Z.eqb_eq, ?Z.leb_le in H; lia.
Qed.

Lemma trim_zero s : 0 ∈ s -> 0 ∈ trim s.
Proof.
  assert (Hs : forall s, 0 ∈ s -> 0 ∈ trim_start s).
  { intros t. induction t as [t IH] using (induction_ltof1 _ (@length Z)). unfold ltof in IH. intros Hz.
    destruct t as [|a t]; [done|]. cbn [trim_start].
    destruct (is_ascii_whitespace a) eqn:Ea; [apply IH; [simpl; lia|]; apply (whitespace_nonzero a 0 0) in Ea; set_solver|].
    destruct t as [|b t]; [done|].
    destruct (is_ws2 a b) eqn:Eb; [apply IH; [simpl; lia|]; apply (whitespace_nonzero a b 0) in Eb as []; set_solver|].
    destruct t as [|c t]; [done|]. destruct (is_ws3 a b c) eqn:Ec; [|done].
    apply IH; [simpl; lia|]. apply whitespace_nonzero in Ec as (? & ? & ?). set_solver. }
  assert (He : forall s, 0 ∈ s -> 0 ∈ trim_end_rev s).
  { intros t. induction t as [t IH] using (induction_ltof1 _ (@length Z)). unfold ltof in IH. intros Hz.
    destruct t as [|a t]; [done|]. cbn [trim_end_rev].
    destruct (is_ascii_whitespace a) eqn:Ea; [apply IH; [simpl; lia|]; apply (whitespace_nonzero a 0 0) in Ea; set_solver|].
    destruct t as [|b t]; [done|].
    destruct (is_ws2 b a) eqn:Eb; [apply IH; [simpl; lia|]; apply (whitespace_nonzero b a 0) in Eb as []; set_solver|].
    destruct t as [|c t]; [done|]. destruct (is_ws3 c b a) eqn:Ec; [|done].
    apply IH; [simpl; lia|]. apply whitespace_nonzero in Ec as (? & ? & ?). set_solver. }
  intros Hz. unfold trim. apply elem_of_reverse, He, elem_of_reverse, Hs, Hz.
Qed.

Lemma hex_visible bs : are_bytes bs -> Forall visible (hex bs).
Proof.
  unfold are_bytes. induction 1 as [|b bs Hb _ IH]; [constructor|]. unfold hex in *. rewrite bind_cons. apply Forall_app. split; [|done].
  unfold is_byte in Hb. apply Forall_cons; split; [|apply Forall_cons; split; [|constructor]]; unfold visible.
  - assert (0 <= b / 16 < 16) by (split; [apply Z.div_pos|apply Z.div_lt_upper_bound]; lia).
    pose proof (hex_digit_range (b / 16)). lia.
  - pose proof (hex_digit_range (b mod 16) ltac:(apply Z.mod_pos_bound; lia)). lia.
Qed.

(** ** Reading decimals back *)

(** Read a decimal numeral. *)
Definition read_decimal (s : bytes) : Z := foldl (fun acc b => 10 * acc + (b - 48)) 0 s.

Fixpoint digits_value (ds : list Z) : Z := match ds with [] => 0 | d :: ds' => d + 10 * digits_value ds' end.

Lemma digits_rev_value fuel n :
  0 <= n < 10 ^ Z.of_nat fuel -> digits_value (digits_rev fuel n) = n.
Proof.
  revert n. induction fuel as [|fuel IH]; intros n Hn; simpl.
  { change (10 ^ Z.of_nat 0) with 1 in Hn. lia. }
  rewrite Nat2Z.inj_succ, Z.pow_succ_r in Hn by lia.
  destruct (Z.ltb_spec n 10); simpl.
  - rewrite Z.mod_small by lia. lia.
  - rewrite IH; [|split; [apply Z.div_pos; lia|apply Z.div_lt_upper_bound; lia]].
    rewrite (Z.div_mod n 10) at 3 by lia. lia.
Qed.

Lemma read_decimal_app s t :
  read_decimal (s ++ t) = foldl (fun acc b => 10 * acc + (b - 48)) (read_decimal s) t.
Proof. unfold read_decimal. by rewrite foldl_app. Qed.

Lemma read_decimal_rev ds : read_decimal (reverse ((fun d => 48 + d) <$> ds)) = digits_value ds.
Proof.
  induction ds as [|d ds IH]; [done|]. csimpl. rewrite reverse_cons, read_decimal_app, IH. simpl. lia.
Qed.

Lemma read_decimal_zeros n s : read_decimal (replicate n 48 ++ s) = read_decimal s.
Proof.
  induction n as [|n IH]; [done|]. unfold read_decimal in *. simpl. exact IH.
Qed.

Lemma decimal_value n : 0 <= n < u32_modulus -> read_decimal (decimal n) = n.
Proof.
  intros Hn. unfold decimal. rewrite read_decimal_rev. apply digits_rev_value.
  unfold u32_modulus in Hn. lia.
Qed.
