(* ===== verification/External.v ===== *)
(** * Interfaces to third-party code

    The crates the program calls but does not contain, each as an operational
    class (the functions) and a class of laws (the documented behaviour the
    program relies on). The components are defined and proved against these
    classes; [ToyInstances] at the end gives a concrete implementation of every
    one of them, which shows that the laws are consistent and which the
    concrete examples of the other files run on. *)

From S2P Require Import Prelude.

(** ** bincode 1.3 *)

(** [bincode::serialize] and [bincode::deserialize] at one serde type. *)
Class Bincode (A : Type) := {
  bincode_serialize : A -> bytes;
  bincode_deserialize : bytes -> option A;
}.
#[global] Hint Mode Bincode ! : typeclass_instances.

(** [bincode::deserialize] inverts [bincode::serialize] and, as documented for
    the top-level function, leaves trailing bytes unread. *)
Class BincodeLaws (A : Type) `{Bincode A} : Prop := {
  bincode_roundtrip : forall (a : A) (rest : bytes),
    bincode_deserialize (bincode_serialize a ++ rest) = Some a;
}.

Lemma bincode_roundtrip_exact {A} `{BincodeLaws A} (a : A) :
  bincode_deserialize (bincode_serialize a) = Some a.
Proof. rewrite <- (app_nil_r (bincode_serialize a)). apply bincode_roundtrip. Qed.

(** ** sha2, hmac *)

Class Sha256 := sha256 : bytes -> bytes.

Class Sha256Laws `{Sha256} : Prop := {
  sha256_length : forall m, length (sha256 m) = 32%nat;
  sha256_bytes : forall m, are_bytes (sha256 m);
}.

(** [hmac_sha256 key message]. *)
Class HmacSha256 := hmac_sha256 : bytes -> bytes -> bytes.

(** ** ed25519-dalek 2 *)

Class Ed25519 := {
  ed25519_sign : bytes -> bytes -> bytes;              (* SigningKey::sign *)
  ed25519_verifying_key : bytes -> bytes;              (* SigningKey::verifying_key *)
  ed25519_signature_from_slice : bytes -> option bytes; (* Signature::from_slice *)
  ed25519_verify : bytes -> bytes -> bytes -> bool;    (* VerifyingKey::verify(..).is_ok() *)
  ed25519_key_from_bytes : bytes -> option bytes;      (* VerifyingKey::from_bytes *)
}.

Class Ed25519Laws `{Ed25519} : Prop := {
  ed25519_correct : forall sk m,
    ed25519_verify (ed25519_verifying_key sk) m (ed25519_sign sk m) = true;
  ed25519_slice : forall sk m,
    ed25519_signature_from_slice (ed25519_sign sk m) = Some (ed25519_sign sk m);
}.

(** Public keys as bytes: 32 of them, accepted back. *)
Class Ed25519KeyLaws `{Ed25519} : Prop := {
  ed25519_public_len : forall sk, len sk = 32 -> are_bytes sk ->
    len (ed25519_verifying_key sk) = 32 /\ are_bytes (ed25519_verifying_key sk);
  ed25519_public_roundtrip : forall sk,
    ed25519_key_from_bytes (ed25519_verifying_key sk) = Some (ed25519_verifying_key sk);
}.

(** ** rusqlite 0.32: integers in and out of SQLite's signed 64-bit values *)

Class Rusqlite := {
  (** [u64 : ToSql]; [None] is the conversion error. *)
  sql_bind_u64 : Z -> option Z;
  (** [u64 : FromSql] on an INTEGER; [None] is [IntegralValueOutOfRange]. *)
  sql_column_u64 : Z -> option Z;
}.

Class RusqliteLaws `{Rusqlite} : Prop := {
  sql_bind_fits : forall n, 0 <= n <= i64_max -> sql_bind_u64 n = Some n;
  sql_bind_too_big : forall n, i64_max < n -> sql_bind_u64 n = None;
  sql_column_fits : forall n, 0 <= n -> sql_column_u64 n = Some n;
}.

(** ** argon2, chacha20poly1305 *)

(** [argon2id secret salt password]: 32 bytes of Argon2id with the default
    parameters; [secret] is the pepper, and [None] an error of the crate. *)
Class Argon2id := argon2id : bytes -> bytes -> bytes -> option bytes.

(** [argon2id_recovery secret salt]: 32 bytes of Argon2id with 64 MiB, three passes
    and four lanes, as the recovery code calls it. *)
Class Argon2Recovery := argon2id_recovery : bytes -> bytes -> option bytes.

(** The crate refuses only inputs outside of its documented lengths. *)
Class Argon2RecoveryLaws `{Argon2Recovery} : Prop := {
  argon2_recovery_ok : forall secret salt, len secret < 2 ^ 32 -> 8 <= len salt < 2 ^ 32 ->
    exists k, argon2id_recovery secret salt = Some k /\ length k = 32%nat;
}.

Class XChaCha20Poly1305 := {
  aead_encrypt : bytes -> bytes -> bytes -> bytes;           (* key nonce plaintext *)
  aead_decrypt : bytes -> bytes -> bytes -> option bytes;    (* key nonce ciphertext *)
}.

Class XChaCha20Poly1305Laws `{XChaCha20Poly1305} : Prop := {
  aead_correct : forall k n m, aead_decrypt k n (aead_encrypt k n m) = Some m;
}.

(** ** base64 0.22, [STANDARD] *)

Class Base64 := {
  b64_encode : bytes -> bytes;
  b64_decode : bytes -> option bytes;
}.

Class Base64Laws `{Base64} : Prop := {
  b64_roundtrip : forall bs, b64_decode (b64_encode bs) = Some bs;
}.

(** The standard alphabet is printable ASCII. *)
Class Base64TextLaws `{Base64} : Prop := {
  b64_printable : forall bs, are_bytes bs -> Forall (fun c => 33 <= c < 127) (b64_encode bs);
}.

(** ** Unspecified parts of the standard library *)

(** [DefaultHasher], whose algorithm the library does not fix: the [u64] it
    gives for a value's bytes. *)
Class DefaultHasher := default_hash : bytes -> Z.

(** [str::parse::<IpAddr>], the address given by its bytes. *)
Class IpParse := ip_parse : bytes -> option bytes.

(** [str::to_lowercase], by Unicode's tables. *)
Class Lowercase := str_to_lowercase : bytes -> bytes.

Definition ascii_lower (b : byte) : byte := if (65 <=? b) && (b <=? 90) then b + 32 else b.

Class LowercaseLaws `{Lowercase} : Prop := {
  lowercase_ascii : forall w, Forall (fun b => 0 <= b < 128) w -> str_to_lowercase w = ascii_lower <$> w;
}.

(** ** Toy implementations

    Not the real algorithms: the smallest functions that satisfy the laws. *)
Module ToyInstances.

(** Any countable type as a single "digit" in front of the unread rest. *)
Definition toy_serialize {A} `{Countable A} (a : A) : bytes := [Z.pos (encode a)].
Definition toy_deserialize {A} `{Countable A} (bs : bytes) : option A :=
  match bs with
  | Z.pos p :: _ => decode p
  | _ => None
  end.

#[export] Instance toy_bincode {A} `{Countable A} : Bincode A :=
  {| bincode_serialize := toy_serialize; bincode_deserialize := toy_deserialize |}.

#[export] Instance toy_bincode_laws {A} `{Countable A} : BincodeLaws A.
Proof. constructor. intros a rest. simpl. apply decode_encode. Qed.

(** A checksum in the last byte of 32; everything else is zero. *)
Definition toy_sha256 (m : bytes) : bytes :=
  replicate 30 0 ++ [1; zsum id m mod 256].

#[export] Instance toy_sha : Sha256 := toy_sha256.

#[export] Instance toy_sha_laws : Sha256Laws.
Proof.
  constructor; intros m; [done|].
  unfold are_bytes. apply Forall_app. split.
  - apply Forall_replicate. unfold is_byte. lia.
  - repeat constructor; unfold is_byte; try lia; apply Z.mod_pos_bound; lia.
Qed.

#[export] Instance toy_hmac : HmacSha256 := fun k m => toy_sha256 (k ++ m).

Definition toy_sign (sk m : bytes) : bytes :=
  replicate 62 0 ++ [zsum id sk mod 256; zsum id m mod 256].

#[export] Instance toy_ed25519 : Ed25519 := {|
  ed25519_sign := toy_sign;
  ed25519_verifying_key sk := sk;
  ed25519_signature_from_slice s := if bool_decide (length s = 64%nat) then Some s else None;
  ed25519_verify vk m s := bool_decide (s = toy_sign vk m);
  ed25519_key_from_bytes b := Some b;
|}.

#[export] Instance toy_ed25519_laws : Ed25519Laws.
Proof.
  constructor; intros sk m.
  - apply (bool_decide_eq_true_2 (toy_sign sk m = toy_sign sk m)). reflexivity.
  - unfold ed25519_signature_from_slice, ed25519_sign, toy_ed25519.
    rewrite bool_decide_eq_true_2; reflexivity.
Qed.

#[export] Instance toy_ed25519_key_laws : Ed25519KeyLaws.
Proof. by constructor. Qed.

#[export] Instance toy_rusqlite : Rusqlite := {|
  sql_bind_u64 n := if n <=? i64_max then Some n else None;
  sql_column_u64 n := if 0 <=? n then Some n else None;
|}.

#[export] Instance toy_rusqlite_laws : RusqliteLaws.
Proof.
  constructor; intros n Hn; unfold sql_bind_u64, sql_column_u64, toy_rusqlite.
  - destruct (Z.leb_spec n i64_max); [reflexivity | lia].
  - destruct (Z.leb_spec n i64_max); [lia | reflexivity].
  - destruct (Z.leb_spec 0 n); [reflexivity | lia].
Qed.

#[export] Instance toy_argon2 : Argon2id := fun secret salt key => Some (toy_sha256 (secret ++ salt ++ key)).

#[export] Instance toy_argon2_recovery : Argon2Recovery := fun secret salt => Some (toy_sha256 (salt ++ secret)).

#[export] Instance toy_argon2_recovery_laws : Argon2RecoveryLaws.
Proof. constructor. intros secret salt _ _. exists (toy_sha256 (salt ++ secret)). split; reflexivity. Qed.

#[export] Instance toy_lowercase : Lowercase := fun w => ascii_lower <$> w.

#[export] Instance toy_lowercase_laws : LowercaseLaws.
Proof. by constructor. Qed.

#[export] Instance toy_base64 : Base64 := {| b64_encode bs := bs; b64_decode bs := Some bs |}.

#[export] Instance toy_base64_laws : Base64Laws.
Proof. by constructor. Qed.

#[export] Instance toy_hasher : DefaultHasher := fun bs => zsum id bs.

#[export] Instance toy_ip_parse : IpParse := fun bs => match bs with [] => None | _ => Some bs end.

#[export] Instance toy_aead : XChaCha20Poly1305 := {|
  aead_encrypt k _ m := toy_sha256 k ++ m;
  aead_decrypt k _ c :=
    if bool_decide (take 32 c = toy_sha256 k) then Some (drop 32 c) else None;
|}.

#[export] Instance toy_aead_laws : XChaCha20Poly1305Laws.
Proof.
  constructor. intros k n m. unfold aead_decrypt, aead_encrypt, toy_aead.
  rewrite bool_decide_eq_true_2; reflexivity.
Qed.

End ToyInstances.
