(* ===== verification/Proto.v ===== *)
(** * The wire protocol (proto/src)

    Limits, rejection codes, envelopes and padding, contact links, the client
    and server messages, send authorization, the proof of work and the
    attestation tokens, as the [proto] crate declares them. The theorems about
    them are in [ProtoProps.v]. *)

From S2P Require Import Prelude External.

(** ** limits.rs *)

Definition MAX_MESSAGE_SIZE : Z := 65536.
Definition MAX_QUEUE_DEPTH : Z := 1000.
Definition MAX_STORAGE_BYTES : Z := 10 * 1024 * 1024 * 1024.
Definition RATE_LIMIT_PER_QUEUE_PER_MINUTE : Z := 60.
Definition QUEUE_CREATION_POW_DIFFICULTY : Z := 16.
Definition MAX_OUTSTANDING_POW_CHALLENGES : Z := 10000.

(** ** error.rs *)

Inductive RejectionCode :=
| QueueFull
| MessageTooLarge
| RateLimited
| Unauthorized
| InvalidProofOfWork
| InvalidAttestation
| QueueNotFound
| StorageBoundExceeded
| EpochConflict
| GroupInboxNotFound.

#[export] Instance RejectionCode_eq_dec : EqDecision RejectionCode.
Proof. solve_decision. Defined.

(** ** envelope.rs *)

Abbreviation MessageId := (list Z) (only parsing).
Abbreviation QueueId := (list Z) (only parsing).
Abbreviation AuthTag := (list Z) (only parsing).
Abbreviation RequestId := Z (only parsing).

Definition PADDING_BUCKETS : list Z := [1024; 4096; 16384; 32768; 65536].

Definition padded_bucket_for (n : Z) : option Z :=
  find_first (fun b => n <=? b) PADDING_BUCKETS.

(** [Vec::resize(n, 0)]: extend with zeros or truncate. *)
Definition resize_zero (v : bytes) (n : Z) : bytes := resize (Z.to_nat n) 0 v.

Definition pad (wire_bytes : bytes) : option bytes :=
  bucket ← padded_bucket_for (len wire_bytes);
  Some (resize_zero wire_bytes bucket).

Inductive DeliveryMode := RelayFanout | Pairwise | Signaling.

#[export] Instance DeliveryMode_eq_dec : EqDecision DeliveryMode.
Proof. solve_decision. Defined.

Record Envelope := mkEnvelope {
  message_id : MessageId;
  delivery_mode : DeliveryMode;
  padded_ciphertext : bytes;
}.

#[export] Instance Envelope_eq_dec : EqDecision Envelope.
Proof. solve_decision. Defined.

#[export] Instance DeliveryMode_countable : Countable DeliveryMode.
Proof.
  refine (inj_countable' (fun m => match m with RelayFanout => 0 | Pairwise => 1 | Signaling => 2 end)%nat
            (fun n => match n with 0 => RelayFanout | 1 => Pairwise | _ => Signaling end)%nat _).
  by intros [].
Defined.

#[export] Instance Envelope_countable : Countable Envelope.
Proof.
  refine (inj_countable' (fun e => (message_id e, delivery_mode e, padded_ciphertext e))
            (fun '(a, b, c) => mkEnvelope a b c) _). by intros [].
Defined.

Definition Envelope_new (mid : MessageId) (mode : DeliveryMode) (ct : bytes) : Envelope :=
  mkEnvelope mid mode ct.

(** The length every size check of the relay looks at. *)
Definition env_len (e : Envelope) : Z := len (padded_ciphertext e).

(** ** pow.rs *)

Record PowChallenge := mkPowChallenge { pc_challenge : bytes; difficulty : Z }.
Record PowSolution := mkPowSolution { ps_challenge : bytes; nonce : Z }.

(** [u8::leading_zeros]. *)
Definition leading_zeros8 (b : byte) : Z := if b =? 0 then 8 else 7 - Z.log2 b.

(** The loop of [leading_zero_bits], with its [u8] counter. *)
Fixpoint leading_zero_bits_loop (count : Z) (bs : bytes) : Z :=
  match bs with
  | [] => count
  | b :: bs' =>
      if b =? 0 then leading_zero_bits_loop (count +8 8) bs'
      else count +8 leading_zeros8 b
  end.

Definition leading_zero_bits (bs : bytes) : Z := leading_zero_bits_loop 0 bs.

Definition PowChallenge_verify `{Sha256} (c : PowChallenge) (s : PowSolution) : bool :=
  if negb (bool_decide (ps_challenge s = pc_challenge c)) then false
  else
    let digest := sha256 (pc_challenge c ++ to_le_bytes 8 (nonce s)) in
    difficulty c <=? leading_zero_bits digest.

(** [PowChallenge::generate]; [rnd] is what [fill_bytes] wrote. *)
Definition PowChallenge_generate (rnd : bytes) (d : Z) : PowChallenge := mkPowChallenge rnd d.

(** The loop of [PowChallenge::solve] from a nonce on; [None] when the fuel is
    used up while it is still searching. *)
Fixpoint PowChallenge_solve_loop `{Sha256} (c : PowChallenge) (fuel : nat) (n : Z)
  : option PowSolution :=
  match fuel with
  | O => None
  | S fuel' =>
      let solution := mkPowSolution (pc_challenge c) n in
      if PowChallenge_verify c solution then Some solution
      else PowChallenge_solve_loop c fuel' (n +64 1)
  end.

Definition PowChallenge_solve `{Sha256} (c : PowChallenge) (fuel : nat) : option PowSolution :=
  PowChallenge_solve_loop c fuel 0.

(** ** attestation.rs *)

Record AttestationToken := mkToken {
  token_nonce : bytes;
  expires_at : Z;
  signature : bytes;
}.

(** [nonce || expires_at.to_be_bytes()], the [i64] in two's complement. *)
Definition signed_payload (n : bytes) (exp : Z) : bytes :=
  n ++ to_be_bytes 8 (wrap64 exp).

Definition AttestationToken_sign `{Ed25519} (sk : bytes) (n : bytes) (exp : Z) : AttestationToken :=
  let sig := ed25519_sign sk (signed_payload n exp) in
  mkToken n exp sig.

Definition signature_valid `{Ed25519} (t : AttestationToken) (vk : bytes) : bool :=
  match ed25519_signature_from_slice (signature t) with
  | None => false
  | Some sig => ed25519_verify vk (signed_payload (token_nonce t) (expires_at t)) sig
  end.

Definition is_expired (t : AttestationToken) (now_unix : Z) : bool := expires_at t <=? now_unix.

Definition verifying_key_from_bytes `{Ed25519} (b : bytes) : option bytes := ed25519_key_from_bytes b.

(** ** link.rs *)

Definition LINK_VERSION_V1 : Z := 1.

Record Endpoint := mkEndpoint {
  relay_addr : string;
  relay_fingerprint : bytes;
  ep_queue_id : QueueId;
  ep_send_key : bytes;
}.

Record ContactLink := mkContactLink {
  version : Z;
  key_package : bytes;
  endpoints : list Endpoint;
}.

Inductive LinkError :=
| UnsupportedVersion (v : Z)
| NoEndpoints
| EmptyKeyPackage
| LinkDecode.

Definition ContactLink_validate (l : ContactLink) : result unit LinkError :=
  if negb (version l =? LINK_VERSION_V1) then Err (UnsupportedVersion (version l))
  else if bool_decide (endpoints l = []) then Err NoEndpoints
  else if bool_decide (key_package l = []) then Err EmptyKeyPackage
  else Ok tt.

Definition ContactLink_new (kp : bytes) (eps : list Endpoint) : result ContactLink LinkError :=
  let link := mkContactLink LINK_VERSION_V1 kp eps in
  _ <-? ContactLink_validate link; Ok link.

(** ** lib.rs: the shared bincode configuration *)

Definition proto_encode {A} `{Bincode A} (a : A) : bytes := bincode_serialize a.
Definition proto_decode {A} `{Bincode A} (bs : bytes) : option A := bincode_deserialize bs.

Definition ContactLink_to_bytes `{Bincode ContactLink} (l : ContactLink) : bytes := proto_encode l.

Definition ContactLink_from_bytes `{Bincode ContactLink} (bs : bytes) : result ContactLink LinkError :=
  link <-? ok_or (proto_decode bs) LinkDecode;
  _ <-? ContactLink_validate link;
  Ok link.

(** [&self.endpoints[0]]; [None] is the index panic. *)
Definition primary_endpoint (l : ContactLink) : option Endpoint := head (endpoints l).

(** ** auth.rs *)

Definition compute_tag `{HmacSha256, Bincode Envelope}
    (send_key : bytes) (queue_id : QueueId) (envelope : Envelope) : AuthTag :=
  hmac_sha256 send_key (queue_id ++ proto_encode envelope).

Definition verify_tag `{HmacSha256, Bincode Envelope}
    (send_key : bytes) (queue_id : QueueId) (envelope : Envelope) (tag : AuthTag) : bool :=
  bool_decide (compute_tag send_key queue_id envelope = tag).

(** ** wire.rs *)

Inductive GroupSendKind :=
| Commit (epoch : Z)
| Application.

Inductive ClientMessage :=
| SendToMailbox (queue_id : QueueId) (auth_tag : AuthTag) (envelope : Envelope)
| SendToGroupInbox (queue_id : QueueId) (kind : GroupSendKind) (auth_tag : AuthTag)
    (envelope : Envelope)
| Subscribe (queue_ids : list QueueId)
| Ack (queue_id : QueueId) (message_id : MessageId)
| RequestPowChallenge
| CreateMailbox (solution : PowSolution) (attestation : option AttestationToken)
| CreateGroupInbox (solution : PowSolution) (initial_epoch : Z) (fan_out_to : list QueueId)
    (attestation : option AttestationToken).

Inductive ServerMessage :=
| SOk
| SError (code : RejectionCode)
| SPowChallenge (c : PowChallenge)
| SQueueCreated (queue_id : QueueId) (send_key : bytes).

Record ClientFrame := mkClientFrame { cf_request_id : RequestId; cf_message : ClientMessage }.

Inductive ServerFrame :=
| Reply (request_id : RequestId) (message : ServerMessage)
| Push (queue_id : QueueId) (envelope : Envelope).

(** ** framing.rs *)

Inductive ReadFrameError := Closed | TooLarge (n : Z) | Io | Decode.

(** The bytes [write_frame] puts on the stream: [len() as u32], then the body. *)
Definition write_frame {A} `{Bincode A} (msg : A) : bytes :=
  let bs := proto_encode msg in
  to_le_bytes 4 (wrap32 (len bs)) ++ bs.

(** [read_frame] on a stream that delivers [stream] and then ends: the result
    and what is left unread. A length field cut short is [Closed]; a body cut
    short is the I/O error of [read_exact]. *)
Definition read_frame {A} `{Bincode A} (stream : bytes) : result A ReadFrameError * bytes :=
  if len stream <? 4 then (Err Closed, [])
  else
    let n := from_le_bytes (take 4 stream) in
    let rest := drop 4 stream in
    if MAX_MESSAGE_SIZE * 2 <? n then (Err (TooLarge n), rest)
    else if len rest <? n then (Err Io, [])
    else
      let buf := take (Z.to_nat n) rest in
      (ok_or (proto_decode buf) Decode, drop (Z.to_nat n) rest).
