(* ===== verification/ProtoProps.v ===== *)
(** * Correctness of the wire protocol

    What [Proto.v]'s functions promise: padding, the proof of work, contact
    links, attestation tokens, framing. *)

From S2P Require Import Prelude External Proto.
Import ToyInstances.

(** ** Padding *)

Lemma padded_bucket_for_spec n b :
  padded_bucket_for n = Some b ->
  n <= b /\ b ∈ PADDING_BUCKETS /\ Forall (fun b' => n <= b' -> b <= b') PADDING_BUCKETS.
Proof.
  unfold padded_bucket_for, PADDING_BUCKETS. simpl. intros H.
  repeat case_match; simplify_eq; bools;
    (split; [lia | split; [set_solver | repeat constructor; lia]]).
Qed.

Lemma padded_bucket_for_None n : padded_bucket_for n = None <-> MAX_MESSAGE_SIZE < n.
Proof.
  unfold padded_bucket_for, PADDING_BUCKETS, MAX_MESSAGE_SIZE. simpl.
  repeat case_match; bools; split; intros; (done || lia).
Qed.

Lemma resize_zero_ext (v : bytes) n :
  len v <= n -> resize_zero v n = v ++ replicate (Z.to_nat (n - len v)) 0.
Proof.
  unfold resize_zero, len. intros Hn. rewrite resize_ge by lia.
  by replace (Z.to_nat n - length v)%nat with (Z.to_nat (n - Z.of_nat (length v))) by lia.
Qed.

Lemma pad_extends (w p : bytes) : pad w = Some p -> exists k, p = w ++ replicate k 0.
Proof.
  unfold pad. destruct (padded_bucket_for (len w)) as [b|] eqn:E; simpl; [|done]. intros [= <-].
  apply padded_bucket_for_spec in E as (Hle & _). rewrite resize_zero_ext by done. eauto.
Qed.

(** Padding never truncates and leaks only the bucket. [pad] refuses exactly
    the messages larger than [MAX_MESSAGE_SIZE]; otherwise the result is the
    message followed by zeros up to the smallest bucket it fits in, so its length
    is that bucket and never exceeds what the relay accepts. *)
Theorem pad_spec (w : bytes) :
  match pad w with
  | None => MAX_MESSAGE_SIZE < len w
  | Some p =>
      (exists k, p = w ++ replicate k 0) /\
      len p ∈ PADDING_BUCKETS /\
      Forall (fun b => len w <= b -> len p <= b) PADDING_BUCKETS /\
      len p <= MAX_MESSAGE_SIZE
  end.
Proof.
  unfold pad. destruct (padded_bucket_for (len w)) as [b|] eqn:E; simpl.
  - apply padded_bucket_for_spec in E as (Hle & Hin & Hmin).
    rewrite resize_zero_ext by done.
    assert (Hlen : len (w ++ replicate (Z.to_nat (b - len w)) 0) = b).
    { unfold len in *. rewrite length_app, length_replicate. lia. }
    rewrite Hlen. repeat split; eauto.
    rewrite Forall_forall in Hmin. unfold MAX_MESSAGE_SIZE.
    unfold PADDING_BUCKETS in Hin. set_unfold in Hin. lia.
  - by apply padded_bucket_for_None.
Qed.

(** ** Proof of work *)

(** The digest as a big-endian integer. *)
Fixpoint be_value (bs : bytes) : Z :=
  match bs with
  | [] => 0
  | b :: bs' => b * 256 ^ len bs' + be_value bs'
  end.

Lemma pow256 k : 0 <= k -> 256 ^ k = 2 ^ (8 * k).
Proof. intros. rewrite Z.pow_mul_r by lia. done. Qed.

Lemma be_value_range bs : are_bytes bs -> 0 <= be_value bs < 256 ^ len bs.
Proof.
  unfold are_bytes, is_byte. induction 1 as [|b bs Hb _ IH]; simpl be_value; [done|].
  rewrite len_cons, Z.pow_add_r by len_lia. change (256 ^ 1) with 256. nia.
Qed.

Lemma log2_shifted b n r :
  0 < b -> 0 <= n -> 0 <= r < 2 ^ n -> Z.log2 (b * 2 ^ n + r) = Z.log2 b + n.
Proof.
  intros Hb Hn Hr. apply Z.log2_unique; [pose proof (Z.log2_nonneg b); lia|].
  pose proof (Z.log2_spec b Hb) as [L U]. pose proof (Z.log2_nonneg b).
  rewrite Z.pow_succ_r in * by lia. rewrite Z.pow_add_r by lia.
  assert (2 ^ Z.log2 b * 2 ^ n <= b * 2 ^ n) by nia.
  assert ((b + 1) * 2 ^ n <= 2 * 2 ^ Z.log2 b * 2 ^ n) by nia. lia.
Qed.

Lemma wrap8_small x : 0 <= x < 256 -> wrap8 x = x.
Proof. intros. unfold wrap8, u8_modulus. by apply Z.mod_small. Qed.

Lemma leading_zero_bits_loop_spec count bs :
  are_bytes bs -> 0 <= count -> count + 8 * len bs <= 256 -> be_value bs <> 0 ->
  leading_zero_bits_loop count bs = count + 8 * len bs - 1 - Z.log2 (be_value bs).
Proof.
  intros Hbs. revert count.
  induction Hbs as [|b bs Hb Hbs IH]; intros count Hc Hle Hv; [done|].
  cbn [leading_zero_bits_loop be_value] in *. rewrite len_cons in *.
  pose proof (len_nonneg bs). pose proof (be_value_range bs Hbs) as R.
  rewrite pow256 in * by lia. unfold is_byte in Hb.
  destruct (Z.eqb_spec b 0) as [->|Hb0].
  - rewrite Z.mul_0_l, Z.add_0_l in *.
    assert (Hn : bs <> []) by (intros ->; done).
    assert (1 <= len bs) by (destruct bs; [done|]; rewrite len_cons; len_lia).
    rewrite wrap8_small by lia. rewrite IH by lia. lia.
  - rewrite log2_shifted by lia. unfold leading_zeros8.
    destruct (Z.eqb_spec b 0); [done|].
    pose proof (Z.log2_nonneg b). assert (Z.log2 b < 8) by (apply Z.log2_lt_pow2; lia).
    rewrite wrap8_small by lia. lia.
Qed.

(** The counter is a [u8]: 32 zero bytes make it wrap to 0. *)
Lemma leading_zero_bits_loop_zeros count k :
  leading_zero_bits_loop (wrap8 count) (replicate k 0) = wrap8 (count + 8 * Z.of_nat k).
Proof.
  revert count. induction k as [|k IH]; intros count.
  - simpl. f_equal. lia.
  - rewrite replicate_S. cbn [leading_zero_bits_loop]. rewrite Z.eqb_refl.
    replace (wrap8 count +8 8) with (wrap8 (count + 8)) by
      (unfold wrap8, u8_modulus; by rewrite Zplus_mod_idemp_l).
    rewrite IH. f_equal. lia.
Qed.

Lemma be_value_zero bs : are_bytes bs -> be_value bs = 0 -> bs = replicate (length bs) 0.
Proof.
  unfold are_bytes, is_byte. induction 1 as [|b bs Hb Hbs IH]; [done|].
  cbn [be_value length]. intros E. pose proof (be_value_range bs Hbs).
  assert (0 < 256 ^ len bs) by (apply Z.pow_pos_nonneg; len_lia).
  assert (b = 0) as -> by nia. rewrite replicate_S, IH at 1 by lia. done.
Qed.

Lemma leading_zero_bits_ge (bs : bytes) d :
  are_bytes bs -> length bs = 32%nat -> 0 < d <= 255 ->
  d <= leading_zero_bits bs <-> 0 < be_value bs < 2 ^ (256 - d).
Proof.
  intros Hbs Hl Hd. pose proof (be_value_range bs Hbs) as R.
  assert (Hlen : len bs = 32) by (unfold len; rewrite Hl; done).
  destruct (decide (be_value bs = 0)) as [E|E].
  - assert (leading_zero_bits bs = 0) as ->.
    { unfold leading_zero_bits. rewrite (be_value_zero bs Hbs E), Hl.
      change 0 with (wrap8 0) at 1. rewrite leading_zero_bits_loop_zeros. done. }
    lia.
  - unfold leading_zero_bits. rewrite leading_zero_bits_loop_spec by (done || lia).
    rewrite Hlen. split; intros H.
    + split; [lia|]. apply Z.log2_lt_pow2; lia.
    + destruct H as [Hp H]. apply Z.log2_lt_pow2 in H; lia.
Qed.

(** What the proof of work demands. A solution is accepted exactly when it
    answers this challenge and its digest, read as a 256-bit integer, is positive
    and below [2^(256 - difficulty)]. (The all-zero digest is refused: it
    overflows the [u8] bit counter.) *)
Theorem pow_verify_spec `{Sha256Laws} (c : PowChallenge) (s : PowSolution) :
  0 < difficulty c <= 255 ->
  PowChallenge_verify c s = true <->
  ps_challenge s = pc_challenge c /\
  0 < be_value (sha256 (pc_challenge c ++ to_le_bytes 8 (nonce s))) < 2 ^ (256 - difficulty c).
Proof.
  intros Hd. unfold PowChallenge_verify.
  rewrite <- (leading_zero_bits_ge _ _ (sha256_bytes _) (sha256_length _) Hd), <- Z.leb_le.
  destruct (bool_decide (ps_challenge s = pc_challenge c)) eqn:E; bools; naive_solver.
Qed.

Lemma pow_verify_spec_witness :
  PowChallenge_verify (mkPowChallenge [7; 7] 16) (mkPowSolution [7; 7] 3) = true /\
  0 < be_value (sha256 ([7; 7] ++ to_le_bytes 8 3)) < 2 ^ (256 - 16).
Proof.
  split; [vm_compute; reflexivity|].
  apply (pow_verify_spec (mkPowChallenge [7; 7] 16) (mkPowSolution [7; 7] 3)); simpl.
  - lia.
  - vm_compute. reflexivity.
Defined.

Lemma solve_loop_finds `{Sha256} (c : PowChallenge) k m :
  0 <= m -> m + Z.of_nat k < u64_modulus ->
  PowChallenge_verify c (mkPowSolution (pc_challenge c) (m + Z.of_nat k)) = true ->
  exists n, m <= n <= m + Z.of_nat k /\
    PowChallenge_verify c (mkPowSolution (pc_challenge c) n) = true /\
    (forall n', m <= n' < n -> PowChallenge_verify c (mkPowSolution (pc_challenge c) n') = false) /\
    PowChallenge_solve_loop c (S k) m = Some (mkPowSolution (pc_challenge c) n).
Proof.
  revert m. induction k as [|k IH]; intros m Hm Hb Hv.
  - exists m. rewrite Z.add_0_r in Hv. split; [lia|]. split; [done|]. split; [lia|].
    cbn [PowChallenge_solve_loop]. by rewrite Hv.
  - destruct (PowChallenge_verify c (mkPowSolution (pc_challenge c) m)) eqn:E.
    + exists m. split; [lia|]. split; [done|]. split; [lia|].
      cbn [PowChallenge_solve_loop]. by rewrite E.
    + destruct (IH (m + 1)) as (n & Hr & Hn & Hmin & Hs); [lia|lia| |].
      { by replace (m + 1 + Z.of_nat k) with (m + Z.of_nat (S k)) by lia. }
      exists n. split; [lia|]. split; [done|]. split.
      * intros n' Hn'. destruct (decide (n' = m)) as [->|]; [done|]. apply Hmin. lia.
      * cbn [PowChallenge_solve_loop] in Hs |- *. rewrite E, wrap64_small by lia. exact Hs.
Qed.

(** C40: [solve] terminates. If some nonce [k] solves the challenge then the search
    stops after at most [k + 1] iterations, and it returns the least solution,
    which the relay's check accepts. *)
Theorem pow_solve_terminates `{Sha256} (c : PowChallenge) (k : nat) :
  Z.of_nat k < u64_modulus ->
  PowChallenge_verify c (mkPowSolution (pc_challenge c) (Z.of_nat k)) = true ->
  exists s, PowChallenge_solve c (S k) = Some s /\
    PowChallenge_verify c s = true /\
    nonce s <= Z.of_nat k /\
    (forall n, 0 <= n < nonce s ->
       PowChallenge_verify c (mkPowSolution (pc_challenge c) n) = false).
Proof.
  intros Hb Hv. destruct (solve_loop_finds c k 0) as (n & Hr & Hn & Hmin & Hs); [lia|lia|done|].
  exists (mkPowSolution (pc_challenge c) n). unfold PowChallenge_solve. simpl nonce.
  repeat split; eauto; lia.
Qed.

Lemma pow_solve_terminates_witness :
  exists s, PowChallenge_solve (mkPowChallenge [7] 16) 3 = Some s /\
    PowChallenge_verify (mkPowChallenge [7] 16) s = true /\
    nonce s <= 2 /\
    (forall n, 0 <= n < nonce s ->
       PowChallenge_verify (mkPowChallenge [7] 16) (mkPowSolution [7] n) = false).
Proof.
  apply (pow_solve_terminates (mkPowChallenge [7] 16) 2).
  - unfold u64_modulus. lia.
  - vm_compute. reflexivity.
Defined.

(** ** Framing *)

(** The sizes [read_frame] lets through. *)
Definition fits_frame {A} `{Bincode A} (msg : A) : Prop :=
  len (proto_encode msg) <= MAX_MESSAGE_SIZE * 2.

Lemma read_write_frame {A} `{BincodeLaws A} (msg : A) rest :
  fits_frame msg -> read_frame (write_frame msg ++ rest) = (Ok msg, rest).
Proof.
  unfold fits_frame, MAX_MESSAGE_SIZE. intros Hfit.
  unfold write_frame. set (bs := proto_encode msg) in *.
  pose proof (len_nonneg bs). unfold read_frame.
  assert (Hhd : length (to_le_bytes 4 (wrap32 (len bs))) = 4%nat) by apply length_to_le_bytes.
  assert (Hw : wrap32 (len bs) = len bs) by (apply wrap32_small; unfold u32_modulus; lia).
  assert (Hn : from_le_bytes (to_le_bytes 4 (len bs)) = len bs)
    by (apply from_to_le_bytes; change (256 ^ Z.of_nat 4) with 4294967296; lia).
  rewrite <- app_assoc, take_app_length' by done.
  rewrite drop_app_length' by done. rewrite Hw, Hn.
  assert (H4 : forall x, len (to_le_bytes 4 x) = 4)
    by (intros; unfold len; by rewrite length_to_le_bytes).
  rewrite !len_app, H4.
  pose proof (len_nonneg rest).
  destruct (Z.ltb_spec (4 + (len bs + len rest)) 4); [lia|].
  destruct (Z.ltb_spec (MAX_MESSAGE_SIZE * 2) (len bs)); [unfold MAX_MESSAGE_SIZE in *; lia|].
  destruct (Z.ltb_spec (len bs + len rest) (len bs)); [lia|].
  assert (Hz : Z.to_nat (len bs) = length bs) by (unfold len; lia).
  rewrite Hz, take_app_length, drop_app_length. unfold bs, proto_decode, proto_encode.
  by rewrite bincode_roundtrip_exact.
Qed.

(** Read as many frames as a list has, in order. *)
Fixpoint read_frames {A} `{Bincode A} (n : nat) (stream : bytes)
  : result (list A) ReadFrameError * bytes :=
  match n with
  | O => (Ok [], stream)
  | S n' =>
      match read_frame stream with
      | (Err e, rest) => (Err e, rest)
      | (Ok a, rest) =>
          match read_frames n' rest with
          | (Err e, rest') => (Err e, rest')
          | (Ok l, rest') => (Ok (a :: l), rest')
          end
      end
  end.

(** Framing is lossless. A sequence of messages that each fit the sanity
    ceiling, written back to back on one stream, is read back as exactly that
    sequence, with the bytes after the last frame left unread. *)
Theorem framing_roundtrip {A} `{BincodeLaws A} (msgs : list A) (rest : bytes) :
  Forall fits_frame msgs ->
  read_frames (length msgs) (concat (write_frame <$> msgs) ++ rest) = (Ok msgs, rest).
Proof.
  induction 1 as [|m msgs Hm _ IH]; [done|].
  cbn [length read_frames fmap list_fmap concat]. rewrite <- app_assoc.
  rewrite read_write_frame by done. by rewrite IH.
Qed.

Lemma framing_roundtrip_witness :
  @read_frames Z toy_bincode 2 (concat (write_frame <$> [5; 9]) ++ [1]) = (Ok [5; 9], [1]).
Proof. apply (framing_roundtrip [5; 9] [1]). repeat constructor; unfold fits_frame; vm_compute; done. Defined.

(** ** Contact links *)

Lemma validate_Ok l :
  ContactLink_validate l = Ok tt <->
  version l = LINK_VERSION_V1 /\ endpoints l <> [] /\ key_package l <> [].
Proof.
  unfold ContactLink_validate. repeat case_match; bools; split; intros; naive_solver.
Qed.

(** Contact links survive the QR code. A link that [new] accepts is decoded
    again by [from_bytes] (trailing bytes notwithstanding), and whatever [from_bytes]
    accepts is a version-1 link with a key package and a first endpoint, so
    [primary_endpoint] cannot index out of bounds. *)
Theorem contact_link_roundtrip `{BincodeLaws ContactLink} :
  (forall kp eps l rest, ContactLink_new kp eps = Ok l ->
     ContactLink_from_bytes (ContactLink_to_bytes l ++ rest) = Ok l) /\
  (forall bs l, ContactLink_from_bytes bs = Ok l ->
     version l = LINK_VERSION_V1 /\ key_package l <> [] /\
     exists e, primary_endpoint l = Some e).
Proof.
  split.
  - unfold ContactLink_new, ContactLink_from_bytes, ContactLink_to_bytes, proto_decode, proto_encode.
    intros kp eps l rest Hn. rewrite bincode_roundtrip. cbn [ok_or result_bind].
    destruct (ContactLink_validate (mkContactLink LINK_VERSION_V1 kp eps)) eqn:E;
      cbn [result_bind] in Hn; simplify_eq. by rewrite E.
  - unfold ContactLink_from_bytes. intros bs l Hf.
    destruct (proto_decode bs) as [l0|]; cbn [ok_or result_bind] in Hf; [|done].
    destruct (ContactLink_validate l0) as [[]|] eqn:E; cbn [result_bind] in Hf; simplify_eq.
    apply validate_Ok in E as (Hv & He & Hk). split; [done|]. split; [done|].
    unfold primary_endpoint. destruct (endpoints l); [done|]. simpl. eauto.
Qed.

#[export] Instance Endpoint_eq_dec : EqDecision Endpoint.
Proof. solve_decision. Defined.
#[export] Instance ContactLink_eq_dec : EqDecision ContactLink.
Proof. solve_decision. Defined.
#[export] Instance Endpoint_countable : Countable Endpoint.
Proof.
  refine (inj_countable' (fun e => (relay_addr e, relay_fingerprint e, ep_queue_id e, ep_send_key e))
            (fun '(a, b, c, d) => mkEndpoint a b c d) _). by intros [].
Defined.
#[export] Instance ContactLink_countable : Countable ContactLink.
Proof.
  refine (inj_countable' (fun l => (version l, key_package l, endpoints l))
            (fun '(a, b, c) => mkContactLink a b c) _). by intros [].
Defined.

Lemma contact_link_roundtrip_witness :
  let l := mkContactLink 1 [1; 2; 3] [mkEndpoint "relay.example:8443" [6] [7] [8]] in
  ContactLink_from_bytes (ContactLink_to_bytes l ++ [0; 0]) = Ok l.
Proof.
  intros l. apply (proj1 contact_link_roundtrip [1; 2; 3] (endpoints l)). vm_compute. reflexivity.
Defined.

(** ** Attestation tokens *)

Lemma wrap64_i64_inj x y :
  - 2 ^ 63 <= x < 2 ^ 63 -> - 2 ^ 63 <= y < 2 ^ 63 -> wrap64 x = wrap64 y -> x = y.
Proof. intros. apply wrap64_eq_inv; [done|]. unfold u64_modulus. lia. Qed.

(** A token's signature binds its nonce and its expiry. A freshly signed token
    verifies under the matching public key, and the signed payload of 16-byte
    nonces and [i64] expiries is injective: a token that verifies with the same
    payload has the same nonce and the same expiry. *)
Theorem attestation_token_binding `{Ed25519Laws} :
  (forall sk n exp,
     signature_valid (AttestationToken_sign sk n exp) (ed25519_verifying_key sk) = true) /\
  (forall n1 n2 e1 e2,
     length n1 = length n2 ->
     - 2 ^ 63 <= e1 < 2 ^ 63 -> - 2 ^ 63 <= e2 < 2 ^ 63 ->
     signed_payload n1 e1 = signed_payload n2 e2 -> n1 = n2 /\ e1 = e2).
Proof.
  split.
  - intros. unfold signature_valid, AttestationToken_sign. simpl.
    rewrite ed25519_slice. apply ed25519_correct.
  - unfold signed_payload. intros n1 n2 e1 e2 Hl H1 H2 E.
    apply app_inj_1 in E as [-> E]; [|done]. split; [done|].
    apply wrap64_i64_inj; [done..|].
    assert (256 ^ Z.of_nat 8 = u64_modulus) as Hm by done.
    eapply (to_be_bytes_inj 8); rewrite ?Hm; eauto using wrap64_range.
Qed.

Lemma attestation_token_binding_witness :
  signature_valid (AttestationToken_sign [3] [1; 2] 10000) (ed25519_verifying_key [3]) = true.
Proof. apply attestation_token_binding. Defined.
