(* ===== verification/Relay.v ===== *)
(** * The relay's state machine (relay/src/state.rs)

    [World] is everything one [RelayState] can touch: its [Inner] behind the
    mutex, the push channels of its connections, and whether the mutex has been
    poisoned by a panic. Every public method is a computation in the monad [M]:
    it maps a world to a world and an [outcome], so that the changes made before
    a [?] returns early are kept, as in the source. What a method reads from
    outside (clocks, random bytes, whether the disk accepts a write) is its
    [Env] argument; a call sees one reading of each clock. *)

From S2P Require Import Prelude Text External Proto.

(** ** Outside of the relay *)

(** The third-party code the relay calls. *)
Class RelayExt := {
  relay_sha :: Sha256;
  relay_hmac :: HmacSha256;
  relay_ed25519 :: Ed25519;
  relay_bincode :: Bincode Envelope;
  relay_rusqlite :: Rusqlite;
}.

Class RelayExtLaws (X : RelayExt) : Prop := {
  relay_sha_laws :: Sha256Laws;
  relay_ed25519_laws :: Ed25519Laws;
  relay_bincode_laws :: BincodeLaws Envelope;
  relay_rusqlite_laws :: RusqliteLaws;
}.

(** One call's view of the machine: [Instant::now] in nanoseconds, [now_unix],
    the successive results of [fill_bytes], and whether SQLite can write. *)
Record Env := mkEnv {
  mono : Z;
  unix : Z;
  draws : list bytes;
  disk_ok : bool;
}.

Definition secs (n : Z) : Z := n * 1000000000.

(** A tokio unbounded channel: still received from, and the messages sent. *)
Abbreviation ChanId := nat (only parsing).
Abbreviation PushMsg := (QueueId * MessageId * Envelope)%type (only parsing).

Record Channel := mkChannel { ch_open : bool; ch_sent : list PushMsg }.

(** ** SQLite *)

(** The values of an INTEGER column; an integer addition that overflows gives a
    REAL. *)
Inductive SqlVal := SqlNull | SqlInt (z : Z) | SqlReal.

(** The three tables of [SCHEMA]: [queues] by its primary key, the rows of
    [roster], and the rows of [pending] in the order of [seq]. *)
Record Db := mkDb {
  t_queues : gmap QueueId (bytes * SqlVal);
  t_roster : list (QueueId * Z * QueueId);
  t_pending : list (QueueId * MessageId * bytes);
}.

Definition empty_db : Db := mkDb ∅ [] [].

(** [INSERT INTO queues]; [None] is the primary-key violation. *)
Definition sql_insert_queue (q : QueueId) (k : bytes) (ep : SqlVal) (d : Db) : option Db :=
  match t_queues d !! q with
  | Some _ => None
  | None => Some (mkDb (<[q:=(k, ep)]> (t_queues d)) (t_roster d) (t_pending d))
  end.

(** [INSERT INTO roster]. *)
Definition sql_insert_roster (q : QueueId) (ord : Z) (m : QueueId) (d : Db) : option Db :=
  if bool_decide (Exists (fun r => r.1 = (q, ord)) (t_roster d)) then None
  else Some (mkDb (t_queues d) (t_roster d ++ [(q, ord, m)]) (t_pending d)).

(** [INSERT INTO pending]: [seq] is assigned by AUTOINCREMENT. *)
Definition sql_insert_pending (q : QueueId) (mid : MessageId) (blob : bytes) (d : Db) : Db :=
  mkDb (t_queues d) (t_roster d) (t_pending d ++ [(q, mid, blob)]).

(** [epoch + 1] in SQL. *)
Definition sql_succ (v : SqlVal) : SqlVal :=
  match v with
  | SqlNull => SqlNull
  | SqlInt z => if z <? i64_max then SqlInt (z + 1) else SqlReal
  | SqlReal => SqlReal
  end.

(** [UPDATE queues SET epoch = epoch + 1 WHERE queue_id = ?1]. *)
Definition sql_bump_epoch (q : QueueId) (d : Db) : Db :=
  mkDb (alter (fun '(k, ep) => (k, sql_succ ep)) q (t_queues d)) (t_roster d) (t_pending d).

(** [DELETE FROM pending WHERE queue_id = ?1 AND message_id = ?2]. *)
Definition sql_delete_pending (q : QueueId) (mid : MessageId) (d : Db) : Db :=
  mkDb (t_queues d) (t_roster d)
    (retain (fun '(q', mid', _) => negb (bool_decide (q' = q) && bool_decide (mid' = mid)))
       (t_pending d)).

(** [row.get::<_, Option<u64>>]; the outer [None] is the conversion error. *)
Definition sql_column_opt_u64 `{Rusqlite} (v : SqlVal) : option (option Z) :=
  match v with
  | SqlNull => Some None
  | SqlInt z => Some <$> sql_column_u64 z
  | SqlReal => None
  end.

(** ** The relay's data *)

Inductive QueueKind :=
| Mailbox (pending : list (MessageId * Envelope))
| GroupInbox (epoch : Z) (fan_out_to : list QueueId).

Record QueueEntry := mkEntry {
  send_key : bytes;
  kind : QueueKind;
  sent_this_minute : Z;
  window_started : Z;
}.

Record Inner := mkInner {
  queues : gmap QueueId QueueEntry;
  subscribers : gmap QueueId (list ChanId);
  outstanding_challenges : gmap bytes Z;
  challenge_order : list bytes;
  storage_bytes_used : Z;
  db : option Db;
  attestation_key : option bytes;
  spent_tokens : gmap bytes Z;
}.

(** [Inner::default()]. *)
Definition inner_default : Inner := mkInner ∅ ∅ ∅ [] 0 None None ∅.

Record World := mkWorld {
  inner : Inner;
  chans : gmap ChanId Channel;
  poisoned : bool;
}.

(** [RelayState::new]: memory only. *)
Definition relay_new : World := mkWorld inner_default ∅ false.

(** Field updates. *)
Definition set_kind (k : QueueKind) (e : QueueEntry) : QueueEntry :=
  mkEntry (send_key e) k (sent_this_minute e) (window_started e).
Definition set_queues (q : gmap QueueId QueueEntry) (i : Inner) : Inner :=
  mkInner q (subscribers i) (outstanding_challenges i) (challenge_order i)
    (storage_bytes_used i) (db i) (attestation_key i) (spent_tokens i).
Definition set_subscribers (s : gmap QueueId (list ChanId)) (i : Inner) : Inner :=
  mkInner (queues i) s (outstanding_challenges i) (challenge_order i)
    (storage_bytes_used i) (db i) (attestation_key i) (spent_tokens i).
Definition set_challenges (o : gmap bytes Z) (ord : list bytes) (i : Inner) : Inner :=
  mkInner (queues i) (subscribers i) o ord
    (storage_bytes_used i) (db i) (attestation_key i) (spent_tokens i).
Definition set_storage (n : Z) (i : Inner) : Inner :=
  mkInner (queues i) (subscribers i) (outstanding_challenges i) (challenge_order i)
    n (db i) (attestation_key i) (spent_tokens i).
Definition set_db (d : option Db) (i : Inner) : Inner :=
  mkInner (queues i) (subscribers i) (outstanding_challenges i) (challenge_order i)
    (storage_bytes_used i) d (attestation_key i) (spent_tokens i).
Definition set_key (k : option bytes) (i : Inner) : Inner :=
  mkInner (queues i) (subscribers i) (outstanding_challenges i) (challenge_order i)
    (storage_bytes_used i) (db i) k (spent_tokens i).
Definition set_spent (s : gmap bytes Z) (i : Inner) : Inner :=
  mkInner (queues i) (subscribers i) (outstanding_challenges i) (challenge_order i)
    (storage_bytes_used i) (db i) (attestation_key i) s.

Definition set_inner (i : Inner) (w : World) : World := mkWorld i (chans w) (poisoned w).
Definition set_chans (c : gmap ChanId Channel) (w : World) : World :=
  mkWorld (inner w) c (poisoned w).

(** ** The monad of relay operations *)

(** [OutOfEntropy]: the call is still drawing random bytes when the [draws] it
    was given end. *)
Inductive outcome (A : Type) :=
| Done (a : A)
| Rejected (c : RejectionCode)
| Panicked
| OutOfEntropy.
Arguments Done {A} a.
Arguments Rejected {A} c.
Arguments Panicked {A}.
Arguments OutOfEntropy {A}.

Definition M (A : Type) : Type := World -> World * outcome A.

Definition ret {A} (a : A) : M A := fun w => (w, Done a).
Definition bind {A B} (m : M A) (k : A -> M B) : M B := fun w =>
  match m w with
  | (w', Done a) => k a w'
  | (w', Rejected c) => (w', Rejected c)
  | (w', Panicked) => (w', Panicked)
  | (w', OutOfEntropy) => (w', OutOfEntropy)
  end.
Definition reject {A} (c : RejectionCode) : M A := fun w => (w, Rejected c).
Definition panic {A} : M A := fun w => (w, Panicked).
Definition no_entropy {A} : M A := fun w => (w, OutOfEntropy).
Definition gets {A} (f : Inner -> A) : M A := fun w => (w, Done (f (inner w))).
Definition modify (f : Inner -> Inner) : M unit := fun w => (set_inner (f (inner w)) w, Done tt).
Definition modify_world (f : World -> World) : M unit := fun w => (f w, Done tt).
(** [let x = ...ok_or(code)?]. *)
Definition of_option {A} (o : option A) (c : RejectionCode) : M A :=
  match o with Some a => ret a | None => reject c end.

#[global] Instance M_ret : MRet M := @ret.
#[global] Instance M_bind : MBind M := fun A B k m => bind m k.

(** [self.inner.lock().unwrap()] around the rest of the method: a poisoned mutex
    panics the caller, and a panic under the lock poisons it. *)
Definition locked {A} (m : M A) : M A := fun w =>
  if poisoned w then (w, Panicked)
  else match m w with
       | (w', Panicked) => (mkWorld (inner w') (chans w') true, Panicked)
       | r => r
       end.

(** A write-through statement or transaction, [.expect]ed: nothing without a
    database, a panic (the transaction rolled back) when SQLite refuses it. *)
Definition db_write (e : Env) (f : Db -> option Db) : M unit :=
  od ← gets db;
  match od with
  | None => ret tt
  | Some d =>
      match (if disk_ok e then f d else None) with
      | Some d' => modify (set_db (Some d'))
      | None => panic
      end
  end.

Section Relay.
Context {X : RelayExt}.
Implicit Types (e : Env).

(** ** Rate limit *)

Definition check_and_bump_rate_limit (now : Z) (q : QueueEntry)
  : QueueEntry * result unit RejectionCode :=
  let q := if secs 60 <=? now - window_started q
           then mkEntry (send_key q) (kind q) 0 now else q in
  if RATE_LIMIT_PER_QUEUE_PER_MINUTE <=? sent_this_minute q then (q, Err RateLimited)
  else (mkEntry (send_key q) (kind q) (sent_this_minute q +32 1) (window_started q), Ok tt).

(** [entry.check_and_bump_rate_limit()?] on the entry of [qid]. *)
Definition bump_queue e (qid : QueueId) (q : QueueEntry) : M unit :=
  let '(q', r) := check_and_bump_rate_limit (mono e) q in
  modify (fun i => set_queues (<[qid:=q']> (queues i)) i);;
  match r with Ok _ => ret tt | Err c => reject c end.

(** ** Proof of work and attestation gates *)

(** The eviction loop: pop the oldest challenges while the deque is at its cap.
    The deque shrinks at every turn, so it is its own fuel. *)
Fixpoint evict_challenges (n : Z) (o : gmap bytes Z) (ord : list bytes)
  : gmap bytes Z * list bytes :=
  match ord with
  | [] => (o, [])
  | oldest :: ord' =>
      if n <=? len ord then evict_challenges n (delete oldest o) ord' else (o, ord)
  end.

Definition issue_pow_challenge e : M PowChallenge :=
  match draws e with
  | [] => no_entropy
  | rnd :: _ =>
      let c := PowChallenge_generate rnd QUEUE_CREATION_POW_DIFFICULTY in
      locked (
        modify (fun i =>
          let '(o, ord) := evict_challenges MAX_OUTSTANDING_POW_CHALLENGES
                             (outstanding_challenges i) (challenge_order i) in
          set_challenges (<[pc_challenge c:=difficulty c]> o) (ord ++ [pc_challenge c]) i);;
        ret c)
  end.

Definition set_attestation_key (k : option bytes) : M unit := locked (modify (set_key k)).

Definition consume_attestation e (token : option AttestationToken) : M unit :=
  ok ← gets attestation_key;
  match ok with
  | None => ret tt
  | Some key =>
      t ← of_option token InvalidAttestation;
      let now := unix e in
      if is_expired t now || negb (signature_valid t key) then reject InvalidAttestation
      else
        modify (fun i => set_spent (filter (fun kv => now < kv.2) (spent_tokens i)) i);;
        spent ← gets spent_tokens;
        match spent !! token_nonce t with
        | Some _ => reject InvalidAttestation
        | None => modify (fun i => set_spent (<[token_nonce t:=expires_at t]> (spent_tokens i)) i)
        end
  end.

Definition consume_pow (s : PowSolution) : M unit :=
  o ← gets outstanding_challenges;
  modify (fun i => set_challenges (delete (ps_challenge s) (outstanding_challenges i))
                     (challenge_order i) i);;
  d ← of_option (o !! ps_challenge s) InvalidProofOfWork;
  if PowChallenge_verify (mkPowChallenge (ps_challenge s) d) s then ret tt
  else reject InvalidProofOfWork.

(** ** Creating queues *)

(** [fresh_queue_id]: redraw until the id is unused; also the draws left. *)
Fixpoint fresh_queue_id (qs : gmap QueueId QueueEntry) (ds : list bytes)
  : option (QueueId * list bytes) :=
  match ds with
  | [] => None
  | id :: ds' => if bool_decide (is_Some (qs !! id)) then fresh_queue_id qs ds' else Some (id, ds')
  end.

(** The id and the send key of a new queue. *)
Definition fresh_queue e : M (QueueId * bytes) :=
  qs ← gets queues;
  match fresh_queue_id qs (draws e) with
  | Some (qid, key :: _) => ret (qid, key)
  | _ => no_entropy
  end.

Definition create_mailbox e (s : PowSolution) (att : option AttestationToken)
  : M (QueueId * bytes) :=
  locked (
    consume_attestation e att;;
    consume_pow s;;
    qk ← fresh_queue e;
    db_write e (sql_insert_queue qk.1 qk.2 SqlNull);;
    modify (fun i => set_queues (<[qk.1:=mkEntry qk.2 (Mailbox []) 0 (mono e)]> (queues i)) i);;
    ret qk).

(** The roster rows of one transaction, numbered from [ord]. *)
Fixpoint sql_insert_roster_all (q : QueueId) (ord : Z) (members : list QueueId) (d : Db)
  : option Db :=
  match members with
  | [] => Some d
  | m :: ms => d' ← sql_insert_roster q ord m d; sql_insert_roster_all q (ord + 1) ms d'
  end.

Definition create_group_inbox e (s : PowSolution) (initial_epoch : Z) (fan_out_to : list QueueId)
    (att : option AttestationToken) : M (QueueId * bytes) :=
  locked (
    consume_attestation e att;;
    consume_pow s;;
    qk ← fresh_queue e;
    db_write e (fun d =>
      ep ← sql_bind_u64 initial_epoch;
      d' ← sql_insert_queue qk.1 qk.2 (SqlInt ep) d;
      sql_insert_roster_all qk.1 0 fan_out_to d');;
    modify (fun i =>
      set_queues (<[qk.1:=mkEntry qk.2 (GroupInbox initial_epoch fan_out_to) 0 (mono e)]> (queues i)) i);;
    ret qk).

(** ** Subscriptions and pushes *)

(** [tx.is_closed()]. *)
Definition chan_closed (cs : gmap ChanId Channel) (c : ChanId) : bool :=
  match cs !! c with Some ch => negb (ch_open ch) | None => true end.

(** [tx.send(msg)], and whether it succeeded. *)
Definition chan_send (c : ChanId) (msg : PushMsg) (cs : gmap ChanId Channel)
  : gmap ChanId Channel * bool :=
  match cs !! c with
  | Some ch =>
      if ch_open ch then (<[c:=mkChannel true (ch_sent ch ++ [msg])]> cs, true) else (cs, false)
  | None => (cs, false)
  end.

(** [subs.retain(|tx| tx.send(msg.clone()).is_ok())]. *)
Fixpoint notify (subs : list ChanId) (msg : PushMsg) (cs : gmap ChanId Channel)
  : gmap ChanId Channel * list ChanId :=
  match subs with
  | [] => (cs, [])
  | c :: subs' =>
      let '(cs1, ok) := chan_send c msg cs in
      let '(cs2, kept) := notify subs' msg cs1 in
      (cs2, if ok then c :: kept else kept)
  end.

Definition mailbox_pending (i : Inner) (q : QueueId) : option (list (MessageId * Envelope)) :=
  match queues i !! q with
  | Some en => match kind en with Mailbox p => Some p | GroupInbox _ _ => None end
  | None => None
  end.

Definition subscribe_one (cs : gmap ChanId Channel) (tx : ChanId) (q : QueueId) (i : Inner) : Inner :=
  let subs := default [] (subscribers i !! q) in
  let subs := retain (fun c => negb (chan_closed cs c) && negb (bool_decide (c = tx))) subs in
  set_subscribers (<[q:=subs ++ [tx]]> (subscribers i)) i.

(** The backlog drain of one queue; [false] when a send failed. *)
Fixpoint drain_pending (tx : ChanId) (q : QueueId) (p : list (MessageId * Envelope))
    (cs : gmap ChanId Channel) : gmap ChanId Channel * bool :=
  match p with
  | [] => (cs, true)
  | (mid, env) :: p' =>
      let '(cs1, ok) := chan_send tx (q, mid, env) cs in
      if ok then drain_pending tx q p' cs1 else (cs1, false)
  end.

Fixpoint drain_queues (tx : ChanId) (i : Inner) (qs : list QueueId) (cs : gmap ChanId Channel)
  : gmap ChanId Channel :=
  match qs with
  | [] => cs
  | q :: qs' =>
      let '(cs1, ok) := drain_pending tx q (default [] (mailbox_pending i q)) cs in
      if ok then drain_queues tx i qs' cs1 else cs1
  end.

Definition subscribe (queue_ids : list QueueId) (tx : ChanId) : M unit :=
  locked (modify_world (fun w =>
    let i := foldl (fun i q => subscribe_one (chans w) tx q i) (inner w) queue_ids in
    mkWorld i (drain_queues tx i queue_ids (chans w)) (poisoned w))).

(** The queue half of [push_and_notify]: append to a mailbox, account for it. *)
Definition push_store (q : QueueId) (mid : MessageId) (env : Envelope) (i : Inner) : Inner :=
  match queues i !! q with
  | Some en =>
      match kind en with
      | Mailbox p =>
          set_storage (storage_bytes_used i +64 env_len env)
            (set_queues (<[q:=set_kind (Mailbox (p ++ [(mid, env)])) en]> (queues i)) i)
      | GroupInbox _ _ => i
      end
  | None => i
  end.

(** The subscriber half: notify, dropping the senders whose receiver is gone. *)
Definition push_subs (q : QueueId) (mid : MessageId) (env : Envelope) (w : World) : World :=
  match subscribers (inner w) !! q with
  | Some subs =>
      let '(cs, kept) := notify subs (q, mid, env) (chans w) in
      mkWorld (set_subscribers (<[q:=kept]> (subscribers (inner w))) (inner w)) cs (poisoned w)
  | None => w
  end.

Definition push_and_notify (q : QueueId) (mid : MessageId) (env : Envelope) (w : World) : World :=
  push_subs q mid env (set_inner (push_store q mid env (inner w)) w).

(** ** Sending *)

Definition would_exceed_storage_bound (i : Inner) (envelope_len targets : Z) : bool :=
  let incoming := envelope_len *64 targets in
  MAX_STORAGE_BYTES <? saturating_add64 (storage_bytes_used i) incoming.

Definition send_to_mailbox e (qid : QueueId) (tag : AuthTag) (env : Envelope) : M unit :=
  if MAX_MESSAGE_SIZE <? env_len env then reject MessageTooLarge
  else locked (
    let mid := message_id env in
    qs ← gets queues;
    en ← of_option (qs !! qid) QueueNotFound;
    match kind en with
    | GroupInbox _ _ => reject QueueNotFound
    | Mailbox pending =>
        if negb (verify_tag (send_key en) qid env tag) then reject Unauthorized
        else if MAX_QUEUE_DEPTH <=? len pending then reject QueueFull
        else
          bump_queue e qid en;;
          over ← gets (fun i => would_exceed_storage_bound i (env_len env) 1);
          if (over : bool) then reject StorageBoundExceeded
          else
            db_write e (fun d => Some (sql_insert_pending qid mid (proto_encode env) d));;
            modify_world (push_and_notify qid mid env)
    end).

(** The members that are mailboxes: those whose copies are made durable. *)
Definition stored_targets (i : Inner) (roster : list QueueId) : list QueueId :=
  retain (fun m => match mailbox_pending i m with Some _ => true | None => false end) roster.

Definition bump_epoch (qid : QueueId) (k : GroupSendKind) (i : Inner) : Inner :=
  match queues i !! qid with
  | Some en =>
      match k, kind en with
      | Commit _, GroupInbox ep roster =>
          set_queues (<[qid:=set_kind (GroupInbox (ep +64 1) roster) en]> (queues i)) i
      | _, _ => i
      end
  | None => i
  end.

Definition is_commit (k : GroupSendKind) : bool :=
  match k with Commit _ => true | Application => false end.

(** The transaction of a group send: the epoch advance and the stored copies. *)
Definition group_send_tx (qid : QueueId) (commit : bool) (targets : list QueueId)
    (mid : MessageId) (env : Envelope) (d : Db) : Db :=
  foldl (fun d m => sql_insert_pending m mid (proto_encode env) d)
    (if commit then sql_bump_epoch qid d else d) targets.

Definition epoch_ok (k : GroupSendKind) (current : Z) : bool :=
  match k with Commit target => target =? current | Application => true end.

Definition send_to_group_inbox e (qid : QueueId) (k : GroupSendKind) (tag : AuthTag)
    (env : Envelope) : M unit :=
  if MAX_MESSAGE_SIZE <? env_len env then reject MessageTooLarge
  else locked (
    let mid := message_id env in
    qs ← gets queues;
    en ← of_option (qs !! qid) GroupInboxNotFound;
    if negb (verify_tag (send_key en) qid env tag) then reject Unauthorized
    else match kind en with
    | Mailbox _ => reject GroupInboxNotFound
    | GroupInbox current_epoch roster =>
        if negb (epoch_ok k current_epoch) then reject EpochConflict
        else
          over ← gets (fun i => would_exceed_storage_bound i (env_len env) (len roster));
          if (over : bool) then reject StorageBoundExceeded
          else
            bump_queue e qid en;;
            targets ← gets (fun i => stored_targets i roster);
            db_write e (fun d => Some (group_send_tx qid (is_commit k) targets mid env d));;
            modify (bump_epoch qid k);;
            modify_world (fun w => foldl (fun w m => push_and_notify m mid env w) w roster)
    end).

(** ** Acknowledging *)

Definition acked (mid : MessageId) (p : MessageId * Envelope) : bool := bool_decide (p.1 = mid).

Definition ack_inner (qid : QueueId) (mid : MessageId) (i : Inner) : Inner :=
  match queues i !! qid with
  | Some en =>
      match kind en with
      | Mailbox p =>
          let freed := zsum (fun m => env_len m.2) (retain (acked mid) p) in
          set_storage (saturating_sub64 (storage_bytes_used i) (wrap64 freed))
            (set_queues (<[qid:=set_kind (Mailbox (retain (fun m => negb (acked mid m)) p)) en]>
                           (queues i)) i)
      | GroupInbox _ _ => i
      end
  | None => i
  end.

Definition ack e (qid : QueueId) (mid : MessageId) : M unit :=
  locked (
    db_write e (fun d => Some (sql_delete_pending qid mid d));;
    modify (ack_inner qid mid)).

(** ** Dispatch *)

(** [Err(e) => ServerMessage::Error(e)]. *)
Definition reply_of {A} (f : A -> ServerMessage) (m : M A) : M ServerMessage := fun w =>
  match m w with
  | (w', Done a) => (w', Done (f a))
  | (w', Rejected c) => (w', Done (SError c))
  | (w', Panicked) => (w', Panicked)
  | (w', OutOfEntropy) => (w', OutOfEntropy)
  end.

Definition handle e (msg : ClientMessage) (push_tx : option ChanId) : M ServerMessage :=
  match msg with
  | RequestPowChallenge => reply_of SPowChallenge (issue_pow_challenge e)
  | CreateMailbox s att =>
      reply_of (fun qk => SQueueCreated qk.1 qk.2) (create_mailbox e s att)
  | CreateGroupInbox s ep roster att =>
      reply_of (fun qk => SQueueCreated qk.1 qk.2) (create_group_inbox e s ep roster att)
  | SendToMailbox q tag env => reply_of (fun _ => SOk) (send_to_mailbox e q tag env)
  | SendToGroupInbox q k tag env => reply_of (fun _ => SOk) (send_to_group_inbox e q k tag env)
  | Subscribe qs =>
      match push_tx with
      | Some tx => reply_of (fun _ => SOk) (subscribe qs tx)
      | None => ret SOk
      end
  | Ack q mid => reply_of (fun _ => SOk) (ack e q mid)
  end.

(** ** Restart *)

(** [blob32]. *)
Definition blob32 (bs : bytes) : option bytes :=
  if bool_decide (length bs = 32%nat) then Some bs else None.

Fixpoint load_queues (now : Z) (rows : list (QueueId * (bytes * SqlVal)))
    (qs : gmap QueueId QueueEntry) : option (gmap QueueId QueueEntry) :=
  match rows with
  | [] => Some qs
  | (qid, (key, ep)) :: rows' =>
      qid' ← blob32 qid;
      key' ← blob32 key;
      ep' ← sql_column_opt_u64 ep;
      let k := match ep' with None => Mailbox [] | Some n => GroupInbox n [] end in
      load_queues now rows' (<[qid':=mkEntry key' k 0 now]> qs)
  end.

(** [ORDER BY inbox_id, ord]: blobs compare as byte strings. *)
Definition roster_le (r s : QueueId * Z * QueueId) : Prop :=
  (if bool_decide (r.1.1 = s.1.1) then r.1.2 <=? s.1.2 else blob_le r.1.1 s.1.1) = true.

#[global] Instance roster_le_dec r s : Decision (roster_le r s).
Proof. unfold roster_le. apply _. Defined.

Fixpoint load_roster (rows : list (QueueId * Z * QueueId)) (qs : gmap QueueId QueueEntry)
  : option (gmap QueueId QueueEntry) :=
  match rows with
  | [] => Some qs
  | (inbox, _, member) :: rows' =>
      inbox' ← blob32 inbox;
      member' ← blob32 member;
      load_roster rows'
        (match qs !! inbox' with
         | Some en =>
             match kind en with
             | GroupInbox ep roster => <[inbox':=set_kind (GroupInbox ep (roster ++ [member'])) en]> qs
             | Mailbox _ => qs
             end
         | None => qs
         end)
  end.

Fixpoint load_pending (rows : list (QueueId * MessageId * bytes)) (qs : gmap QueueId QueueEntry)
    (used : Z) : option (gmap QueueId QueueEntry * Z) :=
  match rows with
  | [] => Some (qs, used)
  | (qid, _, blob) :: rows' =>
      qid' ← blob32 qid;
      env ← proto_decode blob;
      load_pending rows'
        (match qs !! qid' with
         | Some en =>
             match kind en with
             | Mailbox p => <[qid':=set_kind (Mailbox (p ++ [(message_id env, env)])) en]> qs
             | GroupInbox _ _ => qs
             end
         | None => qs
         end)
        (used +64 env_len env)
  end.

(** [RelayState::open] on an existing database: every queue, roster and backlog
    comes back, everything else starts from [Inner::default()]. *)
Definition relay_open (now : Z) (d : Db) : option Inner :=
  qs ← load_queues now (map_to_list (t_queues d)) ∅;
  qs ← load_roster (merge_sort roster_le (t_roster d)) qs;
  '(qs, used) ← load_pending (t_pending d) qs 0;
  Some (mkInner qs ∅ ∅ [] used (Some d) None ∅).

End Relay.

(** ** A concrete relay environment, for the examples *)
Module RelayToy.
Import ToyInstances.

#[export] Instance toy_relay : RelayExt := {|
  relay_sha := toy_sha;
  relay_hmac := toy_hmac;
  relay_ed25519 := toy_ed25519;
  relay_bincode := toy_bincode;
  relay_rusqlite := toy_rusqlite;
|}.

#[export] Instance toy_relay_laws : RelayExtLaws toy_relay.
Proof. constructor; apply _. Qed.

End RelayToy.
