(* ===== verification/RelaySpec.v ===== *)
(** * What the relay promises: the abstract delivery service

    The contract of the relay, with everything incidental removed: a map from
    queue ids to send keys and queue contents, and six kinds of events. There is
    no database, clock, rate limit, channel or mutex here. [RelayRefine.v] proves
    that every step of the implementation, restarts included, is a step of this
    machine; this file proves what the machine guarantees over whole histories:
    one commit per epoch, and a mailbox that holds exactly what was accepted for
    it and not yet acknowledged. *)

From S2P Require Import Prelude External Proto Relay.

Abbreviation AState := (gmap QueueId (bytes * QueueKind)) (only parsing).

(** What happened in a step, as an observer of the replies sees it. *)
Inductive Label :=
| LTau
| LCreated (q : QueueId) (key : bytes) (k : QueueKind)
| LAccepted (q : QueueId) (env : Envelope)
| LGroup (q : QueueId) (k : GroupSendKind) (roster : list QueueId) (env : Envelope)
| LAcked (q : QueueId) (mid : MessageId).

#[export] Instance GroupSendKind_eq_dec : EqDecision GroupSendKind.
Proof. solve_decision. Defined.
#[export] Instance QueueKind_eq_dec : EqDecision QueueKind.
Proof. solve_decision. Defined.
#[export] Instance Label_eq_dec : EqDecision Label.
Proof. solve_decision. Defined.

Definition empty_kind (k : QueueKind) : Prop :=
  match k with Mailbox p => p = [] | GroupInbox _ _ => True end.

(** Append an envelope to a mailbox; nothing when the id is not a mailbox. *)
Definition deliver_one (env : Envelope) (s : AState) (q : QueueId) : AState :=
  match s !! q with
  | Some (key, Mailbox p) => <[q:=(key, Mailbox (p ++ [(message_id env, env)]))]> s
  | _ => s
  end.

Definition deliver (roster : list QueueId) (env : Envelope) (s : AState) : AState :=
  foldl (deliver_one env) s roster.

Definition advance_epoch (q : QueueId) (k : GroupSendKind) (s : AState) : AState :=
  match k, s !! q with
  | Commit _, Some (key, GroupInbox ep roster) => <[q:=(key, GroupInbox (ep +64 1) roster)]> s
  | _, _ => s
  end.

Definition ack_abs (q : QueueId) (mid : MessageId) (s : AState) : AState :=
  match s !! q with
  | Some (key, Mailbox p) => <[q:=(key, Mailbox (retain (fun m => negb (acked mid m)) p))]> s
  | _ => s
  end.

Inductive spec_step : AState -> Label -> AState -> Prop :=
| spec_tau s :
    spec_step s LTau s
| spec_create s q key k :
    s !! q = None -> empty_kind k ->
    spec_step s (LCreated q key k) (<[q:=(key, k)]> s)
| spec_accept s q key p env :
    s !! q = Some (key, Mailbox p) ->
    len p < MAX_QUEUE_DEPTH -> env_len env <= MAX_MESSAGE_SIZE ->
    spec_step s (LAccepted q env) (deliver_one env s q)
| spec_group s q key ep roster k env :
    s !! q = Some (key, GroupInbox ep roster) ->
    epoch_ok k ep = true -> env_len env <= MAX_MESSAGE_SIZE ->
    spec_step s (LGroup q k roster env) (deliver roster env (advance_epoch q k s))
| spec_ack s q mid :
    spec_step s (LAcked q mid) (ack_abs q mid s).

(** Histories. *)
Inductive spec_steps : AState -> list Label -> AState -> Prop :=
| spec_nil s : spec_steps s [] s
| spec_cons s l s' ls s'' :
    spec_step s l s' -> spec_steps s' ls s'' -> spec_steps s (l :: ls) s''.

#[export] Hint Constructors spec_step spec_steps : rosette.

(** ** Frame lemmas: what each event leaves alone *)

Lemma deliver_one_lookup env s q q' :
  deliver_one env s q !! q' =
  if bool_decide (q = q')
  then (fun kk => (kk.1, match kk.2 with
                         | Mailbox p => Mailbox (p ++ [(message_id env, env)])
                         | k => k end)) <$> s !! q'
  else s !! q'.
Proof.
  unfold deliver_one. case_bool_decide as E.
  - subst q'. destruct (s !! q) as [[key [p|]]|] eqn:Hq; simpl; rewrite ?Hq; try done.
    by rewrite lookup_insert_eq.
  - destruct (s !! q) as [[key [p|]]|] eqn:Hq; try done. by rewrite lookup_insert_ne.
Qed.

(** How many copies of one envelope a roster delivers to a queue. *)
Definition copies (roster : list QueueId) (q : QueueId) : nat :=
  length (retain (fun m => bool_decide (m = q)) roster).

Definition append_copies (n : nat) (env : Envelope) (k : QueueKind) : QueueKind :=
  match k with
  | Mailbox p => Mailbox (p ++ replicate n (message_id env, env))
  | GroupInbox ep r => GroupInbox ep r
  end.

Lemma append_copies_0 env k : append_copies 0 env k = k.
Proof. destruct k; simpl; by rewrite ?app_nil_r. Qed.

Lemma deliver_lookup roster env s q :
  deliver roster env s !! q = (fun kk => (kk.1, append_copies (copies roster q) env kk.2)) <$> s !! q.
Proof.
  unfold deliver. revert s. induction roster as [|m roster IH]; intros s; cbn [foldl].
  - unfold copies. simpl. destruct (s !! q) as [[key k]|]; simpl; by rewrite ?append_copies_0.
  - rewrite IH, deliver_one_lookup. unfold copies. cbn [retain].
    case_bool_decide as E; [|done].
    destruct (s !! q) as [[key [p|]]|]; simpl; try done.
    by rewrite <- app_assoc.
Qed.

Lemma advance_epoch_lookup_ne q k s q' : q <> q' -> advance_epoch q k s !! q' = s !! q'.
Proof.
  intros Hne. unfold advance_epoch. repeat case_match; try done. by rewrite lookup_insert_ne.
Qed.

Lemma advance_epoch_mailbox q k s q' key p :
  s !! q' = Some (key, Mailbox p) -> advance_epoch q k s !! q' = Some (key, Mailbox p).
Proof.
  intros Hq. destruct (decide (q = q')) as [->|Hne].
  - unfold advance_epoch. rewrite Hq. by destruct k.
  - by rewrite advance_epoch_lookup_ne.
Qed.

Lemma ack_abs_lookup q mid s q' :
  ack_abs q mid s !! q' =
  if bool_decide (q = q')
  then (fun kk => (kk.1, match kk.2 with
                         | Mailbox p => Mailbox (retain (fun m => negb (acked mid m)) p)
                         | k => k end)) <$> s !! q'
  else s !! q'.
Proof.
  unfold ack_abs. case_bool_decide as E.
  - subst q'. destruct (s !! q) as [[key [p|]]|] eqn:Hq; simpl; rewrite ?Hq; try done.
    by rewrite lookup_insert_eq.
  - destruct (s !! q) as [[key [p|]]|] eqn:Hq; try done. by rewrite lookup_insert_ne.
Qed.

(** ** One commit per epoch *)

(** The epochs of the commits accepted by one inbox, in order. *)
Fixpoint commits (q : QueueId) (ls : list Label) : list Z :=
  match ls with
  | [] => []
  | LGroup q' (Commit ep) _ _ :: ls' =>
      if bool_decide (q' = q) then ep :: commits q ls' else commits q ls'
  | _ :: ls' => commits q ls'
  end.

(** [n] successive epochs, from [ep] on, in [u64] arithmetic. *)
Fixpoint epochs_from (ep : Z) (n : nat) : list Z :=
  match n with O => [] | S n' => ep :: epochs_from (ep +64 1) n' end.

Lemma spec_step_inbox s l s' q key ep roster :
  spec_step s l s' -> s !! q = Some (key, GroupInbox ep roster) ->
  (commits q [l] = [] /\ s' !! q = Some (key, GroupInbox ep roster)) \/
  (commits q [l] = [ep] /\ s' !! q = Some (key, GroupInbox (ep +64 1) roster)).
Proof.
  intros Hs Hq. destruct Hs as [s|s q0 key0 k0 Hn Hk|s q0 key0 p env H0 Hd Hl
                               |s q0 key0 ep0 r0 k env H0 Hk Hl|s q0 mid]; simpl.
  - by left.
  - left. split; [done|]. rewrite lookup_insert_ne; congruence.
  - left. split; [done|]. rewrite deliver_one_lookup, Hq. by case_bool_decide.
  - rewrite deliver_lookup. destruct (decide (q0 = q)) as [->|Hne].
    + rewrite Hq in H0. simplify_eq. unfold advance_epoch. rewrite Hq.
      destruct k as [target|]; simpl in *.
      * right. apply Z.eqb_eq in Hk as ->. rewrite bool_decide_eq_true_2 by done.
        by rewrite lookup_insert_eq.
      * left. by rewrite Hq.
    + left. rewrite advance_epoch_lookup_ne, Hq by done. simpl. split; [|done].
      destruct k; [|done]. by rewrite bool_decide_eq_false_2.
  - left. split; [done|]. rewrite ack_abs_lookup, Hq. by case_bool_decide.
Qed.

Lemma commits_cons q l ls : commits q (l :: ls) = commits q [l] ++ commits q ls.
Proof. destruct l; simpl; try done. destruct k; [|done]. by case_bool_decide. Qed.

Lemma spec_steps_inbox s ls s' q key ep roster :
  spec_steps s ls s' -> s !! q = Some (key, GroupInbox ep roster) -> 0 <= ep < u64_modulus ->
  commits q ls = epochs_from ep (length (commits q ls)) /\
  s' !! q = Some (key, GroupInbox (wrap64 (ep + len (commits q ls))) roster).
Proof.
  intros Hs. revert ep. induction Hs as [s|s l s1 ls s2 Hl _ IH]; intros ep Hq Hep.
  { simpl. rewrite len_nil, Z.add_0_r, wrap64_small by done. by split. }
  rewrite commits_cons.
  destruct (spec_step_inbox _ _ _ _ _ _ _ Hl Hq) as [[-> H1]|[-> H1]].
  - by apply IH.
  - destruct (IH _ H1 (wrap64_range _)) as [E ->]. simpl. split; [by f_equal|].
    rewrite wrap64_add_idemp, len_cons. do 4 f_equal. lia.
Qed.

Lemma epochs_from_lookup ep n i x :
  0 <= ep < u64_modulus ->
  epochs_from ep n !! i = Some x -> x = wrap64 (ep + Z.of_nat i) /\ (i < n)%nat.
Proof.
  revert ep i. induction n as [|n IH]; intros ep i Hep; [done|].
  destruct i as [|i]; simpl; intros H.
  - simplify_eq. rewrite Z.add_0_r, wrap64_small by done. split; [done|lia].
  - apply IH in H as [-> Hi]; [|apply wrap64_range].
    rewrite wrap64_add_idemp. split; [f_equal; lia | lia].
Qed.

Lemma epochs_from_NoDup ep n :
  0 <= ep < u64_modulus -> Z.of_nat n <= u64_modulus -> NoDup (epochs_from ep n).
Proof.
  intros Hep Hn. apply NoDup_alt. intros i j x Hi Hj.
  apply epochs_from_lookup in Hi as [-> Hi]; [|done].
  apply epochs_from_lookup in Hj as [E Hj]; [|done].
  apply wrap64_eq_inv in E; lia.
Qed.

(** ** The contents of a mailbox *)

(** What one event does to the backlog of mailbox [q]. *)
Definition backlog_step (q : QueueId) (p : list (MessageId * Envelope)) (l : Label)
  : list (MessageId * Envelope) :=
  match l with
  | LAccepted q' env => if bool_decide (q' = q) then p ++ [(message_id env, env)] else p
  | LGroup _ _ roster env => p ++ replicate (copies roster q) (message_id env, env)
  | LAcked q' mid => if bool_decide (q' = q) then retain (fun m => negb (acked mid m)) p else p
  | _ => p
  end.

Lemma spec_step_mailbox s l s' q key p :
  spec_step s l s' -> s !! q = Some (key, Mailbox p) ->
  s' !! q = Some (key, Mailbox (backlog_step q p l)).
Proof.
  intros Hs Hq. destruct Hs as [s|s q0 key0 k0 Hn Hk|s q0 key0 p0 env H0 Hd Hl
                               |s q0 key0 ep0 r0 k env H0 Hk Hl|s q0 mid]; simpl.
  - done.
  - rewrite lookup_insert_ne; congruence.
  - rewrite deliver_one_lookup, Hq. by case_bool_decide.
  - by rewrite deliver_lookup, (advance_epoch_mailbox _ _ _ _ _ _ Hq).
  - rewrite ack_abs_lookup, Hq. by case_bool_decide.
Qed.

Lemma spec_steps_mailbox s ls s' q key p :
  spec_steps s ls s' -> s !! q = Some (key, Mailbox p) ->
  s' !! q = Some (key, Mailbox (foldl (backlog_step q) p ls)).
Proof.
  intros Hs. revert p. induction Hs as [s|s l s1 ls s2 Hl _ IH]; intros p Hq; [done|].
  cbn [foldl]. apply IH. by eapply spec_step_mailbox.
Qed.

(** A message leaves the backlog only through its acknowledgement. *)
Lemma backlog_keeps q mid env p ls :
  (mid, env) ∈ p -> LAcked q mid ∉ ls -> (mid, env) ∈ foldl (backlog_step q) p ls.
Proof.
  revert p. induction ls as [|l ls IH]; intros p Hp Hn; [done|].
  cbn [foldl]. apply IH; [|set_solver].
  destruct l as [| |q' env'|q' k r env'|q' mid']; simpl; try case_bool_decide; try set_solver.
  subst. apply retain_elem. split; [done|]. unfold acked. simpl.
  rewrite bool_decide_eq_false_2; set_solver.
Qed.

(** An acknowledged message is gone until it is sent again. *)
Lemma backlog_acked q mid env p :
  (mid, env) ∉ backlog_step q p (LAcked q mid).
Proof.
  simpl. rewrite bool_decide_eq_true_2 by done. rewrite retain_elem. unfold acked. simpl.
  rewrite bool_decide_eq_true_2 by done. naive_solver.
Qed.
