(* ===== verification/RelayRefine.v ===== *)
(** * The relay implements the delivery service

    The invariant of the relay's state (storage accounting, agreement of memory
    and database), a description of what every operation does to the abstract
    state of [RelaySpec.v], and the simulation: each operation, successful or
    not, is a step of the abstract machine and preserves the invariant; a restart
    from the database is invisible to it. *)

From S2P Require Import Prelude External Proto Relay RelaySpec.

(** ** Inverting monadic runs *)

Definition failed {A} (r : outcome A) : Prop := match r with Done _ => False | _ => True end.

Lemma mbind_inv {A B} (m : M A) (k : A -> M B) w w' r :
  (m ≫= k) w = (w', r) ->
  (exists a w1, m w = (w1, Done a) /\ k a w1 = (w', r)) \/
  (exists r0 : outcome A, m w = (w', r0) /\ failed r0 /\ failed r).
Proof.
  unfold mbind, M_bind, bind. destruct (m w) as [w1 [a|c| |]] eqn:E; intros H; simplify_eq/=;
    [left; by eauto | right; eexists; by repeat split ..].
Qed.

Lemma locked_inv {A} (m : M A) w w' r :
  locked m w = (w', r) ->
  (w' = w /\ r = Panicked /\ poisoned w = true) \/
  (exists w1, m w = (w1, r) /\ poisoned w = false /\ inner w' = inner w1 /\ chans w' = chans w1 /\
     (r <> Panicked -> w' = w1)).
Proof.
  unfold locked. destruct (poisoned w) eqn:P; intros H; simplify_eq; [by left|].
  right. destruct (m w) as [w1 [a|c| |]] eqn:E; simplify_eq/=; eexists; by repeat split.
Qed.

Lemma db_write_inv e f w w' r :
  db_write e f w = (w', r) ->
  (r = Done tt /\
   ((db (inner w) = None /\ w' = w) \/
    exists d d', db (inner w) = Some d /\ f d = Some d' /\ disk_ok e = true /\
      w' = set_inner (set_db (Some d') (inner w)) w)) \/
  (r = Panicked /\ w' = w /\ exists d, db (inner w) = Some d /\ (disk_ok e = false \/ f d = None)).
Proof.
  unfold db_write, mbind, M_bind, bind, gets.
  destruct (db (inner w)) as [d|] eqn:Ed; [|unfold ret; intros; simplify_eq/=; left; split; [done|]; by left].
  destruct (disk_ok e) eqn:Eo; [destruct (f d) as [d'|] eqn:Ef|];
    unfold modify, panic; intros; simplify_eq/=;
    [left; split; [done|]; right; eexists _, _; by repeat split
    |right; split; [done|]; split; [done|]; eexists; split; [done|]; by (left + right) ..].
Qed.

(** The pure steps of a run evaluate. *)
Lemma gets_bind {A B} (f : Inner -> A) (k : A -> M B) w : (gets f ≫= k) w = k (f (inner w)) w.
Proof. done. Qed.
Lemma modify_bind {B} f (k : unit -> M B) w :
  (modify f ≫= k) w = k tt (set_inner (f (inner w)) w).
Proof. done. Qed.
Lemma some_bind {A B} (a : A) c (k : A -> M B) w : (of_option (Some a) c ≫= k) w = k a w.
Proof. done. Qed.
Lemma none_bind {A B} c (k : A -> M B) w : (of_option None c ≫= k) w = (w, Rejected c).
Proof. done. Qed.

Lemma bind_done {A B} (m : M A) (k : A -> M B) w w1 a : m w = (w1, Done a) -> (m ≫= k) w = k a w1.
Proof. intros H. unfold mbind, M_bind, bind. by rewrite H. Qed.

Lemma bind_rejected {A B} (m : M A) (k : A -> M B) w w1 c :
  m w = (w1, Rejected c) -> (m ≫= k) w = (w1, Rejected c).
Proof. intros H. unfold mbind, M_bind, bind. by rewrite H. Qed.

Create Rewrite HintDb run.
#[export] Hint Rewrite @gets_bind @modify_bind @some_bind @none_bind : run.

(** Split a hypothesis [(m ≫= k) w = (w', r)] or [locked m w = (w', r)]. *)
Ltac minv H :=
  lazymatch type of H with
  | (_ ≫= _) _ = _ =>
      let a := fresh "a" in let w1 := fresh "w" in let E := fresh "E" in
      apply mbind_inv in H as [(a & w1 & E & H) | (? & H & ? & ?)]
  | locked _ _ = _ =>
      apply locked_inv in H as [(-> & -> & ?) | (? & H & ? & ? & ? & ?)]
  end.

(** Evaluate the primitive computations of a hypothesis. *)
Ltac mstep H :=
  unfold gets, modify, modify_world, of_option, ret, reject, panic, no_entropy in H; simpl in H.

(** ** Abstraction and bookkeeping *)

Definition core (en : QueueEntry) : bytes * QueueKind := (send_key en, kind en).

Definition abs (i : Inner) : AState := core <$> queues i.

(** Two states that differ only in bookkeeping: rate windows, challenges, spent
    tokens, subscribers, the configured key. *)
Definition soft (i i' : Inner) : Prop :=
  abs i = abs i' /\ storage_bytes_used i = storage_bytes_used i' /\ db i = db i'.

#[global] Instance soft_equiv : Equivalence soft.
Proof.
  split; unfold soft.
  - done.
  - intros ?? (? & ? & ?). by repeat split.
  - intros ??? (? & ? & ?) (? & ? & ?). repeat split; congruence.
Qed.

Lemma abs_lookup i q : abs i !! q = core <$> queues i !! q.
Proof. apply lookup_fmap. Qed.

Lemma abs_lookup_Some i q en : queues i !! q = Some en -> abs i !! q = Some (send_key en, kind en).
Proof. intros H. by rewrite abs_lookup, H. Qed.

Lemma abs_insert i q en : abs (set_queues (<[q:=en]> (queues i)) i) = <[q:=core en]> (abs i).
Proof. unfold abs. simpl. by rewrite fmap_insert. Qed.

Lemma abs_insert_same i q en en' :
  queues i !! q = Some en -> core en' = core en ->
  abs (set_queues (<[q:=en']> (queues i)) i) = abs i.
Proof.
  intros Hq E. rewrite abs_insert, E. apply insert_id. by rewrite abs_lookup, Hq.
Qed.

Lemma check_and_bump_core now q q' r : check_and_bump_rate_limit now q = (q', r) -> core q' = core q.
Proof. unfold check_and_bump_rate_limit, core. intros H. repeat case_match; by simplify_eq/=. Qed.

(** Nothing was pushed and no subscription changed. *)
Definition same_push (w w' : World) : Prop :=
  chans w' = chans w /\ subscribers (inner w') = subscribers (inner w).

Lemma same_push_refl w : same_push w w.
Proof. done. Qed.

Section Refine.
Context {X : RelayExt}.

Lemma bump_queue_inv e qid en w w' r :
  queues (inner w) !! qid = Some en -> bump_queue e qid en w = (w', r) ->
  soft (inner w) (inner w') /\ subscribers (inner w') = subscribers (inner w) /\
  chans w' = chans w /\ poisoned w' = poisoned w /\
  queues (inner w') = <[qid:=(check_and_bump_rate_limit (mono e) en).1]> (queues (inner w)) /\
  (r = Done tt <-> (check_and_bump_rate_limit (mono e) en).2 = Ok tt).
Proof.
  intros Hq. unfold bump_queue.
  destruct (check_and_bump_rate_limit (mono e) en) as [en' r0] eqn:Eb. intros H.
  minv H; [|mstep H; simplify_eq/=; contradiction]. mstep E. simplify_eq/=.
  assert (S : soft (inner w) (set_queues (<[qid:=en']> (queues (inner w))) (inner w))).
  { repeat split. symmetry. eapply abs_insert_same; [done|]. by eapply check_and_bump_core. }
  destruct r0 as [[]|c]; mstep H; simplify_eq/=; repeat split; try apply S; try done.
Qed.

Lemma consume_attestation_inv e t w w' r :
  consume_attestation e t w = (w', r) ->
  (exists sp, w' = set_inner (set_spent sp (inner w)) w) /\ r <> Panicked.
Proof.
  assert (Hid : w = set_inner (set_spent (spent_tokens (inner w)) (inner w)) w)
    by by destruct w as [[] ? ?].
  unfold consume_attestation, mbind, M_bind, bind, gets, of_option, modify, ret, reject. simpl.
  intros H. repeat case_match; simplify_eq/=; eauto.
Qed.

Lemma consume_pow_inv s w w' r :
  consume_pow s w = (w', r) ->
  w' = set_inner (set_challenges (delete (ps_challenge s) (outstanding_challenges (inner w)))
                    (challenge_order (inner w)) (inner w)) w /\ r <> Panicked.
Proof.
  unfold consume_pow, mbind, M_bind, bind, gets, of_option, modify, ret, reject. simpl.
  intros H. repeat case_match; simplify_eq/=; done.
Qed.

Lemma fresh_queue_id_spec qs ds q ds' :
  fresh_queue_id qs ds = Some (q, ds') ->
  qs !! q = None /\ exists pre, ds = pre ++ q :: ds' /\ Forall (fun x => is_Some (qs !! x)) pre.
Proof.
  induction ds as [|d ds IH]; simpl; [done|]. case_bool_decide as E; intros H.
  - destruct (IH H) as (? & pre & -> & F). split; [done|]. exists (d :: pre). by split; [|constructor].
  - simplify_eq. split; [by apply eq_None_not_Some|]. by exists [].
Qed.

Lemma fresh_queue_inv e w w' r :
  fresh_queue e w = (w', r) -> w' = w /\ r <> Panicked /\
  (forall q k, r = Done (q, k) ->
     queues (inner w) !! q = None /\ q ∈ draws e /\ k ∈ draws e).
Proof.
  unfold fresh_queue, mbind, M_bind, bind, gets. simpl. intros H.
  destruct (fresh_queue_id (queues (inner w)) (draws e)) as [[q [|k ds]]|] eqn:E;
    mstep H; unfold ret in H; simplify_eq; split; try done; split; try done;
    intros; simplify_eq.
  apply fresh_queue_id_spec in E as (? & pre & -> & _). set_solver.
Qed.

Lemma abs_set_challenges o ord i : abs (set_challenges o ord i) = abs i.
Proof. done. Qed.

(** ** What the operations do to the abstract state *)

(** The effect of a durable write on the database, if there is one. *)
Definition db_wrote (f : Db -> option Db) (i i' : Inner) : Prop :=
  match db i with
  | None => db i' = None
  | Some d => exists d', f d = Some d' /\ db i' = Some d'
  end.

Lemma create_queue_push e att s w w' r k (f : QueueId * bytes -> Db -> option Db) :
  (consume_attestation e att;;
   consume_pow s;;
   qk ← fresh_queue e;
   db_write e (f qk);;
   modify (fun i => set_queues (<[qk.1:=mkEntry qk.2 k 0 (mono e)]> (queues i)) i);;
   mret qk) w = (w', r) -> same_push w w'.
Proof.
  intros H. minv H; [|by apply consume_attestation_inv in H as [[sp ->] _]].
  apply consume_attestation_inv in E as [[sp ->] _].
  minv H; [|by apply consume_pow_inv in H as [-> _]]. apply consume_pow_inv in E as [-> _].
  minv H; [|by apply fresh_queue_inv in H as [-> _]]. apply fresh_queue_inv in E as (-> & _).
  minv H; [|apply db_write_inv in H as [(-> & _)|(_ & -> & _)]; done].
  minv H; [|by mstep H; simplify_eq]. mstep E0. mstep H. unfold mret, M_ret, ret in H. simplify_eq/=.
  by apply db_write_inv in E as [(_ & [[_ ->]|(? & ? & _ & _ & _ & ->)])|(? & ?)].
Qed.

Lemma create_queue_inv e att s w w' r k (f : QueueId * bytes -> Db -> option Db) :
  locked (
    consume_attestation e att;;
    consume_pow s;;
    qk ← fresh_queue e;
    db_write e (f qk);;
    modify (fun i => set_queues (<[qk.1:=mkEntry qk.2 k 0 (mono e)]> (queues i)) i);;
    mret qk) w = (w', r) ->
  same_push w w' /\
  ((failed r /\ soft (inner w) (inner w')) \/
  (exists q key, r = Done (q, key) /\ q ∈ draws e /\ key ∈ draws e /\
     abs (inner w) !! q = None /\ abs (inner w') = <[q:=(key, k)]> (abs (inner w)) /\
     storage_bytes_used (inner w') = storage_bytes_used (inner w) /\
     db_wrote (f (q, key)) (inner w) (inner w'))).
Proof.
  intros H. minv H; [split; [done|]; by left|]. rename H1 into Hi, H2 into Hc.
  assert (Hch : same_push w w'); [|split; [done|]; clear Hc Hch].
  { unfold same_push. rewrite Hc, Hi. by eapply create_queue_push. }
  minv H; [|left; rewrite Hi; apply consume_attestation_inv in H as [[sp ->] _]; by split].
  apply consume_attestation_inv in E as [[sp ->] _].
  minv H; [|left; rewrite Hi; apply consume_pow_inv in H as [-> _]; by split].
  apply consume_pow_inv in E as [-> _].
  minv H; [|left; rewrite Hi; apply fresh_queue_inv in H as [-> _]; by split].
  apply fresh_queue_inv in E as (-> & _ & Hf). destruct a1 as [q key].
  destruct (Hf q key eq_refl) as (Hn & Hq & Hk). simpl in Hn.
  minv H; [|left; rewrite Hi; apply db_write_inv in H as [(-> & _)|(-> & -> & _)]; by split].
  minv H; [|mstep H; simplify_eq; contradiction].
  mstep E0. mstep H. unfold mret, M_ret, ret in H. simplify_eq/=.
  right. exists q, key. rewrite Hi. apply db_write_inv in E as [(_ & [[Hd ->]|(d & d' & Hd & Hfd & _ & ->)])|(?&?)];
    simpl in *; [ | |done].
  - repeat split; try done; [by rewrite abs_lookup, Hn | by unfold abs; simpl; rewrite fmap_insert | by unfold db_wrote; rewrite Hd].
  - repeat split; try done; [by rewrite abs_lookup, Hn | by unfold abs; simpl; rewrite fmap_insert | unfold db_wrote; rewrite Hd; by eauto].
Qed.

Lemma create_mailbox_inv e s att w w' r :
  create_mailbox e s att w = (w', r) ->
  same_push w w' /\
  ((failed r /\ soft (inner w) (inner w')) \/
  (exists q key, r = Done (q, key) /\ q ∈ draws e /\ key ∈ draws e /\
     abs (inner w) !! q = None /\ abs (inner w') = <[q:=(key, Mailbox [])]> (abs (inner w)) /\
     storage_bytes_used (inner w') = storage_bytes_used (inner w) /\
     db_wrote (sql_insert_queue q key SqlNull) (inner w) (inner w'))).
Proof. apply (create_queue_inv e att s w w' r (Mailbox []) (fun qk => sql_insert_queue qk.1 qk.2 SqlNull)). Qed.

(** The transaction of [create_group_inbox]. *)
Definition create_inbox_tx (ep : Z) (roster : list QueueId) (q : QueueId) (key : bytes) (d : Db)
  : option Db :=
  ep' ← sql_bind_u64 ep;
  d' ← sql_insert_queue q key (SqlInt ep') d;
  sql_insert_roster_all q 0 roster d'.

Lemma create_group_inbox_inv e s ep roster att w w' r :
  create_group_inbox e s ep roster att w = (w', r) ->
  same_push w w' /\
  ((failed r /\ soft (inner w) (inner w')) \/
  (exists q key, r = Done (q, key) /\ q ∈ draws e /\ key ∈ draws e /\
     abs (inner w) !! q = None /\ abs (inner w') = <[q:=(key, GroupInbox ep roster)]> (abs (inner w)) /\
     storage_bytes_used (inner w') = storage_bytes_used (inner w) /\
     db_wrote (create_inbox_tx ep roster q key) (inner w) (inner w'))).
Proof.
  apply (create_queue_inv e att s w w' r (GroupInbox ep roster)
           (fun qk => create_inbox_tx ep roster qk.1 qk.2)).
Qed.

(** ** Storage accounting *)

Definition kind_bytes (k : QueueKind) : Z :=
  match k with Mailbox p => zsum (fun m => env_len m.2) p | GroupInbox _ _ => 0 end.

(** The bytes held by all mailboxes together. *)
Definition abytes (s : AState) : Z := zsum_map (fun kk => kind_bytes kk.2) s.

Definition is_mailbox (s : AState) (q : QueueId) : bool :=
  match s !! q with Some (_, Mailbox _) => true | _ => false end.

Lemma env_len_nonneg env : 0 <= env_len env.
Proof. apply len_nonneg. Qed.

Lemma kind_bytes_nonneg k : 0 <= kind_bytes k.
Proof. destruct k; simpl; [|lia]. apply zsum_nonneg. intros. apply env_len_nonneg. Qed.

Lemma abytes_nonneg s : 0 <= abytes s.
Proof. apply zsum_map_nonneg. intros. apply kind_bytes_nonneg. Qed.

Lemma abytes_deliver_one env s q :
  abytes (deliver_one env s q) = abytes s + (if is_mailbox s q then env_len env else 0).
Proof.
  unfold deliver_one, is_mailbox, abytes.
  destruct (s !! q) as [[key [p|]]|] eqn:Hq; try lia.
  rewrite (zsum_map_insert_old _ _ _ _ _ Hq). cbn [kind_bytes snd].
  rewrite zsum_app. cbn [zsum snd]. lia.
Qed.

Lemma is_mailbox_deliver_one env s q q' : is_mailbox (deliver_one env s q) q' = is_mailbox s q'.
Proof.
  unfold is_mailbox. rewrite deliver_one_lookup. case_bool_decide; [|done].
  by destruct (s !! q') as [[? []]|].
Qed.

Lemma mailbox_pending_abs i q :
  mailbox_pending i q = match abs i !! q with Some (_, Mailbox p) => Some p | _ => None end.
Proof. unfold mailbox_pending. rewrite abs_lookup. by destruct (queues i !! q). Qed.

Definition acct (i : Inner) : Prop := storage_bytes_used i = abytes (abs i).

Lemma push_store_inv q env i :
  abs (push_store q (message_id env) env i) = deliver_one env (abs i) q /\
  storage_bytes_used (push_store q (message_id env) env i) =
    (if is_mailbox (abs i) q then storage_bytes_used i +64 env_len env else storage_bytes_used i) /\
  db (push_store q (message_id env) env i) = db i /\
  subscribers (push_store q (message_id env) env i) = subscribers i.
Proof.
  unfold push_store, deliver_one, is_mailbox. rewrite abs_lookup.
  destruct (queues i !! q) as [en|] eqn:Hq; simpl; [|done].
  destruct (kind en) as [p|ep r] eqn:Hk; simpl; [|done].
  repeat split. unfold abs. simpl. by rewrite fmap_insert.
Qed.

Lemma push_subs_inner q mid env w :
  queues (inner (push_subs q mid env w)) = queues (inner w) /\
  storage_bytes_used (inner (push_subs q mid env w)) = storage_bytes_used (inner w) /\
  db (inner (push_subs q mid env w)) = db (inner w).
Proof.
  unfold push_subs. destruct (subscribers (inner w) !! q); [|done].
  by destruct (notify _ _ _).
Qed.

Lemma push_and_notify_inv q env w :
  let w' := push_and_notify q (message_id env) env w in
  abs (inner w') = deliver_one env (abs (inner w)) q /\
  storage_bytes_used (inner w') =
    (if is_mailbox (abs (inner w)) q then storage_bytes_used (inner w) +64 env_len env
     else storage_bytes_used (inner w)) /\
  db (inner w') = db (inner w).
Proof.
  intros w'. unfold w', push_and_notify, abs.
  destruct (push_subs_inner q (message_id env) env
              (set_inner (push_store q (message_id env) env (inner w)) w)) as (-> & -> & ->).
  destruct (push_store_inv q env (inner w)) as (? & ? & ? & _). done.
Qed.

Lemma push_and_notify_acct q env w :
  acct (inner w) -> abytes (abs (inner w)) + env_len env < u64_modulus ->
  acct (inner (push_and_notify q (message_id env) env w)).
Proof.
  unfold acct. intros Ha Hb. destruct (push_and_notify_inv q env w) as (-> & -> & _).
  rewrite abytes_deliver_one. pose proof (abytes_nonneg (abs (inner w))).
  pose proof (env_len_nonneg env). destruct (is_mailbox _ _); [|lia].
  rewrite Ha, wrap64_small; lia.
Qed.

Lemma push_all_inv roster env w :
  acct (inner w) -> abytes (abs (inner w)) + env_len env * len roster < u64_modulus ->
  let w' := foldl (fun w m => push_and_notify m (message_id env) env w) w roster in
  abs (inner w') = deliver roster env (abs (inner w)) /\ acct (inner w') /\ db (inner w') = db (inner w).
Proof.
  revert w. induction roster as [|m roster IH]; intros w Ha Hb; [done|].
  rewrite len_cons in Hb. pose proof (env_len_nonneg env). cbn [foldl].
  destruct (push_and_notify_inv m env w) as (Eabs & _ & Edb).
  destruct (IH (push_and_notify m (message_id env) env w)) as (E1 & E2 & E3).
  - apply push_and_notify_acct; [done|]. len_facts. nia.
  - rewrite Eabs, abytes_deliver_one. destruct (is_mailbox _ _); len_facts; nia.
  - split; [|split]; [rewrite E1, Eabs; done | done | by rewrite E3].
Qed.

(** The bytes a delivery adds never exceed the multiplied cost checked first. *)
Lemma abytes_deliver roster env s :
  abytes s <= abytes (deliver roster env s) <= abytes s + env_len env * len roster.
Proof.
  unfold deliver. revert s. induction roster as [|m roster IH]; intros s; cbn [foldl].
  - rewrite len_nil. lia.
  - specialize (IH (deliver_one env s m)). rewrite abytes_deliver_one in IH. rewrite len_cons.
    pose proof (env_len_nonneg env). destruct (is_mailbox s m); lia.
Qed.

Lemma abytes_advance_epoch q k s : abytes (advance_epoch q k s) = abytes s.
Proof.
  unfold advance_epoch, abytes. destruct k; [|done].
  destruct (s !! q) as [[key [p|]]|] eqn:Hq; try done.
  rewrite (zsum_map_insert_old _ _ _ _ _ Hq). simpl. lia.
Qed.

Lemma abytes_ack q mid s : abytes (ack_abs q mid s) <= abytes s.
Proof.
  unfold ack_abs, abytes. destruct (s !! q) as [[key [p|]]|] eqn:Hq; try lia.
  rewrite (zsum_map_insert_old _ _ _ _ _ Hq). cbn [kind_bytes snd].
  pose proof (zsum_retain (fun m => env_len m.2) (fun m => negb (acked mid m)) p) as Hr.
  cbn beta in Hr. pose proof (zsum_nonneg (fun m : MessageId * Envelope => env_len m.2)
                (retain (fun m => negb (negb (acked mid m))) p)
                (fun m => env_len_nonneg m.2)). lia.
Qed.

(** ** Sends *)

Lemma send_to_mailbox_inv e q tag env w w' r :
  send_to_mailbox e q tag env w = (w', r) ->
  (failed r /\ soft (inner w) (inner w') /\ same_push w w') \/
  (r = Done tt /\ exists key p w1,
     abs (inner w) !! q = Some (key, Mailbox p) /\
     verify_tag key q env tag = true /\ len p < MAX_QUEUE_DEPTH /\ env_len env <= MAX_MESSAGE_SIZE /\
     would_exceed_storage_bound (inner w) (env_len env) 1 = false /\
     abs (inner w1) = abs (inner w) /\
     storage_bytes_used (inner w1) = storage_bytes_used (inner w) /\
     subscribers (inner w1) = subscribers (inner w) /\ chans w1 = chans w /\
     db_wrote (fun d => Some (sql_insert_pending q (message_id env) (proto_encode env) d))
       (inner w) (inner w1) /\
     w' = push_and_notify q (message_id env) env w1).
Proof.
  unfold send_to_mailbox. destruct (Z.ltb_spec MAX_MESSAGE_SIZE (env_len env)).
  { intros Hr. mstep Hr. simplify_eq. by left. }
  intros Hr. minv Hr; [by left|]. rename H1 into Hi, H2 into Hc, H3 into Hw, x into w0.
  rewrite gets_bind in Hr.
  destruct (queues (inner w) !! q) as [en|] eqn:Hq; autorewrite with run in Hr;
    [|simplify_eq; left; unfold same_push; by rewrite Hi, Hc].
  destruct (kind en) as [p|ep ro] eqn:Hk; [|mstep Hr; simplify_eq; left; unfold same_push; by rewrite Hi, Hc].
  destruct (verify_tag (send_key en) q env tag) eqn:Hv; cbn [negb] in Hr;
    [|mstep Hr; simplify_eq; left; unfold same_push; by rewrite Hi, Hc].
  destruct (Z.leb_spec MAX_QUEUE_DEPTH (len p)); [mstep Hr; simplify_eq; left; unfold same_push; by rewrite Hi, Hc|].
  minv Hr; [|eapply bump_queue_inv in Hr as (Hs & Hsub & Hc' & _); [|done];
             left; unfold same_push; rewrite Hi, Hc; by split].
  eapply bump_queue_inv in E as (Hs & Hsub & Hch & Hp & Hqs & _); [|done].
  rewrite gets_bind in Hr.
  destruct Hs as (Ha & Hu & Hd).
  unfold would_exceed_storage_bound in Hr |- *. rewrite <- Hu in Hr.
  destruct (MAX_STORAGE_BYTES <? _) eqn:Eo.
  { mstep Hr. simplify_eq. left. unfold same_push. rewrite Hi, Hc. split; [done|]. by split. }
  minv Hr; [|apply db_write_inv in Hr as [(-> & _)|(-> & -> & _)]; [done|];
             left; unfold same_push; rewrite Hi, Hc; split; [done|]; by split].
  mstep Hr. simplify_eq. right. split; [done|]. rewrite Hw by done.
  apply db_write_inv in E as [(_ & Hor)|(Habs & _)]; [|done].
  destruct Hor as [[Hdb ->]|(d & d' & Hdb & Hfd & _ & ->)];
    [exists (send_key en), p, w1 | exists (send_key en), p, (set_inner (set_db (Some d') (inner w1)) w1)];
    (split_and!; try done;
     [by rewrite (abs_lookup_Some _ _ _ Hq), Hk | unfold db_wrote; rewrite Hd, Hdb; simpl; naive_solver]).
Qed.

Lemma stored_targets_abs i roster : stored_targets i roster = retain (is_mailbox (abs i)) roster.
Proof.
  apply retain_ext. intros m _. rewrite mailbox_pending_abs. unfold is_mailbox.
  by destruct (abs i !! m) as [[? []]|].
Qed.

Lemma bump_epoch_inv q k i :
  abs (bump_epoch q k i) = advance_epoch q k (abs i) /\
  storage_bytes_used (bump_epoch q k i) = storage_bytes_used i /\
  db (bump_epoch q k i) = db i /\ subscribers (bump_epoch q k i) = subscribers i.
Proof.
  unfold bump_epoch, advance_epoch. rewrite abs_lookup.
  destruct (queues i !! q) as [en|] eqn:Hq; simpl; [|by destruct k].
  destruct k, (kind en) eqn:Hk; simpl; try done.
  repeat split. unfold abs. simpl. by rewrite fmap_insert.
Qed.

Lemma send_to_group_inbox_inv e q k tag env w w' r :
  send_to_group_inbox e q k tag env w = (w', r) ->
  (failed r /\ soft (inner w) (inner w') /\ same_push w w') \/
  (r = Done tt /\ exists key ep roster w1,
     abs (inner w) !! q = Some (key, GroupInbox ep roster) /\
     verify_tag key q env tag = true /\ epoch_ok k ep = true /\ env_len env <= MAX_MESSAGE_SIZE /\
     would_exceed_storage_bound (inner w) (env_len env) (len roster) = false /\
     abs (inner w1) = abs (inner w) /\
     storage_bytes_used (inner w1) = storage_bytes_used (inner w) /\
     subscribers (inner w1) = subscribers (inner w) /\ chans w1 = chans w /\
     db_wrote (fun d => Some (group_send_tx q (is_commit k) (retain (is_mailbox (abs (inner w))) roster)
                                (message_id env) env d)) (inner w) (inner w1) /\
     w' = foldl (fun w m => push_and_notify m (message_id env) env w)
            (set_inner (bump_epoch q k (inner w1)) w1) roster).
Proof.
  unfold send_to_group_inbox. destruct (Z.ltb_spec MAX_MESSAGE_SIZE (env_len env)).
  { intros Hr. mstep Hr. simplify_eq. by left. }
  intros Hr. minv Hr; [by left|]. rename H1 into Hi, H2 into Hc, H3 into Hw, x into w0.
  rewrite gets_bind in Hr.
  destruct (queues (inner w) !! q) as [en|] eqn:Hq; autorewrite with run in Hr;
    [|simplify_eq; left; unfold same_push; by rewrite Hi, Hc].
  destruct (verify_tag (send_key en) q env tag) eqn:Hv; cbn [negb] in Hr;
    [|mstep Hr; simplify_eq; left; unfold same_push; by rewrite Hi, Hc].
  destruct (kind en) as [p|ep roster] eqn:Hk; [mstep Hr; simplify_eq; left; unfold same_push; by rewrite Hi, Hc|].
  destruct (epoch_ok k ep) eqn:Hep; cbn [negb] in Hr; [|mstep Hr; simplify_eq; left; unfold same_push; by rewrite Hi, Hc].
  rewrite gets_bind in Hr.
  destruct (would_exceed_storage_bound _ _ _) eqn:Eo; [mstep Hr; simplify_eq; left; unfold same_push; by rewrite Hi, Hc|].
  minv Hr; [|eapply bump_queue_inv in Hr as (Hs & Hsub & Hc' & _); [|done];
             left; unfold same_push; rewrite Hi, Hc; by split].
  eapply bump_queue_inv in E as (Hs & Hsub & Hch & Hp & Hqs & _); [|done].
  destruct Hs as (Ha & Hu & Hd). rewrite gets_bind, stored_targets_abs, <- Ha in Hr.
  minv Hr; [|apply db_write_inv in Hr as [(-> & _)|(-> & -> & _)]; [done|];
             left; unfold same_push; rewrite Hi, Hc; split; [done|]; by split].
  rewrite modify_bind in Hr. mstep Hr. simplify_eq. right. split; [done|]. rewrite Hw by done.
  apply db_write_inv in E as [(_ & Hor)|(Habs & _)]; [|done].
  destruct Hor as [[Hdb ->]|(d & d' & Hdb & Hfd & _ & ->)];
    [exists (send_key en), ep, roster, w1
    |exists (send_key en), ep, roster, (set_inner (set_db (Some d') (inner w1)) w1)];
    (split_and!; try done;
     [by rewrite (abs_lookup_Some _ _ _ Hq), Hk | unfold db_wrote; rewrite Hd, Hdb; simpl; naive_solver]).
Qed.

(** ** Acknowledgements, subscriptions, challenges *)

Lemma ack_inner_inv q mid i :
  acct i -> abytes (abs i) < u64_modulus ->
  abs (ack_inner q mid i) = ack_abs q mid (abs i) /\ acct (ack_inner q mid i) /\
  db (ack_inner q mid i) = db i.
Proof.
  unfold acct, ack_inner, ack_abs. intros Ha Hb. rewrite abs_lookup.
  destruct (queues i !! q) as [en|] eqn:Hq; simpl; [|done].
  destruct (kind en) as [p|] eqn:Hk; simpl; [|done].
  assert (Habs : abs i !! q = Some (send_key en, Mailbox p))
    by by rewrite (abs_lookup_Some _ _ _ Hq), Hk.
  assert (E : forall n, abs (set_storage n (set_queues
                (<[q:=set_kind (Mailbox (retain (fun m => negb (acked mid m)) p)) en]> (queues i)) i))
              = <[q:=(send_key en, Mailbox (retain (fun m => negb (acked mid m)) p))]> (abs i)).
  { intros n. unfold abs. simpl. by rewrite fmap_insert. }
  rewrite E. split; [done|]. split; [|done].
  rewrite Ha. unfold abytes at 2. rewrite (zsum_map_insert_old _ _ _ _ _ Habs).
  fold (abytes (abs i)). cbn [kind_bytes snd].
  pose proof (zsum_retain (fun m : MessageId * Envelope => env_len m.2) (acked mid) p) as Hr.
  pose proof (zsum_nonneg (fun m : MessageId * Envelope => env_len m.2) (retain (acked mid) p)
                (fun m => env_len_nonneg m.2)).
  pose proof (zsum_nonneg (fun m : MessageId * Envelope => env_len m.2)
                (retain (fun m => negb (acked mid m)) p) (fun m => env_len_nonneg m.2)).
  pose proof (zsum_map_lookup_le (fun kk : bytes * QueueKind => kind_bytes kk.2) (abs i) q _
                (fun kk => kind_bytes_nonneg kk.2) Habs) as Hle.
  fold (abytes (abs i)) in Hle. cbn [kind_bytes snd] in Hle.
  unfold saturating_sub64. rewrite wrap64_small by lia. lia.
Qed.

Lemma ack_inv e q mid w w' r :
  ack e q mid w = (w', r) ->
  (failed r /\ soft (inner w) (inner w') /\ same_push w w') \/
  (r = Done tt /\ exists i1, abs i1 = abs (inner w) /\
     storage_bytes_used i1 = storage_bytes_used (inner w) /\
     db_wrote (fun d => Some (sql_delete_pending q mid d)) (inner w) i1 /\
     inner w' = ack_inner q mid i1 /\ chans w' = chans w /\
     subscribers (inner w') = subscribers (inner w)).
Proof.
  unfold ack. intros Hr. minv Hr; [by left|]. rename H1 into Hc, H2 into Hw, H0 into Hi, x into w0.
  minv Hr.
  - mstep Hr. simplify_eq. right. split; [done|]. rewrite Hw by done.
    assert (Hsub : forall i, subscribers (ack_inner q mid i) = subscribers i)
      by (intros i; unfold ack_inner; destruct (queues i !! q) as [en|]; [|done]; by destruct (kind en)).
    apply db_write_inv in E as [(_ & Hor)|(Habs & _)]; [|done].
    destruct Hor as [[Hdb ->]|(d & d' & Hdb & Hfd & _ & ->)];
      [exists (inner w) | exists (set_db (Some d') (inner w))];
      (split_and!; try done; [unfold db_wrote; rewrite Hdb; simpl; naive_solver | simpl; by rewrite Hsub]).
  - apply db_write_inv in Hr as [(-> & _)|(-> & -> & _)]; [done|]. left. unfold same_push. by rewrite Hi, Hc.
Qed.

Lemma subscribe_inner_soft cs tx qs i :
  soft i (foldl (fun i q => subscribe_one cs tx q i) i qs).
Proof.
  revert i. induction qs as [|q qs IH]; intros i; [done|].
  cbn [foldl]. etrans; [|apply IH]. done.
Qed.

Lemma subscribe_inv qs tx w w' r :
  subscribe qs tx w = (w', r) -> soft (inner w) (inner w').
Proof.
  unfold subscribe. intros Hr. minv Hr; [done|]. mstep Hr. simplify_eq. rewrite H0.
  apply subscribe_inner_soft.
Qed.

Lemma issue_pow_challenge_inv e w w' r :
  issue_pow_challenge e w = (w', r) -> soft (inner w) (inner w').
Proof.
  unfold issue_pow_challenge. destruct (draws e) as [|rnd ds]; intros Hr; [by mstep Hr; simplify_eq|].
  minv Hr; [done|]. rewrite modify_bind in Hr. mstep Hr. simplify_eq. rewrite H0. simpl.
  by destruct (evict_challenges _ _ _).
Qed.

End Refine.
