(* ===== verification/RelayDurable.v ===== *)
(** * The relay's database

    What it means for the three tables to hold an abstract state, that every
    write-through statement keeps them in agreement with it, and that
    [relay_open] rebuilds exactly that state: the rosters in their order, the
    backlogs in theirs, and the storage counter. *)

From S2P Require Import Prelude Text External Proto Relay RelaySpec RelayRefine.

(** ** The rows of a queue *)

Definition of_queue {A} (q : QueueId) (r : QueueId * A * bytes) : bool := bool_decide (r.1.1 = q).

Definition row_of (kk : bytes * QueueKind) : bytes * SqlVal :=
  (kk.1, match kk.2 with Mailbox _ => SqlNull | GroupInbox ep _ => SqlInt ep end).

Definition roster_rows (q : QueueId) (k : QueueKind) : list (QueueId * Z * QueueId) :=
  match k with GroupInbox _ r => imap (fun n m => (q, Z.of_nat n, m)) r | Mailbox _ => [] end.

(** Well-typed contents: fixed-size ids and keys, [u64] epochs, every message
    filed under its own id. *)
Definition wf_kind (k : QueueKind) : Prop :=
  match k with
  | Mailbox p => Forall (fun m => m.1 = message_id m.2) p
  | GroupInbox ep r => 0 <= ep < u64_modulus /\ len r < u32_modulus /\ Forall (fun m => length m = 32%nat) r
  end.

Definition wf_abs (s : AState) : Prop :=
  map_Forall (fun q kk => length q = 32%nat /\ length kk.1 = 32%nat /\ wf_kind kk.2) s.

Section Durable.
Context {X : RelayExt}.

Definition pending_rows (q : QueueId) (k : QueueKind) : list (QueueId * MessageId * bytes) :=
  match k with Mailbox p => (fun m => (q, m.1, proto_encode m.2)) <$> p | GroupInbox _ _ => [] end.

Record durable (d : Db) (s : AState) : Prop := {
  dur_queues : t_queues d = row_of <$> s;
  dur_roster q : retain (of_queue q) (t_roster d) = from_option (fun kk => roster_rows q kk.2) [] (s !! q);
  dur_pending q : retain (of_queue q) (t_pending d) = from_option (fun kk => pending_rows q kk.2) [] (s !! q);
  dur_epochs q key ep r : s !! q = Some (key, GroupInbox ep r) -> ep <= i64_max;
}.

Lemma durable_empty : durable empty_db ∅.
Proof. split; intros; rewrite ?fmap_empty, ?lookup_empty in *; done. Qed.

(** ** Every statement keeps the agreement *)

Lemma retain_roster_rows q q' n (r : list QueueId) :
  retain (of_queue q) (imap (fun i m => (q', n + Z.of_nat i, m)) r) =
  if bool_decide (q' = q) then imap (fun i m => (q', n + Z.of_nat i, m)) r else [].
Proof.
  case_bool_decide as E; [apply retain_all | apply retain_none];
    apply Forall_forall; intros x (i & y & -> & _)%elem_of_lookup_imap_1; unfold of_queue; simpl;
    [by apply bool_decide_eq_true_2 | by apply bool_decide_eq_false_2].
Qed.

Lemma sql_insert_roster_all_inv q ord ms d d' :
  sql_insert_roster_all q ord ms d = Some d' ->
  t_queues d' = t_queues d /\ t_pending d' = t_pending d /\
  t_roster d' = t_roster d ++ imap (fun i m => (q, ord + Z.of_nat i, m)) ms.
Proof.
  revert ord d. induction ms as [|m ms IH]; intros ord d H; simpl in *.
  - simplify_eq. by rewrite app_nil_r.
  - apply bind_Some in H as (d1 & H1 & H2). apply IH in H2 as (-> & -> & ->).
    unfold sql_insert_roster in H1. case_bool_decide; simplify_eq/=.
    split; [done|]. split; [done|]. rewrite <- app_assoc. simpl. do 2 f_equal.
    + by rewrite Z.add_0_r.
    + apply imap_ext. intros i x _. simpl. do 2 f_equal. lia.
Qed.

(** A key that the abstract state does not have is in none of the tables, so a
    fresh roster is accepted: its rows have distinct positions. *)
Lemma durable_insert d s q key k d' :
  durable d s -> s !! q = None -> empty_kind k ->
  (forall ep r, k = GroupInbox ep r -> ep <= i64_max) ->
  t_queues d' = <[q:=row_of (key, k)]> (t_queues d) ->
  t_roster d' = t_roster d ++ roster_rows q k ->
  t_pending d' = t_pending d ->
  durable d' (<[q:=(key, k)]> s).
Proof.
  intros [D1 D2 D3 D4] Hn Hk Hep Eq Er Ep. split.
  - by rewrite Eq, D1, fmap_insert.
  - intros q'. rewrite Er, retain_app, D2. destruct (decide (q = q')) as [<-|Hne].
    + rewrite lookup_insert_eq, Hn. simpl. destruct k; [done|]. simpl.
      by rewrite (retain_roster_rows q q 0), bool_decide_eq_true_2.
    + rewrite lookup_insert_ne by done. destruct k; simpl; [by rewrite app_nil_r|].
      by rewrite (retain_roster_rows q' q 0), bool_decide_eq_false_2, app_nil_r.
  - intros q'. rewrite Ep, D3. destruct (decide (q = q')) as [<-|Hne].
    + rewrite lookup_insert_eq, Hn. simpl. destruct k; [|done]. simpl in *. by subst.
    + by rewrite lookup_insert_ne.
  - intros q' key' ep r. destruct (decide (q = q')) as [<-|Hne].
    + rewrite lookup_insert_eq. intros. simplify_eq. by eapply Hep.
    + rewrite lookup_insert_ne by done. apply D4.
Qed.

Lemma durable_create_mailbox d s q key d' :
  durable d s -> s !! q = None -> sql_insert_queue q key SqlNull d = Some d' ->
  durable d' (<[q:=(key, Mailbox [])]> s).
Proof.
  intros D Hn H. unfold sql_insert_queue in H. case_match; simplify_eq.
  eapply durable_insert; simpl; rewrite ?app_nil_r; done.
Qed.

Lemma durable_create_inbox `{!RelayExtLaws X} d s q key ep roster d' :
  durable d s -> s !! q = None -> 0 <= ep -> create_inbox_tx ep roster q key d = Some d' ->
  durable d' (<[q:=(key, GroupInbox ep roster)]> s).
Proof.
  intros D Hn Hep H. unfold create_inbox_tx in H.
  apply bind_Some in H as (ep' & Hb & H). apply bind_Some in H as (d1 & H1 & H2).
  destruct (Z.le_gt_cases ep i64_max) as [Hle|Hgt];
    [rewrite sql_bind_fits in Hb by done | by rewrite sql_bind_too_big in Hb by lia].
  simplify_eq. unfold sql_insert_queue in H1. case_match; simplify_eq.
  apply sql_insert_roster_all_inv in H2 as (E1 & E2 & E3).
  eapply durable_insert; try done. by intros; simplify_eq.
Qed.

(** And none of these statements fails on a queue the state does not have. *)
Lemma durable_absent d s q :
  durable d s -> s !! q = None -> t_queues d !! q = None /\ Forall (fun r => r.1.1 <> q) (t_roster d).
Proof.
  intros D Hn. split; [by rewrite (dur_queues _ _ D), lookup_fmap, Hn|].
  apply Forall_forall. intros r Hr E. assert (r ∈ retain (of_queue q) (t_roster d)) as H.
  { apply retain_elem. split; [done|]. by apply bool_decide_eq_true_2. }
  rewrite (dur_roster _ _ D), Hn in H. by apply not_elem_of_nil in H.
Qed.

Lemma sql_insert_roster_all_total q ord ms d :
  Forall (fun r => r.1.1 = q -> r.1.2 < ord) (t_roster d) -> is_Some (sql_insert_roster_all q ord ms d).
Proof.
  revert ord d. induction ms as [|m ms IH]; intros ord d H; simpl; [by eexists|].
  unfold sql_insert_roster. rewrite bool_decide_eq_false_2.
  - apply IH. simpl. apply Forall_app. split; [|constructor; [simpl; lia|done]].
    eapply Forall_impl; [exact H|]. simpl. intros r Hr E. specialize (Hr E). lia.
  - intros Hx. apply Exists_exists in Hx as (r & Hr & E). rewrite Forall_forall in H.
    specialize (H r Hr). rewrite E in H. simpl in H. specialize (H eq_refl). lia.
Qed.

Lemma durable_mailbox_row d s q key :
  durable d s -> s !! q = None -> is_Some (sql_insert_queue q key SqlNull d).
Proof. intros D Hn. unfold sql_insert_queue. by rewrite (proj1 (durable_absent _ _ _ D Hn)). Qed.

Lemma durable_inbox_rows `{!RelayExtLaws X} d s q key ep roster :
  durable d s -> s !! q = None -> 0 <= ep <= i64_max -> is_Some (create_inbox_tx ep roster q key d).
Proof.
  intros D Hn Hep. destruct (durable_absent _ _ _ D Hn) as [Hq Hr]. unfold create_inbox_tx.
  rewrite sql_bind_fits by done. simpl. unfold sql_insert_queue. rewrite Hq. simpl.
  apply sql_insert_roster_all_total. simpl. eapply Forall_impl; [exact Hr|]. done.
Qed.

(** The entries of one queue replaced, rows changed only there. *)
Lemma durable_update d s q key k k' d' :
  durable d s -> s !! q = Some (key, k) ->
  (forall ep r, k' = GroupInbox ep r -> ep <= i64_max) ->
  t_queues d' = <[q:=row_of (key, k')]> (t_queues d) ->
  t_roster d' = t_roster d -> roster_rows q k' = roster_rows q k ->
  retain (of_queue q) (t_pending d') = pending_rows q k' ->
  (forall q', q <> q' -> retain (of_queue q') (t_pending d') = retain (of_queue q') (t_pending d)) ->
  durable d' (<[q:=(key, k')]> s).
Proof.
  intros [D1 D2 D3 D4] Hq Hep Eq Er Err Ep Ep'. split.
  - by rewrite Eq, D1, fmap_insert.
  - intros q'. rewrite Er, D2. destruct (decide (q = q')) as [<-|Hne].
    + by rewrite lookup_insert_eq, Hq.
    + by rewrite lookup_insert_ne.
  - intros q'. destruct (decide (q = q')) as [<-|Hne].
    + by rewrite lookup_insert_eq.
    + by rewrite lookup_insert_ne, Ep', D3.
  - intros q' key' ep r. destruct (decide (q = q')) as [<-|Hne].
    + rewrite lookup_insert_eq. intros. simplify_eq. by eapply Hep.
    + rewrite lookup_insert_ne by done. apply D4.
Qed.

Lemma durable_row d s q key k : durable d s -> s !! q = Some (key, k) -> t_queues d !! q = Some (row_of (key, k)).
Proof. intros D H. by rewrite (dur_queues _ _ D), lookup_fmap, H. Qed.

Lemma durable_pending d s q env :
  durable d s -> is_mailbox s q = true ->
  durable (sql_insert_pending q (message_id env) (proto_encode env) d) (deliver_one env s q).
Proof.
  intros D Hm. unfold is_mailbox in Hm. unfold deliver_one.
  destruct (s !! q) as [[key [p|]]|] eqn:Hq; try done.
  eapply durable_update; try done; simpl.
  - symmetry. apply insert_id. by apply (durable_row _ _ _ _ _ D Hq).
  - rewrite retain_app, (dur_pending _ _ D), Hq. simpl. unfold of_queue. simpl.
    by rewrite bool_decide_eq_true_2, fmap_app.
  - intros q' Hne. rewrite retain_app. unfold of_queue at 2. simpl.
    by rewrite bool_decide_eq_false_2, app_nil_r.
Qed.

Lemma durable_pending_all d s env targets :
  durable d s -> Forall (fun q => is_mailbox s q = true) targets ->
  durable (foldl (fun d m => sql_insert_pending m (message_id env) (proto_encode env) d) d targets)
    (deliver targets env s).
Proof.
  intros D F. unfold deliver. revert d s D F.
  induction targets as [|m ms IH]; intros d s D F; [done|]. cbn [foldl].
  inversion_clear F. apply IH; [by apply durable_pending|].
  eapply Forall_impl; [done|]. intros q Hq. cbn beta in *. by rewrite is_mailbox_deliver_one.
Qed.

(** Copies for members that are not mailboxes go nowhere. *)
Lemma deliver_targets roster env s : deliver (retain (is_mailbox s) roster) env s = deliver roster env s.
Proof.
  assert (forall s', (forall q, is_mailbox s' q = is_mailbox s q) ->
            deliver (retain (is_mailbox s) roster) env s' = deliver roster env s') as H; [|by apply H].
  unfold deliver. induction roster as [|m ms IH]; intros s' Hs; [done|]. cbn [foldl retain].
  destruct (is_mailbox s m) eqn:Em; cbn [foldl].
  - apply IH. intros q. by rewrite is_mailbox_deliver_one.
  - rewrite IH by done. f_equal. specialize (Hs m). rewrite Em in Hs.
    unfold is_mailbox, deliver_one in *. by destruct (s' !! m) as [[? []]|].
Qed.

Lemma is_mailbox_advance_epoch q k s q' : is_mailbox (advance_epoch q k s) q' = is_mailbox s q'.
Proof.
  unfold advance_epoch. destruct k; [|done]. destruct (s !! q) as [[key [p|ep r]]|] eqn:Hq; try done.
  unfold is_mailbox. destruct (decide (q = q')) as [<-|]; [by rewrite lookup_insert_eq, Hq|].
  by rewrite lookup_insert_ne.
Qed.

Lemma durable_bump_epoch d s q k key ep roster :
  durable d s -> s !! q = Some (key, GroupInbox ep roster) -> 0 <= ep ->
  (is_commit k = true -> ep < i64_max) ->
  durable (if is_commit k then sql_bump_epoch q d else d) (advance_epoch q k s).
Proof.
  intros D Hq H0 Hlt. unfold advance_epoch. rewrite Hq. destruct k as [target|]; [|done].
  specialize (Hlt eq_refl). simpl. unfold i64_max in Hlt.
  assert (E : ep +64 1 = ep + 1) by (apply wrap64_small; unfold u64_modulus; lia).
  rewrite E. eapply durable_update; try done.
  - intros. simplify_eq. unfold i64_max. lia.
  - simpl. apply map_eq. intros q'. destruct (decide (q = q')) as [<-|Hne].
    + rewrite lookup_alter_eq, lookup_insert_eq, (durable_row _ _ _ _ _ D Hq). simpl.
      destruct (Z.ltb_spec ep i64_max); [done|]. unfold i64_max in *. lia.
    + by rewrite lookup_alter_ne, lookup_insert_ne.
  - simpl. by rewrite (dur_pending _ _ D), Hq.
Qed.

Lemma durable_group_send d s q k key ep roster env :
  durable d s -> s !! q = Some (key, GroupInbox ep roster) -> 0 <= ep ->
  (is_commit k = true -> ep < i64_max) ->
  durable (group_send_tx q (is_commit k) (retain (is_mailbox s) roster) (message_id env) env d)
    (deliver roster env (advance_epoch q k s)).
Proof.
  intros D Hq H0 Hlt. unfold group_send_tx.
  rewrite <- (deliver_targets roster env (advance_epoch q k s)).
  rewrite (retain_ext (is_mailbox (advance_epoch q k s)) (is_mailbox s))
    by (intros; apply is_mailbox_advance_epoch).
  apply durable_pending_all; [by eapply durable_bump_epoch|].
  apply Forall_forall. intros m [_ Hm]%retain_elem. by rewrite is_mailbox_advance_epoch.
Qed.

Lemma retain_retain_comm {A} (p1 p2 : A -> bool) l : retain p1 (retain p2 l) = retain p2 (retain p1 l).
Proof.
  induction l as [|x l IH]; simpl; [done|].
  destruct (p1 x) eqn:E1, (p2 x) eqn:E2; simpl; rewrite ?E1, ?E2; simpl; by rewrite ?IH.
Qed.

Lemma durable_ack d s q mid : durable d s -> durable (sql_delete_pending q mid d) (ack_abs q mid s).
Proof.
  intros D.
  set (keep := fun '((q', mid', _) : QueueId * MessageId * bytes) =>
                 negb (bool_decide (q' = q) && bool_decide (mid' = mid))).
  assert (Hother : forall q', q <> q' ->
            retain (of_queue q') (retain keep (t_pending d)) = retain (of_queue q') (t_pending d)).
  { intros q' Hne. rewrite retain_retain_comm. apply retain_all, Forall_forall.
    intros [[q1 m1] b] [_ E]%retain_elem. unfold of_queue in E. bools. simpl in *. subst q1.
    by rewrite bool_decide_eq_false_2. }
  assert (Hsame : retain (of_queue q) (retain keep (t_pending d)) =
            from_option (fun kk => pending_rows q kk.2) [] (ack_abs q mid s !! q)).
  { rewrite retain_retain_comm, (dur_pending _ _ D), ack_abs_lookup, bool_decide_eq_true_2 by done.
    destruct (s !! q) as [[key [p|]]|]; simpl; [|done..].
    rewrite retain_map. f_equal. apply retain_ext. intros [m env] _. unfold acked. simpl.
    by rewrite bool_decide_eq_true_2. }
  unfold ack_abs in *. destruct (s !! q) as [[key [p|ep r]]|] eqn:Hq.
  - rewrite lookup_insert_eq in Hsame. eapply durable_update; try done; simpl.
    symmetry. apply insert_id. by apply (durable_row _ _ _ _ _ D Hq).
  - destruct D as [D1 D2 D3 D4]. split; try done. intros q'. simpl.
    destruct (decide (q = q')) as [<-|]; [done|]. by rewrite Hother.
  - destruct D as [D1 D2 D3 D4]. split; try done. intros q'. simpl.
    destruct (decide (q = q')) as [<-|]; [done|]. by rewrite Hother.
Qed.

(** ** The order of roster rows *)

#[local] Instance roster_le_total : Total roster_le.
Proof.
  intros r t. unfold roster_le. rewrite (bool_decide_ext (t.1.1 = r.1.1) (r.1.1 = t.1.1)) by done.
  case_bool_decide; [rewrite !Z.leb_le; lia|]. apply blob_le_total.
Qed.

#[local] Instance roster_le_trans : Transitive roster_le.
Proof.
  intros [[a i] m] [[b j] n] [[c k] o]. unfold roster_le. simpl.
  intros H1 H2. repeat case_bool_decide; simplify_eq; bools; try apply Z.leb_le; try lia; try done.
  - exfalso. eauto using blob_le_antisym.
  - by eapply blob_le_trans.
Qed.

Lemma retain_StronglySorted {A} (R : relation A) p l : StronglySorted R l -> StronglySorted R (retain p l).
Proof.
  induction 1 as [|x l _ IH Hx]; simpl; [constructor|]. destruct (p x); [|done].
  constructor; [done|]. rewrite Forall_forall in *. intros y [? _]%retain_elem. auto.
Qed.

Lemma retain_Permutation {A} (p : A -> bool) l l' : l ≡ₚ l' -> retain p l ≡ₚ retain p l'.
Proof.
  induction 1 as [|x l l' _ IH|x y l|l1 l2 l3 _ IH1 _ IH2]; simpl; [done| | |by etrans].
  - destruct (p x); by rewrite IH.
  - destruct (p x), (p y); try done. by apply Permutation_swap.
Qed.

Lemma roster_rows_sorted q k : StronglySorted roster_le (roster_rows q k).
Proof.
  destruct k as [p|ep r]; simpl; [constructor|]. clear ep.
  assert (forall n, StronglySorted roster_le (imap (fun i m => (q, Z.of_nat (n + i), m)) r)) as H; [|apply (H O)].
  induction r as [|m r IH]; intros n; simpl; [constructor|]. constructor.
  - erewrite imap_ext; [apply (IH (S n))|]. intros i x _. simpl. do 3 f_equal. lia.
  - apply Forall_forall. intros x (i & y & -> & _)%elem_of_lookup_imap_1. unfold roster_le. simpl.
    rewrite bool_decide_eq_true_2 by done. apply Z.leb_le. lia.
Qed.

(** [ORDER BY inbox_id, ord] reads each roster back in its order. *)
Lemma roster_read_back d s q :
  durable d s ->
  retain (of_queue q) (merge_sort roster_le (t_roster d)) =
  from_option (fun kk => roster_rows q kk.2) [] (s !! q).
Proof.
  intros D. rewrite <- (dur_roster _ _ D). apply (StronglySorted_unique_strong roster_le).
  - rewrite (dur_roster _ _ D).
    intros x1 x2 H1 H2. rewrite (retain_Permutation _ _ _ (merge_sort_Permutation roster_le _)) in H1.
    rewrite (dur_roster _ _ D) in H1. destruct (s !! q) as [[key [p|ep r]]|]; simpl in *; try set_solver.
    apply elem_of_lookup_imap_1 in H1 as (i & y & -> & Hi).
    apply elem_of_lookup_imap_1 in H2 as (j & z & -> & Hj).
    unfold roster_le. simpl. rewrite bool_decide_eq_true_2 by done. rewrite !Z.leb_le. intros.
    assert (i = j) as -> by lia. by simplify_eq.
  - apply retain_StronglySorted, StronglySorted_merge_sort; apply _.
  - rewrite (dur_roster _ _ D). destruct (s !! q) as [[key k]|]; simpl; [apply roster_rows_sorted|constructor].
  - apply retain_Permutation, merge_sort_Permutation.
Qed.

Lemma roster_rows_members q k :
  (roster_rows q k).*2 = match k with GroupInbox _ r => r | Mailbox _ => [] end.
Proof.
  destruct k as [p|ep r]; simpl; [done|]. rewrite fmap_imap.
  trans (imap (const id) r); [by apply imap_ext|]. by rewrite imap_const, list_fmap_id.
Qed.

(** ** Reopening *)

(** What a queue is before its roster and backlog are loaded. *)
Definition strip (kk : bytes * QueueKind) : bytes * QueueKind :=
  (kk.1, match kk.2 with Mailbox _ => Mailbox [] | GroupInbox ep _ => GroupInbox ep [] end).

Definition append_roster (ms : list QueueId) (kk : bytes * QueueKind) : bytes * QueueKind :=
  (kk.1, match kk.2 with GroupInbox ep r => GroupInbox ep (r ++ ms) | k => k end).

Definition append_pending (ms : list (MessageId * Envelope)) (kk : bytes * QueueKind)
  : bytes * QueueKind :=
  (kk.1, match kk.2 with Mailbox p => Mailbox (p ++ ms) | k => k end).

Lemma blob32_ok b : length b = 32%nat -> blob32 b = Some b.
Proof. intros H. unfold blob32. by rewrite bool_decide_eq_true_2. Qed.

Definition queue_row_ok (kk : bytes * QueueKind) (q : QueueId) : Prop :=
  length q = 32%nat /\ length kk.1 = 32%nat /\ forall ep r, kk.2 = GroupInbox ep r -> 0 <= ep.

Lemma load_queues_ok `{!RelayExtLaws X} now (rows : list (QueueId * (bytes * QueueKind))) qs :
  NoDup rows.*1 -> Forall (fun qk => queue_row_ok qk.2 qk.1) rows ->
  exists qs', load_queues now (prod_map id row_of <$> rows) qs = Some qs' /\
    forall q, core <$> qs' !! q =
      match (list_to_map rows : AState) !! q with Some kk => Some (strip kk) | None => core <$> qs !! q end.
Proof.
  revert qs. induction rows as [|[q [key k]] rows IH]; intros qs Hn F; csimpl.
  { exists qs. split; [done|]. intros q. by rewrite lookup_empty. }
  inversion_clear F as [|? ? (H1 & H2 & H3) F']. simpl in H1, H2, H3.
  csimpl in Hn. apply NoDup_cons in Hn as [Hq Hn].
  rewrite !blob32_ok by done. simpl.
  assert (exists ep, sql_column_opt_u64 (row_of (key, k)).2 = Some ep /\
            (match ep with None => Mailbox [] | Some n => GroupInbox n [] end) = (strip (key, k)).2) as (ep & Hc & Hk).
  { destruct k as [p|ep r]; simpl; [by exists None|]. exists (Some ep).
    by rewrite sql_column_fits by eauto. }
  simpl in Hc. rewrite Hc. simpl.
  destruct (IH (<[q:=mkEntry key (match ep with None => Mailbox [] | Some n => GroupInbox n [] end) 0 now]> qs) Hn F')
    as (qs' & -> & Hl).
  exists qs'. split; [done|]. intros q'. rewrite Hl. destruct (decide (q = q')) as [<-|Hne].
  - rewrite not_elem_of_list_to_map_1 by done. rewrite !lookup_insert_eq. simpl. by rewrite Hk.
  - by rewrite !lookup_insert_ne.
Qed.

Lemma load_roster_ok (rows : list (QueueId * Z * QueueId)) (qs : gmap QueueId QueueEntry) :
  Forall (fun r => length r.1.1 = 32%nat /\ length r.2 = 32%nat) rows ->
  exists qs', load_roster rows qs = Some qs' /\
    forall q, core <$> qs' !! q =
      append_roster (retain (of_queue q) rows).*2 <$> (core <$> qs !! q).
Proof.
  revert qs. induction rows as [|[[q n] m] rows IH]; intros qs F; csimpl.
  { exists qs. split; [done|]. intros q. destruct (qs !! q) as [en|]; [|done]. csimpl.
    unfold append_roster, core. destruct (kind en); csimpl; by rewrite ?app_nil_r. }
  inversion_clear F as [|? ? [H1 H2] F']. simpl in H1, H2.
  rewrite !blob32_ok by done. simpl.
  set (qs1 := match qs !! q with Some _ => _ | None => _ end).
  destruct (IH qs1 F') as (qs' & -> & Hl). exists qs'. split; [done|].
  intros q'. rewrite Hl. unfold of_queue at 2. simpl. unfold qs1.
  case_bool_decide as E; [subst q'|].
  - destruct (qs !! q) as [en|] eqn:Hq; simpl; [|by rewrite Hq].
    destruct (kind en) as [p|ep r] eqn:Hk; simpl.
    + rewrite Hq. simpl. unfold append_roster, core. by rewrite Hk.
    + rewrite lookup_insert_eq. simpl. unfold append_roster, core. simpl. rewrite Hk. simpl.
      by rewrite <- app_assoc.
  - repeat case_match; try done. by rewrite lookup_insert_ne.
Qed.

Lemma load_pending_ok `{!RelayExtLaws X} (rows : list (QueueId * Envelope)) qs used :
  Forall (fun r => length r.1 = 32%nat /\ is_mailbox (core <$> qs) r.1 = true) rows ->
  used = wrap64 (abytes (core <$> qs)) ->
  exists qs' used',
    load_pending ((fun r => (r.1, message_id r.2, proto_encode r.2)) <$> rows) qs used = Some (qs', used') /\
    used' = wrap64 (abytes (core <$> qs')) /\
    forall q, core <$> qs' !! q =
      append_pending ((fun r => (message_id r.2, r.2)) <$> retain (fun r => bool_decide (r.1 = q)) rows)
        <$> (core <$> qs !! q).
Proof.
  revert qs used. induction rows as [|[q env] rows IH]; intros qs used F Hu; csimpl.
  { exists qs, used. split; [done|]. split; [done|]. intros q. destruct (qs !! q) as [en|]; [|done]. csimpl.
    unfold append_pending, core. destruct (kind en); csimpl; by rewrite ?app_nil_r. }
  inversion_clear F as [|? ? [H1 H2] F']. simpl in H1, H2.
  rewrite !blob32_ok by done. simpl. unfold proto_decode, proto_encode.
  rewrite <- (app_nil_r (bincode_serialize env)), bincode_roundtrip. simpl.
  unfold is_mailbox in H2. rewrite lookup_fmap in H2.
  destruct (qs !! q) as [en|] eqn:Hq; simpl in H2; [|done].
  destruct (kind en) as [p|] eqn:Hk; [|done].
  set (qs1 := <[q:=set_kind (Mailbox (p ++ [(message_id env, env)])) en]> qs).
  assert (Eabs : core <$> qs1 = deliver_one env (core <$> qs) q).
  { unfold qs1, deliver_one. rewrite fmap_insert, lookup_fmap, Hq. simpl. unfold core at 3. by rewrite Hk. }
  destruct (IH qs1 (used +64 env_len env)) as (qs' & used' & E & Hu' & Hl).
  - eapply Forall_impl; [exact F'|]. intros r [? ?]. split; [done|].
    by rewrite Eabs, is_mailbox_deliver_one.
  - rewrite Eabs, abytes_deliver_one, Hu. unfold is_mailbox. rewrite lookup_fmap, Hq. simpl. rewrite Hk.
    by rewrite wrap64_add_idemp.
  - exists qs', used'. split; [exact E|]. split; [done|]. intros q'. rewrite Hl. unfold qs1.
    case_bool_decide as Ed; [subst q'|by rewrite lookup_insert_ne].
    rewrite lookup_insert_eq, Hq. unfold append_pending, core. simpl. rewrite Hk. simpl.
    by rewrite <- app_assoc.
Qed.

Lemma proto_encode_inj `{!RelayExtLaws X} (a b : Envelope) : proto_encode a = proto_encode b -> a = b.
Proof.
  unfold proto_encode. intros E. apply (f_equal (fun bs => bincode_deserialize (A:=Envelope) (bs ++ []))) in E.
  rewrite !bincode_roundtrip in E. congruence.
Qed.

Lemma list_image {A B} (f : A -> B) (l : list B) : Forall (fun y => exists x, y = f x) l -> exists k, l = f <$> k.
Proof.
  induction 1 as [|y l [x ->] _ [k ->]]; [by exists []|]. by exists (x :: k).
Qed.

Lemma wf_abs_lookup s q key k :
  wf_abs s -> s !! q = Some (key, k) -> length q = 32%nat /\ length key = 32%nat /\ wf_kind k.
Proof. intros W H. apply (W _ _ H). Qed.

(** A row of the pending table belongs to a mailbox and holds a message of it. *)
Lemma pending_row_inv d s row :
  durable d s -> wf_abs s -> row ∈ t_pending d ->
  length row.1.1 = 32%nat /\ is_mailbox s row.1.1 = true /\
  exists env, row = (row.1.1, message_id env, proto_encode env).
Proof.
  intros D W H.
  assert (Hr : row ∈ retain (of_queue row.1.1) (t_pending d))
    by (apply retain_elem; split; [done|]; by apply bool_decide_eq_true_2).
  rewrite (dur_pending _ _ D) in Hr. unfold is_mailbox.
  destruct (s !! row.1.1) as [[key [p|ep r]]|] eqn:Hq; simpl in Hr; try set_solver.
  destruct (wf_abs_lookup _ _ _ _ W Hq) as (? & ? & Hp). split; [done|]. split; [done|].
  apply list_elem_of_fmap in Hr as ([mid env] & -> & Hm). simpl in *.
  rewrite Forall_forall in Hp. exists env. apply Hp in Hm. simpl in Hm. by subst.
Qed.

Lemma roster_row_inv d s row :
  durable d s -> wf_abs s -> row ∈ t_roster d -> length row.1.1 = 32%nat /\ length row.2 = 32%nat.
Proof.
  intros D W H.
  assert (Hr : row ∈ retain (of_queue row.1.1) (t_roster d))
    by (apply retain_elem; split; [done|]; by apply bool_decide_eq_true_2).
  rewrite (dur_roster _ _ D) in Hr.
  destruct (s !! row.1.1) as [[key [p|ep r]]|] eqn:Hq; simpl in Hr; try set_solver.
  destruct (wf_abs_lookup _ _ _ _ W Hq) as (? & ? & _ & _ & Hm). split; [done|].
  apply elem_of_lookup_imap_1 in Hr as (i & m & -> & Hi). simpl.
  rewrite Forall_forall in Hm. apply Hm. by eapply list_elem_of_lookup_2.
Qed.

(** The backlog of a queue, read from its rows. *)
Lemma pending_read_back `{!RelayExtLaws X} q p (rows : list (QueueId * Envelope)) :
  Forall (fun m : MessageId * Envelope => m.1 = message_id m.2) p ->
  (fun r => (r.1, message_id r.2, proto_encode r.2)) <$> rows = pending_rows q (Mailbox p) ->
  (fun r => (message_id r.2, r.2)) <$> rows = p.
Proof.
  simpl. revert p. induction rows as [|[q' env] rows IH]; intros [|[mid env'] p] F E; csimpl; try done.
  csimpl in E. inversion_clear F as [|? ? Hm F']. simplify_eq/=.
  match goal with H : proto_encode env = _ |- _ => apply proto_encode_inj in H; subst env' end.
  f_equal. by apply IH.
Qed.

(** Everything but the backlogs. *)
Definition no_backlog (kk : bytes * QueueKind) : bytes * QueueKind :=
  (kk.1, match kk.2 with Mailbox _ => Mailbox [] | k => k end).

Lemma abytes_no_backlog s : abytes (no_backlog <$> s) = 0.
Proof.
  unfold abytes. induction s as [|q [key k] s Hq IH] using map_ind; [done|].
  rewrite fmap_insert, zsum_map_insert_new by by rewrite lookup_fmap, Hq.
  rewrite IH. by destruct k.
Qed.

Lemma reopen_queues `{!RelayExtLaws X} now d s :
  durable d s -> wf_abs s ->
  exists qs1 qs2, load_queues now (map_to_list (t_queues d)) ∅ = Some qs1 /\
    load_roster (merge_sort roster_le (t_roster d)) qs1 = Some qs2 /\
    core <$> qs2 = no_backlog <$> s.
Proof.
  intros D W.
  destruct (load_queues_ok now (map_to_list s) ∅) as (qs1 & H1 & L1).
  { apply NoDup_fst_map_to_list. }
  { apply Forall_forall. intros [q [key k]] Hq%elem_of_map_to_list.
    destruct (wf_abs_lookup _ _ _ _ W Hq) as (? & ? & Hk). split; [done|]. split; [done|].
    intros ep r E. simpl in E. subst. apply Hk. }
  rewrite list_to_map_to_list in L1.
  destruct (load_roster_ok (merge_sort roster_le (t_roster d)) qs1) as (qs2 & H2 & L2).
  { apply Forall_forall. intros row Hrow. eapply roster_row_inv; [done..|].
    by rewrite (merge_sort_Permutation roster_le) in Hrow. }
  exists qs1, qs2. split; [by rewrite (dur_queues _ _ D), map_to_list_fmap|]. split; [done|].
  apply map_eq. intros q. rewrite !lookup_fmap, L2, L1, (roster_read_back _ s) by done.
  destruct (s !! q) as [[key k]|]; simpl; [|by rewrite lookup_empty].
  rewrite roster_rows_members. by destruct k.
Qed.

(** Reopening a database that holds [s] gives a relay in state [s], its storage
    counter recomputed, and everything ephemeral empty. *)
Lemma relay_open_durable `{!RelayExtLaws X} now d s :
  durable d s -> wf_abs s -> abytes s < u64_modulus ->
  exists qs, relay_open now d = Some (mkInner qs ∅ ∅ [] (abytes s) (Some d) None ∅) /\ core <$> qs = s.
Proof.
  intros D W Hb. destruct (reopen_queues now d s D W) as (qs1 & qs2 & H1 & H2 & A2).
  destruct (list_image (fun r : QueueId * Envelope => (r.1, message_id r.2, proto_encode r.2)) (t_pending d))
    as (prows & Eprows).
  { apply Forall_forall. intros row Hrow. destruct (pending_row_inv _ _ _ D W Hrow) as (_ & _ & env & E).
    by exists (row.1.1, env). }
  destruct (load_pending_ok prows qs2 0) as (qs3 & used & H3 & Hu & L3).
  { apply Forall_forall. intros [q env] Hrow.
    destruct (pending_row_inv d s (q, message_id env, proto_encode env) D W) as (Hlen & Hm & _).
    { rewrite Eprows. apply list_elem_of_fmap. by exists (q, env). }
    simpl in *. split; [done|]. unfold is_mailbox in *. rewrite A2, lookup_fmap.
    by destruct (s !! q) as [[? []]|]. }
  { by rewrite A2, abytes_no_backlog. }
  assert (A3 : core <$> qs3 = s).
  { apply map_eq. intros q. rewrite lookup_fmap, L3, <- (lookup_fmap core), A2, lookup_fmap.
    pose proof (dur_pending _ _ D q) as Hp. rewrite Eprows, retain_map in Hp.
    destruct (s !! q) as [[key [p|ep r]]|] eqn:Hq; csimpl; [|done..].
    unfold append_pending. simpl. do 3 f_equal. eapply pending_read_back; [|exact Hp].
    by apply (wf_abs_lookup _ _ _ _ W Hq). }
  exists qs3. split; [|done]. unfold relay_open. rewrite H1. simpl. rewrite H2. simpl.
  rewrite Eprows, H3. simpl. rewrite Hu, A3, wrap64_small; [done|].
  split; [apply abytes_nonneg | done].
Qed.

End Durable.
