(* ===== verification/RelayRun.v ===== *)
(** * Runs of the relay

    The operations the relay's process goes through, one at a time (the mutex
    serialises them): requests from connections, connections coming and going,
    the attestation key being configured, and the process being killed and
    restarted from its database. Every one of them is a step of the delivery
    service of [RelaySpec.v] and keeps the invariant [Inv]; so is every run. *)

From S2P Require Import Prelude External Proto Relay RelaySpec RelayRefine RelayDurable.

(** ** Operations *)

Inductive Op :=
| OHandle (e : Env) (msg : ClientMessage) (tx : option ChanId)
| OConnect (tx : ChanId)
| ODisconnect (tx : ChanId)
| ORestart (now : Z) (key : option bytes).

Definition roster_of (s : AState) (q : QueueId) : list QueueId :=
  match s !! q with Some (_, GroupInbox _ r) => r | _ => [] end.

(** What a client learns from the reply to its request. *)
Definition label_of (s : AState) (msg : ClientMessage) (r : outcome ServerMessage) : Label :=
  match msg, r with
  | CreateMailbox _ _, Done (SQueueCreated q key) => LCreated q key (Mailbox [])
  | CreateGroupInbox _ ep roster _, Done (SQueueCreated q key) => LCreated q key (GroupInbox ep roster)
  | SendToMailbox q _ env, Done SOk => LAccepted q env
  | SendToGroupInbox q k _ env, Done SOk => LGroup q k (roster_of s q) env
  | Ack q mid, Done SOk => LAcked q mid
  | _, _ => LTau
  end.

Section Run.
Context {X : RelayExt}.

(** A restart drops the process and its connections, reopens the database and
    configures the key as [main] does. Where the database cannot be opened, [main] ends
    with the error: no connection is served any more, as in a world whose lock is
    poisoned, until a restart finds a database it can open. *)
Definition exec (o : Op) (w : World) : World * Label :=
  match o with
  | OHandle e msg tx =>
      let '(w', r) := handle e msg tx w in (w', label_of (abs (inner w)) msg r)
  | OConnect tx => (set_chans (<[tx:=mkChannel true []]> (chans w)) w, LTau)
  | ODisconnect tx =>
      (set_chans (alter (fun ch => mkChannel false (ch_sent ch)) tx (chans w)) w, LTau)
  | ORestart now key =>
      (match db (inner w) ≫= relay_open now with
       | Some i => mkWorld (set_key key i) ∅ false
       | None => mkWorld (inner w) ∅ true
       end, LTau)
  end.

Fixpoint run (ops : list Op) (w : World) : World * list Label :=
  match ops with
  | [] => (w, [])
  | o :: ops' =>
      let '(w1, l) := exec o w in let '(w2, ls) := run ops' w1 in (w2, l :: ls)
  end.

(** ** Admissible operations *)

Definition is_32 (b : bytes) : bool := bool_decide (length b = 32%nat).

(** The values of a request are of their types: ids and random draws of 32
    bytes, [u64] epochs, a roster that fits a frame (whose length is a [u32]). On
    a relay with a database a commit stays below SQLite's largest integer, and a
    restart needs a database to restart from. *)
Definition op_ok (w : World) (o : Op) : bool :=
  match o with
  | OHandle e (CreateMailbox _ _) _ => forallb is_32 (draws e)
  | OHandle e (CreateGroupInbox _ ep roster _) _ =>
      forallb is_32 (draws e) && forallb is_32 roster && (len roster <? u32_modulus) &&
      (0 <=? ep) && (ep <? u64_modulus)
  | OHandle _ (SendToGroupInbox _ (Commit target) _ _) _ =>
      match db (inner w) with Some _ => target <? i64_max | None => true end
  | ORestart _ _ => match db (inner w) with Some _ => true | None => false end
  | _ => true
  end.

Fixpoint ops_ok (ops : list Op) (w : World) : bool :=
  match ops with
  | [] => true
  | o :: ops' => op_ok w o && ops_ok ops' (exec o w).1
  end.

(** ** The invariant *)

Record Inv (i : Inner) : Prop := {
  inv_acct : acct i;
  inv_bound : abytes (abs i) <= MAX_STORAGE_BYTES;
  inv_wf : wf_abs (abs i);
  inv_db d : db i = Some d -> durable d (abs i);
}.

Lemma inv_new : Inv (inner relay_new).
Proof. by split. Qed.

Lemma inv_soft i i' : soft i i' -> Inv i -> Inv i'.
Proof.
  intros (Ha & Hs & Hd) [I1 I2 I3 I4]. unfold acct in I1.
  split; unfold acct; rewrite <- ?Ha, <- ?Hs; try done.
  intros d. rewrite <- Hd. apply I4.
Qed.

(** ** Well-formedness is preserved *)

Lemma wf_abs_deliver roster env s : wf_abs s -> wf_abs (deliver roster env s).
Proof.
  intros W q [key k]. rewrite deliver_lookup.
  intros ([key0 k0] & Hq & E)%fmap_Some. simplify_eq/=.
  destruct (wf_abs_lookup _ _ _ _ W Hq) as (? & ? & Hk). split; [done|]. split; [done|].
  destruct k0; simpl in *; [|done]. apply Forall_app. split; [done|].
  by apply Forall_replicate.
Qed.

Lemma wf_abs_advance_epoch q k s : wf_abs s -> wf_abs (advance_epoch q k s).
Proof.
  intros W. unfold advance_epoch. destruct k; [|done].
  destruct (s !! q) as [[key [p|ep r]]|] eqn:Hq; try done.
  apply map_Forall_insert_2; [|done].
  destruct (wf_abs_lookup _ _ _ _ W Hq) as (? & ? & _ & ? & ?).
  simpl. repeat (split; [done || apply wrap64_range|]). done.
Qed.

Lemma wf_abs_ack q mid s : wf_abs s -> wf_abs (ack_abs q mid s).
Proof.
  intros W. unfold ack_abs.
  destruct (s !! q) as [[key [p|ep r]]|] eqn:Hq; try done.
  apply map_Forall_insert_2; [|done].
  destruct (wf_abs_lookup _ _ _ _ W Hq) as (? & ? & Hp). split; [done|]. split; [done|]. simpl in *.
  rewrite Forall_forall in *. intros m [? _]%retain_elem. auto.
Qed.

(** The bound check is exact: no multiplication or addition of it overflows. *)
Lemma would_exceed_false i n env :
  Inv i -> env_len env <= MAX_MESSAGE_SIZE -> 0 <= n < u32_modulus ->
  would_exceed_storage_bound i (env_len env) n = false ->
  abytes (abs i) + env_len env * n <= MAX_STORAGE_BYTES.
Proof.
  intros [I1 I2 _ _] Hl Hn H. unfold would_exceed_storage_bound in H. bools.
  unfold saturating_add64 in H. rewrite I1 in H. pose proof (env_len_nonneg env).
  unfold MAX_MESSAGE_SIZE, u32_modulus, MAX_STORAGE_BYTES, u64_max in *.
  assert (0 <= env_len env * n < u64_modulus) by (unfold u64_modulus; nia).
  rewrite wrap64_small in H by done. lia.
Qed.

Lemma inv_lt_u64 i : Inv i -> abytes (abs i) < u64_modulus.
Proof. intros I. pose proof (inv_bound _ I). unfold MAX_STORAGE_BYTES, u64_modulus in *. lia. Qed.

(** ** Each operation is a step *)

Definition refines (i : Inner) (l : Label) (i' : Inner) : Prop :=
  spec_step (abs i) l (abs i') /\ Inv i'.

Lemma refines_soft i i' : Inv i -> soft i i' -> refines i LTau i'.
Proof.
  intros I S. split; [|by eapply inv_soft]. destruct S as (-> & _). constructor.
Qed.

(** A queue is added to a state that does not have it. *)
Lemma refines_create i i' q key k f :
  Inv i -> abs i !! q = None -> empty_kind k -> length q = 32%nat -> length key = 32%nat -> wf_kind k ->
  abs i' = <[q:=(key, k)]> (abs i) -> storage_bytes_used i' = storage_bytes_used i ->
  db_wrote f i i' ->
  (forall d d', durable d (abs i) -> f d = Some d' -> durable d' (<[q:=(key, k)]> (abs i))) ->
  refines i (LCreated q key k) i'.
Proof.
  intros I Hn Hk Hq Hkey W Ea Es Hd Hf. split; [rewrite Ea; by constructor|].
  assert (E : abytes (abs i') = abytes (abs i)).
  { unfold abytes. rewrite Ea, zsum_map_insert_new by done. destruct k; simpl in *; subst; simpl; lia. }
  split.
  - unfold acct. rewrite E, Es. apply I.
  - rewrite E. apply I.
  - rewrite Ea. apply map_Forall_insert_2; [done|apply I].
  - intros d Hd'. unfold db_wrote in Hd. destruct (db i) as [d0|] eqn:E0; [|congruence].
    destruct Hd as (d' & Hfd & ?). simplify_eq. rewrite Ea. eapply Hf; [|done]. by apply I.
Qed.

Lemma draws_32 e b : forallb is_32 (draws e) = true -> b ∈ draws e -> length b = 32%nat.
Proof.
  intros H Hb. rewrite forallb_forall in H. apply list_elem_of_In, H in Hb. by apply bool_decide_eq_true in Hb.
Qed.

Lemma step_create_mailbox `{!RelayExtLaws X} e s att w w' r :
  Inv (inner w) -> forallb is_32 (draws e) = true ->
  create_mailbox e s att w = (w', r) ->
  match r with
  | Done (q, key) => refines (inner w) (LCreated q key (Mailbox [])) (inner w')
  | _ => refines (inner w) LTau (inner w')
  end.
Proof.
  intros I Hd H. apply create_mailbox_inv in H as [_ [[F S]|(q & key & -> & H1 & H2 & H3 & H4 & H5 & H6)]].
  { apply refines_soft in S; [|done]. by destruct r. }
  eapply refines_create; eauto using draws_32; [done|by constructor|].
  intros. by eapply durable_create_mailbox.
Qed.

Lemma step_create_group_inbox `{!RelayExtLaws X} e s ep roster att w w' r :
  Inv (inner w) -> forallb is_32 (draws e) = true -> wf_kind (GroupInbox ep roster) ->
  create_group_inbox e s ep roster att w = (w', r) ->
  match r with
  | Done (q, key) => refines (inner w) (LCreated q key (GroupInbox ep roster)) (inner w')
  | _ => refines (inner w) LTau (inner w')
  end.
Proof.
  intros I Hd W H. apply create_group_inbox_inv in H as [_ [[F S]|(q & key & -> & H1 & H2 & H3 & H4 & H5 & H6)]].
  { apply refines_soft in S; [|done]. by destruct r. }
  eapply refines_create; eauto using draws_32; [done|].
  intros. eapply durable_create_inbox; try done. apply W.
Qed.

(** The database after a write-through statement. *)
Lemma db_wrote_total f i i' d :
  db_wrote (fun d => Some (f d)) i i' -> db i' = Some d -> exists d0, db i = Some d0 /\ d = f d0.
Proof.
  unfold db_wrote. destruct (db i) as [d0|]; [|congruence]. intros (d' & ? & ?) ?. simplify_eq. by eauto.
Qed.

Lemma step_send_to_mailbox e q tag env w w' r :
  Inv (inner w) -> send_to_mailbox e q tag env w = (w', r) ->
  refines (inner w) (match r with Done _ => LAccepted q env | _ => LTau end) (inner w').
Proof.
  intros I H. apply send_to_mailbox_inv in H as [(F & S & _)|(-> & key & p & w1 & Hq & Hv & Hp & Hl & Hx & Ha & Hs & _ & _ & Hd & ->)].
  { apply refines_soft in S; [|done]. by destruct r. }
  destruct (push_and_notify_inv q env w1) as (Ea & Eu & Ed). rewrite Ha in Ea.
  assert (Hm : is_mailbox (abs (inner w)) q = true) by (unfold is_mailbox; by rewrite Hq).
  apply (would_exceed_false _ _ _ I) in Hx; [|done|by split]. pose proof (inv_lt_u64 _ I).
  split; [rewrite Ea; by econstructor|]. split.
  - apply push_and_notify_acct; unfold acct; rewrite Ha, ?Hs; [apply I|].
    unfold MAX_STORAGE_BYTES, u64_modulus in *. lia.
  - rewrite Ea, abytes_deliver_one, Hm. lia.
  - rewrite Ea. apply (wf_abs_deliver [q]). apply I.
  - intros d. rewrite Ed, Ea. intros Hd'. eapply db_wrote_total in Hd as (d0 & Hd0 & ->); [|done].
    apply durable_pending; [by apply I|done].
Qed.

Lemma step_send_to_group_inbox e q k tag env w w' r :
  Inv (inner w) ->
  (forall target d, k = Commit target -> db (inner w) = Some d -> target < i64_max) ->
  send_to_group_inbox e q k tag env w = (w', r) ->
  refines (inner w) (match r with Done _ => LGroup q k (roster_of (abs (inner w)) q) env | _ => LTau end)
    (inner w').
Proof.
  intros I Hc H. apply send_to_group_inbox_inv in H
    as [(F & S & _)|(-> & key & ep & roster & w1 & Hq & Hv & Hep & Hl & Hx & Ha & Hs & _ & _ & Hd & ->)].
  { apply refines_soft in S; [|done]. by destruct r. }
  destruct (wf_abs_lookup _ _ _ _ (inv_wf _ I) Hq) as (_ & _ & Hep0 & Hro & _).
  apply (would_exceed_false _ _ _ I) in Hx; [|done|by split; [apply len_nonneg|]].
  destruct (bump_epoch_inv q k (inner w1)) as (Eb & Eu & Ed & _). rewrite Ha in Eb. rewrite Hs in Eu.
  destruct (push_all_inv roster env (set_inner (bump_epoch q k (inner w1)) w1)) as (Ea & Eacct & Edb).
  { simpl. unfold acct. rewrite Eb, Eu, abytes_advance_epoch. apply I. }
  { simpl. rewrite Eb, abytes_advance_epoch. unfold MAX_STORAGE_BYTES, u64_modulus in *. lia. }
  simpl in Ea, Edb. rewrite Eb in Ea.
  split; [|split].
  - rewrite Ea. unfold roster_of. rewrite Hq. by econstructor.
  - done.
  - rewrite Ea. pose proof (abytes_deliver roster env (advance_epoch q k (abs (inner w)))) as Hb.
    rewrite abytes_advance_epoch in Hb. lia.
  - rewrite Ea. apply wf_abs_deliver, wf_abs_advance_epoch, I.
  - intros d. rewrite Edb, Ed, Ea. intros Hd'. eapply db_wrote_total in Hd as (d0 & Hd0 & ->); [|done].
    eapply durable_group_send; [by apply I|done|lia|].
    intros Hk. destruct k as [target|]; [|done]. simpl in Hep. bools. subst. by eapply Hc.
Qed.

Lemma step_ack e q mid w w' r :
  Inv (inner w) -> ack e q mid w = (w', r) ->
  refines (inner w) (match r with Done _ => LAcked q mid | _ => LTau end) (inner w').
Proof.
  intros I H. apply ack_inv in H as [(F & S & _)|(-> & i1 & Ha & Hs & Hd & -> & _)].
  { apply refines_soft in S; [|done]. by destruct r. }
  destruct (ack_inner_inv q mid i1) as (Ea & Eacct & Ed).
  { unfold acct. rewrite Ha, Hs. apply I. }
  { rewrite Ha. by apply inv_lt_u64. }
  rewrite Ha in Ea. split; [rewrite Ea; constructor|]. split.
  - done.
  - rewrite Ea. pose proof (abytes_ack q mid (abs (inner w))). pose proof (inv_bound _ I). lia.
  - rewrite Ea. apply wf_abs_ack, I.
  - intros d. rewrite Ed, Ea. intros Hd'. eapply db_wrote_total in Hd as (d0 & Hd0 & ->); [|done].
    apply durable_ack. by apply I.
Qed.

Definition reply {A} (f : A -> ServerMessage) (r : outcome A) : outcome ServerMessage :=
  match r with
  | Done a => Done (f a)
  | Rejected c => Done (SError c)
  | Panicked => Panicked
  | OutOfEntropy => OutOfEntropy
  end.

Lemma reply_of_inv {A} (f : A -> ServerMessage) m w w' r' :
  reply_of f m w = (w', r') -> exists r, m w = (w', r) /\ r' = reply f r.
Proof. unfold reply_of. destruct (m w) as [w1 r]. intros H. exists r. by destruct r; simplify_eq. Qed.

Lemma step_handle `{!RelayExtLaws X} e msg tx w w' r :
  Inv (inner w) -> op_ok w (OHandle e msg tx) = true -> handle e msg tx w = (w', r) ->
  refines (inner w) (label_of (abs (inner w)) msg r) (inner w').
Proof.
  intros I Hok H. destruct msg as [q tag env|q k tag env|qs|q mid| |s att|s ep roster att]; simpl in H.
  - apply reply_of_inv in H as (r0 & H & ->). apply step_send_to_mailbox in H; [|done]. by destruct r0.
  - apply reply_of_inv in H as (r0 & H & ->).
    apply step_send_to_group_inbox in H; [by destruct r0|done|].
    intros target d -> Hd. simpl in Hok. rewrite Hd in Hok. by bools.
  - assert (label_of (abs (inner w)) (Subscribe qs) r = LTau) as -> by done.
    apply refines_soft; [done|]. destruct tx; [|by unfold ret in H; simplify_eq].
    apply reply_of_inv in H as (r0 & H & ->). by eapply subscribe_inv.
  - apply reply_of_inv in H as (r0 & H & ->). apply step_ack in H; [|done]. by destruct r0.
  - apply reply_of_inv in H as (r0 & H & ->). apply refines_soft; [done|].
    by eapply issue_pow_challenge_inv.
  - apply reply_of_inv in H as (r0 & H & ->). apply step_create_mailbox in H; [|done..].
    by destruct r0 as [[]| | |].
  - apply reply_of_inv in H as (r0 & H & ->). simpl in Hok. bools.
    apply step_create_group_inbox in H; [by destruct r0 as [[]| | |]|done..|].
    split; [done|]. split; [done|]. apply Forall_forall. intros m Hm. by eapply (draws_32 (mkEnv 0 0 roster true)).
Qed.

Lemma step_restart `{!RelayExtLaws X} now key w :
  Inv (inner w) -> op_ok w (ORestart now key) = true ->
  refines (inner w) LTau (inner (exec (ORestart now key) w).1) /\
  chans (exec (ORestart now key) w).1 = ∅ /\ poisoned (exec (ORestart now key) w).1 = false.
Proof.
  intros I Hok. simpl in *. destruct (db (inner w)) as [d|] eqn:Hd; [|done]. simpl.
  destruct (relay_open_durable now d (abs (inner w))) as (qs & -> & Ea);
    [by apply I | apply I | by apply inv_lt_u64|].
  split; [|done]. apply refines_soft; [done|]. simpl. split; [by rewrite <- Ea at 1|].
  split; [apply I|done].
Qed.

Lemma exec_refines `{!RelayExtLaws X} o w :
  Inv (inner w) -> op_ok w o = true -> refines (inner w) (exec o w).2 (inner (exec o w).1).
Proof.
  intros I Hok. destruct o as [e msg tx|tx|tx|now key].
  - simpl. destruct (handle e msg tx w) as [w' r] eqn:H. by eapply step_handle.
  - by apply refines_soft.
  - by apply refines_soft.
  - by apply step_restart.
Qed.

Lemma run_refines `{!RelayExtLaws X} ops w :
  Inv (inner w) -> ops_ok ops w = true ->
  spec_steps (abs (inner w)) (run ops w).2 (abs (inner (run ops w).1)) /\ Inv (inner (run ops w).1).
Proof.
  revert w. induction ops as [|o ops IH]; intros w I Hok; [split; [constructor|done]|].
  simpl in *. bools. destruct (exec_refines o w I) as [Hs I1]; [done|].
  destruct (exec o w) as [w1 l]. simpl in *. destruct (IH w1 I1) as [Hss I2]; [done|].
  destruct (run ops w1) as [w2 ls]. split; [by econstructor|done].
Qed.

End Run.
