(* ===== verification/RelayProps.v ===== *)
(** * What the relay guarantees

    The properties of the relay over whole runs, restarts included: they follow
    from the refinement of [RelayRun.v] and the histories of [RelaySpec.v]. *)

From S2P Require Import Prelude External Proto Relay RelaySpec RelayRefine RelayDurable RelayRun.

(** ** A concrete run, for the examples

    Two mailboxes, a group inbox over them, sends, an acknowledgement and a
    restart, on a relay with a database. *)
Module Scenario.
Import ToyInstances RelayToy.

Definition idq (n : Z) : QueueId := replicate 31 0 ++ [n].
Definition nonce0 : bytes := replicate 16 0.
Definition env (n : Z) : Envelope := mkEnvelope [n] RelayFanout (replicate 256 n).
Definition at_ (t : Z) (ds : list bytes) : Env := mkEnv (secs t) t ds true.

(** A database-backed relay with nothing in it. *)
Definition boot : World := mkWorld (mkInner ∅ ∅ ∅ [] 0 (Some empty_db) None ∅) ∅ false.

Definition solved (n : Z) : PowSolution := mkPowSolution (idq n) 0.

Definition setup : list Op :=
  [OConnect 0%nat;
   OHandle (at_ 1 [idq 201]) RequestPowChallenge None;
   OHandle (at_ 1 [idq 1; idq 101]) (CreateMailbox (solved 201) None) None;
   OHandle (at_ 2 [idq 202]) RequestPowChallenge None;
   OHandle (at_ 2 [idq 2; idq 102]) (CreateMailbox (solved 202) None) None;
   OHandle (at_ 3 [idq 203]) RequestPowChallenge None;
   OHandle (at_ 3 [idq 3; idq 103]) (CreateGroupInbox (solved 203) 7 [idq 1; idq 2] None) None].

Definition group_send (k : GroupSendKind) (n : Z) : Op :=
  OHandle (at_ 4 []) (SendToGroupInbox (idq 3) k (compute_tag (idq 103) (idq 3) (env n)) (env n)) None.

Definition mailbox_send (n : Z) : Op :=
  OHandle (at_ 5 []) (SendToMailbox (idq 1) (compute_tag (idq 101) (idq 1) (env n)) (env n)) None.

Definition traffic : list Op :=
  [group_send (Commit 7) 10; group_send (Commit 7) 11; mailbox_send 12;
   OHandle (at_ 6 []) (Subscribe [idq 1]) (Some 0%nat);
   ORestart 7 None;
   group_send (Commit 8) 13;
   OHandle (at_ 8 []) (Ack (idq 1) [10]) None].

Definition ready : World := (run setup boot).1.

Lemma boot_inv : Inv (inner boot).
Proof.
  split; try done. intros d E. simpl in E. simplify_eq. apply durable_empty.
Qed.

Lemma ready_inv : Inv (inner ready).
Proof. apply (run_refines setup boot boot_inv). by vm_compute. Qed.

End Scenario.
Import RelayToy.

Section Histories.
Context {X : RelayExt} `{!RelayExtLaws X}.
Implicit Types (w : World) (ops : list Op).

(** C1: every run of the relay, from any state that satisfies the invariant, is
    a history of the abstract delivery service: each request, disconnection or
    restart changes the queues exactly as its reply says, and nothing else does. Runs are
    of admissible operations ([ops_ok]), here and below. *)
Theorem relay_refinement ops w :
  Inv (inner w) -> ops_ok ops w = true ->
  spec_steps (abs (inner w)) (run ops w).2 (abs (inner (run ops w).1)).
Proof. intros. by apply run_refines. Qed.

(** C5: at most one commit is accepted per epoch of a group inbox: over any run,
    restarts included, the epochs of the accepted commits are consecutive from
    the inbox's epoch on, pairwise different, and the inbox ends at the next one
    with its roster unchanged. *)
Theorem one_commit_per_epoch ops w q en ep roster :
  Inv (inner w) -> ops_ok ops w = true ->
  queues (inner w) !! q = Some en -> kind en = GroupInbox ep roster ->
  let cs := commits q (run ops w).2 in
  cs = epochs_from ep (length cs) /\ (len cs <= u64_modulus -> NoDup cs) /\
  exists en', queues (inner (run ops w).1) !! q = Some en' /\
    kind en' = GroupInbox (wrap64 (ep + len cs)) roster /\ send_key en' = send_key en.
Proof.
  intros I Hok Hq Hk cs. destruct (run_refines ops w I Hok) as [Hs _].
  assert (Ha : abs (inner w) !! q = Some (send_key en, GroupInbox ep roster))
    by by rewrite (abs_lookup_Some _ _ _ Hq), Hk.
  destruct (wf_abs_lookup _ _ _ _ (inv_wf _ I) Ha) as (_ & _ & Hep & _).
  destruct (spec_steps_inbox _ _ _ _ _ _ _ Hs Ha Hep) as [E Hq']. fold cs in E, Hq'.
  split; [done|]. split; [intros Hn; rewrite E; by apply epochs_from_NoDup|].
  rewrite abs_lookup in Hq'. apply fmap_Some in Hq' as (en' & Hq' & Hc).
  exists en'. unfold core in Hc. by simplify_eq.
Qed.

(** C9: a mailbox holds exactly what was accepted for it and not acknowledged,
    in the order of acceptance: after any run, restarts included, its backlog is
    the old one with the accepted messages appended and the acknowledged ones
    removed. *)
Theorem mailbox_backlog_exact ops w q en p :
  Inv (inner w) -> ops_ok ops w = true ->
  queues (inner w) !! q = Some en -> kind en = Mailbox p ->
  exists en', queues (inner (run ops w).1) !! q = Some en' /\
    kind en' = Mailbox (foldl (backlog_step q) p (run ops w).2) /\ send_key en' = send_key en.
Proof.
  intros I Hok Hq Hk. destruct (run_refines ops w I Hok) as [Hs _].
  assert (Ha : abs (inner w) !! q = Some (send_key en, Mailbox p))
    by by rewrite (abs_lookup_Some _ _ _ Hq), Hk.
  pose proof (spec_steps_mailbox _ _ _ _ _ _ Hs Ha) as Hq'.
  rewrite abs_lookup in Hq'. apply fmap_Some in Hq' as (en' & Hq' & Hc).
  exists en'. unfold core in Hc. by simplify_eq.
Qed.

Lemma exec_label_accepted q env tx e tag w w1 :
  exec (OHandle e (SendToMailbox q tag env) tx) w = (w1, LAccepted q env) ->
  send_to_mailbox e q tag env w = (w1, Done tt).
Proof.
  simpl. unfold reply_of. destruct (send_to_mailbox e q tag env w) as [w' [[]| | |]];
    simpl; intros; by simplify_eq.
Qed.

(** C8: at-least-once delivery: a message whose send was answered [Ok] is in the
    mailbox, and still is after any further run, restarts included, in which no
    acknowledgement for it was accepted. The run is of admissible
    operations ([ops_ok]): on a relay with a database no commit is made for the epoch
    2^63 - 1. A client can make one, by creating an inbox at that epoch, and the relay
    cannot open its database any more ([last_epoch_commit_bricks_database]). *)
Theorem accepted_message_survives e q tag env tx w w1 ops :
  Inv (inner w) -> exec (OHandle e (SendToMailbox q tag env) tx) w = (w1, LAccepted q env) ->
  ops_ok ops w1 = true -> LAcked q (message_id env) ∉ (run ops w1).2 ->
  exists en p, queues (inner (run ops w1).1) !! q = Some en /\ kind en = Mailbox p /\
    (message_id env, env) ∈ p.
Proof.
  intros I H Hok Hn. apply exec_label_accepted in H.
  pose proof (step_send_to_mailbox _ _ _ _ _ _ _ I H) as [Hs I1].
  destruct (run_refines ops w1 I1 Hok) as [Hss _].
  apply send_to_mailbox_inv in H as [(F & _)|(_ & key & p & _ & Hq & _)]; [done|].
  apply (spec_step_mailbox _ _ _ _ _ _ Hs) in Hq.
  apply (spec_steps_mailbox _ _ _ _ _ _ Hss) in Hq.
  rewrite abs_lookup in Hq. apply fmap_Some in Hq as (en & Hq & Hc). unfold core in Hc. simplify_eq.
  eexists en, _. split; [done|]. split; [by symmetry|]. apply backlog_keeps; [|done].
  simpl. rewrite bool_decide_eq_true_2 by done. set_solver.
Qed.

(** C10: the storage counter is exact and bounded: after any run it equals the
    bytes of all stored ciphertexts, and never exceeds [MAX_STORAGE_BYTES]; no
    intermediate [u64] computation of it wraps. *)
Theorem storage_exact_and_bounded ops w :
  Inv (inner w) -> ops_ok ops w = true ->
  let i := inner (run ops w).1 in
  storage_bytes_used i = abytes (abs i) /\ 0 <= storage_bytes_used i <= MAX_STORAGE_BYTES.
Proof.
  intros I Hok i. destruct (run_refines ops w I Hok) as [_ I']. fold i in I'.
  pose proof (inv_acct _ I') as Ha. unfold acct in Ha. split; [done|].
  pose proof (inv_bound _ I'). pose proof (abytes_nonneg (abs i)). lia.
Qed.

(** C11: killing the relay after any run and reopening its database gives back
    every queue with its key, its roster in order, its epoch and its backlog in
    order, and the same storage count; subscribers, challenges and spent tokens
    are empty. The run is of admissible
    operations ([ops_ok]): on a relay with a database no commit is made for the epoch
    2^63 - 1. A client can make one, by creating an inbox at that epoch, and the relay
    cannot open its database any more ([last_epoch_commit_bricks_database]). *)
Theorem restart_restores ops w now d :
  Inv (inner w) -> ops_ok ops w = true -> db (inner (run ops w).1) = Some d ->
  exists i', relay_open now d = Some i' /\
    core <$> queues i' = core <$> queues (inner (run ops w).1) /\
    storage_bytes_used i' = storage_bytes_used (inner (run ops w).1) /\ db i' = Some d /\
    subscribers i' = ∅ /\ outstanding_challenges i' = ∅ /\ spent_tokens i' = ∅.
Proof.
  intros I Hok Hd. destruct (run_refines ops w I Hok) as [_ I'].
  destruct (relay_open_durable now d (abs (inner (run ops w).1))) as (qs & -> & Ea);
    [by apply I' | apply I' | by apply inv_lt_u64|].
  eexists. split; [done|]. simpl. split; [done|]. split; [|done]. symmetry. apply I'.
Qed.

(** C12: a request that is refused or panics stores nothing: the contents of
    every queue, the epochs, the storage count, the database, the subscriptions
    and what has been pushed to every connection are as before. *)
Theorem failed_request_stores_nothing e msg tx w w' r :
  handle e msg tx w = (w', r) -> (exists c, r = Done (SError c)) \/ r = Panicked ->
  soft (inner w) (inner w') /\ same_push w w'.
Proof.
  intros H Hr.
  assert (Hf : forall A f (r0 : outcome A), r = reply f r0 -> (forall a c, f a <> SError c) -> failed r0).
  { intros A f r0 E Hn. destruct r0; simpl in *; try done. destruct Hr as [[c ?]|?]; simplify_eq. by eapply Hn. }
  destruct msg as [q tag env|q k tag env|qs|q mid| |s att|s ep roster att]; simpl in H.
  - apply reply_of_inv in H as (r0 & H & E). apply Hf in E; [|done].
    apply send_to_mailbox_inv in H as [(_ & S)|(-> & _)]; done.
  - apply reply_of_inv in H as (r0 & H & E). apply Hf in E; [|done].
    apply send_to_group_inbox_inv in H as [(_ & S)|(-> & _)]; done.
  - destruct tx; [|unfold ret in H; simplify_eq; naive_solver].
    apply reply_of_inv in H as (r0 & H & E). apply Hf in E; [|done].
    unfold subscribe in H. apply locked_inv in H as [(-> & -> & ?)|(w1 & H & _)]; [done|].
    mstep H. by simplify_eq.
  - apply reply_of_inv in H as (r0 & H & E). apply Hf in E; [|done].
    apply ack_inv in H as [(_ & S)|(-> & _)]; done.
  - apply reply_of_inv in H as (r0 & H & E). apply Hf in E; [|done].
    pose proof (issue_pow_challenge_inv _ _ _ _ H) as S. split; [done|].
    unfold issue_pow_challenge in H. destruct (draws e); [by mstep H; simplify_eq|].
    apply locked_inv in H as [(-> & -> & ?)|(w1 & H & _)]; [done|].
    rewrite modify_bind in H. mstep H. by simplify_eq.
  - apply reply_of_inv in H as (r0 & H & E). apply Hf in E; [|done].
    apply create_mailbox_inv in H as [Hc [(_ & S)|(q & key & -> & _)]]; done.
  - apply reply_of_inv in H as (r0 & H & E). apply Hf in E; [|done].
    apply create_group_inbox_inv in H as [Hc [(_ & S)|(q & key & -> & _)]]; done.
Qed.

End Histories.

Section HistoryWitnesses.
Import Scenario ToyInstances RelayToy.

Lemma relay_refinement_witness :
  spec_steps (abs (inner ready)) (run traffic ready).2 (abs (inner (run traffic ready).1)).
Proof. apply (relay_refinement traffic ready ready_inv). vm_compute. reflexivity. Defined.

Lemma one_commit_per_epoch_witness :
  commits (idq 3) (run traffic ready).2 = [7; 8] /\ NoDup (commits (idq 3) (run traffic ready).2).
Proof.
  split; [vm_compute; reflexivity|].
  eapply (one_commit_per_epoch traffic ready (idq 3) _ 7 [idq 1; idq 2] ready_inv).
  - vm_compute. reflexivity.
  - vm_compute. reflexivity.
  - vm_compute. reflexivity.
  - apply Z.leb_le. vm_compute. reflexivity.
Defined.

Lemma mailbox_backlog_exact_witness :
  exists en', queues (inner (run traffic ready).1) !! idq 1 = Some en' /\
    kind en' = Mailbox [([12], env 12); ([13], env 13)].
Proof.
  destruct (mailbox_backlog_exact traffic ready (idq 1) (mkEntry (idq 101) (Mailbox []) 0 (secs 1)) [] ready_inv)
    as (en' & H1 & H2 & _).
  - vm_compute. reflexivity.
  - vm_compute. reflexivity.
  - reflexivity.
  - exists en'. split; [exact H1|]. rewrite H2. vm_compute. reflexivity.
Defined.

Lemma accepted_message_survives_witness :
  exists en p, queues (inner (run traffic (exec (mailbox_send 20) ready).1).1) !! idq 1 = Some en /\
    kind en = Mailbox p /\ ([20], env 20) ∈ p.
Proof.
  apply (accepted_message_survives (at_ 5 []) (idq 1) (compute_tag (idq 101) (idq 1) (env 20)) (env 20) None
           ready (exec (mailbox_send 20) ready).1 traffic ready_inv).
  - vm_compute. reflexivity.
  - vm_compute. reflexivity.
  - apply (bool_decide_unpack _). vm_compute. exact I.
Defined.

Lemma storage_exact_and_bounded_witness :
  storage_bytes_used (inner (run traffic ready).1) = abytes (abs (inner (run traffic ready).1)) /\
  storage_bytes_used (inner (run traffic ready).1) = 4 * 256.
Proof.
  split; [|vm_compute; reflexivity].
  apply (storage_exact_and_bounded traffic ready ready_inv). vm_compute. reflexivity.
Defined.

Lemma restart_restores_witness :
  exists d i', relay_open 9 d = Some i' /\
    core <$> queues i' = core <$> queues (inner (run traffic ready).1) /\ size (queues i') = 3%nat.
Proof.
  destruct (db (inner (run traffic ready).1)) as [d|] eqn:E; [|exfalso; revert E; vm_compute; discriminate].
  exists d. destruct (restart_restores traffic ready 9 d ready_inv) as (i' & H1 & H2 & _).
  - vm_compute. reflexivity.
  - exact E.
  - exists i'. split; [exact H1|]. split; [exact H2|].
    rewrite <- (map_size_fmap core (queues i')), H2. vm_compute. reflexivity.
Defined.

(** The second of two competing commits is refused. *)
Lemma failed_request_stores_nothing_witness :
  let w := (exec (group_send (Commit 7) 10) ready).1 in
  let w' := (exec (group_send (Commit 7) 11) w).1 in
  soft (inner w) (inner w') /\ same_push w w'.
Proof.
  intros w w'.
  apply (failed_request_stores_nothing (at_ 4 [])
           (SendToGroupInbox (idq 3) (Commit 7) (compute_tag (idq 103) (idq 3) (env 11)) (env 11)) None
           w w' (Done (SError EpochConflict))).
  - vm_compute. reflexivity.
  - left. exists EpochConflict. reflexivity.
Defined.

End HistoryWitnesses.
