(* ===== verification/RelayPush.v ===== *)
(** * Live delivery: subscriptions and pushes

    What a connection receives: the fan-out of a message to the subscribers of
    its targets and the backlog drained by a subscription. *)

From S2P Require Import Prelude External Proto Relay RelaySpec RelayRefine RelayDurable RelayRun RelayProps.

Definition open_chan (w : World) (c : ChanId) : bool := negb (chan_closed (chans w) c).

(** What has been pushed to a connection so far. *)
Definition sent (w : World) (c : ChanId) : list PushMsg := from_option ch_sent [] (chans w !! c).

Definition subs (i : Inner) (q : QueueId) : list ChanId := default [] (subscribers i !! q).

(** No connection is registered twice for a queue. *)
Definition subs_ok (i : Inner) : Prop := forall q, NoDup (subs i q).

(** [send] to an open channel appends, to a closed one does nothing. *)
Lemma chan_send_spec c msg cs :
  chan_send c msg cs =
  (if negb (chan_closed cs c) then alter (fun ch => mkChannel (ch_open ch) (ch_sent ch ++ [msg])) c cs else cs,
   negb (chan_closed cs c)).
Proof.
  unfold chan_send, chan_closed. destruct (cs !! c) as [[[] l]|] eqn:E; simpl; try done.
  f_equal. apply map_eq. intros c'. destruct (decide (c = c')) as [<-|].
  - by rewrite lookup_insert_eq, lookup_alter_eq, E.
  - by rewrite lookup_insert_ne, lookup_alter_ne.
Qed.

Lemma chan_closed_alter cs c l c' :
  chan_closed (alter (fun ch => mkChannel (ch_open ch) (ch_sent ch ++ l)) c cs) c' = chan_closed cs c'.
Proof.
  unfold chan_closed. destruct (decide (c = c')) as [<-|].
  - rewrite lookup_alter_eq. by destruct (cs !! c).
  - by rewrite lookup_alter_ne.
Qed.

Lemma notify_spec l msg cs cs' kept :
  notify l msg cs = (cs', kept) -> NoDup l ->
  kept = retain (fun c => negb (chan_closed cs c)) l /\
  forall c, cs' !! c =
    if bool_decide (c ∈ l) && negb (chan_closed cs c)
    then (fun ch => mkChannel (ch_open ch) (ch_sent ch ++ [msg])) <$> cs !! c else cs !! c.
Proof.
  revert cs cs' kept. induction l as [|c0 l IH]; intros cs cs' kept H Hn; simpl in *; [by simplify_eq|].
  rewrite chan_send_spec in H. apply NoDup_cons in Hn as [Hc0 Hn].
  destruct (notify l msg _) as [cs2 kept2] eqn:E. apply IH in E as [-> Hl]; [|done].
  assert (Hcl : forall c, chan_closed (if negb (chan_closed cs c0)
      then alter (fun ch => mkChannel (ch_open ch) (ch_sent ch ++ [msg])) c0 cs else cs) c = chan_closed cs c).
  { intros c. destruct (negb _); [apply chan_closed_alter|done]. }
  simplify_eq. split.
  - rewrite (retain_ext _ (fun c => negb (chan_closed cs c))) by (intros; by rewrite Hcl).
    by destruct (chan_closed cs c0).
  - intros c. rewrite Hl, Hcl. destruct (decide (c = c0)) as [->|Hne].
    + rewrite bool_decide_eq_false_2, bool_decide_eq_true_2 by set_solver. simpl.
      destruct (chan_closed cs c0); simpl; [done|]. by rewrite lookup_alter_eq.
    + rewrite (bool_decide_ext (c ∈ c0 :: l) (c ∈ l)) by set_solver.
      destruct (chan_closed cs c0); simpl; [done|]. by rewrite lookup_alter_ne.
Qed.

(** The effect of one push on subscriptions and connections. *)
Definition pushed (msgs : ChanId -> list PushMsg) (w w' : World) : Prop :=
  (forall c, open_chan w' c = open_chan w c) /\
  (forall c, open_chan w c = true -> sent w' c = sent w c ++ msgs c) /\
  (forall c, open_chan w c = false -> chans w' !! c = chans w !! c).

Lemma push_and_notify_push q mid env w :
  subs_ok (inner w) ->
  let w' := push_and_notify q mid env w in
  pushed (fun c => if bool_decide (c ∈ subs (inner w) q) then [(q, mid, env)] else []) w w' /\
  (forall q', subs (inner w') q' =
     if bool_decide (q = q') then retain (open_chan w) (subs (inner w) q') else subs (inner w) q').
Proof.
  intros Hs w'. unfold w', push_and_notify, push_subs.
  assert (E : subscribers (push_store q mid env (inner w)) = subscribers (inner w)).
  { unfold push_store. destruct (queues (inner w) !! q) as [en|]; [|done]. by destruct (kind en). }
  simpl. rewrite E. unfold subs. specialize (Hs q). unfold subs in Hs.
  destruct (subscribers (inner w) !! q) as [l|] eqn:Hl; simpl in Hs.
  - destruct (notify l (q, mid, env) (chans w)) as [cs kept] eqn:En.
    apply notify_spec in En as [-> Hc]; [|done]. simpl. split; [split; [|split]|].
    + intros c. unfold open_chan, chan_closed. simpl. rewrite Hc.
      destruct (bool_decide _ && _); [|done]. by destruct (chans w !! c).
    + intros c Ho. unfold sent. simpl. rewrite Hc. unfold open_chan in Ho. rewrite Ho, andb_true_r.
      unfold chan_closed in Ho. destruct (chans w !! c) as [ch|]; [|done].
      case_bool_decide; simpl; by rewrite ?app_nil_r.
    + intros c Ho. simpl. rewrite Hc. unfold open_chan in Ho. by rewrite Ho, andb_false_r.
    + intros q'. case_bool_decide as Eq; [subst q'; by rewrite lookup_insert_eq, Hl|by rewrite lookup_insert_ne].
  - split; [split; [|split]|]; simpl.
    + done.
    + intros c _. unfold sent. simpl. by rewrite app_nil_r.
    + done.
    + intros q'. rewrite E. case_bool_decide as Eq; [subst q'; by rewrite Hl|done].
Qed.

Lemma push_all_push roster mid env w :
  subs_ok (inner w) ->
  let w' := foldl (fun w m => push_and_notify m mid env w) w roster in
  pushed (fun c => (fun m => (m, mid, env)) <$> retain (fun m => bool_decide (c ∈ subs (inner w) m)) roster) w w' /\
  subs_ok (inner w') /\
  (forall q, subs (inner w') q =
     if bool_decide (q ∈ roster) then retain (open_chan w) (subs (inner w) q) else subs (inner w) q).
Proof.
  revert w. induction roster as [|m roster IH]; intros w Hs.
  { split; [split; [|split]|split]; try done. intros c _. simpl. by rewrite app_nil_r. }
  cbn [foldl]. set (w1 := push_and_notify m mid env w).
  destruct (push_and_notify_push m mid env w Hs) as ((P1 & P2 & P3) & P4). fold w1 in P1, P2, P3, P4.
  assert (Hs1 : subs_ok (inner w1)).
  { intros q'. rewrite P4. case_bool_decide; [apply retain_NoDup|]; apply Hs. }
  assert (Hm : forall q c, open_chan w c = true -> (c ∈ subs (inner w1) q <-> c ∈ subs (inner w) q)).
  { intros q c Ho. rewrite P4. case_bool_decide; [|done]. rewrite retain_elem. naive_solver. }
  destruct (IH w1 Hs1) as ((Q1 & Q2 & Q3) & Q4 & Q5). split; [split; [|split]|split; [done|]].
  - intros c. by rewrite Q1, P1.
  - intros c Ho. rewrite Q2 by by rewrite P1. rewrite P2 by done.
    rewrite <- app_assoc. f_equal.
    rewrite (retain_ext (fun m => bool_decide (c ∈ subs (inner w1) m)) (fun m => bool_decide (c ∈ subs (inner w) m)))
      by (intros; apply bool_decide_ext; by apply Hm).
    cbn [retain]. by case_bool_decide.
  - intros c Ho. rewrite Q3 by by rewrite P1. by apply P3.
  - intros q. rewrite Q5, P4, (retain_ext (open_chan w1) (open_chan w)) by (intros; apply P1).
    destruct (decide (m = q)) as [<-|Hne].
    + rewrite (bool_decide_eq_true_2 (m = m)), (bool_decide_eq_true_2 (m ∈ m :: roster)) by (done || set_solver).
      case_bool_decide; [|done]. apply retain_all, Forall_forall. by intros c [_ Ho]%retain_elem.
    + rewrite (bool_decide_eq_false_2 (m = q)) by done. by rewrite (bool_decide_ext (q ∈ m :: roster) (q ∈ roster)) by set_solver.
Qed.

(** ** Subscribing *)

Lemma drain_pending_spec tx q p cs :
  chan_closed cs tx = false ->
  drain_pending tx q p cs =
  (alter (fun ch => mkChannel (ch_open ch) (ch_sent ch ++ ((fun m => (q, m.1, m.2)) <$> p))) tx cs, true).
Proof.
  revert cs. induction p as [|[mid env] p IH]; intros cs Ho; simpl.
  - f_equal. apply map_eq. intros c. destruct (decide (tx = c)) as [<-|].
    + rewrite lookup_alter_eq. destruct (cs !! tx) as [[]|]; simpl; by rewrite ?app_nil_r.
    + by rewrite lookup_alter_ne.
  - rewrite chan_send_spec, Ho. simpl. rewrite IH by by rewrite chan_closed_alter.
    f_equal. apply map_eq. intros c. destruct (decide (tx = c)) as [<-|].
    + rewrite !lookup_alter_eq. destruct (cs !! tx) as [[]|]; simpl; [|done]. by rewrite <- app_assoc.
    + by rewrite !lookup_alter_ne.
Qed.

Definition backlog_msgs (i : Inner) (qs : list QueueId) : list PushMsg :=
  qs ≫= (fun q => (fun m => (q, m.1, m.2)) <$> default [] (mailbox_pending i q)).

Lemma drain_queues_spec tx i qs cs :
  chan_closed cs tx = false ->
  drain_queues tx i qs cs =
  alter (fun ch => mkChannel (ch_open ch) (ch_sent ch ++ backlog_msgs i qs)) tx cs.
Proof.
  revert cs. induction qs as [|q qs IH]; intros cs Ho; simpl.
  - apply map_eq. intros c. destruct (decide (tx = c)) as [<-|].
    + rewrite lookup_alter_eq. destruct (cs !! tx) as [[]|]; simpl; by rewrite ?app_nil_r.
    + by rewrite lookup_alter_ne.
  - rewrite drain_pending_spec by done. rewrite IH by by rewrite chan_closed_alter.
    apply map_eq. intros c. destruct (decide (tx = c)) as [<-|].
    + rewrite !lookup_alter_eq. destruct (cs !! tx) as [[]|]; simpl; [|done]. by rewrite <- app_assoc.
    + by rewrite !lookup_alter_ne.
Qed.

Lemma subscribe_one_subs cs tx q i q' :
  subs (subscribe_one cs tx q i) q' =
  if bool_decide (q = q')
  then retain (fun c => negb (chan_closed cs c) && negb (bool_decide (c = tx))) (subs i q') ++ [tx]
  else subs i q'.
Proof.
  unfold subs, subscribe_one. simpl. case_bool_decide as E; [subst; by rewrite lookup_insert_eq|].
  by rewrite lookup_insert_ne.
Qed.

Lemma subscribe_one_ok cs tx q i : subs_ok i -> subs_ok (subscribe_one cs tx q i).
Proof.
  intros H q'. rewrite subscribe_one_subs. case_bool_decide; [|apply H].
  apply NoDup_app. split; [apply retain_NoDup, H|]. split; [|apply NoDup_singleton].
  intros c [_ E]%retain_elem. bools. set_solver.
Qed.

Lemma subscribe_all_spec cs tx qs i :
  chan_closed cs tx = false -> subs_ok i ->
  let i' := foldl (fun i q => subscribe_one cs tx q i) i qs in
  subs_ok i' /\ queues i' = queues i /\
  forall q c, (chan_closed cs c = false -> c ∈ subs i' q <-> (c = tx /\ q ∈ qs) \/ c ∈ subs i q).
Proof.
  intros Ho. revert i. induction qs as [|q0 qs IH]; intros i Hs; cbn [foldl].
  { split; [done|]. split; [done|]. intros q c _. set_solver. }
  destruct (IH (subscribe_one cs tx q0 i) (subscribe_one_ok _ _ _ _ Hs)) as (H1 & H2 & H3).
  split; [done|]. split; [by rewrite H2|]. intros q c Hc. rewrite H3 by done.
  rewrite subscribe_one_subs. case_bool_decide as E; [subst|set_solver].
  rewrite elem_of_app, retain_elem, Hc. cbn [negb andb].
  rewrite negb_true_iff, bool_decide_eq_false. destruct (decide (c = tx)); set_solver.
Qed.

(** ** Subscriptions over runs *)

Section Push.
Context {X : RelayExt}.

Lemma subs_ok_push w w' : same_push w w' -> subs_ok (inner w) -> subs_ok (inner w').
Proof. intros [_ E] H q. unfold subs. rewrite E. apply H. Qed.

Lemma issue_pow_challenge_push e w w' r : issue_pow_challenge e w = (w', r) -> same_push w w'.
Proof.
  unfold issue_pow_challenge. destruct (draws e) as [|rnd ds]; intros Hr; [by mstep Hr; simplify_eq|].
  apply locked_inv in Hr as [(-> & _)|(w1 & Hr & _ & Hi & Hc & _)]; [done|].
  rewrite modify_bind in Hr. mstep Hr. simplify_eq. unfold same_push. rewrite Hi, Hc. simpl.
  by destruct (evict_challenges _ _ _).
Qed.

Lemma subscribe_run qs tx w w' r :
  subscribe qs tx w = (w', r) ->
  (r = Panicked /\ w' = w) \/
  (r = Done tt /\
   inner w' = foldl (fun i q => subscribe_one (chans w) tx q i) (inner w) qs /\
   chans w' = drain_queues tx (inner w') qs (chans w)).
Proof.
  unfold subscribe. intros H. apply locked_inv in H as [(-> & -> & _)|(w1 & H & _ & Hi & Hc & _)]; [by left|].
  mstep H. simplify_eq. right. split; [done|]. by rewrite Hi, Hc.
Qed.

Lemma subscribe_foldl_ok cs tx qs i :
  subs_ok i -> subs_ok (foldl (fun i q => subscribe_one cs tx q i) i qs).
Proof.
  revert i. induction qs as [|q qs IH]; intros i H; [done|]. by apply IH, subscribe_one_ok.
Qed.

Lemma handle_subs_ok e msg tx w w' r :
  subs_ok (inner w) -> handle e msg tx w = (w', r) -> subs_ok (inner w').
Proof.
  intros Hs H. destruct msg as [q tag env|q k tag env|qs|q mid| |s att|s ep roster att]; simpl in H.
  - apply reply_of_inv in H as (r0 & H & _).
    apply send_to_mailbox_inv in H as [(_ & _ & S)|(_ & key & p & w1 & _ & _ & _ & _ & _ & _ & _ & S1 & S2 & _ & ->)];
      [by eapply subs_ok_push|].
    apply (push_all_push [q]). by eapply subs_ok_push.
  - apply reply_of_inv in H as (r0 & H & _).
    apply send_to_group_inbox_inv in H
      as [(_ & _ & S)|(_ & key & ep & roster & w1 & _ & _ & _ & _ & _ & _ & _ & S1 & S2 & _ & ->)];
      [by eapply subs_ok_push|].
    apply push_all_push. eapply subs_ok_push; [|exact Hs].
    split; [done|]. simpl. by destruct (bump_epoch_inv q k (inner w1)) as (_ & _ & _ & ->).
  - destruct tx as [tx|]; [|by unfold ret in H; simplify_eq].
    apply reply_of_inv in H as (r0 & H & _).
    apply subscribe_run in H as [[_ ->]|(_ & -> & _)]; [done|]. by apply subscribe_foldl_ok.
  - apply reply_of_inv in H as (r0 & H & _).
    apply ack_inv in H as [(_ & _ & S)|(_ & i1 & _ & _ & _ & _ & S1 & S2)]; by eapply subs_ok_push.
  - apply reply_of_inv in H as (r0 & H & _). apply issue_pow_challenge_push in H. by eapply subs_ok_push.
  - apply reply_of_inv in H as (r0 & H & _). apply create_mailbox_inv in H as [S _]. by eapply subs_ok_push.
  - apply reply_of_inv in H as (r0 & H & _). apply create_group_inbox_inv in H as [S _]. by eapply subs_ok_push.
Qed.

Lemma relay_open_subscribers now d i : relay_open now d = Some i -> subscribers i = ∅.
Proof.
  unfold relay_open. intros (qs & _ & H)%bind_Some. apply bind_Some in H as (qs2 & _ & H).
  apply bind_Some in H as ([qs3 used] & _ & H). by simplify_eq.
Qed.

Lemma exec_subs_ok o w : subs_ok (inner w) -> subs_ok (inner (exec o w).1).
Proof.
  intros Hs. destruct o as [e msg tx|tx|tx|now key]; simpl; try done.
  - destruct (handle e msg tx w) as [w' r] eqn:H. by eapply handle_subs_ok.
  - destruct (db (inner w) ≫= relay_open now) as [i|] eqn:E; [|done].
    apply bind_Some in E as (d & _ & E%relay_open_subscribers).
    intros q. unfold subs. simpl. rewrite E, lookup_empty. apply NoDup_nil_2.
Qed.

Lemma run_subs_ok ops w : subs_ok (inner w) -> subs_ok (inner (run ops w).1).
Proof.
  revert w. induction ops as [|o ops IH]; intros w Hs; [done|]. simpl.
  pose proof (exec_subs_ok o w Hs) as H1. destruct (exec o w) as [w1 l]. simpl in H1.
  specialize (IH w1 H1). by destruct (run ops w1).
Qed.

(** C36: an accepted group message is pushed exactly once per roster entry to
    every live connection subscribed to that member, in roster order, and to no
    other; closed connections receive nothing. The subscribers of every roster member
    are afterwards the live ones, in their order: the senders of closed connections
    are dropped; those of other queues stay as they are. *)
Theorem fan_out_reaches_subscribers ops w0 e q k tag env tx roster w' :
  subs_ok (inner w0) ->
  let w := (run ops w0).1 in
  exec (OHandle e (SendToGroupInbox q k tag env) tx) w = (w', LGroup q k roster env) ->
  pushed (fun c => (fun m => (m, message_id env, env)) <$>
                     retain (fun m => bool_decide (c ∈ subs (inner w) m)) roster) w w' /\
  (forall m, subs (inner w') m =
     if bool_decide (m ∈ roster) then retain (open_chan w) (subs (inner w) m) else subs (inner w) m).
Proof.
  intros Hs w H. apply (run_subs_ok ops) in Hs. fold w in Hs. simpl in H.
  unfold reply_of in H. destruct (send_to_group_inbox e q k tag env w) as [w1 [[]| | |]] eqn:E;
    simpl in H; simplify_eq.
  apply send_to_group_inbox_inv in E
    as [(F & _)|(_ & key & ep & roster & w1 & Hq & _ & _ & _ & _ & _ & _ & S1 & S2 & _ & ->)]; [done|].
  unfold roster_of. rewrite Hq.
  assert (Es : subscribers (bump_epoch q k (inner w1)) = subscribers (inner w))
    by by destruct (bump_epoch_inv q k (inner w1)) as (_ & _ & _ & ->).
  destruct (push_all_push roster (message_id env) env (set_inner (bump_epoch q k (inner w1)) w1))
    as ((P1 & P2 & P3) & _ & P4).
  { intros q'. unfold subs. simpl. rewrite Es. apply Hs. }
  unfold open_chan, sent, subs in *. simpl in *. rewrite Es, S2 in *.
  done.
Qed.

(** A subscription registers the connection once for each queue it names,
    keeps every other live subscriber, and pushes to it the whole backlog of
    those queues, in order, and nothing to anyone else. *)
Theorem subscribe_delivers_backlog ops w0 e qs tx w' :
  subs_ok (inner w0) ->
  let w := (run ops w0).1 in
  open_chan w tx = true ->
  handle e (Subscribe qs) (Some tx) w = (w', Done SOk) ->
  sent w' tx = sent w tx ++ backlog_msgs (inner w) qs /\
  (forall c, c <> tx -> chans w' !! c = chans w !! c) /\
  (forall q c, open_chan w c = true -> c ∈ subs (inner w') q <-> (c = tx /\ q ∈ qs) \/ c ∈ subs (inner w) q) /\
  subs_ok (inner w').
Proof.
  intros Hs w Ho H. apply (run_subs_ok ops) in Hs. fold w in Hs.
  apply reply_of_inv in H as (r0 & H & E).
  apply subscribe_run in H as [[-> ->]|(-> & Hi & Hc)]; [done|].
  unfold open_chan in Ho. apply negb_true_iff in Ho.
  destruct (subscribe_all_spec (chans w) tx qs (inner w) Ho Hs) as (H1 & H2 & H3).
  rewrite <- Hi in H1, H2, H3. rewrite drain_queues_spec in Hc by done.
  assert (Hb : backlog_msgs (inner w') qs = backlog_msgs (inner w) qs).
  { unfold backlog_msgs, mailbox_pending. by rewrite H2. }
  rewrite Hb in Hc. split; [|split; [|split]].
  - unfold sent. rewrite Hc, lookup_alter_eq. unfold chan_closed in Ho. by destruct (chans w !! tx).
  - intros c Hne. by rewrite Hc, lookup_alter_ne.
  - intros q c Hoc. unfold open_chan in Hoc. apply negb_true_iff in Hoc. by apply H3.
  - done.
Qed.

End Push.

Section PushWitnesses.
Import Scenario ToyInstances RelayToy.

(** Connections 0 and 1 watch mailbox 1, and 1 goes away; a group message for mailboxes 1
    and 2. *)
Definition watch : list Op :=
  setup ++ [mailbox_send 12; OHandle (at_ 6 []) (Subscribe [idq 1]) (Some 0%nat); OConnect 1%nat;
            OHandle (at_ 6 []) (Subscribe [idq 1]) (Some 1%nat); ODisconnect 1%nat].

Lemma boot_subs_ok : subs_ok (inner boot).
Proof. intros q. apply NoDup_nil_2. Qed.

Lemma fan_out_reaches_subscribers_witness :
  let w' := (exec (group_send Application 30) (run watch boot).1).1 in
  sent w' 0%nat = [(idq 1, [12], env 12); (idq 1, [30], env 30)] /\
  subs (inner (run watch boot).1) (idq 1) = [0%nat; 1%nat] /\ subs (inner w') (idq 1) = [0%nat].
Proof.
  intros w'.
  destruct (fan_out_reaches_subscribers watch boot (at_ 4 []) (idq 3) Application
              (compute_tag (idq 103) (idq 3) (env 30)) (env 30) None [idq 1; idq 2] w' boot_subs_ok)
    as [(_ & P & _) S].
  - vm_compute. reflexivity.
  - split; [rewrite P by (vm_compute; reflexivity); vm_compute; reflexivity|]. split; [vm_compute; reflexivity|].
    rewrite S. vm_compute. reflexivity.
Defined.

Lemma subscribe_delivers_backlog_witness :
  let live := (run (setup ++ traffic ++ [OConnect 0%nat]) boot).1 in
  let w1 := (handle (at_ 9 []) (Subscribe [idq 2; idq 1]) (Some 0%nat) live).1 in
  (fun m => m.1.2) <$> sent w1 0%nat = [[10]; [13]; [12]; [13]].
Proof.
  intros live w1.
  destruct (subscribe_delivers_backlog (setup ++ traffic ++ [OConnect 0%nat]) boot (at_ 9 [])
              [idq 2; idq 1] 0%nat w1 boot_subs_ok) as [P _].
  - vm_compute. reflexivity.
  - vm_compute. reflexivity.
  - rewrite P. vm_compute. reflexivity.
Defined.

End PushWitnesses.
