(* ===== verification/RelayGates.v ===== *)
(** * The relay's gates

    Which requests are let through: the exact acceptance conditions of the two
    sends, the rate limit, the attestation and proof-of-work gates of queue
    creation, and the places where the gates do not do what their documentation
    says. *)

From S2P Require Import Prelude External Proto Relay RelaySpec RelayRefine RelayDurable RelayRun RelayProps.

(** ** Rate limiting *)

(** A sequence of sends to one queue at the given times; how many are let
    through. *)
Fixpoint bump_many (ts : list Z) (q : QueueEntry) : QueueEntry * Z :=
  match ts with
  | [] => (q, 0)
  | t :: ts' =>
      let '(q1, r) := check_and_bump_rate_limit t q in
      let '(q2, n) := bump_many ts' q1 in
      (q2, (if is_ok r then 1 else 0) + n)
  end.

Definition rate_ok (q : QueueEntry) : Prop := 0 <= sent_this_minute q <= RATE_LIMIT_PER_QUEUE_PER_MINUTE.

Lemma check_and_bump_cases t q :
  rate_ok q ->
  let '(q', r) := check_and_bump_rate_limit t q in
  rate_ok q' /\
  if t - window_started q <? secs 60
  then window_started q' = window_started q /\
       sent_this_minute q' = sent_this_minute q + (if is_ok r then 1 else 0) /\
       (r = Ok tt <-> sent_this_minute q < RATE_LIMIT_PER_QUEUE_PER_MINUTE)
  else window_started q' = t /\ sent_this_minute q' = 1 /\ r = Ok tt.
Proof.
  unfold check_and_bump_rate_limit, rate_ok, RATE_LIMIT_PER_QUEUE_PER_MINUTE. intros H.
  destruct (Z.leb_spec (secs 60) (t - window_started q)), (Z.ltb_spec (t - window_started q) (secs 60));
    try lia; simpl.
  - done.
  - destruct (Z.leb_spec 60 (sent_this_minute q)); simpl; [repeat split; try lia; done|].
    rewrite wrap32_small by (unfold u32_modulus; lia). repeat split; try lia; done.
Qed.

(** In one window: everything let through was counted. *)
Lemma bump_many_window ts q q' n :
  rate_ok q -> Forall (fun t => t - window_started q < secs 60) ts ->
  bump_many ts q = (q', n) ->
  rate_ok q' /\ 0 <= n /\ sent_this_minute q' = sent_this_minute q + n /\ window_started q' = window_started q.
Proof.
  revert q q' n. induction ts as [|t ts IH]; intros q q' n Hr F H; simpl in H.
  { simplify_eq. repeat split; try apply Hr; lia. }
  inversion_clear F as [|? ? Ht F']. pose proof (check_and_bump_cases t q Hr) as C.
  destruct (check_and_bump_rate_limit t q) as [q1 r]. destruct (bump_many ts q1) as [q2 m] eqn:E.
  destruct C as [Hr1 C]. apply Z.ltb_lt in Ht. rewrite Ht in C. destruct C as (C1 & C2 & _).
  apply IH in E as (E1 & E2 & E3 & E4); [|done|by rewrite C1]. simplify_eq.
  split; [done|]. destruct (is_ok r); repeat split; lia || congruence.
Qed.

(** Times are read from a monotonic clock. *)
Fixpoint ascending (from : Z) (ts : list Z) : Prop :=
  match ts with [] => True | t :: ts' => from <= t /\ ascending t ts' end.

Lemma ascending_le from ts t : ascending from ts -> t ∈ ts -> from <= t.
Proof.
  revert from. induction ts as [|u ts IH]; intros from H Ht; [set_solver|]. destruct H as [? H].
  apply elem_of_cons in Ht as [->|Ht]; [done|]. specialize (IH u H Ht). lia.
Qed.

(** Sends within less than a minute span at most two windows. *)
Lemma bump_many_minute ts q q' n t0 :
  rate_ok q -> ascending t0 ts -> Forall (fun t => t - t0 < secs 60) ts ->
  bump_many ts q = (q', n) -> 0 <= n <= RATE_LIMIT_PER_QUEUE_PER_MINUTE - sent_this_minute q + RATE_LIMIT_PER_QUEUE_PER_MINUTE.
Proof.
  revert q q' n. induction ts as [|t ts IH]; intros q q' n Hr Ha F H.
  { simpl in H. simplify_eq. unfold rate_ok in Hr. lia. }
  destruct Ha as [Ht Ha]. simpl in H. pose proof (check_and_bump_cases t q Hr) as C.
  destruct (check_and_bump_rate_limit t q) as [q1 r]. destruct (bump_many ts q1) as [q2 m] eqn:E.
  destruct C as [Hr1 C]. inversion_clear F as [|? ? Htt F'].
  destruct (Z.ltb_spec (t - window_started q) (secs 60)).
  - destruct C as (C1 & C2 & _). eapply IH in E; [|done| |done].
    + simplify_eq. unfold rate_ok in *. destruct (is_ok r); lia.
    + clear -Ht Ha. destruct ts as [|u ts]; [done|]. destruct Ha. split; [lia|done].
  - destruct C as (C1 & C2 & ->). apply bump_many_window in E as (E1 & E2 & E3 & E4); [|done|].
    + simplify_eq. unfold rate_ok in *. simpl. lia.
    + rewrite C1. apply Forall_forall. intros u Hu. rewrite Forall_forall in F'.
      specialize (F' u Hu). lia.
Qed.

(** The rate limit: of the sends to a queue that fall into one of its
    windows, at most [RATE_LIMIT_PER_QUEUE_PER_MINUTE] are let through; of the
    sends within any minute, at most twice as many, since a minute can touch two
    windows. *)
Theorem rate_limit_bounds ts q t0 :
  rate_ok q -> ascending t0 ts ->
  (Forall (fun t => t - window_started q < secs 60) ts ->
   (bump_many ts q).2 <= RATE_LIMIT_PER_QUEUE_PER_MINUTE - sent_this_minute q) /\
  (Forall (fun t => t - t0 < secs 60) ts ->
   (bump_many ts q).2 <= 2 * RATE_LIMIT_PER_QUEUE_PER_MINUTE).
Proof.
  intros Hr Ha. destruct (bump_many ts q) as [q' n] eqn:E. simpl. split; intros F.
  - apply bump_many_window in E as (E1 & E2 & E3 & E4); [|done..]. unfold rate_ok in *. lia.
  - eapply bump_many_minute in E; [|done..]. unfold rate_ok in *. lia.
Qed.

Lemma rate_limit_bounds_witness :
  let q := mkEntry [] (Mailbox []) 0 0 in
  (bump_many (replicate 70 (secs 1)) q).2 = 60 /\ (bump_many (replicate 70 (secs 1)) q).2 <= 60 - 0.
Proof.
  split; [vm_compute; reflexivity|].
  apply (rate_limit_bounds (replicate 70 (secs 1)) (mkEntry [] (Mailbox []) 0 0) 0).
  - unfold rate_ok. simpl. unfold RATE_LIMIT_PER_QUEUE_PER_MINUTE. lia.
  - simpl. unfold secs. lia.
  - apply Forall_replicate. simpl. unfold secs. lia.
Defined.

(** The documented "per rolling minute" does not hold: within 20 seconds a
    queue lets 120 sends through, 60 at the end of one window and 60 at the start
    of the next. *)
Theorem rate_limit_not_rolling :
  exists ts, (forall t u, t ∈ ts -> u ∈ ts -> t - u <= secs 20) /\
    (bump_many ts (mkEntry [] (Mailbox []) 0 0)).2 = 120.
Proof.
  exists (replicate 60 (secs 50) ++ replicate 60 (secs 70)). split; [|vm_compute; reflexivity].
  intros t u [[-> _]%elem_of_replicate|[-> _]%elem_of_replicate]%elem_of_app
             [[-> _]%elem_of_replicate|[-> _]%elem_of_replicate]%elem_of_app; unfold secs; lia.
Qed.

(** ** When a send is accepted *)

Section Sends.
Context {X : RelayExt}.

(** There is room in the queue's rate window. *)
Definition rate_room (now : Z) (en : QueueEntry) : bool :=
  (secs 60 <=? now - window_started en) || (sent_this_minute en <? RATE_LIMIT_PER_QUEUE_PER_MINUTE).

Lemma bump_queue_run e q en w :
  exists i', bump_queue e q en w =
    (set_inner i' w, if rate_room (mono e) en then Done tt else Rejected RateLimited) /\
    storage_bytes_used i' = storage_bytes_used (inner w) /\ db i' = db (inner w).
Proof.
  unfold bump_queue, check_and_bump_rate_limit, rate_room.
  destruct (secs 60 <=? _) eqn:E1; simpl; [eexists; split; [done|]; done|].
  rewrite Z.leb_antisym. destruct (sent_this_minute en <? _); simpl; (eexists; split; [done|]; done).
Qed.

Lemma db_write_run e f w :
  disk_ok e = true -> exists w', db_write e (fun d => Some (f d)) w = (w', Done tt).
Proof.
  intros Ho. unfold db_write, mbind, M_bind, bind, gets, ret, modify.
  destruct (db (inner w)); [rewrite Ho|]; by eexists.
Qed.

Definition fits (i : Inner) (bytes : Z) : bool := abytes (abs i) + bytes <=? MAX_STORAGE_BYTES.

Lemma would_exceed_iff i n env :
  Inv i -> env_len env <= MAX_MESSAGE_SIZE -> 0 <= n < u32_modulus ->
  would_exceed_storage_bound i (env_len env) n = negb (fits i (env_len env * n)).
Proof.
  intros [I1 I2 _ _] Hl Hn. unfold would_exceed_storage_bound, fits, saturating_add64.
  rewrite I1, Z.leb_antisym, negb_involutive. pose proof (env_len_nonneg env).
  unfold MAX_MESSAGE_SIZE, u32_modulus, MAX_STORAGE_BYTES, u64_max in *.
  rewrite wrap64_small by (unfold u64_modulus; nia).
  destruct (Z.ltb_spec (10 * 1024 * 1024 * 1024) (Z.min (abytes (abs i) + env_len env * n) (2 ^ 64 - 1))),
    (Z.ltb_spec (10 * 1024 * 1024 * 1024) (abytes (abs i) + env_len env * n)); lia.
Qed.

(** The verdict on a mailbox send, on the state the relay keeps. *)
Definition mailbox_verdict (e : Env) (i : Inner) (q : QueueId) (tag : AuthTag) (env : Envelope)
  : outcome unit :=
  if MAX_MESSAGE_SIZE <? env_len env then Rejected MessageTooLarge
  else match queues i !! q with
       | Some en =>
           match kind en with
           | Mailbox p =>
               if negb (verify_tag (send_key en) q env tag) then Rejected Unauthorized
               else if MAX_QUEUE_DEPTH <=? len p then Rejected QueueFull
               else if negb (rate_room (mono e) en) then Rejected RateLimited
               else if negb (fits i (env_len env)) then Rejected StorageBoundExceeded
               else Done tt
           | GroupInbox _ _ => Rejected QueueNotFound
           end
       | None => Rejected QueueNotFound
       end.

(** The outcome of every mailbox send, on every branch: which of the seven
    checks decides, in which order, and that a send that passes them all is
    accepted. The storage check compares the exact sum of the stored bytes. *)
Theorem mailbox_send_verdict e q tag env w :
  Inv (inner w) -> poisoned w = false -> disk_ok e = true ->
  (send_to_mailbox e q tag env w).2 = mailbox_verdict e (inner w) q tag env.
Proof.
  intros I Hp Ho. unfold send_to_mailbox, mailbox_verdict.
  destruct (Z.ltb_spec MAX_MESSAGE_SIZE (env_len env)) as [|Hl]; [done|].
  unfold locked. rewrite Hp, gets_bind.
  destruct (queues (inner w) !! q) as [en|]; autorewrite with run; [|done].
  destruct (kind en) as [p|]; [|done].
  destruct (negb (verify_tag _ _ _ _)); [done|]. destruct (MAX_QUEUE_DEPTH <=? len p); [done|].
  destruct (bump_queue_run e q en w) as (i' & Hb & Hs & Hd).
  destruct (rate_room (mono e) en); simpl; [|by erewrite bind_rejected].
  erewrite bind_done by done. rewrite gets_bind. simpl.
  assert (E : would_exceed_storage_bound i' (env_len env) 1 = negb (fits (inner w) (env_len env))).
  { rewrite <- (Z.mul_1_r (env_len env)) at 2. rewrite <- would_exceed_iff by done.
    unfold would_exceed_storage_bound. by rewrite Hs. }
  rewrite E. destruct (fits (inner w) (env_len env)); [|done]. simpl.
  destruct (db_write_run e (sql_insert_pending q (message_id env) (proto_encode env)) (set_inner i' w) Ho)
    as [w1 Hw].
  by erewrite bind_done by done.
Qed.

Definition group_verdict (e : Env) (i : Inner) (q : QueueId) (k : GroupSendKind) (tag : AuthTag)
    (env : Envelope) : outcome unit :=
  if MAX_MESSAGE_SIZE <? env_len env then Rejected MessageTooLarge
  else match queues i !! q with
       | Some en =>
           if negb (verify_tag (send_key en) q env tag) then Rejected Unauthorized
           else match kind en with
           | GroupInbox ep roster =>
               if negb (epoch_ok k ep) then Rejected EpochConflict
               else if negb (fits i (env_len env * len roster)) then Rejected StorageBoundExceeded
               else if negb (rate_room (mono e) en) then Rejected RateLimited
               else Done tt
           | Mailbox _ => Rejected GroupInboxNotFound
           end
       | None => Rejected GroupInboxNotFound
       end.

(** The outcome of every group send, on every branch; in particular a commit
    for any epoch but the inbox's current one is an epoch conflict, and an
    accepted one found the storage for its whole fan-out. *)
Theorem group_send_verdict e q k tag env w :
  Inv (inner w) -> poisoned w = false -> disk_ok e = true ->
  (send_to_group_inbox e q k tag env w).2 = group_verdict e (inner w) q k tag env.
Proof.
  intros I Hp Ho. unfold send_to_group_inbox, group_verdict.
  destruct (Z.ltb_spec MAX_MESSAGE_SIZE (env_len env)) as [|Hl]; [done|].
  unfold locked. rewrite Hp, gets_bind.
  destruct (queues (inner w) !! q) as [en|] eqn:Hq; autorewrite with run; [|done].
  destruct (negb (verify_tag _ _ _ _)); [done|].
  destruct (kind en) as [|ep roster] eqn:Hk; [done|]. destruct (negb (epoch_ok k ep)); [done|].
  rewrite gets_bind.
  assert (Hr : len roster < u32_modulus).
  { assert (Ha : abs (inner w) !! q = Some (send_key en, GroupInbox ep roster))
      by by rewrite (abs_lookup_Some _ _ _ Hq), Hk.
    apply (wf_abs_lookup _ _ _ _ (inv_wf _ I) Ha). }
  pose proof (len_nonneg roster). rewrite would_exceed_iff by done.
  destruct (fits _ _); simpl; [|done].
  destruct (bump_queue_run e q en w) as (i' & Hb & Hs & Hd).
  destruct (rate_room (mono e) en); simpl; [|by erewrite bind_rejected].
  erewrite bind_done by done. rewrite gets_bind.
  destruct (db_write_run e (group_send_tx q (is_commit k)
              (stored_targets (inner (set_inner i' w)) roster) (message_id env) env) (set_inner i' w) Ho)
    as [w1 Hw].
  by erewrite bind_done by done.
Qed.

End Sends.

Section SendWitnesses.
Import Scenario ToyInstances RelayToy.

Lemma mailbox_send_verdict_witness :
  (send_to_mailbox (at_ 5 []) (idq 1) (compute_tag (idq 101) (idq 1) (env 9)) (env 9) ready).2 = Done tt /\
  (send_to_mailbox (at_ 5 []) (idq 1) [] (env 9) ready).2 = Rejected Unauthorized.
Proof.
  split; (etransitivity; [apply (mailbox_send_verdict _ _ _ _ ready ready_inv)|]);
    vm_compute; reflexivity.
Defined.

Lemma group_send_verdict_witness :
  (send_to_group_inbox (at_ 5 []) (idq 3) (Commit 7) (compute_tag (idq 103) (idq 3) (env 9)) (env 9) ready).2
    = Done tt /\
  (send_to_group_inbox (at_ 5 []) (idq 3) (Commit 8) (compute_tag (idq 103) (idq 3) (env 9)) (env 9) ready).2
    = Rejected EpochConflict.
Proof.
  split; (etransitivity; [apply (group_send_verdict _ _ _ _ _ ready ready_inv)|]);
    vm_compute; reflexivity.
Defined.

End SendWitnesses.
