(* ===== verification/RelayTokens.v ===== *)
(** * Single use: attestation tokens and proof-of-work challenges

    Queue creation is paid for by a solved challenge and, when the gate is on, an
    attestation token. Neither can be spent twice while the process lives, and
    the set of outstanding challenges stays bounded. *)

From S2P Require Import Prelude External Proto Relay RelaySpec RelayRefine RelayDurable RelayRun RelayProps.

(** ** Frames: computations that leave a part of the state alone *)

Definition frame {A B} (f : Inner -> A) (m : M B) : Prop := forall w, f (inner (m w).1) = f (inner w).

Section Frames.
Context {A : Type} (f : Inner -> A).

Lemma frame_bind {B C} (m : M B) (k : B -> M C) :
  frame f m -> (forall b, frame f (k b)) -> frame f (m ≫= k).
Proof.
  intros Hm Hk w. unfold mbind, M_bind, bind. specialize (Hm w).
  destruct (m w) as [w1 [b| | |]]; simpl in *; [by rewrite Hk|done..].
Qed.
Lemma frame_ret {B} (b : B) : frame f (ret b).
Proof. done. Qed.
Lemma frame_mret {B} (b : B) : frame f (mret b).
Proof. done. Qed.
Lemma frame_reject {B} c : frame f (@reject B c).
Proof. done. Qed.
Lemma frame_no_entropy {B} : frame f (@no_entropy B).
Proof. done. Qed.
Lemma frame_gets {B} (g : Inner -> B) : frame f (gets g).
Proof. done. Qed.
Lemma frame_of_option {B} (o : option B) c : frame f (of_option o c).
Proof. by destruct o. Qed.
Lemma frame_modify g : (forall i, f (g i) = f i) -> frame f (modify g).
Proof. intros H w. apply H. Qed.
Lemma frame_modify_world g : (forall w, f (inner (g w)) = f (inner w)) -> frame f (modify_world g).
Proof. intros H w. apply H. Qed.
Lemma frame_locked {B} (m : M B) : frame f m -> frame f (locked m).
Proof.
  intros H w. unfold locked. destruct (poisoned w); [done|]. specialize (H w).
  by destruct (m w) as [w1 [| | |]].
Qed.
Lemma frame_reply_of {B} g (m : M B) : frame f m -> frame f (reply_of g m).
Proof. intros H w. unfold reply_of. specialize (H w). by destruct (m w) as [w1 [| | |]]. Qed.
Lemma frame_db_write e g : (forall d i, f (set_db d i) = f i) -> frame f (db_write e g).
Proof.
  intros H. unfold db_write. apply frame_bind; [apply frame_gets|]. intros [d|]; [|apply frame_ret].
  destruct (if disk_ok e then g d else None); [by apply frame_modify|done].
Qed.
End Frames.

(** The gate state: what only the gates read and write. *)
Definition gates (i : Inner) : gmap bytes Z * list bytes * option bytes * gmap bytes Z :=
  (outstanding_challenges i, challenge_order i, attestation_key i, spent_tokens i).

(** What a creation asks for: a mailbox, or a group inbox with its first epoch and its
    roster. *)
Abbreviation Wanted := (option (Z * list QueueId)).

Section Tokens.
Context {X : RelayExt}.

Lemma frame_bump_queue e q en : frame gates (bump_queue e q en).
Proof.
  unfold bump_queue. destruct (check_and_bump_rate_limit _ _) as [q' r].
  apply frame_bind; [by apply frame_modify|]. by intros []; destruct r.
Qed.

Lemma gates_push_and_notify q mid env w : gates (inner (push_and_notify q mid env w)) = gates (inner w).
Proof.
  unfold push_and_notify, push_subs. simpl.
  assert (E : gates (push_store q mid env (inner w)) = gates (inner w)).
  { unfold push_store. destruct (queues (inner w) !! q) as [en|]; [|done]. by destruct (kind en). }
  destruct (subscribers _ !! q); [|done]. by destruct (notify _ _ _).
Qed.

Lemma gates_push_all roster mid env w :
  gates (inner (foldl (fun w m => push_and_notify m mid env w) w roster)) = gates (inner w).
Proof.
  revert w. induction roster as [|m ms IH]; intros w; [done|]. simpl. rewrite IH.
  apply gates_push_and_notify.
Qed.

Lemma gates_ack_inner q mid i : gates (ack_inner q mid i) = gates i.
Proof. unfold ack_inner. destruct (queues i !! q) as [en|]; [|done]. by destruct (kind en). Qed.

Lemma gates_bump_epoch q k i : gates (bump_epoch q k i) = gates i.
Proof. unfold bump_epoch. destruct (queues i !! q) as [en|]; [|done]. by destruct k, (kind en). Qed.

Lemma gates_subscribe cs tx qs i : gates (foldl (fun i q => subscribe_one cs tx q i) i qs) = gates i.
Proof. revert i. induction qs as [|q qs IH]; intros i; [done|]. simpl. by rewrite IH. Qed.

Ltac frame_step :=
  lazymatch goal with
  | |- frame _ (_ ≫= _) => apply frame_bind; [|intros ?]
  | |- frame _ (ret _) => apply frame_ret
  | |- frame _ (mret _) => apply frame_mret
  | |- frame _ (reject _) => apply frame_reject
  | |- frame _ no_entropy => apply frame_no_entropy
  | |- frame _ (gets _) => apply frame_gets
  | |- frame _ (of_option _ _) => apply frame_of_option
  | |- frame _ (bump_queue _ _ _) => apply frame_bump_queue
  | |- frame _ (locked _) => apply frame_locked
  | |- frame _ (reply_of _ _) => apply frame_reply_of
  | |- frame _ (db_write _ _) => apply frame_db_write; done
  | |- frame _ (modify _) => apply frame_modify; intros ?
  | |- frame _ (modify_world _) => apply frame_modify_world; intros ?
  | |- frame _ (match ?x with _ => _ end) => destruct x
  end.

(** Sends, subscriptions and acknowledgements do not touch the gates. *)
Lemma frame_sends e msg tx :
  match msg with RequestPowChallenge | CreateMailbox _ _ | CreateGroupInbox _ _ _ _ => False | _ => True end ->
  frame gates (handle e msg tx).
Proof.
  destruct msg; simpl; try done; intros _;
    unfold send_to_mailbox, send_to_group_inbox, subscribe, ack; repeat frame_step; try done.
  - apply gates_push_and_notify.
  - apply gates_bump_epoch.
  - apply gates_push_all.
  - apply gates_subscribe.
  - apply gates_ack_inner.
Qed.

(** A creation request with its solution and token, and the rest of its work,
    which leaves the gates alone. *)
Definition creation (msg : ClientMessage) (s : PowSolution) (att : option AttestationToken) : Prop :=
  msg = CreateMailbox s att \/ exists ep roster, msg = CreateGroupInbox s ep roster att.

Lemma creation_run e msg tx s att :
  creation msg s att ->
  exists (rest : M (QueueId * bytes)), frame gates rest /\
    handle e msg tx = reply_of (fun qk => SQueueCreated qk.1 qk.2)
      (locked (consume_attestation e att;; consume_pow s;; rest)).
Proof.
  assert (F : forall k (f : QueueId * bytes -> Db -> option Db), frame gates (
      qk ← fresh_queue e; db_write e (f qk);;
      modify (fun i => set_queues (<[qk.1:=mkEntry qk.2 k 0 (mono e)]> (queues i)) i);; ret qk)).
  { intros k f. unfold fresh_queue. by repeat frame_step. }
  intros [->|(ep & roster & ->)]; (eexists; split; [|reflexivity]); apply F.
Qed.

(** ** The attestation gate *)

Lemma consume_attestation_spec e att w w' r :
  consume_attestation e att w = (w', r) ->
  exists sp, w' = set_inner (set_spent sp (inner w)) w /\
  (forall n x, spent_tokens (inner w) !! n = Some x -> unix e < x -> sp !! n = Some x) /\
  (r = Done tt \/ r = Rejected InvalidAttestation) /\
  (forall vk, attestation_key (inner w) = Some vk -> r = Done tt ->
     exists t, att = Some t /\ unix e < expires_at t /\ signature_valid t vk = true /\
       sp !! token_nonce t = Some (expires_at t) /\
       forall x, spent_tokens (inner w) !! token_nonce t = Some x -> x <= unix e).
Proof.
  unfold consume_attestation. rewrite gets_bind. intros H.
  destruct (attestation_key (inner w)) as [vk|] eqn:Hk.
  2:{ unfold ret in H. simplify_eq. exists (spent_tokens (inner w')). split; [by destruct w' as [[] ? ?]|].
      split; [done|]. split; [by left|done]. }
  destruct att as [t|]; autorewrite with run in H;
    [|simplify_eq; exists (spent_tokens (inner w')); split; [by destruct w' as [[] ? ?]|];
      split; [done|]; split; [by right|done]].
  destruct (is_expired t (unix e) || negb (signature_valid t vk)) eqn:Ev.
  { mstep H. simplify_eq. exists (spent_tokens (inner w')). split; [by destruct w' as [[] ? ?]|].
    split; [done|]. split; [by right|done]. }
  autorewrite with run in H. simpl in H. unfold is_expired in Ev. bools.
  set (live := filter (fun kv => unix e < kv.2) (spent_tokens (inner w))) in H.
  assert (Hlive : forall n x, live !! n = Some x <-> spent_tokens (inner w) !! n = Some x /\ unix e < x).
  { intros n x. unfold live. by rewrite map_lookup_filter_Some. }
  destruct (live !! token_nonce t) as [y|] eqn:Hy; mstep H; simplify_eq.
  - exists live. split; [done|]. split; [intros; by apply Hlive|]. split; [by right|done].
  - exists (<[token_nonce t:=expires_at t]> live). split; [done|]. split; [|split; [by left|]].
    + intros n x Hn Hx. rewrite lookup_insert_ne; [by apply Hlive|]. intros En. rewrite En in Hy.
      assert (live !! n = Some x) by by apply Hlive. congruence.
    + intros ? [= <-] _. exists t. split; [done|]. split; [lia|]. split; [done|].
      split; [by rewrite lookup_insert_eq|]. intros x Hx. destruct (decide (unix e < x)) as [Hlt|]; [|lia].
      assert (live !! token_nonce t = Some x) by by apply Hlive. congruence.
Qed.

Lemma consume_pow_spec s w w' r :
  consume_pow s w = (w', r) ->
  w' = set_inner (set_challenges (delete (ps_challenge s) (outstanding_challenges (inner w)))
                    (challenge_order (inner w)) (inner w)) w /\
  (r = Done tt \/ r = Rejected InvalidProofOfWork) /\
  (outstanding_challenges (inner w) !! ps_challenge s = None -> r <> Done tt).
Proof.
  unfold consume_pow. autorewrite with run. intros H.
  destruct (outstanding_challenges (inner w) !! ps_challenge s) as [d|]; autorewrite with run in H;
    [|simplify_eq; split; [done|]; split; [by right|done]].
  destruct (PowChallenge_verify _ _); mstep H; simplify_eq; (split; [done|]); split; eauto.
Qed.

(** What a creation request does to the gates. *)
Lemma creation_gates e msg tx s att w w' r :
  creation msg s att -> handle e msg tx w = (w', r) ->
  (poisoned w = true /\ w' = w /\ r = Panicked) \/
  (exists sp o, gates (inner w') = (o, challenge_order (inner w), attestation_key (inner w), sp) /\
    (forall n x, spent_tokens (inner w) !! n = Some x -> unix e < x -> sp !! n = Some x) /\
    ((r = Done (SError InvalidAttestation) /\ o = outstanding_challenges (inner w)) \/
     (o = delete (ps_challenge s) (outstanding_challenges (inner w)) /\
      (outstanding_challenges (inner w) !! ps_challenge s = None -> r = Done (SError InvalidProofOfWork)) /\
      forall vk, attestation_key (inner w) = Some vk ->
        exists t, att = Some t /\ unix e < expires_at t /\ signature_valid t vk = true /\
          sp !! token_nonce t = Some (expires_at t) /\
          forall x, spent_tokens (inner w) !! token_nonce t = Some x -> x <= unix e))).
Proof.
  intros Hc H. destruct (creation_run e msg tx s att Hc) as (rest & F & E). rewrite E in H. clear E Hc.
  apply reply_of_inv in H as (r0 & H & ->).
  apply locked_inv in H as [(-> & -> & Hp)|(w1 & H & _ & Hi & _)]; [by left|].
  right. rewrite Hi. clear Hi.
  destruct (consume_attestation e att w) as [wa ra] eqn:Ha.
  apply consume_attestation_spec in Ha as Hs. destruct Hs as (sp & -> & H1 & [->| ->] & H3).
  2:{ erewrite bind_rejected in H by done. simplify_eq. exists sp, (outstanding_challenges (inner w)).
      split; [done|]. split; [done|]. by left. }
  exists sp, (delete (ps_challenge s) (outstanding_challenges (inner w))).
  erewrite bind_done in H by done. set (wa := set_inner (set_spent sp (inner w)) w) in H.
  destruct (consume_pow s wa) as [wp rp] eqn:Hp.
  apply consume_pow_spec in Hp as Hp'. destruct Hp' as (-> & [->| ->] & Hn).
  - erewrite bind_done in H by done. specialize (F (set_inner (set_challenges
      (delete (ps_challenge s) (outstanding_challenges (inner wa))) (challenge_order (inner wa)) (inner wa)) wa)).
    rewrite H in F. simpl in F. rewrite F. split; [done|]. split; [done|]. right. split; [done|].
    split; [intros; by exfalso; eapply Hn|]. intros vk Hk. by eapply H3.
  - erewrite bind_rejected in H by done. simplify_eq. split; [done|]. split; [done|]. right.
    split; [done|]. split; [done|]. intros vk Hk. by eapply H3.
Qed.

(** ** Creations that are paid for *)

Definition create_request (s : PowSolution) (k : Wanted) (att : option AttestationToken) : ClientMessage :=
  match k with None => CreateMailbox s att | Some (ep, roster) => CreateGroupInbox s ep roster att end.

Definition wanted_kind (k : Wanted) : QueueKind :=
  match k with None => Mailbox [] | Some (ep, roster) => GroupInbox ep roster end.

Lemma create_request_creation s k att : creation (create_request s k att) s att.
Proof. destruct k as [[ep roster]|]; [right; by eauto|by left]. Qed.

(** The challenge is outstanding and solved. *)
Definition solves (w : World) (s : PowSolution) : Prop :=
  exists d, outstanding_challenges (inner w) !! ps_challenge s = Some d /\
    PowChallenge_verify (mkPowChallenge (ps_challenge s) d) s = true.

Lemma consume_pow_takes s w :
  solves w s ->
  consume_pow s w =
    (set_inner (set_challenges (delete (ps_challenge s) (outstanding_challenges (inner w))) (challenge_order (inner w)) (inner w)) w,
     Done tt).
Proof. intros (d & Hd & Hv). unfold consume_pow. autorewrite with run. rewrite Hd. autorewrite with run. by rewrite Hv. Qed.

(** Past the gates, a creation whose draws give an unused id and whose statements
    succeed answers with the queue it added. *)
Lemma create_queue_run e att s sp k (f : QueueId * bytes -> Db -> option Db) q key ds w :
  poisoned w = false -> consume_attestation e att w = (set_inner (set_spent sp (inner w)) w, Done tt) -> solves w s ->
  draws e = q :: key :: ds -> queues (inner w) !! q = None ->
  (forall d, db (inner w) = Some d -> disk_ok e = true /\ is_Some (f (q, key) d)) ->
  exists w',
    locked (
      consume_attestation e att;; consume_pow s;;
      qk ← fresh_queue e; db_write e (f qk);;
      modify (fun i => set_queues (<[qk.1:=mkEntry qk.2 k 0 (mono e)]> (queues i)) i);; ret qk) w = (w', Done (q, key)) /\
    poisoned w' = false /\ queues (inner w') = <[q:=mkEntry key k 0 (mono e)]> (queues (inner w)) /\
    gates (inner w') = (delete (ps_challenge s) (outstanding_challenges (inner w)), challenge_order (inner w),
                        attestation_key (inner w), sp).
Proof.
  intros Hp Ha Hs Hd Hq Hdb. unfold locked. rewrite Hp. erewrite bind_done by exact Ha.
  erewrite bind_done by (apply consume_pow_takes; exact Hs).
  erewrite bind_done. 2:{ unfold fresh_queue. rewrite gets_bind, Hd. simpl. rewrite Hq. simpl. reflexivity. }
  unfold db_write. simpl. destruct (db (inner w)) as [d|] eqn:Ed.
  - destruct (Hdb d eq_refl) as (Ho & d' & Hf).
    erewrite bind_done. 2:{ rewrite gets_bind. simpl. rewrite Ed, Ho, Hf. reflexivity. }
    rewrite modify_bind. by eexists.
  - erewrite bind_done. 2:{ rewrite gets_bind. simpl. rewrite Ed. reflexivity. }
    rewrite modify_bind. by eexists.
Qed.

(** ** Over runs *)

(** An operation of the running process, at a time up to [T]. *)
Definition live_until (T : Z) (o : Op) : bool :=
  match o with OHandle e _ _ => unix e <=? T | ORestart _ _ => false | _ => true end.

Lemma issue_gates e w w' r :
  issue_pow_challenge e w = (w', r) ->
  gates (inner w') = gates (inner w) \/
  exists rnd ds, draws e = rnd :: ds /\
    gates (inner w') =
      (let '(o, ord) := evict_challenges MAX_OUTSTANDING_POW_CHALLENGES
                          (outstanding_challenges (inner w)) (challenge_order (inner w)) in
       (<[rnd:=QUEUE_CREATION_POW_DIFFICULTY]> o, ord ++ [rnd], attestation_key (inner w), spent_tokens (inner w))).
Proof.
  unfold issue_pow_challenge. destruct (draws e) as [|rnd ds] eqn:Ed; intros H;
    [left; by mstep H; simplify_eq|].
  apply locked_inv in H as [(-> & _)|(w1 & H & _ & Hi & _)]; [by left|]. right. exists rnd, ds.
  split; [done|]. rewrite Hi, modify_bind in *. mstep H. simplify_eq. simpl. unfold gates. simpl.
  by destruct (evict_challenges _ _ _).
Qed.

(** Every request is a challenge request, a creation, or leaves the gates alone. *)
Lemma handle_gates_cases e msg tx w w' r :
  handle e msg tx w = (w', r) ->
  (msg = RequestPowChallenge /\ exists r0, issue_pow_challenge e w = (w', r0)) \/
  (exists s att, creation msg s att) \/
  (msg <> RequestPowChallenge /\ gates (inner w') = gates (inner w)).
Proof.
  intros H. destruct msg as [q tag env|q k tag env|qs|q mid| |s att|s ep roster att].
  1-4: right; right; split; [done|]; match type of H with handle ?e ?m ?t ?w = _ =>
         pose proof (frame_sends e m t I w) as F end; by rewrite H in F.
  - left. split; [done|]. apply reply_of_inv in H as (r0 & H & _). by eauto.
  - right; left. exists s, att. by left.
  - right; left. exists s, att. right. by eauto.
Qed.

Lemma exec_spent T o w n x :
  live_until T o = true -> spent_tokens (inner w) !! n = Some x -> T < x ->
  spent_tokens (inner (exec o w).1) !! n = Some x /\
  attestation_key (inner (exec o w).1) = attestation_key (inner w).
Proof.
  intros Hl Hn Hx. destruct o as [e msg tx|tx|tx|now key]; simpl in *; try done. bools.
  destruct (handle e msg tx w) as [w' r] eqn:H. simpl.
  destruct (handle_gates_cases _ _ _ _ _ _ H) as [(-> & r0 & Hi)|[(s & att & Hc)|[_ E]]].
  - apply issue_gates in Hi as [E|(rnd & ds & _ & E)]; [unfold gates in E; by simplify_eq; split; congruence|].
    unfold gates in E. destruct (evict_challenges _ _ _). simplify_eq. split; congruence.
  - destruct (creation_gates _ _ _ _ _ _ _ _ Hc H) as [(_ & -> & _)|(sp & o & E & Hsp & _)]; [done|].
    unfold gates in E. simplify_eq. split; [|done]. apply Hsp; [done|lia].
  - unfold gates in E. simplify_eq. split; congruence.
Qed.

Lemma run_spent T ops w n x :
  forallb (live_until T) ops = true -> spent_tokens (inner w) !! n = Some x -> T < x ->
  spent_tokens (inner (run ops w).1) !! n = Some x /\
  attestation_key (inner (run ops w).1) = attestation_key (inner w).
Proof.
  revert w. induction ops as [|o ops IH]; intros w Hl Hn Hx; [done|]. simpl in Hl. bools. simpl.
  destruct (exec_spent T o w n x) as [Hn1 Hk1]; try done. destruct (exec o w) as [w1 l]. simpl in *.
  destruct (IH w1) as [Hn2 Hk2]; try done. destruct (run ops w1) as [w2 ls]. simpl in *.
  split; congruence.
Qed.

Lemma run_key ops w :
  (exists T, forallb (live_until T) ops = true) ->
  attestation_key (inner (run ops w).1) = attestation_key (inner w).
Proof.
  intros [T Hl]. revert w. induction ops as [|o ops IH]; intros w; [done|]. simpl in *. bools.
  assert (E : attestation_key (inner (exec o w).1) = attestation_key (inner w)).
  { destruct o as [e msg tx|tx|tx|now key]; simpl in *; try done.
    destruct (handle e msg tx w) as [w' r] eqn:Eh. simpl.
    destruct (handle_gates_cases _ _ _ _ _ _ Eh) as [(-> & r0 & Hi)|[(s & att & Hc)|[_ E]]].
    - apply issue_gates in Hi as [E|(rnd & ds & _ & E)]; unfold gates in E; [by simplify_eq|].
      destruct (evict_challenges _ _ _). by simplify_eq.
    - destruct (creation_gates _ _ _ _ _ _ _ _ Hc Eh) as [(_ & -> & _)|(sp & o & E & _)]; [done|].
      unfold gates in E. by simplify_eq.
    - unfold gates in E. by simplify_eq. }
  specialize (IH ltac:(done) (exec o w).1). destruct (exec o w) as [w1 l]. simpl in *.
  destruct (run ops w1). simpl in *. congruence.
Qed.

(** A token in the spent set buys nothing more. *)
Lemma spent_token_refused t vk w ops e msg tx s :
  creation msg s (Some t) -> attestation_key (inner w) = Some vk -> spent_tokens (inner w) !! token_nonce t = Some (expires_at t) ->
  forallb (live_until (unix e)) ops = true ->
  let r := (handle e msg tx (run ops w).1).2 in
  r = Done (SError InvalidAttestation) \/ r = Panicked.
Proof.
  intros Hc Hk Hs Hl r. unfold r. destruct (handle e msg tx (run ops w).1) as [w2 r2] eqn:H2. simpl.
  destruct (creation_gates _ _ _ _ _ _ _ _ Hc H2) as [(_ & _ & ->)|(sp & o & _ & _ & [[-> _]|(_ & _ & Hp)])];
    [by right|by left|]. exfalso.
  destruct (Hp vk) as (t' & ? & Hexp & _ & _ & Hold); [by rewrite run_key by eauto|]. simplify_eq.
  destruct (run_spent (unix e) ops w (token_nonce t') (expires_at t')) as [Hsp' _]; try done.
  apply Hold in Hsp'. lia.
Qed.

(** C15: with the attestation gate on, a token buys at most one queue creation
    while the process lives: once a creation request carrying it got past the
    gate (whether or not a queue was then created), every later creation request
    with the same token is refused as [InvalidAttestation], as long as the clock
    does not go back. *)
Theorem attestation_single_use e msg tx s t vk w w1 m ops e' msg' tx' s' :
  creation msg s (Some t) -> creation msg' s' (Some t) ->
  attestation_key (inner w) = Some vk ->
  handle e msg tx w = (w1, Done m) -> m <> SError InvalidAttestation ->
  forallb (live_until (unix e')) ops = true ->
  let r := (handle e' msg' tx' (run ops w1).1).2 in
  r = Done (SError InvalidAttestation) \/ r = Panicked.
Proof.
  intros Hc Hc' Hk H Hm Hl.
  destruct (creation_gates _ _ _ _ _ _ _ _ Hc H) as [(_ & _ & ?)|(sp & o & E & _ & [[? _]|(_ & _ & Hp)])];
    [done|by simplify_eq|].
  destruct (Hp vk Hk) as (t' & ? & Hexp & _ & Hsp & _). simplify_eq. unfold gates in E. simplify_eq.
  apply (spent_token_refused t' vk _ _ _ _ _ s'); [done|congruence|done|done].
Qed.

(** ** Proof-of-work challenges *)

Record pow_ok (i : Inner) : Prop := {
  pow_order : len (challenge_order i) <= MAX_OUTSTANDING_POW_CHALLENGES;
  pow_dom c d : outstanding_challenges i !! c = Some d -> c ∈ challenge_order i;
}.

Lemma evict_challenges_spec n o ord o' ord' :
  0 < n -> evict_challenges n o ord = (o', ord') ->
  len ord' < n /\
  (forall c d, o' !! c = Some d -> o !! c = Some d) /\
  ((forall c d, o !! c = Some d -> c ∈ ord) -> forall c d, o' !! c = Some d -> c ∈ ord').
Proof.
  intros Hn. revert o. induction ord as [|c0 ord IH]; intros o H; cbn [evict_challenges] in H.
  { simplify_eq. rewrite len_nil. by repeat split. }
  destruct (Z.leb_spec n (len (c0 :: ord))); [|simplify_eq; by repeat split].
  apply IH in H as (H1 & H2 & H3). split; [done|]. split.
  - intros c d Hc. apply H2, lookup_delete_Some in Hc. naive_solver.
  - intros Hd c d Hc. eapply H3; [|done]. intros c' d' [Hne Hc']%lookup_delete_Some.
    apply Hd in Hc'. set_solver.
Qed.

Lemma pow_ok_gates i i' : gates i' = gates i -> pow_ok i -> pow_ok i'.
Proof.
  unfold gates. intros [= E1 E2 _ _] [P1 P2]. split; rewrite ?E1, ?E2; done.
Qed.

Lemma exec_pow_ok o w : pow_ok (inner w) -> pow_ok (inner (exec o w).1).
Proof.
  intros P. pose proof P as [P1 P2]. destruct o as [e msg tx|tx|tx|now key]; simpl; try by split.
  - destruct (handle e msg tx w) as [w' r] eqn:H. simpl.
    destruct (handle_gates_cases _ _ _ _ _ _ H) as [(-> & r0 & Hi)|[(s & att & Hc)|[_ E]]].
    + apply issue_gates in Hi as [E|(rnd & ds & _ & E)]; [by eapply pow_ok_gates|]. unfold gates in E.
      destruct (evict_challenges _ _ _) as [o ord] eqn:Ev. injection E as Eo Eord _ _.
      apply evict_challenges_spec in Ev as (E1 & E2 & E3); [|done]. split.
      * rewrite Eord, len_app, len_cons, len_nil. lia.
      * intros c d. rewrite Eo, Eord, lookup_insert_Some. specialize (E3 P2 c d). set_solver.
    + destruct (creation_gates _ _ _ _ _ _ _ _ Hc H) as [(_ & -> & _)|(sp & o & E & _ & Ho)]; [by split|].
      injection E as Eo Eord _ _. split; [by rewrite Eord|]. intros c d. rewrite Eo, Eord.
      destruct Ho as [[_ ->]|[-> _]]; [apply P2|]. intros [_ Hd]%lookup_delete_Some. by eapply P2.
    + by eapply pow_ok_gates.
  - destruct (db (inner w) ≫= relay_open now) as [i|] eqn:E; [|by split].
    apply bind_Some in E as (d & _ & E). unfold relay_open in E.
    apply bind_Some in E as (qs & _ & E). apply bind_Some in E as (qs2 & _ & E).
    apply bind_Some in E as ([qs3 used] & _ & E). simplify_eq. split; [done|]. simpl. set_solver.
Qed.

Lemma run_pow_ok ops w : pow_ok (inner w) -> pow_ok (inner (run ops w).1).
Proof.
  revert w. induction ops as [|o ops IH]; intros w Hs; [done|]. simpl.
  pose proof (exec_pow_ok o w Hs) as H1. destruct (exec o w) as [w1 l]. simpl in H1.
  specialize (IH w1 H1). by destruct (run ops w1).
Qed.

Lemma size_list_to_set_le (l : list bytes) : (size (list_to_set l : gset bytes) <= length l)%nat.
Proof.
  induction l as [|c l IH]; simpl; [done|].
  rewrite size_union_alt, size_singleton.
  assert (size (list_to_set l ∖ {[c]} : gset bytes) <= size (list_to_set l : gset bytes))%nat
    by (apply subseteq_size; set_solver). lia.
Qed.

(** The relay never tracks more than [MAX_OUTSTANDING_POW_CHALLENGES]
    challenges, nor remembers the order of more, over any run, however many
    challenges are requested and never solved. *)
Theorem challenges_bounded ops w :
  pow_ok (inner w) ->
  let i := inner (run ops w).1 in
  Z.of_nat (size (outstanding_challenges i)) <= MAX_OUTSTANDING_POW_CHALLENGES /\
  len (challenge_order i) <= MAX_OUTSTANDING_POW_CHALLENGES.
Proof.
  intros P i. pose proof (run_pow_ok ops w P) as [P1 P2]. fold i in P1, P2. split; [|done].
  assert (Hd : dom (outstanding_challenges i) ⊆ list_to_set (challenge_order i)).
  { intros c [d Hc]%elem_of_dom. apply elem_of_list_to_set. by eapply P2. }
  apply subseteq_size in Hd. rewrite size_dom in Hd.
  pose proof (size_list_to_set_le (challenge_order i)). unfold len in P1. lia.
Qed.

(** An operation that does not issue challenge [c] (again). *)
Definition not_issued (c : bytes) (o : Op) : bool :=
  match o with
  | OHandle e RequestPowChallenge _ =>
      match draws e with rnd :: _ => negb (bool_decide (rnd = c)) | [] => true end
  | _ => true
  end.

Lemma exec_absent c o w :
  not_issued c o = true -> outstanding_challenges (inner w) !! c = None ->
  outstanding_challenges (inner (exec o w).1) !! c = None.
Proof.
  intros Hn Ho. destruct o as [e msg tx|tx|tx|now key]; simpl in *; try done.
  - destruct (handle e msg tx w) as [w' r] eqn:H. simpl.
    destruct (handle_gates_cases _ _ _ _ _ _ H) as [(-> & r0 & Hi)|[(s & att & Hc)|[_ E]]].
    + apply issue_gates in Hi as [E|(rnd & ds & Ed & E)]; [injection E as -> _ _ _; done|].
      destruct (evict_challenges _ _ _) as [o ord] eqn:Ev. injection E as -> _ _ _.
      rewrite Ed in Hn. bools. rewrite lookup_insert_ne by done.
      apply evict_challenges_spec in Ev as (_ & E2 & _); [|done].
      destruct (o !! c) as [d|] eqn:Ec; [|done]. apply E2 in Ec. congruence.
    + destruct (creation_gates _ _ _ _ _ _ _ _ Hc H) as [(_ & -> & _)|(sp & o & E & _ & Ho')]; [done|].
      injection E as -> _ _ _. destruct Ho' as [[_ ->]|[-> _]]; [done|].
      apply lookup_delete_None. by right.
    + injection E as -> _ _ _. done.
  - destruct (db (inner w) ≫= relay_open now) as [i|] eqn:E; [|done].
    apply bind_Some in E as (d & _ & E). unfold relay_open in E.
    apply bind_Some in E as (qs & _ & E). apply bind_Some in E as (qs2 & _ & E).
    apply bind_Some in E as ([qs3 used] & _ & E). by simplify_eq.
Qed.

Lemma run_absent c ops w :
  forallb (not_issued c) ops = true -> outstanding_challenges (inner w) !! c = None ->
  outstanding_challenges (inner (run ops w).1) !! c = None.
Proof.
  revert w. induction ops as [|o ops IH]; intros w Hn Ho; [done|]. simpl in *. bools.
  pose proof (exec_absent c o w ltac:(done) Ho) as H1. destruct (exec o w) as [w1 l]. simpl in H1.
  specialize (IH w1 ltac:(done) H1). by destruct (run ops w1).
Qed.

(** A proof-of-work challenge pays for at most one creation request: once a
    request presenting it was judged, right or wrong, no later request with the
    same challenge creates a queue, restarts included, unless the relay draws
    that very challenge again. *)
Theorem challenge_single_use e msg tx s att w w1 m ops e' msg' tx' s' att' :
  creation msg s att -> creation msg' s' att' -> ps_challenge s' = ps_challenge s ->
  handle e msg tx w = (w1, Done m) -> m <> SError InvalidAttestation ->
  forallb (not_issued (ps_challenge s)) ops = true ->
  let r := (handle e' msg' tx' (run ops w1).1).2 in
  r = Done (SError InvalidAttestation) \/ r = Done (SError InvalidProofOfWork) \/ r = Panicked.
Proof.
  intros Hc Hc' Es H Hm Hl r. unfold r.
  destruct (handle e' msg' tx' (run ops w1).1) as [w2 r2] eqn:H2. simpl.
  destruct (creation_gates _ _ _ _ _ _ _ _ Hc H) as [(_ & _ & ?)|(sp & o & E & _ & [[? _]|(-> & _)])];
    [done|by simplify_eq|].
  injection E as E _ _ _.
  assert (Ho : outstanding_challenges (inner (run ops w1).1) !! ps_challenge s = None).
  { apply run_absent; [done|]. rewrite E. by apply lookup_delete_None; left. }
  destruct (creation_gates _ _ _ _ _ _ _ _ Hc' H2)
    as [(_ & _ & ->)|(sp' & o' & _ & _ & [[-> _]|(_ & Hp' & _)])]; [by right; right|by left|].
  right; left. apply Hp'. by rewrite Es.
Qed.

End Tokens.

Section TokenWitnesses.
Import Scenario ToyInstances RelayToy.

(** A relay with the gate on, and a token its directory signed. *)
Definition gated : World := (exec (ORestart 0 (Some [42])) boot).1.
Definition token : AttestationToken := AttestationToken_sign [42] nonce0 1000.
Definition ask (t n : Z) : Op := OHandle (at_ t [idq n]) RequestPowChallenge None.
Definition create (n : Z) : ClientMessage := CreateMailbox (solved n) (Some token).

Definition gated1 : World := (run [ask 1 201; ask 1 202] gated).1.

Lemma attestation_single_use_witness :
  let w1 := (handle (at_ 2 [idq 1; idq 101]) (create 201) None gated1).1 in
  (handle (at_ 3 [idq 2; idq 102]) (create 202) None (run [ask 3 203] w1).1).2
    = Done (SError InvalidAttestation).
Proof.
  intros w1.
  destruct (attestation_single_use (at_ 2 [idq 1; idq 101]) (create 201) None (solved 201) token [42] gated1 w1
              (SQueueCreated (idq 1) (idq 101)) [ask 3 203] (at_ 3 [idq 2; idq 102]) (create 202) None (solved 202))
    as [E|E].
  - left. reflexivity.
  - left. reflexivity.
  - vm_compute. reflexivity.
  - vm_compute. reflexivity.
  - discriminate.
  - vm_compute. reflexivity.
  - exact E.
  - exfalso. revert E. vm_compute. discriminate.
Defined.

Lemma challenges_bounded_witness :
  len (challenge_order (inner (run (setup ++ traffic) boot).1)) <= MAX_OUTSTANDING_POW_CHALLENGES.
Proof.
  apply (challenges_bounded (setup ++ traffic) boot). split; [apply Z.leb_le; vm_compute; reflexivity|].
  intros c d. vm_compute. discriminate.
Defined.

Lemma challenge_single_use_witness :
  let w := (run [ask 1 201] boot).1 in
  let w1 := (handle (at_ 2 [idq 1; idq 101]) (CreateMailbox (solved 201) None) None w).1 in
  (handle (at_ 3 [idq 2; idq 102]) (CreateMailbox (solved 201) None) None (run [ask 3 202] w1).1).2
    = Done (SError InvalidProofOfWork).
Proof.
  intros w w1.
  destruct (challenge_single_use (at_ 2 [idq 1; idq 101]) (CreateMailbox (solved 201) None) None (solved 201) None
              w w1 (SQueueCreated (idq 1) (idq 101)) [ask 3 202] (at_ 3 [idq 2; idq 102])
              (CreateMailbox (solved 201) None) None (solved 201) None)
    as [E|[E|E]].
  - left. reflexivity.
  - left. reflexivity.
  - reflexivity.
  - vm_compute. reflexivity.
  - discriminate.
  - vm_compute. reflexivity.
  - exfalso. revert E. vm_compute. discriminate.
  - exact E.
  - exfalso. revert E. vm_compute. discriminate.
Defined.

End TokenWitnesses.
