(* ===== verification/RelayTypes.v ===== *)
(** * The relay's state is well-typed

    What the types of [state.rs] and its checks promise of every value the relay holds,
    over whole runs: fixed-size ids and keys, [u64] epochs, rate counters inside their
    limit, messages filed under their own id and no larger than a message may be, the
    storage counter inside its bound, and challenges within their cap. *)

From S2P Require Import Prelude External Proto Relay RelaySpec RelayRefine RelayDurable RelayRun RelayProps RelayGates RelayTokens.

(** ** Properties of the state that an operation keeps *)

Definition stable {A} (P : Inner -> Prop) (m : M A) : Prop := forall w, P (inner w) -> P (inner (m w).1).

Section Stable.
Context (P : Inner -> Prop).

Lemma stable_frame {A} (m : M A) : (forall i i', queues i = queues i' -> P i -> P i') -> frame queues m -> stable P m.
Proof. intros HP Hm w Hw. eapply HP; [|exact Hw]. by rewrite Hm. Qed.
Lemma stable_bind {A B} (m : M A) (k : A -> M B) : stable P m -> (forall a, stable P (k a)) -> stable P (m ≫= k).
Proof.
  intros Hm Hk w Hw. unfold mbind, M_bind, bind. specialize (Hm w Hw).
  destruct (m w) as [w1 [a| | |]]; [by apply Hk|done..].
Qed.
(** What is read of the state may be used in what follows. *)
Lemma stable_gets {A B} (f : Inner -> A) (k : A -> M B) :
  (forall w, P (inner w) -> P (inner (k (f (inner w)) w).1)) -> stable P (gets f ≫= k).
Proof. intros H w Hw. rewrite gets_bind. by apply H. Qed.
Lemma stable_modify f : (forall i, P i -> P (f i)) -> stable P (modify f).
Proof. intros H w Hw. by apply H. Qed.
Lemma stable_modify_world f : (forall w, P (inner w) -> P (inner (f w))) -> stable P (modify_world f).
Proof. intros H w Hw. by apply H. Qed.
Lemma stable_locked {A} (m : M A) : stable P m -> stable P (locked m).
Proof.
  intros H w Hw. unfold locked. destruct (poisoned w); [done|]. specialize (H w Hw).
  by destruct (m w) as [w1 [| | |]].
Qed.
Lemma stable_reply_of {A} g (m : M A) : stable P m -> stable P (reply_of g m).
Proof. intros H w Hw. unfold reply_of. specialize (H w Hw). by destruct (m w) as [w1 [| | |]]. Qed.
End Stable.

(** ** Queue entries *)

Definition small (m : MessageId * Envelope) : Prop := env_len m.2 <= MAX_MESSAGE_SIZE.

Definition entry_ok (en : QueueEntry) : Prop :=
  rate_ok en /\ match kind en with Mailbox p => Forall small p | GroupInbox _ _ => True end.

Definition entries_ok (i : Inner) : Prop := map_Forall (fun _ en => entry_ok en) (queues i).

Lemma entries_same i i' : queues i = queues i' -> entries_ok i -> entries_ok i'.
Proof. unfold entries_ok. by intros ->. Qed.

Lemma entries_insert q en i : entry_ok en -> entries_ok i -> entries_ok (set_queues (<[q:=en]> (queues i)) i).
Proof. intros He Hi. by apply map_Forall_insert_2. Qed.

Section Entries.
Context {X : RelayExt}.

Lemma entry_bumped t en : entry_ok en -> entry_ok (check_and_bump_rate_limit t en).1.
Proof.
  intros [Hr Hk]. pose proof (check_and_bump_cases t en Hr) as C.
  destruct (check_and_bump_rate_limit t en) as [en' r] eqn:E. simpl. destruct C as [C _]. split; [done|].
  apply check_and_bump_core in E. unfold core in E. by injection E as _ ->.
Qed.

Lemma stable_bump e q en : entry_ok en -> stable entries_ok (bump_queue e q en).
Proof.
  intros He. unfold bump_queue. pose proof (entry_bumped (mono e) en He) as Hb.
  destruct (check_and_bump_rate_limit (mono e) en) as [en' r]. apply stable_bind.
  - apply stable_modify. intros i. by apply entries_insert.
  - intros _. apply stable_frame; [apply entries_same|by destruct r].
Qed.

Lemma entries_push_store q mid env i : env_len env <= MAX_MESSAGE_SIZE -> entries_ok i -> entries_ok (push_store q mid env i).
Proof.
  intros Hl Hi. unfold push_store. destruct (queues i !! q) as [en|] eqn:Hq; [|done]. destruct (Hi _ _ Hq) as [Hr Hk].
  destruct (kind en) as [p|]; [|done]. apply (entries_insert _ _ i); [|done]. split; [done|]. simpl.
  apply Forall_app. split; [done|]. by repeat constructor.
Qed.

Lemma entries_push q mid env w :
  env_len env <= MAX_MESSAGE_SIZE -> entries_ok (inner w) -> entries_ok (inner (push_and_notify q mid env w)).
Proof.
  intros Hl Hi. apply (entries_same (push_store q mid env (inner w))); [|by apply entries_push_store].
  unfold push_and_notify, push_subs. simpl. by repeat case_match.
Qed.

Lemma entries_push_all roster mid env w :
  env_len env <= MAX_MESSAGE_SIZE -> entries_ok (inner w) ->
  entries_ok (inner (foldl (fun w m => push_and_notify m mid env w) w roster)).
Proof. intros Hl. revert w. induction roster as [|m ms IH]; intros w Hw; [done|]. by apply IH, entries_push. Qed.

Lemma entries_bump_epoch q k i : entries_ok i -> entries_ok (bump_epoch q k i).
Proof.
  intros Hi. unfold bump_epoch. destruct (queues i !! q) as [en|] eqn:Hq; [|done]. destruct (Hi _ _ Hq) as [Hr _].
  destruct k, (kind en); try done. by apply (entries_insert _ _ i).
Qed.

Lemma entries_ack q mid i : entries_ok i -> entries_ok (ack_inner q mid i).
Proof.
  intros Hi. unfold ack_inner. destruct (queues i !! q) as [en|] eqn:Hq; [|done]. destruct (Hi _ _ Hq) as [Hr Hk].
  destruct (kind en) as [p|]; [|done]. apply (entries_insert _ _ i); [|done]. split; [done|]. simpl.
  apply Forall_forall. intros m [Hm _]%retain_elem. rewrite Forall_forall in Hk. auto.
Qed.

Ltac queues_step :=
  lazymatch goal with
  | |- frame _ (_ ≫= _) => apply frame_bind; [|intros ?]
  | |- frame _ (ret _) => apply frame_ret
  | |- frame _ (mret _) => apply frame_mret
  | |- frame _ (reject _) => apply frame_reject
  | |- frame _ no_entropy => apply frame_no_entropy
  | |- frame _ (gets _) => apply frame_gets
  | |- frame _ (of_option _ _) => apply frame_of_option
  | |- frame _ (locked _) => apply frame_locked
  | |- frame _ (db_write _ _) => apply frame_db_write; done
  | |- frame _ (modify _) => apply frame_modify; intros ?
  | |- frame _ (match ?x with _ => _ end) => destruct x
  end.

(** A step that leaves the queues alone. *)
Lemma stable_same {A} (m : M A) : frame queues m -> stable entries_ok m.
Proof. apply stable_frame, entries_same. Qed.

Lemma stable_create e att s (f : QueueId * bytes -> Db -> option Db) k :
  match k with Mailbox p => p = [] | GroupInbox _ _ => True end ->
  stable entries_ok (consume_attestation e att;; consume_pow s;; qk ← fresh_queue e; db_write e (f qk);;
    modify (fun i => set_queues (<[qk.1:=mkEntry qk.2 k 0 (mono e)]> (queues i)) i);; ret qk).
Proof.
  intros Hk. apply stable_bind; [apply stable_same; unfold consume_attestation; by repeat queues_step|]. intros _.
  apply stable_bind; [apply stable_same; unfold consume_pow; by repeat queues_step|]. intros _.
  apply stable_bind; [apply stable_same; unfold fresh_queue; by repeat queues_step|]. intros qk.
  apply stable_bind; [apply stable_same; by repeat queues_step|]. intros _.
  apply stable_bind; [|intros _; by apply stable_same]. apply stable_modify. intros i. apply entries_insert.
  split; [done|]. destruct k as [p|]; [subst p; by constructor|done].
Qed.

(** Reading the entry of a queue. *)
Lemma stable_entry {A} q c (k : QueueEntry -> M A) :
  (forall en, entry_ok en -> stable entries_ok (k en)) ->
  stable entries_ok (qs ← gets queues; en ← of_option (qs !! q) c; k en).
Proof.
  intros Hk. apply stable_gets. intros w Hw. destruct (queues (inner w) !! q) as [en|] eqn:Hq; autorewrite with run; [|done].
  apply Hk; [by eapply Hw|done].
Qed.

Lemma stable_send_to_mailbox e q tag env : stable entries_ok (send_to_mailbox e q tag env).
Proof.
  unfold send_to_mailbox. destruct (Z.ltb_spec MAX_MESSAGE_SIZE (env_len env)) as [|Hl]; [by apply stable_same|].
  apply stable_locked, stable_entry. intros en He. destruct (kind en) as [p|]; [|by apply stable_same].
  repeat (case_match; [by apply stable_same|]).
  apply stable_bind; [by apply stable_bump|]. intros _. apply stable_bind; [by apply stable_same|]. intros [].
  - by apply stable_same.
  - apply stable_bind; [apply stable_same; by repeat queues_step|]. intros _.
    apply stable_modify_world. intros w Hw. by apply entries_push.
Qed.

Lemma stable_send_to_group_inbox e q k tag env : stable entries_ok (send_to_group_inbox e q k tag env).
Proof.
  unfold send_to_group_inbox. destruct (Z.ltb_spec MAX_MESSAGE_SIZE (env_len env)) as [|Hl]; [by apply stable_same|].
  apply stable_locked, stable_entry. intros en He. case_match; [by apply stable_same|].
  destruct (kind en) as [|ep roster]; [by apply stable_same|]. case_match; [by apply stable_same|].
  apply stable_bind; [by apply stable_same|]. intros []; [by apply stable_same|].
  apply stable_bind; [by apply stable_bump|]. intros _. apply stable_bind; [by apply stable_same|]. intros targets.
  apply stable_bind; [apply stable_same; by repeat queues_step|]. intros _.
  apply stable_bind; [apply stable_modify; intros i; apply entries_bump_epoch|]. intros _.
  apply stable_modify_world. intros w Hw. by apply entries_push_all.
Qed.

Lemma queues_subscribe cs tx qs i : queues (foldl (fun i q => subscribe_one cs tx q i) i qs) = queues i.
Proof. revert i. induction qs as [|q qs IH]; intros i; [done|]. simpl. by rewrite IH. Qed.

Lemma stable_handle e msg tx : stable entries_ok (handle e msg tx).
Proof.
  destruct msg as [q tag env|q k tag env|qs|q mid| |s att|s ep roster att]; simpl.
  - apply stable_reply_of, stable_send_to_mailbox.
  - apply stable_reply_of, stable_send_to_group_inbox.
  - destruct tx; [|by apply stable_same]. apply stable_reply_of, stable_locked, stable_modify_world. intros w Hw.
    eapply entries_same; [symmetry; apply queues_subscribe|done].
  - apply stable_reply_of, stable_locked, stable_bind; [apply stable_same; by repeat queues_step|]. intros _.
    apply stable_modify. intros i. apply entries_ack.
  - apply stable_reply_of, stable_same. unfold issue_pow_challenge. repeat queues_step. by destruct (evict_challenges _ _ _).
  - apply stable_reply_of, stable_locked. by apply (stable_create e att s (fun qk => sql_insert_queue qk.1 qk.2 SqlNull)).
  - apply stable_reply_of, stable_locked. by apply (stable_create e att s (fun qk d =>
      ep ← sql_bind_u64 ep; d' ← sql_insert_queue qk.1 qk.2 (SqlInt ep) d; sql_insert_roster_all qk.1 0 roster d')).
Qed.

(** ** Restarts *)

Definition idle (qs : gmap QueueId QueueEntry) : Prop := map_Forall (fun _ en => sent_this_minute en = 0) qs.

Lemma idle_load_queues now rows qs qs' : idle qs -> load_queues now rows qs = Some qs' -> idle qs'.
Proof.
  revert qs. induction rows as [|[q [key ep]] rows IH]; intros qs Hq H; simpl in H; [by simplify_eq|].
  repeat (apply bind_Some in H as (? & _ & H)). eapply IH; [|exact H]. by apply map_Forall_insert_2.
Qed.

Lemma idle_set_kind q en k qs : qs !! q = Some en -> idle qs -> idle (<[q:=set_kind k en]> qs).
Proof. intros Hq Hi. apply map_Forall_insert_2; [|done]. by apply (Hi q en). Qed.

Lemma idle_load_roster rows qs qs' : idle qs -> load_roster rows qs = Some qs' -> idle qs'.
Proof.
  revert qs. induction rows as [|[[q o] m] rows IH]; intros qs Hq H; simpl in H; [by simplify_eq|].
  repeat (apply bind_Some in H as (? & _ & H)). eapply IH; [|exact H].
  repeat case_match; try done. by apply idle_set_kind.
Qed.

Lemma idle_load_pending rows qs used qs' used' : idle qs -> load_pending rows qs used = Some (qs', used') -> idle qs'.
Proof.
  revert qs used. induction rows as [|[[q o] m] rows IH]; intros qs used Hq H; simpl in H; [by simplify_eq|].
  repeat (apply bind_Some in H as (? & _ & H)). eapply IH; [|exact H].
  repeat case_match; try done. by apply idle_set_kind.
Qed.

Lemma idle_open now d i : relay_open now d = Some i -> idle (queues i).
Proof.
  unfold relay_open. intros (qs & H1 & H)%bind_Some. apply bind_Some in H as (qs2 & H2 & H).
  apply bind_Some in H as ([qs3 used] & H3 & H). simplify_eq. simpl.
  eapply idle_load_pending; [|exact H3]. eapply idle_load_roster; [|exact H2]. eapply idle_load_queues; [|exact H1].
  apply map_Forall_empty.
Qed.

Lemma exec_entries `{!RelayExtLaws X} o w :
  Inv (inner w) -> op_ok w o = true -> entries_ok (inner w) -> entries_ok (inner (exec o w).1).
Proof.
  intros I Hok Hw. destruct o as [e msg tx|tx|tx|now key]; try done.
  - simpl. pose proof (stable_handle e msg tx w Hw) as H. by destruct (handle e msg tx w).
  - simpl in *. destruct (db (inner w)) as [d|] eqn:Hd; [|done]. simpl.
    destruct (relay_open_durable now d (abs (inner w))) as (qs & Ho & Ea); [by apply I|apply I|by apply inv_lt_u64|].
    pose proof (idle_open _ _ _ Ho) as Hi. rewrite Ho. simpl in *. intros q en Hq. specialize (Hi q en Hq). simpl in *. split.
    { unfold rate_ok. rewrite Hi. done. }
    assert (E : (core <$> qs) !! q = Some (core en)) by by rewrite lookup_fmap, Hq.
    rewrite Ea, abs_lookup in E. apply fmap_Some in E as (en0 & Hq0 & E). unfold core in E. injection E as _ E.
    rewrite E. by apply (Hw q en0).
Qed.

Lemma run_entries `{!RelayExtLaws X} ops w :
  Inv (inner w) -> ops_ok ops w = true -> entries_ok (inner w) -> entries_ok (inner (run ops w).1).
Proof.
  revert w. induction ops as [|o ops IH]; intros w I Hok Hw; [done|]. simpl in *. bools.
  pose proof (exec_entries o w I ltac:(done) Hw) as H1. destruct (exec_refines o w I) as [_ I1]; [done|].
  destruct (exec o w) as [w1 l]. simpl in *. specialize (IH w1 I1 ltac:(done) H1). by destruct (run ops w1).
Qed.
End Entries.

(** ** Well-typed states *)

Definition typed_kind (k : QueueKind) : Prop :=
  match k with
  | Mailbox p => Forall (fun m => m.1 = message_id m.2 /\ 0 <= env_len m.2 <= MAX_MESSAGE_SIZE) p
  | GroupInbox ep roster => 0 <= ep < u64_modulus /\ len roster < u32_modulus /\ Forall (fun m => length m = 32%nat) roster
  end.

Record typed (i : Inner) : Prop := {
  ty_queues q en : queues i !! q = Some en ->
    length q = 32%nat /\ length (send_key en) = 32%nat /\
    0 <= sent_this_minute en <= RATE_LIMIT_PER_QUEUE_PER_MINUTE /\ typed_kind (kind en);
  ty_storage : 0 <= storage_bytes_used i <= MAX_STORAGE_BYTES;
  ty_challenges : len (challenge_order i) <= MAX_OUTSTANDING_POW_CHALLENGES /\
    forall c d, outstanding_challenges i !! c = Some d -> c ∈ challenge_order i;
}.

Lemma typed_entries i : typed i -> entries_ok i.
Proof.
  intros T q en Hq. destruct (ty_queues _ T _ _ Hq) as (_ & _ & Hr & Hk). split; [done|].
  unfold typed_kind in Hk. destruct (kind en); [|done]. eapply Forall_impl; [exact Hk|]. by intros m (_ & _ & ?).
Qed.

Lemma typed_from {X : RelayExt} i : Inv i -> entries_ok i -> pow_ok i -> typed i.
Proof.
  intros I He [P1 P2]. split; [|split|done].
  - intros q en Hq. destruct (wf_abs_lookup _ _ _ _ (inv_wf _ I) (abs_lookup_Some _ _ _ Hq)) as (H1 & H2 & H3).
    destruct (He _ _ Hq) as [Hr Hk]. repeat (split; [done|]). unfold typed_kind, wf_kind in *.
    destruct (kind en) as [p|]; [|done]. apply Forall_forall. intros m Hm. rewrite Forall_forall in H3, Hk.
    split; [by apply H3|]. split; [apply env_len_nonneg|by apply Hk].
  - rewrite (inv_acct _ I). apply abytes_nonneg.
  - rewrite (inv_acct _ I). apply I.
Qed.

Section Typed.
Context {X : RelayExt} `{!RelayExtLaws X}.

(** C21: the relay's state stays well-typed over every run, restarts included: queue ids
    and keys of 32 bytes, rate counters within their limit, mailbox messages filed
    under their own id and no larger than the limit, [u64] epochs, rosters of 32-byte
    ids, a storage counter within its bound, and no more challenges than the cap. *)
Theorem state_well_typed ops w :
  Inv (inner w) -> typed (inner w) -> ops_ok ops w = true -> typed (inner (run ops w).1).
Proof.
  intros I T Hok. apply typed_from.
  - by apply run_refines.
  - apply run_entries; [done|done|by apply typed_entries].
  - apply run_pow_ok. by destruct (ty_challenges _ T).
Qed.
End Typed.

Module TypedExamples.
Import RelayToy Scenario.

Lemma boot_typed : typed (inner boot).
Proof. split; [done|done|split; [done|]]. intros c d. simpl. by rewrite lookup_empty. Qed.

Lemma state_well_typed_witness :
  typed (inner (run (setup ++ traffic) boot).1) /\ size (queues (inner (run (setup ++ traffic) boot).1)) = 3%nat.
Proof.
  split; [|vm_compute; reflexivity]. apply (state_well_typed (setup ++ traffic) boot boot_inv boot_typed).
  vm_compute. reflexivity.
Defined.
End TypedExamples.
