(* ===== verification/RelayFindings.v ===== *)
(** * Where the relay does not keep its word

    Four behaviours that contradict the documentation of the code or that no
    caller can want, each as a theorem with a concrete instance. *)

From S2P Require Import Prelude External Proto Relay RelaySpec RelayRefine RelayDurable RelayRun RelayProps RelayTokens.

Section Findings.
Context {X : RelayExt} `{!RelayExtLaws X}.

(** A request whose handling takes the mutex. *)
Definition needs_lock (e : Env) (msg : ClientMessage) (tx : option ChanId) : bool :=
  match msg with
  | SendToMailbox _ _ env | SendToGroupInbox _ _ _ env => env_len env <=? MAX_MESSAGE_SIZE
  | Subscribe _ => match tx with Some _ => true | None => false end
  | RequestPowChallenge => match draws e with [] => false | _ => true end
  | _ => true
  end.

Lemma poisoned_panics e msg tx w :
  poisoned w = true -> needs_lock e msg tx = true -> handle e msg tx w = (w, Panicked).
Proof.
  intros Hp Hl.
  destruct msg as [q tag env|q k tag env|qs|q mid| |s att|s ep roster att]; simpl in *.
  1,2: unfold send_to_mailbox, send_to_group_inbox; rewrite Z.leb_antisym in Hl; apply negb_true_iff in Hl; rewrite Hl.
  5: unfold issue_pow_challenge; destruct (draws e); [done|].
  3: destruct tx; [|done].
  all: unfold reply_of, subscribe, ack, create_mailbox, create_group_inbox, locked; by rewrite Hp.
Qed.

(** A single request can disable a persistent relay: a well-formed
    [CreateGroupInbox] whose initial epoch does not fit SQLite's signed integers
    makes the write-through [expect] panic under the lock, and from then on every
    request that takes the mutex panics too, until the process is restarted. *)
Theorem oversized_epoch_disables_relay e s ep roster d c q key ds w :
  poisoned w = false -> db (inner w) = Some d -> attestation_key (inner w) = None ->
  outstanding_challenges (inner w) !! ps_challenge s = Some c ->
  PowChallenge_verify (mkPowChallenge (ps_challenge s) c) s = true ->
  fresh_queue_id (queues (inner w)) (draws e) = Some (q, key :: ds) ->
  i64_max < ep ->
  exists w', handle e (CreateGroupInbox s ep roster None) None w = (w', Panicked) /\
    forall e' msg tx, needs_lock e' msg tx = true -> handle e' msg tx w' = (w', Panicked).
Proof.
  intros Hp Hd Hk Hc Hv Hf Hep. simpl. unfold create_group_inbox, reply_of, locked. rewrite Hp.
  assert (E : consume_attestation e None w = (w, Done tt)).
  { unfold consume_attestation. by rewrite gets_bind, Hk. }
  rewrite (bind_done _ _ _ _ _ E). clear E.
  assert (E : exists i, consume_pow s w = (set_inner i w, Done tt) /\ queues i = queues (inner w) /\ db i = Some d).
  { unfold consume_pow. autorewrite with run. rewrite Hc. autorewrite with run. rewrite Hv. by eexists. }
  destruct E as (i & E & Hq & Hdb). rewrite (bind_done _ _ _ _ _ E). clear E.
  assert (E : fresh_queue e (set_inner i w) = (set_inner i w, Done (q, key))).
  { unfold fresh_queue. rewrite gets_bind. simpl. by rewrite Hq, Hf. }
  rewrite (bind_done _ _ _ _ _ E). clear E. simpl.
  unfold db_write, mbind, M_bind, bind, gets. simpl. rewrite Hdb.
  assert (E : sql_bind_u64 ep = None) by by apply sql_bind_too_big.
  rewrite E. simpl. replace (if disk_ok e then None else None : option Db) with (@None Db) by by destruct (disk_ok e).
  simpl. eexists. split; [done|]. intros. by apply poisoned_panics.
Qed.

Lemma load_queues_real now rows qs q key :
  (q, (key, SqlReal)) ∈ rows -> load_queues now rows qs = None.
Proof.
  revert qs. induction rows as [|[q0 [key0 ep0]] rows IH]; intros qs H; [set_solver|]. simpl.
  destruct (blob32 q0), (blob32 key0); simpl; try done.
  apply elem_of_cons in H as [E|H]; [by simplify_eq|]. by destruct (sql_column_opt_u64 ep0); simpl; [apply IH|].
Qed.

Lemma t_queues_group_send q b ts mid env d :
  t_queues (group_send_tx q b ts mid env d) = t_queues (if b then sql_bump_epoch q d else d).
Proof.
  unfold group_send_tx. generalize (if b then sql_bump_epoch q d else d). clear.
  induction ts as [|t ts IH]; intros d; [done|]. simpl. by rewrite IH.
Qed.

(** A commit accepted at epoch [i64::MAX] makes the stored epoch overflow to
    a REAL, and the relay cannot be restarted from its database any more. *)
Theorem last_epoch_commit_bricks_database e q tag env tx roster w w' now :
  Inv (inner w) -> is_Some (db (inner w)) ->
  exec (OHandle e (SendToGroupInbox q (Commit i64_max) tag env) tx) w = (w', LGroup q (Commit i64_max) roster env) ->
  exists d, db (inner w') = Some d /\ relay_open now d = None.
Proof.
  intros I [d Hd] H. simpl in H. unfold reply_of in H.
  destruct (send_to_group_inbox e q (Commit i64_max) tag env w) as [w1 [[]| | |]] eqn:E; simpl in H; simplify_eq.
  apply send_to_group_inbox_inv in E
    as [(F & _)|(_ & key & ep & ro & w1 & Hq & _ & Hep & _ & _ & Ha & _ & _ & _ & Hdb & ->)]; [done|].
  unfold epoch_ok in Hep. apply Z.eqb_eq in Hep. subst ep. unfold db_wrote in Hdb. rewrite Hd in Hdb. destruct Hdb as (d' & Hd' & Hdb).
  simplify_eq. eexists. split.
  { assert (Hpush : forall l w, db (inner (foldl (fun w m => push_and_notify m (message_id env) env w) w l)) = db (inner w)).
    { clear. induction l as [|m l IH]; intros w; [done|]. simpl. rewrite IH. apply push_and_notify_inv. }
    rewrite Hpush. simpl. destruct (bump_epoch_inv q (Commit i64_max) (inner w1)) as (_ & _ & -> & _). done. }
  pose proof (durable_row _ _ _ _ _ (inv_db _ I _ Hd) Hq) as Hrow.
  unfold relay_open. rewrite (load_queues_real _ _ _ q key); [done|].
  apply elem_of_map_to_list. rewrite t_queues_group_send. simpl. by rewrite lookup_alter_eq, Hrow.
Qed.

End Findings.

Section FindingWitnesses.
Import Scenario ToyInstances RelayToy.

Lemma oversized_epoch_disables_relay_witness :
  let w := (run (setup ++ [ask 4 210]) boot).1 in
  exists w', handle (at_ 5 [idq 9; idq 109]) (CreateGroupInbox (solved 210) (i64_max + 1) [] None) None w = (w', Panicked) /\
    handle (at_ 6 []) (Ack (idq 1) [1]) None w' = (w', Panicked).
Proof.
  intros w. destruct (db (inner w)) as [d|] eqn:Hd; [|exfalso; revert Hd; vm_compute; discriminate].
  destruct (oversized_epoch_disables_relay (at_ 5 [idq 9; idq 109]) (solved 210) (i64_max + 1) [] d
              QUEUE_CREATION_POW_DIFFICULTY (idq 9) (idq 109) [] w) as (w' & H1 & H2).
  - vm_compute. reflexivity.
  - exact Hd.
  - vm_compute. reflexivity.
  - vm_compute. reflexivity.
  - vm_compute. reflexivity.
  - vm_compute. reflexivity.
  - apply Z.ltb_lt. vm_compute. reflexivity.
  - exists w'. split; [exact H1|]. apply H2. reflexivity.
Defined.

(** An inbox created at the last epoch SQLite can hold. *)
Definition last_epoch_inbox : list Op :=
  [ask 4 210; OHandle (at_ 4 [idq 4; idq 104]) (CreateGroupInbox (solved 210) i64_max [idq 1] None) None].
Definition last_commit : Op :=
  OHandle (at_ 5 []) (SendToGroupInbox (idq 4) (Commit i64_max) (compute_tag (idq 104) (idq 4) (env 1)) (env 1)) None.

Lemma last_epoch_commit_bricks_database_witness :
  let w' := (exec last_commit (run last_epoch_inbox ready).1).1 in
  exists d, db (inner w') = Some d /\ relay_open 9 d = None.
Proof.
  intros w'. eapply (last_epoch_commit_bricks_database (at_ 5 []) (idq 4)
    (compute_tag (idq 104) (idq 4) (env 1)) (env 1) None [idq 1] (run last_epoch_inbox ready).1 w' 9).
  - apply (run_refines last_epoch_inbox ready ready_inv). vm_compute. reflexivity.
  - apply (bool_decide_unpack (is_Some _)). vm_compute. exact I.
  - vm_compute. reflexivity.
Defined.

(** The fan-out does not respect [MAX_QUEUE_DEPTH]: there is a run in which a
    mailbox ends up holding more undelivered entries than the cap, which the cap's
    documentation says fan-out entries count against. *)
Theorem fan_out_exceeds_queue_depth :
  exists ops en p, ops_ok ops relay_new = true /\
    queues (inner (run ops relay_new).1) !! idq 1 = Some en /\ kind en = Mailbox p /\ MAX_QUEUE_DEPTH < len p.
Proof.
  set (big := OHandle (at_ 4 [idq 4; idq 104])
                (CreateGroupInbox (solved 210) 0 (replicate 1001 (idq 1)) None) None).
  set (tiny := mkEnvelope [] RelayFanout []).
  set (blast := OHandle (at_ 5 []) (SendToGroupInbox (idq 4) Application
                  (compute_tag (idq 104) (idq 4) tiny) tiny) None).
  exists (setup ++ [ask 4 210; big; blast]), (mkEntry (idq 101) (Mailbox (replicate 1001 ([], tiny))) 0 (secs 1)), (replicate 1001 ([], tiny)).
  split; [vm_compute; reflexivity|]. split; [vm_compute; reflexivity|]. split; [reflexivity|].
  apply Z.ltb_lt. vm_compute. reflexivity.
Qed.

(** An attestation token can be spent again before it expires: the spent
    nonces live in memory only, and a restart forgets them. *)
Theorem attestation_replayable_after_restart :
  let create1 := OHandle (at_ 2 [idq 1; idq 101]) (create 201) None in
  let create2 := OHandle (at_ 4 [idq 2; idq 102]) (create 202) None in
  (run [ask 1 201; create1; ORestart 3 (Some [42]); ask 4 202; create2] gated).2
    = [LTau; LCreated (idq 1) (idq 101) (Mailbox []); LTau; LTau; LCreated (idq 2) (idq 102) (Mailbox [])].
Proof. vm_compute. reflexivity. Qed.

End FindingWitnesses.
