(* ===== verification/RelayNet.v ===== *)
(** * The relay's connections and identity (relay/src/net.rs, identity.rs)

    The loop that reads a connection's frames and posts a reply to each; how a
    connection's tasks wind up; the identity file; and the fingerprint as it is printed
    and as the CLI reads it (cli/src/main.rs). *)

From S2P Require Import Prelude Text External Proto ProtoProps Relay.

(** ** handle_connection *)

(** How the reading loop ends: the client closed the connection, a frame could not be
    read, the handler panicked, or it is still at work. *)
Inductive loop_end := ClientClosed | FrameError (e : ReadFrameError) | HandlerPanicked | StillServing.

Section Net.
Context {X : RelayExt} `{Bincode ClientFrame}.

(** Every turn reads a frame off the bytes the client sends before it closes, answers
    it, and posts the reply under the frame's request id. [envs] is what each call
    sees of the machine. *)
Fixpoint connection_loop (fuel : nat) (envs : nat -> Env) (tx : ChanId) (stream : bytes) (w : World)
  : World * list ServerFrame * loop_end :=
  match fuel with
  | O => (w, [], StillServing)
  | S fuel' =>
      match read_frame stream with
      | (Err Closed, _) => (w, [], ClientClosed)
      | (Err e, _) => (w, [], FrameError e)
      | (Ok frame, rest) =>
          match handle (envs 0%nat) (cf_message frame) (Some tx) w with
          | (w', Done m) =>
              let '(w'', out, r) := connection_loop fuel' (fun n => envs (S n)) tx rest w' in
              (w'', Reply (cf_request_id frame) m :: out, r)
          | (w', OutOfEntropy) => (w', [], StillServing)
          | (w', _) => (w', [], HandlerPanicked)
          end
      end
  end.

Definition handle_connection (envs : nat -> Env) (tx : ChanId) (stream : bytes) (w : World) : World * list ServerFrame * loop_end :=
  connection_loop (S (length stream)) envs tx stream w.

(** The requests one after the other, as the specification of a connection. *)
Fixpoint serve_requests (frames : list ClientFrame) (envs : nat -> Env) (tx : ChanId) (w : World)
  : World * list ServerFrame * loop_end :=
  match frames with
  | [] => (w, [], ClientClosed)
  | f :: fs =>
      match handle (envs 0%nat) (cf_message f) (Some tx) w with
      | (w', Done m) =>
          let '(w'', out, r) := serve_requests fs (fun n => envs (S n)) tx w' in
          (w'', Reply (cf_request_id f) m :: out, r)
      | (w', OutOfEntropy) => (w', [], StillServing)
      | (w', _) => (w', [], HandlerPanicked)
      end
  end.

Definition reply_id (f : ServerFrame) : option Z := match f with Reply i _ => Some i | Push _ _ => None end.

Context {BL : BincodeLaws ClientFrame}.

Lemma connection_loop_frames fuel frames cut envs tx w :
  Forall fits_frame frames -> len cut < 4 -> (length frames < fuel)%nat ->
  connection_loop fuel envs tx (concat (write_frame <$> frames) ++ cut) w = serve_requests frames envs tx w.
Proof.
  intros Hf Hc. revert fuel envs w. induction Hf as [|f fs Hf Hfs IH]; intros fuel envs w Hl.
  - destruct fuel; [simpl in Hl; lia|]. simpl. unfold read_frame. destruct (Z.ltb_spec (len cut) 4); [done|lia].
  - destruct fuel; [simpl in Hl; lia|]. cbn [connection_loop serve_requests fmap list_fmap concat].
    rewrite <- app_assoc. rewrite read_write_frame by done.
    destruct (handle _ _ _ w) as [w' [m|c| |]]; [|done|done|done]. rewrite IH by (simpl in Hl; lia). done.
Qed.

Lemma serve_requests_ids frames envs tx w w' out r :
  serve_requests frames envs tx w = (w', out, r) ->
  (omap reply_id out) `prefix_of` (cf_request_id <$> frames) /\
  (r = ClientClosed -> omap reply_id out = cf_request_id <$> frames) /\ length (omap reply_id out) = length out.
Proof.
  revert envs w w' out r. induction frames as [|f fs IH]; intros envs w w' out r; simpl.
  - intros [= <- <- <-]. split; [apply prefix_nil|]. by split.
  - destruct (handle _ _ _ w) as [w1 [m|c| |]]; [|by intros [= <- <- <-]; (split; [apply prefix_nil|by split])..].
    destruct (serve_requests fs _ tx w1) as [[w2 out'] r'] eqn:E. intros [= <- <- <-].
    apply IH in E as (H1 & H2 & H3). csimpl. split; [by apply prefix_cons|]. split; [|exact (f_equal S H3)].
    intros Hr. by rewrite H2.
Qed.

(** A connection answers its requests in order. Whatever requests a client pipelines
    on one connection, each within the frame limit, the relay handles them one after the
    other, exactly as the list of requests says, and posts for each one reply under its
    request id, in the same order; the loop always ends, also when the client's last
    frame is cut off in its length field; and when it ends because the client closed,
    every request has its reply. *)
Theorem replies_in_order frames cut envs tx w w' out r :
  Forall fits_frame frames -> len cut < 4 ->
  handle_connection envs tx (concat (write_frame <$> frames) ++ cut) w = (w', out, r) ->
  serve_requests frames envs tx w = (w', out, r) /\
  omap reply_id out `prefix_of` (cf_request_id <$> frames) /\ length (omap reply_id out) = length out /\
  (r = ClientClosed -> omap reply_id out = cf_request_id <$> frames).
Proof.
  intros Hf Hc Hh. unfold handle_connection in Hh. rewrite connection_loop_frames in Hh; [|done|done|].
  - split; [done|]. apply serve_requests_ids in Hh as (H1 & H2 & H3). done.
  - rewrite length_app. assert (Hl : (length frames <= length (concat (write_frame <$> frames)))%nat); [|lia].
    clear. induction frames as [|f fs IH]; csimpl; [lia|]. rewrite length_app.
    assert (4 <= length (write_frame f))%nat; [|lia].
    unfold write_frame. cbv zeta. rewrite length_app, length_to_le_bytes. lia.
Qed.
End Net.

(** ** Winding up

    After the loop, [handle_connection] drops its sender of the outgoing channel, waits
    for the writer and then aborts the forwarder. The forwarder holds the other sender
    of the outgoing channel, and ends when the push channel has no senders left: the
    relay's subscriptions and the handler's own [push_tx]. *)

Record Winding := mkWinding {
  w_finished : bool;      (** the handler returned, dropping its [push_tx] *)
  w_forward : bool;       (** the forwarder runs *)
  w_writer : bool;        (** the writer runs *)
  w_subs : nat;           (** senders in the relay's subscriber lists *)
  w_pushes : nat;
  w_out : nat;
}.

Inductive wind := RelayPushes | RelayUnsubscribes | Forwards | ForwarderEnds | Writes | WriteFails | WriterEnds | HandlerReturns.

(** One step of a task; [None] when it cannot be taken. *)
Definition wind_step (e : wind) (c : Winding) : option Winding :=
  match e with
  | RelayPushes =>
      if w_forward c then match w_subs c with O => None
        | S _ => Some (mkWinding (w_finished c) (w_forward c) (w_writer c) (w_subs c) (S (w_pushes c)) (w_out c)) end
      else None
  | RelayUnsubscribes =>
      match w_subs c with O => None
      | S n => Some (mkWinding (w_finished c) (w_forward c) (w_writer c) n (w_pushes c) (w_out c)) end
  | Forwards =>
      if w_forward c then match w_pushes c with O => None
        | S n => Some (if w_writer c then mkWinding (w_finished c) true true (w_subs c) n (S (w_out c))
                       else mkWinding (w_finished c) false false (w_subs c) n (w_out c)) end
      else None
  | ForwarderEnds =>
      if w_forward c && w_finished c && (w_subs c =? 0)%nat && (w_pushes c =? 0)%nat
      then Some (mkWinding (w_finished c) false (w_writer c) (w_subs c) (w_pushes c) (w_out c)) else None
  | Writes =>
      if w_writer c then match w_out c with O => None
        | S n => Some (mkWinding (w_finished c) (w_forward c) true (w_subs c) (w_pushes c) n) end
      else None
  | WriteFails =>
      if w_writer c then match w_out c with O => None
        | S _ => Some (mkWinding (w_finished c) (w_forward c) false (w_subs c) (w_pushes c) 0) end
      else None
  | WriterEnds =>
      if w_writer c && negb (w_forward c) && (w_out c =? 0)%nat
      then Some (mkWinding (w_finished c) (w_forward c) false (w_subs c) (w_pushes c) (w_out c)) else None
  | HandlerReturns =>
      if negb (w_writer c) && negb (w_finished c)
      then Some (mkWinding true false (w_writer c) (w_subs c) (w_pushes c) (w_out c)) else None
  end.

Fixpoint wind_run (es : list wind) (c : Winding) : option Winding :=
  match es with
  | [] => Some c
  | e :: es' => c' ← wind_step e c; wind_run es' c'
  end.

(** The tasks when the loop has ended on a closed connection. *)
Definition just_closed (subs pushes out : nat) : Winding := mkWinding false true true subs pushes out.

(** A connection that the client closes in an orderly way is never wound up unless a
    write to it fails: whatever pushes, unsubscriptions and writes happen, the handler
    keeps waiting for the writer, the writer for the forwarder's sender and the
    forwarder for the handler's, and all three tasks stay. A failed write, which takes
    another push, lets the handler return. *)
Theorem closed_connection_lingers subs pushes out :
  (forall es c, WriteFails ∉ es -> wind_run es (just_closed subs pushes out) = Some c ->
     w_finished c = false /\ w_writer c = true /\ w_forward c = true) /\
  (exists c, wind_run [RelayPushes; Forwards; WriteFails; HandlerReturns] (just_closed (S subs) pushes out) = Some c /\
     w_finished c = true).
Proof.
  split; [|by eexists].
  assert (H : forall es c0 c, w_finished c0 = false -> w_writer c0 = true -> w_forward c0 = true -> WriteFails ∉ es ->
     wind_run es c0 = Some c -> w_finished c = false /\ w_writer c = true /\ w_forward c = true).
  { induction es as [|e es IH]; intros c0 c H1 H2 H3 Hn; simpl; [by intros [= <-]|].
    destruct (wind_step e c0) as [c1|] eqn:E; simpl; [|done].
    apply not_elem_of_cons in Hn as [He Hn]. apply IH; [..|done]; clear IH;
      destruct c0 as [? ? ? ns np no], e; simpl in *; subst; try done; destruct ns, np, no; by simplify_eq/=. }
  intros es c Hn. by apply H.
Qed.

(** ** identity.rs *)

Record RelayIdentity := mkIdentity { cert_der : bytes; key_der : bytes; fingerprint : bytes }.

Section Identity.
Context `{Sha256}.

Definition fingerprint_of (cert : bytes) : bytes := sha256 cert.

(** [generate], with the certificate and key that rcgen made. *)
Definition identity_generate (cert key : bytes) : RelayIdentity := mkIdentity cert key (fingerprint_of cert).

Definition to_file_bytes (i : RelayIdentity) : bytes :=
  to_le_bytes 4 (wrap32 (len (cert_der i))) ++ cert_der i ++ key_der i.

Definition from_file_bytes (bs : bytes) : option RelayIdentity :=
  if len bs <? 4 then None
  else
    let cert_len := from_le_bytes (take 4 bs) in
    let rest := drop 4 bs in
    if len rest <? cert_len then None
    else
      let cert := take (Z.to_nat cert_len) rest in
      let key := drop (Z.to_nat cert_len) rest in
      if bool_decide (key = []) then None else Some (mkIdentity cert key (fingerprint_of cert)).

Inductive FileRead := Contents (bs : bytes) | NotFound | ReadFailed.

(** What the file holds afterwards, and the identity; [fresh] is what [generate]
    would make, [ok] whether the file can be written. *)
Definition load_or_create (ok : bool) (fresh : RelayIdentity) (f : FileRead) : FileRead * option RelayIdentity :=
  match f with
  | Contents bs => (f, from_file_bytes bs)
  | NotFound => if ok then (Contents (to_file_bytes fresh), Some fresh) else (f, None)
  | ReadFailed => (f, None)
  end.

Definition fingerprint_hex (i : RelayIdentity) : bytes := hex (fingerprint i).

(** The CLI's parser; the outer [None] is the panic of a slice inside a character. *)
Definition parse_fingerprint (s : bytes) : option (result bytes unit) :=
  let s := trim s in
  if negb (len s =? 64) then Some (Err tt)
  else match decode_hex_pairs s with
       | None => None
       | Some None => Some (Err tt)
       | Some (Some bs) => Some (Ok bs)
       end.

Context `{!Sha256Laws}.

Lemma identity_file_roundtrip cert key :
  len cert < 2 ^ 32 -> key <> [] ->
  from_file_bytes (to_file_bytes (identity_generate cert key)) = Some (identity_generate cert key).
Proof.
  intros Hc Hk. unfold to_file_bytes, from_file_bytes, identity_generate. simpl cert_der. simpl key_der.
  pose proof (len_nonneg cert). pose proof (len_nonneg key).
  assert (Hhd : length (to_le_bytes 4 (wrap32 (len cert))) = 4%nat) by apply length_to_le_bytes.
  assert (Hw : wrap32 (len cert) = len cert) by (apply wrap32_small; unfold u32_modulus; lia).
  assert (Hn : from_le_bytes (to_le_bytes 4 (len cert)) = len cert)
    by (apply from_to_le_bytes; change (256 ^ Z.of_nat 4) with 4294967296; lia).
  rewrite !len_app. assert (H4 : len (to_le_bytes 4 (wrap32 (len cert))) = 4) by (unfold len at 1; by rewrite Hhd).
  rewrite H4. destruct (Z.ltb_spec (4 + (len cert + len key)) 4); [lia|].
  rewrite take_app_length', drop_app_length' by done. rewrite Hw, Hn, len_app.
  destruct (Z.ltb_spec (len cert + len key) (len cert)); [lia|].
  assert (Hz : Z.to_nat (len cert) = length cert) by (unfold len; lia).
  rewrite Hz, take_app_length, drop_app_length. by rewrite bool_decide_eq_false_2.
Qed.

Lemma hex_fingerprint_decodes (i : RelayIdentity) :
  fingerprint i = fingerprint_of (cert_der i) ->
  trim (fingerprint_hex i) = fingerprint_hex i /\ len (fingerprint_hex i) = 64 /\
  decode_hex_pairs (fingerprint_hex i) = Some (Some (fingerprint i)).
Proof.
  intros E. assert (Hb : are_bytes (fingerprint i)) by (rewrite E; apply sha256_bytes). unfold fingerprint_hex.
  split; [by apply trim_visible, hex_visible|]. split; [|by apply decode_hex_roundtrip].
  rewrite hex_length. unfold len. rewrite E. unfold fingerprint_of. by rewrite sha256_length.
Qed.
End Identity.

(** ** Examples *)

Module NetExamples.
Import ToyInstances RelayToy.

#[export] Instance kind_eq_dec : EqDecision GroupSendKind.
Proof. solve_decision. Defined.
#[export] Instance kind_countable : Countable GroupSendKind.
Proof.
  refine (inj_countable' (fun k => match k with Commit e => Some e | Application => None end)
            (fun o => match o with Some e => Commit e | None => Application end) _). by intros [].
Defined.
#[export] Instance solution_eq_dec : EqDecision PowSolution.
Proof. solve_decision. Defined.
#[export] Instance solution_countable : Countable PowSolution.
Proof. refine (inj_countable' (fun s => (ps_challenge s, nonce s)) (fun '(a, b) => mkPowSolution a b) _). by intros []. Defined.
#[export] Instance token_eq_dec : EqDecision AttestationToken.
Proof. solve_decision. Defined.
#[export] Instance token_countable : Countable AttestationToken.
Proof.
  refine (inj_countable' (fun t => (token_nonce t, expires_at t, signature t)) (fun '(a, b, c) => mkToken a b c) _). by intros [].
Defined.
#[export] Instance message_eq_dec : EqDecision ClientMessage.
Proof. solve_decision. Defined.
#[export] Instance message_countable : Countable ClientMessage.
Proof.
  refine (inj_countable'
    (fun m => match m with
     | SendToMailbox q t e => inl (inl (q, t, e))
     | SendToGroupInbox q k t e => inl (inr (q, k, t, e))
     | Subscribe qs => inr (inl (inl qs))
     | Ack q i => inr (inl (inr (q, i)))
     | RequestPowChallenge => inr (inr (inl None))
     | CreateMailbox s a => inr (inr (inl (Some (s, a))))
     | CreateGroupInbox s e f a => inr (inr (inr (s, e, f, a)))
     end)
    (fun x => match x with
     | inl (inl (q, t, e)) => SendToMailbox q t e
     | inl (inr (q, k, t, e)) => SendToGroupInbox q k t e
     | inr (inl (inl qs)) => Subscribe qs
     | inr (inl (inr (q, i))) => Ack q i
     | inr (inr (inl None)) => RequestPowChallenge
     | inr (inr (inl (Some (s, a)))) => CreateMailbox s a
     | inr (inr (inr (s, e, f, a))) => CreateGroupInbox s e f a
     end) _). by intros [].
Defined.
#[export] Instance frame_eq_dec : EqDecision ClientFrame.
Proof. solve_decision. Defined.
#[export] Instance frame_countable : Countable ClientFrame.
Proof. refine (inj_countable' (fun f => (cf_request_id f, cf_message f)) (fun '(a, b) => mkClientFrame a b) _). by intros []. Defined.

Definition requests : list ClientFrame := [mkClientFrame 7 (Subscribe [[1]]); mkClientFrame 3 (Ack [1] [2])].
Definition machine : nat -> Env := fun _ => mkEnv 0 0 [] true.
Definition served : World * list ServerFrame * loop_end := serve_requests requests machine 1 relay_new.

Lemma requests_fit : Forall fits_frame requests.
Proof. repeat constructor; vm_compute; discriminate. Qed.
Lemma served_eq : handle_connection machine 1 (concat (write_frame <$> requests) ++ [0]) relay_new
  = ((served.1.1, served.1.2), served.2).
Proof. vm_compute. reflexivity. Qed.

Lemma replies_in_order_witness : served.2 = ClientClosed /\ omap reply_id served.1.2 = [7; 3].
Proof.
  split; [vm_compute; reflexivity|].
  destruct (replies_in_order requests [0] machine 1 relay_new _ _ _ requests_fit eq_refl served_eq) as (_ & _ & _ & H).
  apply H. vm_compute. reflexivity.
Defined.
End NetExamples.
