(* ===== verification/RelayServe.v ===== *)
(** * The relay as a server (relay/src/net.rs)

    [serve_on] accepts connections and runs [handle_connection] for each: a handler
    that reads requests, a forwarder of the connection's pushes and a writer, which
    share two channels. The tasks of all connections interleave; the relay's state is
    behind one mutex, so the requests themselves do not. The state of a connection
    carries its history: what the client sent, what was answered, what was written.
    A failing [accept] ends the process, and with it the run. *)

From S2P Require Import Prelude Text External Proto ProtoProps Relay RelaySpec RelayRefine RelayDurable RelayRun RelayProps RelayPush RelayNet.

(** ** Connections *)

Inductive handler_state :=
| Reading
| Closing     (** out of the loop, its sender dropped, waiting for the writer *)
| Returned.

Record Connection := mkConnection {
  received : bytes;                               (** what the client has sent *)
  unread : bytes;                                 (** what of it was not answered yet *)
  hung_up : bool;                                 (** the client sends no more *)
  handler : handler_state;
  answered : list (ClientFrame * ServerMessage);  (** the requests handled, with their replies *)
  forwarder : bool;                               (** the forwarder runs *)
  forwarded : nat;                                (** pushes it has taken off its channel *)
  writer : bool;                                  (** the writer runs *)
  outgoing : list ServerFrame;
  written : list ServerFrame;
}.

Definition connection_new : Connection := mkConnection [] [] false Reading [] true 0 true [] [].

Record Server := mkServer { world : World; conns : gmap ChanId Connection }.

(** What the client can read: the frames written, as bytes. *)
Definition wire `{Bincode ServerFrame} (k : Connection) : bytes := concat (write_frame <$> written k).

(** One step of a task, or of the outside world. *)
Inductive event :=
| Accepts (c : ChanId)             (** a connection whose handshake succeeds *)
| HandshakeFails
| Receives (c : ChanId) (bs : bytes)
| HangsUp (c : ChanId)
| Turns (c : ChanId) (e : Env)     (** a turn of the handler's loop *)
| ReadFails (c : ChanId)           (** the connection breaks under the handler *)
| Returns (c : ChanId)             (** the handler, once its writer has ended *)
| Forwards (c : ChanId)
| ForwarderStops (c : ChanId)
| Writes (c : ChanId)
| WriteFails (c : ChanId)
| WriterStops (c : ChanId).

(** Field updates. *)
Definition receive (bs : bytes) (k : Connection) : Connection :=
  mkConnection (received k ++ bs) (unread k ++ bs) (hung_up k) (handler k) (answered k) (forwarder k) (forwarded k) (writer k)
    (outgoing k) (written k).
Definition hang_up (k : Connection) : Connection :=
  mkConnection (received k) (unread k) true (handler k) (answered k) (forwarder k) (forwarded k) (writer k) (outgoing k) (written k).
Definition set_handler (h : handler_state) (k : Connection) : Connection :=
  mkConnection (received k) (unread k) (hung_up k) h (answered k) (forwarder k) (forwarded k) (writer k) (outgoing k) (written k).
Definition stop_forwarder (k : Connection) : Connection :=
  mkConnection (received k) (unread k) (hung_up k) (handler k) (answered k) false (forwarded k) (writer k) (outgoing k) (written k).
Definition stop_writer (k : Connection) : Connection :=
  mkConnection (received k) (unread k) (hung_up k) (handler k) (answered k) (forwarder k) (forwarded k) false [] (written k).

(** [Reply] posted for [f]; when the writer is gone the post fails and the loop ends. *)
Definition answer_frame (f : ClientFrame) (m : ServerMessage) (rest : bytes) (k : Connection) : Connection :=
  mkConnection (received k) rest (hung_up k) (if writer k then Reading else Closing) (answered k ++ [(f, m)]) (forwarder k)
    (forwarded k) (writer k) (if writer k then outgoing k ++ [Reply (cf_request_id f) m] else outgoing k) (written k).

Definition forward_push (p : PushMsg) (k : Connection) : Connection :=
  mkConnection (received k) (unread k) (hung_up k) (handler k) (answered k) true (S (forwarded k)) true
    (outgoing k ++ [Push p.1.1 p.2]) (written k).

Definition write_next (k : Connection) : option Connection :=
  match outgoing k with
  | f :: fs => Some (mkConnection (received k) (unread k) (hung_up k) (handler k) (answered k) (forwarder k) (forwarded k)
                       (writer k) fs (written k ++ [f]))
  | [] => None
  end.

Definition is_reading (h : handler_state) : bool := match h with Reading => true | _ => false end.
Definition is_returned (h : handler_state) : bool := match h with Returned => true | _ => false end.

(** Senders of the connection's push channel in the relay's subscriber lists. *)
Definition subscribed (c : ChanId) (i : Inner) : bool :=
  existsb (fun qs : QueueId * list ChanId => bool_decide (c ∈ qs.2)) (map_to_list (subscribers i)).

Section Serve.
Context {X : RelayExt} `{Bincode ClientFrame}.
Implicit Types (s : Server) (k : Connection) (c : ChanId).

(** An operation of the relay, and the connection's new state. *)
Definition update (c : ChanId) (o : option Op) (k : Connection) (s : Server) : Server * list Op :=
  match o with
  | Some o => (mkServer (exec o (world s)).1 (<[c:=k]> (conns s)), [o])
  | None => (mkServer (world s) (<[c:=k]> (conns s)), [])
  end.

(** A turn of the reading loop. Without a whole frame it waits, unless the client has
    hung up; a panic unwinds the handler. *)
Definition turn (c : ChanId) (e : Env) (k : Connection) (w : World) : option (option Op * Connection) :=
  match (read_frame (unread k) : result ClientFrame ReadFrameError * bytes) with
  | (Ok f, rest) =>
      let o := OHandle e (cf_message f) (Some c) in
      match (handle e (cf_message f) (Some c) w).2 with
      | Done m => Some (Some o, answer_frame f m rest k)
      | OutOfEntropy => None
      | _ => Some (Some o, set_handler Returned k)
      end
  | (Err Closed, _) => if hung_up k then Some (None, set_handler Closing k) else None
  | (Err Io, _) => if hung_up k then Some (None, set_handler Returned k) else None
  | (Err _, _) => Some (None, set_handler Returned k)
  end.

(** The next push of a connection's channel. *)
Definition next_push (c : ChanId) (k : Connection) (w : World) : option PushMsg := sent w c !! forwarded k.

(** A step of one connection: the relay's operation it performs, and the connection
    afterwards; [None] when its task cannot take it. *)
Definition conn_move (ev : event) (c : ChanId) (k : Connection) (w : World) : option (option Op * Connection) :=
  match ev with
  | Receives _ bs => if hung_up k then None else Some (None, receive bs k)
  | HangsUp _ => Some (None, hang_up k)
  | Turns _ e => if is_reading (handler k) then turn c e k w else None
  | ReadFails _ => if is_reading (handler k) then Some (None, set_handler Returned k) else None
  | Returns _ =>
      match handler k with
      | Closing =>
          if writer k then None
          else Some (if forwarder k then Some (ODisconnect c) else None, stop_forwarder (set_handler Returned k))
      | _ => None
      end
  | Forwards _ =>
      if forwarder k then
        p ← next_push c k w;
        Some (if writer k then (None, forward_push p k) else (Some (ODisconnect c), stop_forwarder k))
      else None
  | ForwarderStops _ =>
      match next_push c k w with
      | None =>
          if forwarder k && is_returned (handler k) && negb (subscribed c (inner w))
          then Some (Some (ODisconnect c), stop_forwarder k) else None
      | Some _ => None
      end
  | Writes _ => if writer k then k' ← write_next k; Some (None, k') else None
  | WriteFails _ => if writer k && bool_decide (outgoing k <> []) then Some (None, stop_writer k) else None
  | WriterStops _ =>
      if writer k && bool_decide (outgoing k = []) && negb (is_reading (handler k)) && negb (forwarder k)
      then Some (None, stop_writer k) else None
  | Accepts _ | HandshakeFails => None
  end.

Definition event_of (ev : event) : option ChanId :=
  match ev with
  | Accepts _ | HandshakeFails => None
  | Receives c _ | HangsUp c | Turns c _ | ReadFails c | Returns c | Forwards c | ForwarderStops c
  | Writes c | WriteFails c | WriterStops c => Some c
  end.

(** A new connection has a push channel of its own. *)
Definition net_step (ev : event) (s : Server) : option (Server * list Op) :=
  match ev with
  | Accepts c =>
      match conns s !! c, chans (world s) !! c with
      | None, None => Some (update c (Some (OConnect c)) connection_new s)
      | _, _ => None
      end
  | HandshakeFails => Some (s, [])
  | _ => c ← event_of ev; k ← conns s !! c; '(o, k') ← conn_move ev c k (world s); Some (update c o k' s)
  end.

Fixpoint net_run (evs : list event) (s : Server) : option (Server * list Op) :=
  match evs with
  | [] => Some (s, [])
  | ev :: evs' =>
      '(s1, os) ← net_step ev s;
      '(s2, os') ← net_run evs' s1;
      Some (s2, os ++ os')
  end.

(** ** The relay behind the server *)

Lemma update_world c o k s s' os : update c o k s = (s', os) -> world s' = (run os (world s)).1.
Proof. destruct o as [o|]; simpl; intros; simplify_eq; simpl; [|done]. by destruct (exec o (world s)). Qed.

(** A step is a new connection, a failed handshake, or a move of one connection. *)
Lemma net_step_cases ev s s' os :
  net_step ev s = Some (s', os) ->
  (exists c, ev = Accepts c /\ conns s !! c = None /\ chans (world s) !! c = None /\
     update c (Some (OConnect c)) connection_new s = (s', os)) \/
  (s' = s /\ os = []) \/
  (exists c k o k', conns s !! c = Some k /\ conn_move ev c k (world s) = Some (o, k') /\ update c o k' s = (s', os)).
Proof.
  assert (H0 : forall c, (k ← conns s !! c; '(o, k') ← conn_move ev c k (world s); Some (update c o k' s)) = Some (s', os) ->
    exists c k o k', conns s !! c = Some k /\ conn_move ev c k (world s) = Some (o, k') /\ update c o k' s = (s', os)).
  { intros c (k & Hk & Hs)%bind_Some. apply bind_Some in Hs as ([o k'] & Hm & Hs). simplify_eq. by exists c, k, o, k'. }
  destruct ev; cbn [net_step event_of]; try (intros Hs; right; right; exact (H0 _ Hs)).
  - repeat case_match; try done. intros Hs. injection Hs as <- <-. left. by exists c.
  - intros [= <- <-]. right. by left.
Qed.

Lemma run_app os os' w : (run (os ++ os') w).1 = (run os' (run os w).1).1.
Proof.
  revert w. induction os as [|o os IH]; intros w; [done|]. cbn [app run]. destruct (exec o w) as [w1 l]. specialize (IH w1).
  destruct (run (os ++ os') w1), (run os w1). done.
Qed.

(** ** Channels only grow *)

Definition log (cs : gmap ChanId Channel) (c : ChanId) : list PushMsg := from_option ch_sent [] (cs !! c).
Definition grows (cs cs' : gmap ChanId Channel) : Prop := forall c, log cs c `prefix_of` log cs' c.

#[local] Instance grows_preorder : PreOrder grows.
Proof. split; [by intros cs c|]. intros a b d Hab Hbd c. etrans; [apply Hab|apply Hbd]. Qed.

Lemma chan_send_grows c msg cs : grows cs (chan_send c msg cs).1.
Proof.
  intros c'. rewrite chan_send_spec. simpl. case_match; [|done]. unfold log.
  destruct (decide (c = c')) as [<-|]; [rewrite lookup_alter_eq|by rewrite lookup_alter_ne].
  destruct (cs !! c); [|done]. simpl. by apply prefix_app_r.
Qed.

Lemma notify_grows l msg cs : grows cs (notify l msg cs).1.
Proof.
  revert cs. induction l as [|c l IH]; intros cs; [done|]. simpl. pose proof (chan_send_grows c msg cs) as H1.
  destruct (chan_send c msg cs) as [cs1 ok]. specialize (IH cs1). destruct (notify l msg cs1) as [cs2 kept]. by etrans.
Qed.

Lemma push_grows q mid env w : grows (chans w) (chans (push_and_notify q mid env w)).
Proof.
  unfold push_and_notify, push_subs. simpl. case_match; [|done].
  match goal with |- context [notify ?l ?m ?cs] => pose proof (notify_grows l m cs) as Hn; destruct (notify l m cs) end. exact Hn.
Qed.

Lemma push_all_grows roster mid env w : grows (chans w) (chans (foldl (fun w m => push_and_notify m mid env w) w roster)).
Proof.
  revert w. induction roster as [|m ms IH]; intros w; [done|]. cbn [foldl]. etrans; [apply (push_grows m mid env)|apply IH].
Qed.

Lemma drain_pending_grows tx q p cs : grows cs (drain_pending tx q p cs).1.
Proof.
  revert cs. induction p as [|[mid env] p IH]; intros cs; [done|]. simpl. pose proof (chan_send_grows tx (q, mid, env) cs) as H1.
  destruct (chan_send tx (q, mid, env) cs) as [cs1 []]; [|done]. etrans; [exact H1|apply IH].
Qed.

Lemma drain_queues_grows tx i qs cs : grows cs (drain_queues tx i qs cs).
Proof.
  revert cs. induction qs as [|q qs IH]; intros cs; [done|]. simpl.
  pose proof (drain_pending_grows tx q (default [] (mailbox_pending i q)) cs) as H1.
  destruct (drain_pending tx q _ cs) as [cs1 []]; [|done]. etrans; [exact H1|apply IH].
Qed.

Lemma same_push_grows w w' : same_push w w' -> grows (chans w) (chans w').
Proof. by intros [-> _]. Qed.

Lemma handle_grows e msg tx w : grows (chans w) (chans (handle e msg tx w).1).
Proof.
  destruct (handle e msg tx w) as [w' r] eqn:Hh. simpl.
  destruct msg as [q tag env|q kd tag env|qs|q mid| |so att|so ep roster att]; simpl in Hh.
  - apply reply_of_inv in Hh as (r0 & Hh & _).
    apply send_to_mailbox_inv in Hh as [(_ & _ & S)|(_ & key & p & w1 & _ & _ & _ & _ & _ & _ & _ & _ & S2 & _ & ->)];
      [by apply same_push_grows|]. rewrite <- S2. apply push_grows.
  - apply reply_of_inv in Hh as (r0 & Hh & _).
    apply send_to_group_inbox_inv in Hh
      as [(_ & _ & S)|(_ & key & ep & roster & w1 & _ & _ & _ & _ & _ & _ & _ & _ & S2 & _ & ->)];
      [by apply same_push_grows|]. rewrite <- S2. etrans; [|apply push_all_grows]. done.
  - destruct tx as [tx|]; [|by unfold ret in Hh; simplify_eq]. apply reply_of_inv in Hh as (r0 & Hh & _).
    apply subscribe_run in Hh as [[_ ->]|(_ & _ & ->)]; [done|]. apply drain_queues_grows.
  - apply reply_of_inv in Hh as (r0 & Hh & _).
    apply ack_inv in Hh as [(_ & _ & S)|(_ & i1 & _ & _ & _ & _ & S1 & _)]; [by apply same_push_grows|by rewrite S1].
  - apply reply_of_inv in Hh as (r0 & Hh & _). apply issue_pow_challenge_push in Hh. by apply same_push_grows.
  - apply reply_of_inv in Hh as (r0 & Hh & _). apply create_mailbox_inv in Hh as [S _]. by apply same_push_grows.
  - apply reply_of_inv in Hh as (r0 & Hh & _). apply create_group_inbox_inv in Hh as [S _]. by apply same_push_grows.
Qed.

(** The operations of a running server. *)
Definition net_op (o : Op) (w : World) : Prop :=
  match o with OConnect c => chans w !! c = None | ORestart _ _ => False | _ => True end.

Lemma exec_grows o w : net_op o w -> grows (chans w) (chans (exec o w).1).
Proof.
  destruct o as [e msg tx|c|c|now key]; simpl; intros Ho; [|intros c'; unfold log..|done].
  - pose proof (handle_grows e msg tx w). by destruct (handle e msg tx w).
  - destruct (decide (c = c')) as [<-|]; [rewrite Ho; apply prefix_nil|by rewrite lookup_insert_ne].
  - destruct (decide (c = c')) as [<-|]; [rewrite lookup_alter_eq|by rewrite lookup_alter_ne]. by destruct (chans w !! c).
Qed.

(** ** Reading what has arrived *)

Lemma read_frame_more {A} `{Bincode A} (bs more rest : bytes) (a : A) :
  read_frame bs = (Ok a, rest) -> read_frame (bs ++ more) = (Ok a, rest ++ more).
Proof.
  unfold read_frame. rewrite len_app. pose proof (len_nonneg more).
  destruct (Z.ltb_spec (len bs) 4) as [|H4]; [done|]. destruct (Z.ltb_spec (len bs + len more) 4); [lia|].
  assert (Hl : (4 <= length bs)%nat) by (unfold len in H4; lia).
  rewrite take_app_le, drop_app_le by done. destruct (_ <? from_le_bytes _) eqn:Ebig; [done|]. rewrite len_app.
  destruct (Z.ltb_spec (len (drop 4 bs)) (from_le_bytes (take 4 bs))) as [|Hn]; [done|].
  destruct (Z.ltb_spec (len (drop 4 bs) + len more) (from_le_bytes (take 4 bs))); [lia|].
  assert (Hd : (Z.to_nat (from_le_bytes (take 4 bs)) <= length (drop 4 bs))%nat) by (unfold len in Hn; lia).
  rewrite take_app_le, drop_app_le by done. intros E. injection E as E1 <-. by rewrite E1.
Qed.

Lemma read_frames_more {A} `{Bincode A} n (bs more rest : bytes) (l : list A) :
  read_frames n bs = (Ok l, rest) -> read_frames n (bs ++ more) = (Ok l, rest ++ more).
Proof.
  revert bs l. induction n as [|n IH]; intros bs l; cbn [read_frames]; [by intros [= <- <-]|].
  destruct (read_frame bs) as [[a|e] r1] eqn:E1; [|done]. rewrite (read_frame_more _ _ _ _ E1).
  destruct (read_frames n r1) as [[l'|e] r2] eqn:E2; [|done]. intros [= <- <-]. by rewrite (IH _ _ E2).
Qed.

Lemma read_frames_next {A} `{Bincode A} n (bs rest rest' : bytes) (l : list A) a :
  read_frames n bs = (Ok l, rest) -> read_frame rest = (Ok a, rest') -> read_frames (S n) bs = (Ok (l ++ [a]), rest').
Proof.
  revert bs l. induction n as [|n IH]; intros bs l.
  - intros [= <- <-] E. cbn [read_frames]. by rewrite E.
  - intros Hn Ha. rewrite (eq_refl : read_frames (S (S n)) bs = match read_frame bs with
      | (Err e, rest) => (Err e, rest)
      | (Ok a, rest) => match read_frames (S n) rest with (Err e, rest') => (Err e, rest') | (Ok l, rest') => (Ok (a :: l), rest') end
      end). cbn [read_frames] in Hn.
    destruct (read_frame bs) as [[b|e] r1]; [|done]. destruct (read_frames n r1) as [[l'|e] r2] eqn:E2; [|done].
    injection Hn as <- <-. by rewrite (IH _ _ E2 Ha).
Qed.

(** ** What a connection has done *)

Definition replies (fs : list ServerFrame) : list (Z * ServerMessage) :=
  omap (fun f => match f with Reply i m => Some (i, m) | Push _ _ => None end) fs.
Definition pushes (fs : list ServerFrame) : list (QueueId * Envelope) :=
  omap (fun f => match f with Push q env => Some (q, env) | Reply _ _ => None end) fs.

Definition due_replies (k : Connection) : list (Z * ServerMessage) := (fun fm => (cf_request_id fm.1, fm.2)) <$> answered k.
Definition due_pushes (ps : list PushMsg) : list (QueueId * Envelope) := (fun p => (p.1.1, p.2)) <$> ps.

Record conn_ok (w : World) (c : ChanId) (k : Connection) : Prop := {
  co_read : read_frames (length (answered k)) (received k) = (Ok (answered k).*1, unread k);
  co_taken : (forwarded k <= length (sent w c))%nat;
  co_live : writer k = true ->
    replies (written k ++ outgoing k) = due_replies k /\ pushes (written k ++ outgoing k) = due_pushes (take (forwarded k) (sent w c));
  co_written : replies (written k) `prefix_of` due_replies k /\ pushes (written k) `prefix_of` due_pushes (take (forwarded k) (sent w c));
}.

Lemma conn_ok_grows w w' c k : grows (chans w) (chans w') -> conn_ok w c k -> conn_ok w' c k.
Proof.
  intros Hg [C1 C2 C3 C4]. destruct (Hg c) as [l Hl]. change (sent w' c = sent w c ++ l) in Hl.
  assert (Ht : take (forwarded k) (sent w' c) = take (forwarded k) (sent w c)) by (rewrite Hl; by apply take_app_le).
  split; rewrite ?Ht; try done. rewrite Hl, length_app. lia.
Qed.

Lemma conn_ok_new w c : conn_ok w c connection_new.
Proof. split; simpl; [done|lia|done|]. split; apply prefix_nil. Qed.

(** Only the reading loop answers, and only the forwarder takes pushes. *)
Lemma conn_ok_same w c k k' :
  conn_ok w c k -> received k' = received k -> unread k' = unread k -> answered k' = answered k -> forwarded k' = forwarded k ->
  written k' = written k -> (writer k' = true -> writer k = true /\ outgoing k' = outgoing k) -> conn_ok w c k'.
Proof.
  intros [C1 C2 C3 C4] E1 E2 E3 E4 E5 Hw. unfold due_replies in *.
  split; unfold due_replies; rewrite ?E1, ?E2, ?E3, ?E4, ?E5; try done.
  intros [H1 H2]%Hw. rewrite H2. by apply C3.
Qed.

Lemma answer_ok w c k f m rest :
  conn_ok w c k -> read_frame (unread k) = (Ok f, rest) -> conn_ok w c (answer_frame f m rest k).
Proof.
  intros [C1 C2 C3 [C4 C5]] Hr. unfold answer_frame. split; simpl.
  - rewrite length_app, Nat.add_comm, fmap_app. by eapply read_frames_next.
  - done.
  - intros Hw. rewrite Hw. destruct (C3 Hw) as [H1 H2]. unfold due_replies, replies, pushes in *. simpl.
    rewrite app_assoc, !(omap_app _ (written k ++ outgoing k)), H1, H2, fmap_app. simpl. by rewrite app_nil_r.
  - split; [|done]. unfold due_replies in *. simpl. rewrite fmap_app. by apply prefix_app_r.
Qed.

Lemma forward_ok w c k p :
  conn_ok w c k -> writer k = true -> next_push c k w = Some p -> conn_ok w c (forward_push p k).
Proof.
  intros [C1 C2 C3 [C4 C5]] Hw Hp. unfold next_push in Hp. unfold forward_push. split; simpl; [done| | |].
  - apply lookup_lt_Some in Hp. lia.
  - intros _. destruct (C3 Hw) as [H1 H2]. unfold due_replies, due_pushes, replies, pushes in *. simpl.
    rewrite app_assoc, !(omap_app _ (written k ++ outgoing k)), H1, H2, (take_S_r _ _ _ Hp), fmap_app. simpl. by rewrite app_nil_r.
  - split; [done|]. rewrite (take_S_r _ _ _ Hp). unfold due_pushes in *. rewrite fmap_app. by apply prefix_app_r.
Qed.

Lemma write_ok w c k k' : conn_ok w c k -> writer k = true -> write_next k = Some k' -> conn_ok w c k'.
Proof.
  intros [C1 C2 C3 [C4 C5]] Hw Hk. unfold write_next in Hk. destruct (outgoing k) as [|f fs] eqn:Ho; [done|]. simplify_eq.
  destruct (C3 Hw) as [H1 H2].
  assert (E : (written k ++ [f]) ++ fs = written k ++ f :: fs) by by rewrite <- app_assoc.
  split; simpl; [done|done|by rewrite E|]. unfold due_replies in *. simpl in *. rewrite <- H1, <- H2, <- E. unfold replies, pushes.
  rewrite !omap_app. split; (eexists; reflexivity).
Qed.

Lemma turn_ok c e k w o k' :
  conn_ok w c k -> turn c e k w = Some (o, k') -> conn_ok w c k' /\ from_option (fun o => net_op o w) True o.
Proof.
  intros Hk. unfold turn. destruct (read_frame (unread k)) as [[f|x] rest] eqn:Hr.
  - cbv zeta. destruct (handle e (cf_message f) (Some c) w).2; intros E; simplify_eq; (split; [|done]);
      [by apply answer_ok|by eapply conn_ok_same..].
  - destruct x; try destruct (hung_up k); intros E; simplify_eq; (split; [by eapply conn_ok_same|done]).
Qed.

Lemma move_ok ev c k w o k' :
  conn_ok w c k -> conn_move ev c k w = Some (o, k') -> conn_ok w c k' /\ from_option (fun o => net_op o w) True o.
Proof.
  intros Hk. destruct ev as [| |c0 bs|c0|c0 e|c0|c0|c0|c0|c0|c0|c0]; cbn [conn_move]; try done.
  - destruct (hung_up k); intros E; simplify_eq. split; [|done]. pose proof Hk as [C1 C2 C3 C4]. split; try done.
    by apply read_frames_more.
  - intros E; simplify_eq. split; [by eapply conn_ok_same|done].
  - destruct (is_reading (handler k)); [|done]. by apply turn_ok.
  - destruct (is_reading (handler k)); intros E; simplify_eq. split; [by eapply conn_ok_same|done].
  - destruct (handler k), (writer k) eqn:Hw; intros E; simplify_eq. split; [|by destruct (forwarder k)].
    eapply conn_ok_same; try done; simpl; congruence.
  - destruct (forwarder k); [|done]. intros (p & Hp & E)%bind_Some. destruct (writer k) eqn:Hw; simplify_eq; (split; [|done]).
    + by apply forward_ok.
    + eapply conn_ok_same; try done; simpl; congruence.
  - destruct (next_push c k w); [done|]. case_match; intros E; simplify_eq. split; [by eapply conn_ok_same|done].
  - destruct (writer k) eqn:Hw; [|done]. intros (k1 & Hk1 & E)%bind_Some. simplify_eq. split; [by eapply write_ok|done].
  - case_match; intros E; simplify_eq. split; [by eapply conn_ok_same|done].
  - case_match; intros E; simplify_eq. split; [by eapply conn_ok_same|done].
Qed.

(** ** Runs of the server *)

(** What the relay answered to the requests of a connection, over a run of its
    operations; a call that panics has no answer. *)
Fixpoint results_of (c : ChanId) (os : list Op) (w : World) : list (ClientMessage * ServerMessage) :=
  match os with
  | [] => []
  | o :: os' =>
      match o with
      | OHandle e msg (Some c') =>
          if bool_decide (c' = c) then
            match (handle e msg (Some c') w).2 with Done m => [(msg, m)] | _ => [] end
          else []
      | _ => []
      end ++ results_of c os' (exec o w).1
  end.

Lemma results_of_app c os os' w : results_of c (os ++ os') w = results_of c os w ++ results_of c os' (run os w).1.
Proof.
  revert w. induction os as [|o os IH]; intros w; [done|]. cbn [app results_of run]. rewrite IH, app_assoc.
  destruct (exec o w) as [w1 l]. simpl. by destruct (run os w1).
Qed.

(** The requests a connection was answered, with the replies. *)
Definition dialog (k : Connection) : list (ClientMessage * ServerMessage) := (fun fm => (cf_message fm.1, fm.2)) <$> answered k.

Record served_ok (w0 : World) (s : Server) (os : list Op) : Prop := {
  so_world : world s = (run os w0).1;
  so_conn c k : conns s !! c = Some k -> conn_ok (world s) c k;
  so_dialog c k : conns s !! c = Some k -> dialog k = results_of c os w0;
  so_none c : conns s !! c = None -> results_of c os w0 = [];
}.

(** A move records the relay's answers to what it asks. *)
Lemma move_dialog ev c k w o k' :
  conn_move ev c k w = Some (o, k') ->
  dialog k' = dialog k ++ results_of c (option_list o) w /\ forall c', c' <> c -> results_of c' (option_list o) w = [].
Proof.
  assert (Q : forall k1 k2 (o : option Op), answered k1 = answered k2 -> (forall c', results_of c' (option_list o) w = []) ->
    dialog k1 = dialog k2 ++ results_of c (option_list o) w /\ forall c', c' <> c -> results_of c' (option_list o) w = []).
  { intros k1 k2 o1 E Hn. unfold dialog. by rewrite E, Hn, app_nil_r. }
  destruct ev as [| |c0 bs|c0|c0 e|c0|c0|c0|c0|c0|c0|c0]; cbn [conn_move]; try done.
  - destruct (hung_up k); intros E; simplify_eq. by apply Q.
  - intros E; simplify_eq. by apply Q.
  - destruct (is_reading (handler k)); [|done]. unfold turn. destruct (read_frame (unread k)) as [[f|x] rest].
    + cbv zeta. destruct (handle e (cf_message f) (Some c) w).2 as [m| | |] eqn:Em; intros E; simplify_eq;
        change (option_list (Some ?o)) with [o]; cbn [results_of];
        (split; [|intros c' Hne; by rewrite bool_decide_eq_false_2 by congruence]);
        rewrite bool_decide_eq_true_2, Em by done; unfold dialog; simpl; rewrite ?fmap_app, ?app_nil_r; done.
    + destruct x; try destruct (hung_up k); intros E; simplify_eq; by apply Q.
  - destruct (is_reading (handler k)); intros E; simplify_eq. by apply Q.
  - destruct (handler k), (writer k); intros E; simplify_eq. apply Q; [done|]. by destruct (forwarder k).
  - destruct (forwarder k); [|done]. intros (p & Hp & E)%bind_Some. destruct (writer k); simplify_eq; by apply Q.
  - destruct (next_push c k w); [done|]. case_match; intros E; simplify_eq. by apply Q.
  - destruct (writer k); [|done]. intros (k1 & Hk1 & E)%bind_Some. unfold write_next in Hk1.
    destruct (outgoing k); simplify_eq. by apply Q.
  - case_match; intros E; simplify_eq. by apply Q.
  - case_match; intros E; simplify_eq. by apply Q.
Qed.

Lemma update_ops c o k s : (update c o k s).2 = option_list o.
Proof. by destruct o. Qed.
Lemma update_conns c o k s : conns (update c o k s).1 = <[c:=k]> (conns s).
Proof. by destruct o. Qed.
Lemma update_grows c o k s :
  from_option (fun o => net_op o (world s)) True o -> grows (chans (world s)) (chans (world (update c o k s).1)).
Proof. destruct o; [apply exec_grows|done]. Qed.

(** A connection is updated; the others keep what they had. *)
Lemma served_update w0 c o k s os :
  served_ok w0 s os -> from_option (fun o => net_op o (world s)) True o -> conn_ok (world s) c k ->
  dialog k = results_of c (os ++ option_list o) w0 -> (forall c', c' <> c -> results_of c' (option_list o) (world s) = []) ->
  served_ok w0 (update c o k s).1 (os ++ (update c o k s).2).
Proof.
  intros [S0 S1 S2 S3] Ho Hk Ha Hn. pose proof (update_grows c o k s Ho) as Hg. rewrite update_ops. split.
  - rewrite run_app, <- S0. apply (update_world c o k). by rewrite <- update_ops with (c := c) (k := k) (s := s), <- surjective_pairing.
  - intros c' k'. rewrite update_conns. intros [[<- <-]|[_ Hk']]%lookup_insert_Some; (eapply conn_ok_grows; [exact Hg|]); eauto.
  - intros c' k'. rewrite update_conns. intros [[<- <-]|[Hne Hk']]%lookup_insert_Some; [done|].
    rewrite results_of_app, <- S0, (Hn c'), app_nil_r by done. by apply S2.
  - intros c'. rewrite update_conns. intros [Hc Hne]%lookup_insert_None. rewrite results_of_app, <- S0, (Hn c'), app_nil_r by done.
    by apply S3.
Qed.

Lemma net_step_served w0 ev s s' os os' : served_ok w0 s os -> net_step ev s = Some (s', os') -> served_ok w0 s' (os ++ os').
Proof.
  intros S Hs. apply net_step_cases in Hs as [(c & _ & Hc & Hch & Hu)|[[-> ->]|(c & k & o & k' & Hk & Hm & Hu)]].
  - pose proof (served_update w0 c (Some (OConnect c)) connection_new s os S Hch (conn_ok_new _ c)) as H1. rewrite Hu in H1.
    apply H1; [|done]. by rewrite results_of_app, (so_none _ _ _ S _ Hc).
  - by rewrite app_nil_r.
  - destruct (move_ok _ _ _ _ _ _ (so_conn _ _ _ S _ _ Hk) Hm) as [Hk' Ho]. destruct (move_dialog _ _ _ _ _ _ Hm) as [Hd Hn].
    pose proof (served_update w0 c o k' s os S Ho Hk') as H1. rewrite Hu in H1. apply H1; [|done].
    by rewrite results_of_app, <- (so_world _ _ _ S), Hd, (so_dialog _ _ _ S _ _ Hk).
Qed.

Lemma net_run_served w0 evs s s' os os' : served_ok w0 s os -> net_run evs s = Some (s', os') -> served_ok w0 s' (os ++ os').
Proof.
  revert s os os'. induction evs as [|ev evs IH]; intros s os os' S; cbn [net_run].
  - intros [= <- <-]. by rewrite app_nil_r.
  - intros ([s1 o1] & H1 & Hs)%bind_Some. apply bind_Some in Hs as ([s2 o2] & H2 & Hs). simplify_eq.
    rewrite app_assoc. eapply IH; [|exact H2]. by eapply net_step_served.
Qed.

Lemma served_empty w : served_ok w (mkServer w ∅) [].
Proof. split; [done|intros c k; simpl; by rewrite lookup_empty..|done]. Qed.

Lemma server_run_served evs w s os : net_run evs (mkServer w ∅) = Some (s, os) -> served_ok w s os.
Proof. apply (net_run_served w evs (mkServer w ∅) s [] os), served_empty. Qed.

(** C33: whatever connections come and go, and however their tasks interleave, the
    relay's state is that of a run of the relay's operations, one after the other. Every
    connection is served as if it were alone: its bytes are read frame by frame; the
    requests it was answered, with their replies, are exactly what the relay answered to
    the operations it made for that connection in this run; and what was written to the
    client are these replies under the ids of its requests, in their order, and the
    pushes posted on its channel, in their order, none invented, repeated or skipped. *)
Theorem connections_served evs w s os c k :
  net_run evs (mkServer w ∅) = Some (s, os) -> conns s !! c = Some k ->
  world s = (run os w).1 /\
  read_frames (length (answered k)) (received k) = (Ok (answered k).*1, unread k) /\
  dialog k = results_of c os w /\
  replies (written k) `prefix_of` due_replies k /\ pushes (written k) `prefix_of` due_pushes (sent (world s) c).
Proof.
  intros S%server_run_served Hk. destruct (so_conn _ _ _ S _ _ Hk) as [C1 _ _ [C4 C5]].
  split; [apply S|]. split; [done|]. split; [by eapply so_dialog|]. split; [done|]. etrans; [exact C5|].
  unfold due_pushes. rewrite <- (take_drop (forwarded k) (sent (world s) c)) at 2. rewrite fmap_app. by apply prefix_app_r.
Qed.

(** ** Nothing stays behind *)

Lemma step_conn ev s c k k' :
  event_of ev = Some c -> conns s !! c = Some k -> conn_move ev c k (world s) = Some (None, k') ->
  net_step ev s = Some (mkServer (world s) (<[c:=k']> (conns s)), []).
Proof.
  intros He Hk Hm.
  assert (H0 : (c ← event_of ev; k ← conns s !! c; '(o, k') ← conn_move ev c k (world s); Some (update c o k' s)) =
    Some (mkServer (world s) (<[c:=k']> (conns s)), [])) by (rewrite He; simpl; rewrite Hk; simpl; by rewrite Hm).
  destruct ev; try done; exact H0.
Qed.

Lemma run_writes s c k :
  conns s !! c = Some k -> writer k = true ->
  exists evs k', net_run evs s = Some (mkServer (world s) (<[c:=k']> (conns s)), []) /\ outgoing k' = [] /\
    written k' = written k ++ outgoing k.
Proof.
  remember (outgoing k) as fs eqn:Ho. revert s k Ho. induction fs as [|f fs IH]; intros s k Ho Hk Hw.
  - exists [], k. rewrite insert_id by done. split; [by destruct s|]. by rewrite app_nil_r.
  - set (k1 := mkConnection (received k) (unread k) (hung_up k) (handler k) (answered k) (forwarder k) (forwarded k)
                       (writer k) fs (written k ++ [f])).
    assert (H1 : net_step (Writes c) s = Some (mkServer (world s) (<[c:=k1]> (conns s)), [])).
    { apply (step_conn (Writes c) s c k); [done|done|]. simpl. rewrite Hw. unfold write_next. by rewrite <- Ho. }
    destruct (IH (mkServer (world s) (<[c:=k1]> (conns s))) k1) as (evs & k' & Hr & E1 & E2); [done|simpl; by rewrite lookup_insert_eq|done|].
    exists (Writes c :: evs), k'. cbn [net_run]. rewrite H1. cbn [mbind option_bind]. rewrite Hr. simpl.
    rewrite insert_insert_eq. split; [done|]. split; [done|]. rewrite E2. simpl. by rewrite <- app_assoc.
Qed.

Lemma run_forwards s c k n :
  conns s !! c = Some k -> writer k = true -> forwarder k = true -> (length (sent (world s) c) = forwarded k + n)%nat ->
  exists evs k', net_run evs s = Some (mkServer (world s) (<[c:=k']> (conns s)), []) /\
    forwarded k' = length (sent (world s) c) /\ writer k' = true /\ answered k' = answered k.
Proof.
  revert s k. induction n as [|n IH]; intros s k Hk Hw Hf Hn.
  - exists [], k. rewrite insert_id by done. split; [by destruct s|]. split; [lia|done].
  - destruct (lookup_lt_is_Some_2 (sent (world s) c) (forwarded k)) as [p Hp]; [lia|].
    assert (H1 : net_step (Forwards c) s = Some (mkServer (world s) (<[c:=forward_push p k]> (conns s)), [])).
    { apply (step_conn (Forwards c) s c k); [done|done|]. simpl. rewrite Hf. unfold next_push. rewrite Hp. simpl. by rewrite Hw. }
    destruct (IH (mkServer (world s) (<[c:=forward_push p k]> (conns s))) (forward_push p k)) as (evs & k' & Hr & E1 & E2 & E3);
      [simpl; by rewrite lookup_insert_eq|done|done|simpl; lia|].
    exists (Forwards c :: evs), k'. cbn [net_run]. rewrite H1. cbn [mbind option_bind]. rewrite Hr. simpl.
    rewrite insert_insert_eq. done.
Qed.

Lemma net_run_app evs evs' s s1 s2 os os' :
  net_run evs s = Some (s1, os) -> net_run evs' s1 = Some (s2, os') -> net_run (evs ++ evs') s = Some (s2, os ++ os').
Proof.
  revert s os. induction evs as [|ev evs IH]; intros s os; cbn [app net_run]; [by intros [= <- <-] ->|].
  intros ([sa oa] & H1 & Hs)%bind_Some. apply bind_Some in Hs as ([sb ob] & H2 & Hs). simplify_eq. intros H3.
  rewrite H1. cbn [mbind option_bind]. rewrite (IH _ _ H2 H3). simpl. by rewrite app_assoc.
Qed.

(** C34: nothing is stuck behind another connection. From any state of the server, for a
    connection whose forwarder and writer run, the steps of these two alone write every
    reply that is due and every push posted on its channel to the client, in order, and
    leave the relay and the other connections as they are; the client reads back exactly
    the frames written. *)
Theorem due_frames_written `{!Bincode ServerFrame, !BincodeLaws ServerFrame} evs w s os c k :
  net_run evs (mkServer w ∅) = Some (s, os) -> conns s !! c = Some k -> writer k = true -> forwarder k = true ->
  exists evs' k', net_run evs' s = Some (mkServer (world s) (<[c:=k']> (conns s)), []) /\
    replies (written k') = due_replies k /\ pushes (written k') = due_pushes (sent (world s) c) /\
    (Forall fits_frame (written k') -> read_frames (length (written k')) (wire k') = (Ok (written k'), [])).
Proof.
  intros S%server_run_served Hk Hw Hf. pose proof (so_conn _ _ _ S _ _ Hk) as [_ Ht _ _].
  destruct (run_forwards s c k (length (sent (world s) c) - forwarded k)) as (e1 & k1 & R1 & F1 & W1 & A1); [done|done|done|lia|].
  destruct (run_writes (mkServer (world s) (<[c:=k1]> (conns s))) c k1) as (e2 & k2 & R2 & O2 & E2); [simpl; by rewrite lookup_insert_eq|done|].
  simpl in R2. rewrite insert_insert_eq in R2. pose proof (net_run_app _ _ _ _ _ _ _ R1 R2) as R3. exists (e1 ++ e2), k2. split; [done|].
  pose proof (net_run_served _ _ _ _ _ _ S R1) as S1.
  destruct (so_conn _ _ _ S1 c k1) as [_ _ L _]; [simpl; by rewrite lookup_insert_eq|]. destruct (L W1) as [L1 L2]. simpl in L2.
  rewrite E2. split; [by rewrite L1; unfold due_replies; rewrite A1|]. split; [by rewrite L2, F1, firstn_all|].
  intros Hfit. unfold wire. rewrite <- (app_nil_r (concat _)), E2. by apply framing_roundtrip.
Qed.
End Serve.

(** ** Two connections *)

Module ServeExamples.
Import ToyInstances RelayToy Scenario NetExamples.

#[export] Instance code_countable : Countable RejectionCode.
Proof.
  refine (inj_countable'
    (fun c => match c with QueueFull => 0 | MessageTooLarge => 1 | RateLimited => 2 | Unauthorized => 3 | InvalidProofOfWork => 4
       | InvalidAttestation => 5 | QueueNotFound => 6 | StorageBoundExceeded => 7 | EpochConflict => 8 | GroupInboxNotFound => 9 end)
    (fun n => match n with 0 => QueueFull | 1 => MessageTooLarge | 2 => RateLimited | 3 => Unauthorized | 4 => InvalidProofOfWork
       | 5 => InvalidAttestation | 6 => QueueNotFound | 7 => StorageBoundExceeded | 8 => EpochConflict | _ => GroupInboxNotFound end) _).
  by intros [].
Defined.
#[export] Instance challenge_eq_dec : EqDecision PowChallenge.
Proof. solve_decision. Defined.
#[export] Instance reply_eq_dec : EqDecision ServerMessage.
Proof. solve_decision. Defined.
#[export] Instance server_frame_eq_dec : EqDecision ServerFrame.
Proof. solve_decision. Defined.
#[export] Instance reply_countable : Countable ServerMessage.
Proof.
  refine (inj_countable'
    (fun m => match m with SOk => inl None | SError c => inl (Some c) | SPowChallenge c => inr (inl (pc_challenge c, difficulty c))
       | SQueueCreated q k => inr (inr (q, k)) end)
    (fun x => match x with inl None => SOk | inl (Some c) => SError c | inr (inl (c, d)) => SPowChallenge (mkPowChallenge c d)
       | inr (inr (q, k)) => SQueueCreated q k end) _). by intros [| |[]|].
Defined.
#[export] Instance server_frame_countable : Countable ServerFrame.
Proof.
  refine (inj_countable' (fun f => match f with Reply i m => inl (i, m) | Push q e => inr (q, e) end)
            (fun x => match x with inl (i, m) => Reply i m | inr (q, e) => Push q e end) _). by intros [].
Defined.

(** One connection subscribes to a mailbox, another sends to it and hangs up; the
    request of the first arrives in two pieces. *)
Definition subscribe_bytes : bytes := write_frame (mkClientFrame 5 (Subscribe [idq 1])).
Definition send_bytes : bytes :=
  write_frame (mkClientFrame 9 (SendToMailbox (idq 1) (compute_tag (idq 101) (idq 1) (env 12)) (env 12))).
Definition traffic : list event :=
  [Accepts 1; HandshakeFails; Accepts 2; Receives 1 (take 3 subscribe_bytes); Receives 2 send_bytes;
   Receives 1 (drop 3 subscribe_bytes); Turns 1 (at_ 6 []); Turns 2 (at_ 6 []); Writes 2; HangsUp 2; Turns 2 (at_ 7 [])].

Definition outcome_of (r : option (Server * list Op)) : Server * list Op := default (mkServer boot ∅, []) r.
Abbreviation served_traffic := (net_run traffic (mkServer ready ∅)).
Definition up : Server := (outcome_of served_traffic).1.
Definition up_ops : list Op := (outcome_of served_traffic).2.

Lemma server_outcome_eq r b : bool_decide (is_Some r) = b -> b = true -> r = Some ((outcome_of r).1, (outcome_of r).2).
Proof. intros <- H%bool_decide_eq_true. destruct r as [[s os]|]; [done|by destruct H]. Qed.
Lemma traffic_runs : net_run traffic (mkServer ready ∅) = Some (up, up_ops).
Proof. apply (server_outcome_eq _ true); [vm_compute; reflexivity|done]. Qed.

Definition first : Connection := default connection_new (conns up !! 1%nat).
Lemma first_eq : conns up !! 1%nat = Some first.
Proof. unfold first. destruct (conns up !! 1%nat) eqn:E; [done|]. revert E. vm_compute. discriminate. Qed.

Lemma connections_served_witness :
  world up = (run up_ops ready).1 /\ dialog first = [(Subscribe [idq 1], SOk)].
Proof.
  split; [|vm_compute; reflexivity]. exact (proj1 (connections_served traffic ready up up_ops 1%nat first traffic_runs first_eq)).
Defined.

Lemma due_frames_written_witness :
  exists evs' k', net_run evs' up = Some (mkServer (world up) (<[1%nat:=k']> (conns up)), []) /\
    replies (written k') = [(5, SOk)] /\ pushes (written k') = [(idq 1, env 12)].
Proof.
  destruct (due_frames_written traffic ready up up_ops 1%nat first traffic_runs first_eq) as (evs' & k' & H1 & H2 & H3 & _);
    [vm_compute; reflexivity..|]. exists evs', k'. split; [exact H1|]. split; [rewrite H2; vm_compute; reflexivity|].
  rewrite H3. vm_compute. reflexivity.
Defined.
End ServeExamples.
