(* ===== verification/DirLogic.v ===== *)
(** * The directory's pure logic

    Nicknames and discriminators (directory/src/username.rs), the rate limiter
    (ratelimit.rs), the search bucketing (search.rs) and phone verification
    (verify.rs). *)

From S2P Require Import Prelude Text External Proto.

(** ** username.rs *)

Definition MIN_NICKNAME_LEN : Z := 2.
Definition MAX_NICKNAME_LEN : Z := 32.
Definition MIN_DISCRIMINATOR_WIDTH : Z := 2.

(** [BadChar] carries the first byte of the offending character. *)
Inductive UsernameError := BadLength | BadChar (c : byte) | DiscriminatorSpaceExhausted.

(** Characters beyond ASCII are disallowed, and so is each of their bytes, so the
    search by characters is a search by bytes. *)
Definition is_allowed_char (b : byte) : bool :=
  is_ascii_alphanumeric b || (b =? 95) || (b =? 45) || (b =? 46).

Definition validate_nickname (nickname : bytes) : result unit UsernameError :=
  if (len nickname <? MIN_NICKNAME_LEN) || (MAX_NICKNAME_LEN <? len nickname) then Err BadLength
  else match find_first (fun c => negb (is_allowed_char c)) nickname with
       | Some bad => Err (BadChar bad)
       | None => Ok tt
       end.

(** [format!("{value:0width$}")]. *)
Definition render_discriminator (value width : Z) : bytes :=
  zero_padded value width.

Definition format_handle (nickname : bytes) (discriminator width : Z) : bytes :=
  nickname ++ str "#" ++ render_discriminator discriminator width.

(** [10u32.saturating_pow(width) - 1]. *)
Definition slot_count (width : Z) : Z := Z.min (10 ^ width) (u32_modulus - 1) - 1.

(** The search of [(1..=max).find(..)] from [v] on; one turn more than there are
    taken slots always suffices. *)
Fixpoint free_slot_from (taken : gset Z) (max : Z) (fuel : nat) (v : Z) : option Z :=
  match fuel with
  | O => None
  | S fuel' =>
      if max <? v then None
      else if bool_decide (v ∈ taken) then free_slot_from taken max fuel' (v + 1)
      else Some v
  end.

Definition first_free_slot (taken : gset Z) (width : Z) : result Z UsernameError :=
  ok_or (free_slot_from taken (slot_count width) (S (size taken)) 1) DiscriminatorSpaceExhausted.

(** ** ratelimit.rs *)

Definition VERIFIED_SEARCH_PER_MINUTE : Z := 30.
Definition UNVERIFIED_SEARCH_PER_MINUTE : Z := 5.
Definition VERIFY_ATTEMPTS_PER_MINUTE : Z := 5.
Definition UNAUTH_REQUESTS_PER_MINUTE_PER_IP : Z := 30.

Inductive Bucket := Caller | Phone | Ip.

#[export] Instance Bucket_eq_dec : EqDecision Bucket.
Proof. solve_decision. Defined.

#[export] Instance Bucket_countable : Countable Bucket.
Proof.
  refine (inj_countable' (fun b => match b with Caller => 0 | Phone => 1 | Ip => 2 end)
            (fun n => if n =? 0 then Caller else if n =? 1 then Phone else Ip) _).
  by intros [].
Defined.

Definition phone_rate_key `{DefaultHasher} (e164 : bytes) : Z := default_hash e164.

Record Window := mkWindow { w_count : Z; w_started : Z }.

Abbreviation RateLimiter := (gmap (Bucket * Z) Window) (only parsing).

Definition bump (now : Z) (bucket : Bucket) (key limit_per_minute : Z) (ws : RateLimiter)
  : RateLimiter * bool :=
  let w := default (mkWindow 0 now) (ws !! (bucket, key)) in
  let w := if 60000000000 <=? now - w_started w then mkWindow 0 now else w in
  if limit_per_minute <=? w_count w then (<[(bucket, key):=w]> ws, false)
  else (<[(bucket, key):=mkWindow (w_count w +32 1) (w_started w)]> ws, true).

Definition check_and_bump (now caller_id limit : Z) (ws : RateLimiter) : RateLimiter * bool :=
  bump now Caller caller_id limit ws.
Definition check_and_bump_phone (now phone_key limit : Z) (ws : RateLimiter) : RateLimiter * bool :=
  bump now Phone phone_key limit ws.
Definition check_and_bump_ip `{DefaultHasher} (now : Z) (ip : bytes) (limit : Z) (ws : RateLimiter)
  : RateLimiter * bool :=
  bump now Ip (default_hash ip) limit ws.

(** ** search.rs *)

Definition PREFIX_LEN_HEX : Z := 5.

Record PhoneEntry := mkPhoneEntry { pe_phone_hash : bytes; pe_user_id : Z }.

Definition hash_prefix (full_hash : bytes) : bytes :=
  take (Z.to_nat (Z.min PREFIX_LEN_HEX (len full_hash))) full_hash.

(** The trait [PrefixIndex], [R] the (possibly effectful) list of entries, and
    the search that only ever passes it a prefix. *)
Class PrefixIndex (I R : Type) := bucket : I -> bytes -> R.
#[global] Hint Mode PrefixIndex ! - : typeclass_instances.

Definition search_by_prefix {I R} `{PrefixIndex I R} (index : I) (prefix : bytes) : R :=
  bucket index prefix.

Definition InMemoryIndex : Type := gmap bytes (list PhoneEntry).

Definition InMemoryIndex_insert (phone_hash : bytes) (user_id : Z) (ix : InMemoryIndex) : InMemoryIndex :=
  let prefix := hash_prefix phone_hash in
  <[prefix:=default [] (ix !! prefix) ++ [mkPhoneEntry phone_hash user_id]]> ix.

#[export] Instance InMemoryIndex_bucket : PrefixIndex InMemoryIndex (list PhoneEntry) :=
  fun ix prefix => default [] (ix !! prefix).

(** ** verify.rs *)

Definition HASH_SALT : bytes := str "chat-directory-phone-hash-v1".

Inductive VerifyError :=
| InvalidPhoneFormat | CodeRejected | VerifyVendorUnavailable | HashError | VendorFailed.

Definition normalize_e164 (raw : bytes) : result bytes VerifyError :=
  match raw with
  | 43 :: digits =>
      if negb ((8 <=? len digits) && (len digits <=? 15)) || negb (forallb is_ascii_digit digits)
      then Err InvalidPhoneFormat
      else Ok (43 :: digits)
  | _ => Err InvalidPhoneFormat
  end.

Definition phone_hash `{Argon2id} (e164 pepper : bytes) : result bytes VerifyError :=
  out <-? ok_or (argon2id pepper HASH_SALT e164) HashError;
  Ok (hex out).

Inductive VendorError := Unavailable | Other.

(** What an HTTP request to the vendor comes to: no response because of a timeout
    or a failure to connect, no response for another reason, or a status with the
    [status] string of its JSON body, if it has one ([None] when the body is not
    JSON). *)
Inductive HttpResult :=
| NoResponse (timeout_or_connect : bool)
| Response (status : Z) (body_status : option (option bytes)).

Definition is_success (status : Z) : bool := (200 <=? status) && (status <=? 299).
Definition is_server_error (status : Z) : bool := (500 <=? status) && (status <=? 599).

Definition classify_status (status : Z) : VendorError :=
  if is_server_error status || (status =? 429) then Unavailable else Other.

Definition classify_transport (timeout_or_connect : bool) : VendorError :=
  if timeout_or_connect then Unavailable else Other.

Definition classify_check_failure (status : Z) : result bool VendorError :=
  if status =? 404 then Ok false else Err (classify_status status).

Definition verification_approved (body_status : option bytes) : bool :=
  bool_decide (body_status = Some (str "approved")).

(** The trait [OtpVendor]. *)
Record OtpVendor := mkVendor {
  send_code : bytes -> result unit VendorError;
  vendor_verify : bytes -> bytes -> result bool VendorError;
}.

Definition DEV_OTP_CODE : bytes := str "000000".

Definition DevOtpVendor : OtpVendor := {|
  send_code _ := Ok tt;
  vendor_verify _ code := Ok (bool_decide (code = DEV_OTP_CODE));
|}.

Definition twilio_send_code (r : HttpResult) : result unit VendorError :=
  match r with
  | Response status _ => if is_success status then Ok tt else Err (classify_status status)
  | NoResponse b => Err (classify_transport b)
  end.

Definition twilio_verify (r : HttpResult) : result bool VendorError :=
  match r with
  | Response status body =>
      if is_success status then
        match body with Some s => Ok (verification_approved s) | None => Err Other end
      else classify_check_failure status
  | NoResponse b => Err (classify_transport b)
  end.

(** Twilio as a vendor, given what its endpoints answer. *)
Definition TwilioOtpVendor (verifications : bytes -> HttpResult)
    (verification_check : bytes -> bytes -> HttpResult) : OtpVendor := {|
  send_code e164 := twilio_send_code (verifications e164);
  vendor_verify e164 code := twilio_verify (verification_check e164 code);
|}.

Definition verify_phone `{Argon2id} (vendor : OtpVendor) (raw_phone code pepper : bytes)
  : result bytes VerifyError :=
  e164 <-? normalize_e164 raw_phone;
  match vendor_verify vendor e164 code with
  | Ok true => phone_hash e164 pepper
  | Ok false => Err CodeRejected
  | Err Unavailable => Err VerifyVendorUnavailable
  | Err Other => Err VendorFailed
  end.
