(* ===== verification/DirStore.v ===== *)
(** * The directory's store (directory/src/store.rs)

    The tables of the Postgres schema (directory/migrations), with the
    constraints the statements run into, and one definition per method of
    [DirectoryStore]. A method runs one statement or one transaction, which is
    atomic; the database may fail any of them, and then nothing of it is done.
    Restore tokens and the rate limiter live in the process. *)

From S2P Require Import Prelude Text External Proto DirLogic.

(** ** Tables *)

Record User := mkUser {
  u_phone_hash : bytes;
  u_phone_hash_prefix : bytes;
  u_verified : bool;
  u_nickname : option bytes;
  u_discriminator : option Z;
  u_searchable : bool;
  u_created_at : Z;
  u_deleted_at : option Z;
  u_phone_search_hash : bytes;
  u_phone_search_hash_prefix : bytes;
}.

Record BackupUpload := mkUpload {
  blob : bytes;
  w_pin : bytes;
  salt_p : bytes;
  w_phrase : bytes;
  salt_f : bytes;
  auth_pin_hash : bytes;
  salt_a : bytes;
  auth_phrase_hash : bytes;
  salt_pa : bytes;
}.

(** A row of [backups]: what was uploaded, and the lockout columns. *)
Record Backup := mkBackup {
  b_upload : BackupUpload;
  pin_attempts : Z;
  locked_until : option Z;
  b_updated_at : Z;
}.

Record Tables := mkTables {
  users : gmap Z User;
  next_user_id : Z;
  nickname_widths : gmap bytes Z;
  phone_cooldown : list (bytes * Z);
  pairing_bootstrap : gmap Z (bytes * Z);
  sessions : gmap bytes (Z * Z);
  backups : gmap Z Backup;
}.

Definition empty_tables : Tables := mkTables ∅ 1 ∅ [] ∅ ∅ ∅.

(** The process: its tables, restore tokens and rate limiter; [io] counts the
    calls to the database and the random draws made so far. *)
Record Dir := mkDir {
  tables : Tables;
  restore_tokens : gmap bytes (Z * Z);
  rate_limiter : RateLimiter;
  io : nat;
}.

Definition dir_new : Dir := mkDir empty_tables ∅ ∅ 0.

(** Field updates. *)
Definition set_users (u : gmap Z User) (t : Tables) : Tables :=
  mkTables u (next_user_id t) (nickname_widths t) (phone_cooldown t) (pairing_bootstrap t)
    (sessions t) (backups t).
Definition set_bootstraps (p : gmap Z (bytes * Z)) (t : Tables) : Tables :=
  mkTables (users t) (next_user_id t) (nickname_widths t) (phone_cooldown t) p (sessions t) (backups t).
Definition set_sessions (s : gmap bytes (Z * Z)) (t : Tables) : Tables :=
  mkTables (users t) (next_user_id t) (nickname_widths t) (phone_cooldown t) (pairing_bootstrap t)
    s (backups t).
Definition set_backups (b : gmap Z Backup) (t : Tables) : Tables :=
  mkTables (users t) (next_user_id t) (nickname_widths t) (phone_cooldown t) (pairing_bootstrap t)
    (sessions t) b.
Definition set_tables (t : Tables) (d : Dir) : Dir := mkDir t (restore_tokens d) (rate_limiter d) (io d).
Definition set_restore_tokens (r : gmap bytes (Z * Z)) (d : Dir) : Dir :=
  mkDir (tables d) r (rate_limiter d) (io d).
Definition set_rate_limiter (r : RateLimiter) (d : Dir) : Dir :=
  mkDir (tables d) (restore_tokens d) r (io d).

(** One request's view of the machine: [now_unix], [Instant::now], the random
    bytes and whether the database answers, by the count of such events. *)
Record DirEnv := mkDirEnv {
  d_unix : Z;
  d_mono : Z;
  d_rng : nat -> bytes;
  d_db_ok : nat -> bool;
}.

(** ** The monad of directory operations *)

Definition D (E A : Type) : Type := Dir -> Dir * result A E.

Definition d_ret {E A} (a : A) : D E A := fun d => (d, Ok a).
Definition d_err {E A} (x : E) : D E A := fun d => (d, Err x).
Definition d_bind {E A B} (m : D E A) (k : A -> D E B) : D E B := fun d =>
  match m d with
  | (d', Ok a) => k a d'
  | (d', Err x) => (d', Err x)
  end.
(** [m.map_err(f)]. *)
Definition d_map_err {E F A} (f : E -> F) (m : D E A) : D F A := fun d =>
  let '(d', r) := m d in (d', map_err f r).
Definition d_of_result {E A} (r : result A E) : D E A := fun d => (d, r).
Definition d_of_option {E A} (o : option A) (x : E) : D E A := d_of_result (ok_or o x).

Notation "x <-- m ; k" := (d_bind m (fun x => k))
  (at level 100, m at next level, right associativity) : rosette_scope.

(** [sqlx::Error]. *)
Inductive SqlxError := DbError.

Inductive ClaimError := ClaimUsername (e : UsernameError) | ClaimDb.

Section Store.
Context (E : DirEnv).

(** A statement or transaction; [None] from [f] is a constraint violation. *)
Definition db_call {A} (f : Tables -> option (Tables * A)) : D SqlxError A := fun d =>
  let d' := mkDir (tables d) (restore_tokens d) (rate_limiter d) (S (io d)) in
  if d_db_ok E (io d) then
    match f (tables d) with
    | Some (t, a) => (set_tables t d', Ok a)
    | None => (d', Err DbError)
    end
  else (d', Err DbError).

(** A query, and one that is refused for its parameters unless [ok]. *)
Definition db_read {A} (f : Tables -> A) : D SqlxError A := db_call (fun t => Some (t, f t)).
Definition db_select {A} (ok : bool) (f : Tables -> A) : D SqlxError A :=
  db_call (fun t => if ok then Some (t, f t) else None).

(** [thread_rng().fill_bytes]. *)
Definition draw {X} : D X bytes := fun d =>
  (mkDir (tables d) (restore_tokens d) (rate_limiter d) (S (io d)), Ok (d_rng E (io d))).

Definition PHONE_COOLDOWN_HOURS : Z := 24.
Definition SESSION_TTL_DAYS : Z := 90.

Definition live (u : User) : bool := match u_deleted_at u with None => true | Some _ => false end.

(** Postgres refuses a statement with a [TEXT] parameter that holds a zero byte. It is
    written out for the texts that come from a request: a nickname to claim is checked
    to be alphanumeric, the hash of a number is Argon2's encoding, and an HTTP header
    holds no zero byte. *)
Definition pg_text (s : bytes) : bool := forallb (fun c => negb (c =? 0)) s.

(** The live row of a phone hash; the partial unique index leaves at most one. *)
Definition live_by_phone (h : bytes) (t : Tables) : option (Z * User) :=
  find_first (fun '(_, u) => bool_decide (u_phone_hash u = h) && live u) (map_to_list (users t)).

(** The sequence of a [BIGSERIAL] column: [nextval] is drawn for the row to insert before
    the conflict is found, so it moves on whether a row is added or not; it fails once
    the sequence is exhausted. (A database that does not answer is taken not to have
    drawn.) *)
Definition bump_user_id (t : Tables) : Tables :=
  mkTables (users t) (next_user_id t + 1) (nickname_widths t) (phone_cooldown t) (pairing_bootstrap t)
    (sessions t) (backups t).

(** [INSERT ... ON CONFLICT (phone_hash) WHERE deleted_at IS NULL DO UPDATE ... RETURNING
    user_id]. *)
Definition upsert_pending (h : bytes) (t : Tables) : option (Tables * Z) :=
  let id := next_user_id t in
  if i64_max <? id then None
  else
    match live_by_phone h t with
    | Some (old, _) => Some (bump_user_id t, old)
    | None =>
        let u := mkUser h (hash_prefix h) false None None false (d_unix E) None [] [] in
        Some (set_users (<[id:=u]> (users t)) (bump_user_id t), id)
    end.

Definition find_or_create_pending_user (h : bytes) : D SqlxError Z := db_call (upsert_pending h).

Definition mark_verified (user_id : Z) : D SqlxError unit :=
  db_call (fun t =>
    Some (set_users (alter (fun u => mkUser (u_phone_hash u) (u_phone_hash_prefix u) true
                                       (u_nickname u) (u_discriminator u) (u_searchable u)
                                       (u_created_at u) (u_deleted_at u)
                                       (u_phone_search_hash u) (u_phone_search_hash_prefix u))
                       (as_i64 user_id) (users t)) t, tt)).

(** [ORDER BY user_id DESC LIMIT 1] on a condition that at most one row meets. *)
Definition find_user_by_phone_hash (h : bytes) : D SqlxError (option Z) :=
  db_read (fun t => fst <$> live_by_phone h t).

Definition live_user (user_id : Z) (t : Tables) : option User :=
  u ← users t !! as_i64 user_id; if live u then Some u else None.

Definition is_verified (user_id : Z) : D SqlxError (option bool) :=
  db_read (fun t => u_verified <$> live_user user_id t).

Definition is_searchable (user_id : Z) : D SqlxError (option bool) :=
  db_read (fun t => u_searchable <$> live_user user_id t).

Definition is_phone_in_cooldown (h : bytes) : D SqlxError bool :=
  let cutoff := d_unix E - PHONE_COOLDOWN_HOURS * 3600 in
  db_read (fun t =>
    0 <? len (retain (fun '(h', at_) => bool_decide (h' = h) && (cutoff <? at_)) (phone_cooldown t))).

(** [SELECT discriminator FROM users WHERE nickname = $1 AND discriminator IS
    NOT NULL], tombstones included. *)
Definition taken_discriminators (nickname : bytes) (t : Tables) : gset Z :=
  list_to_set (omap (fun '(_, u) =>
      if bool_decide (u_nickname u = Some nickname) then u_discriminator u else None)
    (map_to_list (users t))).

(** The widening loop; width 9 is the last. *)
Fixpoint claim_slot (taken : gset Z) (fuel : nat) (width : Z) : result (Z * Z) UsernameError :=
  match first_free_slot taken width with
  | Ok slot => Ok (slot, width)
  | Err DiscriminatorSpaceExhausted =>
      match fuel with
      | S fuel' => if width <? 9 then claim_slot taken fuel' (width + 1) else Err DiscriminatorSpaceExhausted
      | O => Err DiscriminatorSpaceExhausted
      end
  | Err e => Err e
  end.

(** [UNIQUE (nickname, discriminator)], as the [UPDATE] meets it. *)
Definition handle_taken (nickname : bytes) (slot user_id : Z) (t : Tables) : bool :=
  existsb (fun '(id, u) => negb (id =? user_id) && bool_decide (u_nickname u = Some nickname) &&
                           bool_decide (u_discriminator u = Some slot)) (map_to_list (users t)).

Definition set_handle (nickname : bytes) (slot : Z) (u : User) : User :=
  mkUser (u_phone_hash u) (u_phone_hash_prefix u) (u_verified u) (Some nickname) (Some slot)
    (u_searchable u) (u_created_at u) (u_deleted_at u) (u_phone_search_hash u)
    (u_phone_search_hash_prefix u).

Definition claim_username (user_id : Z) (nickname : bytes) : D ClaimError (Z * Z) :=
  _ <-- d_of_result (map_err ClaimUsername (validate_nickname nickname));
  r <-- d_map_err (fun _ => ClaimDb) (db_call (fun t =>
    let width := default MIN_DISCRIMINATOR_WIDTH (nickname_widths t !! nickname) in
    match claim_slot (taken_discriminators nickname t) 9 width with
    | Err e => Some (t, Err e)
    | Ok (slot, width) =>
        if handle_taken nickname (as_i32 slot) (as_i64 user_id) t then None
        else Some (mkTables (alter (set_handle nickname (as_i32 slot)) (as_i64 user_id) (users t))
                     (next_user_id t) (<[nickname:=width]> (nickname_widths t)) (phone_cooldown t)
                     (pairing_bootstrap t) (sessions t) (backups t), Ok (slot, width))
    end));
  d_of_result (map_err ClaimUsername r).

Definition find_user_by_handle (nickname : bytes) (discriminator : Z) : D SqlxError (option Z) :=
  db_select (pg_text nickname) (fun t => fst <$> find_first (fun '(_, u) =>
    bool_decide (u_nickname u = Some nickname) &&
    bool_decide (u_discriminator u = Some (as_i32 discriminator)) && live u) (map_to_list (users t))).

Definition set_searchable (user_id : Z) (searchable : bool) (phone_search_hash : option bytes)
  : D SqlxError unit :=
  let '(hash, prefix) := match searchable, phone_search_hash with
                         | true, Some h => (h, hash_prefix h)
                         | _, _ => ([], [])
                         end in
  db_call (fun t =>
    if pg_text hash && pg_text prefix then
      Some (set_users (alter (fun u => mkUser (u_phone_hash u) (u_phone_hash_prefix u) (u_verified u)
                                         (u_nickname u) (u_discriminator u) searchable
                                         (u_created_at u) (u_deleted_at u) hash prefix)
                         (as_i64 user_id) (users t)) t, tt)
    else None).

(** [row.get::<i32>("discriminator")] panics on NULL, but no row has a nickname
    without one. *)
Definition handle_for (user_id : Z) : D SqlxError (option bytes) :=
  r <-- db_read (fun t => u ← users t !! as_i64 user_id; n ← u_nickname u; Some (n, default 0 (u_discriminator u)));
  match r with
  | None => d_ret None
  | Some (nickname, discriminator) =>
      w <-- db_read (fun t => nickname_widths t !! nickname);
      d_ret (Some (format_handle nickname discriminator (default MIN_DISCRIMINATOR_WIDTH w)))
  end.

Definition scrub (now : Z) (u : User) : User :=
  mkUser [] [] false (u_nickname u) (u_discriminator u) false (u_created_at u) (Some now) [] [].

Definition erase_user (user_id : Z) : D SqlxError unit :=
  db_call (fun t =>
    let id := as_i64 user_id in
    let cool := match users t !! id with
                | Some u => phone_cooldown t ++ [(u_phone_hash u, d_unix E)]
                | None => phone_cooldown t
                end in
    Some (mkTables (alter (scrub (d_unix E)) id (users t)) (next_user_id t) (nickname_widths t) cool
            (delete id (pairing_bootstrap t)) (filter (fun s => s.2.1 <> id) (sessions t))
            (delete id (backups t)), tt)).

(** The foreign key to [users] fails the statement for an id that has no row. *)
Definition set_pairing_bootstrap (user_id : Z) (link : bytes) : D SqlxError unit :=
  db_call (fun t =>
    if pg_text link then
      match users t !! as_i64 user_id with
      | None => None
      | Some _ => Some (set_bootstraps (<[as_i64 user_id:=(link, d_unix E)]> (pairing_bootstrap t)) t, tt)
      end
    else None).

Definition consume_pairing_bootstrap (user_id : Z) : D SqlxError (option bytes) :=
  db_call (fun t =>
    match pairing_bootstrap t !! as_i64 user_id, users t !! as_i64 user_id with
    | Some (link, _), Some u =>
        if u_searchable u && live u
        then Some (set_bootstraps (delete (as_i64 user_id) (pairing_bootstrap t)) t, Some link)
        else Some (t, None)
    | _, _ => Some (t, None)
    end).

Definition upsert_backup (user_id : Z) (b : BackupUpload) : D SqlxError unit :=
  db_call (fun t =>
    match users t !! as_i64 user_id with
    | None => None
    | Some _ => Some (set_backups (<[as_i64 user_id:=mkBackup b 0 None (d_unix E)]> (backups t)) t, tt)
    end).

(** A token collision is a primary-key violation. *)
Definition create_session (user_id : Z) : D SqlxError bytes :=
  rnd <-- draw;
  let token := hex rnd in
  _ <-- db_call (fun t =>
    match sessions t !! token with
    | Some _ => None
    | None => Some (set_sessions (<[token:=(as_i64 user_id, d_unix E)]> (sessions t)) t, tt)
    end);
  d_ret token.

Definition session_user_id (token : bytes) : D SqlxError (option Z) :=
  let cutoff := d_unix E - SESSION_TTL_DAYS * 24 * 3600 in
  db_read (fun t =>
    match sessions t !! token with
    | Some (uid, created) =>
        match users t !! uid with
        | Some u => if (cutoff <? created) && live u then Some uid else None
        | None => None
        end
    | None => None
    end).

Definition random_token {X} : D X bytes := rnd <-- draw; d_ret (hex rnd).

Definition create_restore_token {X} (user_id ttl_secs : Z) : D X bytes :=
  token <-- random_token;
  fun d => (set_restore_tokens (<[token:=(user_id, d_unix E + ttl_secs)]> (restore_tokens d)) d, Ok token).

Definition restore_token_user {X} (token : bytes) : D X (option Z) := fun d =>
  match restore_tokens d !! token with
  | Some (user_id, expires_at) =>
      if d_unix E <? expires_at then (d, Ok (Some user_id))
      else (set_restore_tokens (delete token (restore_tokens d)) d, Ok None)
  | None => (d, Ok None)
  end.

Definition consume_restore_token {X} (token : bytes) : D X unit := fun d =>
  (set_restore_tokens (delete token (restore_tokens d)) d, Ok tt).

Definition backup_salts (user_id : Z) : D SqlxError (option (bytes * bytes)) :=
  db_read (fun t => (fun b => (salt_a (b_upload b), salt_pa (b_upload b))) <$> backups t !! as_i64 user_id).

(** ** Restore authentication *)

Inductive RestoreVerdict :=
| Match (row : BackupUpload)
| WrongPin (remaining : Z)
| WrongPhrase
| Locked (until : Z).

Definition lockout_hours (lockout_index : Z) : Z :=
  if lockout_index <=? 1 then 1 else if lockout_index =? 2 then 4 else 24.

Fixpoint xor_fold (acc : Z) (a b : bytes) : Z :=
  match a, b with
  | x :: a', y :: b' => xor_fold (Z.lor acc (Z.lxor x y)) a' b'
  | _, _ => acc
  end.

Definition ct_eq (a b : bytes) : bool := (len a =? len b) && (xor_fold 0 a b =? 0).

Definition is_locked (b : Backup) : option Z :=
  match locked_until b with
  | Some until => if d_unix E <? until then Some until else None
  | None => None
  end.

(** [SELECT ... FOR UPDATE] to commit. *)
Definition verify_backup_row (b : Backup) (auth : bytes) (is_pin : bool) : Backup * RestoreVerdict :=
  match (if is_pin then is_locked b else None) with
  | Some until => (b, Locked until)
  | None =>
      let expected := if is_pin then auth_pin_hash (b_upload b) else auth_phrase_hash (b_upload b) in
      if ct_eq auth expected then
        (mkBackup (b_upload b) 0 None (b_updated_at b), Match (b_upload b))
      else if negb is_pin then (b, WrongPhrase)
      else
        let attempts := wrap_i32 (pin_attempts b + 1) in
        if Z.rem attempts 10 =? 0 then
          let until := d_unix E + lockout_hours (Z.quot attempts 10) * 3600 in
          (mkBackup (b_upload b) attempts (Some until) (b_updated_at b), Locked until)
        else
          (mkBackup (b_upload b) attempts (locked_until b) (b_updated_at b),
           WrongPin (10 - Z.rem attempts 10))
  end.

Definition verify_backup_auth (user_id : Z) (auth : bytes) (is_pin : bool)
  : D SqlxError (option RestoreVerdict) :=
  db_call (fun t =>
    match backups t !! as_i64 user_id with
    | None => Some (t, None)
    | Some b =>
        let '(b', v) := verify_backup_row b auth is_pin in
        Some (set_backups (<[as_i64 user_id:=b']> (backups t)) t, Some v)
    end).

(** ** [impl PrefixIndex for DirectoryStore] *)

(** The entries of a prefix, and a failed query, a prefix with a zero byte included, as
    an empty bucket. *)
Definition bucket_rows (prefix : bytes) (t : Tables) : list PhoneEntry :=
  omap (fun '(id, u) =>
    if bool_decide (u_phone_search_hash_prefix u = prefix) && u_searchable u && live u
    then Some (mkPhoneEntry (u_phone_search_hash u) id) else None) (map_to_list (users t)).

Definition store_bucket {X} (prefix : bytes) : D X (list PhoneEntry) := fun d =>
  match db_select (pg_text prefix) (bucket_rows prefix) d with
  | (d', Ok rows) => (d', Ok rows)
  | (d', Err _) => (d', Ok [])
  end.

End Store.

#[export] Instance store_index {X} : PrefixIndex DirEnv (D X (list PhoneEntry)) :=
  fun E prefix => store_bucket E prefix.
