(* ===== verification/DirApi.v ===== *)
(** * The directory's HTTP handlers (directory/src/api.rs, attestation.rs)

    One definition per handler: the whole of it, guards, rate limits, vendor call
    and store calls in their order, with what it answers. [App] is the part of
    [AppState] that does not change while the server runs. *)

From S2P Require Import Prelude Text External Proto DirLogic DirStore.

(** ** Errors *)

Inductive ApiError :=
| BadRequest (m : bytes)
| Unauthorized
| FeatureDisabled
| VendorUnavailable
| RateLimited
| NotFound
| Internal
| WrongSecret (remaining : option Z)
| LockedOut (seconds : Z).

(** The status code of [into_response]. *)
Definition status_code (e : ApiError) : Z :=
  match e with
  | BadRequest _ => 400
  | Unauthorized => 401
  | FeatureDisabled | VendorUnavailable => 503
  | RateLimited => 429
  | NotFound => 404
  | Internal => 500
  | WrongSecret _ => 401
  | LockedOut _ => 429
  end.

(** ** Requests *)

(** The two headers the handlers read: their first value, when it is present and
    visible ASCII ([to_str] succeeds). *)
Record Headers := mkHeaders {
  authorization : option bytes;
  x_forwarded_for : option bytes;
}.

Record DirectoryConfig := mkConfig { accounts_enabled : bool; search_enabled : bool }.

(** [env_flag]. *)
Definition env_flag (v : option bytes) (default : bool) : bool :=
  match v with
  | Some s => bool_decide (s ∈ [str "1"; str "true"; str "TRUE"; str "yes"])
  | None => default
  end.

Definition DirectoryConfig_from_env (accounts search : option bytes) : DirectoryConfig :=
  mkConfig (env_flag accounts true) (env_flag search true).

Record App := mkApp {
  vendor : OtpVendor;
  pepper : bytes;
  config : DirectoryConfig;
  app_attestation_key : option bytes;
}.

Fixpoint drop_while (p : byte -> bool) (s : bytes) : bytes :=
  match s with [] => [] | b :: s' => if p b then drop_while p s' else s end.

(** [str::trim] on a header value, which is ASCII. *)
Definition trim_ascii (s : bytes) : bytes :=
  reverse (drop_while is_ascii_whitespace (reverse (drop_while is_ascii_whitespace s))).

Fixpoint take_until (c : byte) (s : bytes) : bytes :=
  match s with [] => [] | b :: s' => if b =? c then [] else b :: take_until c s' end.

(** [v.rsplit(',').next()]: what follows the last comma. *)
Definition last_entry (s : bytes) : bytes := reverse (take_until 44 (reverse s)).

(** [s.trim().is_empty()]. *)
Definition is_blank (s : bytes) : bool := bool_decide (trim s = []).

Fixpoint strip_prefix (p s : bytes) : option bytes :=
  match p, s with
  | [], _ => Some s
  | x :: p', y :: s' => if x =? y then strip_prefix p' s' else None
  | _ :: _, [] => None
  end.

(** The address a request came from; [peer] is the socket's. *)
Definition client_ip `{IpParse} (headers : Headers) (peer : bytes) : bytes :=
  default peer (v ← x_forwarded_for headers; ip_parse (trim_ascii (last_entry v))).

(** [is_hex(s, n)]. *)
Definition is_hex (s : bytes) (n : Z) : bool := (len s =? n) && forallb is_ascii_hexdigit s.

(** Run a computation and look at how it ended. *)
Definition d_try {E F A} (m : D E A) : D F (result A E) := fun d => let '(d', r) := m d in (d', Ok r).

(** A rate-limiter call. *)
Definition limited {F : Type} (f : RateLimiter -> RateLimiter * bool) : D F bool := fun d =>
  let '(ws, ok) := f (rate_limiter d) in (set_rate_limiter ws d, Ok ok).

(** [.map_err(|_| ApiError::Internal)]. *)
Definition internal {A} (m : D SqlxError A) : D ApiError A := d_map_err (fun _ => Internal) m.

(** [if !condition { return Err(e) }]. *)
Definition require (b : bool) (e : ApiError) : D ApiError unit := if b then d_ret tt else d_err e.

(** ** attestation.rs *)

Definition TOKEN_TTL_SECS : Z := 30 * 24 * 60 * 60.
Definition BATCH_SIZE : nat := 20.

Definition decode_hex_32 (s : bytes) : option (option bytes) :=
  if negb (len s =? 64) then Some None else decode_hex_pairs s.

(** [None] is the panic of a slice inside of a character, [Some (Err tt)] the
    startup error; the key is given by its seed. *)
Definition signing_key_from_env (key dev : option bytes) : option (result (option bytes) unit) :=
  match key with
  | Some h => r ← decode_hex_32 h; Some (seed <-? ok_or r tt; Ok (Some seed))
  | None => Some (Ok (match dev with Some _ => Some (replicate 32 42) | None => None end))
  end.

Section Api.
Context `{Argon2id, Base64, DefaultHasher, IpParse, Ed25519}.
Context (E : DirEnv) (app : App).
Implicit Types (headers : Headers) (peer : bytes).

Fixpoint mint_n (key : bytes) (expires_at : Z) (n : nat) : D ApiError (list AttestationToken) :=
  match n with
  | O => d_ret []
  | S n' =>
      rnd <-- draw E;
      ts <-- mint_n key expires_at n';
      d_ret (AttestationToken_sign key rnd expires_at :: ts)
  end.

Definition mint_batch (key : bytes) : D ApiError (list AttestationToken) :=
  mint_n key (d_unix E + TOKEN_TTL_SECS) BATCH_SIZE.

(** ** Handlers *)

Definition authenticate headers : D ApiError Z :=
  value <-- d_of_option (authorization headers) Unauthorized;
  token <-- d_of_option (strip_prefix (str "Bearer ") value) Unauthorized;
  u <-- internal (session_user_id E token);
  d_of_option u Unauthorized.

Definition check_ip headers peer : D ApiError unit :=
  ok <-- limited (check_and_bump_ip (d_mono E) (client_ip headers peer) UNAUTH_REQUESTS_PER_MINUTE_PER_IP);
  require ok RateLimited.

Definition check_cooldown (hash : bytes) : D ApiError unit :=
  cooling <-- internal (is_phone_in_cooldown E hash);
  require (negb cooling) (BadRequest (str "phone number is in cooldown after a recent deletion")).

Definition signup_handler headers peer (phone : bytes) : D ApiError bytes :=
  _ <-- require (accounts_enabled (config app)) FeatureDisabled;
  _ <-- check_ip headers peer;
  e164 <-- d_of_result (map_err (fun _ => BadRequest (str "invalid phone")) (normalize_e164 phone));
  hash <-- d_of_result (map_err (fun _ => Internal) (phone_hash e164 (pepper app)));
  _ <-- check_cooldown hash;
  _ <-- d_of_result (map_err (fun e => match e with Unavailable => VendorUnavailable | Other => Internal end)
                       (send_code (vendor app) e164));
  _ <-- internal (find_or_create_pending_user E hash);
  d_ret (str "code_sent").

Definition verify_error (e : VerifyError) : ApiError :=
  match e with
  | CodeRejected => BadRequest (str "code rejected")
  | InvalidPhoneFormat => BadRequest (str "invalid phone")
  | VerifyVendorUnavailable => VendorUnavailable
  | HashError | VendorFailed => Internal
  end.

(** The response: user id, session token, verified. *)
Definition verify_handler headers peer (phone code : bytes) : D ApiError (Z * bytes * bool) :=
  _ <-- require (accounts_enabled (config app)) FeatureDisabled;
  _ <-- check_ip headers peer;
  e164 <-- d_of_result (map_err (fun _ => BadRequest (str "invalid phone")) (normalize_e164 phone));
  ok <-- limited (check_and_bump_phone (d_mono E) (phone_rate_key e164) VERIFY_ATTEMPTS_PER_MINUTE);
  _ <-- require ok RateLimited;
  hash <-- d_of_result (map_err verify_error (verify_phone (vendor app) phone code (pepper app)));
  _ <-- check_cooldown hash;
  user_id <-- internal (find_or_create_pending_user E hash);
  _ <-- internal (mark_verified E user_id);
  token <-- internal (create_session E user_id);
  d_ret (user_id, token, true).

Definition claim_username_handler headers (nickname : bytes) : D ApiError bytes :=
  user_id <-- authenticate headers;
  r <-- d_map_err (fun e => match e with
                            | ClaimUsername _ => BadRequest (str "invalid or taken nickname")
                            | ClaimDb => Internal
                            end) (claim_username E user_id nickname);
  d_ret (format_handle nickname r.1 r.2).

(** Nonce, expiry and signature of each token, in base64. *)
Definition issue_attestation_tokens headers : D ApiError (list (bytes * Z * bytes)) :=
  _ <-- authenticate headers;
  key <-- d_of_option (app_attestation_key app) FeatureDisabled;
  ts <-- mint_batch key;
  d_ret ((fun t => (b64_encode (token_nonce t), expires_at t, b64_encode (signature t))) <$> ts).

Definition get_searchable headers : D ApiError bool :=
  user_id <-- authenticate headers;
  s <-- internal (is_searchable E user_id);
  d_of_option s Unauthorized.

Definition set_searchable_handler headers (searchable : bool) (phone_search_hash : option bytes)
  : D ApiError unit :=
  user_id <-- authenticate headers;
  hash <-- (if searchable then
              h <-- d_of_option phone_search_hash
                     (BadRequest (str "phone_search_hash is required when searchable is true"));
              _ <-- require (is_hex h 64)
                     (BadRequest (str "phone_search_hash must be a 64-hex-char SHA-256 digest"));
              d_ret (Some h)
            else d_ret None);
  internal (set_searchable E user_id searchable hash).

Definition username_lookup headers (nickname : bytes) (discriminator : Z) : D ApiError Z :=
  _ <-- authenticate headers;
  u <-- internal (find_user_by_handle E nickname discriminator);
  d_of_option u NotFound.

Definition set_pairing_bootstrap_handler headers (contact_link_b64 : bytes) : D ApiError unit :=
  user_id <-- authenticate headers;
  _ <-- require (negb (is_blank contact_link_b64)) (BadRequest (str "contact_link_b64 must not be empty"));
  internal (set_pairing_bootstrap E user_id contact_link_b64).

(** The per-caller limit of [search] and [request_pairing_bootstrap]. *)
Definition check_caller (caller_id : Z) : D ApiError unit :=
  v <-- internal (is_verified E caller_id);
  let limit := if default false v then VERIFIED_SEARCH_PER_MINUTE else UNVERIFIED_SEARCH_PER_MINUTE in
  ok <-- limited (check_and_bump (d_mono E) caller_id limit);
  require ok RateLimited.

Definition request_pairing_bootstrap headers (user_id : Z) : D ApiError bytes :=
  _ <-- require (search_enabled (config app)) FeatureDisabled;
  caller_id <-- authenticate headers;
  _ <-- check_caller caller_id;
  link <-- internal (consume_pairing_bootstrap E user_id);
  d_of_option link NotFound.

Definition delete_account headers : D ApiError unit :=
  user_id <-- authenticate headers;
  internal (erase_user E user_id).

(** The results of a bucket: those of its members that have a handle. *)
Fixpoint search_results (entries : list PhoneEntry) : D ApiError (list (Z * bytes * bytes)) :=
  match entries with
  | [] => d_ret []
  | entry :: entries' =>
      h <-- d_try (handle_for E (pe_user_id entry));
      rest <-- search_results entries';
      d_ret (match h with
             | Ok (Some handle) => (pe_user_id entry, handle, pe_phone_hash entry) :: rest
             | _ => rest
             end)
  end.

Definition search headers (prefix : bytes) : D ApiError (list (Z * bytes * bytes)) :=
  _ <-- require (search_enabled (config app)) FeatureDisabled;
  caller_id <-- authenticate headers;
  _ <-- check_caller caller_id;
  _ <-- require (len prefix =? PREFIX_LEN_HEX)
         (BadRequest (str "prefix must be exactly PREFIX_LEN_HEX hex chars"));
  entries <-- search_by_prefix E prefix;
  search_results entries.

(** The base64 fields of a bundle, in the order of [BackupUpload]. *)
Record BackupPutRequest := mkPut {
  put_blob : bytes; put_w_pin : bytes; put_salt_p : bytes; put_w_phrase : bytes; put_salt_f : bytes;
  put_auth_pin : bytes; put_salt_a : bytes; put_auth_phrase : bytes; put_salt_pa : bytes;
}.

Definition b64 (s : bytes) : D ApiError bytes :=
  d_of_option (b64_decode s) (BadRequest (str "all bundle fields must be base64")).

Definition put_backup headers (req : BackupPutRequest) : D ApiError unit :=
  user_id <-- authenticate headers;
  v1 <-- b64 (put_blob req);
  v2 <-- b64 (put_w_pin req);
  v3 <-- b64 (put_salt_p req);
  v4 <-- b64 (put_w_phrase req);
  v5 <-- b64 (put_salt_f req);
  v6 <-- b64 (put_auth_pin req);
  v7 <-- b64 (put_salt_a req);
  v8 <-- b64 (put_auth_phrase req);
  v9 <-- b64 (put_salt_pa req);
  let upload := mkUpload v1 v2 v3 v4 v5 v6 v7 v8 v9 in
  _ <-- require (negb (existsb (fun s => negb (len s =? 16))
                         [salt_p upload; salt_f upload; salt_a upload; salt_pa upload]))
         (BadRequest (str "salts must be 16 bytes"));
  _ <-- require (negb (negb (len (auth_pin_hash upload) =? 32) || negb (len (auth_phrase_hash upload) =? 32)))
         (BadRequest (str "auth hashes must be 32 bytes"));
  _ <-- require (negb ((len (blob upload) =? 0) || (len (w_pin upload) =? 0) || (len (w_phrase upload) =? 0)))
         (BadRequest (str "ciphertexts must not be empty"));
  internal (upsert_backup E user_id upload).

Definition RESTORE_TOKEN_TTL_SECS : Z := 600.

Record RestoreBeginResponse := mkBegin {
  rb_restore_token : bytes; rb_session_token : bytes; rb_salt_a : bytes; rb_salt_pa : bytes;
}.

Definition restore_begin (phone code : bytes) : D ApiError RestoreBeginResponse :=
  _ <-- require (accounts_enabled (config app)) FeatureDisabled;
  hash <-- d_of_result (map_err verify_error (verify_phone (vendor app) phone code (pepper app)));
  u <-- internal (find_user_by_phone_hash E hash);
  user_id <-- d_of_option u NotFound;
  s <-- internal (backup_salts E user_id);
  salts <-- d_of_option s NotFound;
  session_token <-- internal (create_session E user_id);
  restore_token <-- create_restore_token E user_id RESTORE_TOKEN_TTL_SECS;
  d_ret (mkBegin restore_token session_token (b64_encode salts.1) (b64_encode salts.2)).

Definition parse_method (m : bytes) : option bool :=
  if bool_decide (m = str "pin") then Some true
  else if bool_decide (m = str "phrase") then Some false
  else None.

Definition bad_method : bytes :=
  str "method must be " ++ [34] ++ str "pin" ++ [34] ++ str " or " ++ [34] ++ str "phrase" ++ [34].

Definition encode_bundle (row : BackupUpload) : BackupPutRequest :=
  mkPut (b64_encode (blob row)) (b64_encode (w_pin row)) (b64_encode (salt_p row))
    (b64_encode (w_phrase row)) (b64_encode (salt_f row)) (b64_encode (auth_pin_hash row))
    (b64_encode (salt_a row)) (b64_encode (auth_phrase_hash row)) (b64_encode (salt_pa row)).

(** The response has the shape of the upload. *)
Definition restore_complete (restore_token method auth_b64 : bytes) : D ApiError BackupPutRequest :=
  _ <-- require (accounts_enabled (config app)) FeatureDisabled;
  u <-- restore_token_user E restore_token;
  user_id <-- d_of_option u Unauthorized;
  is_pin <-- d_of_option (parse_method method) (BadRequest bad_method);
  auth <-- d_of_option (b64_decode auth_b64) (BadRequest (str "auth must be base64"));
  _ <-- require (len auth =? 32) (BadRequest (str "auth must be 32 bytes"));
  v <-- internal (verify_backup_auth E user_id auth is_pin);
  verdict <-- d_of_option v NotFound;
  match verdict with
  | Match row =>
      _ <-- consume_restore_token restore_token;
      d_ret (encode_bundle row)
  | WrongPin remaining => d_err (WrongSecret (Some remaining))
  | WrongPhrase => d_err (WrongSecret None)
  | Locked until => d_err (LockedOut (Z.max (until - d_unix E) 1))
  end.

End Api.
