(* ===== verification/DirNames.v ===== *)
(** * Handles and rate limits

    Discriminators render to strings that read back as the same integer at every
    width; the slot search finds the least free slot and always ends; the rate
    limiter counts per key. *)

From S2P Require Import Prelude Text External Proto DirLogic DirStore.

(** ** Rendering *)

Lemma len_replicate {A} n (x : A) : len (replicate n x) = Z.of_nat n.
Proof. unfold len. by rewrite length_replicate. Qed.

(** A discriminator is rendered so that it reads back as the same integer at
    any width, is never shorter than the width, and widening a nickname only adds
    leading zeros to its existing handles. *)
Theorem discriminator_rendering v w w' :
  0 <= v < u32_modulus -> 0 <= w <= w' ->
  read_decimal (render_discriminator v w) = v /\
  len (render_discriminator v w) = Z.max w (len (decimal v)) /\
  exists n, render_discriminator v w' = replicate n 48 ++ render_discriminator v w.
Proof.
  intros Hv Hw. unfold render_discriminator, zero_padded. split; [|split].
  - by rewrite read_decimal_zeros, decimal_value.
  - rewrite len_app, len_replicate. len_lia.
  - exists (Z.to_nat (w' - len (decimal v)) - Z.to_nat (w - len (decimal v)))%nat.
    rewrite app_assoc, <- replicate_add. do 2 f_equal. lia.
Qed.

Lemma discriminator_rendering_witness :
  render_discriminator 5 2 = str "05" /\ render_discriminator 5 3 = str "005" /\
  read_decimal (render_discriminator 5 2) = 5.
Proof.
  split; [reflexivity|]. split; [reflexivity|].
  apply (discriminator_rendering 5 2 3); unfold u32_modulus; lia.
Defined.

(** ** Free slots *)

Lemma free_slot_from_sound taken max fuel v r :
  free_slot_from taken max fuel v = Some r ->
  v <= r <= max /\ (r ∉ taken) /\ forall x, v <= x < r -> x ∈ taken.
Proof.
  revert v. induction fuel as [|fuel IH]; intros v H; simpl in H; [done|].
  destruct (Z.ltb_spec max v); [done|]. case_bool_decide as Hv.
  - apply IH in H as (H1 & H2 & H3). split; [lia|]. split; [done|]. intros x Hx.
    destruct (decide (x = v)) as [->|]; [done|]. apply H3. lia.
  - simplify_eq. split; [lia|]. split; [done|]. intros x Hx. lia.
Qed.

(** The integers from [v] on, [n] of them. *)
Fixpoint zseq (v : Z) (n : nat) : list Z := match n with O => [] | S n' => v :: zseq (v + 1) n' end.

Lemma zseq_elem v n x : x ∈ zseq v n <-> v <= x < v + Z.of_nat n.
Proof.
  revert v. induction n as [|n IH]; intros v; simpl; [set_solver by lia|].
  rewrite elem_of_cons, IH. lia.
Qed.

Lemma zseq_NoDup v n : NoDup (zseq v n).
Proof.
  revert v. induction n as [|n IH]; intros v; simpl; constructor; [|done].
  rewrite zseq_elem. lia.
Qed.

Lemma zseq_size v n (s : gset Z) : (forall x, x ∈ zseq v n -> x ∈ s) -> (n <= size s)%nat.
Proof.
  intros H. assert (Hl : length (zseq v n) = n) by (clear; revert v; induction n; intros; simpl; auto).
  assert (Hs : (list_to_set (zseq v n) : gset Z) ⊆ s) by set_solver.
  apply subseteq_size in Hs. rewrite size_list_to_set in Hs by apply zseq_NoDup. lia.
Qed.

Lemma free_slot_from_none taken max fuel v :
  free_slot_from taken max fuel v = None ->
  (forall x, v <= x <= max -> x ∈ taken) \/ (forall x, x ∈ zseq v fuel -> x ∈ taken).
Proof.
  revert v. induction fuel as [|fuel IH]; intros v H; simpl in *; [right; set_solver|].
  destruct (Z.ltb_spec max v); [left; intros; lia|]. case_bool_decide as Hv; [|done].
  apply IH in H as [H|H].
  - left. intros x Hx. destruct (decide (x = v)) as [->|]; [done|]. apply H. lia.
  - right. intros x [->|Hx]%elem_of_cons; [done|]. by apply H.
Qed.

(** The search ends with the least free slot, or when every slot is taken: it
    never runs out of turns. *)
Lemma first_free_slot_cases taken width :
  (exists v, first_free_slot taken width = Ok v /\ 1 <= v <= slot_count width /\ (v ∉ taken) /\
     forall x, 1 <= x < v -> x ∈ taken) \/
  (first_free_slot taken width = Err DiscriminatorSpaceExhausted /\
     forall x, 1 <= x <= slot_count width -> x ∈ taken).
Proof.
  unfold first_free_slot. destruct (free_slot_from taken (slot_count width) (S (size taken)) 1) as [v|] eqn:H.
  - apply free_slot_from_sound in H as (H1 & H2 & H3). left. exists v. done.
  - right. split; [done|]. apply free_slot_from_none in H as [H|H]; [done|].
    apply zseq_size in H. lia.
Qed.

(** The slot search of a claim returns the least discriminator of the
    nickname's width that no row holds, and fails exactly when all are taken. *)
Theorem first_free_slot_least taken width v :
  first_free_slot taken width = Ok v <->
  1 <= v <= slot_count width /\ (v ∉ taken) /\ forall x, 1 <= x < v -> x ∈ taken.
Proof.
  destruct (first_free_slot_cases taken width) as [(u & E & H1 & H2 & H3)|(E & H)]; rewrite E.
  - split; [intros; by simplify_eq|]. intros (G1 & G2 & G3). f_equal.
    destruct (Z.lt_trichotomy u v) as [?|[?|?]]; [exfalso; apply H2, G3; lia|done|exfalso; apply G2, H3; lia].
  - split; [done|]. intros (G1 & G2 & _). exfalso. by apply G2, H.
Qed.

(** ** The widening loop *)

Lemma claim_slot_ok taken fuel width slot w :
  claim_slot taken fuel width = Ok (slot, w) ->
  width <= w /\ (width <= 9 -> w <= 9) /\ 1 <= slot <= slot_count w /\ (slot ∉ taken) /\
  (width < w -> forall x, 1 <= x <= slot_count (w - 1) -> x ∈ taken).
Proof.
  revert width. induction fuel as [|fuel IH]; intros width H; simpl in H;
    destruct (first_free_slot_cases taken width) as [(v & E & H1 & H2 & H3)|(E & H3)]; rewrite E in H;
    simplify_eq; try by (split; [lia|]; split; [lia|]; split; [done|]; split; [done|]; lia).
  destruct (Z.ltb_spec width 9); [|done]. apply IH in H as (G1 & G2 & G3 & G4 & G5).
  split; [lia|]. split; [lia|]. split; [done|]. split; [done|]. intros Hw.
  destruct (decide (w = width + 1)) as [->|]; [by replace (width + 1 - 1) with width by lia|].
  apply G5. lia.
Qed.

(** The loop fails only when the nine-digit space is full. *)
Lemma claim_slot_err taken width e :
  1 <= width <= 9 -> claim_slot taken 9 width = Err e ->
  e = DiscriminatorSpaceExhausted /\ forall x, 1 <= x <= slot_count 9 -> x ∈ taken.
Proof.
  intros Hw. assert (forall fuel width, 9 - width <= Z.of_nat fuel -> width <= 9 ->
    claim_slot taken fuel width = Err e ->
    e = DiscriminatorSpaceExhausted /\ forall x, 1 <= x <= slot_count 9 -> x ∈ taken) as Haux.
  2:{ apply Haux; lia. }
  clear. induction fuel as [|fuel IH]; intros width Hf Hw H; simpl in H;
    destruct (first_free_slot_cases taken width) as [(v & E & H1 & H2 & H3)|(E & H3)]; rewrite E in H; try done.
  - assert (width = 9) as -> by lia. by simplify_eq.
  - destruct (Z.ltb_spec width 9).
    + apply IH in H; [done|lia|lia].
    + assert (width = 9) as -> by lia. by simplify_eq.
Qed.

(** ** The rate limiter *)

(** What a key has used of its window, at a time. *)
Definition used (now : Z) (b : Bucket) (key : Z) (ws : RateLimiter) : Z :=
  match ws !! (b, key) with
  | Some w => if 60000000000 <=? now - w_started w then 0 else w_count w
  | None => 0
  end.

(** A rate-limited call is let through exactly when its own key has used less
    than its limit in the current window; a call that is let through is counted,
    one that is refused is not, and no other key, of this population or another,
    is touched. *)
Theorem bump_counts now b key limit ws :
  0 <= used now b key ws < u32_modulus - 1 -> 0 < limit ->
  let '(ws', ok) := bump now b key limit ws in
  ok = (used now b key ws <? limit) /\
  used now b key ws' = used now b key ws + (if ok then 1 else 0) /\
  forall k, k <> (b, key) -> ws' !! k = ws !! k.
Proof.
  intros Hu Hl. unfold bump, used in *.
  assert (H60 : (60000000000 <=? now - now) = false) by (apply Z.leb_gt; lia).
  destruct (ws !! (b, key)) as [w|] eqn:Hw; simpl in *.
  - destruct (60000000000 <=? now - w_started w) eqn:E; simpl in *.
    + destruct (Z.leb_spec limit 0); [lia|]. rewrite lookup_insert_eq. simpl. rewrite H60.
      split; [symmetry; by apply Z.ltb_lt|]. split; [done|]. intros. by rewrite lookup_insert_ne.
    + destruct (Z.leb_spec limit (w_count w)); rewrite lookup_insert_eq; simpl; rewrite E;
        (split; [symmetry; by (apply Z.ltb_lt + apply Z.ltb_ge)|]); split;
        try (intros; by rewrite lookup_insert_ne); [lia|]. rewrite wrap32_small; lia.
  - rewrite H60. simpl. destruct (Z.leb_spec limit 0); [lia|]. rewrite lookup_insert_eq. simpl. rewrite H60.
    split; [symmetry; by apply Z.ltb_lt|]. split; [done|]. intros. by rewrite lookup_insert_ne.
Qed.

Lemma bump_counts_witness :
  let ws := (bump 5 Phone 7 1 ∅).1 in
  (bump 6 Phone 7 1 ws).2 = false /\ (bump 6 Ip 7 1 ws).2 = true.
Proof.
  intros ws.
  pose proof (bump_counts 6 Phone 7 1 ws) as H1. pose proof (bump_counts 6 Ip 7 1 ws) as H2.
  split.
  - destruct (bump 6 Phone 7 1 ws) as [ws' ok] eqn:E. destruct H1 as [-> _]; vm_compute; try split; congruence.
  - destruct (bump 6 Ip 7 1 ws) as [ws' ok] eqn:E. destruct H2 as [-> _]; vm_compute; try split; congruence.
Defined.
