(* ===== verification/DirInv.v ===== *)
(** * Invariants of the directory

    The tables stay consistent under every request: ids, one live account per
    phone number, unique handles inside the nickname's width, and search hashes
    only for accounts that opted in. Handlers are decomposed with a small Hoare
    logic: a triple has a postcondition for success and one for an error. *)

From S2P Require Import Prelude Text External Proto DirLogic DirStore DirApi DirNames.

(** ** Triples *)

Definition triple {X A} (P : Dir -> Prop) (m : D X A) (Q : A -> Dir -> Prop) (R : Dir -> Prop) : Prop :=
  forall d, P d -> match m d with (d', Ok a) => Q a d' | (d', Err _) => R d' end.

Section Triples.
Context {X : Type}.
Implicit Types (P R : Dir -> Prop).

Lemma triple_bind {A B} P (m : D X A) Q (k : A -> D X B) Q' R :
  triple P m Q R -> (forall a, triple (Q a) (k a) Q' R) -> triple P (d_bind m k) Q' R.
Proof.
  intros Hm Hk d Hd. unfold d_bind. specialize (Hm d Hd).
  destruct (m d) as [d' [a|x]]; [by apply Hk|done].
Qed.

Lemma triple_ret {A} P (a : A) (Q : A -> Dir -> Prop) R :
  (forall d, P d -> Q a d) -> triple P (d_ret a : D X A) Q R.
Proof. intros H d Hd. by apply H. Qed.

Lemma triple_err {A} P (x : X) (Q : A -> Dir -> Prop) R :
  (forall d, P d -> R d) -> triple P (d_err x : D X A) Q R.
Proof. intros H d Hd. by apply H. Qed.

Lemma triple_result {A} P (r : result A X) (Q : A -> Dir -> Prop) R :
  (forall a d, r = Ok a -> P d -> Q a d) -> (forall d, P d -> R d) -> triple P (d_of_result r) Q R.
Proof. intros H1 H2 d Hd. unfold d_of_result. destruct r; [by apply H1|by apply H2]. Qed.

Lemma triple_option {A} P (o : option A) (x : X) (Q : A -> Dir -> Prop) R :
  (forall a d, o = Some a -> P d -> Q a d) -> (forall d, P d -> R d) -> triple P (d_of_option o x) Q R.
Proof. intros H1 H2 d Hd. unfold d_of_option, d_of_result. destruct o; simpl; [by apply H1|by apply H2]. Qed.

Lemma triple_map_err {Y A} P (f : Y -> X) (m : D Y A) Q R :
  triple P m Q R -> triple P (d_map_err f m) Q R.
Proof.
  intros Hm d Hd. unfold d_map_err. specialize (Hm d Hd). by destruct (m d) as [d' [a|y]].
Qed.

Lemma triple_conseq {A} (P P' : Dir -> Prop) (m : D X A) (Q Q' : A -> Dir -> Prop) (R R' : Dir -> Prop) :
  triple P m Q R -> (forall d, P' d -> P d) -> (forall a d, Q a d -> Q' a d) -> (forall d, R d -> R' d) ->
  triple P' m Q' R'.
Proof. intros H H1 H2 H3 d Hd. specialize (H d (H1 d Hd)). destruct (m d) as [d' [a|x]]; eauto. Qed.
End Triples.

(** A property of the tables alone. *)
Definition on_tables (P : Tables -> Prop) (d : Dir) : Prop := P (tables d).

(** [m] keeps a property of the tables, whatever it answers. *)
Definition keeps {X A} (P : Tables -> Prop) (m : D X A) : Prop :=
  triple (on_tables P) m (fun _ => on_tables P) (on_tables P).

Section Keeps.
Context (P : Tables -> Prop) (E : DirEnv).

Lemma keeps_bind {X A B} (m : D X A) (k : A -> D X B) :
  keeps P m -> (forall a, keeps P (k a)) -> keeps P (d_bind m k).
Proof. intros Hm Hk. by eapply triple_bind. Qed.
(** [m] keeps [P], and what it answers satisfies [S]. *)
Lemma keeps_bind_safe {X A B} (S : A -> Prop) (m : D X A) (k : A -> D X B) :
  triple (on_tables P) m (fun a d => on_tables P d /\ S a) (on_tables P) ->
  (forall a, S a -> keeps P (k a)) -> keeps P (d_bind m k).
Proof. intros Hm Hk. eapply triple_bind; [exact Hm|]. intros a d [Hd Ha]. by apply (Hk a Ha). Qed.
Lemma keeps_bind_option {X A B} (o : option A) (x : X) (k : A -> D X B) :
  (forall a, o = Some a -> keeps P (k a)) -> keeps P (d_bind (d_of_option o x) k).
Proof. intros Hk d Hd. destruct o; [by apply Hk|done]. Qed.
Lemma keeps_bind_result {X A B} (r : result A X) (k : A -> D X B) :
  (forall a, r = Ok a -> keeps P (k a)) -> keeps P (d_bind (d_of_result r) k).
Proof. intros Hk d Hd. destruct r; [by apply Hk|done]. Qed.
Lemma keeps_ret {X A} (a : A) : keeps P (d_ret a : D X A).
Proof. by apply triple_ret. Qed.
Lemma keeps_err {X A} (x : X) : keeps P (d_err x : D X A).
Proof. by apply triple_err. Qed.
Lemma keeps_result {X A} (r : result A X) : keeps P (d_of_result r).
Proof. by apply triple_result. Qed.
Lemma keeps_option {X A} (o : option A) (x : X) : keeps P (d_of_option o x).
Proof. by apply triple_option. Qed.
Lemma keeps_map_err {X Y A} (f : Y -> X) (m : D Y A) : keeps P m -> keeps P (d_map_err f m).
Proof. apply triple_map_err. Qed.
Lemma keeps_require b e : keeps P (require b e).
Proof. destruct b; [apply keeps_ret|apply keeps_err]. Qed.
Lemma keeps_limited {X} f : keeps P (limited f : D X bool).
Proof. intros d Hd. unfold limited. by destruct (f (rate_limiter d)). Qed.
Lemma keeps_draw {X} : keeps P (draw E : D X bytes).
Proof. by intros d Hd. Qed.
Lemma keeps_call {A} (f : Tables -> option (Tables * A)) :
  (forall t t' a, P t -> f t = Some (t', a) -> P t') -> keeps P (db_call E f).
Proof.
  intros Hf d Hd. unfold db_call. destruct (d_db_ok E (io d)); [|done].
  destruct (f (tables d)) as [[t a]|] eqn:Ef; [|done]. by eapply Hf.
Qed.
Lemma keeps_read {A} (f : Tables -> A) : keeps P (db_read E f).
Proof. apply keeps_call. intros. by simplify_eq. Qed.
Lemma keeps_select {A} ok (f : Tables -> A) : keeps P (db_select E ok f).
Proof. apply keeps_call. intros. destruct ok; by simplify_eq. Qed.
Lemma keeps_try {X Y A} (m : D X A) : keeps P m -> keeps P (d_try m : D Y _).
Proof. intros Hm d Hd. unfold d_try. specialize (Hm d Hd). by destruct (m d) as [d' [a|x]]. Qed.
Lemma keeps_restore {X} token : keeps P (restore_token_user E token : D X _).
Proof.
  intros d Hd. unfold restore_token_user. destruct (restore_tokens d !! token) as [[u ex]|]; [|done].
  by destruct (d_unix E <? ex).
Qed.
Lemma keeps_bucket {X} prefix : keeps P (store_bucket E prefix : D X _).
Proof.
  intros d Hd. unfold store_bucket.
  match goal with |- context [db_select E ?ok ?f d] => pose proof (keeps_select ok f d Hd) as H; destruct (db_select E ok f d) as [d' [a|y]] end; done.
Qed.
Lemma keeps_unlocked {X A} (f : Dir -> Dir) (a : A) :
  (forall d, tables (f d) = tables d) -> keeps P ((fun d => (f d, Ok a)) : D X A).
Proof. intros Hf d Hd. unfold on_tables. by rewrite Hf. Qed.
End Keeps.

Ltac keeps_step :=
  lazymatch goal with
  | |- keeps _ (d_bind _ _) => apply keeps_bind; [|intros ?]
  | |- keeps _ (d_ret _) => apply keeps_ret
  | |- keeps _ (d_err _) => apply keeps_err
  | |- keeps _ (d_of_result _) => apply keeps_result
  | |- keeps _ (d_of_option _ _) => apply keeps_option
  | |- keeps _ (d_map_err _ _) => apply keeps_map_err
  | |- keeps _ (internal _) => apply keeps_map_err
  | |- keeps _ (require _ _) => apply keeps_require
  | |- keeps _ (limited _) => apply keeps_limited
  | |- keeps _ (draw _) => apply keeps_draw
  | |- keeps _ (db_read _ _) => apply keeps_read
  | |- keeps _ (db_select _ _ _) => apply keeps_select
  | |- keeps _ (d_try _) => apply keeps_try
  | |- keeps _ (restore_token_user _ _) => apply keeps_restore
  | |- keeps _ (match ?x with _ => _ end) => destruct x
  | |- keeps _ (let '_ := ?x in _) => destruct x
  end.

(** A statement that does not touch what a property is about. *)
Ltac call_frame :=
  apply keeps_call; let Hp := fresh in let Hf := fresh in
  intros ? ? ? Hp Hf; try unfold upsert_pending in Hf; cbn zeta in Hf; repeat case_match; simplify_eq; exact Hp.

(** ** Running handlers *)

Lemma db_call_run {A} E (f : Tables -> option (Tables * A)) d d' a :
  db_call E f d = (d', Ok a) -> exists t, f (tables d) = Some (t, a) /\ tables d' = t /\
    rate_limiter d' = rate_limiter d /\ restore_tokens d' = restore_tokens d.
Proof.
  unfold db_call. destruct (d_db_ok E (io d)); [|done].
  destruct (f (tables d)) as [[t b]|]; [|done]. intros. simplify_eq. by eexists.
Qed.

Lemma d_bind_Ok {Y A B} (m : D Y A) (k : A -> D Y B) d d' b :
  d_bind m k d = (d', Ok b) -> exists a d1, m d = (d1, Ok a) /\ k a d1 = (d', Ok b).
Proof. unfold d_bind. destruct (m d) as [d1 [a|x]]; [by eauto|done]. Qed.

Lemma d_map_err_Ok {Y Z' A} (f : Y -> Z') (m : D Y A) d d' a : d_map_err f m d = (d', Ok a) -> m d = (d', Ok a).
Proof. unfold d_map_err. destruct (m d) as [d1 [b|x]]; simpl; intros; by simplify_eq. Qed.

Lemma d_option_Ok {Y A} (o : option A) (x : Y) d d' a : d_of_option o x d = (d', Ok a) -> o = Some a /\ d' = d.
Proof. unfold d_of_option, d_of_result. destruct o; simpl; intros; by simplify_eq. Qed.

Lemma d_result_Ok {Y A} (r : result A Y) d d' a : d_of_result r d = (d', Ok a) -> r = Ok a /\ d' = d.
Proof. unfold d_of_result. intros. by simplify_eq. Qed.

Lemma require_Ok b e d d' u : require b e d = (d', Ok u) -> b = true /\ d' = d.
Proof. destruct b; unfold require, d_ret, d_err; intros; by simplify_eq. Qed.

Lemma db_read_run {A} E (f : Tables -> A) d d' a :
  db_read E f d = (d', Ok a) -> a = f (tables d) /\ tables d' = tables d /\
    rate_limiter d' = rate_limiter d /\ restore_tokens d' = restore_tokens d.
Proof. intros (t & H & <- & ? & ?)%db_call_run. by simplify_eq. Qed.

Lemma limited_Ok {Y : Type} f d d' b : (limited f : D Y bool) d = (d', Ok b) ->
  tables d' = tables d /\ restore_tokens d' = restore_tokens d /\ f (rate_limiter d) = (rate_limiter d', b).
Proof. unfold limited. destruct (f (rate_limiter d)) as [ws ok]. intros. by simplify_eq. Qed.

Lemma map_err_Ok {A F G} (f : F -> G) (r : result A F) a : map_err f r = Ok a -> r = Ok a.
Proof. destruct r; simpl; intros; by simplify_eq. Qed.

(** Invert the successful run of a handler. *)
Ltac dinv H :=
  lazymatch type of H with
  | d_bind _ _ _ = _ =>
      let a := fresh "a" in let d1 := fresh "d" in let H1 := fresh "H" in
      apply d_bind_Ok in H as (a & d1 & H1 & H); dinv H1; dinv H
  | internal _ _ = _ => apply d_map_err_Ok in H; dinv H
  | d_map_err _ _ _ = _ => apply d_map_err_Ok in H; dinv H
  | d_of_option _ _ _ = _ => apply d_option_Ok in H as [? ->]
  | d_of_result _ _ = _ => apply d_result_Ok in H as [H ->]; try apply map_err_Ok in H
  | limited _ _ = _ => apply limited_Ok in H as (? & ? & ?)
  | require _ _ _ = _ => apply require_Ok in H as [? ->]
  | db_read _ _ _ = _ => apply db_read_run in H as (? & ? & ? & ?)
  | db_call _ _ _ = _ => apply db_call_run in H as (? & ? & ? & ? & ?)
  | d_ret _ _ = _ => unfold d_ret in H; simplify_eq
  | _ => idtac
  end.

(** ** Requests *)

Inductive Request :=
| RSignup (h : Headers) (peer phone : bytes)
| RVerify (h : Headers) (peer phone code : bytes)
| RClaimUsername (h : Headers) (nickname : bytes)
| RUsernameLookup (h : Headers) (nickname : bytes) (discriminator : Z)
| RGetSearchable (h : Headers)
| RSetSearchable (h : Headers) (searchable : bool) (hash : option bytes)
| RAttestationTokens (h : Headers)
| RDeleteAccount (h : Headers)
| RSearch (h : Headers) (prefix : bytes)
| RSetBootstrap (h : Headers) (link : bytes)
| RRequestBootstrap (h : Headers) (user_id : Z)
| RPutBackup (h : Headers) (req : BackupPutRequest)
| RRestoreBegin (phone code : bytes)
| RRestoreComplete (token method auth : bytes).

(** What the program calls but does not contain. *)
Class DirExt := {
  dir_argon2 :: Argon2id;
  dir_base64 :: Base64;
  dir_hasher :: DefaultHasher;
  dir_ip :: IpParse;
  dir_ed25519 :: Ed25519;
}.

Section Invariants.
Context {X : DirExt}.

(** The router: a request, in its environment, on the state of the server. *)
Definition serve (E : DirEnv) (app : App) (r : Request) (d : Dir) : Dir :=
  match r with
  | RSignup h peer phone => (signup_handler E app h peer phone d).1
  | RVerify h peer phone code => (verify_handler E app h peer phone code d).1
  | RClaimUsername h n => (claim_username_handler E h n d).1
  | RUsernameLookup h n k => (username_lookup E h n k d).1
  | RGetSearchable h => (get_searchable E h d).1
  | RSetSearchable h b o => (set_searchable_handler E h b o d).1
  | RAttestationTokens h => (issue_attestation_tokens E app h d).1
  | RDeleteAccount h => (delete_account E h d).1
  | RSearch h p => (search E app h p d).1
  | RSetBootstrap h l => (set_pairing_bootstrap_handler E h l d).1
  | RRequestBootstrap h u => (request_pairing_bootstrap E app h u d).1
  | RPutBackup h q => (put_backup E h q d).1
  | RRestoreBegin phone code => (restore_begin E app phone code d).1
  | RRestoreComplete tok m a => (restore_complete E app tok m a d).1
  end.

Lemma keeps_serve P {A} (m : D ApiError A) d : keeps P m -> P (tables d) -> P (tables (m d).1).
Proof. intros Hm Hd. specialize (Hm d Hd). by destruct (m d) as [d' [a|x]]. Qed.

(** The ids that requests act on: those of authenticated callers and of verified
    phone numbers. *)
Definition answers {Y A} (P : Tables -> Prop) (m : D Y A) (S : A -> Prop) : Prop :=
  triple (on_tables P) m (fun a d => on_tables P d /\ S a) (on_tables P).

Lemma answers_internal {A} P (m : D SqlxError A) S : answers P m S -> answers P (internal m) S.
Proof. apply triple_map_err. Qed.

(** The vendor approved the code the request presents. *)
Definition approved (app : App) (r : Request) : Prop :=
  match r with
  | RVerify _ _ phone code | RRestoreBegin phone code =>
      exists h, verify_phone (vendor app) phone code (pepper app) = Ok h
  | _ => False
  end.

(** A property of the tables that the store's methods keep, on ids that satisfy
    [S], is kept by every request; some methods are only reached by some
    requests. *)
Lemma serve_keeps P (S : Z -> Prop) E app r d :
  (forall h, answers P (authenticate E h) S) ->
  (forall h, answers P (find_or_create_pending_user E h) S) ->
  (forall h, answers P (find_user_by_phone_hash E h) (fun o => forall a, o = Some a -> S a)) ->
  (approved app r -> forall u, S u -> keeps P (mark_verified E u)) ->
  (forall u n, S u -> keeps P (claim_username E u n)) ->
  (forall u b h, S u -> keeps P (set_searchable E u b h)) ->
  (forall u, S u -> keeps P (erase_user E u)) ->
  (forall h l, r = RSetBootstrap h l -> forall u, S u -> keeps P (set_pairing_bootstrap E u l)) ->
  (forall u, keeps P (consume_pairing_bootstrap E u)) ->
  (forall u b, S u -> keeps P (upsert_backup E u b)) ->
  (approved app r -> forall u, S u -> keeps P (create_session E u)) ->
  (forall u a p, keeps P (verify_backup_auth E u a p)) ->
  P (tables d) -> P (tables (serve E app r d)).
Proof.
  intros Kauth Kfind Kphone K2 K3 K4 K5 K6 K7 K8 K9 K10 Hd.
  assert (Kcall : forall c, keeps P (check_caller E c))
    by (intros; unfold check_caller, is_verified; repeat keeps_step).
  assert (Kip : forall h p, keeps P (check_ip E h p)) by (intros; unfold check_ip; repeat keeps_step).
  assert (Kcool : forall h, keeps P (check_cooldown E h))
    by (intros; unfold check_cooldown, is_phone_in_cooldown; repeat keeps_step).
  assert (Kmint : forall k e n, keeps P (mint_n E k e n))
    by (intros k e n; induction n; simpl; repeat keeps_step; done).
  assert (Kres : forall l, keeps P (search_results E l))
    by (induction l; simpl; unfold handle_for; repeat keeps_step; done).
  assert (Kb : forall p, keeps P (store_bucket E p : D ApiError _)) by (intros; apply keeps_bucket).
  assert (Kdel : forall tok, keeps P (consume_restore_token tok : D ApiError _)) by (intros tok d0 H0; exact H0).
  destruct r; simpl; apply (keeps_serve P); try done;
    unfold signup_handler, verify_handler, claim_username_handler, username_lookup, get_searchable,
      set_searchable_handler, issue_attestation_tokens, delete_account, search, set_pairing_bootstrap_handler,
      request_pairing_bootstrap, put_backup, restore_begin, restore_complete, find_user_by_handle,
      is_searchable, mint_batch, backup_salts, create_restore_token, random_token, b64;
    repeat first
      [ lazymatch goal with
        | |- keeps _ (d_bind (authenticate _ _) _) => eapply keeps_bind_safe; [apply Kauth|intros ? ?]
        | |- keeps _ (d_bind (internal (find_or_create_pending_user _ _)) _) =>
            eapply keeps_bind_safe; [apply answers_internal, Kfind|intros ? ?]
        | |- keeps _ (d_bind (internal (find_user_by_phone_hash _ _)) _) =>
            eapply keeps_bind_safe; [apply answers_internal, Kphone|intros ? ?]
        | |- keeps _ (d_bind (d_of_option _ _) _) => apply keeps_bind_option; intros ? ?
        | |- keeps _ (d_bind (d_of_result _) _) => apply keeps_bind_result; intros ? ?
        end
      | keeps_step | done
      | apply K2; [eexists; eapply map_err_Ok; eassumption|auto]
      | by apply K3 | by apply K4 | by apply K5 | by eapply K6 | by apply K8
      | apply K9; [eexists; eapply map_err_Ok; eassumption|auto] | apply Kb ];
    try (let Hx := fresh in intros d0 Hx; exact Hx).
Qed.

(** ** Consistency of the tables *)

Definition search_ok (u : User) : Prop :=
  if u_searchable u then u_phone_search_hash_prefix u = hash_prefix (u_phone_search_hash u) /\ pg_text (u_phone_search_hash u) = true
  else u_phone_search_hash u = [] /\ u_phone_search_hash_prefix u = [].

Record dir_ok (t : Tables) : Prop := {
  ok_next : 1 <= next_user_id t <= i64_max + 1;
  ok_ids i u : users t !! i = Some u -> 1 <= i < next_user_id t;
  ok_phone i j u v : users t !! i = Some u -> users t !! j = Some v -> live u = true -> live v = true ->
    u_phone_hash u = u_phone_hash v -> i = j;
  ok_handles i j u v n k : users t !! i = Some u -> users t !! j = Some v ->
    u_nickname u = Some n -> u_nickname v = Some n ->
    u_discriminator u = Some k -> u_discriminator v = Some k -> i = j;
  ok_widths n w : nickname_widths t !! n = Some w -> MIN_DISCRIMINATOR_WIDTH <= w <= 9;
  ok_slots i u n : users t !! i = Some u -> u_nickname u = Some n ->
    exists k w, u_discriminator u = Some k /\ nickname_widths t !! n = Some w /\ 1 <= k <= slot_count w;
  ok_search i u : users t !! i = Some u -> search_ok u;
}.

Lemma dir_ok_empty : dir_ok empty_tables.
Proof. split; intros; simpl in *; rewrite ?lookup_empty in *; try done. Qed.

(** The tables outside of [users] and [nickname_widths] do not matter. *)
Lemma dir_ok_same t t' :
  dir_ok t -> users t' = users t -> next_user_id t' = next_user_id t ->
  nickname_widths t' = nickname_widths t -> dir_ok t'.
Proof.
  intros [O1 O2 O3 O4 O5 O6 O7] Eu En Ew. by split; rewrite ?Eu, ?En, ?Ew.
Qed.

(** Updating a row without touching its handle, or bringing it back to life. *)
Definition mild (f : User -> User) : Prop := forall u,
  (live (f u) = true -> live u = true /\ u_phone_hash (f u) = u_phone_hash u) /\
  u_nickname (f u) = u_nickname u /\ u_discriminator (f u) = u_discriminator u /\
  (search_ok u -> search_ok (f u)).

Lemma lookup_alter_inv f i j (m : gmap Z User) v :
  alter f i m !! j = Some v -> exists u, m !! j = Some u /\ v = if bool_decide (i = j) then f u else u.
Proof.
  case_bool_decide as E; [subst; rewrite lookup_alter_eq|rewrite lookup_alter_ne by done];
    intros H; [by apply fmap_Some in H as (u & ? & ->); exists u|by eauto].
Qed.

Lemma mild_lookup f i j (m : gmap Z User) v : mild f -> alter f i m !! j = Some v ->
  exists u, m !! j = Some u /\ (live v = true -> live u = true /\ u_phone_hash v = u_phone_hash u) /\
    u_nickname v = u_nickname u /\ u_discriminator v = u_discriminator u /\ (search_ok u -> search_ok v).
Proof.
  intros Hf H. apply lookup_alter_inv in H as (u & Hu & ->). exists u. split; [done|].
  case_bool_decide; [apply Hf|done].
Qed.

Lemma dir_ok_mild f i t t' :
  dir_ok t -> mild f -> users t' = alter f i (users t) -> next_user_id t' = next_user_id t ->
  nickname_widths t' = nickname_widths t -> dir_ok t'.
Proof.
  intros [O1 O2 O3 O4 O5 O6 O7] Hf Eu En Ew. split; rewrite ?Eu, ?En, ?Ew; try done.
  - intros j v (u & Hu & _)%mild_lookup; [|done]. by eapply O2.
  - intros j k v w (u & Hu & Lu & _)%mild_lookup (u' & Hu' & Lu' & _)%mild_lookup Lv Lw E; try done.
    destruct (Lu Lv), (Lu' Lw). eapply O3; try done. congruence.
  - intros j k v w n x (u & Hu & _ & N1 & D1 & _)%mild_lookup (u' & Hu' & _ & N2 & D2 & _)%mild_lookup; try done.
    rewrite N1, N2, D1, D2. by eapply O4.
  - intros j v n (u & Hu & _ & N1 & D1 & _)%mild_lookup; [|done]. rewrite N1, D1. by eapply O6.
  - intros j v (u & Hu & _ & _ & _ & S)%mild_lookup; [|done]. by eapply S, O7.
Qed.

Lemma live_by_phone_Some h t i u :
  live_by_phone h t = Some (i, u) -> users t !! i = Some u /\ u_phone_hash u = h /\ live u = true.
Proof.
  intros [H1 H2]%find_first_Some. apply elem_of_map_to_list in H1. simpl in H2. by bools.
Qed.

Lemma live_by_phone_None h t i u :
  live_by_phone h t = None -> users t !! i = Some u -> u_phone_hash u = h -> live u = true -> False.
Proof.
  intros H Hu E L. apply find_first_None in H. rewrite Forall_forall in H.
  specialize (H (i, u) ltac:(by apply elem_of_map_to_list)). simpl in H.
  rewrite L, bool_decide_eq_true_2 in H; done.
Qed.

(** What the statement of a sign-up does: an id is drawn, and the number's live row
    kept, or the row of the new id added. *)
Lemma upsert_pending_inv E h t t' a :
  upsert_pending E h t = Some (t', a) ->
  next_user_id t <= i64_max /\
  ((exists u, live_by_phone h t = Some (a, u) /\ t' = bump_user_id t) \/
   (live_by_phone h t = None /\ a = next_user_id t /\
    t' = set_users (<[a:=mkUser h (hash_prefix h) false None None false (d_unix E) None [] []]> (users t)) (bump_user_id t))).
Proof.
  unfold upsert_pending. destruct (Z.ltb_spec i64_max (next_user_id t)); [done|]. intros H1. split; [done|].
  destruct (live_by_phone h t) as [[i u]|]; simplify_eq; [left; by eauto|by right].
Qed.

Lemma dir_ok_bump t : dir_ok t -> next_user_id t <= i64_max -> dir_ok (bump_user_id t).
Proof.
  intros [O1 O2 O3 O4 O5 O6 O7] Hb. split; simpl; try done; [lia|]. intros i u Hu. apply O2 in Hu. lia.
Qed.

Lemma dir_ok_create h now t :
  dir_ok t -> live_by_phone h t = None -> next_user_id t <= i64_max ->
  dir_ok (set_users (<[next_user_id t:=mkUser h (hash_prefix h) false None None false now None [] []]> (users t)) (bump_user_id t)).
Proof.
  intros [O1 O2 O3 O4 O5 O6 O7] Hn Hb. split; simpl; try done.
  - lia.
  - intros i u [[<- <-]|[_ Hu]]%lookup_insert_Some; [lia|]. apply O2 in Hu. lia.
  - intros i j u v [[<- <-]|[_ Hu]]%lookup_insert_Some [[<- <-]|[_ Hv]]%lookup_insert_Some Lu Lv E; simpl in *; try done.
    + exfalso. by eapply live_by_phone_None.
    + exfalso. by eapply live_by_phone_None.
    + by eapply O3.
  - intros i j u v n k [[<- <-]|[_ Hu]]%lookup_insert_Some [[<- <-]|[_ Hv]]%lookup_insert_Some; simpl; try done.
    by eapply O4.
  - intros i u n [[<- <-]|[_ Hu]]%lookup_insert_Some; simpl; [done|]. by eapply O6.
  - intros i u [[<- <-]|[_ Hu]]%lookup_insert_Some; [done|]. by eapply O7.
Qed.

Lemma slot_count_mono w w' : 0 <= w <= w' -> slot_count w <= slot_count w'.
Proof. intros H. unfold slot_count. assert (10 ^ w <= 10 ^ w') by (apply Z.pow_le_mono_r; lia). lia. Qed.

Lemma slot_count_9 w : 0 <= w <= 9 -> slot_count w < 2 ^ 31.
Proof. intros H. pose proof (slot_count_mono w 9 ltac:(lia)). assert (slot_count 9 = 999999999) by done. lia. Qed.

Lemma taken_elem n t k :
  k ∈ taken_discriminators n t <-> exists i u, users t !! i = Some u /\ u_nickname u = Some n /\ u_discriminator u = Some k.
Proof.
  unfold taken_discriminators. rewrite elem_of_list_to_set, list_elem_of_omap. split.
  - intros ([i u] & Hu%elem_of_map_to_list & H). case_bool_decide; [|done]. eauto.
  - intros (i & u & Hu & Hn & Hk). exists (i, u). split; [by apply elem_of_map_to_list|].
    by rewrite bool_decide_eq_true_2.
Qed.

Lemma handle_free n k uid t i u :
  handle_taken n k uid t = false -> users t !! i = Some u -> u_nickname u = Some n -> u_discriminator u = Some k -> i = uid.
Proof.
  intros H Hu Hn Hk. destruct (decide (i = uid)) as [|Hne]; [done|]. exfalso.
  apply not_true_iff_false in H. apply H, existsb_exists. exists (i, u).
  split; [by apply list_elem_of_In, elem_of_map_to_list|]. rewrite Hn, Hk, !bool_decide_eq_true_2 by done.
  destruct (Z.eqb_spec i uid); done.
Qed.

(** The effect of giving out a handle that nobody else has, at a width that is not
    smaller than the one before. *)
Lemma dir_ok_handle uid n t slot w :
  dir_ok t -> 1 <= slot <= slot_count w -> MIN_DISCRIMINATOR_WIDTH <= w <= 9 ->
  (forall x, nickname_widths t !! n = Some x -> x <= w) ->
  (forall i u, users t !! i = Some u -> u_nickname u = Some n -> u_discriminator u = Some slot -> i = uid) ->
  dir_ok (mkTables (alter (set_handle n slot) uid (users t)) (next_user_id t)
            (<[n:=w]> (nickname_widths t)) (phone_cooldown t) (pairing_bootstrap t) (sessions t) (backups t)).
Proof.
  intros [O1 O2 O3 O4 O5 O6 O7] Hs Hw Hx Hfree. split; simpl; try done.
  - intros i v (u & Hu & _)%lookup_alter_inv. by eapply O2.
  - intros i j u v (u0 & Hu & ->)%lookup_alter_inv (v0 & Hv & ->)%lookup_alter_inv Lu Lv E.
    eapply O3; try done; repeat case_bool_decide; done.
  - intros i j u v m k (u0 & Hu & ->)%lookup_alter_inv (v0 & Hv & ->)%lookup_alter_inv.
    repeat case_bool_decide; simpl; intros; simplify_eq; try done.
    + symmetry. by eapply Hfree.
    + by eapply Hfree.
    + by eapply (O4 i j u0 v0).
  - intros m x [[<- <-]|[_ Hm]]%lookup_insert_Some; [done|]. by eapply O5.
  - intros i v m (u & Hu & ->)%lookup_alter_inv. case_bool_decide; simpl; intros Em.
    + simplify_eq. exists slot, w. by rewrite lookup_insert_eq.
    + destruct (O6 i u m Hu Em) as (k & x & Hk & Hm & Hr). exists k.
      destruct (decide (n = m)) as [->|Hne]; [|exists x; by rewrite lookup_insert_ne].
      exists w. rewrite lookup_insert_eq. split; [done|]. split; [done|].
      pose proof (O5 _ _ Hm). pose proof (Hx _ Hm). unfold MIN_DISCRIMINATOR_WIDTH in *.
      pose proof (slot_count_mono x w). lia.
  - intros i v (u & Hu & ->)%lookup_alter_inv. apply O7 in Hu. by case_bool_decide.
Qed.

Lemma as_i32_slot slot w : 1 <= slot <= slot_count w -> MIN_DISCRIMINATOR_WIDTH <= w <= 9 -> as_i32 slot = slot.
Proof.
  intros H Hw. unfold as_i32, MIN_DISCRIMINATOR_WIDTH in *. pose proof (slot_count_9 w).
  destruct (Z.ltb_spec slot (2 ^ 31)); lia.
Qed.

(** The effect of a claim that succeeds. *)
Lemma dir_ok_claim uid n t slot w :
  dir_ok t ->
  claim_slot (taken_discriminators n t) 9 (default MIN_DISCRIMINATOR_WIDTH (nickname_widths t !! n)) = Ok (slot, w) ->
  dir_ok (mkTables (alter (set_handle n (as_i32 slot)) uid (users t)) (next_user_id t)
            (<[n:=w]> (nickname_widths t)) (phone_cooldown t) (pairing_bootstrap t) (sessions t) (backups t)).
Proof.
  intros O H. apply claim_slot_ok in H as (H1 & H2 & H3 & H4 & _).
  assert (Hw : MIN_DISCRIMINATOR_WIDTH <= w <= 9).
  { destruct (nickname_widths t !! n) as [x|] eqn:Ex; simpl in *; [pose proof (ok_widths _ O _ _ Ex)|];
      unfold MIN_DISCRIMINATOR_WIDTH in *; lia. }
  rewrite (as_i32_slot slot w) by done. apply dir_ok_handle; try done.
  - intros x Hx. rewrite Hx in H1. done.
  - intros i u Hu Hn Hk. exfalso. apply H4, taken_elem. eauto.
Qed.

(** A part of a text that Postgres takes is one too. *)
Lemma pg_text_prefix h : pg_text h = true -> pg_text (hash_prefix h) = true.
Proof.
  unfold pg_text, hash_prefix. rewrite !forallb_forall. intros H x Hx. apply H.
  apply list_elem_of_In in Hx. apply list_elem_of_In. by eapply subseteq_take.
Qed.

(** ** Every method keeps the tables consistent *)

Lemma ok_find E h : keeps dir_ok (find_or_create_pending_user E h).
Proof.
  apply keeps_call. intros t t' a O H. apply upsert_pending_inv in H as [Hb [(u & _ & ->)|(Hn & -> & ->)]];
    [by apply dir_ok_bump|by apply dir_ok_create].
Qed.

Lemma ok_mark E u : keeps dir_ok (mark_verified E u).
Proof. apply keeps_call. intros t t' a O H. simplify_eq. eapply dir_ok_mild; try done. by intros ?. Qed.

Lemma ok_claim E u n : keeps dir_ok (claim_username E u n).
Proof.
  unfold claim_username. apply keeps_bind; [apply keeps_result|]. intros _.
  apply keeps_bind; [|intros; apply keeps_result]. apply keeps_map_err, keeps_call.
  intros t t' a O H. destruct (claim_slot _ _ _) as [[slot w]|e] eqn:Ec; [|by simplify_eq].
  destruct (handle_taken _ _ _ _); [done|]. simplify_eq. by apply dir_ok_claim.
Qed.

Lemma ok_searchable E u b h : keeps dir_ok (set_searchable E u b h).
Proof.
  unfold set_searchable. destruct b, h as [h|]; apply keeps_call; intros t t' a O H;
    try destruct (pg_text h) eqn:Hh; simpl in H; try destruct (pg_text (hash_prefix h)); simplify_eq;
    (eapply dir_ok_mild; try done; intros u0; split; [done|]; split; [done|]; split; [done|];
     intros _; by unfold search_ok).
Qed.

Lemma ok_erase E u : keeps dir_ok (erase_user E u).
Proof.
  apply keeps_call. intros t t' a O H. cbn zeta in H. simplify_eq. eapply dir_ok_mild; try done. intros u0.
  split; [intros L; discriminate L|]. split; [done|]. split; [done|]. intros _. by unfold search_ok.
Qed.

Lemma ok_set_bootstrap E u l : keeps dir_ok (set_pairing_bootstrap E u l).
Proof. apply keeps_call. intros t t' a O H. destruct (pg_text l); [|done]. destruct (users t !! _); simplify_eq. by eapply dir_ok_same. Qed.

Lemma ok_consume_bootstrap E u : keeps dir_ok (consume_pairing_bootstrap E u).
Proof. apply keeps_call. intros t t' a O H. repeat case_match; simplify_eq; try done; by eapply dir_ok_same. Qed.

Lemma ok_upsert E u b : keeps dir_ok (upsert_backup E u b).
Proof. apply keeps_call. intros t t' a O H. destruct (users t !! _); simplify_eq. by eapply dir_ok_same. Qed.

Lemma ok_session_insert E token u :
  keeps dir_ok (db_call E (fun t =>
    match sessions t !! token with
    | Some _ => None
    | None => Some (set_sessions (<[token:=(as_i64 u, d_unix E)]> (sessions t)) t, tt)
    end)).
Proof. apply keeps_call. intros t t' x O H. destruct (sessions t !! token); simplify_eq. by eapply dir_ok_same. Qed.

Lemma ok_session E u : keeps dir_ok (create_session E u).
Proof.
  unfold create_session. apply keeps_bind; [apply keeps_draw|]. intros rnd.
  apply keeps_bind; [|intros; apply keeps_ret]. apply ok_session_insert.
Qed.

Lemma ok_backup_auth E u a p : keeps dir_ok (verify_backup_auth E u a p).
Proof.
  apply keeps_call. intros t t' x O H. destruct (backups t !! _) as [b|]; [|by simplify_eq].
  destruct (verify_backup_row _ _ _ _). simplify_eq. by eapply dir_ok_same.
Qed.

Lemma answers_True {Y A} P (m : D Y A) : keeps P m -> answers P m (fun _ => True).
Proof. intros H. eapply triple_conseq; [exact H|done|done|done]. Qed.

Lemma keeps_authenticate P E h : keeps P (authenticate E h).
Proof. unfold authenticate, session_user_id. repeat keeps_step. Qed.

Lemma keeps_find_user P E h : keeps P (find_user_by_phone_hash E h).
Proof. unfold find_user_by_phone_hash. repeat keeps_step. Qed.

Lemma answers_find_user_True P E h :
  answers P (find_user_by_phone_hash E h) (fun o => forall a, o = Some a -> True).
Proof. eapply triple_conseq; [apply (keeps_find_user P)|done|by intros; split|done]. Qed.

Lemma serve_ok E app r d : dir_ok (tables d) -> dir_ok (tables (serve E app r d)).
Proof.
  apply (serve_keeps dir_ok (fun _ => True)); intros.
  - apply answers_True, keeps_authenticate.
  - apply answers_True, ok_find.
  - apply answers_find_user_True.
  - apply ok_mark.
  - apply ok_claim.
  - apply ok_searchable.
  - apply ok_erase.
  - apply ok_set_bootstrap.
  - apply ok_consume_bootstrap.
  - apply ok_upsert.
  - apply ok_session.
  - apply ok_backup_auth.
Qed.

End Invariants.
