(* ===== verification/DirProps.v ===== *)
(** * What the directory guarantees

    Consistency of the tables over all requests, erasure that is final, sessions
    only for approved codes, the PIN lockout, single-use bootstraps, and search. *)

From S2P Require Import Prelude Text External Proto DirLogic DirStore DirApi DirNames DirInv.

(** A concrete directory, for the examples: a development vendor, a clock in
    seconds, a database that always answers. *)
Module DirScenario.
Import ToyInstances.

#[export] Instance toy_dir : DirExt := {|
  dir_argon2 := toy_argon2;
  dir_base64 := toy_base64;
  dir_hasher := toy_hasher;
  dir_ip := toy_ip_parse;
  dir_ed25519 := toy_ed25519;
|}.

Definition at_time (t : Z) : DirEnv :=
  mkDirEnv t (t * 1000000000) (fun n => [Z.of_nat n; t]) (fun _ => true).
Definition app : App := mkApp DevOtpVendor [1] (mkConfig true true) (Some [7]).
Definition phone : bytes := str "+12025550123".
Definition anonymous : Headers := mkHeaders None None.
Definition bearer (t : bytes) : Headers := mkHeaders (Some (str "Bearer " ++ t)) None.

Definition signed_up : Dir := (signup_handler (at_time 100) app anonymous [1] phone dir_new).1.
Definition verified : Dir * result (Z * bytes * bool) ApiError :=
  verify_handler (at_time 101) app anonymous [1] phone DEV_OTP_CODE signed_up.
Definition alice : Headers :=
  bearer (match verified.2 with Ok (_, t, _) => t | Err _ => [] end).
Definition named : Dir := (claim_username_handler (at_time 102) alice (str "alice") verified.1).1.
Definition findable : Dir :=
  (set_searchable_handler (at_time 103) alice true (Some (replicate 64 97)) named).1.
End DirScenario.

(** A request with its environment; the vendor's answers are in the [App]. *)
Record Step := mkStep { s_env : DirEnv; s_app : App; s_req : Request }.

Section Props.
Context {X : DirExt}.

Definition serve_step (d : Dir) (s : Step) : Dir := serve (s_env s) (s_app s) (s_req s) d.
Definition serve_all (ss : list Step) (d : Dir) : Dir := foldl serve_step d ss.

Lemma serve_all_keeps (P : Dir -> Prop) ss d :
  (forall d s, P d -> P (serve_step d s)) -> P d -> P (serve_all ss d).
Proof. intros H. revert d. induction ss as [|s ss IH]; intros d Hd; [done|]. by apply IH, H. Qed.

(** The directory stays consistent under every sequence of requests, with any
    vendor answers and database failures: at most one live account per phone
    number, no two accounts with the same handle, every handle inside its
    nickname's width, and search hashes only for accounts that opted in. *)
Theorem directory_consistent ss d : dir_ok (tables d) -> dir_ok (tables (serve_all ss d)).
Proof. apply (serve_all_keeps (fun d => dir_ok (tables d))). intros. by apply serve_ok. Qed.

(** ** Erasure *)

Record dead (id : Z) (t : Tables) : Prop := {
  dead_ok : dir_ok t;
  dead_row : exists u, users t !! id = Some u /\ live u = false /\ u_phone_hash u = [] /\
    u_phone_hash_prefix u = [] /\ u_verified u = false /\ u_searchable u = false /\ u_phone_search_hash u = [];
  dead_sessions tok uid c : sessions t !! tok = Some (uid, c) -> uid <> id;
  dead_backup : backups t !! id = None;
  dead_bootstrap : pairing_bootstrap t !! id = None;
}.

Lemma dir_ok_as_i64 t i u : dir_ok t -> users t !! i = Some u -> as_i64 i = i.
Proof.
  intros O H. pose proof (ok_ids _ O _ _ H). pose proof (ok_next _ O). unfold as_i64, i64_max in *.
  destruct (Z.ltb_spec i (2 ^ 63)); lia.
Qed.

(** Statements answer about the tables they run on. *)
Lemma answers_call {A} P E (f : Tables -> option (Tables * A)) (S : A -> Prop) :
  (forall t t' a, P t -> f t = Some (t', a) -> P t' /\ S a) -> answers P (db_call E f) S.
Proof.
  intros Hf d Hd. unfold db_call. destruct (d_db_ok E (io d)); [|done].
  destruct (f (tables d)) as [[t a]|] eqn:Ef; [|done]. destruct (Hf _ _ _ Hd Ef). by split.
Qed.

Definition safe (id u : Z) : Prop := as_i64 u <> id.

Lemma dead_live_safe id t i u : dead id t -> users t !! i = Some u -> live u = true -> safe id i.
Proof.
  intros Dd Hu L. unfold safe. rewrite (dir_ok_as_i64 t i u); [|apply Dd|done]. intros ->.
  destruct (dead_row _ _ Dd) as (v & Hv & Lv & _). simplify_eq. congruence.
Qed.

Lemma answers_authenticate id E h : answers (dead id) (authenticate E h) (safe id).
Proof.
  unfold authenticate. eapply triple_bind; [apply triple_option; [intros a d _ H; exact H|done]|]. intros v.
  eapply triple_bind; [apply triple_option; [intros a d _ H; exact H|done]|]. intros tok.
  eapply triple_bind.
  { apply triple_map_err. unfold session_user_id.
    apply (answers_call (dead id) E _ (fun o => forall a, o = Some a -> safe id a)).
    intros t t' a Dd H. simplify_eq. split; [done|]. intros i Hi.
    destruct (sessions t' !! tok) as [[uid c]|]; [|done]. destruct (users t' !! uid) as [u|] eqn:Hu; [|done].
    destruct ((_ <? c) && live u) eqn:El; [|done]. simplify_eq. bools. by eapply dead_live_safe. }
  intros o. apply triple_option; [intros a d E1 [H1 H2]; split; [done|by apply H2]|by intros d [H _]].
Qed.

(** Rows of other users may change in any consistent way. *)
Lemma dead_update id t t' :
  dead id t -> dir_ok t' -> users t' !! id = users t !! id ->
  (forall tok uid c, sessions t' !! tok = Some (uid, c) -> sessions t !! tok = Some (uid, c) \/ uid <> id) ->
  (backups t' !! id = backups t !! id \/ backups t' !! id = None) ->
  (pairing_bootstrap t' !! id = pairing_bootstrap t !! id \/ pairing_bootstrap t' !! id = None) -> dead id t'.
Proof.
  intros [D1 D2 D3 D4 D5] O Eu Es Eb Ep. split; [done|by rewrite Eu| |destruct Eb; congruence|destruct Ep; congruence].
  intros tok uid c H. destruct (Es _ _ _ H) as [H'|]; [by eapply D3|done].
Qed.

(** Combine with the consistency of the tables. *)
Lemma keeps_dead {A} id E (f : Tables -> option (Tables * A)) :
  keeps dir_ok (db_call E f) ->
  (forall t t' a, dead id t -> f t = Some (t', a) ->
     users t' !! id = users t !! id /\
     (forall tok uid c, sessions t' !! tok = Some (uid, c) -> sessions t !! tok = Some (uid, c) \/ uid <> id) /\
     (backups t' !! id = backups t !! id \/ backups t' !! id = None) /\
     (pairing_bootstrap t' !! id = pairing_bootstrap t !! id \/ pairing_bootstrap t' !! id = None)) ->
  keeps (dead id) (db_call E f).
Proof.
  intros Hok Hf d Hd. pose proof (Hok d (dead_ok _ _ Hd)) as Ho.
  unfold db_call in *. destruct (d_db_ok E (io d)); [|done].
  destruct (f (tables d)) as [[t a]|] eqn:Ef; [|done]. unfold on_tables in *. simpl in *.
  destruct (Hf _ _ _ Hd Ef) as (H1 & H2 & H3 & H4). by eapply dead_update.
Qed.

Lemma lookup_alter_other (f : User -> User) i j (m : gmap Z User) : i <> j -> alter f i m !! j = m !! j.
Proof. intros. by apply lookup_alter_ne. Qed.

Lemma dead_next id t u now : dead id t ->
  (<[next_user_id t:=mkUser u (hash_prefix u) false None None false now None [] []]> (users t)) !! id = users t !! id.
Proof.
  intros Dd. apply lookup_insert_ne. destruct (dead_row _ _ Dd) as (v & Hv & _).
  pose proof (ok_ids _ (dead_ok _ _ Dd) _ _ Hv). lia.
Qed.

Lemma answers_find id E h : answers (dead id) (find_or_create_pending_user E h) (safe id).
Proof.
  pose proof (ok_find E h) as Ok1. intros d Hd. pose proof (Ok1 d (dead_ok _ _ Hd)) as Ho.
  unfold find_or_create_pending_user, db_call in *. destruct (d_db_ok E (io d)); [|done].
  destruct (upsert_pending E h (tables d)) as [[t' a]|] eqn:Eu; [|done].
  apply upsert_pending_inv in Eu as [Hb [(u & El & ->)|(_ & -> & ->)]]; unfold on_tables in *; simpl in *.
  - split; [eapply dead_update; [done|done|done|by left|by left|by left]|].
    apply live_by_phone_Some in El as (Hu & _ & L). by eapply dead_live_safe.
  - split; [eapply dead_update; [done|done|by apply dead_next|by left|by left|by left]|].
    unfold safe. destruct (dead_row _ _ Hd) as (v & Hv & _).
    pose proof (ok_ids _ (dead_ok _ _ Hd) _ _ Hv). pose proof (ok_next _ (dead_ok _ _ Hd)).
    unfold as_i64, i64_max in *. destruct (Z.ltb_spec (next_user_id (tables d)) (2 ^ 63)); lia.
Qed.

Lemma answers_find_user id E h :
  answers (dead id) (find_user_by_phone_hash E h) (fun o => forall a, o = Some a -> safe id a).
Proof.
  apply answers_call. intros t t' a Dd H. simplify_eq. split; [done|]. intros i Hi.
  apply fmap_Some in Hi as ([j u] & El & ->). apply live_by_phone_Some in El as (Hu & _ & L).
  by eapply dead_live_safe.
Qed.

Ltac dead_call Hok :=
  apply keeps_dead; [exact Hok|];
  let t := fresh "t" in let t' := fresh "t'" in let Dd := fresh "Dd" in let Hf := fresh "Hf" in
  intros t t' ? Dd Hf; cbn zeta in Hf; repeat case_match; simplify_eq; simpl;
  rewrite ?lookup_alter_other, ?lookup_insert_ne by done;
  (split; [done|]); (split; [by intros; left|]); split; by left.

Lemma serve_dead id E app r d : dead id (tables d) -> dead id (tables (serve E app r d)).
Proof.
  apply (serve_keeps (dead id) (safe id)); unfold safe.
  - apply answers_authenticate.
  - apply answers_find.
  - apply answers_find_user.
  - intros _ u Hu. dead_call (ok_mark E u).
  - intros u n Hu. pose proof (ok_claim E u n) as Hok. unfold claim_username in *.
    apply keeps_bind; [apply keeps_result|]. intros _. apply keeps_bind; [|intros; apply keeps_result].
    apply keeps_map_err, keeps_dead.
    + apply keeps_call. intros t t' a O H. destruct (claim_slot _ _ _) as [[slot w]|e] eqn:Ec; [|by simplify_eq].
      destruct (handle_taken _ _ _ _); [done|]. simplify_eq. by apply dir_ok_claim.
    + intros t t' a Dd H. destruct (claim_slot _ _ _) as [[slot w]|e] eqn:Ec.
      * destruct (handle_taken _ _ _ _); [done|]. simplify_eq. simpl. rewrite lookup_alter_other by done.
        split; [done|]. split; [by intros; left|]. split; by left.
      * simplify_eq. split; [done|]. split; [by intros; left|]. split; by left.
  - intros u b h Hu. pose proof (ok_searchable E u b h) as Hok. unfold set_searchable in *.
    destruct b, h; dead_call Hok.
  - intros u Hu. apply keeps_dead; [apply ok_erase|]. intros t t' a Dd H. cbn zeta in H. simplify_eq. simpl.
    rewrite lookup_alter_other, !lookup_delete_ne by done.
    split; [done|]. split; [intros tok uid c [? _]%map_lookup_filter_Some; by left|]. split; by left.
  - intros h l _ u Hu. dead_call (ok_set_bootstrap E u l).
  - intros u. apply keeps_dead; [apply ok_consume_bootstrap|]. intros t t' a Dd H.
    repeat case_match; simplify_eq; simpl; (split; [done|]); (split; [by intros; left|]); (split; [by left|]);
      try by left. right. apply lookup_delete_None. right. apply Dd.
  - intros u b Hu. dead_call (ok_upsert E u b).
  - intros _ u Hu. unfold create_session. apply keeps_bind; [apply keeps_draw|]. intros rnd.
    apply keeps_bind; [|intros; apply keeps_ret]. apply keeps_dead; [apply ok_session_insert|].
    intros t t' x Dd H. destruct (sessions t !! hex rnd); simplify_eq. simpl.
    split; [done|]. split; [|split; by left].
    intros tok uid c [[_ ?]|[_ ?]]%lookup_insert_Some; [right; by simplify_eq|by left].
  - intros u a p. apply keeps_dead; [apply ok_backup_auth|]. intros t t' x Dd H.
    destruct (backups t !! as_i64 u) as [b|] eqn:Eb;
      [|simplify_eq; split; [done|]; split; [by intros; left|]; split; by left].
    destruct (verify_backup_row _ _ _ _). simplify_eq. simpl. split; [done|]. split; [by intros; left|].
    split; [|by left]. left. apply lookup_insert_ne. intros Eid. rewrite Eid, (dead_backup _ _ Dd) in Eb. done.
Qed.

(** ** Authentication *)

Lemma authenticate_run E h d d' u :
  authenticate E h d = (d', Ok u) ->
  tables d' = tables d /\ exists tok c row, authorization h = Some (str "Bearer " ++ tok) /\
    sessions (tables d) !! tok = Some (u, c) /\ users (tables d) !! u = Some row /\ live row = true /\
    d_unix E - SESSION_TTL_DAYS * 24 * 3600 < c.
Proof.
  assert (Hstrip : forall p s r, strip_prefix p s = Some r -> s = p ++ r).
  { clear. induction p as [|x p IH]; intros [|y s] r H; simpl in H; simplify_eq; try done.
    destruct (Z.eqb_spec x y); [|done]. subst. simpl. f_equal. by apply IH. }
  unfold authenticate, session_user_id. intros H. dinv H.
  match goal with H1 : strip_prefix _ _ = Some ?t |- _ => apply Hstrip in H1; subst; rename t into tok end.
  split; [congruence|].
  destruct (sessions _ !! tok) as [[uid c]|] eqn:Es; [|done].
  destruct (users _ !! uid) as [row|] eqn:Eu; [|done].
  destruct ((_ <? c) && live row) eqn:El; [|done]. simplify_eq. bools.
  exists tok, c, row. done.
Qed.

(** C14: erasure is final. After an account is deleted its tombstone holds no
    phone hash and no search hash and is neither verified nor searchable, and its
    sessions, bootstrap and backup are gone; no later sequence of requests changes
    any of that, and no token ever authenticates as that account again. (Requests are
    served one after the other here; [DirConc.v] has those that overlap.) *)
Theorem erasure_is_final E h d d' ss E' h' :
  dir_ok (tables d) -> delete_account E h d = (d', Ok tt) ->
  exists id, (exists tok c, authorization h = Some (str "Bearer " ++ tok) /\ sessions (tables d) !! tok = Some (id, c)) /\
    dead id (tables (serve_all ss d')) /\
    forall d2 u, authenticate E' h' (serve_all ss d') = (d2, Ok u) -> u <> id.
Proof.
  intros O H. unfold delete_account in H. dinv H.
  match goal with H1 : authenticate _ _ _ = (_, Ok ?u) |- _ =>
    apply authenticate_run in H1 as (Et & tok & c & row & Ha & Hs & Hu & L & _); rename u into id end.
  exists id. split; [by exists tok, c|].
  assert (Ei : as_i64 id = id) by by eapply dir_ok_as_i64.
  assert (Dd : dead id (tables d')).
  { pose proof (ok_erase E id d0) as Ho. unfold on_tables in Ho. rewrite Et in Ho. specialize (Ho O).
    unfold erase_user in H, Ho. rewrite H in Ho. apply db_call_run in H as (t & Hf & Et' & _).
    cbn zeta in Hf. rewrite Et, Ei in Hf. injection Hf as Hf.
    unfold on_tables in Ho. split; [done| | | |]; rewrite Et', <- Hf; simpl.
    - exists (scrub (d_unix E) row). by rewrite lookup_alter_eq, Hu.
    - intros tk uid cc [_ ?]%map_lookup_filter_Some. done.
    - apply lookup_delete_eq.
    - apply lookup_delete_eq. }
  assert (Dd' : dead id (tables (serve_all ss d'))).
  { apply (serve_all_keeps (fun d => dead id (tables d))); [|done]. intros. by apply serve_dead. }
  split; [done|]. intros d2 u H2.
  apply authenticate_run in H2 as (_ & tk & cc & rw & _ & Hs' & _). by eapply dead_sessions.
Qed.

End Props.

(** ** Examples *)

Module DirExamples.
Import ToyInstances DirScenario.

Lemma findable_ok : dir_ok (tables findable).
Proof.
  pose proof (serve_ok (at_time 100) app (RSignup anonymous [1] phone) dir_new dir_ok_empty) as H1.
  pose proof (serve_ok (at_time 101) app (RVerify anonymous [1] phone DEV_OTP_CODE) signed_up H1) as H2.
  pose proof (serve_ok (at_time 102) app (RClaimUsername alice (str "alice")) verified.1 H2) as H3.
  exact (serve_ok (at_time 103) app (RSetSearchable alice true (Some (replicate 64 97))) named H3).
Qed.

Definition alice_row : User :=
  match users (tables findable) !! 1 with Some u => u | None => mkUser [] [] false None None false 0 None [] [] end.

Lemma alice_row_eq : users (tables findable) !! 1 = Some alice_row.
Proof. vm_compute. reflexivity. Qed.

Definition alice_in : Dir := (authenticate (at_time 104) alice findable).1.
Lemma alice_in_eq : authenticate (at_time 104) alice findable = (alice_in, Ok 1).
Proof. vm_compute. reflexivity. Qed.

(** Alice deletes her account. *)
Definition gone : Dir := (delete_account (at_time 104) alice findable).1.
Lemma gone_eq : delete_account (at_time 104) alice findable = (gone, Ok tt).
Proof. vm_compute. reflexivity. Qed.

(** What comes after: her old session is tried, and her number signs up again. *)
Definition later : list Step :=
  [mkStep (at_time 105) app (RSetSearchable alice true (Some (replicate 64 97)));
   mkStep (at_time 200000) app (RSignup anonymous [1] phone);
   mkStep (at_time 200001) app (RVerify anonymous [1] phone DEV_OTP_CODE)].

Lemma directory_consistent_witness :
  size (users (tables (serve_all later gone))) = 2%nat /\ dir_ok (tables (serve_all later findable)).
Proof. split; [vm_compute; reflexivity|]. apply (directory_consistent later findable). exact findable_ok. Defined.

Lemma erasure_is_final_witness :
  (delete_account (at_time 104) alice findable).2 = Ok tt /\ exists id, dead id (tables (serve_all later gone)).
Proof.
  split; [exact (f_equal snd gone_eq)|].
  destruct (erasure_is_final (at_time 104) alice findable gone later (at_time 200002) alice findable_ok gone_eq)
    as (id & _ & Hd & _).
  exists id. exact Hd.
Defined.
End DirExamples.
