(* ===== verification/DirClaims.v ===== *)
(** * Directory: sessions, cooldown, lockout, bootstraps, search *)

From S2P Require Import Prelude Text External Proto DirLogic DirStore DirApi DirNames DirInv DirProps.

Section Claims.
Context {X : DirExt}.

(** ** Who gets a session *)

Lemma verify_phone_Ok v raw code pep h :
  verify_phone v raw code pep = Ok h ->
  exists e164, normalize_e164 raw = Ok e164 /\ vendor_verify v e164 code = Ok true /\ phone_hash e164 pep = Ok h.
Proof.
  unfold verify_phone. destruct (normalize_e164 raw) as [e164|]; simpl; [|done].
  destruct (vendor_verify v e164 code) as [[]|[]] eqn:Ev; intros H; simplify_eq. by exists e164.
Qed.

(** C24: fail-closed verification: a request adds a session only if it is a
    verification or a restore whose code the vendor affirmatively approved for
    that phone number; a vendor outage, error or rejection never does. *)
Theorem session_needs_approved_code E app r d tok s :
  sessions (tables d) !! tok = None -> sessions (tables (serve E app r d)) !! tok = Some s ->
  exists phone code e164,
    ((exists h peer, r = RVerify h peer phone code) \/ r = RRestoreBegin phone code) /\
    normalize_e164 phone = Ok e164 /\ vendor_verify (vendor app) e164 code = Ok true.
Proof.
  intros H0 H1.
  assert (Hd : approved app r \/ ~ approved app r).
  { destruct r; simpl; try (by right; intros []);
      (destruct (verify_phone (vendor app) phone code (pepper app)) as [h0|]; [left; by exists h0|right; by intros [? ?]]). }
  destruct Hd as [Ha|Hn].
  - destruct r; try done; simpl in Ha; destruct Ha as [hh Ha];
      apply verify_phone_Ok in Ha as (e164 & Hn & Hv & _); exists phone, code, e164; (split; [|done]); [left; by exists h, peer|by right].
  - exfalso. cut (sessions (tables (serve E app r d)) !! tok = None); [congruence|].
    apply (serve_keeps (fun t => sessions t !! tok = None) (fun _ => True)); try done; intros.
    + apply answers_True, keeps_authenticate.
    + apply answers_True. call_frame.
    + apply answers_find_user_True.
    + unfold claim_username. apply keeps_bind; [apply keeps_result|]. intros _.
      apply keeps_bind; [|intros; apply keeps_result]. apply keeps_map_err. call_frame.
    + unfold set_searchable. destruct b, h; call_frame.
    + apply keeps_call. intros t t' a Hp Hf. cbn zeta in Hf. simplify_eq. simpl.
      apply map_lookup_filter_None. by left.
    + call_frame.
    + call_frame.
    + call_frame.
    + call_frame.
Qed.

(** ** Cooldown *)

Lemma serve_cooldown E app r d e :
  e ∈ phone_cooldown (tables d) -> e ∈ phone_cooldown (tables (serve E app r d)).
Proof.
  apply (serve_keeps (fun t => e ∈ phone_cooldown t) (fun _ => True)); intros.
  - apply answers_True, keeps_authenticate.
  - apply answers_True. call_frame.
  - apply answers_find_user_True.
  - call_frame.
  - unfold claim_username. apply keeps_bind; [apply keeps_result|]. intros _.
    apply keeps_bind; [|intros; apply keeps_result]. apply keeps_map_err. call_frame.
  - unfold set_searchable. destruct b, h; call_frame.
  - apply keeps_call. intros t t' a Hp Hf. cbn zeta in Hf. simplify_eq. simpl. case_match; set_solver.
  - call_frame.
  - call_frame.
  - call_frame.
  - unfold create_session. apply keeps_bind; [apply keeps_draw|]. intros rnd.
    apply keeps_bind; [|intros; apply keeps_ret]. call_frame.
  - call_frame.
Qed.

Lemma cooling E hash d d' t0 u :
  (hash, t0) ∈ phone_cooldown (tables d) -> d_unix E - PHONE_COOLDOWN_HOURS * 3600 < t0 ->
  check_cooldown E hash d <> (d', Ok u).
Proof.
  intros Hc Ht H. unfold check_cooldown, is_phone_in_cooldown in H. dinv H. subst a.
  apply negb_true_iff, Z.ltb_ge in H. rename H into Hl.
  assert (Hin : (hash, t0) ∈ retain (fun '(h', at_) => bool_decide (h' = hash) &&
      (d_unix E - PHONE_COOLDOWN_HOURS * 3600 <? at_)) (phone_cooldown (tables d))).
  { apply retain_elem. split; [done|]. rewrite bool_decide_eq_true_2 by done. by apply Z.ltb_lt. }
  destruct (retain _ _) as [|x l]; [set_solver|]. rewrite len_cons in Hl. len_lia.
Qed.

(** A deleted account's phone number is locked for [PHONE_COOLDOWN_HOURS]:
    until then, whatever requests come in between, neither signing up nor
    verifying a code for a number with that hash succeeds. *)
Theorem deleted_phone_cools_down E h d d' hash id row tok c ss E' app h' peer phone code :
  delete_account E h d = (d', Ok tt) ->
  authorization h = Some (str "Bearer " ++ tok) -> sessions (tables d) !! tok = Some (id, c) ->
  dir_ok (tables d) -> users (tables d) !! id = Some row -> u_phone_hash row = hash ->
  d_unix E' < d_unix E + PHONE_COOLDOWN_HOURS * 3600 ->
  (forall e164, normalize_e164 phone = Ok e164 -> phone_hash e164 (pepper app) = Ok hash) ->
  (forall d2 r, signup_handler E' app h' peer phone (serve_all ss d') <> (d2, Ok r)) /\
  (forall d2 r, verify_handler E' app h' peer phone code (serve_all ss d') <> (d2, Ok r)).
Proof.
  intros H Ha Hs O Hu Eh Ht Hph.
  assert (Hc : (hash, d_unix E) ∈ phone_cooldown (tables (serve_all ss d'))).
  { apply (serve_all_keeps (fun d => (hash, d_unix E) ∈ phone_cooldown (tables d)));
      [intros; by apply serve_cooldown|].
    unfold delete_account in H. dinv H.
    match goal with H1 : authenticate _ _ _ = (_, Ok ?u) |- _ =>
      apply authenticate_run in H1 as (Et & tok' & c' & row' & Ha' & Hs' & Hu' & L & _) end.
    rewrite Ha in Ha'. injection Ha' as Ha'. subst tok'. simplify_eq.
    apply db_call_run in H as (t & Hf & -> & _). cbn zeta in Hf. rewrite Et in Hf.
    rewrite (dir_ok_as_i64 _ _ _ O Hu'), Hu' in Hf. simplify_eq. simpl. set_solver. }
  split; intros d2 r Hr; unfold signup_handler, verify_handler, check_ip in Hr; dinv Hr.
  - match goal with H1 : normalize_e164 phone = Ok ?e, H2 : phone_hash ?e _ = Ok _ |- _ =>
      rewrite (Hph _ H1) in H2; simplify_eq end.
    match goal with H1 : check_cooldown _ _ _ = _ |- _ => revert H1 end.
    eapply (cooling _ _ _ _ (d_unix E)); [congruence|lia].
  - match goal with H1 : verify_phone _ _ _ _ = Ok _ |- _ => apply verify_phone_Ok in H1 as (e & N & _ & P) end.
    rewrite (Hph _ N) in P. simplify_eq.
    match goal with H1 : check_cooldown _ _ _ = _ |- _ => revert H1 end.
    eapply (cooling _ _ _ _ (d_unix E)); [congruence|lia].
Qed.

(** ** The PIN lockout *)

Definition at_unix (t : Z) : DirEnv := mkDirEnv t 0 (fun _ => []) (fun _ => true).

(** A sequence of PIN proofs, each at its time: the row afterwards, and how many of
    them were compared with the stored hash. *)
Fixpoint guess_all (gs : list (Z * bytes)) (b : Backup) : Backup * Z :=
  match gs with
  | [] => (b, 0)
  | (t, auth) :: gs' =>
      let '(b1, _) := verify_backup_row (at_unix t) b auth true in
      let '(b2, n) := guess_all gs' b1 in
      (b2, (match is_locked (at_unix t) b with None => 1 | Some _ => 0 end) + n)
  end.

(** The hours of the [k]-th lockout, and of the first [k] together. *)
Definition pause (k : nat) : Z := match k with 1%nat => 1 | 2%nat => 4 | _ => 24 end.
Fixpoint pauses (k : nat) : Z := match k with O => 0 | S k' => pauses k' + pause k end.

Fixpoint ascending_from (t : Z) (ts : list Z) : Prop :=
  match ts with [] => True | u :: ts' => t <= u /\ ascending_from u ts' end.

Lemma lockout_pause k : 1 <= k -> lockout_hours k = pause (Z.to_nat k).
Proof.
  intros Hk. unfold lockout_hours, pause. destruct (Z.leb_spec k 1); [by replace k with 1 by lia|].
  destruct (Z.eqb_spec k 2) as [->|]; [done|]. by replace (Z.to_nat k) with (S (S (S (Z.to_nat (k - 3))))) by lia.
Qed.
Lemma pauses_succ k : 0 <= k -> pauses (Z.to_nat (k + 1)) = pauses (Z.to_nat k) + lockout_hours (k + 1).
Proof.
  intros Hk. rewrite lockout_pause by lia. by replace (Z.to_nat (k + 1)) with (S (Z.to_nat k)) by lia.
Qed.

(** When the [a]-th guess can have been made, counting from the first. *)
Record guessed (t0 now : Z) (b : Backup) : Prop := {
  g_attempts : 0 <= pin_attempts b;
  g_time : 0 < pin_attempts b -> t0 + 3600 * pauses (Z.to_nat ((pin_attempts b - 1) / 10)) <= now;
  g_start : t0 <= now;
  g_lock : 0 < pin_attempts b -> pin_attempts b mod 10 = 0 ->
    exists l, locked_until b = Some l /\ t0 + 3600 * pauses (Z.to_nat (pin_attempts b / 10)) <= l;
}.

(** A wrong proof that is compared: one more attempt, and at every tenth the lockout. *)
Lemma guess_compared t b auth :
  ct_eq auth (auth_pin_hash (b_upload b)) = false -> is_locked (at_unix t) b = None -> 0 <= pin_attempts b < 2 ^ 31 - 1 ->
  let a := pin_attempts b + 1 in
  verify_backup_row (at_unix t) b auth true =
  if a mod 10 =? 0
  then (mkBackup (b_upload b) a (Some (t + 3600 * pause (Z.to_nat (a / 10)))) (b_updated_at b), Locked (t + 3600 * pause (Z.to_nat (a / 10))))
  else (mkBackup (b_upload b) a (locked_until b) (b_updated_at b), WrongPin (10 - a mod 10)).
Proof.
  intros Hw El Hb a. unfold verify_backup_row. rewrite El, Hw. cbn [negb].
  assert (wrap_i32 (pin_attempts b + 1) = a) as ->.
  { unfold a, wrap_i32, u32_modulus. rewrite Z.mod_small; lia. }
  rewrite Z.rem_mod_nonneg, Z.quot_div_nonneg by lia. destruct (Z.eqb_spec (a mod 10) 0) as [Hm|]; [|done].
  rewrite <- lockout_pause, (Z.mul_comm 3600) by (Z.to_euclidean_division_equations; lia). done.
Qed.

Lemma guess_step t0 now t b auth :
  ct_eq auth (auth_pin_hash (b_upload b)) = false -> guessed t0 now b -> now <= t -> pin_attempts b < 2 ^ 31 - 1 ->
  let b' := (verify_backup_row (at_unix t) b auth true).1 in
  guessed t0 t b' /\ b_upload b' = b_upload b /\
  pin_attempts b' = pin_attempts b + match is_locked (at_unix t) b with None => 1 | Some _ => 0 end.
Proof.
  intros Hw [G1 G2 G3 G4] Hn Hb b'. unfold b'.
  destruct (is_locked (at_unix t) b) as [until|] eqn:El.
  { unfold verify_backup_row. rewrite El. simpl. split; [|split; [done|lia]]. split; [done| |lia|done]. intros Hp. specialize (G2 Hp). lia. }
  rewrite guess_compared by (done || lia). set (a := pin_attempts b) in *.
  assert (Et : t0 + 3600 * pauses (Z.to_nat (a / 10)) <= t).
  { destruct (decide (a = 0)) as [->|Ha]; [simpl; lia|].
    destruct (decide (a mod 10 = 0)) as [Hm|Hm].
    - destruct (G4 ltac:(lia) Hm) as (l & Hl & Hle). unfold is_locked in El. rewrite Hl in El. simpl in El.
      destruct (Z.ltb_spec t l); [done|]. lia.
    - replace (a / 10) with ((a - 1) / 10); [specialize (G2 ltac:(lia)); lia|].
      clear -Hm G1 Ha. Z.to_euclidean_division_equations. lia. }
  destruct (Z.eqb_spec ((a + 1) mod 10) 0) as [Hm|Hm]; simpl; (split; [|split; [done|lia]]); split; simpl; try lia.
  - intros _. replace (a + 1 - 1) with a by lia. done.
  - intros _ _. eexists. split; [done|].
    assert ((a + 1) / 10 = a / 10 + 1) as ->.
    { clear -Hm G1. Z.to_euclidean_division_equations. lia. }
    assert (0 <= a / 10) by (apply Z.div_pos; lia). rewrite pauses_succ, lockout_pause by lia. lia.
  - intros _. replace (a + 1 - 1) with a by lia. done.
Qed.

Lemma guess_all_guessed gs t0 now b b' n :
  Forall (fun g => ct_eq g.2 (auth_pin_hash (b_upload b)) = false) gs -> guessed t0 now b -> ascending_from now gs.*1 ->
  pin_attempts b + len gs < 2 ^ 31 - 1 -> guess_all gs b = (b', n) ->
  guessed t0 (default now (last gs.*1)) b' /\ pin_attempts b' = pin_attempts b + n /\ n <= len gs /\ b_upload b' = b_upload b.
Proof.
  revert now b b' n. induction gs as [|[t auth] gs IH]; intros now b b' n Hw G Ha Hb H; cbn [guess_all] in H.
  { simplify_eq. split; [done|]. split; [lia|]. split; [unfold len; simpl; lia|done]. }
  destruct Ha as [Ht Ha]. apply Forall_cons in Hw as [Hw Hws]. simpl in Hw. rewrite len_cons in Hb |- *. pose proof (len_nonneg gs).
  destruct (guess_step t0 now t b auth Hw G Ht) as (G' & Eu & Ep); [lia|].
  destruct (verify_backup_row _ b auth true) as [b1 v] eqn:Ev. simpl in G', Eu, Ep.
  destruct (guess_all gs b1) as [b2 m] eqn:Eg. injection H as Eb En. subst b' n.
  destruct (IH t b1 b2 m) as (G2 & E2 & Hm & Eu2); [by rewrite Eu|done|done| |done|].
  { rewrite Ep. destruct (is_locked _ b); lia. }
  split; [|split; [rewrite E2, Ep; lia|split; [destruct (is_locked _ b); lia|congruence]]]. rewrite fmap_cons, last_cons. by destruct (last gs.*1).
Qed.

(** C25: the PIN lockout. Take any wrong proofs against a fresh backup, at any times, of
    which [n] were compared with the stored hash. Then the lockouts of the full tens
    before the last one have been sat through. And this is what the next wrong proof
    gets: while the row is locked, that, with nothing compared or counted; otherwise it
    is the [n + 1]st, and every tenth locks the account, for 1 hour the first time, 4
    hours the second and 24 hours each time after, the others being told how many are
    left. *)
Theorem pin_lockout_schedule gs t0 b b' n :
  pin_attempts b = 0 -> locked_until b = None -> Forall (fun g => ct_eq g.2 (auth_pin_hash (b_upload b)) = false) gs ->
  ascending_from t0 gs.*1 -> len gs < 2 ^ 31 - 1 -> guess_all gs b = (b', n) ->
  (0 < n -> 3600 * pauses (Z.to_nat ((n - 1) / 10)) <= default t0 (last gs.*1) - t0) /\
  forall t auth, ct_eq auth (auth_pin_hash (b_upload b)) = false ->
    let '(b2, v) := verify_backup_row (at_unix t) b' auth true in
    (forall l, locked_until b' = Some l -> t < l -> v = Locked l /\ b2 = b') /\
    ((forall l, locked_until b' = Some l -> l <= t) ->
     pin_attempts b2 = n + 1 /\
     (((n + 1) mod 10 <> 0 -> v = WrongPin (10 - (n + 1) mod 10)) /\
      ((n + 1) mod 10 = 0 -> let l := t + 3600 * pause (Z.to_nat ((n + 1) / 10)) in v = Locked l /\ locked_until b2 = Some l))).
Proof.
  intros Hp Hl Hw Ha Hb E. assert (G0 : guessed t0 t0 b) by (split; rewrite ?Hp; lia).
  destruct (guess_all_guessed gs t0 t0 b b' n Hw G0 Ha ltac:(lia) E) as (G & Ea & Hn & Eu).
  rewrite Hp, Z.add_0_l in Ea. split.
  - intros Hpos. destruct G as [_ G _ _]. rewrite Ea in G. specialize (G Hpos). lia.
  - intros t auth Hwrong. rewrite <- Eu in Hwrong. pose proof (g_attempts _ _ _ G) as Hge. rewrite Ea in Hge.
    destruct (verify_backup_row (at_unix t) b' auth true) as [b2 v] eqn:Ev. split.
    + intros l El Ht. unfold verify_backup_row, is_locked in Ev. rewrite El in Ev. simpl in Ev.
      rewrite (proj2 (Z.ltb_lt _ _) Ht) in Ev. by simplify_eq.
    + intros Hfree. assert (En : is_locked (at_unix t) b' = None).
      { unfold is_locked. destruct (locked_until b') as [l|]; [|done]. specialize (Hfree l eq_refl). simpl. by destruct (Z.ltb_spec t l); [lia|]. }
      rewrite guess_compared, Ea in Ev by (done || lia).
      destruct (Z.eqb_spec ((n + 1) mod 10) 0); simplify_eq; by repeat split.
Qed.

End Claims.

(** ** Examples *)

Module ClaimExamples.
Import ToyInstances DirScenario DirExamples.

Definition alice_token : bytes := match verified.2 with Ok (_, t, _) => t | Err _ => [] end.
Definition alice_session : Z * Z := (1, 101).

Lemma session_needs_approved_code_witness :
  exists phone' code e164, RVerify anonymous [1] phone DEV_OTP_CODE = RVerify anonymous [1] phone' code /\
    vendor_verify (vendor app) e164 code = Ok true.
Proof.
  assert (H0 : sessions (tables signed_up) !! alice_token = None) by (vm_compute; reflexivity).
  assert (H1 : sessions (tables (serve (at_time 101) app (RVerify anonymous [1] phone DEV_OTP_CODE) signed_up)) !! alice_token
    = Some alice_session) by (vm_compute; reflexivity).
  destruct (session_needs_approved_code _ _ _ _ _ _ H0 H1) as (p & c & e & [(h & peer & Hr)|Hr] & _ & Hv); [|discriminate Hr].
  exists p, c, e. injection Hr as _ _ <- <-. split; [reflexivity|exact Hv].
Defined.

Definition retry : list Step := [mkStep (at_time 500) app (RSignup anonymous [1] phone)].

Lemma alice_hash e164 : normalize_e164 phone = Ok e164 -> phone_hash e164 (pepper app) = Ok (u_phone_hash alice_row).
Proof.
  assert (Hn : normalize_e164 phone = Ok phone) by (vm_compute; reflexivity).
  rewrite Hn. intros He. injection He as <-. vm_compute. reflexivity.
Qed.

Lemma deleted_phone_cools_down_witness :
  users (tables findable) !! 1 = Some alice_row /\
  forall d2 r, signup_handler (at_time 1000) app anonymous [1] phone (serve_all retry gone) <> (d2, Ok r).
Proof.
  assert (H1 : authorization alice = Some (str "Bearer " ++ alice_token)) by (vm_compute; reflexivity).
  assert (H2 : sessions (tables findable) !! alice_token = Some (1, 101)) by (vm_compute; reflexivity).
  assert (H4 : d_unix (at_time 1000) < d_unix (at_time 104) + PHONE_COOLDOWN_HOURS * 3600) by (vm_compute; reflexivity).
  pose proof (deleted_phone_cools_down (at_time 104) alice findable gone (u_phone_hash alice_row) 1 alice_row
    alice_token 101 retry (at_time 1000) app anonymous [1] phone DEV_OTP_CODE gone_eq H1 H2 findable_ok alice_row_eq eq_refl H4 alice_hash)
    as [H _].
  split; [exact alice_row_eq|exact H].
Defined.

(** A fresh backup, attacked with wrong proofs every second for 12 seconds and again
    after the first lockout, ten times: twenty comparisons but one. *)
Definition fresh_backup : Backup := mkBackup (mkUpload [1] [1] [] [1] [] [5] [] [6] []) 0 None 0.
Definition attack : list (Z * bytes) := (fun t => (t, [t])) <$> ([11; 12; 13; 14; 15; 16; 17; 18; 19; 20; 21; 22] ++ [3620; 3621; 3622; 3623; 3624; 3625; 3626; 3627; 3628]).
Definition attacked : Backup := (guess_all attack fresh_backup).1.
Lemma attacked_eq : guess_all attack fresh_backup = (attacked, 19).
Proof. vm_compute. reflexivity. Qed.

Lemma pin_lockout_schedule_witness :
  3600 * pauses 1 <= 3628 - 11 /\ (verify_backup_row (at_unix 3630) attacked [9] true).2 = Locked (3630 + 4 * 3600).
Proof.
  destruct (pin_lockout_schedule attack 11 fresh_backup attacked 19 eq_refl eq_refl) as [H1 H2].
  - apply (bool_decide_unpack _). vm_compute. exact I.
  - simpl. lia.
  - vm_compute. reflexivity.
  - exact attacked_eq.
  - split; [exact (H1 ltac:(lia))|]. specialize (H2 3630 [9] ltac:(vm_compute; reflexivity)).
    destruct (verify_backup_row (at_unix 3630) attacked [9] true) as [b2 v]. destruct H2 as [_ H2].
    destruct H2 as (_ & _ & H2); [intros l Hl; vm_compute in Hl; injection Hl as <-; lia|].
    exact (proj1 (H2 eq_refl)).
Defined.
End ClaimExamples.
