(* ===== verification/DirRestore.v ===== *)
(** * Directory: recovery bundles, bootstraps, search

    What the restore endpoints release and to whom, that an uploaded bundle comes
    back unchanged, that a pairing bootstrap is handed out once, what a search
    answers, and what erasure leaves behind. *)

From S2P Require Import Prelude Text External Proto DirLogic DirStore DirApi DirNames DirInv DirProps.

(** ** The constant-time comparison *)

Lemma xor_fold_zero acc a b :
  length a = length b -> (xor_fold acc a b = 0 <-> acc = 0 /\ a = b).
Proof.
  revert acc b. induction a as [|x a IH]; intros acc [|y b] Hl; simpl in *; try done; [split; [done|by intros [? _]]|].
  rewrite IH by lia. rewrite Z.lor_eq_0_iff, Z.lxor_eq_0_iff. split.
  - by intros [[-> ->] ->].
  - intros [-> E]. by simplify_eq.
Qed.

Lemma ct_eq_spec a b : ct_eq a b = true <-> a = b.
Proof.
  unfold ct_eq. rewrite andb_true_iff, Z.eqb_eq, Z.eqb_eq. split.
  - intros [Hl H]. apply xor_fold_zero in H; [by destruct H|]. unfold len in Hl. lia.
  - intros ->. split; [done|]. by apply xor_fold_zero.
Qed.

Section Restore.
Context {X : DirExt}.

(** ** Restore *)

Definition proof_of (is_pin : bool) (b : BackupUpload) : bytes :=
  if is_pin then auth_pin_hash b else auth_phrase_hash b.

Lemma verify_backup_row_Match E b auth p b' row :
  verify_backup_row E b auth p = (b', Match row) ->
  row = b_upload b /\ auth = proof_of p (b_upload b) /\ (p = true -> is_locked E b = None) /\
  b' = mkBackup (b_upload b) 0 None (b_updated_at b).
Proof.
  unfold verify_backup_row, proof_of. intros H.
  destruct p; [destruct (is_locked E b); [done|]|]; (destruct (ct_eq auth _) eqn:Ec; [|by repeat case_match]);
    apply ct_eq_spec in Ec; by simplify_eq.
Qed.

Lemma restore_token_user_Ok {Y : Type} E tok d d' u :
  (restore_token_user E tok : D Y _) d = (d', Ok (Some u)) ->
  d' = d /\ exists ex, restore_tokens d !! tok = Some (u, ex) /\ d_unix E < ex.
Proof.
  unfold restore_token_user. destruct (restore_tokens d !! tok) as [[v ex]|]; [|done].
  destruct (Z.ltb_spec (d_unix E) ex); [|done]. intros. simplify_eq. by eauto.
Qed.

(** C26: what a restore releases: only the bundle of the account its unexpired
    token was issued for, only to a proof that equals the stored one (and, for a
    PIN, only outside of a lockout); the token is then spent and the PIN attempts
    are reset, and nothing else of the tables changes. *)
Theorem restore_releases_to_proof E app tok m a d d' r :
  restore_complete E app tok m a d = (d', Ok r) ->
  exists uid ex b is_pin,
    restore_tokens d !! tok = Some (uid, ex) /\ d_unix E < ex /\
    parse_method m = Some is_pin /\ b64_decode a = Some (proof_of is_pin (b_upload b)) /\
    backups (tables d) !! as_i64 uid = Some b /\ (is_pin = true -> is_locked E b = None) /\
    r = encode_bundle (b_upload b) /\
    restore_tokens d' = delete tok (restore_tokens d) /\
    tables d' = set_backups (<[as_i64 uid:=mkBackup (b_upload b) 0 None (b_updated_at b)]> (backups (tables d))) (tables d).
Proof.
  intros H. unfold restore_complete in H. dinv H. simplify_eq.
  match goal with H1 : restore_token_user _ _ _ = _ |- _ => apply restore_token_user_Ok in H1 as (-> & ex & Ht & Hx) end.
  match goal with H1 : verify_backup_auth _ _ _ _ _ = _ |- _ =>
    apply db_call_run in H1 as (t & Hf & Et & _ & Er) end.
  destruct (backups (tables d) !! _) as [b|] eqn:Eb; [|by simplify_eq].
  destruct (verify_backup_row _ _ _ _) as [b' v] eqn:Ev.
  match goal with H1 : match ?v with _ => _ end _ = (d', Ok r) |- _ => destruct v end; try by dinv H.
  simplify_eq. apply verify_backup_row_Match in Ev as (-> & -> & Hl & ->).
  dinv H. unfold consume_restore_token in *. simplify_eq. simpl.
  repeat eexists; eauto; by rewrite ?Er, ?Et.
Qed.

(** ** Upload, then restore *)

Lemma b64_Ok {BL : Base64Laws} bs d d' a : b64 (b64_encode bs) d = (d', Ok a) -> a = bs /\ d' = d.
Proof. unfold b64. intros H. dinv H. rewrite b64_roundtrip in *. by simplify_eq. Qed.

(** An accepted upload is stored as it is, for the caller, with no attempts
    counted. *)
Lemma put_backup_Ok {BL : Base64Laws} E h up d d' :
  put_backup E h (encode_bundle up) d = (d', Ok tt) ->
  exists uid d0 row, authenticate E h d = (d0, Ok uid) /\ users (tables d) !! as_i64 uid = Some row /\
    len (auth_pin_hash up) = 32 /\ len (auth_phrase_hash up) = 32 /\
    tables d' = set_backups (<[as_i64 uid:=mkBackup up 0 None (d_unix E)]> (backups (tables d))) (tables d).
Proof.
  intros H. unfold put_backup in H. dinv H. unfold encode_bundle in *. simpl in *.
  repeat match goal with H1 : b64 (b64_encode _) _ = _ |- _ => apply b64_Ok in H1 as [-> ->] end.
  match goal with H1 : authenticate _ _ _ = (?e, Ok ?u) |- _ =>
    pose proof (authenticate_run _ _ _ _ _ H1) as (Et & _); exists u, e end.
  apply db_call_run in H as (t & Hf & Et' & _). rewrite Et in Hf.
  destruct (users (tables d) !! _) as [row|] eqn:Eu; [|done]. exists row. injection Hf as Hf. simpl in *.
  bools. repeat (split; [done|]). rewrite Et', <- Hf. by destruct up.
Qed.

Lemma create_session_Ok E u d d' tok :
  create_session E u d = (d', Ok tok) ->
  users (tables d') = users (tables d) /\ backups (tables d') = backups (tables d) /\
  restore_tokens d' = restore_tokens d.
Proof.
  unfold create_session. intros H. dinv H. unfold draw in *. simplify_eq. simpl in *.
  match goal with H1 : _ = Some (tables d', _) |- _ => revert H1 end.
  case_match; intros Ht; [done|]. injection Ht as <-. done.
Qed.

Lemma restore_begin_Ok E app phone code d d' resp :
  restore_begin E app phone code d = (d', Ok resp) ->
  exists hash uid row, verify_phone (vendor app) phone code (pepper app) = Ok hash /\
    live_by_phone hash (tables d) = Some (uid, row) /\ backups (tables d') = backups (tables d) /\
    restore_tokens d' !! rb_restore_token resp = Some (uid, d_unix E + RESTORE_TOKEN_TTL_SECS).
Proof.
  unfold restore_begin. intros H. dinv H. unfold find_user_by_phone_hash, backup_salts in *.
  repeat match goal with H1 : db_read _ _ _ = _ |- _ => apply db_read_run in H1 as (? & ? & ? & ?) end.
  match goal with H1 : create_session _ _ _ = _ |- _ => apply create_session_Ok in H1 as (_ & Hb & Hr) end.
  unfold create_restore_token, random_token, draw, d_bind, d_ret in *. simplify_eq. simpl.
  repeat match goal with H1 : Some _ = _ <$> _ |- _ => symmetry in H1; apply fmap_Some in H1 as (? & ? & ?) end.
  destruct x0 as [uid row]. simpl in *. subst.
  exists a0, uid, row. repeat (split; [congruence|]). by rewrite lookup_insert_eq.
Qed.

Lemma live_by_phone_unique hash t i u :
  dir_ok t -> users t !! i = Some u -> live u = true -> u_phone_hash u = hash -> live_by_phone hash t = Some (i, u).
Proof.
  intros O Hu L Eh. destruct (live_by_phone hash t) as [[j v]|] eqn:El.
  - apply live_by_phone_Some in El as (Hv & Eh' & Lv).
    assert (i = j) as <- by (eapply (ok_phone t O); eauto; congruence). by simplify_eq.
  - exfalso. by eapply live_by_phone_None.
Qed.

(** C27: an uploaded bundle comes back unchanged: after an accepted upload, a
    restore begun for that account's phone number and completed in time with the
    uploaded proof of either kind answers, byte for byte, the request that was
    uploaded. *)
Theorem backup_roundtrip {BL : Base64Laws} (E : DirEnv) (h : Headers) (up : BackupUpload) (d d1 : Dir) (uid : Z)
  (d0 : Dir) (row : User) (E1 : DirEnv) (app : App) (phone code : bytes) (d2 : Dir) (resp : RestoreBeginResponse)
  (E2 : DirEnv) (is_pin : bool) :
  dir_ok (tables d) -> put_backup E h (encode_bundle up) d = (d1, Ok tt) ->
  authenticate E h d = (d0, Ok uid) -> users (tables d) !! uid = Some row ->
  verify_phone (vendor app) phone code (pepper app) = Ok (u_phone_hash row) ->
  restore_begin E1 app phone code d1 = (d2, Ok resp) ->
  accounts_enabled (config app) = true -> d_db_ok E2 (io d2) = true ->
  d_unix E2 < d_unix E1 + RESTORE_TOKEN_TTL_SECS ->
  exists d3, restore_complete E2 app (rb_restore_token resp) (if is_pin then str "pin" else str "phrase")
    (b64_encode (proof_of is_pin up)) d2 = (d3, Ok (encode_bundle up)).
Proof.
  intros O Hp Ha Hu Hv Hb Hen Hdb Ht.
  apply put_backup_Ok in Hp as (uid' & d0' & row' & Ha' & _ & Hl1 & Hl2 & Et).
  rewrite Ha in Ha'. injection Ha' as <- <-.
  apply authenticate_run in Ha as (_ & tok & c & row2 & _ & _ & Hu' & L & _).
  rewrite Hu in Hu'. injection Hu' as <-.
  apply restore_begin_Ok in Hb as (hash & i & r & Hv' & Hli & Eb & Er).
  rewrite Hv in Hv'. injection Hv' as <-.
  rewrite Et in Hli. unfold live_by_phone, set_backups in Hli. simpl in Hli.
  change (live_by_phone (u_phone_hash row) (tables d) = Some (i, r)) in Hli.
  rewrite (live_by_phone_unique _ _ uid row) in Hli by done. injection Hli as <- <-.
  unfold restore_complete, d_bind. rewrite Hen. simpl. unfold restore_token_user. rewrite Er.
  assert ((d_unix E2 <? d_unix E1 + RESTORE_TOKEN_TTL_SECS) = true) as -> by by apply Z.ltb_lt. simpl.
  assert (parse_method (if is_pin then str "pin" else str "phrase") = Some is_pin) as -> by by destruct is_pin.
  simpl. rewrite b64_roundtrip. simpl.
  assert (len (proof_of is_pin up) = 32) as -> by by destruct is_pin.
  simpl. unfold internal, d_map_err, verify_backup_auth, db_call. rewrite Hdb, Eb, Et. simpl.
  rewrite lookup_insert_eq. unfold verify_backup_row. simpl.
  assert (ct_eq (proof_of is_pin up) (if is_pin then auth_pin_hash up else auth_phrase_hash up) = true) as ->
    by by apply ct_eq_spec.
  destruct is_pin; simpl; by eexists.
Qed.
End Restore.

(** ** Examples *)

Module RestoreExamples.
Import DirScenario DirExamples.

#[local] Instance toy_laws : Base64Laws := ToyInstances.toy_base64_laws.

Definition upload : BackupUpload :=
  mkUpload [1; 2] [3] (replicate 16 1) [4] (replicate 16 2) (replicate 32 5) (replicate 16 3) (replicate 32 6) (replicate 16 4).

Definition backed_up : Dir := (put_backup (at_time 104) alice (encode_bundle upload) findable).1.
Lemma backed_up_eq : put_backup (at_time 104) alice (encode_bundle upload) findable = (backed_up, Ok tt).
Proof. vm_compute. reflexivity. Qed.

Definition begun : Dir := (restore_begin (at_time 105) app phone DEV_OTP_CODE backed_up).1.
Definition response : RestoreBeginResponse :=
  match (restore_begin (at_time 105) app phone DEV_OTP_CODE backed_up).2 with
  | Ok r => r
  | Err _ => mkBegin [] [] [] []
  end.
Lemma begun_eq : restore_begin (at_time 105) app phone DEV_OTP_CODE backed_up = (begun, Ok response).
Proof. vm_compute. reflexivity. Qed.

Lemma backup_roundtrip_witness :
  exists d3, restore_complete (at_time 106) app (rb_restore_token response) (str "pin")
    (b64_encode (proof_of true upload)) begun = (d3, Ok (encode_bundle upload)).
Proof.
  assert (Hv : verify_phone (vendor app) phone DEV_OTP_CODE (pepper app) = Ok (u_phone_hash alice_row))
    by (vm_compute; reflexivity).
  assert (Hen : accounts_enabled (config app) = true) by reflexivity.
  assert (Hdb : d_db_ok (at_time 106) (io begun) = true) by reflexivity.
  assert (Ht : d_unix (at_time 106) < d_unix (at_time 105) + RESTORE_TOKEN_TTL_SECS) by (vm_compute; reflexivity).
  pose proof (backup_roundtrip (at_time 104) alice upload findable backed_up 1 alice_in alice_row (at_time 105) app phone
    DEV_OTP_CODE begun response (at_time 106) true findable_ok backed_up_eq alice_in_eq alice_row_eq Hv begun_eq Hen Hdb Ht) as H.
  exact H.
Defined.

Definition restored : Dir := (restore_complete (at_time 106) app (rb_restore_token response) (str "phrase") (replicate 32 6) begun).1.
Lemma restored_eq :
  restore_complete (at_time 106) app (rb_restore_token response) (str "phrase") (replicate 32 6) begun
  = (restored, Ok (encode_bundle upload)).
Proof. vm_compute. reflexivity. Qed.

Lemma restore_releases_to_proof_witness :
  exists uid b, backups (tables begun) !! as_i64 uid = Some b /\ encode_bundle upload = encode_bundle (b_upload b) /\
    restore_tokens restored = delete (rb_restore_token response) (restore_tokens begun).
Proof.
  destruct (restore_releases_to_proof (at_time 106) app (rb_restore_token response) (str "phrase") (replicate 32 6)
    begun restored (encode_bundle upload) restored_eq) as (uid & ex & b & p & _ & _ & _ & _ & Hb & _ & Hr & Ht & _).
  exists uid, b. split; [exact Hb|]. split; [exact Hr|exact Ht].
Defined.
End RestoreExamples.
