(* ===== verification/DirSearch.v ===== *)
(** * Directory: bootstraps, search, what erasure and restore leave open

    A pairing bootstrap is handed out once; a search answers exactly the live
    accounts that opted in; the handle of an erased account stays readable; and
    the code check of a restore is outside of the rate limiter. *)

From S2P Require Import Prelude Text External Proto DirLogic DirStore DirApi DirNames DirInv DirProps.

Section Search.
Context {X : DirExt}.

(** ** Pairing bootstraps *)

(** The request does not publish a bootstrap. *)
Definition not_publishing (r : Request) : Prop := forall h l, r <> RSetBootstrap h l.

Lemma serve_no_bootstrap E app r d id :
  not_publishing r -> pairing_bootstrap (tables d) !! id = None ->
  pairing_bootstrap (tables (serve E app r d)) !! id = None.
Proof.
  intros Hr. apply (serve_keeps (fun t => pairing_bootstrap t !! id = None) (fun _ => True)); intros.
  - apply answers_True, keeps_authenticate.
  - apply answers_True. call_frame.
  - apply answers_find_user_True.
  - call_frame.
  - unfold claim_username. apply keeps_bind; [apply keeps_result|]. intros _.
    apply keeps_bind; [|intros; apply keeps_result]. apply keeps_map_err. call_frame.
  - unfold set_searchable. destruct b, h; call_frame.
  - apply keeps_call. intros t t' a Hp Hf. cbn zeta in Hf. simplify_eq. simpl. apply lookup_delete_None. by right.
  - by destruct (Hr h l).
  - apply keeps_call. intros t t' a Hp Hf. repeat case_match; simplify_eq; try done. simpl.
    apply lookup_delete_None. by right.
  - call_frame.
  - unfold create_session. apply keeps_bind; [apply keeps_draw|]. intros rnd.
    apply keeps_bind; [|intros; apply keeps_ret]. call_frame.
  - call_frame.
Qed.

Lemma serve_all_no_bootstrap ss d id :
  Forall (fun s => not_publishing (s_req s)) ss -> pairing_bootstrap (tables d) !! id = None ->
  pairing_bootstrap (tables (serve_all ss d)) !! id = None.
Proof.
  intros Hs. revert d. induction Hs as [|s ss Hr Hs IH]; intros d Hd; [done|].
  apply IH. by apply serve_no_bootstrap.
Qed.

Lemma check_caller_run E u d d' r : check_caller E u d = (d', Ok r) -> tables d' = tables d.
Proof. unfold check_caller, is_verified. intros H. dinv H. congruence. Qed.

Lemma request_bootstrap_run E app h uid d d' link :
  request_pairing_bootstrap E app h uid d = (d', Ok link) ->
  exists row at_, users (tables d) !! as_i64 uid = Some row /\ u_searchable row = true /\ live row = true /\
    pairing_bootstrap (tables d) !! as_i64 uid = Some (link, at_) /\
    tables d' = set_bootstraps (delete (as_i64 uid) (pairing_bootstrap (tables d))) (tables d).
Proof.
  unfold request_pairing_bootstrap. intros H. dinv H. simplify_eq.
  match goal with H1 : authenticate _ _ _ = _ |- _ => apply authenticate_run in H1 as (Et & _) end.
  match goal with H1 : check_caller _ _ _ = _ |- _ => apply check_caller_run in H1 as Et2 end.
  match goal with H1 : consume_pairing_bootstrap _ _ _ = _ |- _ => apply db_call_run in H1 as (t & Hf & Et3 & _) end.
  rewrite Et2, Et in Hf.
  destruct (pairing_bootstrap (tables d) !! _) as [[l at_]|] eqn:Eb; [|by simplify_eq].
  destruct (users (tables d) !! _) as [row|] eqn:Eu; [|by simplify_eq].
  destruct (u_searchable row && live row) eqn:Es; [|by simplify_eq]. simplify_eq. bools.
  by exists row, at_.
Qed.

(** A pairing bootstrap is handed out once: a request that gets one gets what
    was published for a live account that opted into search, and from then on,
    whatever is asked, no request for that account gets one until a bootstrap is
    published again. *)
Theorem bootstrap_single_use E app h uid d d' link ss E' app' h' :
  request_pairing_bootstrap E app h uid d = (d', Ok link) ->
  Forall (fun s => not_publishing (s_req s)) ss ->
  (exists row at_, users (tables d) !! as_i64 uid = Some row /\ u_searchable row = true /\ live row = true /\
    pairing_bootstrap (tables d) !! as_i64 uid = Some (link, at_)) /\
  (forall d2 l, request_pairing_bootstrap E' app' h' uid (serve_all ss d') <> (d2, Ok l)).
Proof.
  intros H Hs. apply request_bootstrap_run in H as (row & at_ & Hu & Hse & Hl & Hb & Et).
  split; [by exists row, at_|]. intros d2 l H2.
  apply request_bootstrap_run in H2 as (row2 & at2 & _ & _ & _ & Hb2 & _).
  rewrite serve_all_no_bootstrap in Hb2; [done|done|]. rewrite Et. apply lookup_delete_eq.
Qed.

(** ** Search *)

(** The handle of an account, at the nickname's current width. *)
Definition handle_of (t : Tables) (id : Z) : option bytes :=
  u ← users t !! as_i64 id; n ← u_nickname u;
  Some (format_handle n (default 0 (u_discriminator u)) (default MIN_DISCRIMINATOR_WIDTH (nickname_widths t !! n))).

Lemma db_read_shape {A} (E : DirEnv) (f : Tables -> A) d :
  exists d', tables d' = tables d /\
    (db_read E f d = (d', Ok (f (tables d))) \/ (d_db_ok E (io d) = false /\ db_read E f d = (d', Err DbError))).
Proof.
  unfold db_read, db_call. destruct (d_db_ok E (io d)) eqn:Ed; simpl; eexists; (split; [|by eauto]); done.
Qed.

Lemma handle_for_run E id d :
  exists d' r, handle_for E id d = (d', r) /\ tables d' = tables d /\
    (r = Ok (handle_of (tables d) id) \/ (exists n, d_db_ok E n = false) /\ r = Err DbError).
Proof.
  unfold handle_for, d_bind.
  match goal with |- context [db_read E ?f d] => destruct (db_read_shape E f d) as (d1 & Et & [Hr|[Hd Hr]]); rewrite Hr end;
    [|by eauto 10].
  unfold handle_of. destruct (users (tables d) !! as_i64 id) as [u|]; simpl; [|by eauto 10].
  destruct (u_nickname u) as [n|]; simpl; [|by eauto 10].
  match goal with |- context [db_read E ?f d1] =>
    destruct (db_read_shape E f d1) as (d2 & Et2 & [Hr2|[Hd Hr2]]); rewrite Hr2 end.
  - rewrite Et in *. eexists _, _. split; [done|]. split; [done|by left].
  - eexists _, _. split; [done|]. split; [congruence|]. right. by eauto.
Qed.

Definition result_of (e : PhoneEntry) (handle : bytes) : Z * bytes * bytes := (pe_user_id e, handle, pe_phone_hash e).

Lemma search_results_run E l d d' rs :
  search_results E l d = (d', Ok rs) ->
  (forall x, x ∈ rs -> exists e handle, e ∈ l /\ handle_of (tables d) (pe_user_id e) = Some handle /\ x = result_of e handle) /\
  ((forall n, d_db_ok E n = true) -> forall e handle,
    e ∈ l -> handle_of (tables d) (pe_user_id e) = Some handle -> result_of e handle ∈ rs).
Proof.
  revert d d' rs. induction l as [|e l IH]; intros d d' rs H; simpl in H; unfold d_ret in H.
  { simplify_eq. split; intros; set_solver. }
  apply d_bind_Ok in H as (r & d1 & H1 & H). apply d_bind_Ok in H as (rest & d2 & H2 & H). unfold d_ret in H.
  destruct (handle_for_run E (pe_user_id e) d) as (d1' & r' & Hr & Et & Hc).
  unfold d_try in H1. rewrite Hr in H1. injection H1 as -> ->.
  destruct (IH _ _ _ H2) as [I1 I2]. rewrite Et in I1, I2. injection H as -> <-.
  split.
  - intros x Hx. assert (x ∈ rest \/ exists handle, r = Ok (Some handle) /\ x = result_of e handle) as [Hx'|(hd & -> & ->)].
    { destruct r as [[hd|]|]; try by left. apply elem_of_cons in Hx as [->|]; [right; by exists hd|by left]. }
    + destruct (I1 x Hx') as (e' & hd & ? & ? & ?). exists e', hd. split; [by right|done].
    + exists e, hd. split; [by left|]. split; [|done]. destruct Hc as [Hc|[_ Hc]]; by simplify_eq.
  - intros Hdb e' hd He Hh. destruct Hc as [->|[[n Hn] _]]; [|by rewrite Hdb in Hn].
    apply elem_of_cons in He as [->|He]; [rewrite Hh; by left|].
    specialize (I2 Hdb e' hd He Hh). destruct (handle_of _ _); [by right|done].
Qed.

(** What a search for [prefix] should answer about the account [id]. *)
Record findable (t : Tables) (prefix : bytes) (id : Z) (handle hash : bytes) : Prop := {
  f_row : exists u n k w, users t !! id = Some u /\ live u = true /\ u_searchable u = true /\
    u_phone_search_hash u = hash /\ u_nickname u = Some n /\ u_discriminator u = Some k /\
    nickname_widths t !! n = Some w /\ handle = format_handle n k w;
  f_prefix : hash_prefix hash = prefix;
}.

Lemma bucket_elem prefix t e :
  e ∈ bucket_rows prefix t <-> exists u, users t !! pe_user_id e = Some u /\ pe_phone_hash e = u_phone_search_hash u /\
    u_phone_search_hash_prefix u = prefix /\ u_searchable u = true /\ live u = true.
Proof.
  unfold bucket_rows. rewrite list_elem_of_omap. split.
  - intros ([id u] & Hu%elem_of_map_to_list & H). destruct (_ && _ && _) eqn:Eb; [|done]. bools. simplify_eq. by exists u.
  - intros (u & Hu & Eh & Ep & Es & El). exists (pe_user_id e, u). split; [by apply elem_of_map_to_list|].
    rewrite Es, El, bool_decide_eq_true_2 by done. destruct e. simpl in *. by subst.
Qed.

Lemma search_by_prefix_run E prefix d d' l :
  (search_by_prefix E prefix : D ApiError (list PhoneEntry)) d = (d', Ok l) ->
  tables d' = tables d /\
  (l = bucket_rows prefix (tables d) \/ ((exists n, d_db_ok E n = false) \/ pg_text prefix = false) /\ l = []).
Proof.
  unfold search_by_prefix, bucket, store_index, store_bucket, db_select. intros H.
  destruct (pg_text prefix) eqn:Ep.
  - match type of H with context [db_call E ?f d] => change (db_call E f d) with (db_read E (bucket_rows prefix) d) in H end.
    destruct (db_read_shape E (bucket_rows prefix) d) as (d1 & Et & [Hr|[Hd Hr]]); rewrite Hr in H; injection H as <- <-;
      (split; [done|]); [by left|right; by eauto].
  - unfold db_call in H. destruct (d_db_ok E (io d)); injection H as <- <-; by eauto.
Qed.

Lemma handle_of_ok t id u handle :
  dir_ok t -> users t !! id = Some u -> (handle_of t id = Some handle <->
    exists n k w, u_nickname u = Some n /\ u_discriminator u = Some k /\ nickname_widths t !! n = Some w /\
      handle = format_handle n k w).
Proof.
  intros O Hu. unfold handle_of. rewrite (dir_ok_as_i64 _ _ _ O Hu), Hu. simpl.
  destruct (u_nickname u) as [n|] eqn:En; simpl; [|split; [done|by intros (? & ? & ? & ? & _)]].
  destruct (ok_slots _ O _ _ _ Hu En) as (k & w & Ek & Ew & _). rewrite Ek, Ew. simpl. split.
  - intros [= <-]. by exists n, k, w.
  - intros (n' & k' & w' & Hn & Hk & Hw & ->). by simplify_eq.
Qed.

(** C29: search answers exactly what it should: every result is a live account
    that opted in, with the search hash it published, under the asked prefix, and
    with its handle at the nickname's current width; when the database answers,
    every such account that has a handle is among the results. *)
Theorem search_exact E app h prefix d d' rs :
  dir_ok (tables d) -> search E app h prefix d = (d', Ok rs) ->
  (forall id handle hash, (id, handle, hash) ∈ rs -> findable (tables d) prefix id handle hash) /\
  ((forall n, d_db_ok E n = true) -> forall id handle hash,
     findable (tables d) prefix id handle hash -> (id, handle, hash) ∈ rs).
Proof.
  intros O H. unfold search in H. dinv H.
  match goal with H1 : authenticate _ _ _ = _ |- _ => apply authenticate_run in H1 as (Et & _) end.
  match goal with H1 : check_caller _ _ _ = _ |- _ => apply check_caller_run in H1 as Et2 end.
  match goal with H1 : search_by_prefix _ _ _ = _ |- _ => apply search_by_prefix_run in H1 as (Et3 & Hl) end.
  assert (Et4 : tables d2 = tables d) by congruence. rewrite Et2, Et in Hl.
  apply search_results_run in H as [S1 S2]. rewrite Et4 in S1, S2. split.
  - intros id handle hash Hin. destruct (S1 _ Hin) as (e & hd & He & Hh & [= -> -> ->]).
    destruct Hl as [->|[_ ->]]; [|set_solver].
    apply bucket_elem in He as (u & Hu & -> & <- & Es & El).
    apply (handle_of_ok _ _ u) in Hh as (n & k & w & ? & ? & ? & ?); [|done|done].
    split; [by exists u, n, k, w|]. pose proof (ok_search _ O _ _ Hu) as Hs. unfold search_ok in Hs. rewrite Es in Hs. symmetry. apply Hs.
  - intros Hdb id handle hash [(u & n & k & w & Hu & El & Es & <- & En & Ek & Ew & Eh) Hp].
    pose proof (ok_search _ O _ _ Hu) as Hs. unfold search_ok in Hs. rewrite Es in Hs. destruct Hs as [Hs1 Hs2].
    destruct Hl as [->|[[[m Hm]|Hm] _]]; [|by rewrite Hdb in Hm|subst prefix; by rewrite pg_text_prefix in Hm].
    apply (S2 Hdb (mkPhoneEntry (u_phone_search_hash u) id) handle).
    + apply bucket_elem. exists u. simpl. by rewrite Hs1.
    + apply (handle_of_ok _ _ u); [done|done|]. by exists n, k, w.
Qed.

(** ** What stays open *)

(** The handle of an erased account stays readable: [erase_user] keeps the
    nickname and discriminator of the row, and [handle_for] does not ask whether
    the row was erased, although the former's comment has the nickname scrubbed so
    that no fresh read recovers it. *)
Theorem erased_handle_readable E h d d' uid d0 row n E' :
  dir_ok (tables d) -> authenticate E h d = (d0, Ok uid) -> delete_account E h d = (d', Ok tt) ->
  users (tables d) !! uid = Some row -> u_nickname row = Some n -> (forall i, d_db_ok E' i = true) ->
  exists k w, u_discriminator row = Some k /\ (handle_for E' uid d').2 = Ok (Some (format_handle n k w)).
Proof.
  intros O Ha H Hu Hn Hdb. destruct (ok_slots _ O _ _ _ Hu Hn) as (k & w & Hk & Hw & _). exists k, w. split; [done|].
  unfold delete_account in H. dinv H. rewrite Ha in H0. injection H0 as <- <-.
  apply authenticate_run in Ha as (Et & _). apply db_call_run in H as (t & Hf & Et' & _).
  destruct (handle_for_run E' uid d') as (d2 & r & -> & _ & [->|[[i Hi] _]]); [|by rewrite Hdb in Hi].
  simpl. cbn zeta in Hf. rewrite Et in Hf. injection Hf as Hf. rewrite Et', <- Hf.
  unfold handle_of. simpl. rewrite (dir_ok_as_i64 _ _ _ O Hu), lookup_alter_eq, Hu. simpl.
  rewrite Hn. simpl. by rewrite Hk, Hw.
Qed.

(** A computation that neither reads nor writes the rate limiter. *)
Definition unlimited {Y A} (m : D Y A) : Prop := forall d rl,
  m (set_rate_limiter rl d) = (set_rate_limiter rl (m d).1, (m d).2).

Lemma unlimited_bind {Y A B} (m : D Y A) (k : A -> D Y B) :
  unlimited m -> (forall a, unlimited (k a)) -> unlimited (d_bind m k).
Proof.
  intros Hm Hk d rl. unfold d_bind. rewrite (Hm d rl). destruct (m d) as [d' [a|x]]; simpl; [apply Hk|done].
Qed.
Lemma unlimited_map_err {Y Y' A} (f : Y -> Y') (m : D Y A) : unlimited m -> unlimited (d_map_err f m).
Proof. intros Hm d rl. unfold d_map_err. rewrite (Hm d rl). by destruct (m d). Qed.
Lemma unlimited_call {A} E (f : Tables -> option (Tables * A)) : unlimited (db_call E f).
Proof. intros d rl. unfold db_call. simpl. destruct (d_db_ok E (io d)); [|done]. by destruct (f (tables d)) as [[]|]. Qed.

(** The code check of a restore is outside of the rate limiter: whatever the
    counters hold, [restore_begin] answers the same and leaves them as they are, so
    guesses of a number's code through it are not counted, although the limiter's
    comment has them bounded to a few per minute and number. *)
Theorem restore_begin_unthrottled E app phone code d rl :
  restore_begin E app phone code (set_rate_limiter rl d) =
  (set_rate_limiter rl (restore_begin E app phone code d).1, (restore_begin E app phone code d).2).
Proof.
  revert d rl. change (unlimited (restore_begin E app phone code)).
  unfold restore_begin, find_user_by_phone_hash, backup_salts, create_session, create_restore_token, random_token,
    internal, db_read.
  repeat first [ apply unlimited_bind; [|intros ?] | apply unlimited_map_err | apply unlimited_call ];
    try done; by destruct (accounts_enabled _).
Qed.
End Search.

(** ** Examples *)

Module SearchExamples.
Import DirScenario DirExamples.

Definition published : Dir := (set_pairing_bootstrap_handler (at_time 104) alice (str "link") findable).1.
Definition handed_out : Dir := (request_pairing_bootstrap (at_time 105) app alice 1 published).1.
Lemma handed_out_eq : request_pairing_bootstrap (at_time 105) app alice 1 published = (handed_out, Ok (str "link")).
Proof. vm_compute. reflexivity. Qed.

Lemma bootstrap_single_use_witness :
  (request_pairing_bootstrap (at_time 105) app alice 1 published).2 = Ok (str "link") /\
  forall d2 l, request_pairing_bootstrap (at_time 106) app alice 1 (serve_all later handed_out) <> (d2, Ok l).
Proof.
  split; [exact (f_equal snd handed_out_eq)|].
  refine (proj2 (bootstrap_single_use (at_time 105) app alice 1 published handed_out (str "link") later
    (at_time 106) app alice handed_out_eq _)).
  repeat constructor; intros h l Hr; discriminate Hr.
Defined.

Definition prefix_a : bytes := replicate (Z.to_nat PREFIX_LEN_HEX) 97.
Definition found : Dir * result (list (Z * bytes * bytes)) ApiError := search (at_time 104) app alice prefix_a findable.

Lemma search_exact_witness :
  found.2 = Ok [(1, str "alice#01", replicate 64 97)] /\
  DirSearch.findable (tables findable) prefix_a 1 (str "alice#01") (replicate 64 97).
Proof.
  assert (H : found.2 = Ok [(1, str "alice#01", replicate 64 97)]) by (vm_compute; reflexivity).
  split; [exact H|].
  assert (Hs : search (at_time 104) app alice prefix_a findable = (found.1, Ok [(1, str "alice#01", replicate 64 97)])).
  { rewrite <- H. unfold found. apply surjective_pairing. }
  apply (proj1 (search_exact (at_time 104) app alice prefix_a findable found.1 _ findable_ok Hs)). left.
Defined.

Lemma erased_handle_readable_witness : exists k w, (handle_for (at_time 105) 1 gone).2 = Ok (Some (format_handle (str "alice") k w)).
Proof.
  assert (Hn : u_nickname alice_row = Some (str "alice")) by (vm_compute; reflexivity).
  destruct (erased_handle_readable (at_time 104) alice findable gone 1 alice_in alice_row (str "alice") (at_time 105)
    findable_ok alice_in_eq gone_eq alice_row_eq Hn (fun _ => eq_refl)) as (k & w & _ & H).
  exists k, w. exact H.
Defined.
End SearchExamples.
