(* ===== verification/DirStatus.v ===== *)
(** * What the directory answers (directory/src/api.rs)

    The status of every answer and the body of an error. While the database, the OTP
    vendor and the hash function do their work and requests are served one at a time,
    the directory answers 500 only to a text with a zero byte that is handed to
    Postgres: whatever else a client sends, the constraints of the tables are never
    run into. *)

From S2P Require Import Prelude Text External Proto DirLogic DirStore DirApi DirNames DirInv DirProps DirRestore.

(** ** Responses *)

(** [{} h] or [{} min], rounded up. *)
Definition wait_text (seconds : Z) : bytes :=
  if 3600 <=? seconds then decimal ((seconds + 3599) / 3600) ++ str " h"
  else decimal (Z.max ((seconds + 59) / 60) 1) ++ str " min".

(** The fields of an error's JSON body: its text, the attempts left, the seconds to wait. *)
Record ErrorBody := mkBody { eb_error : bytes; eb_remaining : option (option Z); eb_retry_after : option Z }.

Definition error_body (e : ApiError) : ErrorBody :=
  match e with
  | BadRequest m => mkBody m None None
  | Unauthorized => mkBody (str "unauthorized") None None
  | FeatureDisabled => mkBody (str "feature disabled") None None
  | VendorUnavailable => mkBody (str "verification temporarily unavailable") None None
  | RateLimited => mkBody (str "rate limited") None None
  | NotFound => mkBody (str "not found") None None
  | Internal => mkBody (str "internal error") None None
  | WrongSecret (Some n) =>
      mkBody (str "wrong PIN — " ++ decimal n ++ str " attempts left before a lockout") (Some (Some n)) None
  | WrongSecret None => mkBody (str "wrong recovery phrase") (Some None) None
  | LockedOut s =>
      mkBody (str "too many wrong PINs — try again in " ++ wait_text s ++ str ", or use your recovery phrase") None (Some s)
  end.

(** The status of a handler's answer; [ok] is what it answers when it succeeds. *)
Definition answer_status {A} (ok : Z) (r : Dir * result A ApiError) : Z :=
  match r.2 with Ok _ => ok | Err e => status_code e end.

Section Status.
Context {X : DirExt}.

Definition respond (E : DirEnv) (app : App) (r : Request) (d : Dir) : Z :=
  match r with
  | RSignup h peer phone => answer_status 200 (signup_handler E app h peer phone d)
  | RVerify h peer phone code => answer_status 200 (verify_handler E app h peer phone code d)
  | RClaimUsername h n => answer_status 200 (claim_username_handler E h n d)
  | RUsernameLookup h n k => answer_status 200 (username_lookup E h n k d)
  | RGetSearchable h => answer_status 200 (get_searchable E h d)
  | RSetSearchable h b o => answer_status 204 (set_searchable_handler E h b o d)
  | RAttestationTokens h => answer_status 200 (issue_attestation_tokens E app h d)
  | RDeleteAccount h => answer_status 204 (delete_account E h d)
  | RSearch h p => answer_status 200 (search E app h p d)
  | RSetBootstrap h l => answer_status 204 (set_pairing_bootstrap_handler E h l d)
  | RRequestBootstrap h u => answer_status 200 (request_pairing_bootstrap E app h u d)
  | RPutBackup h q => answer_status 204 (put_backup E h q d)
  | RRestoreBegin phone code => answer_status 200 (restore_begin E app phone code d)
  | RRestoreComplete tok m a => answer_status 200 (restore_complete E app tok m a d)
  end.

(** ** The outside world at work *)

Record working (E : DirEnv) (app : App) : Prop := {
  wk_db n : d_db_ok E n = true;
  wk_argon2 secret salt key : is_Some (argon2id secret salt key);
  wk_send e164 : send_code (vendor app) e164 <> Err Other;
  wk_verify e164 code : vendor_verify (vendor app) e164 code <> Err Other;
}.

(** Tables that are consistent, have an id left, and none of the session tokens that
    are about to be drawn. *)
Record ready (E : DirEnv) (t : Tables) : Prop := {
  rd_ok : dir_ok t;
  rd_ids : next_user_id t <= i64_max;
  rd_tokens n : sessions t !! hex (d_rng E n) = None;
}.

(** From tables of [P], a computation that succeeds leaves [Q], and an error is not the
    server's. *)
Definition clean {A} (P : Tables -> Prop) (m : D ApiError A) (Q : A -> Tables -> Prop) : Prop :=
  forall d, P (tables d) -> match m d with (d', Ok a) => Q a (tables d') | (_, Err e) => e <> Internal end.

Lemma cl_bind {A B} P (m : D ApiError A) Q (k : A -> D ApiError B) S :
  clean P m Q -> (forall a, clean (Q a) (k a) S) -> clean P (d_bind m k) S.
Proof. intros Hm Hk d Hd. unfold d_bind. specialize (Hm d Hd). destruct (m d) as [d' [a|e]]; [by apply Hk|done]. Qed.
Lemma cl_conseq {A} (P P' : Tables -> Prop) (m : D ApiError A) (Q Q' : A -> Tables -> Prop) :
  clean P m Q -> (forall t, P' t -> P t) -> (forall a t, Q a t -> Q' a t) -> clean P' m Q'.
Proof. intros Hm HP HQ d Hd. specialize (Hm d (HP _ Hd)). destruct (m d) as [d' [a|e]]; eauto. Qed.
Lemma cl_ret {A} P (a : A) : clean P (d_ret a) (fun _ => P).
Proof. by intros d Hd. Qed.
Lemma cl_err {A} P e (Q : A -> Tables -> Prop) : e <> Internal -> clean P (d_err e) Q.
Proof. by intros He d Hd. Qed.
Lemma cl_option {A} P (o : option A) e : e <> Internal -> clean P (d_of_option o e) (fun a t => o = Some a /\ P t).
Proof. intros He d Hd. by destruct o. Qed.
Lemma cl_result {A} P (r : result A ApiError) : r <> Err Internal -> clean P (d_of_result r) (fun _ => P).
Proof. intros Hr d Hd. unfold d_of_result. destruct r; [done|]. congruence. Qed.
Lemma cl_require P b e : e <> Internal -> clean P (require b e) (fun _ => P).
Proof. intros He. destruct b; [apply cl_ret|by apply cl_err]. Qed.
Lemma cl_limited P f : clean P (limited f) (fun _ => P).
Proof. intros d Hd. unfold limited. by destruct (f (rate_limiter d)). Qed.
Lemma cl_draw P E : clean P (draw E) (fun rnd t => P t /\ exists n, rnd = d_rng E n).
Proof. intros d Hd. simpl. eauto. Qed.

Section Working.
Context (E : DirEnv) (app : App) (W : working E app).

Lemma cl_call {A} (P : Tables -> Prop) (f : Tables -> option (Tables * A)) (Q : A -> Tables -> Prop) :
  (forall t, P t -> match f t with Some (t', a) => Q a t' | None => False end) -> clean P (internal (db_call E f)) Q.
Proof.
  intros Hf d Hd. unfold internal, d_map_err, db_call. rewrite (wk_db _ _ W). specialize (Hf _ Hd).
  by destruct (f (tables d)) as [[t' a]|].
Qed.
Lemma cl_read {A} P (f : Tables -> A) : clean P (internal (db_read E f)) (fun a t => a = f t /\ P t).
Proof. by apply cl_call. Qed.

(** An authenticated caller has a live row under its id. *)
Definition caller (P : Tables -> Prop) (u : Z) (t : Tables) : Prop :=
  P t /\ exists row, users t !! u = Some row /\ live row = true.

Lemma cl_authenticate P h : clean P (authenticate E h) (caller P).
Proof.
  unfold authenticate. eapply cl_bind; [by apply cl_option|]. intros v. eapply cl_bind; [by apply cl_option|]. intros tok.
  eapply cl_bind; [apply cl_read|]. intros o. eapply cl_conseq; [by apply cl_option|intros t H; exact H|].
  intros u t [Ho (Hr & [_ [_ Ht]])]. split; [done|]. rewrite Ho in Hr. symmetry in Hr.
  destruct (sessions t !! tok) as [[uid c]|]; [|done]. destruct (users t !! uid) as [row|] eqn:Hu; [|done].
  destruct ((_ <? c) && live row) eqn:Hl; [|done]. bools. simplify_eq. eauto.
Qed.

Lemma cl_check_ip P h peer : clean P (check_ip E h peer) (fun _ => P).
Proof. unfold check_ip. eapply cl_bind; [apply cl_limited|]. intros ok. by apply cl_require. Qed.

Lemma cl_check_cooldown P hash : clean P (check_cooldown E hash) (fun _ => P).
Proof.
  unfold check_cooldown. eapply cl_bind; [apply cl_read|]. intros c.
  eapply cl_conseq; [by apply (cl_require P)|by intros t [_ H]|done].
Qed.

Lemma phone_hash_works e164 pep : exists h, phone_hash e164 pep = Ok h.
Proof. unfold phone_hash. destruct (wk_argon2 _ _ W pep HASH_SALT e164) as [h Hh]. rewrite Hh. by eexists. Qed.

Lemma normalize_e164_err raw e : normalize_e164 raw = Err e -> e = InvalidPhoneFormat.
Proof. unfold normalize_e164. repeat case_match; congruence. Qed.

Lemma verify_works phone code : map_err verify_error (verify_phone (vendor app) phone code (pepper app)) <> Err Internal.
Proof.
  unfold verify_phone. destruct (normalize_e164 phone) as [e164|e] eqn:En; simpl;
    [|by apply normalize_e164_err in En as ->].
  destruct (vendor_verify (vendor app) e164 code) as [[]|[]] eqn:Ev; simpl; try done.
  - by destruct (phone_hash_works e164 (pepper app)) as [h ->].
  - by apply (wk_verify _ _ W) in Ev.
Qed.

(** The tables have none of the session tokens about to be drawn. *)
Definition unused (t : Tables) : Prop := forall n, sessions t !! hex (d_rng E n) = None.

Lemma cl_find hash : clean (ready E) (internal (find_or_create_pending_user E hash)) (fun _ => unused).
Proof.
  apply cl_call. intros t [O N T]. unfold upsert_pending. destruct (Z.ltb_spec i64_max (next_user_id t)); [lia|].
  destruct (live_by_phone hash t) as [[id u]|]; exact T.
Qed.

Lemma cl_create_session u : clean unused (internal (create_session E u)) (fun _ _ => True).
Proof.
  intros d Hd. unfold internal, d_map_err, create_session, d_bind, draw, db_call. simpl. rewrite (wk_db _ _ W).
  by rewrite (Hd (io d)).
Qed.

(** The slot that is claimed is free, so the unique index on handles is not run into. *)
Lemma claim_not_taken n t slot w id :
  dir_ok t ->
  claim_slot (taken_discriminators n t) 9 (default MIN_DISCRIMINATOR_WIDTH (nickname_widths t !! n)) = Ok (slot, w) ->
  handle_taken n (as_i32 slot) id t = false.
Proof.
  intros O H. apply claim_slot_ok in H as (H1 & H2 & H3 & H4 & _).
  set (w0 := default MIN_DISCRIMINATOR_WIDTH (nickname_widths t !! n)) in *.
  assert (Hw0 : MIN_DISCRIMINATOR_WIDTH <= w0 <= 9).
  { unfold w0. destruct (nickname_widths t !! n) as [x|] eqn:Ex; simpl; [by eapply ok_widths|].
    unfold MIN_DISCRIMINATOR_WIDTH. lia. }
  assert (MIN_DISCRIMINATOR_WIDTH = 2) as HM by done.
  assert (as_i32 slot = slot) as ->.
  { unfold as_i32. pose proof (slot_count_9 w). destruct (Z.ltb_spec slot (2 ^ 31)); lia. }
  apply not_true_iff_false. intros ([i u] & Hi & Hu)%existsb_exists. apply H4, taken_elem. bools.
  exists i, u. split; [|done]. by apply elem_of_map_to_list, list_elem_of_In.
Qed.

Lemma cl_claim_username u n :
  clean dir_ok (d_map_err (fun e => match e with
                                    | ClaimUsername _ => BadRequest (str "invalid or taken nickname")
                                    | ClaimDb => Internal
                                    end) (claim_username E u n)) (fun _ _ => True).
Proof.
  intros d Hd. unfold claim_username, d_map_err, d_bind, d_of_result, db_call, map_err.
  destruct (validate_nickname n); [|done]. cbv beta iota zeta. rewrite (wk_db _ _ W).
  destruct (claim_slot _ _ _) as [[slot w]|e] eqn:Ec; [|done]. by rewrite (claim_not_taken _ _ _ _ _ Hd Ec).
Qed.

(** The foreign keys to [users] hold for a caller. *)
Lemma caller_row u t : caller dir_ok u t -> is_Some (users t !! as_i64 u).
Proof. intros [O (row & Hr & _)]. rewrite (dir_ok_as_i64 t u row); done. Qed.

Lemma cl_bootstrap u l :
  pg_text l = true -> clean (caller dir_ok u) (internal (set_pairing_bootstrap E u l)) (fun _ _ => True).
Proof. intros Hl. apply cl_call. intros t [row Hr]%caller_row. by rewrite Hl, Hr. Qed.

Lemma cl_upsert u b : clean (caller dir_ok u) (internal (upsert_backup E u b)) (fun _ _ => True).
Proof. apply cl_call. intros t [row Hr]%caller_row. by rewrite Hr. Qed.

(** What is hexadecimal has no zero byte. *)
Lemma hex_pg_text s : forallb is_ascii_hexdigit s = true -> pg_text s = true.
Proof.
  unfold pg_text. rewrite !forallb_forall. intros H c Hc%H. unfold is_ascii_hexdigit, is_ascii_digit in Hc.
  destruct (Z.eqb_spec c 0) as [->|]; done.
Qed.

(** Steps that leave the tables as they are. *)
Lemma cl_seq {A B} P (m : D ApiError A) (k : A -> D ApiError B) S :
  clean P m (fun _ => P) -> (forall a, clean P (k a) S) -> clean P (d_bind m k) S.
Proof. apply (cl_bind P m (fun _ => P)). Qed.
Lemma cl_option_same {A} P (o : option A) e : e <> Internal -> clean P (d_of_option o e) (fun _ => P).
Proof. intros He. eapply cl_conseq; [by apply cl_option|done|by intros a t [_ ?]]. Qed.
Lemma cl_read_same {A} P (f : Tables -> A) : clean P (internal (db_read E f)) (fun _ => P).
Proof. eapply cl_conseq; [apply cl_read|done|by intros a t [_ ?]]. Qed.
Lemma cl_check_caller P u : clean P (check_caller E u) (fun _ => P).
Proof.
  unfold check_caller. apply cl_seq; [apply cl_read_same|]. intros v. apply cl_seq; [apply cl_limited|].
  intros ok. by apply cl_require.
Qed.

(** A computation that has no error has none of the server. *)
Lemma cl_total {A} P (m : D ApiError A) : (forall d, exists a, (m d).2 = Ok a) -> clean P m (fun _ _ => True).
Proof. intros Hm d _. specialize (Hm d) as [a Ha]. destruct (m d) as [d' r]. simpl in Ha. by subst r. Qed.

Lemma mint_total key e n : forall d, exists ts, (mint_n E key e n d).2 = Ok ts.
Proof.
  induction n as [|n IH]; intros d; simpl; [by eexists|]. unfold d_bind at 1. simpl. unfold d_bind.
  match goal with |- context [mint_n E key e n ?x] => destruct (IH x) as [ts Ht]; destruct (mint_n E key e n x) as [d' r] end.
  simpl in Ht. subst r. by eexists.
Qed.
Lemma results_total l : forall d, exists rs, (search_results E l d).2 = Ok rs.
Proof.
  induction l as [|x l IH]; intros d; simpl; [by eexists|]. unfold d_bind at 1, d_try.
  destruct (handle_for E (pe_user_id x) d) as [d1 h]. unfold d_bind. destruct (IH d1) as [rs Hr].
  destruct (search_results E l d1) as [d2 r]. simpl in Hr. subst r. by eexists.
Qed.
Lemma bucket_total p d : exists l, (store_bucket (X:=ApiError) E p d).2 = Ok l.
Proof. unfold store_bucket. destruct (db_select E _ _ d) as [d' [l|e]]; by eexists. Qed.

(** Steps of a handler that do not matter to the tables. *)
Ltac clean_step :=
  lazymatch goal with
  | |- clean _ (d_bind (require _ _) _) _ => apply cl_seq; [by apply cl_require|intros _]
  | |- clean _ (d_bind (check_ip _ _ _) _) _ => apply cl_seq; [apply cl_check_ip|intros _]
  | |- clean _ (d_bind (check_cooldown _ _) _) _ => apply cl_seq; [apply cl_check_cooldown|intros _]
  | |- clean _ (d_bind (check_caller _ _) _) _ => apply cl_seq; [apply cl_check_caller|intros _]
  | |- clean _ (d_bind (limited _) _) _ => apply cl_seq; [apply cl_limited|intros ?]
  | |- clean _ (d_bind (d_of_option _ _) _) _ => apply cl_seq; [by apply cl_option_same|intros ?]
  | |- clean _ (d_bind (internal (db_read _ _)) _) _ => apply cl_seq; [apply cl_read_same|intros ?]
  | |- clean _ (d_bind (authenticate _ _) _) _ => eapply cl_bind; [apply cl_authenticate|intros ?]
  | |- clean _ (d_bind (d_of_result (map_err verify_error _)) _) _ => apply cl_seq; [apply cl_result, verify_works|intros ?]
  | |- clean _ (d_of_option _ _) _ => eapply cl_conseq; [by apply cl_option_same|intros ? Hp; exact Hp|done]
  | |- clean _ (d_ret _) _ => by apply cl_total; intros ?; eexists
  | |- clean _ (d_err _) _ => by apply cl_err
  end.
Ltac clean_steps := repeat clean_step.

Lemma caller_ready u t : caller (ready E) u t -> caller dir_ok u t.
Proof. intros [[O _ _] Hr]. by split. Qed.

Lemma cl_normalize phone :
  clean (ready E) (d_of_result (map_err (fun _ => BadRequest (str "invalid phone")) (normalize_e164 phone))) (fun _ => ready E).
Proof. apply cl_result. by destruct (normalize_e164 phone). Qed.

Abbreviation server_ok m := (clean (ready E) m (fun _ _ => True)).

Lemma ok_signup h peer phone : server_ok (signup_handler E app h peer phone).
Proof.
  unfold signup_handler. clean_steps. apply cl_seq; [apply cl_normalize|]. intros e164.
  apply cl_seq; [apply cl_result; by destruct (phone_hash_works e164 (pepper app)) as [x ->]|]. intros hash. clean_steps.
  apply cl_seq; [apply cl_result|].
  { pose proof (wk_send _ _ W e164). by destruct (send_code (vendor app) e164) as [|[]]. }
  intros _. eapply cl_bind; [apply cl_find|]. intros ?. clean_steps.
Qed.

Lemma ok_verify h peer phone code : server_ok (verify_handler E app h peer phone code).
Proof.
  unfold verify_handler. clean_steps. apply cl_seq; [apply cl_normalize|]. intros e164. clean_steps.
  eapply cl_bind; [apply cl_find|]. intros u. eapply cl_seq; [by apply cl_call|]. intros _.
  eapply cl_bind; [apply cl_create_session|]. intros tok. clean_steps.
Qed.

Lemma ok_claim_name h n : server_ok (claim_username_handler E h n).
Proof.
  unfold claim_username_handler. clean_steps. eapply cl_bind.
  - eapply cl_conseq; [apply cl_claim_username|by intros t [? _]%caller_ready|intros ? ? H; exact H].
  - intros r. clean_steps.
Qed.

Lemma ok_set_search h b o : server_ok (set_searchable_handler E h b o).
Proof.
  unfold set_searchable_handler. clean_steps.
  eapply (cl_bind _ _ (fun (o : option bytes) _ => forall x, o = Some x -> pg_text x = true)).
  - destruct b; [|intros d _; simpl; congruence]. apply cl_seq; [by apply cl_option_same|intros x].
    eapply (cl_bind _ _ (fun _ _ => is_hex x 64 = true)).
    { intros d _. unfold require. by destruct (is_hex x 64). }
    intros _ d Hx. simpl. intros y [= <-]. unfold is_hex in Hx. bools. by apply hex_pg_text.
  - intros hash. unfold set_searchable.
    destruct b, hash as [x|]; apply cl_call; intros t Hx; try done. rewrite (Hx x eq_refl).
    by rewrite (pg_text_prefix x (Hx x eq_refl)).
Qed.

Lemma ok_put h q : server_ok (put_backup E h q).
Proof.
  unfold put_backup, b64. clean_steps. cbv zeta. clean_steps.
  eapply cl_conseq; [apply cl_upsert|by intros t ?%caller_ready|done].
Qed.

Lemma ok_begin phone code : server_ok (restore_begin E app phone code).
Proof.
  unfold restore_begin, find_user_by_phone_hash, backup_salts. clean_steps. eapply cl_bind.
  - eapply cl_conseq; [apply cl_create_session|intros t [_ _ T]; exact T|intros ? ? H; exact H].
  - intros tok. apply cl_total. intros d. by eexists.
Qed.

Lemma ok_complete tok m a : server_ok (restore_complete E app tok m a).
Proof.
  unfold restore_complete. clean_steps. apply cl_seq.
  { intros d Hd. unfold restore_token_user. by repeat case_match; simplify_eq. }
  intros o. clean_steps. eapply (cl_bind _ _ (fun _ _ => True)).
  { apply cl_call. intros t _. repeat case_match; by simplify_eq. }
  intros v. clean_steps. match goal with |- clean _ (match ?x with _ => _ end) _ => destruct x end; clean_steps.
  by apply cl_total; intros ?; eexists.
Qed.

Lemma ok_search_request h p : server_ok (search E app h p).
Proof.
  unfold search. clean_steps. eapply (cl_bind _ _ (fun _ _ => True)); [apply cl_total, bucket_total|].
  intros l. apply cl_total, results_total.
Qed.

Lemma ok_tokens h : server_ok (issue_attestation_tokens E app h).
Proof.
  unfold issue_attestation_tokens. clean_steps. eapply (cl_bind _ _ (fun _ _ => True)); [apply cl_total, mint_total|].
  intros l. clean_steps.
Qed.

Lemma ok_lookup h n k : pg_text n = true -> server_ok (username_lookup E h n k).
Proof.
  intros Hn. unfold username_lookup, find_user_by_handle, db_select. rewrite Hn. clean_steps.
  eapply (cl_bind _ _ (fun _ _ => True)); [by apply cl_call|]. intros o. by apply (cl_option_same (fun _ => True)).
Qed.

Lemma ok_get_search h : server_ok (get_searchable E h).
Proof. unfold get_searchable, is_searchable. clean_steps. Qed.

Lemma ok_delete h : server_ok (delete_account E h).
Proof. unfold delete_account. clean_steps. by apply cl_call. Qed.

Lemma ok_bootstrap h l : pg_text l = true -> server_ok (set_pairing_bootstrap_handler E h l).
Proof.
  intros Hl. unfold set_pairing_bootstrap_handler. clean_steps.
  eapply cl_conseq; [by apply cl_bootstrap|by intros t ?%caller_ready|done].
Qed.

Lemma ok_request h u : server_ok (request_pairing_bootstrap E app h u).
Proof.
  unfold request_pairing_bootstrap. clean_steps. eapply (cl_bind _ _ (fun _ _ => True));
    [|by intros o; apply (cl_option_same (fun _ => True))].
  apply cl_call. intros t _. repeat case_match; by simplify_eq.
Qed.

Lemma clean_status {A} P (m : D ApiError A) Q ok d : clean P m Q -> P (tables d) -> ok <> 500 -> answer_status ok (m d) <> 500.
Proof.
  intros Hm Hd Hok. specialize (Hm d Hd). unfold answer_status. destruct (m d) as [d' [a|e]]; [done|].
  by destruct e.
Qed.
End Working.

(** ** The wait a lockout names *)

(** Every error of [m] satisfies [R]. *)
Definition errors {Y A} (R : Y -> Prop) (m : D Y A) : Prop := forall d d' e, m d = (d', Err e) -> R e.

Lemma er_bind {Y A B} R (m : D Y A) (k : A -> D Y B) : errors R m -> (forall a, errors R (k a)) -> errors R (d_bind m k).
Proof.
  intros Hm Hk d d' e. unfold d_bind. destruct (m d) as [d1 [a|x]] eqn:Em; [apply Hk|].
  intros. simplify_eq. by eapply Hm.
Qed.
Lemma er_result {Y A} R (r : result A Y) : (forall e, r = Err e -> R e) -> errors R (d_of_result r).
Proof. intros H d d' e Hd. apply H. unfold d_of_result in Hd. congruence. Qed.
Lemma er_option {Y A} (R : Y -> Prop) (o : option A) e : R e -> errors R (d_of_option o e).
Proof. intros H. apply er_result. intros e'. destruct o; simpl; congruence. Qed.
Lemma er_require (R : ApiError -> Prop) b e : R e -> errors R (require b e).
Proof. intros H d d' e'. destruct b; unfold require, d_ret, d_err; congruence. Qed.
Lemma er_internal {A} (R : ApiError -> Prop) (m : D SqlxError A) : R Internal -> errors R (internal m).
Proof. intros H d d' e. unfold internal, d_map_err. destruct (m d) as [d1 [a|x]]; simpl; congruence. Qed.

Definition waits (e : ApiError) : Prop := match e with LockedOut s => 1 <= s | _ => True end.

Lemma restore_complete_waits E app tok m a : errors waits (restore_complete E app tok m a).
Proof.
  unfold restore_complete.
  repeat (apply er_bind; [try first [by apply er_require|by apply er_option|by apply er_internal]|intros ?]).
  - intros d d' e. unfold restore_token_user. repeat case_match; congruence.
  - match goal with |- errors _ (match ?x with _ => _ end) => destruct x end.
    + intros d d' e. by unfold d_bind, consume_restore_token.
    + intros d d' e. unfold d_err. intros. by simplify_eq.
    + intros d d' e. unfold d_err. intros. by simplify_eq.
    + intros d d' e. unfold d_err. intros. simplify_eq. simpl. lia.
Qed.

Lemma wait_text_covers s : 1 <= s ->
  exists n unit name, wait_text s = decimal n ++ name /\
    ((unit = 3600 /\ name = str " h") \/ (unit = 60 /\ name = str " min")) /\ 1 <= n /\ s <= n * unit < s + unit.
Proof.
  intros Hs. unfold wait_text. pose proof (Z.div_mod (s + 3599) 3600). pose proof (Z.mod_pos_bound (s + 3599) 3600).
  pose proof (Z.div_mod (s + 59) 60). pose proof (Z.mod_pos_bound (s + 59) 60). destruct (Z.leb_spec 3600 s).
  - exists ((s + 3599) / 3600), 3600, (str " h"). split; [done|]. split; [by left|]. lia.
  - exists (Z.max ((s + 59) / 60) 1), 60, (str " min"). split; [done|]. split; [by right|]. lia.
Qed.

(** A restore that is locked out names a wait that is long enough and less than one
    unit too long: a whole number of hours from an hour on, of minutes below it, and
    never zero. *)
Theorem lockout_names_wait E app tok m a d d' s :
  restore_complete E app tok m a d = (d', Err (LockedOut s)) ->
  exists n unit name,
    eb_error (error_body (LockedOut s)) =
      str "too many wrong PINs — try again in " ++ (decimal n ++ name) ++ str ", or use your recovery phrase" /\
    eb_retry_after (error_body (LockedOut s)) = Some s /\
    ((unit = 3600 /\ name = str " h") \/ (unit = 60 /\ name = str " min")) /\ 1 <= n /\ s <= n * unit < s + unit.
Proof.
  intros Hs%restore_complete_waits. destruct (wait_text_covers s Hs) as (n & unit & name & Ht & Hr).
  exists n, unit, name. simpl. by rewrite Ht.
Qed.

(** ** Errors of the server *)

(** The requests that hand Postgres a text with a zero byte: an authenticated caller
    looks up a nickname with one, or publishes a contact link with one. *)
Definition zero_byte (E : DirEnv) (r : Request) (d : Dir) : Prop :=
  match r with
  | RUsernameLookup h n _ => pg_text n = false /\ exists d' u, authenticate E h d = (d', Ok u)
  | RSetBootstrap h l => pg_text l = false /\ exists d' u, authenticate E h d = (d', Ok u)
  | _ => False
  end.

Lemma zero_not_blank l : pg_text l = false -> is_blank l = false.
Proof.
  intros H. apply bool_decide_eq_false_2. intros Ht. apply not_true_iff_false in H. apply H, forallb_forall.
  intros c Hc%list_elem_of_In. destruct (Z.eqb_spec c 0) as [->|]; [|done]. apply trim_zero in Hc. rewrite Ht in Hc. set_solver.
Qed.

(** Nothing that a caller sends keeps Postgres from refusing such a text. *)
Lemma zero_byte_500 E app r d : zero_byte E r d -> respond E app r d = 500.
Proof.
  destruct r; simpl; try done; intros (Ht & d1 & u & Ha); unfold username_lookup, set_pairing_bootstrap_handler, answer_status, d_bind; rewrite Ha.
  - unfold internal, d_map_err, find_user_by_handle, db_select, db_call. rewrite Ht. by destruct (d_db_ok E (io d1)).
  - rewrite (zero_not_blank _ Ht). simpl. unfold internal, d_map_err, set_pairing_bootstrap, db_call.
    rewrite Ht. by destruct (d_db_ok E (io d1)).
Qed.

(** A caller that is not authenticated gets no further. *)
Lemma unauthenticated_fine {A} E app h (k : Z -> D ApiError A) ok d :
  working E app -> ok <> 500 -> (forall d' u, authenticate E h d <> (d', Ok u)) ->
  answer_status ok (d_bind (authenticate E h) k d) <> 500.
Proof.
  intros W Hok Hn. pose proof (cl_authenticate E app W (fun _ => True) h d I) as Hc. unfold answer_status, d_bind.
  destruct (authenticate E h d) as [d' [u|e]]; [by destruct (Hn d' u)|]. simpl. by destruct e.
Qed.

(** While the database, the OTP vendor and the hash function do their work, and
    requests are served one at a time, the directory answers 500 exactly to the
    requests that hand Postgres a text with a zero byte: from consistent tables,
    whatever else a client sends, no statement runs into a constraint (a handle's
    uniqueness, a foreign key, a session's primary key) and every error is the client's
    or a declared one. *)
Theorem server_errors E app r d :
  working E app -> ready E (tables d) -> respond E app r d = 500 <-> zero_byte E r d.
Proof.
  intros W Hd. split; [|apply zero_byte_500]. intros H500. destruct r as [h p x|h p x c|h n|h n k|h|h b o|h|h|h p|h l|h u|h q|p c|t m a];
    simpl in H500 |- *.
  4: destruct (pg_text n) eqn:Hn.
  11: destruct (pg_text l) eqn:Hl.
  all: try (exfalso; revert H500; eapply clean_status; [|exact Hd|done];
    first [by apply ok_signup | by apply ok_verify | by eapply ok_claim_name | by eapply ok_lookup | by eapply ok_get_search
          | by eapply ok_set_search | by eapply ok_tokens | by eapply ok_delete | by eapply ok_search_request
          | by eapply ok_bootstrap | by eapply ok_request | by eapply ok_put | by apply ok_begin | by eapply ok_complete]).
  all: split; [done|]; destruct (authenticate E h d) as [d' [u|e]] eqn:Ha; [by eauto|].
  all: exfalso; revert H500; apply (unauthenticated_fine E app); [done|done|]; congruence.
Qed.
End Status.

Module StatusExamples.
Import DirScenario.

Lemma toy_working : working (at_time 200) app.
Proof. split; [done|by eexists|done|done]. Qed.

(** Alice has an account and a session; the tokens drawn at another time differ from hers. *)
Lemma verified_ok : dir_ok (tables verified.1).
Proof.
  exact (serve_ok (at_time 101) app (RVerify anonymous [1] phone DEV_OTP_CODE) signed_up
    (serve_ok (at_time 100) app (RSignup anonymous [1] phone) dir_new dir_ok_empty)).
Qed.

Lemma verified_sessions : sessions (tables verified.1) = {[hex [5; 101] := (1, 101)]}.
Proof. vm_compute. reflexivity. Qed.

Lemma verified_ready : ready (at_time 200) (tables verified.1).
Proof.
  split; [exact verified_ok|by vm_compute|]. intros n. rewrite verified_sessions. apply lookup_singleton_ne. done.
Qed.

(** She takes a name, publishes a bootstrap and uploads a backup that is too short. *)
Definition requests : list Request :=
  [RClaimUsername alice (str "bobby"); RSetBootstrap alice (str "link");
   RPutBackup alice (mkPut [] [] [] [] [] [] [] [] []); RRestoreComplete [] [] []].

Lemma server_errors_witness :
  (fun r => respond (at_time 200) app r verified.1) <$> requests = [200; 204; 400; 401] /\
  (respond (at_time 200) app (RSetBootstrap alice (str "link")) verified.1 = 500 <->
   zero_byte (at_time 200) (RSetBootstrap alice (str "link")) verified.1).
Proof. split; [vm_compute; reflexivity|]. apply (server_errors _ _ _ _ toy_working verified_ready). Defined.

(** A contact link of one zero byte. *)
Example zero_link_500 : respond (at_time 200) app (RSetBootstrap alice [0]) verified.1 = 500.
Proof. vm_compute. reflexivity. Qed.

(** Ten wrong PINs, and the answer to the tenth. *)
Definition restore_token : bytes := rb_restore_token RestoreExamples.response.
Definition wrong_proof : bytes := b64_encode (replicate 32 9).
Definition guess : D ApiError BackupPutRequest := restore_complete (at_time 106) app restore_token (str "pin") wrong_proof.
Definition guessed : Dir := Nat.iter 9 (fun d => (guess d).1) RestoreExamples.begun.
Definition locked_out : Dir := (guess guessed).1.
Lemma guess_locks : restore_complete (at_time 106) app restore_token (str "pin") wrong_proof guessed = (locked_out, Err (LockedOut 3600)).
Proof. vm_compute. reflexivity. Qed.

Lemma lockout_names_wait_witness :
  eb_error (error_body (LockedOut 3600)) = str "too many wrong PINs — try again in 1 h, or use your recovery phrase" /\
  exists n unit : Z, 3600 <= n * unit < 3600 + unit.
Proof.
  split; [vm_compute; reflexivity|].
  destruct (lockout_names_wait (at_time 106) app restore_token (str "pin") wrong_proof guessed locked_out 3600 guess_locks)
    as (n & unit & name & _ & _ & _ & _ & H). exists n, unit. exact H.
Defined.
End StatusExamples.
