(* ===== verification/DirHttp.v ===== *)
(** * The directory over HTTP (directory/src/api.rs)

    The router, the request and response types, and the middleware. What axum and serde
    make of a request's query and body is a parameter ([FromRequest]): a value of the
    handler's type, or a rejection that axum answers by itself. A response is its status,
    its Cache-Control header and its body; the body of a handler's answer is the JSON
    that the derived [Serialize] makes of it. *)

From S2P Require Import Prelude Text External Proto DirLogic DirStore DirApi DirNames DirInv DirProps DirRestore DirStatus.

(** ** Bodies *)

#[warnings="-register-all"]
Inductive Json :=
| JNull
| JBool (b : bool)
| JNum (n : Z)
| JStr (s : bytes)
| JArr (l : list Json)
| JObj (fields : list (bytes * Json)).

Inductive Body := NoBody | Text (s : bytes) | JsonBody (j : Json).

Record HttpResponse := mkHttp { h_status : Z; h_cache_control : option bytes; h_body : Body }.

(** ** Request types *)

Record SignupRequest := mkSignup { sq_phone : bytes }.
Record VerifyRequest := mkVerify { vq_phone : bytes; vq_code : bytes }.
Record UsernameRequest := mkUsername { uq_nickname : bytes }.
Record SearchableRequest := mkSearchable { aq_searchable : bool; aq_phone_search_hash : option bytes }.
Record UsernameLookupQuery := mkLookup { lq_nickname : bytes; lq_discriminator : Z }.
Record PairingBootstrapRequest := mkPairing { pq_contact_link_b64 : bytes }.
Record PairingBootstrapQuery := mkPairingQuery { pq_user_id : Z }.
Record SearchQuery := mkSearchQuery { hq_prefix : bytes }.
Record RestoreBeginRequest := mkBeginRequest { bq_phone : bytes; bq_code : bytes }.
Record RestoreCompleteRequest := mkComplete { cq_restore_token : bytes; cq_method : bytes; cq_auth : bytes }.

(** ** Responses *)

Definition SignupResponse (status : bytes) : Json := JObj [(str "status", JStr status)].
Definition VerifyResponse (r : Z * bytes * bool) : Json :=
  JObj [(str "user_id", JNum r.1.1); (str "session_token", JStr r.1.2); (str "verified", JBool r.2)].
Definition UsernameResponse (handle : bytes) : Json := JObj [(str "handle", JStr handle)].
Definition SearchableResponse (b : bool) : Json := JObj [(str "searchable", JBool b)].
Definition AttestationTokenDto (t : bytes * Z * bytes) : Json :=
  JObj [(str "nonce", JStr t.1.1); (str "expires_at", JNum t.1.2); (str "signature", JStr t.2)].
Definition AttestationTokensResponse (ts : list (bytes * Z * bytes)) : Json :=
  JObj [(str "tokens", JArr (AttestationTokenDto <$> ts))].
Definition UsernameLookupResponse (user_id : Z) : Json := JObj [(str "user_id", JNum user_id)].
Definition PairingBootstrapResponse (link : bytes) : Json := JObj [(str "contact_link_b64", JStr link)].
Definition SearchResultEntry (r : Z * bytes * bytes) : Json :=
  JObj [(str "user_id", JNum r.1.1); (str "handle", JStr r.1.2); (str "search_hash", JStr r.2)].
Definition SearchResponse (rs : list (Z * bytes * bytes)) : Json := JObj [(str "results", JArr (SearchResultEntry <$> rs))].
Definition RestoreBeginResponseJson (r : RestoreBeginResponse) : Json :=
  JObj [(str "restore_token", JStr (rb_restore_token r)); (str "session_token", JStr (rb_session_token r));
        (str "salt_a", JStr (rb_salt_a r)); (str "salt_pa", JStr (rb_salt_pa r))].
Definition RestoreCompleteResponse (b : BackupPutRequest) : Json :=
  JObj [(str "blob", JStr (put_blob b)); (str "w_pin", JStr (put_w_pin b)); (str "salt_p", JStr (put_salt_p b));
        (str "w_phrase", JStr (put_w_phrase b)); (str "salt_f", JStr (put_salt_f b)); (str "auth_pin", JStr (put_auth_pin b));
        (str "salt_a", JStr (put_salt_a b)); (str "auth_phrase", JStr (put_auth_phrase b)); (str "salt_pa", JStr (put_salt_pa b))].

Definition optional_num (o : option Z) : Json := match o with Some n => JNum n | None => JNull end.

(** [json!] of an error's fields. *)
Definition error_json (b : ErrorBody) : Json :=
  JObj ([(str "error", JStr (eb_error b))] ++
        match eb_remaining b with Some o => [(str "remaining_attempts", optional_num o)] | None => [] end ++
        match eb_retry_after b with Some s => [(str "retry_after_secs", JNum s)] | None => [] end).

(** [impl IntoResponse for ApiError]. *)
Definition into_response (e : ApiError) : HttpResponse := mkHttp (status_code e) None (JsonBody (error_json (error_body e))).

(** [Result<Json<A>, ApiError>] and [Result<StatusCode, ApiError>] as responses. *)
Definition json_response {A} (ser : A -> Json) (r : Dir * result A ApiError) : Dir * HttpResponse :=
  (r.1, match r.2 with Ok a => mkHttp 200 None (JsonBody (ser a)) | Err e => into_response e end).
Definition no_content (r : Dir * result unit ApiError) : Dir * HttpResponse :=
  (r.1, match r.2 with Ok _ => mkHttp 204 None NoBody | Err e => into_response e end).

Definition health : bytes := str "ok".

(** ** Requests *)

Inductive Method := GET | HEAD | POST | PUT | DELETE | OtherMethod.

Record HttpRequest := mkRequest {
  q_method : Method;
  q_path : bytes;
  q_headers : Headers;
  q_peer : bytes;
  q_content_type : option bytes;
  q_query : bytes;
  q_body : bytes;
}.

(** What axum and serde extract from a request, or the rejection axum answers with. *)
Class FromRequest (A : Type) := from_request : HttpRequest -> result A HttpResponse.

Class HttpExt := {
  http_dir :: DirExt;
  http_signup :: FromRequest SignupRequest;
  http_verify :: FromRequest VerifyRequest;
  http_username :: FromRequest UsernameRequest;
  http_searchable :: FromRequest SearchableRequest;
  http_lookup :: FromRequest UsernameLookupQuery;
  http_pairing :: FromRequest PairingBootstrapRequest;
  http_pairing_query :: FromRequest PairingBootstrapQuery;
  http_search :: FromRequest SearchQuery;
  http_backup :: FromRequest BackupPutRequest;
  http_begin :: FromRequest RestoreBeginRequest;
  http_complete :: FromRequest RestoreCompleteRequest;
}.

(** ** Routes *)

Inductive Endpoint :=
| EHealth | ESignup | EVerify | EUsername | ELookup | EGetSearchable | ESetSearchable | ETokens | EDelete | ESearch
| ESetBootstrap | ERequestBootstrap | EPutBackup | ERestoreBegin | ERestoreComplete.

Definition get (e : Endpoint) (m : Method) : option Endpoint := match m with GET | HEAD => Some e | _ => None end.
Definition post (e : Endpoint) (m : Method) : option Endpoint := match m with POST => Some e | _ => None end.
Definition put (e : Endpoint) (m : Method) : option Endpoint := match m with PUT => Some e | _ => None end.
Definition delete_ (e : Endpoint) (m : Method) : option Endpoint := match m with DELETE => Some e | _ => None end.
(** [a.post(b)] on a method router. *)
Definition either_method (f g : Method -> option Endpoint) (m : Method) : option Endpoint :=
  match f m with Some e => Some e | None => g m end.

(** [Router::new().route(...)]: the method routers by their paths. *)
Definition routes : list (bytes * (Method -> option Endpoint)) :=
  [(str "/health", get EHealth);
   (str "/signup", post ESignup);
   (str "/verify", post EVerify);
   (str "/username", post EUsername);
   (str "/username-lookup", get ELookup);
   (str "/searchable", either_method (get EGetSearchable) (post ESetSearchable));
   (str "/attestation/tokens", post ETokens);
   (str "/account", delete_ EDelete);
   (str "/search", get ESearch);
   (str "/pairing-bootstrap", post ESetBootstrap);
   (str "/pairing-bootstrap/request", post ERequestBootstrap);
   (str "/v1/backup", put EPutBackup);
   (str "/v1/backup/restore/begin", post ERestoreBegin);
   (str "/v1/backup/restore/complete", post ERestoreComplete)].

Fixpoint find_route (path : bytes) (rs : list (bytes * (Method -> option Endpoint))) : option (Method -> option Endpoint) :=
  match rs with
  | [] => None
  | (p, m) :: rs' => if bool_decide (p = path) then Some m else find_route path rs'
  end.

(** A response to a HEAD request keeps no body. *)
Definition strip_body (m : Method) (r : HttpResponse) : HttpResponse :=
  match m with HEAD => mkHttp (h_status r) (h_cache_control r) NoBody | _ => r end.

Definition no_store_middleware (r : HttpResponse) : HttpResponse := mkHttp (h_status r) (Some (str "no-store")) (h_body r).

Section Http.
Context {X : HttpExt} (E : DirEnv) (app : App).

(** Run a handler on what is extracted; a rejection does not reach it. *)
Definition extracted {A} `{FromRequest A} (q : HttpRequest) (d : Dir) (k : A -> Dir * HttpResponse) : Dir * HttpResponse :=
  match from_request q with Ok a => k a | Err rejection => (d, rejection) end.

Definition call_endpoint (e : Endpoint) (q : HttpRequest) (d : Dir) : Dir * HttpResponse :=
  let h := q_headers q in
  match e with
  | EHealth => (d, mkHttp 200 None (Text health))
  | ESignup => extracted q d (fun r => json_response SignupResponse (signup_handler E app h (q_peer q) (sq_phone r) d))
  | EVerify => extracted q d (fun r => json_response VerifyResponse (verify_handler E app h (q_peer q) (vq_phone r) (vq_code r) d))
  | EUsername => extracted q d (fun r => json_response UsernameResponse (claim_username_handler E h (uq_nickname r) d))
  | ELookup =>
      extracted q d (fun r => json_response UsernameLookupResponse (username_lookup E h (lq_nickname r) (lq_discriminator r) d))
  | EGetSearchable => json_response SearchableResponse (get_searchable E h d)
  | ESetSearchable => extracted q d (fun r => no_content (set_searchable_handler E h (aq_searchable r) (aq_phone_search_hash r) d))
  | ETokens => json_response AttestationTokensResponse (issue_attestation_tokens E app h d)
  | EDelete => no_content (delete_account E h d)
  | ESearch => extracted q d (fun r => json_response SearchResponse (search E app h (hq_prefix r) d))
  | ESetBootstrap => extracted q d (fun r => no_content (set_pairing_bootstrap_handler E h (pq_contact_link_b64 r) d))
  | ERequestBootstrap =>
      extracted q d (fun r => json_response PairingBootstrapResponse (request_pairing_bootstrap E app h (pq_user_id r) d))
  | EPutBackup => extracted q d (fun r => no_content (put_backup E h r d))
  | ERestoreBegin => extracted q d (fun r => json_response RestoreBeginResponseJson (restore_begin E app (bq_phone r) (bq_code r) d))
  | ERestoreComplete =>
      extracted q d (fun r => json_response RestoreCompleteResponse
                                (restore_complete E app (cq_restore_token r) (cq_method r) (cq_auth r) d))
  end.

(** The router with its middleware: no route is a 404, no method of it a 405. *)
Definition router (q : HttpRequest) (d : Dir) : Dir * HttpResponse :=
  let '(d', r) := match find_route (q_path q) routes with
                  | None => (d, mkHttp 404 None NoBody)
                  | Some m => match m (q_method q) with
                              | None => (d, mkHttp 405 None NoBody)
                              | Some e => call_endpoint e q d
                              end
                  end in
  (d', no_store_middleware (strip_body (q_method q) r)).

(** ** The router and its handlers *)

(** The endpoint a request is for. *)
Definition endpoint_of (q : HttpRequest) : option Endpoint := m ← find_route (q_path q) routes; m (q_method q).

(** The request a handler gets, by the endpoint. *)
Definition as_request (e : Endpoint) (q : HttpRequest) : option Request :=
  let h := q_headers q in
  let ok {A} `{FromRequest A} (k : A -> Request) := match from_request q with Ok a => Some (k a) | Err _ => None end in
  match e with
  | EHealth => None
  | ESignup => ok (fun r : SignupRequest => RSignup h (q_peer q) (sq_phone r))
  | EVerify => ok (fun r : VerifyRequest => RVerify h (q_peer q) (vq_phone r) (vq_code r))
  | EUsername => ok (fun r : UsernameRequest => RClaimUsername h (uq_nickname r))
  | ELookup => ok (fun r : UsernameLookupQuery => RUsernameLookup h (lq_nickname r) (lq_discriminator r))
  | EGetSearchable => Some (RGetSearchable h)
  | ESetSearchable => ok (fun r : SearchableRequest => RSetSearchable h (aq_searchable r) (aq_phone_search_hash r))
  | ETokens => Some (RAttestationTokens h)
  | EDelete => Some (RDeleteAccount h)
  | ESearch => ok (fun r : SearchQuery => RSearch h (hq_prefix r))
  | ESetBootstrap => ok (fun r : PairingBootstrapRequest => RSetBootstrap h (pq_contact_link_b64 r))
  | ERequestBootstrap => ok (fun r : PairingBootstrapQuery => RRequestBootstrap h (pq_user_id r))
  | EPutBackup => ok (fun r : BackupPutRequest => RPutBackup h r)
  | ERestoreBegin => ok (fun r : RestoreBeginRequest => RRestoreBegin (bq_phone r) (bq_code r))
  | ERestoreComplete => ok (fun r : RestoreCompleteRequest => RRestoreComplete (cq_restore_token r) (cq_method r) (cq_auth r))
  end.

(** The answer of a request's handler. *)
Definition handle_request (r : Request) (d : Dir) : Dir * HttpResponse :=
  match r with
  | RSignup h peer phone => json_response SignupResponse (signup_handler E app h peer phone d)
  | RVerify h peer phone code => json_response VerifyResponse (verify_handler E app h peer phone code d)
  | RClaimUsername h n => json_response UsernameResponse (claim_username_handler E h n d)
  | RUsernameLookup h n k => json_response UsernameLookupResponse (username_lookup E h n k d)
  | RGetSearchable h => json_response SearchableResponse (get_searchable E h d)
  | RSetSearchable h b o => no_content (set_searchable_handler E h b o d)
  | RAttestationTokens h => json_response AttestationTokensResponse (issue_attestation_tokens E app h d)
  | RDeleteAccount h => no_content (delete_account E h d)
  | RSearch h p => json_response SearchResponse (search E app h p d)
  | RSetBootstrap h l => no_content (set_pairing_bootstrap_handler E h l d)
  | RRequestBootstrap h u => json_response PairingBootstrapResponse (request_pairing_bootstrap E app h u d)
  | RPutBackup h q => no_content (put_backup E h q d)
  | RRestoreBegin phone code => json_response RestoreBeginResponseJson (restore_begin E app phone code d)
  | RRestoreComplete tok m a => json_response RestoreCompleteResponse (restore_complete E app tok m a d)
  end.

(** What reaches a handler is answered by it, and nothing else touches the state. *)
Lemma call_endpoint_cases e q d :
  match as_request e q with
  | Some r => call_endpoint e q d = handle_request r d
  | None => exists res, forall d, call_endpoint e q d = (d, res)
  end.
Proof.
  destruct e; cbn [as_request call_endpoint]; unfold extracted; try (destruct (from_request q); [done|by eexists]); try done.
  by eexists.
Qed.

(** The answer of a handler is the one [serve] and [respond] describe. *)
Lemma handle_request_spec r d :
  (handle_request r d).1 = serve E app r d /\ h_status (handle_request r d).2 = respond E app r d.
Proof.
  assert (J : forall A (ser : A -> Json) x, (json_response ser x).1 = x.1 /\ h_status (json_response ser x).2 = answer_status 200 x).
  { intros A ser [d' [a|e]]; by split. }
  assert (N : forall x, (no_content x).1 = x.1 /\ h_status (no_content x).2 = answer_status 204 x).
  { intros [d' [a|e]]; by split. }
  destruct r; cbn [handle_request serve respond]; first [apply J | apply N].
Qed.

(** Rejections are not errors of the server. *)
Definition fair_rejections (q : HttpRequest) : Prop :=
  forall e, endpoint_of q = Some e -> as_request e q = None -> forall d, h_status (call_endpoint e q d).2 <> 500.

(** C20: every response, where requests are served one at a time. Whatever request
    arrives, its response forbids caching, and one to HEAD has no body. A request without
    a route is answered with 404, one with a method its route does not have with 405, and
    neither changes anything, as one whose query or body is rejected; every other one is
    answered by its handler, which gets what was extracted, with the handler's status and
    effect. With the database, the vendor and the hash function at work, consistent
    tables, unused session tokens drawn and no 500 among axum's own rejections, a
    response is a 500 exactly if an authenticated caller looks up a nickname with a zero
    byte or publishes a contact link with one, which Postgres refuses as text. (Where
    requests overlap, two claims of one nickname can collide and give a 500 as well:
    [concurrent_claims_collide].) *)
Theorem http_answers q d :
  let '(d', r) := router q d in
  h_cache_control r = Some (str "no-store") /\ (q_method q = HEAD -> h_body r = NoBody) /\
  match endpoint_of q with
  | None => d' = d /\ h_status r = match find_route (q_path q) routes with Some _ => 405 | None => 404 end
  | Some e =>
      match as_request e q with
      | None => d' = d
      | Some rq => d' = serve E app rq d /\ h_status r = respond E app rq d
      end
  end /\
  (working E app -> ready E (tables d) -> fair_rejections q ->
   h_status r = 500 <-> exists e rq, endpoint_of q = Some e /\ as_request e q = Some rq /\ zero_byte E rq d).
Proof.
  assert (Hs : forall r, h_status (no_store_middleware (strip_body (q_method q) r)) = h_status r) by (intros r; by destruct (q_method q)).
  assert (Hb : forall r, q_method q = HEAD -> h_body (no_store_middleware (strip_body (q_method q) r)) = NoBody) by (by intros r ->).
  unfold router, endpoint_of, fair_rejections, endpoint_of. destruct (find_route (q_path q) routes) as [m|]; cbn [mbind option_bind].
  - destruct (m (q_method q)) as [e|] eqn:Em.
    + pose proof (call_endpoint_cases e q d) as Hc. destruct (as_request e q) as [rq|] eqn:Er.
      * rewrite Hc. destruct (handle_request_spec rq d) as [H1 H2]. destruct (handle_request rq d) as [d' r].
        split; [done|]. split; [apply Hb|]. rewrite Hs. split; [done|]. intros W R _. simpl in H2. rewrite H2.
        rewrite (server_errors E app rq d W R). split; [by eauto|]. by intros (e' & rq' & [= <-] & Er' & Hz); simplify_eq.
      * destruct Hc as [res Hc]. rewrite Hc. split; [done|]. split; [apply Hb|]. split; [done|]. rewrite Hs.
        intros _ _ Hf. specialize (Hf e eq_refl Er d). rewrite Hc in Hf. split; [done|].
        by intros (e' & rq' & [= <-] & Er' & _); simplify_eq.
    + split; [done|]. split; [apply Hb|]. rewrite Hs. split; [done|]. intros _ _ _. by split; [|intros (? & ? & ? & _)].
  - split; [done|]. split; [apply Hb|]. rewrite Hs. split; [done|]. intros _ _ _. by split; [|intros (? & ? & ? & _)].
Qed.
End Http.

(** ** Examples: bodies and queries of fields between bars *)

Module HttpExamples.
Import DirScenario StatusExamples.

Fixpoint split_bar (s : bytes) : list bytes :=
  match s with
  | [] => [[]]
  | b :: s' => if b =? 124 then [] :: split_bar s'
               else match split_bar s' with f :: fs => (b :: f) :: fs | [] => [[b]] end
  end.

Definition from_fields {A} (n : nat) (k : list bytes -> A) (s : bytes) : result A HttpResponse :=
  let fs := split_bar s in if (length fs =? n)%nat then Ok (k fs) else Err (mkHttp 422 None NoBody).
Definition nth_field (n : nat) (fs : list bytes) : bytes := nth n fs [].

#[export] Instance toy_http : HttpExt := {|
  http_dir := toy_dir;
  http_signup q := from_fields 1 (fun fs => mkSignup (nth_field 0 fs)) (q_body q);
  http_verify q := from_fields 2 (fun fs => mkVerify (nth_field 0 fs) (nth_field 1 fs)) (q_body q);
  http_username q := from_fields 1 (fun fs => mkUsername (nth_field 0 fs)) (q_body q);
  http_searchable q := from_fields 1 (fun fs => mkSearchable true (Some (nth_field 0 fs))) (q_body q);
  http_lookup q := from_fields 2 (fun fs => mkLookup (nth_field 0 fs) (read_decimal (nth_field 1 fs))) (q_query q);
  http_pairing q := from_fields 1 (fun fs => mkPairing (nth_field 0 fs)) (q_body q);
  http_pairing_query q := from_fields 1 (fun fs => mkPairingQuery (read_decimal (nth_field 0 fs))) (q_query q);
  http_search q := from_fields 1 (fun fs => mkSearchQuery (nth_field 0 fs)) (q_query q);
  http_backup q := from_fields 9 (fun fs =>
    mkPut (nth_field 0 fs) (nth_field 1 fs) (nth_field 2 fs) (nth_field 3 fs) (nth_field 4 fs) (nth_field 5 fs)
      (nth_field 6 fs) (nth_field 7 fs) (nth_field 8 fs)) (q_body q);
  http_begin q := from_fields 2 (fun fs => mkBeginRequest (nth_field 0 fs) (nth_field 1 fs)) (q_body q);
  http_complete q := from_fields 3 (fun fs => mkComplete (nth_field 0 fs) (nth_field 1 fs) (nth_field 2 fs)) (q_body q);
|}.

Definition request (m : Method) (path : string) (h : Headers) (query body : string) : HttpRequest :=
  mkRequest m (str path) h [1] None (str query) (str body).

Definition bobby : HttpRequest := request POST "/username" alice "" "bobby".
Definition traffic : list HttpRequest :=
  [request GET "/health" anonymous "" ""; request GET "/nowhere" anonymous "" ""; request DELETE "/signup" anonymous "" "";
   request POST "/verify" anonymous "" "half"; bobby; request HEAD "/search" anonymous "abcde" "";
   request DELETE "/account" alice "" ""].

Lemma bobby_fair : fair_rejections (at_time 200) app bobby.
Proof. intros e He Hn. vm_compute in He. injection He as <-. vm_compute in Hn. discriminate. Qed.

Lemma http_answers_witness :
  (fun q => h_status (router (at_time 200) app q verified.1).2) <$> traffic = [200; 404; 405; 422; 200; 401; 204] /\
  (h_status (router (at_time 200) app bobby verified.1).2 = 500 <->
   exists e rq, endpoint_of bobby = Some e /\ as_request e bobby = Some rq /\ zero_byte (at_time 200) rq verified.1).
Proof.
  split; [vm_compute; reflexivity|]. pose proof (http_answers (at_time 200) app bobby verified.1) as H.
  destruct (router (at_time 200) app bobby verified.1) as [d' r]. destruct H as (_ & _ & _ & H).
  exact (H toy_working verified_ready bobby_fair).
Defined.
End HttpExamples.
