(* ===== verification/DirPrivacy.v ===== *)
(** * What an account keeps from strangers (directory/src/api.rs, store.rs)

    A relational argument over two directories that differ in the private data of one
    account only: its phone number's hash, its verification, its age, its recovery
    bundle and lockout. A request that carries no credential of the account, and is no
    sign-up under its number, gets the same answer from both, byte for byte, and leaves
    them in that relation. Taken with one
    directory on both sides, the same argument shows that such requests change nothing of
    the account. *)

From S2P Require Import Prelude Text External Proto DirLogic DirStore DirApi DirNames DirInv DirProps DirRestore DirStatus DirHttp.

(** ** Credentials *)

(** The bearer token of a request. *)
Definition bearer_token (h : Headers) : option bytes := v ← authorization h; strip_prefix (str "Bearer ") v.

(** The headers of the requests that authenticate. *)
Definition auth_headers (r : Request) : option Headers :=
  match r with
  | RSignup _ _ _ | RVerify _ _ _ _ | RRestoreBegin _ _ | RRestoreComplete _ _ _ => None
  | RClaimUsername h _ | RUsernameLookup h _ _ | RGetSearchable h | RSetSearchable h _ _ | RAttestationTokens h
  | RDeleteAccount h | RSearch h _ | RSetBootstrap h _ | RRequestBootstrap h _ | RPutBackup h _ => Some h
  end.

(** What everybody may learn of an account. *)
Record same_public (u v : User) : Prop := {
  sp_nickname : u_nickname u = u_nickname v;
  sp_discriminator : u_discriminator u = u_discriminator v;
  sp_searchable : u_searchable u = u_searchable v;
  sp_hash : u_phone_search_hash u = u_phone_search_hash v;
  sp_prefix : u_phone_search_hash_prefix u = u_phone_search_hash_prefix v;
  sp_live : live u = live v;
}.

Section Privacy.
Context {X : HttpExt}.

Section Sim.
(** The account, its two rows and bundles, and the state at the beginning. *)
Context (id : Z) (row1 row2 : User) (b1 b2 : option Backup) (d0 : Dir) (Hpub : same_public row1 row2).

(** The request carries nothing that belongs to the account: no session or restore
    token of it, no approved code for its number; a sign-up may name the number of the
    account as long as it is that of both rows or of none. *)
Definition stranger (app : App) (r : Request) : Prop :=
  (forall h tok c, auth_headers r = Some h -> bearer_token h = Some tok -> sessions (tables d0) !! tok <> Some (id, c)) /\
  match r with
  | RSignup _ _ phone =>
      forall e164 h, normalize_e164 phone = Ok e164 -> phone_hash e164 (pepper app) = Ok h ->
        h = u_phone_hash row1 <-> h = u_phone_hash row2
  | RVerify _ _ phone code | RRestoreBegin phone code =>
      forall h, verify_phone (vendor app) phone code (pepper app) = Ok h -> h <> u_phone_hash row1 /\ h <> u_phone_hash row2
  | RRestoreComplete tok _ _ => forall u x, restore_tokens d0 !! tok = Some (u, x) -> as_i64 u <> id
  | _ => True
  end.

(** ** The relation *)

(** The two [users] tables are the two sides of one table of pairs. *)
Record paired (m : gmap Z (User * User)) (t1 t2 : Tables) : Prop := {
  pr_fst : users t1 = fst <$> m;
  pr_snd : users t2 = snd <$> m;
  pr_id : m !! id = Some (row1, row2);
  pr_eq i p : m !! i = Some p -> i <> id -> p.1 = p.2;
  pr_bound i p : m !! i = Some p -> 1 <= i < next_user_id t1;
}.

Record sim_tables (t1 t2 : Tables) : Prop := {
  st_users : exists m, paired m t1 t2;
  st_next : next_user_id t1 = next_user_id t2 /\ next_user_id t1 <= i64_max + 1;
  st_widths : nickname_widths t1 = nickname_widths t2;
  st_cooldown : phone_cooldown t1 = phone_cooldown t2;
  st_bootstrap : pairing_bootstrap t1 = pairing_bootstrap t2;
  st_sessions : sessions t1 = sessions t2;
  st_own tok c : sessions t1 !! tok = Some (id, c) <-> sessions (tables d0) !! tok = Some (id, c);
  st_backups i : i <> id -> backups t1 !! i = backups t2 !! i;
  st_backup1 : backups t1 !! id = b1;
  st_backup2 : backups t2 !! id = b2;
}.

Record sim (d1 d2 : Dir) : Prop := {
  sm_tables : sim_tables (tables d1) (tables d2);
  sm_tokens : restore_tokens d1 = restore_tokens d2;
  sm_own tok u x : restore_tokens d1 !! tok = Some (u, x) -> as_i64 u = id -> restore_tokens d0 !! tok = Some (u, x);
  sm_rate : rate_limiter d1 = rate_limiter d2;
  sm_io : io d1 = io d2;
}.

Lemma id_range t1 t2 : sim_tables t1 t2 -> 1 <= id < next_user_id t1.
Proof. intros [[m P] _ _ _ _ _ _ _ _ _]. eapply (pr_bound _ _ _ P), (pr_id _ _ _ P). Qed.

(** Every other row is the same. *)
Lemma users_other t1 t2 i : sim_tables t1 t2 -> i <> id -> users t1 !! i = users t2 !! i.
Proof.
  intros [[m P] _ _ _ _ _ _ _ _ _] Hi. rewrite (pr_fst _ _ _ P), (pr_snd _ _ _ P), !lookup_fmap.
  destruct (m !! i) as [p|] eqn:E; [|done]. simpl. by rewrite (pr_eq _ _ _ P i p).
Qed.
Lemma users_id t1 t2 : sim_tables t1 t2 -> users t1 !! id = Some row1 /\ users t2 !! id = Some row2.
Proof.
  intros [[m P] _ _ _ _ _ _ _ _ _]. rewrite (pr_fst _ _ _ P), (pr_snd _ _ _ P), !lookup_fmap. by rewrite (pr_id _ _ _ P).
Qed.
(** Any row, by what is public of it. *)
Lemma users_public {A} t1 t2 i (f : User -> A) :
  sim_tables t1 t2 -> f row1 = f row2 -> f <$> users t1 !! i = f <$> users t2 !! i.
Proof.
  intros St Hf. destruct (decide (i = id)) as [->|Hi]; [|by rewrite (users_other _ _ _ St Hi)].
  destruct (users_id _ _ St) as [-> ->]. simpl. by rewrite Hf.
Qed.

(** A scan of the rows that looks at what the two rows of the account share. *)
Lemma scan_same {B} (f : Z * User -> B) (m : gmap Z (User * User)) t1 t2 :
  paired m t1 t2 -> f (id, row1) = f (id, row2) -> f <$> map_to_list (users t1) = f <$> map_to_list (users t2).
Proof.
  intros P Hf. rewrite (pr_fst _ _ _ P), (pr_snd _ _ _ P), !map_to_list_fmap, <- !list_fmap_compose.
  apply list_fmap_ext. intros k [i p] Hk. simpl.
  assert (Hm : m !! i = Some p) by (apply elem_of_map_to_list; by eapply list_elem_of_lookup_2).
  destruct (decide (i = id)) as [->|Hi]; [|by rewrite (pr_eq _ _ _ P i p)].
  rewrite (pr_id _ _ _ P) in Hm. by injection Hm as <-.
Qed.

Lemma find_first_fmap {A B} (p : B -> bool) (f : A -> B) (l : list A) : find_first p (f <$> l) = f <$> find_first (fun x => p (f x)) l.
Proof. induction l as [|x l IH]; csimpl; [done|]. by destruct (p (f x)). Qed.
Lemma omap_some_fmap {A B} (f : A -> option B) (l : list A) : omap f l = omap (fun x => x) (f <$> l).
Proof. induction l as [|x l IH]; csimpl; [done|]. by destruct (f x); rewrite IH. Qed.
Lemma existsb_fmap {A} (p : A -> bool) (l : list A) : existsb p l = existsb (fun b => b) (p <$> l).
Proof. induction l as [|x l IH]; csimpl; [done|]. by rewrite IH. Qed.

(** *** Changes of rows that are not the account's *)

Lemma sim_alter t1 t2 f i t1' t2' :
  sim_tables t1 t2 -> i <> id ->
  sim_tables t1' t2' -> users t1' = users t1 -> users t2' = users t2 ->
  sim_tables (set_users (alter f i (users t1)) t1') (set_users (alter f i (users t2)) t2').
Proof.
  intros St Hi St' E1 E2. destruct St' as [[m P] S2 S3 S4 S5 S6 S7 S8 S9 S10]. split; try done.
  exists (alter (prod_map f f) i m). rewrite <- E1, <- E2. destruct P as [P1 P2 P3 P4 P5]. split; simpl.
  - rewrite P1. apply map_eq. intros j. rewrite lookup_fmap. destruct (decide (j = i)) as [->|Hj].
    + rewrite !lookup_alter_eq, lookup_fmap. by destruct (m !! i).
    + by rewrite !lookup_alter_ne, lookup_fmap.
  - rewrite P2. apply map_eq. intros j. rewrite lookup_fmap. destruct (decide (j = i)) as [->|Hj].
    + rewrite !lookup_alter_eq, lookup_fmap. by destruct (m !! i).
    + by rewrite !lookup_alter_ne, lookup_fmap.
  - by rewrite lookup_alter_ne.
  - intros j p. destruct (decide (j = i)) as [->|Hj]; [rewrite lookup_alter_eq|rewrite lookup_alter_ne by done; apply P4].
    destruct (m !! i) as [q|] eqn:Eq; simpl; [|done]. intros [= <-] _. simpl. by rewrite (P4 i q).
  - intros j p. destruct (decide (j = i)) as [->|Hj]; [rewrite lookup_alter_eq|rewrite lookup_alter_ne by done; apply P5].
    destruct (m !! i) as [q|] eqn:Eq; simpl; [|done]. intros _. by eapply P5.
Qed.

Lemma sim_bump t1 t2 : sim_tables t1 t2 -> next_user_id t1 <= i64_max -> sim_tables (bump_user_id t1) (bump_user_id t2).
Proof.
  intros [[m [P1 P2 P3 P4 P5]] [S2 S2'] S3 S4 S5 S6 S7 S8 S9 S10] Hn. split; simpl; try done; [|rewrite S2; split; [done|lia]].
  exists m. split; try done. simpl. intros i p Hp%P5. lia.
Qed.

Lemma sim_insert t1 t2 u :
  sim_tables t1 t2 -> next_user_id t1 <= i64_max ->
  let ins t := set_users (<[next_user_id t:=u]> (users t)) (bump_user_id t) in
  sim_tables (ins t1) (ins t2).
Proof.
  intros St Hn. pose proof (id_range _ _ St) as Hr. destruct St as [[m P] [S2 S2'] S3 S4 S5 S6 S7 S8 S9 S10]. split; simpl; try done.
  - exists (<[next_user_id t1:=(u, u)]> m). destruct P as [P1 P2 P3 P4 P5]. split; simpl.
    + by rewrite P1, fmap_insert.
    + by rewrite P2, fmap_insert, S2.
    + rewrite lookup_insert_ne by lia. done.
    + intros i p. rewrite lookup_insert_Some. intros [[_ <-]|[_ H]]; [done|by apply P4].
    + intros i p. rewrite lookup_insert_Some. intros [[<- _]|[_ H%P5]]; lia.
  - rewrite S2. split; [done|lia].
Qed.

(** ** The logic *)

(** Both sides answer alike and stay related; [S] holds of the answer. *)
Definition rel {Y A} (m : D Y A) (S : A -> Prop) : Prop := forall d1 d2, sim d1 d2 ->
  (m d1).2 = (m d2).2 /\ sim (m d1).1 (m d2).1 /\ forall a, (m d1).2 = Ok a -> S a.

Abbreviation any := (fun _ => True).

Lemma rel_bind {Y A B} (m : D Y A) S (k : A -> D Y B) S' : rel m S -> (forall a, S a -> rel (k a) S') -> rel (d_bind m k) S'.
Proof.
  intros Hm Hk d1 d2 Hd. unfold d_bind. specialize (Hm d1 d2 Hd).
  destruct (m d1) as [e1 r1], (m d2) as [e2 r2]. simpl in Hm. destruct Hm as (<- & He & Hs).
  destruct r1 as [a|x]; [by apply Hk; auto|]. simpl. split; [done|]. by split.
Qed.
Lemma rel_weaken {Y A} (m : D Y A) (S S' : A -> Prop) : rel m S -> (forall a, S a -> S' a) -> rel m S'.
Proof. intros Hm HS d1 d2 Hd. destruct (Hm d1 d2 Hd) as (H1 & H2 & H3). split; [done|]. split; [done|]. auto. Qed.
Lemma rel_result {Y A} (r : result A Y) : rel (d_of_result r) (fun a => r = Ok a).
Proof. intros d1 d2 Hd. split; [done|]. by split. Qed.
Lemma rel_ret {Y A} (a : A) : rel (d_ret a : D Y A) any.
Proof. intros d1 d2 Hd. split; [done|]. by split. Qed.
Lemma rel_err {Y A} (x : Y) (S : A -> Prop) : rel (d_err x) S.
Proof. intros d1 d2 Hd. split; [done|]. by split. Qed.
Lemma rel_option {Y A} (o : option A) (x : Y) : rel (d_of_option o x) (fun a => o = Some a).
Proof. eapply rel_weaken; [apply rel_result|]. intros a. by destruct o; simpl; intros [= ->]. Qed.
Lemma rel_require b e : rel (require b e) any.
Proof. destruct b; [apply rel_ret|apply rel_err]. Qed.
Lemma rel_map_err {Y Y' A} (f : Y -> Y') (m : D Y A) S : rel m S -> rel (d_map_err f m) S.
Proof.
  intros Hm d1 d2 Hd. specialize (Hm d1 d2 Hd). unfold d_map_err. destruct (m d1) as [e1 r1], (m d2) as [e2 r2]. simpl in *.
  destruct Hm as (<- & He & Hs). split; [done|]. split; [done|]. intros a Ha. apply Hs. by destruct r1; simplify_eq/=.
Qed.
Lemma rel_internal {A} (m : D SqlxError A) S : rel m S -> rel (internal m) S.
Proof. apply rel_map_err. Qed.
Lemma rel_try {Y Y' A} (m : D Y A) S : rel m S -> rel (d_try m : D Y' _) any.
Proof.
  intros Hm d1 d2 Hd. specialize (Hm d1 d2 Hd). unfold d_try. destruct (m d1) as [e1 r1], (m d2) as [e2 r2]. simpl in *.
  destruct Hm as (<- & He & Hs). done.
Qed.
Lemma rel_limited {Y} f : rel (limited f : D Y bool) any.
Proof.
  intros d1 d2 [St T1 T2 Hr Hio]. unfold limited. rewrite <- Hr. destruct (f (rate_limiter d1)) as [ws ok]. simpl.
  split; [done|]. split; [by split|done].
Qed.
Lemma rel_draw {Y} E : rel (draw E : D Y bytes) any.
Proof. intros d1 d2 [St T1 T2 Hr Hio]. unfold draw. simpl. rewrite Hio. split; [done|]. split; [|done]. split; simpl; by rewrite ?Hio. Qed.

Lemma rel_call {A} E (f : Tables -> option (Tables * A)) (S : A -> Prop) :
  (forall t1 t2, sim_tables t1 t2 ->
     match f t1, f t2 with
     | Some (t1', a1), Some (t2', a2) => a1 = a2 /\ sim_tables t1' t2' /\ S a1
     | None, None => True
     | _, _ => False
     end) ->
  rel (db_call E f) S.
Proof.
  intros Hf d1 d2 [St T1 T2 Hr Hio]. unfold db_call. rewrite <- Hio. specialize (Hf _ _ St).
  destruct (d_db_ok E (io d1)); [|split; [done|]; split; [by split; simpl; rewrite ?Hio|done]].
  destruct (f (tables d1)) as [[t1' a1]|], (f (tables d2)) as [[t2' a2]|]; try done.
  destruct Hf as (<- & St' & HS). split; [done|]. split; [by split; simpl; rewrite ?Hio|]. simpl. by intros a [= <-].
Qed.
Lemma rel_read {A} E (f : Tables -> A) (S : A -> Prop) :
  (forall t1 t2, sim_tables t1 t2 -> f t1 = f t2 /\ S (f t1)) -> rel (db_read E f) S.
Proof. intros Hf. apply rel_call. intros t1 t2 St. destruct (Hf t1 t2 St). done. Qed.

Lemma rel_select {A} E ok (f : Tables -> A) (S : A -> Prop) :
  (forall t1 t2, sim_tables t1 t2 -> f t1 = f t2 /\ S (f t1)) -> rel (db_select E ok f) S.
Proof. intros Hf. apply rel_call. intros t1 t2 St. destruct ok; [|done]. destruct (Hf t1 t2 St). done. Qed.

(** ** The store's methods *)

(** The id of somebody else. *)
Definition other (u : Z) : Prop := as_i64 u <> id.

Lemma as_i64_same i t1 t2 p : sim_tables t1 t2 -> users t1 !! i = Some p -> as_i64 i = i.
Proof.
  intros [[m P] [_ Hn] _ _ _ _ _ _ _ _] Hu. rewrite (pr_fst _ _ _ P), lookup_fmap in Hu.
  destruct (m !! i) as [q|] eqn:Em; [|done]. pose proof (pr_bound _ _ _ P i q Em). unfold as_i64, i64_max in *.
  destruct (Z.ltb_spec i (2 ^ 63)); lia.
Qed.

Lemma rel_session_user E tok :
  (forall c, sessions (tables d0) !! tok <> Some (id, c)) -> rel (session_user_id E tok) (fun o => forall u, o = Some u -> other u).
Proof.
  intros Ht. apply rel_read. intros t1 t2 St. rewrite <- (st_sessions _ _ St).
  destruct (sessions t1 !! tok) as [[uid c]|] eqn:Es; [|done].
  assert (Hu : uid <> id) by (intros ->; by apply (st_own _ _ St), Ht in Es).
  rewrite <- (users_other _ _ _ St Hu). split; [done|]. destruct (users t1 !! uid) as [u|] eqn:Eu; [|done].
  destruct (_ && _); [|done]. intros ? [= <-]. unfold other. by rewrite (as_i64_same _ _ _ _ St Eu).
Qed.

(** The caller of a stranger's request is another account. *)
Lemma rel_authenticate E h :
  (forall tok c, bearer_token h = Some tok -> sessions (tables d0) !! tok <> Some (id, c)) -> rel (authenticate E h) other.
Proof.
  intros Hh. unfold authenticate. eapply rel_bind; [apply rel_option|]. intros v Hv.
  eapply rel_bind; [apply rel_option|]. intros tok Htok. simpl in Hv, Htok.
  eapply rel_bind; [apply rel_internal, rel_session_user|].
  - intros c. apply Hh. unfold bearer_token. by rewrite Hv.
  - intros o Ho. eapply rel_weaken; [apply rel_option|]. auto.
Qed.

Lemma rel_check_ip E h peer : rel (check_ip E h peer) any.
Proof. eapply rel_bind; [apply rel_limited|]. intros ok _. apply rel_require. Qed.
Lemma rel_cooldown E h : rel (check_cooldown E h) any.
Proof.
  eapply rel_bind; [apply rel_internal, (rel_read E _ any)|intros c _; apply rel_require].
  intros t1 t2 St. by rewrite (st_cooldown _ _ St).
Qed.

(** A look-up by phone number. *)
Lemma phone_same t1 t2 h :
  sim_tables t1 t2 -> (h = u_phone_hash row1 <-> h = u_phone_hash row2) ->
  fst <$> live_by_phone h t1 = fst <$> live_by_phone h t2.
Proof.
  intros St Hh. destruct (st_users _ _ St) as [m P]. unfold live_by_phone.
  set (g := fun x : Z * User => (x.1, bool_decide (u_phone_hash x.2 = h) && live x.2)).
  assert (Hg : forall l : list (Z * User), fst <$> find_first (fun '(_, u) => bool_decide (u_phone_hash u = h) && live u) l
    = fst <$> find_first snd (g <$> l)).
  { intros l. rewrite find_first_fmap. induction l as [|[i u] l IH]; [done|]. simpl.
    destruct (bool_decide _ && live u); [done|exact IH]. }
  rewrite !Hg, (scan_same g m t1 t2 P); [done|]. unfold g. simpl. rewrite (sp_live _ _ Hpub).
  f_equal. f_equal. apply bool_decide_ext. naive_solver.
Qed.
Lemma phone_other t1 t2 h i u :
  sim_tables t1 t2 -> h <> u_phone_hash row1 -> live_by_phone h t1 = Some (i, u) -> other i.
Proof.
  intros St Hh (Hu & Hp & _)%live_by_phone_Some. unfold other. rewrite (as_i64_same _ _ _ _ St Hu). intros ->.
  destruct (users_id _ _ St) as [E _]. rewrite E in Hu. by injection Hu as <-.
Qed.

Lemma rel_find_or_create E h :
  (h = u_phone_hash row1 <-> h = u_phone_hash row2) ->
  rel (find_or_create_pending_user E h) (fun u => h <> u_phone_hash row1 -> other u).
Proof.
  intros Hh. apply rel_call. intros t1 t2 St. pose proof (phone_same _ _ _ St Hh) as Hp.
  destruct (st_next _ _ St) as [Hn Hb]. unfold upsert_pending. rewrite <- Hn.
  destruct (Z.ltb_spec i64_max (next_user_id t1)); [done|]. cbv zeta.
  destruct (live_by_phone h t1) as [[i u]|] eqn:E1, (live_by_phone h t2) as [[j v]|] eqn:E2; simplify_eq/=.
  - split; [done|]. split; [by apply sim_bump|]. intros Hne. by eapply phone_other.
  - split; [done|]. split; [rewrite Hn at 2; by apply (sim_insert t1 t2 _ St)|]. intros _. pose proof (id_range _ _ St).
    unfold other, as_i64, i64_max in *. destruct (Z.ltb_spec (next_user_id t1) (2 ^ 63)); lia.
Qed.
Lemma rel_find_by_phone E h :
  h <> u_phone_hash row1 -> h <> u_phone_hash row2 ->
  rel (find_user_by_phone_hash E h) (fun o => forall u, o = Some u -> other u).
Proof.
  intros H1 H2. apply rel_read. intros t1 t2 St. split; [apply phone_same; [done|naive_solver]|].
  intros u. destruct (live_by_phone h t1) as [[i v]|] eqn:E1; simpl; [|done]. intros [= <-]. by eapply phone_other.
Qed.

(** Statements on the row of somebody else. *)
Lemma rel_alter E f u : other u -> rel (db_call E (fun t => Some (set_users (alter f (as_i64 u) (users t)) t, tt))) any.
Proof. intros Hu. apply rel_call. intros t1 t2 St. split; [done|]. split; [|done]. by apply (sim_alter t1 t2). Qed.
Lemma rel_mark E u : other u -> rel (mark_verified E u) any.
Proof. apply rel_alter. Qed.
Lemma rel_set_searchable E u b o : other u -> rel (set_searchable E u b o) any.
Proof.
  intros Hu. unfold set_searchable. destruct b, o as [h|]; try by apply rel_alter.
  destruct (pg_text h && pg_text (hash_prefix h)); [by apply rel_alter|by apply rel_call].
Qed.

Lemma rel_live_user {A} E u (f : User -> A) : other u -> rel (db_read E (fun t => f <$> live_user u t)) any.
Proof. intros Hu. apply rel_read. intros t1 t2 St. unfold live_user. by rewrite (users_other _ _ _ St Hu). Qed.
Lemma rel_is_searchable E u : other u -> rel (is_searchable E u) any.
Proof. exact (rel_live_user E u u_searchable). Qed.
Lemma rel_salts E u : other u -> rel (backup_salts E u) any.
Proof. intros Hu. apply rel_read. intros t1 t2 St. by rewrite (st_backups _ _ St _ Hu). Qed.

Lemma taken_same t1 t2 n : sim_tables t1 t2 -> taken_discriminators n t1 = taken_discriminators n t2.
Proof.
  intros St. destruct (st_users _ _ St) as [m P]. unfold taken_discriminators. rewrite !(omap_some_fmap _ (map_to_list _)).
  erewrite (scan_same _ m t1 t2 P); [done|]. by rewrite (sp_nickname _ _ Hpub), (sp_discriminator _ _ Hpub).
Qed.
Lemma handle_taken_same t1 t2 n k u : sim_tables t1 t2 -> handle_taken n k u t1 = handle_taken n k u t2.
Proof.
  intros St. destruct (st_users _ _ St) as [m P]. unfold handle_taken. rewrite !(existsb_fmap _ (map_to_list _)).
  erewrite (scan_same _ m t1 t2 P); [done|]. by rewrite (sp_nickname _ _ Hpub), (sp_discriminator _ _ Hpub).
Qed.

Lemma sim_widths t1 t2 w : sim_tables t1 t2 ->
  let set t := mkTables (users t) (next_user_id t) w (phone_cooldown t) (pairing_bootstrap t) (sessions t) (backups t) in
  sim_tables (set t1) (set t2).
Proof. intros [[m [P1 P2 P3 P4 P5]] S2 S3 S4 S5 S6 S7 S8 S9 S10]. split; try done. by exists m. Qed.

Lemma rel_claim E u n : other u -> rel (claim_username E u n) any.
Proof.
  intros Hu. unfold claim_username. eapply rel_bind; [apply rel_result|]. intros _ _.
  eapply rel_bind; [apply rel_map_err, (rel_call E _ any)|intros r _; eapply rel_weaken; [apply rel_result|done]].
  intros t1 t2 St. cbv zeta. rewrite <- (st_widths _ _ St), <- (taken_same _ _ n St).
  destruct (claim_slot _ _ _) as [[slot w]|e]; [|done]. rewrite <- (handle_taken_same _ _ _ _ _ St).
  destruct (handle_taken _ _ _ _); [done|]. split; [done|]. split; [|done].
  pose proof (sim_widths t1 t2 (<[n:=w]> (nickname_widths t1)) St) as Sw. simpl in Sw.
  rewrite <- (proj1 (st_next _ _ St)), <- (st_cooldown _ _ St), <- (st_bootstrap _ _ St), <- (st_sessions _ _ St) in *.
  exact (sim_alter _ _ (set_handle n (as_i32 slot)) (as_i64 u) _ _ St Hu Sw eq_refl eq_refl).
Qed.

Lemma rel_lookup E n k : rel (find_user_by_handle E n k) any.
Proof.
  apply rel_select. intros t1 t2 St. split; [|done]. destruct (st_users _ _ St) as [m P].
  set (p := fun x : Z * User => bool_decide (u_nickname x.2 = Some n) && bool_decide (u_discriminator x.2 = Some (as_i32 k)) && live x.2).
  assert (Hg : forall l : list (Z * User), fst <$> find_first (fun '(_, u) => bool_decide (u_nickname u = Some n) &&
      bool_decide (u_discriminator u = Some (as_i32 k)) && live u) l = fst <$> find_first snd ((fun x => (x.1, p x)) <$> l)).
  { intros l. rewrite find_first_fmap. induction l as [|[i u] l IH]; [done|]. unfold p. simpl. by destruct (_ && live u). }
  rewrite !Hg. erewrite (scan_same _ m t1 t2 P); [done|]. unfold p. simpl.
  by rewrite (sp_nickname _ _ Hpub), (sp_discriminator _ _ Hpub), (sp_live _ _ Hpub).
Qed.

Lemma rel_bucket {Y} E p : rel (store_bucket E p : D Y _) any.
Proof.
  unfold store_bucket. intros d1 d2 Hd.
  assert (Hr : rel (db_select E (pg_text p) (bucket_rows p)) any).
  { apply rel_select. intros t1 t2 St. split; [|done]. destruct (st_users _ _ St) as [m P].
    unfold bucket_rows. rewrite !(omap_some_fmap _ (map_to_list _)). erewrite (scan_same _ m t1 t2 P); [done|].
    by rewrite (sp_prefix _ _ Hpub), (sp_searchable _ _ Hpub), (sp_live _ _ Hpub), (sp_hash _ _ Hpub). }
  destruct (Hr d1 d2 Hd) as (H1 & H2 & _). destruct (db_select E _ _ d1) as [e1 r1], (db_select E _ _ d2) as [e2 r2].
  simpl in *. subst. by destruct r2.
Qed.

Lemma rel_handle_for E i : rel (handle_for E i) any.
Proof.
  unfold handle_for. eapply rel_bind; [apply (rel_read E _ any)|].
  - intros t1 t2 St. split; [|done].
    set (f := fun u : User => n ← u_nickname u; Some (n, default 0 (u_discriminator u))).
    assert (Hf : forall o : option User, (u ← o; n ← u_nickname u; Some (n, default 0 (u_discriminator u))) = mjoin (f <$> o))
      by by intros [].
    rewrite !Hf. f_equal.
    apply (users_public _ _ _ _ St). unfold f. by rewrite (sp_nickname _ _ Hpub), (sp_discriminator _ _ Hpub).
  - intros [[n k]|] _; [|apply rel_ret]. eapply rel_bind; [apply (rel_read E _ any)|intros w _; apply rel_ret].
    intros t1 t2 St. by rewrite (st_widths _ _ St).
Qed.
Lemma rel_results E l : rel (search_results E l) any.
Proof.
  induction l as [|x l IH]; [apply rel_ret|]. cbn [search_results].
  eapply rel_bind; [eapply rel_try, rel_handle_for|]. intros h _. eapply rel_bind; [exact IH|]. intros rest _. apply rel_ret.
Qed.

Lemma rel_erase E u : other u -> rel (erase_user E u) any.
Proof.
  intros Hu. apply rel_call. intros t1 t2 St. split; [done|]. split; [|done].
  pose proof (sim_alter t1 t2 (scrub (d_unix E)) (as_i64 u) t1 t2 St Hu St eq_refl eq_refl) as [[m [P1 P2 P3 P4 P5]] S2 S3 S4 S5 S6 S7 S8 S9 S10].
  simpl in *. rewrite <- (users_other _ _ _ St Hu). split; simpl; try done.
  - exists m. by split.
  - by rewrite S4.
  - by rewrite S5.
  - by rewrite S6.
  - intros tok c. rewrite map_lookup_filter_Some. simpl. rewrite S7. split; [by intros [H _]|]. intros H. by split.
  - intros i Hi. destruct (decide (i = as_i64 u)) as [->|Hne]; [by rewrite !lookup_delete_eq|]. rewrite !lookup_delete_ne by done. auto.
  - by rewrite lookup_delete_ne.
  - by rewrite lookup_delete_ne.
Qed.

(** Tables that differ from related ones in the bootstraps, sessions or backups. *)
Lemma sim_bootstraps t1 t2 p : sim_tables t1 t2 -> sim_tables (set_bootstraps p t1) (set_bootstraps p t2).
Proof. intros [[m [P1 P2 P3 P4 P5]] S2 S3 S4 S5 S6 S7 S8 S9 S10]. split; try done. by exists m. Qed.
Lemma sim_backups t1 t2 i b : sim_tables t1 t2 -> i <> id ->
  sim_tables (set_backups (<[i:=b]> (backups t1)) t1) (set_backups (<[i:=b]> (backups t2)) t2).
Proof.
  intros [[m [P1 P2 P3 P4 P5]] S2 S3 S4 S5 S6 S7 S8 S9 S10] Hi. split; try done; simpl.
  - by exists m.
  - intros j Hj. destruct (decide (i = j)) as [->|Hne]; [by rewrite !lookup_insert_eq|]. rewrite !lookup_insert_ne by done. auto.
  - by rewrite lookup_insert_ne.
  - by rewrite lookup_insert_ne.
Qed.
Lemma sim_sessions t1 t2 tok u c : sim_tables t1 t2 -> sessions t1 !! tok = None -> u <> id ->
  sim_tables (set_sessions (<[tok:=(u, c)]> (sessions t1)) t1) (set_sessions (<[tok:=(u, c)]> (sessions t1)) t2).
Proof.
  intros [[m [P1 P2 P3 P4 P5]] S2 S3 S4 S5 S6 S7 S8 S9 S10] Hn Hu. split; try done; simpl; [by exists m|].
  intros tok' c'. destruct (decide (tok = tok')) as [->|Hne]; [|by rewrite lookup_insert_ne].
  rewrite lookup_insert_eq. split; [by intros [= ? _]|]. intros H%S7. by rewrite Hn in H.
Qed.

Lemma rel_set_bootstrap E u l : other u -> rel (set_pairing_bootstrap E u l) any.
Proof.
  intros Hu. apply rel_call. intros t1 t2 St. destruct (pg_text l); [|done].
  rewrite <- (users_other _ _ _ St Hu). destruct (users t1 !! as_i64 u); [|done].
  split; [done|]. split; [|done]. rewrite <- (st_bootstrap _ _ St). by apply sim_bootstraps.
Qed.
Lemma rel_consume_bootstrap E u : rel (consume_pairing_bootstrap E u) any.
Proof.
  apply rel_call. intros t1 t2 St. rewrite <- (st_bootstrap _ _ St). destruct (pairing_bootstrap t1 !! as_i64 u) as [[l c]|]; [|done].
  assert (Hp : (fun x => u_searchable x && live x) <$> users t1 !! as_i64 u = (fun x => u_searchable x && live x) <$> users t2 !! as_i64 u).
  { apply (users_public _ _ _ _ St). by rewrite (sp_searchable _ _ Hpub), (sp_live _ _ Hpub). }
  destruct (users t1 !! as_i64 u) as [x|], (users t2 !! as_i64 u) as [y|]; simplify_eq/=; [|done].
  rewrite Hp. destruct (u_searchable y && live y). 2: { split; [done|]. by split. }
  split; [done|]. split; [by apply sim_bootstraps|done].
Qed.
Lemma rel_upsert E u b : other u -> rel (upsert_backup E u b) any.
Proof.
  intros Hu. apply rel_call. intros t1 t2 St. rewrite <- (users_other _ _ _ St Hu). destruct (users t1 !! as_i64 u); [|done].
  split; [done|]. split; [by apply sim_backups|done].
Qed.
Lemma rel_backup_auth E u a p : other u -> rel (verify_backup_auth E u a p) any.
Proof.
  intros Hu. apply rel_call. intros t1 t2 St. rewrite <- (st_backups _ _ St _ Hu). destruct (backups t1 !! as_i64 u) as [b|]; [|done].
  destruct (verify_backup_row E b a p) as [b' v]. split; [done|]. split; [by apply sim_backups|done].
Qed.
Lemma rel_create_session E u : other u -> rel (create_session E u) any.
Proof.
  intros Hu. eapply rel_bind; [apply rel_draw|]. intros rnd _. eapply rel_bind; [apply (rel_call E _ any)|intros _ _; apply rel_ret].
  intros t1 t2 St. rewrite <- (st_sessions _ _ St). destruct (sessions t1 !! hex rnd) eqn:Es; [done|].
  split; [done|]. split; [by apply sim_sessions|done].
Qed.

(** Restore tokens. *)
Lemma rel_create_token {Y} E u ttl : other u -> rel (create_restore_token E u ttl : D Y bytes) any.
Proof.
  intros Hu. unfold create_restore_token. eapply rel_bind; [eapply rel_bind; [apply rel_draw|intros ? _; apply rel_ret]|].
  intros tok _ d1 d2 [St T1 T2 Hr Hio]. simpl. split; [done|]. split; [|done]. split; simpl; try done; [by rewrite T1|].
  intros tok' v x. rewrite lookup_insert_Some. intros [[_ [= <- <-]]|[_ H]] Hv; [done|by apply T2].
Qed.
Lemma sim_drop_token d1 d2 tok : sim d1 d2 ->
  sim (set_restore_tokens (delete tok (restore_tokens d1)) d1) (set_restore_tokens (delete tok (restore_tokens d2)) d2).
Proof.
  intros [St T1 T2 Hr Hio]. split; simpl; try done; [by rewrite T1|]. intros tok' v x [_ H]%lookup_delete_Some. by apply T2.
Qed.
Lemma rel_token_user {Y} E tok :
  (forall u x, restore_tokens d0 !! tok = Some (u, x) -> other u) ->
  rel (restore_token_user E tok : D Y _) (fun o => forall u, o = Some u -> other u).
Proof.
  intros Ht d1 d2 Sd. unfold restore_token_user. rewrite <- (sm_tokens _ _ Sd). destruct (restore_tokens d1 !! tok) as [[u x]|] eqn:Et.
  - destruct (d_unix E <? x).
    + split; [done|]. split; [done|]. simpl. intros o [= <-] ? [= <-] Hv. apply (Ht u x); [by apply (sm_own _ _ Sd)|done].
    + pose proof (sim_drop_token _ _ tok Sd) as Hd. rewrite <- (sm_tokens _ _ Sd) in Hd.
      split; [done|]. split; [exact Hd|]. simpl. by intros o [= <-].
  - split; [done|]. split; [done|]. simpl. by intros o [= <-].
Qed.
Lemma rel_consume_token {Y} tok : rel (consume_restore_token tok : D Y unit) any.
Proof. intros d1 d2 Sd. split; [done|]. split; [by apply sim_drop_token|done]. Qed.

Lemma rel_mint E key x n : rel (mint_n E key x n) any.
Proof.
  induction n as [|n IH]; [apply rel_ret|]. cbn [mint_n]. eapply rel_bind; [apply rel_draw|]. intros rnd _.
  eapply rel_bind; [exact IH|]. intros ts _. apply rel_ret.
Qed.
Lemma rel_caller E u : other u -> rel (check_caller E u) any.
Proof.
  intros Hu. unfold check_caller. eapply rel_bind; [by apply rel_internal, rel_live_user|]. intros v _. cbv zeta.
  eapply rel_bind; [apply rel_limited|]. intros ok _. apply rel_require.
Qed.

(** ** The handlers *)

Ltac rel_step :=
  lazymatch goal with
  | |- rel (d_bind (require _ _) _) _ => eapply rel_bind; [apply rel_require|intros _ _]
  | |- rel (d_bind (check_ip _ _ _) _) _ => eapply rel_bind; [apply rel_check_ip|intros _ _]
  | |- rel (d_bind (check_cooldown _ _) _) _ => eapply rel_bind; [apply rel_cooldown|intros _ _]
  | |- rel (d_bind (check_caller _ _) _) _ => eapply rel_bind; [by apply rel_caller|intros _ _]
  | |- rel (d_bind (limited _) _) _ => eapply rel_bind; [apply rel_limited|intros ? _]
  | |- rel (d_bind (d_of_option _ _) _) _ => eapply rel_bind; [apply rel_option|intros ? ?; cbv beta in *]
  | |- rel (d_bind (d_of_result _) _) _ => eapply rel_bind; [apply rel_result|intros ? ?; cbv beta in *]
  | |- rel (d_bind (authenticate _ _) _) _ => eapply rel_bind; [by apply rel_authenticate|intros ? ?]
  | |- rel (d_of_option _ _) _ => eapply rel_weaken; [apply rel_option|done]
  | |- rel (d_ret _) _ => apply rel_ret
  | |- rel (d_err _) _ => apply rel_err
  end.
Ltac rel_steps := repeat rel_step.

Section Handlers.
Context (E : DirEnv) (app : App).

(** What a stranger's request has, by its kind. *)
Definition no_session (h : Headers) : Prop :=
  forall tok c, bearer_token h = Some tok -> sessions (tables d0) !! tok <> Some (id, c).

Lemma rel_signup h peer phone :
  (forall e164 x, normalize_e164 phone = Ok e164 -> phone_hash e164 (pepper app) = Ok x ->
     x = u_phone_hash row1 <-> x = u_phone_hash row2) ->
  rel (signup_handler E app h peer phone) any.
Proof.
  intros Hp. unfold signup_handler. rel_steps. eapply rel_bind; [apply rel_internal, rel_find_or_create|intros ? _; apply rel_ret].
  destruct (normalize_e164 phone) as [e|] eqn:En; simplify_eq/=. destruct (phone_hash _ (pepper app)) as [x|] eqn:Ex; simplify_eq/=.
  by eapply Hp.
Qed.

Lemma rel_verify h peer phone code :
  (forall x, verify_phone (vendor app) phone code (pepper app) = Ok x -> x <> u_phone_hash row1 /\ x <> u_phone_hash row2) ->
  rel (verify_handler E app h peer phone code) any.
Proof.
  intros Hp. unfold verify_handler. rel_steps. destruct (Hp a1) as [H1 H2]; [by eapply map_err_Ok|].
  eapply rel_bind; [apply rel_internal, rel_find_or_create; naive_solver|]. intros u Hu.
  eapply rel_bind; [apply rel_internal, rel_mark; auto|]. intros _ _.
  eapply rel_bind; [apply rel_internal, rel_create_session; auto|]. intros tok _. apply rel_ret.
Qed.

Lemma rel_begin phone code :
  (forall x, verify_phone (vendor app) phone code (pepper app) = Ok x -> x <> u_phone_hash row1 /\ x <> u_phone_hash row2) ->
  rel (restore_begin E app phone code) any.
Proof.
  intros Hp. unfold restore_begin. rel_steps. destruct (Hp a) as [H1 H2]; [by eapply map_err_Ok|].
  eapply rel_bind; [by apply rel_internal, rel_find_by_phone|]. intros o Ho. rel_steps.
  assert (Hu : other a0) by auto. eapply rel_bind; [by apply rel_internal, rel_salts|]. intros ss _. rel_steps.
  eapply rel_bind; [by apply rel_internal, rel_create_session|]. intros tok _.
  eapply rel_bind; [by apply rel_create_token|]. intros tok' _. apply rel_ret.
Qed.

Lemma rel_complete tok m a :
  (forall u x, restore_tokens d0 !! tok = Some (u, x) -> other u) -> rel (restore_complete E app tok m a) any.
Proof.
  intros Ht. unfold restore_complete. rel_steps. eapply rel_bind; [by apply rel_token_user|]. intros o Ho. rel_steps.
  eapply rel_bind; [apply rel_internal, rel_backup_auth; auto|]. intros v _. rel_steps.
  match goal with |- rel (match ?x with _ => _ end) _ => destruct x end; rel_steps.
  eapply rel_bind; [apply rel_consume_token|]. intros _ _. apply rel_ret.
Qed.

Lemma rel_search_request h p : no_session h -> rel (search E app h p) any.
Proof.
  intros Hh. unfold search. rel_steps. eapply rel_bind; [apply rel_bucket|]. intros l _. apply rel_results.
Qed.

Lemma rel_put h q : no_session h -> rel (put_backup E h q) any.
Proof.
  intros Hh. unfold put_backup, b64. rel_steps. cbv zeta. rel_steps. by apply rel_internal, rel_upsert.
Qed.

Lemma rel_set_search h b o : no_session h -> rel (set_searchable_handler E h b o) any.
Proof.
  intros Hh. unfold set_searchable_handler. rel_steps. eapply (rel_bind _ any); [destruct b; rel_steps|].
  intros x _. by apply rel_internal, rel_set_searchable.
Qed.

(** A sign-up is answered alike whatever number it names, although it may leave a row
    on one side only. *)
Lemma signup_alike h peer phone d1 d2 :
  sim d1 d2 -> (signup_handler E app h peer phone d1).2 = (signup_handler E app h peer phone d2).2.
Proof.
  assert (B : forall A B (m : D ApiError A) S (k : A -> D ApiError B), rel m S ->
    (forall a d1 d2, sim d1 d2 -> (k a d1).2 = (k a d2).2) -> forall d1 d2, sim d1 d2 -> (d_bind m k d1).2 = (d_bind m k d2).2).
  { intros A B m S k Hm Hk e1 e2 He. unfold d_bind. destruct (Hm e1 e2 He) as (H1 & H2 & _).
    destruct (m e1) as [f1 r1], (m e2) as [f2 r2]. simpl in *. subst r2. destruct r1; [by apply Hk|done]. }
  revert d1 d2. unfold signup_handler.
  eapply B; [apply rel_require|intros _]. eapply B; [apply rel_check_ip|intros _]. eapply B; [apply rel_result|intros e164].
  eapply B; [apply rel_result|intros x]. eapply B; [apply rel_cooldown|intros _]. eapply B; [apply rel_result|intros _].
  intros d1 d2 [St _ _ _ Hio]. destruct (st_next _ _ St) as [Hn _].
  unfold d_bind, internal, d_map_err, find_or_create_pending_user, db_call, upsert_pending. rewrite <- Hio, <- Hn.
  destruct (d_db_ok E (io d1)); [|done]. cbv zeta. destruct (i64_max <? next_user_id (tables d1)); [done|].
  by destruct (live_by_phone x (tables d1)) as [[]|], (live_by_phone x (tables d2)) as [[]|].
Qed.

(** Every request of a stranger is answered alike, and leaves the two related. *)
Lemma request_private r d1 d2 :
  stranger app r -> sim d1 d2 ->
  (handle_request E app r d1).2 = (handle_request E app r d2).2 /\ sim (handle_request E app r d1).1 (handle_request E app r d2).1.
Proof.
  intros [Ha Hr] Hd.
  assert (J : forall A (ser : A -> Json) m, rel m any ->
    (json_response ser (m d1)).2 = (json_response ser (m d2)).2 /\ sim (json_response ser (m d1)).1 (json_response ser (m d2)).1).
  { intros A ser m Hm. destruct (Hm d1 d2 Hd) as (H1 & H2 & _). unfold json_response. simpl. by rewrite H1. }
  assert (N : forall m, rel m any -> (no_content (m d1)).2 = (no_content (m d2)).2 /\ sim (no_content (m d1)).1 (no_content (m d2)).1).
  { intros m Hm. destruct (Hm d1 d2 Hd) as (H1 & H2 & _). unfold no_content. simpl. by rewrite H1. }
  destruct r; cbn [handle_request]; first [apply J | apply N];
    try (assert (Hh : no_session h) by (intros tok c; by apply Ha); clear Ha).
  - by apply rel_signup.
  - by apply rel_verify.
  - unfold claim_username_handler. rel_steps. eapply rel_bind; [by apply rel_map_err, rel_claim|]. intros x _. apply rel_ret.
  - unfold username_lookup. rel_steps. eapply rel_bind; [apply rel_internal, rel_lookup|]. intros x _. rel_steps.
  - unfold get_searchable. rel_steps. eapply rel_bind; [apply rel_internal, rel_is_searchable; assumption|]. intros x _. rel_steps.
  - by apply rel_set_search.
  - unfold issue_attestation_tokens, mint_batch. rel_steps. eapply rel_bind; [apply rel_mint|]. intros x _. apply rel_ret.
  - unfold delete_account. rel_steps. by apply rel_internal, rel_erase.
  - by apply rel_search_request.
  - unfold set_pairing_bootstrap_handler. rel_steps. by apply rel_internal, rel_set_bootstrap.
  - unfold request_pairing_bootstrap. rel_steps. eapply rel_bind; [apply rel_internal, rel_consume_bootstrap|]. intros x _. rel_steps.
  - by apply rel_put.
  - by apply rel_begin.
  - by apply rel_complete.
Qed.

(** *** Over HTTP *)

Definition visitor (q : HttpRequest) : Prop :=
  forall e r, endpoint_of q = Some e -> as_request e q = Some r -> stranger app r.

Lemma router_private q d1 d2 :
  visitor q -> sim d1 d2 -> (router E app q d1).2 = (router E app q d2).2 /\ sim (router E app q d1).1 (router E app q d2).1.
Proof.
  unfold visitor, endpoint_of, router. intros Hv Hd. destruct (find_route (q_path q) routes) as [m|]; [|done]. cbn [mbind option_bind] in Hv.
  destruct (m (q_method q)) as [e|]; [|done].
  pose proof (call_endpoint_cases E app e q d1) as H1. pose proof (call_endpoint_cases E app e q d2) as H2.
  destruct (as_request e q) as [r|] eqn:Er.
  - rewrite H1, H2. destruct (request_private r d1 d2 (Hv e r eq_refl Er) Hd) as [Ha Hs].
    destruct (handle_request E app r d1) as [e1 r1], (handle_request E app r d2) as [e2 r2]. simpl in *. by subst.
  - destruct H1 as [res H1]. by rewrite !H1.
Qed.

Lemma router_signup_alike q d1 d2 :
  endpoint_of q = Some ESignup -> sim d1 d2 -> (router E app q d1).2 = (router E app q d2).2.
Proof.
  unfold endpoint_of, router. intros He Hd. destruct (find_route (q_path q) routes) as [m|]; [|done]. cbn [mbind option_bind] in He.
  rewrite He. cbn [call_endpoint]. unfold extracted. destruct (from_request q) as [r|]; [|done].
  unfold json_response. cbn [fst snd]. by rewrite (signup_alike _ _ _ _ _ Hd).
Qed.
End Handlers.
End Sim.

(** ** Any number of requests *)

Record Visit := mkVisit { v_env : DirEnv; v_app : App; v_request : HttpRequest }.

Fixpoint visits (vs : list Visit) (d : Dir) : Dir * list HttpResponse :=
  match vs with
  | [] => (d, [])
  | v :: vs' =>
      let '(d1, r) := router (v_env v) (v_app v) (v_request v) d in
      let '(d2, rs) := visits vs' d1 in (d2, r :: rs)
  end.

Lemma visits_private id row1 row2 b1 b2 d0 vs d1 d2 :
  same_public row1 row2 -> Forall (fun v => visitor id row1 row2 d0 (v_app v) (v_request v)) vs -> sim id row1 row2 b1 b2 d0 d1 d2 ->
  (visits vs d1).2 = (visits vs d2).2 /\ sim id row1 row2 b1 b2 d0 (visits vs d1).1 (visits vs d2).1.
Proof.
  intros Hp Hv. revert d1 d2. induction Hv as [|v vs Hv _ IH]; intros d1 d2 Hd; [done|]. cbn [visits].
  destruct (router_private id row1 row2 b1 b2 d0 Hp (v_env v) (v_app v) _ d1 d2 Hv Hd) as [Ha Hs].
  destruct (router _ _ _ d1) as [e1 r1], (router _ _ _ d2) as [e2 r2]. simpl in Ha, Hs. subst r2.
  destruct (IH e1 e2 Hs) as [Hb Hs']. destruct (visits vs e1) as [f1 rs1], (visits vs e2) as [f2 rs2]. simpl in *. by subst.
Qed.

(** The directory with another row and another bundle for the account. *)
Definition with_private (id : Z) (row : User) (b : option Backup) (d : Dir) : Dir :=
  let t := tables d in
  set_tables (set_backups (partial_alter (fun _ => b) id (backups t)) (set_users (<[id:=row]> (users t)) t)) d.

Lemma with_private_sim id row1 row2 b d :
  dir_ok (tables d) -> users (tables d) !! id = Some row1 ->
  sim id row1 row2 (backups (tables d) !! id) b d d (with_private id row2 b d).
Proof.
  intros O Hu. split; try done. split; simpl; try done.
  - exists (<[id:=(row1, row2)]> ((fun u => (u, u)) <$> users (tables d))). split; simpl.
    + rewrite fmap_insert, <- map_fmap_compose. simpl. rewrite map_fmap_id. by rewrite insert_id.
    + rewrite fmap_insert, <- map_fmap_compose. simpl. by rewrite map_fmap_id.
    + apply lookup_insert_eq.
    + intros i p. rewrite lookup_insert_Some, lookup_fmap. intros [[-> _]|[_ H]]; [done|]. intros _.
      destruct (users (tables d) !! i); by simplify_eq/=.
    + intros i p. rewrite lookup_insert_Some, lookup_fmap. intros [[<- _]|[_ H]]; [by eapply (ok_ids _ O)|].
      destruct (users (tables d) !! i) as [u|] eqn:Ei; simplify_eq/=. by eapply (ok_ids _ O).
  - split; [done|]. pose proof (ok_next _ O). lia.
  - intros i Hi. by rewrite lookup_partial_alter_ne.
  - by rewrite lookup_partial_alter_eq.
Qed.

(** C18: strangers learn nothing. Take an account, and the same directory in which the
    account has another phone number, another recovery bundle and lockout, another age
    and another verification. Whatever requests arrive, as long as none of them carries
    a session or restore token of the account or an approved code for one of the two
    numbers, and none is a sign-up under the one number and not the other, every
    response, status, headers and body, is the same from both: of an account that is not
    one's own, one sees the handle, and the search hash it was published under. And a
    sign-up that follows them is answered the same whatever number it names, so the
    answer does not tell whether the number has an account. *)
Theorem strangers_learn_nothing id row1 row2 b d vs :
  dir_ok (tables d) -> users (tables d) !! id = Some row1 -> same_public row1 row2 ->
  Forall (fun v => visitor id row1 row2 d (v_app v) (v_request v)) vs ->
  let d2 := with_private id row2 b d in
  (visits vs d).2 = (visits vs d2).2 /\
  forall E app q, endpoint_of q = Some ESignup ->
    (router E app q (visits vs d).1).2 = (router E app q (visits vs d2).1).2.
Proof.
  intros O Hu Hp Hv d2. destruct (visits_private id row1 row2 (backups (tables d) !! id) b d vs d d2 Hp Hv) as [H1 H2];
    [by apply with_private_sim|]. split; [done|]. intros E app q Hq. by eapply router_signup_alike.
Qed.

(** C19: strangers change nothing. Whatever requests arrive, sign-ups under the account's
    own number and guesses of its codes included, as long as none of them carries a
    session or restore token of the account or an approved code for its number: its row,
    its recovery bundle with the lockout, and its sessions stay exactly as they are, and
    it gets no restore token. *)
Theorem strangers_change_nothing id row d vs :
  dir_ok (tables d) -> users (tables d) !! id = Some row ->
  Forall (fun v => visitor id row row d (v_app v) (v_request v)) vs ->
  let d' := (visits vs d).1 in
  users (tables d') !! id = Some row /\ backups (tables d') !! id = backups (tables d) !! id /\
  (forall tok c, sessions (tables d') !! tok = Some (id, c) <-> sessions (tables d) !! tok = Some (id, c)) /\
  (forall tok u x, restore_tokens d' !! tok = Some (u, x) -> as_i64 u = id -> restore_tokens d !! tok = Some (u, x)).
Proof.
  intros O Hu Hv. pose proof (with_private_sim id row row (backups (tables d) !! id) d O Hu) as Hs.
  eapply visits_private in Hs as [_ Hs]; [|by split|exact Hv]. destruct Hs as [St _ Ht _ _].
  split; [apply (users_id _ _ _ _ _ _ _ _ St)|]. split; [apply (st_backup1 _ _ _ _ _ _ _ _ St)|].
  split; [apply (st_own _ _ _ _ _ _ _ _ St)|done].
Qed.
End Privacy.

(** ** Examples *)

Module PrivacyExamples.
Import DirScenario DirExamples HttpExamples.

(** Alice's row with the hash of another number, unverified, and a recovery bundle. *)
Definition twin : User :=
  mkUser [9] [] false (u_nickname alice_row) (u_discriminator alice_row) (u_searchable alice_row) 0 None
    (u_phone_search_hash alice_row) (u_phone_search_hash_prefix alice_row).
Definition bundle : Backup := mkBackup (mkUpload [1] [2] [3] [4] [5] [6] [7] [8] [9]) 7 (Some 99) 0.

(** Mallory signs up under her own number, and asks for what she may not have. *)
Definition mallory : list Visit :=
  mkVisit (at_time 300) app <$>
    [request POST "/signup" anonymous "" "+12025550199"; request POST "/verify" anonymous "" "+12025550199|000000";
     request GET "/search" (bearer (str "guess")) "aaaaa" ""; request POST "/v1/backup/restore/complete" anonymous "" "x|pin|y"].

Lemma alice_twin : same_public alice_row twin.
Proof. by split. Qed.

Definition mallory_phone : bytes := str "+12025550199".
Definition mallory_hash : bytes := match phone_hash mallory_phone (pepper app) with Ok h => h | Err _ => [] end.
Lemma mallory_hash_ne : mallory_hash <> u_phone_hash alice_row /\ mallory_hash <> u_phone_hash twin.
Proof. split; vm_compute; discriminate. Qed.
Lemma mallory_normal e164 : normalize_e164 mallory_phone = Ok e164 -> e164 = mallory_phone.
Proof. intros H. vm_compute in H. by injection H as <-. Qed.
Lemma mallory_hashed h : phone_hash mallory_phone (pepper app) = Ok h -> h = mallory_hash.
Proof. unfold mallory_hash. by intros ->. Qed.
Lemma mallory_verified h : verify_phone (vendor app) mallory_phone (str "000000") (pepper app) = Ok h -> h = mallory_hash.
Proof. intros H. assert (E : Ok h = Ok mallory_hash :> result bytes VerifyError) by (rewrite <- H; vm_compute; reflexivity). by injection E. Qed.
Lemma guess_unknown h tok c : Some (bearer (str "guess")) = Some h -> bearer_token h = Some tok -> sessions (tables findable) !! tok <> Some (1, c).
Proof. intros [= <-] Ht. vm_compute in Ht. injection Ht as <-. vm_compute. discriminate. Qed.

Lemma findable_no_tokens : restore_tokens findable = ∅.
Proof. vm_compute. reflexivity. Qed.

Lemma mallory_stranger row :
  row = alice_row \/ row = twin -> Forall (fun v => visitor 1 alice_row row findable (v_app v) (v_request v)) mallory.
Proof.
  intros Hrow.
  assert (Hne : mallory_hash <> u_phone_hash alice_row /\ mallory_hash <> u_phone_hash row)
    by (destruct mallory_hash_ne; by destruct Hrow as [->| ->]).
  clear Hrow. unfold mallory. repeat (apply Forall_cons_2); [..|apply Forall_nil_2]; intros e r He Hr;
    vm_compute in He; injection He as <-; cbv in Hr; injection Hr as <-.
  - split; [intros ? ? ? H; discriminate H|]. intros e164 h ->%mallory_normal ->%mallory_hashed. destruct Hne. split; intros ?; contradiction.
  - split; [intros ? ? ? H; discriminate H|]. intros h ->%mallory_verified. exact Hne.
  - split; [apply guess_unknown|exact Logic.I].
  - split; [intros ? ? ? H; discriminate H|]. intros u x H. rewrite findable_no_tokens, lookup_empty in H. discriminate H.
Qed.

Lemma strangers_learn_nothing_witness :
  h_status <$> (visits mallory findable).2 = [200; 200; 401; 401] /\
  (visits mallory findable).2 = (visits mallory (with_private 1 twin (Some bundle) findable)).2 /\
  forall E app q, endpoint_of q = Some ESignup ->
    (router E app q (visits mallory findable).1).2 =
    (router E app q (visits mallory (with_private 1 twin (Some bundle) findable)).1).2.
Proof.
  split; [vm_compute; reflexivity|].
  exact (strangers_learn_nothing 1 alice_row twin (Some bundle) findable mallory findable_ok alice_row_eq alice_twin
           (mallory_stranger twin (or_intror eq_refl))).
Defined.

Lemma strangers_change_nothing_witness :
  size (users (tables (visits mallory findable).1)) = 2%nat /\
  users (tables (visits mallory findable).1) !! 1 = Some alice_row.
Proof.
  split; [vm_compute; reflexivity|].
  exact (proj1 (strangers_change_nothing 1 alice_row findable mallory findable_ok alice_row_eq (mallory_stranger alice_row (or_introl eq_refl)))).
Defined.
End PrivacyExamples.
