(* ===== verification/DirConc.v ===== *)
(** * Requests at the same time (directory/src/api.rs, store.rs)

    The server runs the handlers of many requests at once; they take turns wherever one
    waits. A request in progress is a [Prog]: an answer, or a step on the shared state
    with what follows. The steps are the statements of the database, the calls of the
    rate limiter and of the restore tokens. In a transaction every read is a step and the
    writes with the commit are one, since the isolation level (Postgres's default, READ
    COMMITTED) lets others commit in between; a row lock ([FOR UPDATE]) makes one step of
    it all. Run alone, a program is the handler of [DirApi.v] ([task_alone]). *)

From S2P Require Import Prelude Text External Proto DirLogic DirStore DirApi DirNames DirInv DirProps DirRestore DirStatus DirHttp.

Create HintDb conc.

(** ** Programs *)

(** [PStep f k]: from the state [d], the state [f d], and [k d] from there on. *)
Inductive Prog (A : Type) :=
| PDone (r : result A ApiError)
| PStep (f : Dir -> Dir) (k : Dir -> Prog A).
Arguments PDone {A} r.
Arguments PStep {A} f k.

Fixpoint p_bind {A B} (p : Prog A) (k : A -> Prog B) : Prog B :=
  match p with
  | PDone (Ok a) => k a
  | PDone (Err e) => PDone (Err e)
  | PStep f n => PStep f (fun d => p_bind (n d) k)
  end.

Notation "x <-| m ; k" := (p_bind m (fun x => k)) (at level 100, m at next level, right associativity) : rosette_scope.

(** A computation on the state as one step. *)
Definition atomic {A} (m : D ApiError A) : Prog A := PStep (fun d => (m d).1) (fun d => PDone (m d).2).
Definition p_result {A} (r : result A ApiError) : Prog A := PDone r.
Definition p_option {A} (o : option A) (e : ApiError) : Prog A := PDone (ok_or o e).
Definition p_require (b : bool) (e : ApiError) : Prog unit := PDone (if b then Ok tt else Err e).
Definition p_ret {A} (a : A) : Prog A := PDone (Ok a).

(** Nobody else's steps in between. *)
Fixpoint alone {A} (p : Prog A) : D ApiError A := fun d =>
  match p with
  | PDone r => (d, r)
  | PStep f k => alone (k d) (f d)
  end.

Lemma alone_bind {A B} (p : Prog A) (k : A -> Prog B) d : alone (p_bind p k) d = d_bind (alone p) (fun a => alone (k a)) d.
Proof. revert d. induction p as [[a|e]|f n IH]; intros d; [done|done|]. cbn [p_bind alone]. apply IH. Qed.

Lemma alone_seq {A B} (p : Prog A) (k : A -> Prog B) m k' :
  (forall d, alone p d = m d) -> (forall a d, alone (k a) d = k' a d) -> forall d, alone (p_bind p k) d = d_bind m k' d.
Proof. intros Hp Hk d. rewrite alone_bind. unfold d_bind. rewrite Hp. destruct (m d) as [d' [a|e]]; [apply Hk|done]. Qed.
Lemma alone_atomic {A} (m : D ApiError A) d : alone (atomic m) d = m d.
Proof. simpl. by destruct (m d). Qed.

Section Progs.
Context {X : HttpExt} (E : DirEnv) (app : App).

(** ** Transactions in two halves *)

(** The width and the taken numbers, as the claim's first statements read them. *)
Definition claim_width {Y} (nickname : bytes) : D Y Z := fun d =>
  (d, Ok (default MIN_DISCRIMINATOR_WIDTH (nickname_widths (tables d) !! nickname))).
Definition claim_taken {Y} (nickname : bytes) : D Y (gset Z) := fun d =>
  (d, Ok (taken_discriminators nickname (tables d))).

Definition claim_write (user_id : Z) (nickname : bytes) (taken : gset Z) (width : Z) : D SqlxError (result (Z * Z) UsernameError) :=
  db_call E (fun t =>
    match claim_slot taken 9 width with
    | Err e => Some (t, Err e)
    | Ok (slot, width) =>
        if handle_taken nickname (as_i32 slot) (as_i64 user_id) t then None
        else Some (mkTables (alter (set_handle nickname (as_i32 slot)) (as_i64 user_id) (users t))
                     (next_user_id t) (<[nickname:=width]> (nickname_widths t)) (phone_cooldown t)
                     (pairing_bootstrap t) (sessions t) (backups t), Ok (slot, width))
    end).

(** The phone hash an erasure puts into the cooldown, as its first statement reads it. *)
Definition erase_read {Y} (user_id : Z) : D Y (option bytes) := fun d =>
  (d, Ok (u_phone_hash <$> users (tables d) !! as_i64 user_id)).

Definition erase_write (user_id : Z) (hash : option bytes) : D SqlxError unit :=
  db_call E (fun t =>
    let id := as_i64 user_id in
    let cool := match hash with Some h => phone_cooldown t ++ [(h, d_unix E)] | None => phone_cooldown t end in
    Some (mkTables (alter (scrub (d_unix E)) id (users t)) (next_user_id t) (nickname_widths t) cool
            (delete id (pairing_bootstrap t)) (filter (fun s => s.2.1 <> id) (sessions t))
            (delete id (backups t)), tt)).

(** ** The handlers *)

Definition p_authenticate (headers : Headers) : Prog Z :=
  value <-| p_option (authorization headers) Unauthorized;
  token <-| p_option (strip_prefix (str "Bearer ") value) Unauthorized;
  u <-| atomic (internal (session_user_id E token));
  p_option u Unauthorized.

Definition p_check_ip (headers : Headers) (peer : bytes) : Prog unit :=
  ok <-| atomic (limited (check_and_bump_ip (d_mono E) (client_ip headers peer) UNAUTH_REQUESTS_PER_MINUTE_PER_IP));
  p_require ok RateLimited.

Definition p_cooldown (hash : bytes) : Prog unit :=
  cooling <-| atomic (internal (is_phone_in_cooldown E hash));
  p_require (negb cooling) (BadRequest (str "phone number is in cooldown after a recent deletion")).

Definition p_signup (headers : Headers) (peer phone : bytes) : Prog bytes :=
  _ <-| p_require (accounts_enabled (config app)) FeatureDisabled;
  _ <-| p_check_ip headers peer;
  e164 <-| p_result (map_err (fun _ => BadRequest (str "invalid phone")) (normalize_e164 phone));
  hash <-| p_result (map_err (fun _ => Internal) (phone_hash e164 (pepper app)));
  _ <-| p_cooldown hash;
  _ <-| p_result (map_err (fun e => match e with Unavailable => VendorUnavailable | Other => Internal end)
                    (send_code (vendor app) e164));
  _ <-| atomic (internal (find_or_create_pending_user E hash));
  p_ret (str "code_sent").

Definition p_verify (headers : Headers) (peer phone code : bytes) : Prog (Z * bytes * bool) :=
  _ <-| p_require (accounts_enabled (config app)) FeatureDisabled;
  _ <-| p_check_ip headers peer;
  e164 <-| p_result (map_err (fun _ => BadRequest (str "invalid phone")) (normalize_e164 phone));
  ok <-| atomic (limited (check_and_bump_phone (d_mono E) (phone_rate_key e164) VERIFY_ATTEMPTS_PER_MINUTE));
  _ <-| p_require ok RateLimited;
  hash <-| p_result (map_err verify_error (verify_phone (vendor app) phone code (pepper app)));
  _ <-| p_cooldown hash;
  user_id <-| atomic (internal (find_or_create_pending_user E hash));
  _ <-| atomic (internal (mark_verified E user_id));
  token <-| atomic (internal (create_session E user_id));
  p_ret (user_id, token, true).

Definition p_claim (headers : Headers) (nickname : bytes) : Prog bytes :=
  user_id <-| p_authenticate headers;
  _ <-| p_result (map_err (fun _ => BadRequest (str "invalid or taken nickname")) (validate_nickname nickname));
  width <-| atomic (claim_width nickname);
  taken <-| atomic (claim_taken nickname);
  r <-| atomic (internal (claim_write user_id nickname taken width));
  s <-| p_result (map_err (fun _ => BadRequest (str "invalid or taken nickname")) r);
  p_ret (format_handle nickname s.1 s.2).

Definition p_tokens (headers : Headers) : Prog (list (bytes * Z * bytes)) :=
  _ <-| p_authenticate headers;
  key <-| p_option (app_attestation_key app) FeatureDisabled;
  ts <-| atomic (mint_batch E key);
  p_ret ((fun t => (b64_encode (token_nonce t), expires_at t, b64_encode (signature t))) <$> ts).

Definition p_get_searchable (headers : Headers) : Prog bool :=
  user_id <-| p_authenticate headers;
  s <-| atomic (internal (is_searchable E user_id));
  p_option s Unauthorized.

Definition p_set_searchable (headers : Headers) (searchable : bool) (phone_search_hash : option bytes) : Prog unit :=
  user_id <-| p_authenticate headers;
  hash <-| (if searchable then
              h <-| p_option phone_search_hash (BadRequest (str "phone_search_hash is required when searchable is true"));
              _ <-| p_require (is_hex h 64) (BadRequest (str "phone_search_hash must be a 64-hex-char SHA-256 digest"));
              p_ret (Some h)
            else p_ret None);
  atomic (internal (set_searchable E user_id searchable hash)).

Definition p_lookup (headers : Headers) (nickname : bytes) (discriminator : Z) : Prog Z :=
  _ <-| p_authenticate headers;
  u <-| atomic (internal (find_user_by_handle E nickname discriminator));
  p_option u NotFound.

Definition p_set_bootstrap (headers : Headers) (contact_link_b64 : bytes) : Prog unit :=
  user_id <-| p_authenticate headers;
  _ <-| p_require (negb (is_blank contact_link_b64)) (BadRequest (str "contact_link_b64 must not be empty"));
  atomic (internal (set_pairing_bootstrap E user_id contact_link_b64)).

Definition p_caller (caller_id : Z) : Prog unit :=
  v <-| atomic (internal (is_verified E caller_id));
  ok <-| atomic (limited (check_and_bump (d_mono E) caller_id
                            (if default false v then VERIFIED_SEARCH_PER_MINUTE else UNVERIFIED_SEARCH_PER_MINUTE)));
  p_require ok RateLimited.

Definition p_request_bootstrap (headers : Headers) (user_id : Z) : Prog bytes :=
  _ <-| p_require (search_enabled (config app)) FeatureDisabled;
  caller_id <-| p_authenticate headers;
  _ <-| p_caller caller_id;
  link <-| atomic (internal (consume_pairing_bootstrap E user_id));
  p_option link NotFound.

Definition p_delete (headers : Headers) : Prog unit :=
  user_id <-| p_authenticate headers;
  hash <-| atomic (erase_read user_id);
  atomic (internal (erase_write user_id hash)).

(** [handle_for] of an entry of a bucket: two queries; an error skips the entry. *)
Definition p_handle_for (user_id : Z) : Prog (option bytes) :=
  r <-| atomic (d_try (db_read E (fun t => u ← users t !! as_i64 user_id; n ← u_nickname u; Some (n, default 0 (u_discriminator u)))));
  match r with
  | Ok (Some (nickname, discriminator)) =>
      w <-| atomic (d_try (db_read E (fun t => nickname_widths t !! nickname)));
      p_ret match w with
            | Ok w => Some (format_handle nickname discriminator (default MIN_DISCRIMINATOR_WIDTH w))
            | Err _ => None
            end
  | _ => p_ret None
  end.

Fixpoint p_results (entries : list PhoneEntry) : Prog (list (Z * bytes * bytes)) :=
  match entries with
  | [] => p_ret []
  | entry :: entries' =>
      h <-| p_handle_for (pe_user_id entry);
      rest <-| p_results entries';
      p_ret match h with Some handle => (pe_user_id entry, handle, pe_phone_hash entry) :: rest | None => rest end
  end.

Definition p_search (headers : Headers) (prefix : bytes) : Prog (list (Z * bytes * bytes)) :=
  _ <-| p_require (search_enabled (config app)) FeatureDisabled;
  caller_id <-| p_authenticate headers;
  _ <-| p_caller caller_id;
  _ <-| p_require (len prefix =? PREFIX_LEN_HEX) (BadRequest (str "prefix must be exactly PREFIX_LEN_HEX hex chars"));
  entries <-| atomic (search_by_prefix E prefix);
  p_results entries.

Definition p_b64 (s : bytes) : Prog bytes := p_option (b64_decode s) (BadRequest (str "all bundle fields must be base64")).

Definition p_put_backup (headers : Headers) (req : BackupPutRequest) : Prog unit :=
  user_id <-| p_authenticate headers;
  v1 <-| p_b64 (put_blob req);
  v2 <-| p_b64 (put_w_pin req);
  v3 <-| p_b64 (put_salt_p req);
  v4 <-| p_b64 (put_w_phrase req);
  v5 <-| p_b64 (put_salt_f req);
  v6 <-| p_b64 (put_auth_pin req);
  v7 <-| p_b64 (put_salt_a req);
  v8 <-| p_b64 (put_auth_phrase req);
  v9 <-| p_b64 (put_salt_pa req);
  let upload := mkUpload v1 v2 v3 v4 v5 v6 v7 v8 v9 in
  _ <-| p_require (negb (existsb (fun s => negb (len s =? 16)) [salt_p upload; salt_f upload; salt_a upload; salt_pa upload]))
         (BadRequest (str "salts must be 16 bytes"));
  _ <-| p_require (negb (negb (len (auth_pin_hash upload) =? 32) || negb (len (auth_phrase_hash upload) =? 32)))
         (BadRequest (str "auth hashes must be 32 bytes"));
  _ <-| p_require (negb ((len (blob upload) =? 0) || (len (w_pin upload) =? 0) || (len (w_phrase upload) =? 0)))
         (BadRequest (str "ciphertexts must not be empty"));
  atomic (internal (upsert_backup E user_id upload)).

Definition p_begin (phone code : bytes) : Prog RestoreBeginResponse :=
  _ <-| p_require (accounts_enabled (config app)) FeatureDisabled;
  hash <-| p_result (map_err verify_error (verify_phone (vendor app) phone code (pepper app)));
  u <-| atomic (internal (find_user_by_phone_hash E hash));
  user_id <-| p_option u NotFound;
  s <-| atomic (internal (backup_salts E user_id));
  salts <-| p_option s NotFound;
  session_token <-| atomic (internal (create_session E user_id));
  restore_token <-| atomic (create_restore_token E user_id RESTORE_TOKEN_TTL_SECS);
  p_ret (mkBegin restore_token session_token (b64_encode salts.1) (b64_encode salts.2)).

Definition p_complete (restore_token method auth_b64 : bytes) : Prog BackupPutRequest :=
  _ <-| p_require (accounts_enabled (config app)) FeatureDisabled;
  u <-| atomic (restore_token_user E restore_token);
  user_id <-| p_option u Unauthorized;
  is_pin <-| p_option (parse_method method) (BadRequest bad_method);
  auth <-| p_option (b64_decode auth_b64) (BadRequest (str "auth must be base64"));
  _ <-| p_require (len auth =? 32) (BadRequest (str "auth must be 32 bytes"));
  v <-| atomic (internal (verify_backup_auth E user_id auth is_pin));
  verdict <-| p_option v NotFound;
  match verdict with
  | Match row => _ <-| atomic (consume_restore_token restore_token); p_ret (encode_bundle row)
  | WrongPin remaining => PDone (Err (WrongSecret (Some remaining)))
  | WrongPhrase => PDone (Err (WrongSecret None))
  | Locked until => PDone (Err (LockedOut (Z.max (until - d_unix E) 1)))
  end.

(** ** Tasks *)

Definition p_json {A} (ser : A -> Json) (p : Prog A) : Prog HttpResponse := a <-| p; p_ret (mkHttp 200 None (JsonBody (ser a))).
Definition p_no_content (p : Prog unit) : Prog HttpResponse := _ <-| p; p_ret (mkHttp 204 None NoBody).

Definition task_of (r : Request) : Prog HttpResponse :=
  match r with
  | RSignup h peer phone => p_json SignupResponse (p_signup h peer phone)
  | RVerify h peer phone code => p_json VerifyResponse (p_verify h peer phone code)
  | RClaimUsername h n => p_json UsernameResponse (p_claim h n)
  | RUsernameLookup h n k => p_json UsernameLookupResponse (p_lookup h n k)
  | RGetSearchable h => p_json SearchableResponse (p_get_searchable h)
  | RSetSearchable h b o => p_no_content (p_set_searchable h b o)
  | RAttestationTokens h => p_json AttestationTokensResponse (p_tokens h)
  | RDeleteAccount h => p_no_content (p_delete h)
  | RSearch h p => p_json SearchResponse (p_search h p)
  | RSetBootstrap h l => p_no_content (p_set_bootstrap h l)
  | RRequestBootstrap h u => p_json PairingBootstrapResponse (p_request_bootstrap h u)
  | RPutBackup h q => p_no_content (p_put_backup h q)
  | RRestoreBegin phone code => p_json RestoreBeginResponseJson (p_begin phone code)
  | RRestoreComplete tok m a => p_json RestoreCompleteResponse (p_complete tok m a)
  end.

(** The response of a task that has ended. *)
Definition response_of (r : result HttpResponse ApiError) : HttpResponse := match r with Ok h => h | Err e => into_response e end.

(** ** A program alone is its handler *)

Lemma alone_require b e d : alone (p_require b e) d = require b e d.
Proof. by destruct b. Qed.

Ltac alone_step :=
  lazymatch goal with
  | |- alone (p_bind _ _) _ = d_bind _ _ _ => apply alone_seq; [intros ?|intros ? ?]
  | |- alone (atomic _) _ = _ => apply alone_atomic
  | |- alone (p_require _ _) _ = _ => apply alone_require
  end.
Ltac alone_steps := repeat first [alone_step | reflexivity].

Lemma alone_authenticate h d : alone (p_authenticate h) d = authenticate E h d.
Proof. unfold p_authenticate, authenticate. alone_steps. Qed.
Lemma alone_check_ip h peer d : alone (p_check_ip h peer) d = check_ip E h peer d.
Proof. unfold p_check_ip, check_ip. alone_steps. Qed.
Lemma alone_cooldown h d : alone (p_cooldown h) d = check_cooldown E h d.
Proof. unfold p_cooldown, check_cooldown. alone_steps. Qed.
Lemma alone_caller u d : alone (p_caller u) d = check_caller E u d.
Proof. unfold p_caller, check_caller. alone_steps. Qed.

Lemma alone_claim h n d : alone (p_claim h n) d = claim_username_handler E h n d.
Proof.
  unfold p_claim, claim_username_handler. apply alone_seq; [apply alone_authenticate|]. intros u d1.
  unfold claim_username. rewrite alone_bind. unfold d_bind at 1 2, d_map_err, d_of_result at 1.
  destruct (validate_nickname n); [|done]. cbn [map_err alone p_result].
  unfold d_of_result, d_bind, internal, d_map_err. cbn [p_bind alone atomic claim_width claim_taken fst snd].
  match goal with |- context [claim_write ?u ?n ?s ?w d1] =>
    change (claim_write u n s w d1) with
      (db_call E (fun t =>
         match claim_slot (taken_discriminators n t) 9 (default MIN_DISCRIMINATOR_WIDTH (nickname_widths t !! n)) with
         | Err e => Some (t, Err e)
         | Ok (slot, width) =>
             if handle_taken n (as_i32 slot) (as_i64 u) t then None
             else Some (mkTables (alter (set_handle n (as_i32 slot)) (as_i64 u) (users t))
                          (next_user_id t) (<[n:=width]> (nickname_widths t)) (phone_cooldown t)
                          (pairing_bootstrap t) (sessions t) (backups t), Ok (slot, width))
         end) d1) end.
  by destruct (db_call E _ d1) as [d' [[[slot w]|e]|y]].
Qed.

Lemma alone_delete h d : alone (p_delete h) d = delete_account E h d.
Proof.
  unfold p_delete, delete_account. apply alone_seq; [apply alone_authenticate|]. intros u d1. cbn [p_bind alone atomic erase_read fst snd].
  assert (Ew : erase_write u (u_phone_hash <$> users (tables d1) !! as_i64 u) d1 = erase_user E u d1).
  { unfold erase_write, erase_user, db_call. destruct (d_db_ok E (io d1)); [|done]. by destruct (users (tables d1) !! as_i64 u). }
  unfold internal, d_map_err. rewrite Ew. by destruct (erase_user E u d1).
Qed.

Lemma alone_handle_for u d :
  alone (p_handle_for u) d = (let '(d', r) := handle_for E u d in (d', Ok match r with Ok o => o | Err _ => None end)).
Proof.
  unfold p_handle_for, handle_for, d_bind, d_try. cbn [p_bind alone atomic fst snd].
  destruct (db_read E _ d) as [d1 [[[n k]|]|e]]; cbn [p_bind alone atomic p_ret fst snd]; [|done|done].
  by destruct (db_read E _ d1) as [d2 [w|e]].
Qed.
Lemma alone_results l d : alone (p_results l) d = search_results E l d.
Proof.
  revert d. induction l as [|x l IH]; intros d; [done|]. cbn [p_results search_results]. rewrite alone_bind. unfold d_bind at 1 2.
  rewrite alone_handle_for. unfold d_try. destruct (handle_for E (pe_user_id x) d) as [d1 r].
  rewrite alone_bind. unfold d_bind. rewrite IH. destruct (search_results E l d1) as [d2 [rest|e]]; [|done].
  by destruct r as [[handle|]|e].
Qed.

Lemma alone_put h q d : alone (p_put_backup h q) d = put_backup E h q d.
Proof.
  unfold p_put_backup, put_backup. apply alone_seq; [apply alone_authenticate|]. intros u d1.
  repeat (apply alone_seq; [reflexivity|]; intros ? ?). cbv zeta. alone_steps.
Qed.

Lemma alone_set_searchable h b o d : alone (p_set_searchable h b o) d = set_searchable_handler E h b o d.
Proof.
  unfold p_set_searchable, set_searchable_handler. apply alone_seq; [apply alone_authenticate|]. intros u d1.
  apply alone_seq; [|intros; apply alone_atomic]. intros d2. destruct b; [|done]. alone_steps.
Qed.

Lemma alone_complete tok m a d : alone (p_complete tok m a) d = restore_complete E app tok m a d.
Proof.
  unfold p_complete, restore_complete. alone_steps.
  match goal with |- alone (match ?x with _ => _ end) _ = _ => destruct x end; alone_steps.
Qed.

(** Run alone, the task of a request is its handler: same effect, same response. *)
Lemma task_alone r d :
  handle_request E app r d = let '(d', x) := alone (task_of r) d in (d', response_of x).
Proof.
  assert (J : forall A (ser : A -> Json) p m, (forall d, alone p d = m d) ->
    json_response ser (m d) = let '(d', x) := alone (p_json ser p) d in (d', response_of x)).
  { intros A ser p m Hp. unfold p_json. rewrite alone_bind. unfold d_bind. rewrite Hp. by destruct (m d) as [d' [a|e]]. }
  assert (N : forall p m, (forall d, alone p d = m d) ->
    no_content (m d) = let '(d', x) := alone (p_no_content p) d in (d', response_of x)).
  { intros p m Hp. unfold p_no_content. rewrite alone_bind. unfold d_bind. rewrite Hp. by destruct (m d) as [d' [a|e]]. }
  destruct r; cbn [handle_request task_of]; (eapply J || eapply N); intros d1.
  - unfold p_signup, signup_handler. repeat first [apply alone_seq; [apply alone_check_ip|intros ? ?]|apply alone_seq; [apply alone_cooldown|intros ? ?]|alone_step|reflexivity].
  - unfold p_verify, verify_handler. repeat first [apply alone_seq; [apply alone_check_ip|intros ? ?]|apply alone_seq; [apply alone_cooldown|intros ? ?]|alone_step|reflexivity].
  - apply alone_claim.
  - unfold p_lookup, username_lookup. apply alone_seq; [apply alone_authenticate|intros ? ?]. alone_steps.
  - unfold p_get_searchable, get_searchable. apply alone_seq; [apply alone_authenticate|intros ? ?]. alone_steps.
  - apply alone_set_searchable.
  - unfold p_tokens, issue_attestation_tokens. apply alone_seq; [apply alone_authenticate|intros ? ?]. alone_steps.
  - apply alone_delete.
  - unfold p_search, search. alone_step; [apply alone_require|]. apply alone_seq; [apply alone_authenticate|intros ? ?].
    apply alone_seq; [apply alone_caller|intros ? ?]. apply alone_seq; [apply alone_require|intros ? ?].
    apply alone_seq; [apply alone_atomic|intros ? ?]. apply alone_results.
  - unfold p_set_bootstrap, set_pairing_bootstrap_handler. apply alone_seq; [apply alone_authenticate|intros ? ?]. alone_steps.
  - unfold p_request_bootstrap, request_pairing_bootstrap. alone_step; [apply alone_require|].
    apply alone_seq; [apply alone_authenticate|intros ? ?]. apply alone_seq; [apply alone_caller|intros ? ?]. alone_steps.
  - apply alone_put.
  - unfold p_begin, restore_begin. alone_steps.
  - apply alone_complete.
Qed.
End Progs.

(** ** Many requests *)

Record Conc := mkConc { c_dir : Dir; c_tasks : list (Prog HttpResponse) }.

Section Conc.
Context {X : HttpExt}.

(** A request that [Q] allows arrives; a task takes its next step; a client goes away and
    its task is dropped where it waits. A task that has ended stays, with its response. *)
Inductive cstep (Q : Request -> Prop) : Conc -> Conc -> Prop :=
| c_arrive E app r d ts : Q r -> cstep Q (mkConc d ts) (mkConc d (ts ++ [task_of E app r]))
| c_advance i f k d ts : ts !! i = Some (PStep f k) -> cstep Q (mkConc d ts) (mkConc (f d) (<[i:=k d]> ts))
| c_drop i f k d ts : ts !! i = Some (PStep f k) -> cstep Q (mkConc d ts) (mkConc d (delete i ts)).

(** ** Rely and guarantee

    [I] is what every task relies on and keeps; [J j], once it holds, is kept too. *)

Section Guarantee.
Context (I : Tables -> Prop) (J : Z -> Tables -> Prop).

Definition stable {Y A} (m : D Y A) : Prop :=
  keeps I m /\ forall j d, I (tables d) -> J j (tables d) -> J j (tables (m d).1).

(** Every step of a program is stable, whatever others did in between. *)
Inductive good {A} : Prog A -> Prop :=
| good_done r : good (PDone r)
| good_step f k :
    (forall d, I (tables d) -> I (tables (f d))) ->
    (forall j d, I (tables d) -> J j (tables d) -> J j (tables (f d))) ->
    (forall d, I (tables d) -> good (k d)) -> good (PStep f k).

Lemma good_bind {A B} (p : Prog A) (k : A -> Prog B) : good p -> (forall a, good (k a)) -> good (p_bind p k).
Proof.
  intros Hp Hk. induction Hp as [[a|e]|f n Hf Hj _ IH]; simpl; [apply Hk|constructor|]. by constructor.
Qed.
Lemma good_atomic {A} (m : D ApiError A) : stable m -> good (atomic m).
Proof.
  intros [Hm Hj]. constructor; [|exact Hj|constructor]. intros d Hd. specialize (Hm d Hd). by destruct (m d) as [d' [a|e]].
Qed.

(** A step that reads: what follows may rely on what it read. *)
Lemma good_read {A B} (g : Tables -> A) (k : A -> Prog B) :
  (forall t, I t -> good (k (g t))) -> good (p_bind (atomic (fun d => (d, Ok (g (tables d))))) k).
Proof. intros Hk. constructor; simpl; [done|done|]. intros d Hd. by apply Hk. Qed.

(** What keeps every property of the tables. *)
Lemma stable_any {Y A} (m : D Y A) : (forall P, keeps P m) -> stable m.
Proof. intros Hm. split; [apply Hm|]. intros j d _ Hd. specialize (Hm (J j) d Hd). by destruct (m d) as [d' [a|e]]. Qed.
Lemma stable_internal {A} (m : D SqlxError A) : stable m -> stable (internal m).
Proof.
  intros [Hm Hj]. split; [by apply keeps_map_err|]. intros j d Hi Hd. specialize (Hj j d Hi Hd).
  unfold internal, d_map_err. by destruct (m d).
Qed.
Lemma stable_call {A} E (f : Tables -> option (Tables * A)) :
  keeps I (db_call E f) -> (forall j t t' a, I t -> J j t -> f t = Some (t', a) -> J j t') -> stable (db_call E f).
Proof.
  intros Hm Hf. split; [done|]. intros j d Hi Hd. unfold db_call. destruct (d_db_ok E (io d)); [|done].
  destruct (f (tables d)) as [[t a]|] eqn:Ef; [|done]. by eapply Hf.
Qed.

Lemma conc_keeps Q c c' :
  (forall E app r, Q r -> good (task_of E app r)) -> rtc (cstep Q) c c' ->
  I (tables (c_dir c)) -> Forall good (c_tasks c) ->
  I (tables (c_dir c')) /\ Forall good (c_tasks c') /\ forall j, J j (tables (c_dir c)) -> J j (tables (c_dir c')).
Proof.
  intros Ht. induction 1 as [c|c1 c2 c3 Hs _ IH]; [done|]. intros Hp Hg.
  destruct Hs as [E app r d ts|i f k d ts Hi|i f k d ts Hi]; simpl in *.
  - apply IH; [done|]. apply Forall_app. auto.
  - pose proof (Forall_lookup_1 _ _ _ _ Hg Hi) as G. inversion G as [|? ? Gi Gj Gk]; subst.
    destruct IH as (H1 & H2 & H3); [by apply Gi|apply Forall_insert; auto|]. auto.
  - apply IH; [done|]. by apply Forall_delete.
Qed.

(** Reads, and what does not go to the database. *)
Section Reads.
Context (E : DirEnv) {Y : Type}.
Lemma stable_read {A} (f : Tables -> A) : stable (db_read E f).
Proof. apply stable_any. intros. apply keeps_read. Qed.
Lemma stable_tries {A} (f : Tables -> A) : stable (d_try (db_read E f) : D Y _).
Proof. apply stable_any. intros. apply keeps_try, keeps_read. Qed.
Lemma stable_limited f : stable (limited f : D Y bool).
Proof. apply stable_any. intros. apply keeps_limited. Qed.
Lemma stable_bucket p : stable (search_by_prefix E p : D Y (list PhoneEntry)).
Proof. apply stable_any. intros. apply keeps_bucket. Qed.
Lemma stable_mint k : stable (mint_batch E k).
Proof. apply stable_any. intros P. unfold mint_batch. generalize BATCH_SIZE. intros n. induction n; simpl; repeat keeps_step; done. Qed.
Lemma stable_restore tok : stable (restore_token_user E tok : D Y _).
Proof. apply stable_any. intros. apply keeps_restore. Qed.
Lemma stable_lookup n k : stable (find_user_by_handle E n k).
Proof. apply stable_any. intros P. apply keeps_select. Qed.
Lemma stable_restore_create u ttl : stable (create_restore_token E u ttl : D Y _).
Proof. apply stable_any. intros P d Hd. exact Hd. Qed.
Lemma stable_restore_consume tok : stable (consume_restore_token tok : D Y _).
Proof. apply stable_any. intros P d Hd. exact Hd. Qed.
Lemma stable_erase_read u : stable (erase_read u : D Y _).
Proof. apply stable_any. intros P d Hd. exact Hd. Qed.
End Reads.

(** What the statements that write promise; links are published where [L] allows it. A
    claim writes by a width that was current at some moment. *)
Class Statements (L : bytes -> Prop) : Prop := {
  st_find E h : stable (find_or_create_pending_user E h);
  st_mark E u : stable (mark_verified E u);
  st_claim E u n taken t :
    I t -> stable (claim_write E u n taken (default MIN_DISCRIMINATOR_WIDTH (nickname_widths t !! n)));
  st_searchable E u b h : stable (set_searchable E u b h);
  st_erase E u h : stable (erase_write E u h);
  st_set_bootstrap E u l : L l -> stable (set_pairing_bootstrap E u l);
  st_consume_bootstrap E u : stable (consume_pairing_bootstrap E u);
  st_upsert E u b : stable (upsert_backup E u b);
  st_session E u : stable (create_session E u);
  st_backup_auth E u a p : stable (verify_backup_auth E u a p);
}.
End Guarantee.

#[local] Hint Resolve st_find st_mark st_searchable st_erase st_set_bootstrap st_consume_bootstrap st_upsert st_session
  st_backup_auth stable_read stable_lookup stable_tries stable_limited stable_bucket stable_mint stable_restore stable_restore_create
  stable_restore_consume stable_erase_read : conc.

(** Every step of every task keeps the promise. *)
Ltac good_step :=
  lazymatch goal with
  | |- good _ _ (p_bind _ _) => apply good_bind; [|intros ?]
  | |- good _ _ (atomic (internal _)) => apply good_atomic, stable_internal
  | |- good _ _ (atomic _) => apply good_atomic
  | |- good _ _ (match ?x with _ => _ end) => destruct x
  | |- good _ _ (p_json _ _) => apply good_bind; [|intros ?]
  | |- good _ _ (p_no_content _) => apply good_bind; [|intros ?]
  | |- good _ _ _ => constructor
  | |- stable _ _ _ => solve [eauto with conc | apply stable_read]
  end.

(** The links a request publishes. *)
Definition publishes (L : bytes -> Prop) (r : Request) : Prop := match r with RSetBootstrap _ l => L l | _ => True end.

Section Tasks.
Context (I : Tables -> Prop) (J : Z -> Tables -> Prop) (L : bytes -> Prop) {St : Statements I J L} (E : DirEnv).

Lemma good_authenticate h : good I J (p_authenticate E h).
Proof. unfold p_authenticate. repeat good_step. Qed.
Lemma good_check_ip h p : good I J (p_check_ip E h p).
Proof. unfold p_check_ip. repeat good_step. Qed.
Lemma good_cooldown h : good I J (p_cooldown E h).
Proof. unfold p_cooldown. repeat good_step. Qed.
Lemma good_caller u : good I J (p_caller E u).
Proof. unfold p_caller. repeat good_step. Qed.
Lemma good_claim h n : good I J (p_claim E h n).
Proof.
  unfold p_claim. apply good_bind; [apply good_authenticate|]. intros u. apply good_bind; [constructor|]. intros _.
  apply (good_read _ _ (fun t => default MIN_DISCRIMINATOR_WIDTH (nickname_widths t !! n))). intros t Ht.
  apply (good_read _ _ (fun t => taken_discriminators n t)). intros t' _.
  apply good_bind; [|intros; repeat good_step]. by apply good_atomic, stable_internal, (st_claim I J).
Qed.
Lemma good_results l : good I J (p_results E l).
Proof. induction l as [|x l IH]; cbn [p_results]; unfold p_handle_for; repeat first [exact IH | good_step]. Qed.

Lemma good_task app r : publishes L r -> good I J (task_of E app r).
Proof.
  intros HL. destruct r; cbn [task_of publishes] in *;
    unfold p_signup, p_verify, p_lookup, p_get_searchable, p_set_searchable, p_tokens, p_delete, p_search, p_set_bootstrap,
      p_request_bootstrap, p_put_backup, p_begin, p_complete;
    repeat first [ apply good_authenticate | apply good_check_ip | apply good_cooldown | apply good_caller
                 | apply good_claim | apply good_results | good_step ].
Qed.
End Tasks.

(** ** Consistency

    A claim that waited may write a width that others have since widened. The widths the
    invariant of the tables speaks of are therefore ghosts: the widest ever written. *)

Definition with_widths (ws : gmap bytes Z) (t : Tables) : Tables :=
  mkTables (users t) (next_user_id t) ws (phone_cooldown t) (pairing_bootstrap t) (sessions t) (backups t).

Definition dir_safe (t : Tables) : Prop :=
  (exists ws, dir_ok (with_widths ws t)) /\
  forall n w, nickname_widths t !! n = Some w -> MIN_DISCRIMINATOR_WIDTH <= w <= 9.

Lemma dir_ok_safe t : dir_ok t -> dir_safe t.
Proof. intros O. split; [|apply O]. exists (nickname_widths t). by destruct t. Qed.

(** A statement that neither reads nor writes the widths. *)
Definition blind {A} (f : Tables -> option (Tables * A)) : Prop :=
  forall ws t, f (with_widths ws t) = (fun r => (with_widths ws r.1, r.2)) <$> f t.

(** The machine of a request, with a database that answers. *)
Definition answering (E : DirEnv) : DirEnv := mkDirEnv (d_unix E) (d_mono E) (d_rng E) (fun _ => true).

Lemma keeps_blind {A} E (f : Tables -> option (Tables * A)) :
  blind f -> keeps dir_ok (db_call (answering E) f) -> keeps dir_safe (db_call E f).
Proof.
  intros Hb Hk. apply keeps_call. intros t t' a [[ws O] Hw] Hf.
  assert (Hsame : with_widths (nickname_widths t) t = t) by by destruct t.
  assert (Ew : nickname_widths t' = nickname_widths t).
  { pose proof (Hb (nickname_widths t) t) as H. rewrite Hsame, Hf in H. injection H as H. by rewrite H. }
  split; [|by rewrite Ew]. exists ws.
  pose proof (Hb ws t) as H. rewrite Hf in H. simpl in H.
  specialize (Hk (mkDir (with_widths ws t) ∅ ∅ 0) O). unfold db_call, on_tables in Hk. simpl in Hk. by rewrite H in Hk.
Qed.

Lemma live_by_phone_blind ws h t : live_by_phone h (with_widths ws t) = live_by_phone h t.
Proof. done. Qed.

(** ** Tombstones *)

Definition erased (u : User) : Prop := live u = false /\ u_phone_hash u = [] /\ u_phone_hash_prefix u = [].
Definition tomb (id : Z) (t : Tables) : Prop := exists u, users t !! id = Some u /\ erased u.

Lemma tomb_alter f i id t t' :
  (forall u, erased u -> erased (f u)) -> users t' = alter f i (users t) -> tomb id t -> tomb id t'.
Proof.
  intros Hf Eu (u & Hu & He). unfold tomb. rewrite Eu. destruct (decide (i = id)) as [->|Hne].
  - exists (f u). rewrite lookup_alter_eq, Hu. auto.
  - exists u. by rewrite lookup_alter_ne.
Qed.
(** An update that leaves erased rows erased. *)
Ltac alter_erased := eapply tomb_alter; [|reflexivity|eassumption]; intros ? (? & ? & ?); by split.

Lemma tomb_same id t t' : users t' = users t -> tomb id t -> tomb id t'.
Proof. unfold tomb. by intros ->. Qed.

(** The session of an account that is gone opens nothing. *)
Lemma tomb_no_session E h d d' id : tomb id (tables d) -> authenticate E h d <> (d', Ok id).
Proof.
  intros (u & Hu & Hl & _) H. unfold authenticate in H. dinv H. unfold session_user_id in *.
  match goal with H1 : db_read _ _ _ = _ |- _ => apply db_read_run in H1 as (Ea & _) end. subst.
  repeat case_match; simplify_eq. bools. congruence.
Qed.

Section Statements.
Context (E : DirEnv).

Lemma safe_find h : keeps dir_safe (find_or_create_pending_user E h).
Proof.
  apply keeps_blind; [|apply (ok_find (answering E))]. intros ws t. unfold upsert_pending.
  rewrite live_by_phone_blind. change (next_user_id (with_widths ws t)) with (next_user_id t).
  destruct (i64_max <? next_user_id t); [done|]. by destruct (live_by_phone h t) as [[i u]|].
Qed.
Lemma safe_mark u : keeps dir_safe (mark_verified E u).
Proof. apply keeps_blind; [done|apply (ok_mark (answering E))]. Qed.
Lemma safe_searchable u b h : keeps dir_safe (set_searchable E u b h).
Proof.
  pose proof (ok_searchable (answering E) u b h) as K. unfold set_searchable in *.
  destruct b, h as [x|]; (apply keeps_blind; [|exact K]); intros ws t; try done. by destruct (pg_text x && _).
Qed.
Lemma safe_erase u h : keeps dir_safe (erase_write E u h).
Proof.
  apply keeps_blind; [done|]. apply keeps_call. intros t t' a O H. cbn zeta in H. simplify_eq.
  eapply dir_ok_mild; try done. intros u0. split; [intros L; discriminate L|]. split; [done|].
  split; [done|]. intros _. by unfold search_ok.
Qed.
Lemma safe_set_bootstrap u l : keeps dir_safe (set_pairing_bootstrap E u l).
Proof.
  apply keeps_blind; [|apply (ok_set_bootstrap (answering E))]. intros ws t. simpl.
  destruct (pg_text l); [|done]. by destruct (users t !! as_i64 u).
Qed.
Lemma safe_consume_bootstrap u : keeps dir_safe (consume_pairing_bootstrap E u).
Proof.
  apply keeps_blind; [|apply (ok_consume_bootstrap (answering E))]. intros ws t. simpl.
  destruct (pairing_bootstrap t !! as_i64 u) as [[l x]|]; [|done]. destruct (users t !! as_i64 u) as [v|]; [|done].
  by destruct (u_searchable v && live v).
Qed.
Lemma safe_upsert u b : keeps dir_safe (upsert_backup E u b).
Proof. apply keeps_blind; [|apply (ok_upsert (answering E))]. intros ws t. simpl. by destruct (users t !! as_i64 u). Qed.
Lemma safe_session u : keeps dir_safe (create_session E u).
Proof.
  unfold create_session. apply keeps_bind; [apply keeps_draw|]. intros rnd. apply keeps_bind; [|intros; apply keeps_ret].
  apply keeps_blind; [|apply (ok_session_insert (answering E))]. intros ws t. simpl. by destruct (sessions t !! hex rnd).
Qed.
Lemma safe_backup_auth u a p : keeps dir_safe (verify_backup_auth E u a p).
Proof.
  apply keeps_blind; [|apply (ok_backup_auth (answering E))]. intros ws t. simpl.
  destruct (backups t !! as_i64 u) as [b|]; [|done]. by destruct (verify_backup_row _ b a p).
Qed.

(** However old the numbers and the width a claim writes by. *)
Lemma safe_claim u n taken width :
  MIN_DISCRIMINATOR_WIDTH <= width <= 9 -> keeps dir_safe (claim_write E u n taken width).
Proof.
  intros Hw. apply keeps_call. intros t t' a [[ws O] Ht] H.
  destruct (claim_slot taken 9 width) as [[slot w]|e] eqn:Ec; [|simplify_eq; split; eauto].
  apply claim_slot_ok in Ec as (H1 & H2 & H3 & _). assert (Hw' : MIN_DISCRIMINATOR_WIDTH <= w <= 9) by lia.
  rewrite (as_i32_slot slot w) in H by done. destruct (handle_taken _ _ _ _) eqn:Ef; [done|]. simplify_eq.
  split; [|intros m x; simpl; intros [[_ <-]|[_ ?]]%lookup_insert_Some; [done|by eapply Ht]].
  set (w' := Z.max w (default w (ws !! n))). exists (<[n:=w']> ws).
  apply (dir_ok_handle (as_i64 u) n (with_widths ws t) slot w' O).
  - pose proof (slot_count_mono w w'). unfold MIN_DISCRIMINATOR_WIDTH in *. lia.
  - destruct (ws !! n) as [x|] eqn:Ex; simpl in w'; [pose proof (ok_widths _ O n x Ex)|]; lia.
  - simpl. intros x Hx. unfold w'. rewrite Hx. simpl. lia.
  - intros i v. by apply handle_free.
Qed.

Lemma claim_width_ok n t :
  dir_safe t -> MIN_DISCRIMINATOR_WIDTH <= default MIN_DISCRIMINATOR_WIDTH (nickname_widths t !! n) <= 9.
Proof.
  intros [_ H]. destruct (nickname_widths t !! n) as [w|] eqn:Ew; simpl; [by eapply H|]. unfold MIN_DISCRIMINATOR_WIDTH. lia.
Qed.

Lemma stable_find h : stable dir_safe tomb (find_or_create_pending_user E h).
Proof.
  apply stable_call; [apply safe_find|]. intros j t t' a Hi Hj H.
  apply upsert_pending_inv in H as [_ [(u & _ & ->)|(_ & -> & ->)]]; [by eapply tomb_same|]. destruct Hj as (u & Hu & He).
  exists u. split; [|done]. simpl. rewrite lookup_insert_ne; [done|]. destruct Hi as [[ws O] _]. pose proof (ok_ids _ O _ _ Hu). simpl in *. lia.
Qed.
Lemma stable_mark u : stable dir_safe tomb (mark_verified E u).
Proof. apply stable_call; [apply safe_mark|]. intros j t t' a _ Hj H. simplify_eq. alter_erased. Qed.
Lemma stable_searchable u b h : stable dir_safe tomb (set_searchable E u b h).
Proof.
  pose proof (safe_searchable u b h) as K. unfold set_searchable in *.
  destruct b, h; (apply stable_call; [exact K|]; intros j t t' a _ Hj H; repeat case_match; simplify_eq; alter_erased).
Qed.
Lemma stable_erase u h : stable dir_safe tomb (erase_write E u h).
Proof. apply stable_call; [apply safe_erase|]. intros j t t' a _ Hj H. cbv zeta in H. simplify_eq. alter_erased. Qed.
Lemma stable_claim u n taken width :
  MIN_DISCRIMINATOR_WIDTH <= width <= 9 -> stable dir_safe tomb (claim_write E u n taken width).
Proof.
  intros Hw. apply stable_call; [by apply safe_claim|]. intros j t t' a _ Hj H.
  destruct (claim_slot taken 9 width) as [[slot w]|e]; [|by simplify_eq].
  destruct (handle_taken _ _ _ _); [done|]. simplify_eq. alter_erased.
Qed.

(** The statements that leave the accounts alone. *)
Ltac stable_same K := apply stable_call; [apply K|]; intros; repeat case_match; simplify_eq; try done; by eapply tomb_same.
Lemma stable_set_bootstrap u l : stable dir_safe tomb (set_pairing_bootstrap E u l).
Proof. stable_same safe_set_bootstrap. Qed.
Lemma stable_consume_bootstrap u : stable dir_safe tomb (consume_pairing_bootstrap E u).
Proof. stable_same safe_consume_bootstrap. Qed.
Lemma stable_upsert u b : stable dir_safe tomb (upsert_backup E u b).
Proof. stable_same safe_upsert. Qed.
Lemma stable_backup_auth u a p : stable dir_safe tomb (verify_backup_auth E u a p).
Proof. stable_same safe_backup_auth. Qed.
Lemma stable_session u : stable dir_safe tomb (create_session E u).
Proof.
  split; [apply safe_session|]. intros j d _ Hd. unfold create_session, d_bind, draw, db_call. simpl.
  destruct (d_db_ok E _); [|done]. by destruct (sessions (tables d) !! _).
Qed.
End Statements.

#[local] Instance dir_statements : Statements dir_safe tomb (fun _ => True).
Proof.
  split; intros; [apply stable_find|apply stable_mark|by apply stable_claim, claim_width_ok|apply stable_searchable|apply stable_erase
    |apply stable_set_bootstrap|apply stable_consume_bootstrap|apply stable_upsert|apply stable_session|apply stable_backup_auth].
Qed.

(** Any request. *)
Definition any_request (r : Request) : Prop := True.
Lemma good_any E app r : any_request r -> good dir_safe tomb (task_of E app r).
Proof. intros _. apply (good_task dir_safe tomb (fun _ => True)). by destruct r. Qed.

(** What holds of the tables at every moment. *)
Record consistent (t : Tables) : Prop := {
  cs_ids i u : users t !! i = Some u -> 1 <= i < next_user_id t /\ next_user_id t <= i64_max + 1;
  cs_phone i j u v : users t !! i = Some u -> users t !! j = Some v -> live u = true -> live v = true ->
    u_phone_hash u = u_phone_hash v -> i = j;
  cs_handles i j u v n k : users t !! i = Some u -> users t !! j = Some v ->
    u_nickname u = Some n -> u_nickname v = Some n -> u_discriminator u = Some k -> u_discriminator v = Some k -> i = j;
  cs_number i u n : users t !! i = Some u -> u_nickname u = Some n -> exists k, u_discriminator u = Some k /\ 1 <= k <= slot_count 9;
  cs_widths n w : nickname_widths t !! n = Some w -> MIN_DISCRIMINATOR_WIDTH <= w <= 9;
  cs_search i u : users t !! i = Some u -> search_ok u;
}.

Lemma safe_consistent t : dir_safe t -> consistent t.
Proof.
  intros [[ws O] Hw]. destruct O as [O1 O2 O3 O4 O5 O6 O7]. split; try done; simpl in *.
  - intros i u Hu. specialize (O2 i u Hu). lia.
  - intros i u n Hu Hn. destruct (O6 i u n Hu Hn) as (k & w & Hk & Hx & Hr). exists k. split; [done|].
    pose proof (O5 n w Hx). unfold MIN_DISCRIMINATOR_WIDTH in *. pose proof (slot_count_mono w 9). lia.
Qed.

(** C13: the directory stays consistent however the steps of concurrent requests
    interleave, with any vendor answers, database failures and clients that go away: at
    most one live account per phone number, no two accounts with the same handle, search
    hashes only for accounts that opted in. An account that has been erased, whatever
    requests of its owner are still under way, stays erased, without its phone hash, and
    nobody authenticates as it again. *)
Theorem interleaved_consistent d c1 c2 :
  dir_ok (tables d) -> rtc (cstep any_request) (mkConc d []) c1 -> rtc (cstep any_request) c1 c2 ->
  consistent (tables (c_dir c2)) /\
  forall id, tomb id (tables (c_dir c1)) ->
    tomb id (tables (c_dir c2)) /\ forall E h d', authenticate E h (c_dir c2) <> (d', Ok id).
Proof.
  intros O R1 R2.
  destruct (conc_keeps dir_safe tomb _ _ _ good_any R1 (dir_ok_safe _ O) (Forall_nil_2 _)) as (S1 & G1 & _).
  destruct (conc_keeps dir_safe tomb _ _ _ good_any R2 S1 G1) as (S2 & _ & K2).
  split; [by apply safe_consistent|]. intros id Hid. split; [by apply K2|]. intros E h d'. by apply tomb_no_session, K2.
Qed.

(** ** Schedules *)

Definition arrive (E : DirEnv) (app : App) (r : Request) (c : Conc) : Conc := mkConc (c_dir c) (c_tasks c ++ [task_of E app r]).
Definition advance (c : Conc) (i : nat) : Conc :=
  match c_tasks c !! i with
  | Some (PStep f k) => mkConc (f (c_dir c)) (<[i:=k (c_dir c)]> (c_tasks c))
  | _ => c
  end.
(** The response of a task, once it has one. *)
Definition answered (c : Conc) (i : nat) : option HttpResponse :=
  match c_tasks c !! i with Some (PDone r) => Some (response_of r) | _ => None end.

Lemma arrive_steps (Q : Request -> Prop) E app r c : Q r -> rtc (cstep Q) c (arrive E app r c).
Proof. intros Hr. destruct c. by apply rtc_once, c_arrive. Qed.
Lemma schedule_steps Q l c : rtc (cstep Q) c (foldl advance c l).
Proof.
  revert c. induction l as [|i l IH]; intros c; [constructor|]. simpl. etransitivity; [|apply IH]. unfold advance.
  destruct (c_tasks c !! i) as [[r|f k]|] eqn:Ei; [constructor| |constructor]. destruct c. by apply rtc_once, c_advance.
Qed.
End Conc.

(** ** Examples *)

Module ConcExamples.
Import DirScenario DirExamples HttpExamples RestoreExamples.

(** Bob has an account too. *)
Definition bob_phone : bytes := str "+12025550199".
Definition with_bob : Dir * result (Z * bytes * bool) ApiError :=
  verify_handler (at_time 110) app anonymous [2] bob_phone DEV_OTP_CODE findable.
Definition bob : Headers := bearer (match with_bob.2 with Ok (_, t, _) => t | Err _ => [] end).

(** Alice and Bob claim one nickname at the same time. *)
Definition claims : Conc :=
  arrive (at_time 112) app (RClaimUsername bob (str "carol")) (arrive (at_time 111) app (RClaimUsername alice (str "carol")) (mkConc with_bob.1 [])).
Definition claimed : Conc := foldl advance claims [0; 1; 0; 1; 0; 1; 0; 1]%nat.

(** Both read the same numbers, and the second write runs into the unique index: it is
    answered with a server error instead of another discriminator. *)
Theorem concurrent_claims_collide :
  answered claimed 0 = Some (mkHttp 200 None (JsonBody (UsernameResponse (format_handle (str "carol") 1 2)))) /\
  h_status <$> answered claimed 1 = Some 500.
Proof. split; vm_compute; reflexivity. Qed.

(** Alice's upload of a bundle and her change of the search setting are past their
    authentication when her account is erased. *)
Definition leaving : Conc :=
  arrive (at_time 113) app (RDeleteAccount alice)
    (arrive (at_time 112) app (RSetSearchable alice true (Some (replicate 64 98)))
       (arrive (at_time 111) app (RPutBackup alice (encode_bundle upload)) (mkConc findable []))).
Definition left : Conc := foldl advance leaving [0; 1; 2; 2; 2]%nat.
Definition after : Conc := foldl advance left [0; 1]%nat.

Lemma left_steps : rtc (cstep any_request) (mkConc findable []) left.
Proof.
  etransitivity; [|exact (schedule_steps _ [0; 1; 2; 2; 2]%nat leaving)].
  etransitivity; [|exact (arrive_steps _ _ _ _ _ Logic.I)]. etransitivity; [|exact (arrive_steps _ _ _ _ _ Logic.I)]. exact (arrive_steps _ _ _ _ _ Logic.I).
Qed.
Lemma left_tomb : tomb 1 (tables (c_dir left)).
Proof.
  exists (scrub 113 alice_row). split; [vm_compute; reflexivity|]. by split.
Qed.

(** What they write is there after the erasure. *)
Theorem late_writes_survive_erasure :
  backups (tables (c_dir left)) !! 1 = None /\
  b_upload <$> backups (tables (c_dir after)) !! 1 = Some upload /\
  u_phone_search_hash <$> users (tables (c_dir after)) !! 1 = Some (replicate 64 98) /\
  tomb 1 (tables (c_dir after)).
Proof.
  split; [vm_compute; reflexivity|]. split; [vm_compute; reflexivity|]. split; [vm_compute; reflexivity|].
  destruct (conc_keeps dir_safe tomb any_request (mkConc findable []) left good_any) as (S1 & G1 & _).
  - exact left_steps.
  - apply dir_ok_safe, findable_ok.
  - constructor.
  - apply (conc_keeps dir_safe tomb any_request left after good_any (schedule_steps _ _ _) S1 G1), left_tomb.
Qed.

Lemma interleaved_consistent_witness :
  consistent (tables (c_dir after)) /\ tomb 1 (tables (c_dir left)) /\ tomb 1 (tables (c_dir after)).
Proof.
  destruct (interleaved_consistent findable left after findable_ok left_steps (schedule_steps _ _ _)) as [C K].
  split; [exact C|]. split; [exact left_tomb|]. exact (proj1 (K 1 left_tomb)).
Defined.

(** One restore token, presented twice at the same time, releases the bundle twice. *)
Definition twice : Conc :=
  let r := RRestoreComplete (rb_restore_token response) (str "pin") (b64_encode (proof_of true upload)) in
  foldl advance (arrive (at_time 106) app r (arrive (at_time 106) app r (mkConc begun []))) [0; 1; 0; 1; 0; 1]%nat.

Theorem restore_token_spent_twice :
  answered twice 0 = Some (mkHttp 200 None (JsonBody (RestoreCompleteResponse (encode_bundle upload)))) /\
  answered twice 1 = answered twice 0.
Proof. split; vm_compute; reflexivity. Qed.

(** 98 accounts are called carol. Alice claims the name twice at once; one claim gives her
    number 99 and Bob's then widens the name to three digits, number 100; the other, which
    read the numbers before, writes two digits back. *)
Definition carol (i : Z) : Z * User := (i + 100, mkUser [i] [] true (Some (str "carol")) (Some i) false 0 None [] []).
Definition crowded : Dir :=
  let t := tables with_bob.1 in
  set_tables (mkTables (list_to_map (carol <$> seqZ 1 98) ∪ users t) 300 (<[str "carol":=2]> (nickname_widths t))
    (phone_cooldown t) (pairing_bootstrap t) (sessions t) (backups t)) with_bob.1.
Definition rush : Conc :=
  let claim h := arrive (at_time 112) app (RClaimUsername h (str "carol")) in
  foldl advance (claim bob (claim alice (claim alice (mkConc crowded [])))) [0; 0; 0; 1; 1; 1; 1; 2; 2; 2; 2]%nat.

Theorem stale_claim_narrows :
  nickname_widths (tables (c_dir rush)) !! str "carol" = Some 3 /\
  nickname_widths (tables (c_dir (advance rush 0))) !! str "carol" = Some 2 /\
  u_discriminator <$> users (tables (c_dir (advance rush 0))) !! 3 = Some (Some 100).
Proof. split; [|split]; vm_compute; reflexivity. Qed.
End ConcExamples.
