(* ===== verification/DirOnce.v ===== *)
(** * A bootstrap is handed out once, however requests overlap (directory/src/store.rs)

    The statement that reads a pairing bootstrap deletes it, so that a contact link
    published once reaches one requester. The argument is a potential: the rows that hold
    the link, and the responses that carry it, are together never more than before. *)

From S2P Require Import Prelude Text External Proto DirLogic DirStore DirApi DirNames DirInv DirProps DirRestore DirSearch DirStatus DirHttp DirConc.

Section Once.
Context {X : HttpExt} (link : bytes).

(** The rows that hold the link. *)
Definition holders (t : Tables) : nat := size (filter (fun r => r.2.1 = link) (pairing_bootstrap t)).

(** Whether a response carries it. *)
Definition carries (r : HttpResponse) : nat :=
  match h_body r with
  | JsonBody (JObj [(key, JStr l)]) => if bool_decide (key = str "contact_link_b64" /\ l = link) then 1%nat else 0%nat
  | _ => 0%nat
  end.

(** The tasks that were answered with it. *)
Definition handed (p : Prog HttpResponse) : nat := match p with PDone r => carries (response_of r) | PStep _ _ => 0%nat end.
Definition handed_all (ts : list (Prog HttpResponse)) : nat := sum_list_with handed ts.

(** ** Rows *)

Lemma holders_delete i t m : pairing_bootstrap t !! i = Some m ->
  holders t = ((if bool_decide (m.1 = link) then 1 else 0) + size (filter (fun r => r.2.1 = link) (delete i (pairing_bootstrap t))))%nat.
Proof.
  intros Hi. unfold holders. rewrite <- (insert_delete_id _ i m Hi) at 1.
  case_bool_decide as Hm.
  - rewrite map_filter_insert_True by done. rewrite map_size_insert_None; [done|].
    apply map_lookup_filter_None. left. apply lookup_delete_eq.
  - rewrite map_filter_insert_not' by (done || intros y; rewrite lookup_delete_eq; done). done.
Qed.
Lemma holders_delete_le i t : (size (filter (fun r => r.2.1 = link) (delete i (pairing_bootstrap t))) <= holders t)%nat.
Proof.
  destruct (pairing_bootstrap t !! i) as [m|] eqn:Ei; [rewrite (holders_delete i t m Ei); lia|]. by rewrite delete_id.
Qed.
Lemma holders_insert i m t : m.1 <> link ->
  (size (filter (fun r => r.2.1 = link) (<[i:=m]> (pairing_bootstrap t))) <= holders t)%nat.
Proof.
  intros Hm. rewrite <- insert_delete_eq, map_filter_insert_not' by (done || intros y; rewrite lookup_delete_eq; done).
  apply holders_delete_le.
Qed.

(** No statement adds a row with the link, as long as nobody publishes it. *)
Definition at_most (j : Z) (t : Tables) : Prop := Z.of_nat (holders t) <= j.
Definition others (l : bytes) : Prop := l <> link.

Lemma at_most_call {A} E (f : Tables -> option (Tables * A)) :
  (forall t t' a, f t = Some (t', a) -> (holders t' <= holders t)%nat) -> stable (fun _ => True) at_most (db_call E f).
Proof.
  intros Hf. apply stable_call; [by apply keeps_call|]. intros j t t' a _ Hj H. apply Hf in H. unfold at_most in *. lia.
Qed.
Lemma at_most_frame {A} E (f : Tables -> option (Tables * A)) :
  (forall t t' a, f t = Some (t', a) -> pairing_bootstrap t' = pairing_bootstrap t) -> stable (fun _ => True) at_most (db_call E f).
Proof. intros Hf. apply at_most_call. intros t t' a H. apply Hf in H. unfold holders. by rewrite H. Qed.

#[local] Instance once_statements : Statements (fun _ => True) at_most others.
Proof.
  assert (Ks : forall E token u, stable (fun _ => True) at_most (db_call E (fun t =>
    match sessions t !! token with
    | Some _ => None
    | None => Some (set_sessions (<[token:=(as_i64 u, d_unix E)]> (sessions t)) t, tt)
    end))) by (intros; apply at_most_frame; intros; repeat case_match; by simplify_eq).
  split; intros.
  1, 2, 3, 8: apply at_most_frame; intros; unfold upsert_pending in *; cbv zeta in *; repeat case_match; by simplify_eq.
  - unfold set_searchable. destruct b, h; apply at_most_frame; intros; repeat case_match; by simplify_eq.
  - apply at_most_call. intros t t' a H. cbv zeta in H. simplify_eq. apply holders_delete_le.
  - apply at_most_call. intros t t' a H1. destruct (pg_text l); [|done]. destruct (users t !! _); simplify_eq. by apply holders_insert.
  - apply at_most_call. intros t t' a H. repeat case_match; simplify_eq; try done. apply holders_delete_le.
  - split; [by intros d _; destruct (create_session E u d) as [d' [a|e]]|]. intros j d Hi Hd. unfold create_session, d_bind, draw.
    destruct (Ks E (hex (d_rng E (io d))) u) as [_ K].
    specialize (K j (mkDir (tables d) (restore_tokens d) (rate_limiter d) (S (io d))) Hi Hd).
    by destruct (db_call E _ _) as [d' [a|e]].
  - apply at_most_frame. intros. repeat case_match; by simplify_eq.
Qed.

(** ** Programs that pay for what they hand out

    What a result is worth is taken from the rows, in the step that produces it. *)

Definition worth {A} (w : A -> nat) (p : Prog A) : nat := match p with PDone (Ok a) => w a | _ => 0%nat end.

Inductive pays {A} (w : A -> nat) : Prog A -> Prop :=
| pays_done r : pays w (PDone r)
| pays_step f k :
    (forall d, (holders (tables (f d)) + worth w (k d) <= holders (tables d))%nat) ->
    (forall d, pays w (k d)) -> pays w (PStep f k).

Lemma worth_bind {A B} (w : A -> nat) (w' : B -> nat) (p : Prog A) (k : A -> Prog B) :
  (forall a, (worth w' (k a) <= w a)%nat) -> (worth w' (p_bind p k) <= worth w p)%nat.
Proof. intros Hk. destruct p as [[a|e]|f n]; simpl; [apply Hk|lia|lia]. Qed.

Lemma pays_bind {A B} (w : A -> nat) (w' : B -> nat) (p : Prog A) (k : A -> Prog B) :
  pays w p -> (forall a, (worth w' (k a) <= w a)%nat /\ pays w' (k a)) -> pays w' (p_bind p k).
Proof.
  intros Hp Hk. induction Hp as [[a|e]|f n Hf _ IH]; simpl; [apply Hk|constructor|]. constructor; [|done].
  intros d. pose proof (worth_bind w w' (n d) k (fun a => proj1 (Hk a))). specialize (Hf d). lia.
Qed.

(** Results that are worth nothing. *)
Fixpoint idle {A} (w : A -> nat) (p : Prog A) : Prop :=
  match p with
  | PDone _ => worth w p = 0%nat
  | PStep _ k => forall d, idle w (k d)
  end.

Lemma idle_bind {A B} (w : B -> nat) (p : Prog A) (k : A -> Prog B) : (forall a, idle w (k a)) -> idle w (p_bind p k).
Proof. intros Hk. induction p as [[a|e]|f n IH]; simpl; [apply Hk|done|done]. Qed.
Lemma idle_zero {A} (p : Prog A) : idle (fun _ => 0%nat) p.
Proof. induction p as [[a|e]|f n IH]; simpl; done. Qed.
Lemma idle_worth {A} (w : A -> nat) (p : Prog A) : idle w p -> worth w p = 0%nat.
Proof. by destruct p. Qed.

(** A program that has handed out nothing yet. *)
Definition fresh {A} (w : A -> nat) (p : Prog A) : Prop := worth w p = 0%nat /\ pays w p.

Lemma good_fresh {A} (w : A -> nat) (p : Prog A) : good (fun _ => True) at_most p -> idle w p -> fresh w p.
Proof.
  intros Hp Hs. split; [by apply idle_worth|].
  induction Hp as [r|f k _ Hj _ IH]; simpl in Hs; constructor; [|by intros d; apply IH].
  intros d. rewrite (idle_worth w (k d)) by done.
  specialize (Hj (Z.of_nat (holders (tables d))) d I). unfold at_most in Hj. lia.
Qed.

(** A part that costs nothing, before the rest. *)
Lemma fresh_bind {A B} (w : B -> nat) (p : Prog A) (k : A -> Prog B) :
  good (fun _ => True) at_most p -> (forall a, fresh w (k a)) -> fresh w (p_bind p k).
Proof.
  intros Hp Hk. destruct (good_fresh (fun _ => 0%nat) p Hp (idle_zero p)) as [H0 H1].
  assert (Hle : forall a, (worth w (k a) <= 0)%nat) by (intros a; destruct (Hk a); lia). split.
  - pose proof (worth_bind (fun _ => 0%nat) w p k Hle). lia.
  - eapply pays_bind; [exact H1|]. intros a. split; [apply Hle|apply Hk].
Qed.

Definition link_worth (l : bytes) : nat := if bool_decide (l = link) then 1%nat else 0%nat.

Lemma consume_pays E u :
  pays (fun o => match o with Some l => link_worth l | None => 0%nat end) (atomic (internal (consume_pairing_bootstrap E u))).
Proof.
  constructor; [|constructor]. intros d. unfold internal, d_map_err, consume_pairing_bootstrap, db_call.
  destruct (d_db_ok E (io d)); [|simpl; lia].
  destruct (pairing_bootstrap (tables d) !! as_i64 u) as [[l x]|] eqn:Eb; [|simpl; lia].
  destruct (users (tables d) !! as_i64 u) as [v|]; [|simpl; lia].
  destruct (u_searchable v && live v); [|simpl; lia].
  rewrite (holders_delete (as_i64 u) (tables d) (l, x) Eb). unfold link_worth, holders. simpl. lia.
Qed.

Lemma request_fresh E app h u : fresh link_worth (p_request_bootstrap E app h u).
Proof.
  unfold p_request_bootstrap. apply fresh_bind; [constructor|]. intros _. apply fresh_bind; [apply good_authenticate|]. intros c.
  apply fresh_bind; [apply good_caller|]. intros _. split; [done|].
  eapply pays_bind; [apply consume_pays|]. intros [l|]; split; simpl; try lia; constructor.
Qed.

Lemma task_fresh E app r : publishes others r -> fresh carries (task_of E app r).
Proof.
  intros Hr. assert (G := good_task _ _ others E app r Hr).
  destruct r; try (apply good_fresh; [exact G|]; apply idle_bind; intros a; reflexivity).
  destruct (request_fresh E app h user_id) as [H0 H1].
  assert (Hk : forall l, (worth carries (p_ret (mkHttp 200 None (JsonBody (PairingBootstrapResponse l)))) <= link_worth l)%nat).
  { intros l. simpl. unfold carries, link_worth. simpl. case_bool_decide as Hc; case_bool_decide; try lia. by destruct Hc. }
  split.
  - pose proof (worth_bind link_worth carries (p_request_bootstrap E app h user_id) _ Hk). cbn [task_of]. unfold p_json. lia.
  - eapply (pays_bind link_worth); [exact H1|]. intros l. split; [apply Hk|constructor].
Qed.

(** ** All tasks *)

Lemma handed_worth p : handed p = worth carries p.
Proof. destruct p as [[h|e]|f k]; [done| |done]. simpl. unfold carries, into_response, error_json. simpl.
  repeat case_match; by simplify_eq.
Qed.

Lemma handed_insert i p q ts : ts !! i = Some q ->
  (handed_all (<[i:=p]> ts) + handed q = handed_all ts + handed p)%nat.
Proof.
  unfold handed_all. revert i. induction ts as [|x ts IH]; intros [|i] Hi; [done|done|injection Hi as ->|].
  - simpl. lia.
  - specialize (IH i Hi). change (<[S i:=p]> (x :: ts)) with (x :: <[i:=p]> ts). simpl sum_list_with. lia.
Qed.
Lemma handed_delete i ts : (handed_all (delete i ts) <= handed_all ts)%nat.
Proof. unfold handed_all. revert i. induction ts as [|x ts IH]; intros [|i]; simpl; [lia..|]. specialize (IH i). lia. Qed.

Lemma once_step c c' : cstep (publishes others) c c' -> Forall (pays carries) (c_tasks c) ->
  (holders (tables (c_dir c')) + handed_all (c_tasks c') <= holders (tables (c_dir c)) + handed_all (c_tasks c))%nat /\
  Forall (pays carries) (c_tasks c').
Proof.
  intros Hs Hp. destruct Hs as [E app r d ts Hr|i f k d ts Hi|i f k d ts Hi]; simpl in *.
  - destruct (task_fresh E app r Hr) as [H0 H1]. split; [|apply Forall_app; auto]. rewrite <- handed_worth in H0.
    unfold handed_all. rewrite sum_list_with_app. simpl. lia.
  - pose proof (Forall_lookup_1 _ _ _ _ Hp Hi) as G. inversion G as [|? ? Gf Gk]; subst.
    split; [|apply Forall_insert; auto]. pose proof (handed_insert i (k d) _ ts Hi) as H. simpl in H.
    specialize (Gf d). rewrite <- handed_worth in Gf. lia.
  - split; [|by apply Forall_delete]. pose proof (handed_delete i ts). lia.
Qed.

Lemma once_run c c' : rtc (cstep (publishes others)) c c' -> Forall (pays carries) (c_tasks c) ->
  (holders (tables (c_dir c')) + handed_all (c_tasks c') <= holders (tables (c_dir c)) + handed_all (c_tasks c))%nat.
Proof.
  induction 1 as [c|c1 c2 c3 Hs _ IH]; intros Hp; [lia|]. destruct (once_step _ _ Hs Hp) as [H1 H2]. specialize (IH H2). lia.
Qed.

Lemma answered_handed c i p : c_tasks c !! i = Some p ->
  answered c i = Some (mkHttp 200 None (JsonBody (PairingBootstrapResponse link))) -> handed p = 1%nat.
Proof.
  unfold answered. intros ->. destruct p as [r|f k]; [|done]. intros [= Hr]. simpl. rewrite Hr. unfold carries. simpl.
  by rewrite bool_decide_eq_true_2.
Qed.
Lemma handed_at i p ts : ts !! i = Some p -> (handed p <= handed_all ts)%nat.
Proof.
  intros Hi. pose proof (handed_insert i (PDone (Err Internal)) p ts Hi) as H. change (handed (PDone (Err Internal))) with 0%nat in H. lia.
Qed.
Lemma handed_two i j c : i <> j ->
  answered c i = Some (mkHttp 200 None (JsonBody (PairingBootstrapResponse link))) ->
  answered c j = Some (mkHttp 200 None (JsonBody (PairingBootstrapResponse link))) -> (2 <= handed_all (c_tasks c))%nat.
Proof.
  intros Hne Hi Hj. destruct (c_tasks c !! i) as [p|] eqn:Ei; [|unfold answered in Hi; by rewrite Ei in Hi].
  destruct (c_tasks c !! j) as [q|] eqn:Ej; [|unfold answered in Hj; by rewrite Ej in Hj].
  pose proof (answered_handed c i p Ei Hi). pose proof (answered_handed c j q Ej Hj).
  pose proof (handed_insert i (PDone (Err Internal)) p (c_tasks c) Ei) as H1. change (handed (PDone (Err Internal))) with 0%nat in H1.
  assert (Ej' : <[i:=PDone (Err Internal)]> (c_tasks c) !! j = Some q) by by rewrite list_lookup_insert_ne.
  apply handed_at in Ej'. lia.
Qed.

(** C28: a contact link that is published once is handed out at most once, however the
    statements of concurrent requests interleave: the bootstraps that hold it and the
    responses that carry it are together never more than the bootstraps that held it at
    first. With one of them, no two requests are answered with the link. *)
Theorem bootstrap_handed_out_once d c :
  rtc (cstep (publishes others)) (mkConc d []) c ->
  (holders (tables (c_dir c)) + handed_all (c_tasks c) <= holders (tables d))%nat /\
  forall i j, holders (tables d) = 1%nat -> i <> j ->
    answered c i = Some (mkHttp 200 None (JsonBody (PairingBootstrapResponse link))) ->
    answered c j <> Some (mkHttp 200 None (JsonBody (PairingBootstrapResponse link))).
Proof.
  intros R. assert (H : (holders (tables (c_dir c)) + handed_all (c_tasks c) <= holders (tables d))%nat).
  { pose proof (once_run _ _ R (Forall_nil_2 _)) as H. change (handed_all (c_tasks (mkConc d []))) with 0%nat in H. cbn [c_dir] in H. lia. }
  split; [done|]. intros i j H1 Hne Hi Hj. pose proof (handed_two i j c Hne Hi Hj). lia.
Qed.
End Once.

(** ** Examples *)

Module OnceExamples.
Import DirScenario DirExamples HttpExamples SearchExamples.

(** Two requests for Alice's bootstrap at the same time. *)
Definition asking : Conc :=
  arrive (at_time 105) app (RRequestBootstrap alice 1) (arrive (at_time 105) app (RRequestBootstrap alice 1) (mkConc published [])).
Definition asked : Conc := foldl advance asking [0; 1; 0; 1; 0; 1; 1; 0]%nat.

Lemma asked_steps : rtc (cstep (publishes (others (str "link")))) (mkConc published []) asked.
Proof.
  etransitivity; [|exact (schedule_steps _ [0; 1; 0; 1; 0; 1; 1; 0]%nat asking)].
  unfold asking. etransitivity; [|by refine (arrive_steps _ _ _ _ _ _)]. by refine (arrive_steps _ _ _ _ _ _).
Qed.
Lemma published_holders : holders (str "link") (tables published) = 1%nat.
Proof. vm_compute. reflexivity. Qed.
Lemma asked_second : answered asked 1 = Some (mkHttp 200 None (JsonBody (PairingBootstrapResponse (str "link")))).
Proof. vm_compute. reflexivity. Qed.

Lemma bootstrap_handed_out_once_witness :
  answered asked 1 = Some (mkHttp 200 None (JsonBody (PairingBootstrapResponse (str "link")))) /\
  answered asked 0 <> Some (mkHttp 200 None (JsonBody (PairingBootstrapResponse (str "link")))).
Proof.
  split; [exact asked_second|].
  exact (proj2 (bootstrap_handed_out_once (str "link") published asked asked_steps) 1%nat 0%nat published_holders
           ltac:(discriminate) asked_second).
Defined.
End OnceExamples.
