(* ===== verification/CoreBackup.v ===== *)
(** * Account recovery (core/src/backup.rs)

    The recovery bundle: a blob sealed under a random key, that key wrapped under
    the PIN and under the phrase, and two salted proofs for the directory. The
    random bytes of a call are arguments. [None] is a panic: of [expect] on the key
    derivation, or of indexing the word list. *)

From S2P Require Import Prelude Text External.

Definition BK_LEN : Z := 32.
Definition SALT_LEN : Z := 16.
Definition NONCE_LEN : Z := 24.
Definition PHRASE_WORDS : nat := 5.

Inductive BackupError := InvalidPin | WrongSecret | BackupEncode.

Record BackupBundle := mkBundle {
  bb_blob : bytes;
  bb_w_pin : bytes;
  bb_salt_p : bytes;
  bb_w_phrase : bytes;
  bb_salt_f : bytes;
  bb_auth_pin : bytes;
  bb_salt_a : bytes;
  bb_auth_phrase : bytes;
  bb_salt_pa : bytes;
}.

Record BackupPayload := mkPayload {
  bp_identity : option bytes;
  bp_username : option bytes;
  bp_contacts : list bytes;
}.

Definition validate_pin (pin : bytes) : bool :=
  (4 <=? len pin) && (len pin <=? 6) && forallb is_ascii_digit pin.

Definition normalize_phrase `{Lowercase} (input : bytes) : bytes :=
  join_sp (str_to_lowercase <$> split_whitespace input).

(** [words] are the lines of the embedded list, [draws] the results of
    [gen_range(0..words.len())], one for each of the [PHRASE_WORDS] words. *)
Definition generate_phrase (words : list bytes) (draws : list nat) : option bytes :=
  join_sp <$> mapM (fun k => i ← draws !! k; words !! i) (seq 0 PHRASE_WORDS).

Section Backup.
Context `{Argon2Recovery, XChaCha20Poly1305, Sha256}.

Definition derive (secret salt : bytes) : option bytes := argon2id_recovery secret salt.

(** The nonce, then the ciphertext. *)
Definition aead_seal (key nonce plaintext : bytes) : bytes := nonce ++ aead_encrypt key nonce plaintext.

Definition aead_open (key data : bytes) : result bytes BackupError :=
  if len data <? NONCE_LEN then Err WrongSecret
  else ok_or (aead_decrypt key (take 24 data) (drop 24 data)) WrongSecret.

Definition auth_hash (secret salt : bytes) : option bytes := sha256 <$> derive secret salt.

Definition seal_blob (bk nonce payload : bytes) : bytes := aead_seal bk nonce payload.
Definition open_blob (bk blob : bytes) : result bytes BackupError := aead_open bk blob.

Definition unwrap_bk (secret salt wrapped : bytes) : option (result bytes BackupError) :=
  k ← derive secret salt;
  Some (bk <-? aead_open k wrapped; if len bk =? BK_LEN then Ok bk else Err WrongSecret).

Definition wrap_bk (secret salt nonce bk : bytes) : option bytes :=
  k ← derive secret salt; Some (aead_seal k nonce bk).

(** The random bytes of [build_bundle], in the order it draws them. *)
Record BundleRandom := mkRandom {
  r_salt_p : bytes; r_salt_f : bytes; r_salt_a : bytes; r_salt_pa : bytes;
  r_nonce_blob : bytes; r_nonce_pin : bytes; r_nonce_phrase : bytes;
}.

Definition build_bundle (r : BundleRandom) (pin phrase bk payload : bytes) : option (result BackupBundle BackupError) :=
  if negb (validate_pin pin) then Some (Err InvalidPin)
  else
    w_pin ← wrap_bk pin (r_salt_p r) (r_nonce_pin r) bk;
    w_phrase ← wrap_bk phrase (r_salt_f r) (r_nonce_phrase r) bk;
    auth_pin ← auth_hash pin (r_salt_a r);
    auth_phrase ← auth_hash phrase (r_salt_pa r);
    Some (Ok (mkBundle (seal_blob bk (r_nonce_blob r) payload) w_pin (r_salt_p r) w_phrase (r_salt_f r)
                auth_pin (r_salt_a r) auth_phrase (r_salt_pa r))).

(** ** Facts *)

Context `{!Argon2RecoveryLaws, !XChaCha20Poly1305Laws, !Sha256Laws}.

Lemma aead_roundtrip key nonce m : len nonce = NONCE_LEN -> aead_open key (aead_seal key nonce m) = Ok m.
Proof.
  intros Hn. unfold aead_open, aead_seal, len, NONCE_LEN in *. rewrite length_app.
  destruct (Z.ltb_spec (Z.of_nat (length nonce + length (aead_encrypt key nonce m))) 24); [lia|].
  rewrite take_app_length', drop_app_length' by lia. by rewrite aead_correct.
Qed.

Lemma unwrap_wrap secret salt nonce bk w :
  len nonce = NONCE_LEN -> len bk = BK_LEN -> wrap_bk secret salt nonce bk = Some w ->
  unwrap_bk secret salt w = Some (Ok bk).
Proof.
  intros Hn Hb Hw. unfold wrap_bk, unwrap_bk in *. destruct (derive secret salt) as [k|]; [|done].
  simplify_eq/=. rewrite aead_roundtrip by done. simpl. by rewrite Hb.
Qed.

(** The salts and nonces have the lengths [random_bytes] and [generate_nonce]
    give them. *)
Definition random_ok (r : BundleRandom) : Prop :=
  Forall (fun s => len s = SALT_LEN) [r_salt_p r; r_salt_f r; r_salt_a r; r_salt_pa r] /\
  Forall (fun n => len n = NONCE_LEN) [r_nonce_blob r; r_nonce_pin r; r_nonce_phrase r].

Lemma derive_ok secret salt :
  len secret < 2 ^ 32 -> len salt = SALT_LEN -> exists k, derive secret salt = Some k /\ length k = 32%nat.
Proof. intros Hs Hl. apply argon2_recovery_ok; [done|]. rewrite Hl. unfold SALT_LEN. lia. Qed.

Lemma validate_pin_len pin : validate_pin pin = true -> 4 <= len pin <= 6 /\ Forall (fun b => 48 <= b <= 57) pin.
Proof.
  unfold validate_pin, is_ascii_digit. intros Hp. bools. split; [lia|].
  match goal with Hf : forallb _ _ = true |- _ => rename Hf into Hd end.
  rewrite forallb_forall in Hd. apply Forall_forall. intros x Hx. specialize (Hd x ltac:(by apply list_elem_of_In)). by bools.
Qed.

(** What an enrollment gives: the bundle exists, and both secrets open it. *)
Lemma build_bundle_spec r pin phrase bk payload :
  random_ok r -> validate_pin pin = true -> len phrase < 2 ^ 32 -> len bk = BK_LEN ->
  exists b, build_bundle r pin phrase bk payload = Some (Ok b) /\
    unwrap_bk pin (bb_salt_p b) (bb_w_pin b) = Some (Ok bk) /\
    unwrap_bk phrase (bb_salt_f b) (bb_w_phrase b) = Some (Ok bk) /\
    open_blob bk (bb_blob b) = Ok payload /\
    auth_hash pin (bb_salt_a b) = Some (bb_auth_pin b) /\
    auth_hash phrase (bb_salt_pa b) = Some (bb_auth_phrase b) /\
    Forall (fun s => len s = SALT_LEN) [bb_salt_p b; bb_salt_f b; bb_salt_a b; bb_salt_pa b] /\
    len (bb_auth_pin b) = 32 /\ len (bb_auth_phrase b) = 32.
Proof.
  intros [Hs Hn] Hp Hf Hb. rewrite !Forall_cons in Hs. rewrite !Forall_cons in Hn.
  destruct Hs as (S1 & S2 & S3 & S4 & _), Hn as (N1 & N2 & N3 & _).
  pose proof (validate_pin_len pin Hp) as [Hpl _].
  destruct (derive_ok pin (r_salt_p r)) as (k1 & D1 & _); [lia|done|].
  destruct (derive_ok phrase (r_salt_f r)) as (k2 & D2 & _); [lia|done|].
  destruct (derive_ok pin (r_salt_a r)) as (k3 & D3 & _); [lia|done|].
  destruct (derive_ok phrase (r_salt_pa r)) as (k4 & D4 & _); [lia|done|].
  eexists. unfold build_bundle, wrap_bk, auth_hash. rewrite Hp, D1, D2, D3, D4. simpl.
  split; [reflexivity|]. simpl.
  split; [apply (unwrap_wrap _ _ (r_nonce_pin r)); [done|done|by unfold wrap_bk; rewrite D1]|].
  split; [apply (unwrap_wrap _ _ (r_nonce_phrase r)); [done|done|by unfold wrap_bk; rewrite D2]|].
  split; [by apply aead_roundtrip|].
  rewrite D3, D4. split; [done|]. split; [done|]. split; [by rewrite !Forall_cons|].
  unfold len. rewrite !sha256_length. done.
Qed.
End Backup.

(** ** Phrases *)

Section Phrase.
Context `{LowercaseLaws}.

(** What the word list consists of: words of lower-case letters and hyphens. *)
Definition word_ok (w : bytes) : Prop := w <> [] /\ Forall (fun b => 97 <= b <= 122 \/ b = 45) w.

Lemma word_ok_visible w : word_ok w -> w <> [] /\ Forall visible w.
Proof. intros [Hn Hw]. split; [done|]. eapply Forall_impl; [done|]. intros b Hb. unfold visible. simpl in Hb. lia. Qed.

Lemma word_ok_lower w : word_ok w -> str_to_lowercase w = w.
Proof.
  intros [_ Hw]. rewrite lowercase_ascii.
  - induction Hw as [|b w Hb Hw IH]; [done|]. csimpl. rewrite IH. f_equal. unfold ascii_lower.
    destruct (Z.leb_spec 65 b), (Z.leb_spec b 90); simpl; lia.
  - eapply Forall_impl; [exact Hw|]. intros b Hb. simpl in Hb. lia.
Qed.

Lemma generate_phrase_words words draws p :
  Forall word_ok words -> generate_phrase words draws = Some p ->
  exists ws, p = join_sp ws /\ length ws = PHRASE_WORDS /\ Forall word_ok ws.
Proof.
  intros Hw H'. unfold generate_phrase in H'. apply fmap_Some in H' as (ws & Hm & ->). exists ws. split; [done|].
  apply mapM_Some in Hm. split; [by apply Forall2_length in Hm|].
  apply Forall_lookup. intros i w Hi. eapply Forall2_lookup_r in Hm as (n & _ & Hn); [|done].
  apply bind_Some in Hn as (j & _ & Hn). rewrite Forall_lookup in Hw. by eapply Hw.
Qed.

Lemma normalize_generated words draws p :
  Forall word_ok words -> generate_phrase words draws = Some p -> normalize_phrase p = p.
Proof.
  intros Hw Hg. apply generate_phrase_words in Hg as (ws & -> & _ & Hws); [|done].
  unfold normalize_phrase. rewrite split_join by (eapply Forall_impl; [done|]; apply word_ok_visible).
  f_equal. induction Hws as [|w ws Hw' Hws IH]; [done|]. csimpl. by rewrite word_ok_lower, IH.
Qed.

(** A phrase is never mistaken for a PIN. *)
Lemma phrase_not_pin words draws p :
  Forall word_ok words -> generate_phrase words draws = Some p -> validate_pin p = false.
Proof.
  intros Hw Hg. apply generate_phrase_words in Hg as (ws & -> & Hl & Hws); [|done].
  destruct ws as [|w ws]; [done|]. apply Forall_cons in Hws as [[Hn Hc] _].
  destruct w as [|b w]; [done|]. apply Forall_cons in Hc as [Hb _].
  destruct (validate_pin _) eqn:Ev; [|done]. apply validate_pin_len in Ev as [_ Ev].
  assert (exists t, join_sp ((b :: w) :: ws) = b :: t) as [t Et] by (destruct ws; by eexists).
  rewrite Et in Ev. apply Forall_cons in Ev as [Ev _]. lia.
Qed.
End Phrase.
