(* ===== verification/CoreSession.v ===== *)
(** * The client core (core/src/storage.rs, identity.rs, session.rs, pairing.rs)

    The on-device store, the MLS session and the pairing format. OpenMLS is the
    parameter [Mls]: its operations on the storage map of the provider and on the
    in-memory group, with their randomness as an argument. An operation returns the
    storage and group it leaves behind also when it fails. Reading an open database
    is taken not to fail; writing may. *)

From S2P Require Import Prelude Text External Proto.

(** ** storage.rs *)

(** The SQLCipher database of a client: its key and its two tables. *)
Record Disk := mkDisk {
  dk_key : bytes;
  dk_kv : gmap bytes bytes;
  dk_seen : gset MessageId;
}.

Inductive StoreError := BadKey | Sql.

(** [Store::open] on what is at the path. *)
Definition Store_open (key : bytes) (file : option Disk) : result Disk StoreError :=
  match file with
  | None => Ok (mkDisk key ∅ ∅)
  | Some d => if bool_decide (dk_key d = key) then Ok d else Err BadKey
  end.

Definition Store_get (k : bytes) (d : Disk) : option bytes := dk_kv d !! k.
Definition Store_seen_ids (d : Disk) : list bytes := elements (dk_seen d).

(** One transaction; [ok] is whether SQLite takes it. *)
Definition Store_commit (ok : bool) (kv : list (bytes * bytes)) (new_seen : list MessageId) (d : Disk)
  : Disk * result unit StoreError :=
  if ok then
    (mkDisk (dk_key d) (foldl (fun m '(k, v) => <[k:=v]> m) (dk_kv d) kv)
       (list_to_set new_seen ∪ dk_seen d), Ok tt)
  else (d, Err Sql).

(** ** OpenMLS *)

Abbreviation MlsStorage := (gmap (list Z) (list Z)) (only parsing).

Inductive MlsBody (W K P : Type) :=
| WelcomeBody (w : W)
| KeyPackageBody (k : K)
| PrivateBody (p : P)
| PublicBody (p : P)
| OtherBody.
Arguments WelcomeBody {W K P} w.
Arguments KeyPackageBody {W K P} k.
Arguments PrivateBody {W K P} p.
Arguments PublicBody {W K P} p.
Arguments OtherBody {W K P}.

Inductive Processed (C : Type) :=
| ApplicationMessage (m : bytes)
| StagedCommitMessage (c : C)
| OtherContent.
Arguments ApplicationMessage {C} m.
Arguments StagedCommitMessage {C} c.
Arguments OtherContent {C}.

Class Mls := {
  SignatureKeyPair : Type;
  CredentialWithKey : Type;
  MlsGroup : Type;
  KeyPackage : Type;
  KeyPackageIn : Type;
  WelcomeIn : Type;
  WelcomeOut : Type;
  RatchetTree : Type;
  StagedWelcome : Type;
  MlsMessageOut : Type;
  ProtocolMessage : Type;
  StagedCommit : Type;
  (** Identities: [rnd] is the randomness of the call, everywhere below. *)
  signer_new (rnd : bytes) : SignatureKeyPair;
  signer_public : SignatureKeyPair -> bytes;
  signer_store : SignatureKeyPair -> MlsStorage -> MlsStorage;
  credential_new (name public : bytes) : CredentialWithKey;
  key_package_build (rnd : bytes) : SignatureKeyPair -> CredentialWithKey -> MlsStorage ->
    MlsStorage * option KeyPackage;
  key_package_validate : KeyPackageIn -> option KeyPackage;
  (** Groups; the outer [None] of a load is its error. *)
  group_new (rnd : bytes) : SignatureKeyPair -> CredentialWithKey -> MlsStorage -> MlsStorage * option MlsGroup;
  group_load : MlsStorage -> bytes -> option (option MlsGroup);
  group_id : MlsGroup -> bytes;
  group_epoch : MlsGroup -> Z;
  (** Credential content and signature key of every member. *)
  group_members : MlsGroup -> list (bytes * bytes);
  group_tree : MlsGroup -> RatchetTree;
  group_add (rnd : bytes) : SignatureKeyPair -> list KeyPackage -> MlsStorage * MlsGroup ->
    (MlsStorage * MlsGroup) * option WelcomeOut;
  group_merge_pending : MlsStorage * MlsGroup -> (MlsStorage * MlsGroup) * bool;
  group_clear_pending : MlsStorage * MlsGroup -> (MlsStorage * MlsGroup) * bool;
  group_self_update (rnd : bytes) : SignatureKeyPair -> MlsStorage * MlsGroup ->
    (MlsStorage * MlsGroup) * option MlsMessageOut;
  group_create_message (rnd : bytes) : SignatureKeyPair -> bytes -> MlsStorage * MlsGroup ->
    (MlsStorage * MlsGroup) * option MlsMessageOut;
  group_process : ProtocolMessage -> MlsStorage * MlsGroup ->
    (MlsStorage * MlsGroup) * option (Processed StagedCommit);
  group_merge_staged : StagedCommit -> MlsStorage * MlsGroup -> (MlsStorage * MlsGroup) * bool;
  staged_welcome_new : WelcomeIn -> RatchetTree -> MlsStorage -> MlsStorage * option StagedWelcome;
  staged_into_group : StagedWelcome -> MlsStorage -> MlsStorage * option MlsGroup;
  (** The TLS codec. *)
  mls_message_in : bytes -> option (MlsBody WelcomeIn KeyPackageIn ProtocolMessage);
  mls_message_out : MlsMessageOut -> option bytes;
  welcome_out : WelcomeOut -> option bytes;
  key_package_out : KeyPackage -> option bytes;
  tree_out : RatchetTree -> option bytes;
  tree_in : bytes -> option RatchetTree;
}.

(** A key package that is written is read back and validates. *)
Class MlsCodecLaws `{Mls} : Prop := {
  key_package_codec : forall kp bs, key_package_out kp = Some bs ->
    exists k, mls_message_in bs = Some (KeyPackageBody k) /\ key_package_validate k = Some kp;
}.

Section Session.
Context `{Mls, Sha256}.

(** ** identity.rs, session.rs *)

Record Session := mkSession {
  s_storage : MlsStorage;
  s_credential : CredentialWithKey;
  s_signer : SignatureKeyPair;
  s_group : option MlsGroup;
}.

(** [Identity::generate]: the credential, the signer, and the storage it was
    written to. *)
Definition Identity_generate (rnd display_name : bytes) (st : MlsStorage)
  : CredentialWithKey * SignatureKeyPair * MlsStorage :=
  let signer := signer_new rnd in
  (credential_new display_name (signer_public signer), signer, signer_store signer st).

Inductive SessionError := NoGroup | SessionDecode | NotAWelcome | NotAProtocolMessage | MlsError.

Inductive Incoming := Application (m : bytes) | CommitApplied.

Definition message_id_for (wire : bytes) : MessageId := take 16 (sha256 wire).

Definition ChatSession_new (rnd display_name : bytes) : Session :=
  let '(cred, signer, st) := Identity_generate rnd display_name ∅ in mkSession st cred signer None.

(** Computations on a session. *)
Definition Ses (A : Type) : Type := Session -> Session * result A SessionError.
Definition s_ret {A} (a : A) : Ses A := fun s => (s, Ok a).
Definition s_err {A} (e : SessionError) : Ses A := fun s => (s, Err e).
Definition s_bind {A B} (m : Ses A) (k : A -> Ses B) : Ses B := fun s =>
  match m s with (s', Ok a) => k a s' | (s', Err e) => (s', Err e) end.
Definition s_option {A} (o : option A) (e : SessionError) : Ses A := fun s => (s, ok_or o e).

(** [self.group.as_mut().ok_or(NoGroup)?], then an operation on it and the
    provider's storage. *)
Definition on_group {A} (f : MlsStorage * MlsGroup -> (MlsStorage * MlsGroup) * A) : Ses A := fun s =>
  match s_group s with
  | None => (s, Err NoGroup)
  | Some g => let '(st, g', a) := f (s_storage s, g) in
              (mkSession st (s_credential s) (s_signer s) (Some g'), Ok a)
  end.

(** [.map_err(|e| Mls(..))?] on an operation that only says whether it worked. *)
Definition mls_check (b : bool) : Ses unit := if b then s_ret tt else s_err MlsError.

Definition generate_key_package (rnd : bytes) : Ses KeyPackage := fun s =>
  let '(st, kp) := key_package_build rnd (s_signer s) (s_credential s) (s_storage s) in
  (mkSession st (s_credential s) (s_signer s) (s_group s), ok_or kp MlsError).

Definition create_group (rnd : bytes) : Ses unit := fun s =>
  let '(st, g) := group_new rnd (s_signer s) (s_credential s) (s_storage s) in
  match g with
  | None => (mkSession st (s_credential s) (s_signer s) (s_group s), Err MlsError)
  | Some g => (mkSession st (s_credential s) (s_signer s) (Some g), Ok tt)
  end.

Definition add_members (rnd : bytes) (kps : list KeyPackage) : Ses bytes := fun s =>
  s_bind (on_group (group_add rnd (s_signer s) kps)) (fun w =>
  s_bind (s_option w MlsError) (fun w =>
  s_bind (on_group group_merge_pending) (fun ok =>
  s_bind (mls_check ok) (fun _ => s_option (welcome_out w) SessionDecode)))) s.

Definition export_ratchet_tree : Ses bytes := fun s =>
  match s_group s with
  | None => (s, Err NoGroup)
  | Some g => (s, ok_or (tree_out (group_tree g)) SessionDecode)
  end.

Definition join_from_welcome (welcome_wire tree_wire : bytes) : Ses unit := fun s =>
  match mls_message_in welcome_wire with
  | None => (s, Err SessionDecode)
  | Some (WelcomeBody w) =>
      match tree_in tree_wire with
      | None => (s, Err SessionDecode)
      | Some tree =>
          let '(st, staged) := staged_welcome_new w tree (s_storage s) in
          let s1 := mkSession st (s_credential s) (s_signer s) (s_group s) in
          match staged with
          | None => (s1, Err MlsError)
          | Some staged =>
              let '(st, g) := staged_into_group staged st in
              match g with
              | None => (mkSession st (s_credential s) (s_signer s) (s_group s), Err MlsError)
              | Some g => (mkSession st (s_credential s) (s_signer s) (Some g), Ok tt)
              end
          end
      end
  | Some _ => (s, Err NotAWelcome)
  end.

Definition member_names (s : Session) : result (list bytes) SessionError :=
  g <-? ok_or (s_group s) NoGroup; Ok ((fun m => utf8_lossy m.1) <$> group_members g).

Definition epoch (s : Session) : result Z SessionError :=
  g <-? ok_or (s_group s) NoGroup; Ok (group_epoch g).

Definition self_update (rnd : bytes) : Ses bytes := fun s =>
  s_bind (on_group (group_self_update rnd (s_signer s))) (fun m =>
  s_bind (s_option m MlsError) (fun m => s_option (mls_message_out m) SessionDecode)) s.

Definition merge_pending_commit : Ses unit := s_bind (on_group group_merge_pending) mls_check.
Definition discard_pending_commit : Ses unit := s_bind (on_group group_clear_pending) mls_check.

Definition encrypt_application (rnd plaintext : bytes) : Ses bytes := fun s =>
  s_bind (on_group (group_create_message rnd (s_signer s) plaintext)) (fun m =>
  s_bind (s_option m MlsError) (fun m => s_option (mls_message_out m) SessionDecode)) s.

(** The protocol message of a decoded one. *)
Definition protocol_message (b : MlsBody WelcomeIn KeyPackageIn ProtocolMessage) : option ProtocolMessage :=
  match b with PrivateBody m | PublicBody m => Some m | _ => None end.

Definition process_incoming (wire : bytes) : Ses Incoming := fun s =>
  match s_group s with
  | None => (s, Err NoGroup)
  | Some _ =>
      s_bind (s_option (mls_message_in wire) SessionDecode) (fun body =>
      s_bind (s_option (protocol_message body) NotAProtocolMessage) (fun m =>
      s_bind (on_group (group_process m)) (fun processed =>
      s_bind (s_option processed MlsError) (fun content =>
        match content with
        | ApplicationMessage app => s_ret (Application app)
        | StagedCommitMessage staged =>
            s_bind (on_group (group_merge_staged staged)) (fun ok =>
            s_bind (mls_check ok) (fun _ => s_ret CommitApplied))
        | OtherContent => s_err NotAProtocolMessage
        end)))) s
  end.

(** ** Snapshots *)

Record SessionSnapshot := mkSnapshot {
  sn_credential : CredentialWithKey;
  sn_signer : SignatureKeyPair;
  sn_group_id : option bytes;
  sn_storage : MlsStorage;
}.

Context `{Bincode SessionSnapshot}.

Definition snapshot (s : Session) : bytes :=
  bincode_serialize (mkSnapshot (s_credential s) (s_signer s) (group_id <$> s_group s) (s_storage s)).

(** [ChatSession::restore]. *)
Definition restore (bs : bytes) : result Session SessionError :=
  snap <-? ok_or (bincode_deserialize bs) SessionDecode;
  g <-? match sn_group_id snap with
        | Some gid => og <-? ok_or (group_load (sn_storage snap) gid) MlsError;
                      g <-? ok_or og MlsError; Ok (Some g)
        | None => Ok None
        end;
  Ok (mkSession (sn_storage snap) (sn_credential snap) (sn_signer snap) g).

Definition strip_snapshot_to_identity (bs : bytes) : result bytes SessionError :=
  snap <-? ok_or (bincode_deserialize bs) SessionDecode;
  Ok (bincode_serialize (mkSnapshot (sn_credential snap) (sn_signer snap) None ∅)).

(** ** The safety number *)

Definition bytes_le (a b : bytes) : Prop := blob_le a b = true.
#[global] Instance bytes_le_dec a b : Decision (bytes_le a b).
Proof. unfold bytes_le. apply _. Defined.

Definition sorted_keys (g : MlsGroup) : list bytes := merge_sort bytes_le (snd <$> group_members g).

(** What the hasher is fed. *)
Definition safety_input (keys : list bytes) : bytes :=
  keys ≫= (fun k => to_be_bytes 4 (wrap32 (len k)) ++ k).

Fixpoint chunks4 (bs : bytes) : list bytes :=
  match bs with
  | a :: b :: c :: d :: bs' => [a; b; c; d] :: chunks4 bs'
  | [] => []
  | rest => [rest]
  end.

(** [fold(0u32, |acc, &b| (acc << 8) | b as u32)]. *)
Definition be_u32 (c : bytes) : Z := foldl (fun acc b => Z.lor (wrap32 (Z.shiftl acc 8)) b) 0 c.

Definition safety_number (s : Session) : result bytes SessionError :=
  g <-? ok_or (s_group s) NoGroup;
  let digest := sha256 (safety_input (sorted_keys g)) in
  Ok (join_sp ((fun c => zero_padded (be_u32 c mod 100000) 5) <$> chunks4 digest)).

(** ** pairing.rs *)

Inductive PairingError := PairingLink (e : LinkError) | PairingDecode | NotAKeyPackage | PairingInvalid.

Definition key_package_to_bytes (kp : KeyPackage) : result bytes PairingError :=
  ok_or (key_package_out kp) PairingDecode.

Definition key_package_from_bytes (bs : bytes) : result KeyPackage PairingError :=
  body <-? ok_or (mls_message_in bs) PairingDecode;
  match body with
  | KeyPackageBody k => ok_or (key_package_validate k) PairingInvalid
  | _ => Err NotAKeyPackage
  end.

Definition build_contact_link (kp : KeyPackage) (addr : string) (fingerprint : bytes) (queue_id : QueueId) (send_key : bytes)
  : result ContactLink PairingError :=
  kp_bytes <-? key_package_to_bytes kp;
  map_err PairingLink (ContactLink_new kp_bytes [mkEndpoint addr fingerprint queue_id send_key]).

Definition key_package_from_link (link : ContactLink) : result KeyPackage PairingError :=
  key_package_from_bytes (key_package link).
End Session.
