(* ===== verification/CoreProps.v ===== *)
(** * What the client core guarantees

    Snapshots restore the session, and their stripped form the identity alone; the
    safety number is the same on both sides and its hashed input determines the
    keys; a contact link carries its key package. [ToyMls] is a concrete MLS for
    the examples. *)

From S2P Require Import Prelude Text External Proto ProtoProps CoreSession.

(** ** Sorted keys *)

#[export] Instance bytes_le_total : Total bytes_le.
Proof. intros a b. apply blob_le_total. Qed.
#[export] Instance bytes_le_trans : Transitive bytes_le.
Proof. intros a b c. apply blob_le_trans. Qed.
#[export] Instance bytes_le_antisym : AntiSymm (=) bytes_le.
Proof. intros a b. apply blob_le_antisym. Qed.

Lemma merge_sort_perm (l l' : list bytes) : l ≡ₚ l' -> merge_sort bytes_le l = merge_sort bytes_le l'.
Proof.
  intros Hp. apply (Sorted_unique bytes_le).
  - apply Sorted_merge_sort, _.
  - apply Sorted_merge_sort, _.
  - by rewrite !merge_sort_Permutation.
Qed.

Lemma safety_input_cons k l : safety_input (k :: l) = to_be_bytes 4 (wrap32 (len k)) ++ k ++ safety_input l.
Proof. unfold safety_input. rewrite bind_cons. by rewrite <- app_assoc. Qed.

Lemma safety_input_nonempty k l : safety_input (k :: l) <> [].
Proof.
  intros E. apply (f_equal length) in E. rewrite safety_input_cons, length_app, length_to_be_bytes in E.
  change (length (@nil Z)) with 0%nat in E. lia.
Qed.

(** Length prefixes make the concatenation unambiguous. *)
Lemma safety_input_inj (l l' : list bytes) :
  Forall (fun k => len k < 2 ^ 32) l -> Forall (fun k => len k < 2 ^ 32) l' ->
  safety_input l = safety_input l' -> l = l'.
Proof.
  intros Hl. revert l'. induction Hl as [|k l Hk Hl IH]; intros l' Hl' E.
  - destruct l' as [|k' l']; [done|]. symmetry in E. by apply safety_input_nonempty in E.
  - destruct Hl' as [|k' l' Hk' Hl']; [by apply safety_input_nonempty in E|].
    rewrite !safety_input_cons in E. apply app_inj_1 in E as [E1 E2]; [|by rewrite !length_to_be_bytes].
    pose proof (len_nonneg k). pose proof (len_nonneg k').
    apply (to_be_bytes_inj 4) in E1; [|apply Z.mod_pos_bound; done|apply Z.mod_pos_bound; done].
    unfold wrap32, u32_modulus in E1. rewrite !Z.mod_small in E1 by lia.
    apply app_inj_1 in E2 as [-> E2]; [|unfold len in E1; lia]. f_equal. by apply IH.
Qed.

(** ** Digits *)

Lemma digits_rev_range fuel n : 0 <= n -> Forall (fun d => 0 <= d < 10) (digits_rev fuel n).
Proof.
  revert n. induction fuel as [|fuel IH]; intros n Hn; simpl; constructor.
  - apply Z.mod_pos_bound. lia.
  - destruct (n <? 10); [constructor|]. apply IH. apply Z.div_pos; lia.
Qed.

Lemma digits_rev_length fuel n k : 0 <= n < 10 ^ (Z.of_nat k + 1) -> (length (digits_rev fuel n) <= S k)%nat.
Proof.
  revert n k. induction fuel as [|fuel IH]; intros n k Hn; simpl; [lia|].
  destruct (Z.ltb_spec n 10); [simpl; lia|].
  destruct k as [|k]; [simpl in Hn; lia|]. apply le_n_S. apply IH.
  replace (Z.of_nat (S k) + 1) with (Z.succ (Z.of_nat k + 1)) in Hn by lia. rewrite Z.pow_succ_r in Hn by lia.
  split; [apply Z.div_pos; lia|]. apply Z.div_lt_upper_bound; lia.
Qed.

(** Five digits. *)
Definition digit_group (w : bytes) : Prop := len w = 5 /\ Forall (fun b => 48 <= b <= 57) w.

Lemma zero_padded_group n : 0 <= n < 100000 -> digit_group (zero_padded n 5).
Proof.
  intros Hn. unfold zero_padded, decimal, digit_group.
  pose proof (digits_rev_length 20 n 4 ltac:(simpl; lia)) as Hl.
  assert (Ha : length (reverse ((fun d => 48 + d) <$> digits_rev 20 n)) = length (digits_rev 20 n))
    by by rewrite length_reverse, length_fmap.
  split.
  - unfold len. rewrite length_app, length_replicate, Ha. lia.
  - apply Forall_app. split; [apply Forall_replicate; lia|].
    apply Forall_reverse, Forall_fmap. eapply Forall_impl; [apply digits_rev_range; lia|]. intros d Hd. simpl in Hd |- *. lia.
Qed.

Lemma chunks4_length n bs : length bs = (4 * n)%nat -> length (chunks4 bs) = n.
Proof.
  revert bs. induction n as [|n IH]; intros bs Hb.
  - by destruct bs.
  - destruct bs as [|a [|b [|c [|d bs]]]]; simpl in Hb; try lia. simpl. f_equal. apply IH. lia.
Qed.

Lemma chunks4_lookup n bs i : length bs = (4 * n)%nat -> (i < n)%nat -> chunks4 bs !! i = Some (take 4 (drop (4 * i) bs)).
Proof.
  revert bs i. induction n as [|n IH]; intros bs i Hb Hi; [lia|].
  destruct bs as [|a [|b [|c [|d bs]]]]; simpl in Hb; try lia. destruct i as [|i]; [done|].
  replace (4 * S i)%nat with (S (S (S (S (4 * i)))))%nat by lia. simpl drop. simpl. apply IH; lia.
Qed.

Lemma lor_byte a b : 0 <= a -> is_byte b -> Z.lor (Z.shiftl a 8) b = b + 256 * a.
Proof.
  intros Ha Hb. unfold is_byte in Hb. assert (E : Z.land (Z.shiftl a 8) b = 0).
  { apply Z.bits_inj'. intros n Hn. rewrite Z.land_spec, Z.bits_0. destruct (Z.ltb_spec n 8).
    - rewrite Z.shiftl_spec_low by lia. done.
    - destruct (decide (b = 0)) as [->|]; [by rewrite Z.bits_0, andb_false_r|].
      assert (2 ^ 8 <= 2 ^ n) by (apply Z.pow_le_mono_r; lia).
      assert (Z.log2 b < n) by (apply Z.log2_lt_pow2; lia). by rewrite (Z.bits_above_log2 b), andb_false_r by lia. }
  pose proof (Z.add_lor_land (Z.shiftl a 8) b) as H. rewrite E in H. rewrite Z.shiftl_mul_pow2 in * by lia. lia.
Qed.

(** The fold over four bytes is their big-endian value. *)
Lemma be_step acc b : 0 <= acc < 2 ^ 24 -> is_byte b -> Z.lor (wrap32 (Z.shiftl acc 8)) b = b + 256 * acc.
Proof.
  intros Ha Hb. unfold wrap32, u32_modulus. rewrite Z.mod_small; [apply lor_byte; [lia|done]|]. rewrite Z.shiftl_mul_pow2 by lia. lia.
Qed.
Lemma be_u32_value a b c d : are_bytes [a; b; c; d] -> be_u32 [a; b; c; d] = from_le_bytes (reverse [a; b; c; d]).
Proof.
  unfold are_bytes. rewrite !Forall_cons. intros (Ha & Hb & Hc & Hd & _). unfold be_u32. cbn [foldl].
  pose proof Ha as Ha'. pose proof Hb as Hb'. pose proof Hc as Hc'. unfold is_byte in Ha', Hb', Hc'.
  rewrite (be_step 0 a), (be_step _ b), (be_step _ c), (be_step _ d) by (done || lia). cbn. lia.
Qed.

(** What a digest shows: eight groups of five digits, the last ones of its eight
    big-endian numbers. *)
Definition shows (digest : bytes) (ws : list bytes) : Prop :=
  length ws = 8%nat /\
  forall i, (i < 8)%nat -> exists w, ws !! i = Some w /\ digit_group w /\
    read_decimal w = from_le_bytes (reverse (take 4 (drop (4 * i) digest))) mod 100000.

Section Props.
Context `{Mls, Sha256}.

Lemma safety_number_shows {SL : Sha256Laws} (s : Session) (g : MlsGroup) :
  s_group s = Some g -> exists ws, safety_number s = Ok (join_sp ws) /\ shows (sha256 (safety_input (sorted_keys g))) ws.
Proof.
  intros Hg. unfold safety_number. rewrite Hg. simpl. eexists. split; [done|].
  set (digest := sha256 _). assert (Hl : length digest = 32%nat) by apply sha256_length.
  split; [by rewrite length_fmap, (chunks4_length 8)|]. intros i Hi.
  rewrite list_lookup_fmap, (chunks4_lookup 8) by (done || lia).
  eexists. split; [reflexivity|].
  assert (Hc : exists a b c d, take 4 (drop (4 * i) digest) = [a; b; c; d] /\ are_bytes [a; b; c; d]).
  { assert (Hlt : length (take 4 (drop (4 * i) digest)) = 4%nat) by (rewrite length_take, length_drop; lia).
    assert (Hb : are_bytes (take 4 (drop (4 * i) digest))) by apply Forall_take, Forall_drop, sha256_bytes.
    destruct (take 4 (drop (4 * i) digest)) as [|a [|b [|c [|d [|]]]]]; try done. by exists a, b, c, d. }
  destruct Hc as (a & b & c & d & -> & Hb). rewrite be_u32_value by done.
  assert (0 <= from_le_bytes (reverse [a; b; c; d]) mod 100000 < 100000) by (apply Z.mod_pos_bound; lia).
  split; [by apply zero_padded_group|]. unfold zero_padded. rewrite read_decimal_zeros. apply decimal_value. unfold u32_modulus. lia.
Qed.

(** C38: the safety number: two groups with the same signature keys show the same
    number, whatever the order of their members. It is eight groups of five digits, the
    last digits of a SHA-256 digest's numbers; and for two groups whose keys fit their
    length prefixes, what is digested is the same exactly if the keys are, so that
    different keys show the same number only where the digests agree in all these
    digits. *)
Theorem safety_number_binds_keys {SL : Sha256Laws} (s s' : Session) (g g' : MlsGroup) :
  s_group s = Some g -> s_group s' = Some g' ->
  ((snd <$> group_members g) ≡ₚ (snd <$> group_members g') -> safety_number s = safety_number s') /\
  exists x x' ws ws',
    safety_number s = Ok (join_sp ws) /\ shows (sha256 x) ws /\
    safety_number s' = Ok (join_sp ws') /\ shows (sha256 x') ws' /\
    (Forall (fun m => len m.2 < 2 ^ 32) (group_members g) -> Forall (fun m => len m.2 < 2 ^ 32) (group_members g') ->
     (x = x' <-> (snd <$> group_members g) ≡ₚ (snd <$> group_members g'))).
Proof.
  intros Hg Hg'.
  assert (Hperm : (snd <$> group_members g) ≡ₚ (snd <$> group_members g') -> sorted_keys g = sorted_keys g').
  { intros Hp. unfold sorted_keys. by rewrite (merge_sort_perm _ _ Hp). }
  split; [intros Hp; unfold safety_number; rewrite Hg, Hg'; simpl; by rewrite (Hperm Hp)|].
  destruct (safety_number_shows s g Hg) as (ws & H1 & H2). destruct (safety_number_shows s' g' Hg') as (ws' & H3 & H4).
  exists (safety_input (sorted_keys g)), (safety_input (sorted_keys g')), ws, ws'. do 4 (split; [done|]).
  intros F F'. split; [|intros Hp; by rewrite (Hperm Hp)]. intros E. apply safety_input_inj in E.
  - unfold sorted_keys in E. rewrite <- (merge_sort_Permutation bytes_le (snd <$> group_members g)).
    by rewrite E, merge_sort_Permutation.
  - unfold sorted_keys. rewrite merge_sort_Permutation. by apply Forall_fmap.
  - unfold sorted_keys. rewrite merge_sort_Permutation. by apply Forall_fmap.
Qed.

(** ** Snapshots *)

Context `{BincodeLaws SessionSnapshot}.

(** The storage holds the group that the session has in memory. *)
Definition in_sync (s : Session) : Prop :=
  forall g, s_group s = Some g -> group_load (s_storage s) (group_id g) = Some (Some g).

(** The session with its groups and MLS storage removed. *)
Definition identity_only (s : Session) : Session := mkSession ∅ (s_credential s) (s_signer s) None.

Lemma restore_snapshot (s : Session) : in_sync s -> restore (snapshot s) = Ok s.
Proof.
  intros Hg. unfold restore, snapshot. rewrite bincode_roundtrip_exact. destruct s as [st cred sg [g|]]; simpl; [|done].
  specialize (Hg g eq_refl). simpl in Hg. by rewrite Hg.
Qed.

Lemma strip_snapshot (s : Session) : strip_snapshot_to_identity (snapshot s) = Ok (snapshot (identity_only s)).
Proof. unfold strip_snapshot_to_identity, snapshot. by rewrite bincode_roundtrip_exact. Qed.

(** A snapshot restores exactly the session it was taken of, and its stripped
    form restores the same identity with no group and no ratchet state at all. *)
Theorem snapshot_restores (s : Session) :
  in_sync s ->
  restore (snapshot s) = Ok s /\
  exists bs, strip_snapshot_to_identity (snapshot s) = Ok bs /\ restore bs = Ok (identity_only s).
Proof.
  intros Hs. split; [by apply restore_snapshot|]. eexists. split; [apply strip_snapshot|]. by apply restore_snapshot.
Qed.

(** ** Contact links *)

Context `{!MlsCodecLaws, BincodeLaws ContactLink}.

(** A contact link built for a key package survives its encoding, and the
    scanner gets back that key package and the endpoint. *)
Theorem link_carries_key_package kp addr fp q key link :
  build_contact_link kp addr fp q key = Ok link ->
  ContactLink_from_bytes (ContactLink_to_bytes link) = Ok link /\
  key_package_from_link link = Ok kp /\ primary_endpoint link = Some (mkEndpoint addr fp q key).
Proof.
  unfold build_contact_link, key_package_to_bytes. destruct (key_package_out kp) as [bs|] eqn:Eo; simpl; [|done].
  unfold ContactLink_new. destruct (ContactLink_validate _) eqn:Ev; simpl; [|done]. intros E. simplify_eq.
  split; [|split; [|done]].
  - unfold ContactLink_from_bytes, ContactLink_to_bytes, proto_encode, proto_decode.
    rewrite bincode_roundtrip_exact. simpl. by rewrite Ev.
  - unfold key_package_from_link, key_package_from_bytes. simpl.
    destruct (key_package_codec _ _ Eo) as (k & -> & Hk). simpl. by rewrite Hk.
Qed.
End Props.

(** ** A concrete MLS

    Not a secure one: groups are in the clear, and messages name their sender. It
    has the behaviours the examples need: joining takes the key package's private
    part out of the storage, own messages and wrong epochs are refused. *)
Module ToyMls.
Import ToyInstances.

(** Id, epoch, members, own key, and whether a commit is pending. *)
Definition tgroup : Type := bytes * Z * list (bytes * bytes) * bytes * bool.
Definition tg_id (g : tgroup) : bytes := g.1.1.1.1.
Definition tg_save (g : tgroup) (st : MlsStorage) : MlsStorage := <[0 :: tg_id g:=[Z.pos (encode g)]]> st.
Definition tg_write (g : tgroup) (st : MlsStorage) : MlsStorage * tgroup := (tg_save g st, g).

Definition pack {A} `{Countable A} (tag : Z) (a : A) : bytes := [tag; Z.pos (encode a)].
Definition unpack {A} `{Countable A} (z : Z) : option A := match z with Z.pos p => decode p | _ => None end.

(** Kind (0 application, 1 commit), epoch, sender's key, content. *)
Definition tmessage : Type := Z * Z * bytes * bytes.

Definition t_process (m : tmessage) (sg : MlsStorage * tgroup) : (MlsStorage * tgroup) * option (Processed Z) :=
  let '(k, ep, sender, content) := m in
  let '(st, g) := sg in
  let '(id, gep, ms, me, pend) := g in
  if bool_decide (sender = me) || negb (ep =? gep) then (sg, None)
  else (sg, Some (if k =? 0 then ApplicationMessage content else StagedCommitMessage ep)).

Definition t_advance (sg : MlsStorage * tgroup) : MlsStorage * tgroup :=
  let '(st, (id, ep, ms, me, pend)) := sg in tg_write (id, ep + 1, ms, me, false) st.

Definition t_message_in (bs : bytes) : option (MlsBody (tgroup * bytes) (bytes * bytes * bytes) tmessage) :=
  match bs with
  | 1 :: z :: _ => WelcomeBody <$> unpack z
  | 2 :: z :: _ => KeyPackageBody <$> unpack z
  | 3 :: z :: _ => PrivateBody <$> unpack z
  | 4 :: _ => Some OtherBody
  | _ => None
  end.

#[export] Instance toy_mls : Mls := {|
  SignatureKeyPair := bytes;
  CredentialWithKey := bytes * bytes;
  MlsGroup := tgroup;
  KeyPackage := bytes * bytes * bytes;
  KeyPackageIn := bytes * bytes * bytes;
  WelcomeIn := tgroup * bytes;
  WelcomeOut := tgroup * bytes;
  RatchetTree := unit;
  StagedWelcome := tgroup;
  MlsMessageOut := tmessage;
  ProtocolMessage := tmessage;
  StagedCommit := Z;
  signer_new rnd := rnd;
  signer_public s := s;
  signer_store s st := <[[1]:=s]> st;
  credential_new n p := (n, p);
  key_package_build rnd s c st := (<[2 :: rnd:=rnd]> st, Some (c.1, c.2, rnd));
  key_package_validate k := Some k;
  group_new rnd s c st := let g := (rnd, 0, [c], s, false) in (tg_save g st, Some g);
  group_load st id := match st !! (0 :: id) with Some (z :: _) => Some (unpack z) | _ => Some None end;
  group_id := tg_id;
  group_epoch g := g.1.1.1.2;
  group_members g := g.1.1.2;
  group_tree _ := tt;
  group_add rnd s kps sg :=
    let '(st, (id, ep, ms, me, _)) := sg in
    let ms' := ms ++ ((fun kp => kp.1) <$> kps) in
    (tg_write (id, ep, ms', me, true) st,
     Some ((id, ep + 1, ms', me, false), match kps with kp :: _ => kp.2 | [] => [] end));
  group_merge_pending sg := (if sg.2.2 then t_advance sg else sg, true);
  group_clear_pending sg := let '(st, (id, ep, ms, me, _)) := sg in (tg_write (id, ep, ms, me, false) st, true);
  group_self_update rnd s sg :=
    let '(st, (id, ep, ms, me, _)) := sg in (tg_write (id, ep, ms, me, true) st, Some (1, ep, me, rnd));
  group_create_message rnd s m sg := let '(st, (id, ep, ms, me, pend)) := sg in (sg, Some (0, ep, me, m));
  group_process := t_process;
  group_merge_staged _ sg := (t_advance sg, true);
  staged_welcome_new w _ st := (st, match st !! (2 :: w.2) with Some _ => Some w.1 | None => None end);
  staged_into_group g st :=
    let '(id, ep, ms, _, _) := g in
    let g' := (id, ep, ms, default [] (st !! [1]), false) in (tg_save g' st, Some g');
  mls_message_in := t_message_in;
  mls_message_out m := Some (pack 3 m);
  welcome_out w := Some (pack 1 w);
  key_package_out k := Some (pack 2 k);
  tree_out _ := Some [9];
  tree_in bs := match bs with 9 :: _ => Some tt | _ => None end;
|}.

#[export] Instance toy_codec : MlsCodecLaws.
Proof.
  constructor. intros kp bs Hb. injection Hb as <-. exists kp. split; [|reflexivity].
  unfold mls_message_in, toy_mls, t_message_in, pack, unpack. by rewrite decode_encode.
Qed.

#[export] Instance toy_snapshot_eq_dec : EqDecision SessionSnapshot.
Proof.
  refine (inj_eq_dec (fun s : SessionSnapshot => (sn_credential s : bytes * bytes, sn_signer s : bytes, sn_group_id s, sn_storage s))).
  intros [] [] E. by simplify_eq/=.
Defined.

#[export] Instance toy_snapshot_countable : Countable SessionSnapshot.
Proof.
  refine (inj_countable' (fun s : SessionSnapshot => (sn_credential s : bytes * bytes, sn_signer s : bytes, sn_group_id s,
            map_to_list (sn_storage s)))
            (fun '(c, s, g, st) => mkSnapshot c s g (list_to_map st)) _).
  intros [c s g st]. simpl. by rewrite list_to_map_to_list.
Defined.

(** Alice founds a group with Bob. *)
Definition alice0 : Session := ChatSession_new [1] (str "alice").
Definition bob0 : Session := ChatSession_new [2] (str "bob").
Definition bob1 : Session := (generate_key_package [3] bob0).1.
Definition bob_kp : @KeyPackage toy_mls := (str "bob", [2], [3]).
Definition alice1 : Session := (create_group [4] alice0).1.
Definition alice2 : Session := (add_members [5] [bob_kp] alice1).1.
Definition welcome : bytes := match (add_members [5] [bob_kp] alice1).2 with Ok w => w | Err _ => [] end.
Definition bob2 : Session := (join_from_welcome welcome [9] bob1).1.

Definition group_of (s : Session) : tgroup :=
  match s_group s with Some g => g | None => ([], 0, [], [], false) end.

Lemma alice2_group : s_group alice2 = Some (group_of alice2).
Proof. vm_compute. reflexivity. Qed.
Lemma bob2_group : s_group bob2 = Some (group_of bob2).
Proof. vm_compute. reflexivity. Qed.

Lemma safety_number_binds_keys_witness :
  safety_number alice2 = safety_number bob2 /\ group_members (group_of bob2) <> [] /\
  exists x ws, safety_number bob2 = Ok (join_sp ws) /\ shows (sha256 x) ws.
Proof.
  destruct (safety_number_binds_keys alice2 bob2 _ _ alice2_group bob2_group) as (H1 & x & x' & ws & ws' & _ & _ & H2 & H3 & _).
  split; [apply H1; vm_compute; reflexivity|]. split; [vm_compute; discriminate|]. exists x', ws'. exact (conj H2 H3).
Defined.

Lemma snapshot_restores_witness : restore (snapshot alice2) = Ok alice2 /\ in_sync alice2.
Proof.
  assert (Hs : in_sync alice2) by (intros g Hg; rewrite alice2_group in Hg; injection Hg as <-; vm_compute; reflexivity).
  split; [exact (proj1 (snapshot_restores alice2 Hs))|exact Hs].
Defined.

Definition bob_link : result ContactLink PairingError := build_contact_link bob_kp "relay:7443" [7] [8] [9].

Lemma link_carries_key_package_witness : exists link, bob_link = Ok link /\ key_package_from_link (link : ContactLink) = Ok bob_kp.
Proof.
  eexists. split; [reflexivity|]. eapply (link_carries_key_package bob_kp "relay:7443" [7] [8] [9]). reflexivity.
Defined.
End ToyMls.
