(* ===== verification/RelayClient.v ===== *)
(** * The relay connection of a client (engine/src/relay_client.rs)

    Requests are pipelined: a call takes the next request id, leaves a one-shot
    sender in the pending map and waits; the reader task routes replies by id, and
    on its way out fails everything that waits. The connection is a state, and what
    its tasks do is a sequence of events in any interleaving. A call is known by its
    number, counted from zero; its outcome is the reply, or [None] when it fails
    with [ConnectionClosed]. *)

From S2P Require Import Prelude External Proto.

Record Conn := mkConn {
  next_request_id : Z;
  closed : bool;
  pending : gmap RequestId Z;          (** the call that waits for a request id *)
  calls : Z;                           (** the calls begun so far *)
  unsent : gmap Z (RequestId * ClientMessage);  (** begun, not yet handed to the writer *)
  writer_open : bool;
  write_queue : list ClientFrame;
  outcomes : gmap Z (option ServerMessage);
  pushed : list (QueueId * Envelope);
}.

(** [RelayClient::connect], once the handshake is done. *)
Definition connected : Conn := mkConn 0 false ∅ 0 ∅ true [] ∅ [].

Inductive ConnEvent :=
| CallBegin (msg : ClientMessage)      (** [call], up to the end of its critical section *)
| CallSend (call : Z)                  (** the rest of it, up to waiting for the reply *)
| ReadFrame (f : ServerFrame)          (** the reader task has read a frame *)
| ReaderExit                           (** it stopped reading *)
| WriterExit.                          (** the writer task failed to write *)

(** The first send on a one-shot channel counts; the receiver sees nothing after
    it. *)
Definition resolve (call : Z) (r : option ServerMessage) (o : gmap Z (option ServerMessage))
  : gmap Z (option ServerMessage) :=
  match o !! call with Some _ => o | None => <[call:=r]> o end.

Definition call_begin (msg : ClientMessage) (k : Conn) : Conn :=
  let request_id := next_request_id k in
  let next := request_id +64 1 in
  let c := calls k in
  if closed k then
    mkConn next true (pending k) (c + 1) (unsent k) (writer_open k) (write_queue k)
      (resolve c None (outcomes k)) (pushed k)
  else
    (* inserting over an old sender drops it *)
    let o := match pending k !! request_id with Some old => resolve old None (outcomes k) | None => outcomes k end in
    mkConn next false (<[request_id:=c]> (pending k)) (c + 1) (<[c:=(request_id, msg)]> (unsent k))
      (writer_open k) (write_queue k) o (pushed k).

Definition call_send (c : Z) (k : Conn) : Conn :=
  match unsent k !! c with
  | None => k
  | Some (request_id, msg) =>
      if writer_open k then
        mkConn (next_request_id k) (closed k) (pending k) (calls k) (delete c (unsent k)) true
          (write_queue k ++ [mkClientFrame request_id msg]) (outcomes k) (pushed k)
      else
        (* whoever waits under that id loses its sender *)
        let o := match pending k !! request_id with Some w => resolve w None (outcomes k) | None => outcomes k end in
        mkConn (next_request_id k) (closed k) (delete request_id (pending k)) (calls k) (delete c (unsent k)) false
          (write_queue k) (resolve c None o) (pushed k)
  end.

Definition read_server_frame (f : ServerFrame) (k : Conn) : Conn :=
  if closed k then k
  else match f with
  | Push q env =>
      mkConn (next_request_id k) false (pending k) (calls k) (unsent k) (writer_open k) (write_queue k)
        (outcomes k) (pushed k ++ [(q, env)])
  | Reply request_id m =>
      match pending k !! request_id with
      | None => k
      | Some c =>
          mkConn (next_request_id k) false (delete request_id (pending k)) (calls k) (unsent k) (writer_open k)
            (write_queue k) (resolve c (Some m) (outcomes k)) (pushed k)
      end
  end.

Definition reader_exit (k : Conn) : Conn :=
  mkConn (next_request_id k) true ∅ (calls k) (unsent k) (writer_open k) (write_queue k)
    (map_fold (fun _ c o => resolve c None o) (outcomes k) (pending k)) (pushed k).

Definition conn_step (k : Conn) (e : ConnEvent) : Conn :=
  match e with
  | CallBegin msg => call_begin msg k
  | CallSend c => call_send c k
  | ReadFrame f => read_server_frame f k
  | ReaderExit => reader_exit k
  | WriterExit =>
      mkConn (next_request_id k) (closed k) (pending k) (calls k) (unsent k) false (write_queue k)
        (outcomes k) (pushed k)
  end.

Definition conn_run (es : list ConnEvent) : Conn := foldl conn_step connected es.

(** ** The invariant *)

(** As long as the counter has not wrapped, a call's number is its request id. *)
Record conn_ok (es : list ConnEvent) (k : Conn) : Prop := {
  co_next : 0 <= calls k <= u64_modulus;
  co_ids : next_request_id k = wrap64 (calls k);
  co_pending i c : pending k !! i = Some c -> i = c /\ 0 <= c < calls k /\ outcomes k !! c = None;
  co_unsent c i m : unsent k !! c = Some (i, m) -> i = c;
  co_started c : 0 <= c < calls k -> is_Some (outcomes k !! c) \/ pending k !! c = Some c;
  co_outcomes c : calls k <= c -> outcomes k !! c = None;
  co_replies c m : outcomes k !! c = Some (Some m) -> ReadFrame (Reply c m) ∈ es;
  co_closed : closed k = true -> pending k = ∅;
  co_written f : f ∈ write_queue k -> 0 <= cf_request_id f < calls k /\ CallBegin (cf_message f) ∈ es;
  co_unsent_begun c i m : unsent k !! c = Some (i, m) -> 0 <= c < calls k /\ CallBegin m ∈ es;
}.

Lemma resolve_lookup c r o c' :
  resolve c r o !! c' = match o !! c' with Some x => Some x | None => if decide (c = c') then Some r else None end.
Proof.
  unfold resolve. destruct (decide (c = c')) as [<-|Hne].
  - destruct (o !! c) eqn:E; rewrite ?E; [done|]. by rewrite lookup_insert_eq.
  - destruct (o !! c); [|rewrite lookup_insert_ne by done]; by destruct (o !! c').
Qed.

Lemma resolve_all_lookup (p : gmap RequestId Z) o c :
  (forall i c, p !! i = Some c -> i = c) ->
  map_fold (fun _ c o => resolve c None o) o p !! c =
  match o !! c with Some x => Some x | None => if decide (is_Some (p !! c)) then Some None else None end.
Proof.
  intros Hp. induction p as [|i x p Hi Hfold IH] using map_first_key_ind.
  { rewrite map_fold_empty. rewrite lookup_empty. by destruct (o !! c). }
  rewrite map_fold_insert_first_key by done.
  assert (i = x) as <- by (apply Hp; by rewrite lookup_insert_eq).
  rewrite resolve_lookup, IH.
  - destruct (o !! c); [done|]. destruct (decide (i = c)) as [->|Hne].
    + rewrite lookup_insert_eq, Hi, (decide_False (P := is_Some None)), (decide_True (P := is_Some (Some c)));
        [done|by eexists|by intros [? ?]].
    + rewrite lookup_insert_ne by done. by destruct (decide (is_Some (p !! c))).
  - intros j d Hj. apply Hp. destruct (decide (i = j)) as [<-|]; [congruence|by rewrite lookup_insert_ne].
Qed.

Lemma conn_ok_connected : conn_ok [] connected.
Proof. split; simpl; intros; rewrite ?lookup_empty in *; try done; try lia; set_solver. Qed.

Section Step.
Context (es : list ConnEvent) (k : Conn) (O : conn_ok es k).

Lemma in_snoc_l e f : f ∈ es -> f ∈ es ++ [e].
Proof. set_solver. Qed.
Hint Resolve in_snoc_l : core.

(** Nothing of the state depends on when the log is cut. *)
Lemma conn_ok_log e : conn_ok (es ++ [e]) k.
Proof.
  destruct O as [O1 O2 O3 O4 O5 O6 O7 O8 O9 O10]. split; eauto.
  - intros f Hf. destruct (O9 f Hf). eauto.
  - intros c i m Hu. destruct (O10 _ _ _ Hu). eauto.
Qed.

(** Resolving calls that have begun keeps what outcomes say. *)
Lemma outcomes_resolve c r o c' :
  resolve c r o !! c' = None -> o !! c' = None /\ c <> c'.
Proof. rewrite resolve_lookup. destruct (o !! c'); [done|]. by case_decide. Qed.

Lemma begin_ok msg : calls k < u64_modulus -> conn_ok (es ++ [CallBegin msg]) (call_begin msg k).
Proof.
  intros Hc. destruct O as [O1 O2 O3 O4 O5 O6 O7 O8 O9 O10].
  assert (Ei : next_request_id k = calls k) by (rewrite O2; apply Z.mod_small; lia).
  assert (En : next_request_id k +64 1 = wrap64 (calls k + 1)) by (by rewrite Ei).
  assert (Hin : CallBegin msg ∈ es ++ [CallBegin msg]) by set_solver.
  unfold call_begin. destruct (closed k) eqn:Ecl.
  - specialize (O8 eq_refl). split; simpl; try done; try lia.
    + intros i c Hp. by rewrite O8, lookup_empty in Hp.
    + intros c Hr. rewrite resolve_lookup. destruct (outcomes k !! c) eqn:Eo; [by left|].
      left. case_decide; [done|]. destruct (O5 c) as [[? ?]|Hp]; [lia|congruence|]. by rewrite O8, lookup_empty in Hp.
    + intros c Hr. rewrite resolve_lookup, O6 by lia. case_decide; [lia|done].
    + intros c m. rewrite resolve_lookup. destruct (outcomes k !! c) as [x|] eqn:Eo; [intros; simplify_eq; eauto|].
      by case_decide.
    + intros f Hf. destruct (O9 f Hf). split; [lia|eauto].
    + intros c i m Hu. destruct (O10 c i m Hu). split; [lia|eauto].
  - assert (Hn : pending k !! next_request_id k = None).
    { destruct (pending k !! next_request_id k) as [c|] eqn:E; [|done]. apply O3 in E. lia. }
    rewrite Hn, Ei. rewrite Ei in Hn. split; simpl; try done; try lia.
    + intros i c [[<- <-]|[Hne Hp]]%lookup_insert_Some; [split; [done|]; split; [lia|apply O6; lia]|].
      destruct (O3 _ _ Hp) as (? & ? & ?). split; [done|]. split; [lia|done].
    + intros c i m [[<- E]|[Hne Hp]]%lookup_insert_Some; [by simplify_eq|by eapply O4].
    + intros c Hr. destruct (decide (c = calls k)) as [->|]; [right; by rewrite lookup_insert_eq|].
      rewrite lookup_insert_ne by done. apply O5. lia.
    + intros c Hr. apply O6. lia.
    + intros c m Ho. eauto.
    + intros f Hf. destruct (O9 f Hf). split; [lia|eauto].
    + intros c i m [[<- E]|[Hne Hp]]%lookup_insert_Some; [simplify_eq; split; [lia|done]|].
      destruct (O10 c i m Hp). split; [lia|eauto].
Qed.

Lemma send_ok c : conn_ok (es ++ [CallSend c]) (call_send c k).
Proof.
  destruct O as [O1 O2 O3 O4 O5 O6 O7 O8 O9 O10]. unfold call_send.
  destruct (unsent k !! c) as [[i msg]|] eqn:Eu; [|apply conn_ok_log].
  pose proof (O4 _ _ _ Eu) as ->. destruct (O10 _ _ _ Eu) as [Hr Hb]. destruct (writer_open k).
  - split; simpl; try done.
    + intros c' i m [_ Hu]%lookup_delete_Some. by eapply O4.
    + intros c' m Ho. eauto.
    + intros f [Hf| ->%list_elem_of_singleton]%elem_of_app; [destruct (O9 f Hf); eauto|]. simpl. eauto.
    + intros c' i m [_ Hu]%lookup_delete_Some. destruct (O10 _ _ _ Hu). eauto.
  - assert (Eo : forall c', resolve c None (match pending k !! c with Some w => resolve w None (outcomes k) | None => outcomes k end) !! c'
                 = match outcomes k !! c' with Some x => Some x | None => if decide (c = c') then Some None else None end).
    { intros c'. destruct (pending k !! c) as [w|] eqn:Ep; [|apply resolve_lookup].
      destruct (O3 _ _ Ep) as (<- & _). rewrite !resolve_lookup. destruct (outcomes k !! c'); [done|]. by case_decide. }
    split; simpl; try done.
    + intros i c' [Hne Hp]%lookup_delete_Some. destruct (O3 _ _ Hp) as (-> & ? & Hn). split; [done|]. split; [done|].
      by rewrite Eo, Hn, decide_False.
    + intros c' i m [_ Hu]%lookup_delete_Some. by eapply O4.
    + intros c' Hr'. rewrite Eo. destruct (outcomes k !! c') eqn:E'; [by left|].
      destruct (decide (c = c')) as [<-|Hne]; [by left|]. right. rewrite lookup_delete_ne by done.
      destruct (O5 c' Hr') as [[? ?]|]; [congruence|done].
    + intros c' Hr'. rewrite Eo, O6 by lia. case_decide; [lia|done].
    + intros c' m. rewrite Eo. destruct (outcomes k !! c') eqn:E'; [intros; simplify_eq; eauto|]. by case_decide.
    + intros Hc. rewrite O8 by done. apply delete_empty.
    + intros f Hf. destruct (O9 f Hf). eauto.
    + intros c' i m [_ Hu]%lookup_delete_Some. destruct (O10 _ _ _ Hu). eauto.
Qed.

Lemma frame_ok f : conn_ok (es ++ [ReadFrame f]) (read_server_frame f k).
Proof.
  pose proof (conn_ok_log (ReadFrame f)) as Hkeep. destruct O as [O1 O2 O3 O4 O5 O6 O7 O8 O9 O10].
  unfold read_server_frame. destruct (closed k) eqn:Ecl; [done|]. destruct f as [i m|q env].
  - destruct (pending k !! i) as [c|] eqn:Ep; [|done]. destruct (O3 _ _ Ep) as (-> & Hr & Hn).
    destruct Hkeep as [K1 K2 K3 K4 K5 K6 K7 K8 K9 K10]. split; simpl; try done.
    + intros j c' [Hne Hp]%lookup_delete_Some. destruct (O3 _ _ Hp) as (-> & ? & Ho). split; [done|]. split; [done|].
      rewrite resolve_lookup, Ho. by rewrite decide_False.
    + intros c' Hr'. rewrite resolve_lookup. destruct (outcomes k !! c') eqn:E'; [by left|].
      destruct (decide (c = c')) as [<-|Hne]; [by left|]. right. rewrite lookup_delete_ne by done.
      destruct (O5 c' Hr') as [[? ?]|]; [congruence|done].
    + intros c' Hr'. rewrite resolve_lookup, O6 by lia. case_decide; [lia|done].
    + intros c' m'. rewrite resolve_lookup. destruct (outcomes k !! c') eqn:E'; [intros; simplify_eq; eauto|].
      case_decide; [|done]. intros. simplify_eq. set_solver.
  - destruct Hkeep as [K1 K2 K3 K4 K5 K6 K7 K8 K9 K10]. by split.
Qed.

Lemma exit_ok : conn_ok (es ++ [ReaderExit]) (reader_exit k).
Proof.
  destruct O as [O1 O2 O3 O4 O5 O6 O7 O8 O9 O10].
  assert (Hp : forall i c, pending k !! i = Some c -> i = c) by (intros i c Hp; by destruct (O3 _ _ Hp)).
  assert (Eo := fun c => resolve_all_lookup (pending k) (outcomes k) c Hp).
  split; simpl; try done.
  - intros c Hr. left. rewrite Eo. destruct (O5 c Hr) as [[? ->]|Hc]; [done|].
    destruct (outcomes k !! c); [done|]. by rewrite decide_True.
  - intros c Hr. rewrite Eo, O6 by lia. case_decide as Hd; [|done]. destruct Hd as [x Hx]. destruct (O3 _ _ Hx). lia.
  - intros c m. rewrite Eo. destruct (outcomes k !! c) eqn:E; [intros; simplify_eq; eauto|]. by case_decide.
  - intros f Hf. destruct (O9 f Hf). eauto.
  - intros c i m Hu. destruct (O10 _ _ _ Hu). eauto.
Qed.

Lemma writer_exit_ok : conn_ok (es ++ [WriterExit]) (conn_step k WriterExit).
Proof. destruct (conn_ok_log WriterExit). by split. Qed.
End Step.

Lemma calls_mono k e : calls k <= calls (conn_step k e).
Proof.
  destruct e; simpl; try lia.
  - unfold call_begin. destruct (closed k); simpl; lia.
  - unfold call_send. repeat case_match; simpl; lia.
  - unfold read_server_frame. repeat case_match; simpl; lia.
Qed.

Lemma conn_run_snoc es e : conn_run (es ++ [e]) = conn_step (conn_run es) e.
Proof. unfold conn_run. by rewrite foldl_app. Qed.

Lemma conn_run_ok es : calls (conn_run es) <= u64_modulus -> conn_ok es (conn_run es).
Proof.
  induction es as [|e es IH] using rev_ind; intros Hc; [apply conn_ok_connected|].
  rewrite conn_run_snoc in *. pose proof (calls_mono (conn_run es) e).
  specialize (IH ltac:(lia)). destruct e; simpl.
  - apply begin_ok; [done|]. unfold conn_step, call_begin in Hc. destruct (closed _); simpl in Hc; lia.
  - by apply send_ok.
  - by apply frame_ok.
  - by apply exit_ok.
  - by apply writer_exit_ok.
Qed.

(** Outcomes are final. *)
Lemma outcome_kept k e c r : outcomes k !! c = Some r -> outcomes (conn_step k e) !! c = Some r.
Proof.
  intros Ho. assert (Hr : forall d x o, o !! c = Some r -> resolve d x o !! c = Some r).
  { intros d x o Hx. by rewrite resolve_lookup, Hx. }
  destruct e; simpl; try done.
  - unfold call_begin. destruct (closed k); simpl; [auto|]. destruct (pending k !! _); auto.
  - unfold call_send. destruct (unsent k !! _) as [[i m]|]; [|done]. destruct (writer_open k); simpl; [done|].
    destruct (pending k !! i); auto.
  - unfold read_server_frame. destruct (closed k); [done|]. destruct f; [|done]. destruct (pending k !! _); simpl; auto.
  - generalize (pending k). intros p. induction p as [|i x p Hi Hf IH] using map_first_key_ind.
    + by rewrite map_fold_empty.
    + rewrite map_fold_insert_first_key by done. by apply Hr.
Qed.

Lemma outcomes_final es es' c r :
  outcomes (conn_run es) !! c = Some r -> outcomes (conn_run (es ++ es')) !! c = Some r.
Proof.
  intros H. unfold conn_run. rewrite foldl_app. revert H. unfold conn_run. generalize (foldl conn_step connected es).
  induction es' as [|e es' IH]; intros k H; [done|]. simpl. apply IH. by apply outcome_kept.
Qed.

(** C35: pipelined requests get their own replies and never hang: however the tasks
    of a connection interleave, a call that ends with a reply ends with one the
    relay sent under that call's request id; its outcome never changes; a call
    either has ended or is still in the pending map under its id; and once the
    reader has stopped, every call there ever was, past or future, has ended. *)
Theorem pipelined_calls es c :
  calls (conn_run es) <= u64_modulus -> 0 <= c < calls (conn_run es) ->
  (forall m, outcomes (conn_run es) !! c = Some (Some m) -> ReadFrame (Reply c m) ∈ es) /\
  (forall es' r, outcomes (conn_run es) !! c = Some r -> outcomes (conn_run (es ++ es')) !! c = Some r) /\
  (is_Some (outcomes (conn_run es) !! c) \/ pending (conn_run es) !! c = Some c) /\
  (closed (conn_run es) = true -> is_Some (outcomes (conn_run es) !! c)).
Proof.
  intros Hc Hr. pose proof (conn_run_ok es Hc) as O. split; [|split; [|split]].
  - intros m. apply (co_replies _ _ O).
  - intros es' r. apply outcomes_final.
  - apply (co_started _ _ O c Hr).
  - intros Hcl. destruct (co_started _ _ O c Hr) as [|Hp]; [done|].
    by rewrite (co_closed _ _ O Hcl), lookup_empty in Hp.
Qed.

(** Two calls in flight, answered out of order, then the connection dies under a
    third, and a fourth begins after that. *)
Definition session_events : list ConnEvent :=
  [CallBegin RequestPowChallenge; CallBegin (Ack [1] [2]); CallSend 1; CallSend 0;
   ReadFrame (Reply 1 SOk); ReadFrame (Reply 0 (SError RateLimited)); CallBegin (Ack [1] [3]); CallSend 2;
   ReaderExit; CallBegin (Ack [1] [4])].

Lemma pipelined_calls_witness :
  outcomes (conn_run session_events) !! 1 = Some (Some SOk) /\ ReadFrame (Reply 1 SOk) ∈ session_events /\
  is_Some (outcomes (conn_run session_events) !! 3).
Proof.
  assert (Ho : outcomes (conn_run session_events) !! 1 = Some (Some SOk)) by (vm_compute; reflexivity).
  assert (Hc : calls (conn_run session_events) <= u64_modulus) by (vm_compute; discriminate).
  split; [exact Ho|]. split.
  - apply (proj1 (pipelined_calls session_events 1 Hc ltac:(vm_compute; split; congruence))). exact Ho.
  - apply (proj2 (proj2 (proj2 (pipelined_calls session_events 3 Hc ltac:(vm_compute; split; congruence))))).
    vm_compute. reflexivity.
Defined.
