(* ===== verification/Wire.v ===== *)
(** * A client's connection against the relay's server

    The pipelined connection of a client ([RelayClient.v], engine/src/relay_client.rs)
    and the connection of the relay's server it ends in ([RelayServe.v],
    relay/src/net.rs). What lies between them is a byte stream in each direction that
    delivers a prefix of what was written, in order. *)

From S2P Require Import Prelude Text External Proto ProtoProps Relay RelaySpec RelayRefine RelayDurable RelayRun RelayProps RelayPush RelayNet RelayClient RelayServe.

(** ** What a client has begun, handed to its writer and read *)

Definition begun (es : list ConnEvent) : list ClientMessage :=
  omap (fun e => match e with CallBegin m => Some m | _ => None end) es.
Definition frames_read (es : list ConnEvent) : list ServerFrame :=
  omap (fun e => match e with ReadFrame f => Some f | _ => None end) es.

Lemma begun_snoc es e : begun (es ++ [e]) = begun es ++ begun [e].
Proof. apply omap_app. Qed.

(** The [i]-th call is written under the id [i], once, with its own message. *)
Record sent_ok (es : list ConnEvent) (k : Conn) : Prop := {
  sn_calls : calls k = len (begun es);
  sn_unsent c i m : unsent k !! c = Some (i, m) -> i = c /\ 0 <= c /\ begun es !! Z.to_nat c = Some m;
  sn_queue f : f ∈ write_queue k ->
    0 <= cf_request_id f /\ begun es !! Z.to_nat (cf_request_id f) = Some (cf_message f) /\ unsent k !! cf_request_id f = None;
  sn_once : NoDup (cf_request_id <$> write_queue k);
}.

Lemma sent_ok_connected : sent_ok [] connected.
Proof. split; simpl; [done|intros c i m; by rewrite lookup_empty|set_solver|constructor]. Qed.

(** Later events only add calls. *)
Lemma sent_ok_log es e k : begun [e] = [] -> sent_ok es k -> sent_ok (es ++ [e]) k.
Proof. intros He [S1 S2 S3 S4]. split; rewrite ?begun_snoc, ?He, ?app_nil_r; done. Qed.

(** Only the calls and the queue matter. *)
Lemma sent_ok_same es k k' :
  sent_ok es k -> calls k' = calls k -> write_queue k' = write_queue k -> unsent k' = unsent k -> sent_ok es k'.
Proof. intros [S1 S2 S3 S4] E1 E2 E3. by split; rewrite ?E1, ?E2, ?E3. Qed.

Lemma sent_begin es k msg :
  RelayClient.conn_ok es k -> calls k < u64_modulus -> sent_ok es k -> sent_ok (es ++ [CallBegin msg]) (call_begin msg k).
Proof.
  intros O Hc [S1 S2 S3 S4].
  assert (Ei : next_request_id k = calls k) by (rewrite (RelayClient.co_ids _ _ O); apply Z.mod_small; pose proof (RelayClient.co_next _ _ O); lia).
  assert (Hold : forall i (m : ClientMessage), begun es !! i = Some m -> begun (es ++ [CallBegin msg]) !! i = Some m)
    by (intros i m Hm; rewrite begun_snoc; by apply lookup_app_l_Some).
  assert (Hl : len (begun (es ++ [CallBegin msg])) = calls k + 1) by (rewrite begun_snoc, len_app, S1; done).
  assert (Hn : begun (es ++ [CallBegin msg]) !! Z.to_nat (calls k) = Some msg).
  { rewrite begun_snoc, lookup_app_r; rewrite S1; unfold len; rewrite Nat2Z.id; [by rewrite Nat.sub_diag|done]. }
  assert (Hq : forall f, f ∈ write_queue k -> cf_request_id f <> calls k).
  { intros f (H0 & Hf & _)%S3. apply lookup_lt_Some in Hf. rewrite S1. unfold len. lia. }
  unfold call_begin. destruct (closed k).
  - split; simpl; [done| |intros f Hf|done].
    + intros c i m Hu. destruct (S2 _ _ _ Hu) as (? & ? & ?). auto.
    + destruct (S3 f Hf) as (? & ? & ?). auto.
  - split; simpl; [done| |intros f Hf|done].
    + intros c i m. rewrite Ei. intros [[<- E]|[Hne Hu]]%lookup_insert_Some.
      * simplify_eq. pose proof (RelayClient.co_next _ _ O). split; [done|]. split; [lia|done].
      * destruct (S2 _ _ _ Hu) as (? & ? & ?). auto.
    + destruct (S3 f Hf) as (? & ? & ?). split; [done|]. split; [auto|]. rewrite lookup_insert_ne; [done|].
      intros E. by apply (Hq f Hf).
Qed.

Lemma sent_send es k c : sent_ok es k -> sent_ok (es ++ [CallSend c]) (call_send c k).
Proof.
  intros S. apply sent_ok_log; [done|]. unfold call_send. destruct (unsent k !! c) as [[i msg]|] eqn:Eu; [|done].
  destruct S as [S1 S2 S3 S4]. destruct (S2 _ _ _ Eu) as (-> & H0 & Hb).
  assert (Hu : forall c' i m, delete c (unsent k) !! c' = Some (i, m) -> i = c' /\ 0 <= c' /\ begun es !! Z.to_nat c' = Some m)
    by (intros c' i m [_ Hx]%lookup_delete_Some; by apply S2).
  assert (Hq : forall f, f ∈ write_queue k -> 0 <= cf_request_id f /\
    begun es !! Z.to_nat (cf_request_id f) = Some (cf_message f) /\ delete c (unsent k) !! cf_request_id f = None).
  { intros f Hf. destruct (S3 f Hf) as (? & ? & Hn). split; [done|]. split; [done|]. apply lookup_delete_None. by right. }
  destruct (writer_open k); split; simpl; try done.
  - intros f [Hf| ->%list_elem_of_singleton]%elem_of_app; [by apply Hq|]. simpl. rewrite lookup_delete_eq. done.
  - rewrite fmap_app. apply NoDup_app. split; [done|]. split; [|apply NoDup_singleton].
    intros x (f & -> & Hf)%list_elem_of_fmap Hx%list_elem_of_singleton. simpl in Hx.
    destruct (S3 f Hf) as (_ & _ & Hn). rewrite Hx in Hn. congruence.
Qed.

Lemma sent_run es : calls (conn_run es) <= u64_modulus -> sent_ok es (conn_run es).
Proof.
  induction es as [|e es IH] using rev_ind; intros Hc; [apply sent_ok_connected|].
  rewrite conn_run_snoc in *. pose proof (calls_mono (conn_run es) e). specialize (IH ltac:(lia)).
  destruct e; cbn [conn_step].
  - apply sent_begin; [apply conn_run_ok; lia| |done]. unfold conn_step, call_begin in Hc. destruct (closed _); simpl in Hc; lia.
  - by apply sent_send.
  - apply sent_ok_log; [done|]. unfold read_server_frame. repeat case_match; try done; by eapply sent_ok_same.
  - apply sent_ok_log; [done|]. by eapply sent_ok_same.
  - apply sent_ok_log; [done|]. by eapply sent_ok_same.
Qed.

(** The pushes a client has queued are those it has read, up to the end of its reader. *)
Lemma pushed_read es :
  RelayClient.pushed (conn_run es) `prefix_of` pushes (frames_read es) /\
  (closed (conn_run es) = false -> RelayClient.pushed (conn_run es) = pushes (frames_read es)).
Proof.
  assert (Hs : forall es e, pushes (frames_read (es ++ [e])) = pushes (frames_read es) ++ pushes (frames_read [e]))
    by (intros; unfold pushes, frames_read; by rewrite !omap_app).
  induction es as [|e es [IH1 IH2]] using rev_ind; [done|]. rewrite conn_run_snoc, Hs.
  assert (Hq : forall k', RelayClient.pushed k' = RelayClient.pushed (conn_run es) -> (closed k' = false -> closed (conn_run es) = false) ->
    pushes (frames_read [e]) = [] ->
    RelayClient.pushed k' `prefix_of` pushes (frames_read es) ++ pushes (frames_read [e]) /\
    (closed k' = false -> RelayClient.pushed k' = pushes (frames_read es) ++ pushes (frames_read [e]))).
  { intros k' -> Hc ->. rewrite app_nil_r. split; [done|]. auto. }
  destruct e as [msg|c|f| |]; cbn [conn_step]; try (by apply Hq).
  - apply Hq; [| |done]; unfold call_begin; destruct (closed (conn_run es)) eqn:Ec; simpl; done.
  - apply Hq; [| |done]; unfold call_send; repeat case_match; done.
  - unfold read_server_frame. destruct (closed (conn_run es)) eqn:Ec.
    { split; [by apply prefix_app_r|]. by rewrite Ec. }
    rewrite <- (IH2 eq_refl). destruct f as [i m|q env]; [|by simpl].
    rewrite app_nil_r. destruct (pending (conn_run es) !! i); simpl; done.
Qed.

(** ** The streams between them *)

Section Wire.
Context {X : RelayExt} `{BC : Bincode ClientFrame, !BincodeLaws ClientFrame}.

(** Frames read off a prefix of what was written are the first of the frames written. *)
Lemma frames_arrive {A} `{BincodeLaws A} n (fs l : list A) (bs rest : bytes) :
  Forall fits_frame fs -> bs `prefix_of` concat (write_frame <$> fs) -> read_frames n bs = (Ok l, rest) -> l `prefix_of` fs.
Proof.
  intros Hf [more E] Hr. apply (read_frames_more _ _ more) in Hr. rewrite <- E in Hr. clear E.
  revert n l Hr. generalize (rest ++ more). clear rest. induction Hf as [|f fs Hf Hfs IH]; intros rest n l.
  - destruct n as [|n]; cbn [read_frames]; [intros [= <- _]; apply prefix_nil|]. discriminate.
  - destruct n as [|n]; cbn [read_frames]; [intros [= <- _]; apply prefix_nil|]. cbn [fmap list_fmap concat].
    rewrite read_write_frame by done. destruct (read_frames n _) as [[l'|e] r] eqn:En; [|done]. intros [= <- _].
    apply prefix_cons. by eapply IH.
Qed.

(** C32: a call gets the relay's answer to its own request. Whatever other connections
    the server has and however all tasks interleave, when a call on a connection ends
    with a reply, the relay made an operation for that connection with exactly this
    call's message and answered it with exactly this reply, and no other frame of the
    connection carried its id; and the pushes the client has queued are the first of
    those the relay posted for this connection, in order. *)
Theorem call_gets_own_answer es evs w s os c k :
  net_run evs (mkServer w ∅) = Some (s, os) -> conns s !! c = Some k ->
  calls (conn_run es) <= u64_modulus -> Forall fits_frame (write_queue (conn_run es)) ->
  received k `prefix_of` concat (write_frame <$> write_queue (conn_run es)) -> frames_read es `prefix_of` written k ->
  (forall i m, outcomes (conn_run es) !! i = Some (Some m) ->
     exists msg j, begun es !! Z.to_nat i = Some msg /\ results_of c os w !! j = Some (msg, m) /\
       answered k !! j = Some (mkClientFrame i msg, m) /\
       forall j' f' m', answered k !! j' = Some (f', m') -> cf_request_id f' = i -> j' = j) /\
  RelayClient.pushed (conn_run es) `prefix_of` due_pushes (sent (world s) c).
Proof.
  intros S%server_run_served Hk Hc Hf Hin Hout. pose proof (sent_run es Hc) as [_ _ Q1 Q2].
  destruct (so_conn _ _ _ S _ _ Hk) as [R1 _ _ [R2 R3]]. pose proof (so_dialog _ _ _ S _ _ Hk) as Hd.
  assert (Hp : (answered k).*1 `prefix_of` write_queue (conn_run es)) by by eapply frames_arrive.
  split.
  - intros i m Ho. apply (RelayClient.co_replies _ _ (conn_run_ok es Hc)) in Ho.
    assert (Hr : (i, m) ∈ due_replies k).
    { eapply elem_of_prefix; [|exact R2]. destruct Hout as [l ->]. unfold replies. rewrite omap_app. apply elem_of_app. left.
      apply list_elem_of_omap. exists (Reply i m). split; [|done]. apply list_elem_of_omap. by exists (ReadFrame (Reply i m)). }
    unfold due_replies in Hr. apply list_elem_of_fmap in Hr as ([f m0] & E & Hin'). simpl in E. simplify_eq.
    apply list_elem_of_lookup in Hin' as [j Hj].
    assert (Hfq : f ∈ write_queue (conn_run es)).
    { eapply elem_of_prefix; [|exact Hp]. apply list_elem_of_fmap. exists (f, m0). split; [done|]. by eapply list_elem_of_lookup_2. }
    destruct (Q1 f Hfq) as (_ & Hb & _). exists (cf_message f), j. split; [done|]. split.
    { rewrite <- Hd. unfold dialog. by rewrite list_lookup_fmap, Hj. }
    split; [by destruct f|]. intros j' f' m' Hj' Hid.
    assert (Hn : NoDup (cf_request_id <$> (answered k).*1)).
    { destruct Hp as [l Hl]. rewrite Hl, fmap_app in Q2. by apply NoDup_app in Q2 as [? _]. }
    eapply (NoDup_lookup _ j' j (cf_request_id f) Hn); by rewrite !list_lookup_fmap, ?Hj, ?Hj'; simpl; rewrite ?Hid.
  - etrans; [apply pushed_read|]. destruct Hout as [l Hl]. etrans; [|etrans; [exact R3|]].
    + rewrite Hl. unfold pushes. rewrite omap_app. by apply prefix_app_r.
    + unfold due_pushes. rewrite <- (take_drop (forwarded k) (sent (world s) c)) at 2. rewrite fmap_app. by apply prefix_app_r.
Qed.
End Wire.

(** ** Two calls and a push *)

Module WireExamples.
Import ToyInstances RelayToy Scenario NetExamples ServeExamples.

(** A client pipelines an acknowledgement before a subscription that it began first;
    another connection sends to the mailbox. *)
Definition client_begins : list ConnEvent :=
  [CallBegin (Subscribe [idq 1]); CallBegin (Ack (idq 2) [1]); CallSend 1; CallSend 0].
Definition client_bytes : bytes := concat (write_frame <$> write_queue (conn_run client_begins)).
Definition steps : list event :=
  [Accepts 1; Accepts 2; Receives 1 client_bytes; Receives 2 send_bytes; Turns 1 (at_ 6 []); Turns 1 (at_ 6 []); Turns 2 (at_ 6 []);
   Forwards 1; Writes 1; Writes 1; Writes 1].
Definition client_events : list ConnEvent :=
  client_begins ++ [ReadFrame (Reply 1 SOk); ReadFrame (Reply 0 SOk); ReadFrame (Push (idq 1) (env 12))].

Abbreviation server_outcome := (outcome_of (net_run steps (mkServer ready ∅))).
Lemma steps_run : net_run steps (mkServer ready ∅) = Some (server_outcome.1, server_outcome.2).
Proof. apply (server_outcome_eq _ true); [vm_compute; reflexivity|done]. Qed.
Abbreviation client_conn := (default connection_new (conns server_outcome.1 !! 1%nat)).
Lemma client_conn_eq : conns server_outcome.1 !! 1%nat = Some client_conn.
Proof. destruct (conns server_outcome.1 !! 1%nat) eqn:E; [done|]. revert E. vm_compute. discriminate. Qed.

Lemma all_written : received client_conn = client_bytes /\ written client_conn = frames_read client_events.
Proof. split; vm_compute; reflexivity. Qed.

Lemma call_gets_own_answer_witness :
  exists msg j, begun client_events !! 0%nat = Some msg /\ results_of 1 server_outcome.2 ready !! j = Some (msg, SOk) /\
    RelayClient.pushed (conn_run client_events) = [(idq 1, env 12)].
Proof.
  destruct (call_gets_own_answer client_events steps ready server_outcome.1 server_outcome.2 1%nat client_conn steps_run client_conn_eq)
    as [H _].
  - vm_compute. discriminate.
  - repeat constructor; vm_compute; discriminate.
  - exists []. rewrite app_nil_r, (proj1 all_written). vm_compute. reflexivity.
  - exists []. rewrite app_nil_r. exact (proj2 all_written).
  - destruct (H 0 SOk) as (msg & j & H1 & H2 & _ & _); [vm_compute; reflexivity|].
    exists msg, j. split; [exact H1|]. split; [exact H2|]. vm_compute. reflexivity.
Defined.
End WireExamples.
