(* ===== verification/Engine.v ===== *)
(** * The chat engine (engine/src/chat_engine.rs, and the calls of relay_client.rs)

    [ChatEngine] as its callers drive it: pairing, sending, committing, pumping
    pushes, persisting and resuming. Everything the engine waits for comes from a
    script [Io]: the results of its requests in order ([None] is a connection that
    died under one), the pushes ([None] when the connection is gone), whether a
    connection attempt works, whether the store takes a transaction. A computation
    that waits for more than the script holds is [Blocked], which is also how a
    future ends that its caller drops while it waits. [trace] records, in order, the
    requests made and the messages handed to the MLS session. *)

From S2P Require Import Prelude Text External Proto CoreSession.

(** ** What an engine is made of *)

Inductive Event :=
| EMessage (m : bytes)
| EpochAdvanced (ep : Z)
| ConnectionChanged (online : bool).

(** The errors a caller tells apart. *)
Inductive EngErr := ConnectionClosed | LinkErr (e : LinkError) | Base64Err | OtherErr.

(** What an engine does, as the trace records it: a request, a message given to the
    session, a group joined from a bootstrap message, an own commit merged. *)
Inductive Effect :=
| Called (m : ClientMessage)
| Applied (id : MessageId)
| Joined (id : MessageId)
| Merged (id : MessageId).

Record Io := mkIo {
  io_calls : list (option ServerMessage);
  io_pushes : list (option (QueueId * Envelope));
  io_connects : list bool;
  io_commits : list bool;
  io_rnd : list bytes;
  trace : list Effect;
  disk : Disk;
}.

Inductive outcome (A : Type) :=
| Done (a : A)
| Failed (e : EngErr)
| Blocked.
Arguments Done {A} a.
Arguments Failed {A} e.
Arguments Blocked {A}.

(** What travels through the bootstrap mailbox (engine/src/pairing.rs). *)
Record BootstrapPayload := mkBootstrap {
  welcome_wire : bytes;
  tree_wire : bytes;
  inbox_qid : QueueId;
  inbox_key : bytes;
}.

(** The half of the state that [resume] needs besides the session. *)
Record PersistedEngine := mkPersisted {
  p_display_name : bytes;
  p_relay_addr : string;
  p_relay_fingerprint : bytes;
  p_mailbox_qid : QueueId;
  p_mailbox_key : bytes;
  p_inbox : option (QueueId * bytes);
}.

(** The third-party code a client calls. *)
Class ClientExt := {
  client_mls :: Mls;
  client_sha :: Sha256;
  client_hmac :: HmacSha256;
  client_base64 :: Base64;
  client_envelope :: Bincode Envelope;
  client_link :: Bincode ContactLink;
  client_bootstrap :: Bincode BootstrapPayload;
  client_snapshot :: Bincode SessionSnapshot;
  client_record :: Bincode PersistedEngine;
}.

Section Engine.
Context {X : ClientExt}.

Record Engine := mkEngine {
  display_name : bytes;
  session : Session;
  relay_addr_ : string;
  relay_fp : bytes;
  mailbox_qid : QueueId;
  mailbox_key : bytes;
  inbox : option (QueueId * bytes);
  seen : gset MessageId;
  pending_events : list Event;
  store : bool;                     (** whether a store is attached *)
  attestation_tokens : list AttestationToken;
}.

Definition set_session (s : Session) (e : Engine) : Engine :=
  mkEngine (display_name e) s (relay_addr_ e) (relay_fp e) (mailbox_qid e) (mailbox_key e) (inbox e) (seen e)
    (pending_events e) (store e) (attestation_tokens e).
Definition set_inbox (i : option (QueueId * bytes)) (e : Engine) : Engine :=
  mkEngine (display_name e) (session e) (relay_addr_ e) (relay_fp e) (mailbox_qid e) (mailbox_key e) i (seen e)
    (pending_events e) (store e) (attestation_tokens e).
Definition set_seen (s : gset MessageId) (e : Engine) : Engine :=
  mkEngine (display_name e) (session e) (relay_addr_ e) (relay_fp e) (mailbox_qid e) (mailbox_key e) (inbox e) s
    (pending_events e) (store e) (attestation_tokens e).
Definition set_events (ev : list Event) (e : Engine) : Engine :=
  mkEngine (display_name e) (session e) (relay_addr_ e) (relay_fp e) (mailbox_qid e) (mailbox_key e) (inbox e) (seen e)
    ev (store e) (attestation_tokens e).
Definition set_store (b : bool) (e : Engine) : Engine :=
  mkEngine (display_name e) (session e) (relay_addr_ e) (relay_fp e) (mailbox_qid e) (mailbox_key e) (inbox e) (seen e)
    (pending_events e) b (attestation_tokens e).
Definition set_tokens (t : list AttestationToken) (e : Engine) : Engine :=
  mkEngine (display_name e) (session e) (relay_addr_ e) (relay_fp e) (mailbox_qid e) (mailbox_key e) (inbox e) (seen e)
    (pending_events e) (store e) t.

(** ** The monad: the script and a state *)

Definition W (S A : Type) : Type := Io * S -> (Io * S) * outcome A.

Definition w_ret {S A} (a : A) : W S A := fun w => (w, Done a).
Definition w_fail {S A} (e : EngErr) : W S A := fun w => (w, Failed e).
Definition w_block {S A} : W S A := fun w => (w, Blocked).
Definition w_bind {S A B} (m : W S A) (k : A -> W S B) : W S B := fun w =>
  match m w with
  | (w', Done a) => k a w'
  | (w', Failed e) => (w', Failed e)
  | (w', Blocked) => (w', Blocked)
  end.

Notation "x <~ m ; k" := (w_bind m (fun x => k)) (at level 100, m at next level, right associativity).

Definition w_get {S A} (f : S -> A) : W S A := fun w => (w, Done (f w.2)).
Definition w_set {S} (f : S -> S) : W S unit := fun w => ((w.1, f w.2), Done tt).
Definition w_option {S A} (o : option A) (e : EngErr) : W S A := fun w =>
  (w, match o with Some a => Done a | None => Failed e end).
Definition w_result {S A E} (f : E -> EngErr) (r : result A E) : W S A := fun w =>
  (w, match r with Ok a => Done a | Err e => Failed (f e) end).
(** Look at how a computation ends. *)
Definition w_try {S A} (m : W S A) : W S (result A EngErr) := fun w =>
  match m w with
  | (w', Done a) => (w', Done (Ok a))
  | (w', Failed e) => (w', Done (Err e))
  | (w', Blocked) => (w', Blocked)
  end.

Definition set_trace (t : list Effect) (io : Io) : Io :=
  mkIo (io_calls io) (io_pushes io) (io_connects io) (io_commits io) (io_rnd io) t (disk io).

Definition note {S} (e : Effect) : W S unit := fun '(io, s) => ((set_trace (trace io ++ [e]) io, s), Done tt).

(** Random bytes for the MLS library. *)
Definition rnd {S} : W S bytes := fun '(io, s) =>
  ((mkIo (io_calls io) (io_pushes io) (io_connects io) (io_commits io) (tail (io_rnd io)) (trace io) (disk io), s),
   Done (hd [] (io_rnd io))).

(** ** The requests of [RelayClient] *)

Definition call {S} (m : ClientMessage) : W S ServerMessage :=
  _ <~ note (Called m);
  fun '(io, s) =>
    match io_calls io with
    | [] => ((io, s), Blocked)
    | r :: rs =>
        ((mkIo rs (io_pushes io) (io_connects io) (io_commits io) (io_rnd io) (trace io) (disk io), s),
         match r with Some a => Done a | None => Failed ConnectionClosed end)
    end.

(** [push_rx.recv()]. *)
Definition recv {S} : W S (option (QueueId * Envelope)) := fun '(io, s) =>
  match io_pushes io with
  | [] => ((io, s), Blocked)
  | p :: ps =>
      ((mkIo (io_calls io) ps (io_connects io) (io_commits io) (io_rnd io) (trace io) (disk io), s), Done p)
  end.

(** [RelayClient::connect]. *)
Definition connect_relay {S} : W S unit := fun '(io, s) =>
  match io_connects io with
  | [] => ((io, s), Blocked)
  | ok :: cs =>
      ((mkIo (io_calls io) (io_pushes io) cs (io_commits io) (io_rnd io) (trace io) (disk io), s),
       if ok : bool then Done tt else Failed OtherErr)
  end.

(** [challenge.solve()]; while it is still searching, nothing happens. *)
Definition solve {S} (fuel : nat) (c : PowChallenge) : W S PowSolution := fun w =>
  (w, match PowChallenge_solve c fuel with Some s => Done s | None => Blocked end).

Definition create_queue_with_pow {S} (fuel : nat) (build : PowSolution -> ClientMessage) : W S (QueueId * bytes) :=
  r <~ call RequestPowChallenge;
  c <~ match r with SPowChallenge c => w_ret c | _ => w_fail OtherErr end;
  s <~ solve fuel c;
  r <~ call (build s);
  match r with SQueueCreated q k => w_ret (q, k) | _ => w_fail OtherErr end.

Definition rc_create_mailbox {S} (fuel : nat) (att : option AttestationToken) : W S (QueueId * bytes) :=
  create_queue_with_pow fuel (fun s => CreateMailbox s att).

Definition rc_create_group_inbox {S} (fuel : nat) (ep : Z) (fan_out_to : list QueueId) (att : option AttestationToken)
  : W S (QueueId * bytes) :=
  create_queue_with_pow fuel (fun s => CreateGroupInbox s ep fan_out_to att).

Definition rc_send_to_mailbox {S} (q : QueueId) (key : bytes) (env : Envelope) : W S unit :=
  r <~ call (SendToMailbox q (compute_tag key q env) env);
  match r with SOk => w_ret tt | _ => w_fail OtherErr end.

(** The relay's rejection is data. *)
Definition rc_send_to_group_inbox {S} (q : QueueId) (key : bytes) (k : GroupSendKind) (env : Envelope)
  : W S (result unit RejectionCode) :=
  r <~ call (SendToGroupInbox q k (compute_tag key q env) env);
  match r with SOk => w_ret (Ok tt) | SError c => w_ret (Err c) | _ => w_fail OtherErr end.

Definition rc_subscribe {S} (qs : list QueueId) : W S unit :=
  r <~ call (Subscribe qs);
  match r with SOk => w_ret tt | _ => w_fail OtherErr end.

Definition rc_ack {S} (q : QueueId) (id : MessageId) : W S unit :=
  r <~ call (Ack q id);
  match r with SOk => w_ret tt | _ => w_fail OtherErr end.

(** ** Helpers of the engine *)

Definition wrap (wire : bytes) : option Envelope :=
  padded ← pad wire; Some (Envelope_new (message_id_for wire) RelayFanout padded).

(** Run a computation on the session of the engine. *)
Definition on_session {A} (m : Ses A) : W Engine A := fun '(io, e) =>
  let '(s, r) := m (session e) in
  ((io, set_session s e), match r with Ok a => Done a | Err _ => Failed OtherErr end).

Definition session_read {A} (f : Session -> result A SessionError) : W Engine A := fun '(io, e) =>
  ((io, e), match f (session e) with Ok a => Done a | Err _ => Failed OtherErr end).

Definition engine_record (e : Engine) : PersistedEngine :=
  mkPersisted (display_name e) (relay_addr_ e) (relay_fp e) (mailbox_qid e) (mailbox_key e) (inbox e).

Definition persist (new_seen : list MessageId) : W Engine unit := fun '(io, e) =>
  if store e then
    let ok := hd true (io_commits io) in
    let '(d, r) := Store_commit ok [(str "engine", bincode_serialize (engine_record e));
                                    (str "session", snapshot (session e))] new_seen (disk io) in
    ((mkIo (io_calls io) (io_pushes io) (io_connects io) (tail (io_commits io)) (io_rnd io) (trace io) d, e),
     match r with Ok _ => Done tt | Err _ => Failed OtherErr end)
  else ((io, e), Done tt).

(** ** Connecting *)

Definition connect_with_session {S} (fuel : nat) (name : bytes) (addr : string) (fp : bytes) (s : Session)
    (tokens : list AttestationToken) : W S Engine :=
  _ <~ connect_relay;
  m <~ rc_create_mailbox fuel (head tokens);
  _ <~ rc_subscribe [m.1];
  w_ret (mkEngine name s addr fp m.1 m.2 None ∅ [] false (tail tokens)).

Definition attach_store : W Engine unit :=
  _ <~ w_set (set_store true);
  all_seen <~ w_get (fun e => elements (seen e));
  persist all_seen.

(** [MessageId::try_from(v.as_slice())]. *)
Definition seen_id (v : bytes) : option MessageId := if len v =? 16 then Some v else None.

Definition resume {S} : W S Engine := fun '(io, s) =>
  (r <~ w_option (Store_get (str "engine") (disk io)) OtherErr;
   rec <~ w_option (bincode_deserialize r) OtherErr;
   bs <~ w_option (Store_get (str "session") (disk io)) OtherErr;
   sess <~ w_result (fun _ => OtherErr) (restore bs);
   ids <~ w_option (mapM seen_id (Store_seen_ids (disk io))) OtherErr;
   _ <~ connect_relay;
   _ <~ rc_subscribe [p_mailbox_qid rec];
   w_ret (mkEngine (p_display_name rec) sess (p_relay_addr rec) (p_relay_fingerprint rec) (p_mailbox_qid rec)
            (p_mailbox_key rec) (p_inbox rec) (list_to_set ids) [] true [])) (io, s).

(** The loop over [attempt in 1..=ATTEMPTS], by the attempts left. *)
Fixpoint reconnect_loop (attempts : nat) : W Engine unit :=
  match attempts with
  | O => w_fail OtherErr
  | S n =>
      r <~ w_try connect_relay;
      match r with
      | Ok _ => q <~ w_get mailbox_qid; rc_subscribe [q]
      | Err e => match n with O => w_fail OtherErr | S _ => reconnect_loop n end
      end
  end.

Definition ATTEMPTS : nat := 40.
Definition reconnect : W Engine unit := reconnect_loop ATTEMPTS.

(** ** Pairing *)

Definition contact_link : W Engine bytes :=
  r <~ rnd;
  kp <~ on_session (generate_key_package r);
  e <~ w_get id;
  link <~ w_result (fun _ => OtherErr)
            (build_contact_link kp (relay_addr_ e) (relay_fp e) (mailbox_qid e) (mailbox_key e));
  w_ret (b64_encode (ContactLink_to_bytes link)).

(** Run an engine's computation, then drop to the constructor's level. *)
Definition with_engine {S A} (m : W Engine A) (e : Engine) : W S (Engine * A) := fun '(io, s) =>
  match m (io, e) with
  | ((io', e'), Done a) => ((io', s), Done (e', a))
  | ((io', _), Failed x) => ((io', s), Failed x)
  | ((io', _), Blocked) => ((io', s), Blocked)
  end.

(** The rest of [pair_with_link_using], on the connected engine. *)
Definition found_group (fuel : nat) (link : ContactLink) (ep : Endpoint) : W Engine unit :=
  kp <~ w_result (fun _ => OtherErr) (key_package_from_link link);
  r <~ rnd;
  _ <~ on_session (create_group r);
  r <~ rnd;
  welcome <~ on_session (add_members r [kp]);
  tree <~ on_session export_ratchet_tree;
  tokens <~ w_get attestation_tokens;
  _ <~ w_set (set_tokens (tail tokens));
  own <~ w_get mailbox_qid;
  ib <~ rc_create_group_inbox fuel 1 [own; ep_queue_id ep] (head tokens);
  env <~ w_option (wrap (bincode_serialize (mkBootstrap welcome tree ib.1 ib.2))) OtherErr;
  _ <~ rc_send_to_mailbox (ep_queue_id ep) (ep_send_key ep) env;
  w_set (set_inbox (Some ib)).

Definition pair_with_link_using {S} (fuel : nat) (name link_b64 : bytes) (session_opt : option Session)
    (tokens : list AttestationToken) : W S Engine :=
  bs <~ w_option (b64_decode (trim link_b64)) Base64Err;
  link <~ w_result LinkErr (ContactLink_from_bytes bs);
  (* a validated link has an endpoint *)
  ep <~ w_option (primary_endpoint link) OtherErr;
  r <~ rnd;
  let s := match session_opt with Some s => s | None => ChatSession_new r name end in
  e <~ connect_with_session fuel name (relay_addr ep) (relay_fingerprint ep) s tokens;
  r <~ with_engine (found_group fuel link ep) e;
  w_ret r.1.

(** ** Acknowledging *)

Definition try_ack (q : QueueId) (id : MessageId) : W Engine unit :=
  r <~ w_try (rc_ack q id);
  match r with
  | Ok _ => w_ret tt
  | Err ConnectionClosed => w_ret tt
  | Err e => w_fail e
  end.

Definition mark_seen (id : MessageId) : W Engine unit := w_set (fun e => set_seen ({[id]} ∪ seen e) e).

(** The loop of [await_pairing]: every turn takes a push off the script. *)
Fixpoint await_pairing_loop (fuel : nat) : W Engine unit :=
  match fuel with
  | O => w_block
  | S fuel' =>
      p <~ recv;
      match p with
      | None => _ <~ reconnect; await_pairing_loop fuel'
      | Some (q, env) =>
          b <~ w_option (bincode_deserialize (padded_ciphertext env)) OtherErr;
          _ <~ on_session (join_from_welcome (welcome_wire b) (tree_wire b));
          _ <~ mark_seen (message_id env);
          _ <~ note (Joined (message_id env));
          _ <~ w_set (set_inbox (Some (inbox_qid b, inbox_key b)));
          _ <~ persist [message_id env];
          try_ack q (message_id env)
      end
  end.

Definition await_pairing : W Engine unit := fun w => await_pairing_loop (S (length (io_pushes w.1))) w.

Definition is_paired (e : Engine) : bool := match inbox e with Some _ => true | None => false end.

(** [names.into_iter().find(|n| *n != self.display_name)]. *)
Definition peer_name (e : Engine) : option bytes :=
  match member_names (session e) with
  | Ok names => find_first (fun n => negb (bool_decide (n = display_name e))) names
  | Err _ => None
  end.

(** ** Sending *)

(** The loop of [send_message]: every turn takes a reply off the script. *)
Fixpoint send_loop (fuel : nat) (q : QueueId) (key : bytes) (env : Envelope) : W Engine unit :=
  match fuel with
  | O => w_block
  | S fuel' =>
      r <~ w_try (rc_send_to_group_inbox q key Proto.Application env);
      match r with
      | Ok (Ok _) => w_ret tt
      | Ok (Err _) => w_fail OtherErr
      | Err ConnectionClosed => _ <~ reconnect; send_loop fuel' q key env
      | Err e => w_fail e
      end
  end.

Definition send_message (plaintext : bytes) : W Engine unit :=
  ib <~ w_get inbox;
  ib <~ w_option ib OtherErr;
  r <~ rnd;
  wire <~ on_session (encrypt_application r plaintext);
  env <~ w_option (wrap wire) OtherErr;
  _ <~ mark_seen (message_id env);
  _ <~ persist [message_id env];
  fun w => send_loop (S (length (io_calls w.1))) ib.1 ib.2 env w.

(** ** Pumping *)

Definition push_event (ev : Event) : W Engine unit := w_set (fun e => set_events (pending_events e ++ [ev]) e).

Definition event_of (inc : Incoming) : W Engine Event :=
  match inc with
  | Application m => w_ret (EMessage m)
  | CommitApplied => ep <~ session_read epoch; w_ret (EpochAdvanced ep)
  end.

(** First sight of a message: apply it, queue its event, persist. *)
Definition apply_push (env : Envelope) : W Engine unit :=
  let id := message_id env in
  _ <~ note (Applied id);
  inc <~ on_session (process_incoming (padded_ciphertext env));
  ev <~ event_of inc;
  _ <~ push_event ev;
  persist [id].

Definition pump_one : W Engine unit :=
  p <~ recv;
  match p with
  | None =>
      _ <~ push_event (ConnectionChanged false);
      _ <~ reconnect;
      push_event (ConnectionChanged true)
  | Some (q, env) =>
      let id := message_id env in
      old <~ w_get seen;
      _ <~ mark_seen id;
      _ <~ (if bool_decide (id ∈ old) then w_ret tt else apply_push env);
      try_ack q id
  end.

(** The loop of [next_event]: every turn takes a push off the script. *)
Fixpoint next_event_loop (fuel : nat) : W Engine Event :=
  match fuel with
  | O => w_block
  | S fuel' =>
      evs <~ w_get pending_events;
      match evs with
      | ev :: rest => _ <~ w_set (set_events rest); w_ret ev
      | [] => _ <~ pump_one; next_event_loop fuel'
      end
  end.

Definition next_event : W Engine Event := fun w => next_event_loop (S (S (length (io_pushes w.1)))) w.

(** ** Committing *)

(** The inner loop: send until the relay answers. *)
Fixpoint commit_send_loop (fuel : nat) (q : QueueId) (key : bytes) (ep : Z) (env : Envelope)
  : W Engine (result unit RejectionCode) :=
  match fuel with
  | O => w_block
  | S fuel' =>
      r <~ w_try (rc_send_to_group_inbox q key (Commit ep) env);
      match r with
      | Ok res => w_ret res
      | Err ConnectionClosed => _ <~ reconnect; commit_send_loop fuel' q key ep env
      | Err e => w_fail e
      end
  end.

(** Pump until the session's epoch moves. *)
Fixpoint drain_loop (fuel : nat) (stale : Z) : W Engine unit :=
  match fuel with
  | O => w_block
  | S fuel' =>
      ep <~ session_read epoch;
      if ep =? stale then _ <~ pump_one; drain_loop fuel' stale else w_ret tt
  end.

Fixpoint commit_loop (fuel : nat) (q : QueueId) (key : bytes) : W Engine Z :=
  match fuel with
  | O => w_block
  | S fuel' =>
      ep <~ session_read epoch;
      r <~ rnd;
      wire <~ on_session (self_update r);
      env <~ w_option (wrap wire) OtherErr;
      res <~ (fun w => commit_send_loop (S (length (io_calls w.1))) q key ep env w);
      match res with
      | Ok _ =>
          _ <~ mark_seen (message_id env);
          _ <~ on_session merge_pending_commit;
          _ <~ note (Merged (message_id env));
          _ <~ persist [message_id env];
          session_read epoch
      | Err EpochConflict =>
          _ <~ on_session discard_pending_commit;
          _ <~ (fun w => drain_loop (S (length (io_pushes w.1))) ep w);
          commit_loop fuel' q key
      | Err _ => w_fail OtherErr
      end
  end.

Definition commit_self_update : W Engine Z :=
  ib <~ w_get inbox;
  ib <~ w_option ib OtherErr;
  fun w => commit_loop (S (length (io_calls w.1))) ib.1 ib.2 w.
End Engine.

Notation "x <~ m ; k" := (w_bind m (fun x => k)) (at level 100, m at next level, right associativity) : rosette_scope.
