(* ===== verification/EngineInv.v ===== *)
(** * The engine's delivery invariant

    Over any sequence of operations, crashes and resumes in which no operation
    reported an error: a message is handed to the MLS session at most once, and
    whatever was applied, acknowledged or sent is in the seen set on disk. A small
    Hoare logic decomposes the operations; its invariant must hold wherever a
    computation can be dropped. *)

From S2P Require Import Prelude Text External Proto CoreSession Engine.

(** ** What the trace makes known *)

(** The ids a trace has applied, joined from, merged as an own commit, acknowledged or
    sent as application messages. *)
Definition known_by (e : Effect) : option MessageId :=
  match e with
  | Applied id | Joined id | Merged id => Some id
  | Called (Ack _ id) => Some id
  | Called (SendToGroupInbox _ Proto.Application _ env) => Some (message_id env)
  | _ => None
  end.

Definition known (t : list Effect) : gset MessageId := list_to_set (omap known_by t).

(** Nothing is applied that was known before. *)
Definition once (t : list Effect) : Prop :=
  forall t1 id t2, t = t1 ++ Applied id :: t2 -> id ∉ known t1.

Lemma known_app t t' : known (t ++ t') = known t ∪ known t'.
Proof. unfold known. by rewrite omap_app, list_to_set_app_L. Qed.

Lemma known_snoc t e : known (t ++ [e]) = known t ∪ match known_by e with Some id => {[id]} | None => ∅ end.
Proof. rewrite known_app. f_equal. unfold known. simpl. destruct (known_by e); simpl; set_solver. Qed.

Lemma once_nil : once [].
Proof. intros t1 id t2 E. by destruct t1. Qed.

Lemma once_snoc t e : once t -> (forall id, e = Applied id -> id ∉ known t) -> once (t ++ [e]).
Proof.
  intros Ht He t1 id t2 E. destruct (decide (t2 = [])) as [->|Hn].
  - apply app_inj_tail in E as [-> E]. by apply He.
  - destruct (exists_last Hn) as (t2' & x & ->).
    change (t ++ [e] = t1 ++ (Applied id :: t2') ++ [x]) in E. rewrite app_assoc in E.
    apply app_inj_tail in E as [-> _]. by eapply Ht.
Qed.

(** No id is applied twice. *)
Lemma once_NoDup t : once t -> NoDup (omap (fun e => match e with Applied id => Some id | _ => None end) t).
Proof.
  induction t as [|e t IH] using rev_ind; intros Ht; [constructor|].
  assert (Ht' : once t).
  { intros t1 id t2 ->. apply (Ht t1 id (t2 ++ [e])). by rewrite <- app_assoc. }
  rewrite omap_app. destruct e as [m|id|id|id]; simpl; rewrite ?app_nil_r; [by apply IH| |by apply IH|by apply IH].
  apply NoDup_app. split; [by apply IH|]. split; [|apply NoDup_singleton].
  intros x Hx ->%list_elem_of_singleton. apply (Ht t id []); [done|].
  apply list_elem_of_omap in Hx as (e & He & Hx). destruct e; simplify_eq.
  unfold known. apply elem_of_list_to_set, list_elem_of_omap. by exists (Applied id).
Qed.

Section Inv.
Context {X : ClientExt}.

(** All that the invariant looks at; [fresh] are ids that are in the memory's seen
    set but may not be on disk yet. *)
Record delivery (fresh : gset MessageId) (io : Io) (e : Engine) : Prop := {
  dv_store : store e = true;
  dv_disk : seen e ⊆ fresh ∪ dk_seen (disk io);
  dv_known : known (trace io) ⊆ seen e;
  dv_once : once (trace io);
}.

Definition I (w : Io * Engine) : Prop := delivery ∅ w.1 w.2.

(** From [P], the computation is never dropped outside of the invariant, and
    establishes [Q] when it is done; errors are out of scope. *)
Definition triple {A} (P : Io * Engine -> Prop) (m : W Engine A) (Q : A -> Io * Engine -> Prop) : Prop :=
  forall w, P w -> match m w with (w', Done a) => Q a w' | (w', Blocked) => I w' | (_, Failed _) => True end.

Definition keeps {A} (m : W Engine A) : Prop := triple I m (fun _ => I).

Lemma t_bind {A B} P (m : W Engine A) Q (k : A -> W Engine B) R :
  triple P m Q -> (forall a, triple (Q a) (k a) R) -> triple P (w_bind m k) R.
Proof.
  intros Hm Hk w Hw. unfold w_bind. specialize (Hm w Hw). destruct (m w) as [w' [a|x|]]; [by apply Hk|done|done].
Qed.
Lemma t_conseq {A} (P P' : Io * Engine -> Prop) (m : W Engine A) (Q Q' : A -> Io * Engine -> Prop) :
  triple P m Q -> (forall w, P' w -> P w) -> (forall a w, Q a w -> Q' a w) -> triple P' m Q'.
Proof. intros Hm HP HQ w Hw. specialize (Hm w (HP w Hw)). destruct (m w) as [w' [a|x|]]; eauto. Qed.
Lemma t_ret {A} P (a : A) (Q : A -> Io * Engine -> Prop) : (forall w, P w -> Q a w) -> triple P (w_ret a) Q.
Proof. intros H w Hw. by apply H. Qed.
Lemma t_fail {A} P x (Q : A -> Io * Engine -> Prop) : triple P (w_fail x) Q.
Proof. by intros w Hw. Qed.
Lemma t_block {A} (Q : A -> Io * Engine -> Prop) : triple I w_block Q.
Proof. by intros w Hw. Qed.
Lemma t_option {A} P (o : option A) x : triple P (w_option o x) (fun a w => o = Some a /\ P w).
Proof. intros w Hw. unfold w_option. by destruct o. Qed.
Lemma t_result {A E} P (f : E -> EngErr) (r : result A E) : triple P (w_result f r) (fun _ => P).
Proof. intros w Hw. unfold w_result. by destruct r. Qed.
Lemma t_get {A} P (f : Engine -> A) : triple P (w_get f) (fun a w => a = f w.2 /\ P w).
Proof. by intros w Hw. Qed.
Lemma t_try {A} (P : Io * Engine -> Prop) (m : W Engine A) :
  (forall w, P w -> match m w with (w', Blocked) => I w' | (w', _) => P w' end) ->
  triple P (w_try m) (fun _ => P).
Proof. intros Hm w Hw. unfold w_try. specialize (Hm w Hw). by destruct (m w) as [w' [a|x|]]. Qed.

Lemma k_bind {A B} (m : W Engine A) (k : A -> W Engine B) : keeps m -> (forall a, keeps (k a)) -> keeps (w_bind m k).
Proof. intros. by eapply t_bind. Qed.

(** *** Computations that touch nothing the invariant looks at *)

Definition same (w w' : Io * Engine) : Prop :=
  store w'.2 = store w.2 /\ seen w'.2 = seen w.2 /\ dk_seen (disk w'.1) = dk_seen (disk w.1) /\ trace w'.1 = trace w.1.

Definition quiet {A} (m : W Engine A) : Prop := forall w, same w (m w).1.

Lemma delivery_same fresh w w' : same w w' -> delivery fresh w.1 w.2 -> delivery fresh w'.1 w'.2.
Proof. intros (E1 & E2 & E3 & E4) [D1 D2 D3 D4]. split; rewrite ?E1, ?E2, ?E3, ?E4; done. Qed.

Lemma quiet_ret {A} (a : A) : quiet (w_ret a).
Proof. by intros w. Qed.
Lemma quiet_rnd : quiet rnd.
Proof. by intros [io e]. Qed.
Lemma quiet_session {A} (m : Ses A) : quiet (on_session m).
Proof. intros [io e]. unfold on_session. by destruct (m (session e)). Qed.
Lemma quiet_read {A} (f : Session -> result A SessionError) : quiet (session_read f).
Proof. by intros [io e]. Qed.
Lemma quiet_recv : quiet recv.
Proof. intros [io e]. unfold recv. by destruct (io_pushes io). Qed.
Lemma quiet_connect : quiet connect_relay.
Proof. intros [io e]. unfold connect_relay. by destruct (io_connects io) as [|[] ?]. Qed.
Lemma quiet_set f : (forall e, store (f e) = store e /\ seen (f e) = seen e) -> quiet (w_set f).
Proof. intros Hf [io e]. destruct (Hf e) as [E1 E2]. by repeat split. Qed.
Lemma quiet_event ev : quiet (push_event ev).
Proof. by apply quiet_set. Qed.
Lemma quiet_event_of inc : quiet (event_of inc).
Proof. intros w. destruct inc; [done|]. simpl. unfold w_bind, session_read. destruct w as [io e]. by destruct (epoch _). Qed.

(** Quiet computations keep any stage of the invariant, as long as they are not
    dropped before the ids are on disk. *)
Lemma t_quiet {A} fresh (m : W Engine A) :
  quiet m -> (fresh = ∅ \/ forall w, (m w).2 <> Blocked) ->
  triple (fun w => delivery fresh w.1 w.2) m (fun _ w => delivery fresh w.1 w.2).
Proof.
  intros Hq Hb w Hw. pose proof (delivery_same _ _ _ (Hq w) Hw) as Hd.
  destruct (m w) as [w' [a|x|]] eqn:E; simpl in *; [done|done|].
  destruct Hb as [->|Hb]; [done|]. exfalso. apply (Hb w). by rewrite E.
Qed.

Lemma k_quiet {A} (m : W Engine A) : quiet m -> keeps m.
Proof. intros Hq. apply (t_quiet ∅ m Hq). by left. Qed.

(** *** Requests *)

(** A request that the trace may contain at this point. *)
Definition harmless (m : ClientMessage) (e : Engine) : Prop :=
  forall id, known_by (Called m) = Some id -> id ∈ seen e.

Lemma call_spec m w : I w -> harmless m w.2 -> I (call m w).1.
Proof.
  intros [D1 D2 D3 D4] Hm. destruct w as [io e]. unfold call, w_bind, note. simpl in *.
  assert (D : forall cs, delivery ∅ (mkIo cs (io_pushes io) (io_connects io) (io_commits io) (io_rnd io)
                     (trace io ++ [Called m]) (disk io)) e).
  { intros cs. split; simpl; [done|done| |].
    - rewrite known_snoc. unfold harmless in Hm. destruct (known_by (Called m)) as [id|]; [specialize (Hm id eq_refl)|]; set_solver.
    - apply once_snoc; [done|]. by intros id [=]. }
  destruct (io_calls io) as [|[a|] rs] eqn:E; simpl; [|apply D|apply D].
  unfold set_trace. rewrite E. apply D.
Qed.

Lemma t_call m P :
  (forall w, P w -> I w /\ harmless m w.2) ->
  triple P (call m) (fun _ => I).
Proof.
  intros HP w Hw. destruct (HP w Hw) as [Hi Hh]. pose proof (call_spec m w Hi Hh) as Hc.
  by destruct (call m w) as [w' [a|x|]].
Qed.

Lemma k_call m : (forall id, known_by (Called m) <> Some id) -> keeps (call m).
Proof. intros Hm. apply t_call. intros w Hw. split; [done|]. intros id H. by destruct (Hm id). Qed.

Lemma k_subscribe qs : keeps (rc_subscribe qs).
Proof.
  apply k_bind; [by apply k_call|]. intros []; (apply k_quiet, quiet_ret) || apply t_fail.
Qed.

Lemma reconnect_keeps n : keeps (reconnect_loop n).
Proof.
  induction n as [|n IH]; simpl; [apply t_fail|]. apply k_bind.
  - apply t_try. intros w Hw. pose proof (delivery_same _ _ _ (quiet_connect w) Hw) as Hd.
    by destruct (connect_relay w) as [w' [a|x|]].
  - intros [r|x].
    + apply k_bind; [apply k_quiet; by intros w|]. intros q. apply k_subscribe.
    + destruct n; [apply t_fail|exact IH].
Qed.

(** What stays in the invariant until the next id is marked. *)
Definition I_with (id : MessageId) (w : Io * Engine) : Prop := I w /\ id ∈ seen w.2.

Lemma call_seen m w : seen (call m w).1.2 = seen w.2.
Proof. destruct w as [io e]. unfold call, w_bind, note. simpl. by destruct (io_calls io). Qed.

Lemma group_send_try q key k env w id :
  I_with id w -> (k = Proto.Application -> id = message_id env) ->
  match w_try (rc_send_to_group_inbox q key k env) w with
  | (w', Done _) => I_with id w' | (w', Blocked) => I w' | (w', Failed _) => True end.
Proof.
  intros [Hi Hid] Hk. unfold w_try, rc_send_to_group_inbox, w_bind.
  set (m := SendToGroupInbox q k (compute_tag key q env) env).
  assert (Hh : harmless m w.2).
  { intros x. simpl. destruct k; [done|]. intros [= <-]. by rewrite <- Hk. }
  pose proof (call_spec m w Hi Hh) as Hc. pose proof (call_seen m w) as Hs.
  destruct (call m w) as [w' [a|x|]]; simpl in *; [|by split; [|rewrite Hs]|done].
  destruct a; simpl; by (split; [|rewrite Hs]).
Qed.

(** *** Marking, persisting, acknowledging *)

(** The id is marked in memory; it may not be on disk yet. *)
Definition marked (id : MessageId) (w : Io * Engine) : Prop := delivery {[id]} w.1 w.2 /\ id ∈ seen w.2.
(** ... and nothing happened to it before. *)
Definition unseen (id : MessageId) (w : Io * Engine) : Prop := marked id w /\ id ∉ known (trace w.1).

Lemma t_mark_seen id : triple I (mark_seen id) (fun _ => marked id).
Proof. intros [io e] [D1 D2 D3 D4]. simpl in *. split; [split|]; simpl; [done|set_solver|set_solver|done|set_solver]. Qed.

Lemma t_mark_fresh id :
  triple (fun w => I w /\ id ∉ seen w.2) (mark_seen id) (fun _ => unseen id).
Proof.
  intros w [Hi Hn]. pose proof (t_mark_seen id w Hi) as Hm. destruct w as [io e]. simpl in *. split; [done|].
  destruct Hi as [_ _ D _]. simpl in *. set_solver.
Qed.

Lemma t_note_applied id : triple (unseen id) (note (Applied id)) (fun _ => marked id).
Proof.
  intros [io e] [[[D1 D2 D3 D4] Hid] Hn]. simpl in *. split; [split|]; simpl; [done|done| | |done].
  - rewrite known_snoc. simpl. set_solver.
  - apply once_snoc; [done|]. by intros x [= <-].
Qed.

(** The trace may tell of an id that is marked. *)
Lemma t_note_marked id x : known_by x = Some id -> (forall y, x <> Applied y) -> triple (marked id) (note x) (fun _ => marked id).
Proof.
  intros Hx Hn [io e] [[D1 D2 D3 D4] Hid]. simpl in *. split; [split|]; simpl; [done|done| | |done].
  - rewrite known_snoc, Hx. set_solver.
  - apply once_snoc; [done|]. intros y ->. by destruct (Hn y).
Qed.

(** A quiet computation that cannot be dropped keeps the mark. *)
Lemma t_marked {A} id (m : W Engine A) :
  quiet m -> (forall w, (m w).2 <> Blocked) -> triple (marked id) m (fun _ => marked id).
Proof.
  intros Hq Hb w [Hd Hid]. pose proof (delivery_same _ _ _ (Hq w) Hd) as Hd'. destruct (Hq w) as (_ & Hs & _).
  specialize (Hb w). destruct (m w) as [w' [a|x|]]; simpl in *; [|done|done]. split; [done|by rewrite Hs].
Qed.

Lemma t_persist id : triple (marked id) (persist [id]) (fun _ => I_with id).
Proof.
  intros [io e] [[D1 D2 D3 D4] Hid]. simpl in *. unfold persist. rewrite D1. unfold Store_commit.
  destruct (hd true (io_commits io)); simpl; [|done].
  split; [split|]; simpl; [done| |done|done|done]. set_solver.
Qed.

Lemma k_with {A} id (m : W Engine A) : triple I m (fun _ => I) -> triple (I_with id) m (fun _ => I).
Proof. intros Hm w [Hi _]. by apply Hm. Qed.

Lemma t_try_ack q id : triple (I_with id) (try_ack q id) (fun _ => I).
Proof.
  unfold try_ack. eapply (t_bind _ _ (fun _ => I)).
  - intros w [Hi Hid]. unfold w_try, rc_ack, w_bind.
    assert (Hh : harmless (Ack q id) w.2) by (by intros x [= <-]).
    pose proof (call_spec _ w Hi Hh) as Hc. destruct (call (Ack q id) w) as [w' [a|x|]]; simpl in *; [|done|done].
    by destruct a.
  - intros [r|[]]; (by apply t_ret) || apply t_fail.
Qed.

Lemma session_runs {A} (m : Ses A) w : (on_session m w).2 <> Blocked.
Proof. destruct w as [io e]. unfold on_session. destruct (m (session e)) as [s []]; done. Qed.

(** *** The operations *)

Lemma event_of_runs inc w : (event_of inc w).2 <> Blocked.
Proof. destruct inc; [done|]. destruct w as [io e]. simpl. unfold w_bind, session_read. by destruct (epoch _). Qed.

Lemma t_apply_push env : triple (unseen (message_id env)) (apply_push env) (fun _ => I_with (message_id env)).
Proof.
  eapply t_bind; [apply t_note_applied|]. intros ?.
  eapply t_bind; [apply t_marked; [apply quiet_session|apply session_runs]|]. intros inc.
  eapply t_bind; [apply t_marked; [apply quiet_event_of|apply event_of_runs]|]. intros ev.
  eapply t_bind; [apply t_marked; [apply quiet_event|done]|]. intros ?. apply t_persist.
Qed.

Lemma k_event ev : keeps (push_event ev).
Proof. apply k_quiet, quiet_event. Qed.

Lemma pump_keeps : keeps pump_one.
Proof.
  apply k_bind; [apply k_quiet, quiet_recv|]. intros [[q env]|].
  - eapply t_bind; [apply t_get|]. intros old.
    destruct (bool_decide (message_id env ∈ old)) eqn:E.
    + apply bool_decide_eq_true in E. intros w [-> Hi].
      assert (Hm : I_with (message_id env) (w.1, set_seen ({[message_id env]} ∪ seen w.2) w.2)).
      { destruct Hi as [D1 D2 D3 D4]. split; [split|]; simpl; [done|set_solver|set_solver|done|set_solver]. }
      pose proof (t_try_ack q (message_id env) _ Hm) as Ha. exact Ha.
    + apply bool_decide_eq_false in E. eapply t_bind.
      * eapply t_conseq; [apply t_mark_fresh|by intros w [-> Hi]|done].
      * intros ?. eapply t_bind; [apply t_apply_push|]. intros ?. apply t_try_ack.
  - apply k_bind; [apply k_event|]. intros ?. apply k_bind; [apply reconnect_keeps|]. intros ?. apply k_event.
Qed.

Lemma next_event_keeps n : keeps (next_event_loop n).
Proof.
  induction n as [|n IH]; simpl; [apply t_block|]. apply k_bind; [apply k_quiet; by intros w|].
  intros [|ev rest].
  - apply k_bind; [apply pump_keeps|]. intros ?. exact IH.
  - apply k_bind; [by apply k_quiet, quiet_set|]. intros ?. by apply t_ret.
Qed.

Lemma await_pairing_keeps n : keeps (await_pairing_loop n).
Proof.
  induction n as [|n IH]; simpl; [apply t_block|]. apply k_bind; [apply k_quiet, quiet_recv|]. intros [[q env]|].
  - eapply t_bind; [apply t_option|]. intros b. eapply t_bind.
    { eapply t_conseq; [apply k_quiet, quiet_session|by intros w [_ H]|by intros]. }
    intros ?. eapply t_bind; [apply t_mark_seen|]. intros ?. eapply t_bind; [by apply t_note_marked|]. intros ?.
    eapply t_bind; [apply t_marked; [by apply quiet_set|done]|]. intros ?.
    eapply t_bind; [apply t_persist|]. intros ?. apply t_try_ack.
  - apply k_bind; [apply reconnect_keeps|]. intros ?. exact IH.
Qed.

Lemma call_with id m : (forall x, known_by (Called m) = Some x -> x = id) -> triple (I_with id) (call m) (fun _ => I_with id).
Proof.
  intros Hk w [Hi Hid]. assert (Hh : harmless m w.2) by (intros x Hx; by rewrite (Hk x Hx)).
  pose proof (call_spec m w Hi Hh) as Hc. pose proof (call_seen m w) as Hs.
  destruct (call m w) as [w' [a|x|]]; simpl in *; [|done|done]. split; [done|by rewrite Hs].
Qed.

Lemma reconnect_with id n : triple (I_with id) (reconnect_loop n) (fun _ => I_with id).
Proof.
  induction n as [|n IH]; simpl; [apply t_fail|]. eapply (t_bind _ _ (fun _ => I_with id)).
  - apply t_try. intros w [Hi Hid]. pose proof (delivery_same _ _ _ (quiet_connect w) Hi) as Hd.
    destruct (quiet_connect w) as (_ & Hs & _).
    destruct (connect_relay w) as [w' [a|x|]]; simpl in *; [| |done]; (split; [done|by rewrite Hs]).
  - intros [r|x]; [|destruct n; [apply t_fail|exact IH]].
    eapply t_bind; [apply t_get|]. intros q. eapply t_bind.
    + eapply t_conseq; [apply (call_with id)|by intros w [_ H]|done]. done.
    + intros []; (by apply t_ret) || apply t_fail.
Qed.

Lemma t_group_send id q key k env :
  (k = Proto.Application -> id = message_id env) ->
  triple (I_with id) (w_try (rc_send_to_group_inbox q key k env)) (fun _ => I_with id).
Proof.
  intros Hk w Hw. pose proof (group_send_try q key k env w id Hw Hk) as H.
  by destruct (w_try _ w) as [w' [a|x|]].
Qed.

Lemma send_keeps n q key env : triple (I_with (message_id env)) (send_loop n q key env) (fun _ => I).
Proof.
  induction n as [|n IH]; simpl; [by intros w [H _]|].
  eapply t_bind; [by apply t_group_send|].
  intros [[r|c]|[]]; try apply t_fail.
  - apply t_ret. by intros w [H _].
  - eapply t_bind; [apply reconnect_with|]. intros ?. exact IH.
Qed.

Lemma k_inbox {A} (k : QueueId * bytes -> W Engine A) :
  (forall ib, keeps (k ib)) -> keeps (ib <~ w_get inbox; ib <~ w_option ib OtherErr; k ib).
Proof.
  intros Hk. apply k_bind; [apply k_quiet; by intros w|]. intros o.
  eapply t_bind; [apply t_option|]. intros ib w [_ Hi]. by apply Hk.
Qed.

Lemma send_message_keeps m : keeps (send_message m).
Proof.
  apply k_inbox. intros ib. apply k_bind; [apply k_quiet, quiet_rnd|]. intros r.
  apply k_bind; [apply k_quiet, quiet_session|]. intros wire.
  eapply t_bind; [apply t_option|]. intros env.
  eapply t_bind; [eapply t_conseq; [apply t_mark_seen|by intros w [_ H]|done]|]. intros ?.
  eapply t_bind; [apply t_persist|]. intros ? w Hw. exact (send_keeps (S (length (io_calls w.1))) _ _ _ w Hw).
Qed.

(** A commit is sent before its id is marked. *)
Lemma commit_send_keeps n q key ep env : keeps (commit_send_loop n q key ep env).
Proof.
  induction n as [|n IH]; simpl; [apply t_block|]. apply k_bind.
  - apply t_try. intros w Hw. unfold rc_send_to_group_inbox, w_bind.
    pose proof (call_spec (SendToGroupInbox q (Commit ep) (compute_tag key q env) env) w Hw) as Hc.
    destruct (call _ w) as [w' [a|x|]]; simpl in *; [destruct a|..]; by apply Hc.
  - intros [r|[]]; try apply t_fail; [by apply t_ret|].
    apply k_bind; [apply reconnect_keeps|]. intros ?. exact IH.
Qed.

Lemma drain_keeps n ep : keeps (drain_loop n ep).
Proof.
  induction n as [|n IH]; simpl; [apply t_block|]. apply k_bind; [apply k_quiet, quiet_read|]. intros e.
  destruct (e =? ep); [|by apply t_ret]. apply k_bind; [apply pump_keeps|]. intros ?. exact IH.
Qed.

Lemma commit_keeps n q key : keeps (commit_loop n q key).
Proof.
  induction n as [|n IH]; simpl; [apply t_block|]. apply k_bind; [apply k_quiet, quiet_read|]. intros ep.
  apply k_bind; [apply k_quiet, quiet_rnd|]. intros r.
  apply k_bind; [apply k_quiet, quiet_session|]. intros wire.
  eapply t_bind; [apply t_option|]. intros env.
  eapply (t_bind _ _ (fun _ => I)); [intros w [_ Hw]; exact (commit_send_keeps (S (length (io_calls w.1))) _ _ _ _ w Hw)|].
  intros [r'|[]]; try apply t_fail.
  - eapply t_bind; [apply t_mark_seen|]. intros ?.
    eapply t_bind; [apply t_marked; [apply quiet_session|apply session_runs]|]. intros ?.
    eapply t_bind; [by apply t_note_marked|]. intros ?. eapply t_bind; [apply t_persist|]. intros ?. apply k_with, k_quiet, quiet_read.
  - apply k_bind; [apply k_quiet, quiet_session|]. intros ?.
    apply k_bind; [intros w Hw; exact (drain_keeps (S (length (io_pushes w.1))) _ w Hw)|]. intros ?. exact IH.
Qed.

Lemma contact_link_keeps : keeps contact_link.
Proof.
  apply k_bind; [apply k_quiet, quiet_rnd|]. intros r. apply k_bind; [apply k_quiet, quiet_session|]. intros kp.
  apply k_bind; [apply k_quiet; by intros w|]. intros e.
  apply k_bind; [apply t_result|]. intros link. by apply t_ret.
Qed.
End Inv.
