(* ===== verification/EngineProps.v ===== *)
(** * What the engine guarantees

    Runs of an engine over crashes and restarts, and what they never do: apply a
    message twice, or forget one they acknowledged. What a first sight of a message
    leaves on disk, and what a restart makes of it. How the two sides of a pairing
    meet. *)

From S2P Require Import Prelude Text External Proto ProtoProps CoreSession CoreProps Engine EngineInv.

(** ** Constructors *)

Section Calm.
Context {X : ClientExt}.

(** The computation makes no id known, leaves the disk alone, and keeps [f]. *)
Definition calm {S T A} (f : S -> T) (m : W S A) : Prop := forall w,
  f (m w).1.2 = f w.2 /\ disk (m w).1.1 = disk w.1 /\
  known (trace (m w).1.1) = known (trace w.1) /\ (once (trace w.1) -> once (trace (m w).1.1)).

Lemma calm_bind {S T A B} (f : S -> T) (m : W S A) (k : A -> W S B) :
  calm f m -> (forall a, calm f (k a)) -> calm f (w_bind m k).
Proof.
  intros Hm Hk w. unfold w_bind. destruct (Hm w) as (E1 & E2 & E3 & E4).
  destruct (m w) as [w' [a|x|]]; simpl in *; [|done|done]. destruct (Hk a w') as (F1 & F2 & F3 & F4).
  rewrite F1, F2, F3. repeat split; [done|done|done|]. eauto.
Qed.
Lemma calm_here {S T A} (f : S -> T) (m : W S A) : (forall w, f (m w).1.2 = f w.2 /\ disk (m w).1.1 = disk w.1 /\ trace (m w).1.1 = trace w.1) -> calm f m.
Proof. intros Hm w. destruct (Hm w) as (E1 & E2 & E3). by rewrite E1, E2, E3. Qed.
Lemma calm_call {S T} (f : S -> T) m : known_by (Called m) = None -> calm f (call m).
Proof.
  intros Hm [io s]. unfold call, w_bind, note. simpl.
  assert (H : known (trace io ++ [Called m]) = known (trace io) /\ (once (trace io) -> once (trace io ++ [Called m]))).
  { split; [rewrite known_snoc, Hm; set_solver|]. intros Ho. by apply once_snoc. }
  destruct (io_calls io) as [|r rs]; simpl; naive_solver.
Qed.
End Calm.

Create HintDb calm.
#[export] Hint Resolve calm_bind calm_call : calm.
#[export] Hint Extern 4 (calm _ (match ?x with _ => _ end)) => destruct x : calm.

Ltac calm_leaf :=
  apply calm_here; intros [? ?]; cbv [w_ret w_fail w_option w_result w_get w_set rnd connect_relay solve on_session recv];
  simpl; repeat case_match; done.
#[export] Hint Extern 5 (calm _ _) => calm_leaf : calm.

Section Start.
Context {X : ClientExt}.

Lemma calm_connect {S} fuel name addr fp s tokens : calm (@id S) (connect_with_session fuel name addr fp s tokens).
Proof.
  unfold connect_with_session, rc_create_mailbox, create_queue_with_pow, rc_subscribe.
  auto 20 with calm.
Qed.

(** What the constructors leave alone in the engine they return. *)
Definition blank (e : Engine) : gset MessageId * bool := (seen e, store e).

Lemma calm_found_group fuel link ep : calm blank (found_group fuel link ep).
Proof.
  unfold found_group, rc_create_group_inbox, create_queue_with_pow, rc_send_to_mailbox.
  auto 40 with calm.
Qed.

Lemma calm_with_engine {S A} (m : W Engine A) e : calm blank m -> calm (@id S) (with_engine m e).
Proof.
  intros Hm [io s]. specialize (Hm (io, e)). unfold with_engine.
  destruct (m (io, e)) as [[io' e'] [a|x|]]; naive_solver.
Qed.

Lemma calm_pair {S} fuel name link s tokens : calm (@id S) (pair_with_link_using fuel name link s tokens).
Proof. unfold pair_with_link_using. auto 20 using calm_connect, calm_with_engine, calm_found_group with calm. Qed.

Lemma connect_blank {S} fuel name addr fp s tokens (w w' : Io * S) e :
  connect_with_session fuel name addr fp s tokens w = (w', Done e) -> blank e = (∅, false).
Proof.
  unfold connect_with_session. unfold w_bind at 1. destruct (connect_relay w) as [w1 [[]|x|]]; [|done|done].
  unfold w_bind at 1. destruct (rc_create_mailbox _ _ w1) as [w2 [m|x|]]; [|done|done].
  unfold w_bind. destruct (rc_subscribe _ w2) as [w3 [[]|x|]]; [|done|done].
  by intros [= _ <-].
Qed.

Lemma pair_blank {S} fuel name link s tokens (w w' : Io * S) e :
  pair_with_link_using fuel name link s tokens w = (w', Done e) -> blank e = (∅, false).
Proof.
  unfold pair_with_link_using, w_bind, w_option, w_result.
  destruct (b64_decode _) as [bs|]; [|done]. destruct (ContactLink_from_bytes bs) as [l|]; [|done].
  destruct (primary_endpoint l) as [ep|]; [|done]. destruct (rnd w) as [w1 [r|x|]]; [|done|done].
  destruct (connect_with_session _ _ _ _ _ _ w1) as [[io s'] [e0|x|]] eqn:E; [|done|done].
  apply connect_blank in E. pose proof (calm_found_group fuel l ep (io, e0)) as (Hb & _). unfold with_engine.
  destruct (found_group fuel l ep (io, e0)) as [[io' e'] [a|x|]]; [|done|done].
  intros [= _ <-]. simpl in *. congruence.
Qed.
End Start.

(** ** Runs *)

Section Runs.
Context {X : ClientExt}.

(** How an engine comes into being, and what its owner calls on it. *)
Inductive start :=
| Listen (name : bytes) (addr : string) (fp : bytes) (s : Session) (tokens : list AttestationToken)
| Scan (name link : bytes) (s : option Session) (tokens : list AttestationToken).

Inductive op := NextEvent | SendMessage (m : bytes) | CommitSelfUpdate | AwaitPairing | MakeLink.

Inductive action := Do (o : op) | Crash | Restart.

Definition construct (fuel : nat) (b : start) : W unit Engine :=
  match b with
  | Listen name addr fp s tokens => connect_with_session fuel name addr fp s tokens
  | Scan name link s tokens => pair_with_link_using fuel name link s tokens
  end.

Definition run_op (o : op) : W Engine unit :=
  match o with
  | NextEvent => _ <~ next_event; w_ret tt
  | SendMessage m => send_message m
  | CommitSelfUpdate => _ <~ commit_self_update; w_ret tt
  | AwaitPairing => await_pairing
  | MakeLink => _ <~ contact_link; w_ret tt
  end.

(** The outside world answers anew; what happened stays. *)
Definition feed (inp io : Io) : Io :=
  mkIo (io_calls inp) (io_pushes inp) (io_connects inp) (io_commits inp) (io_rnd inp) (trace io) (disk io).

(** A device: what it did and has on disk, and the engine while its process runs. *)
Abbreviation device := (Io * option Engine)%type.

(** [None] once a call on the engine reports an error. *)
Definition act (a : action) (inp : Io) (d : device) : option device :=
  match a, d.2 with
  | Do o, Some e =>
      match run_op o (feed inp d.1, e) with
      | (_, Failed _) => None
      | ((io, e'), _) => Some (io, Some e')
      end
  | Do _, None => Some d
  | Crash, _ => Some (d.1, None)
  | Restart, Some _ => Some d
  | Restart, None =>
      match resume (feed inp d.1, tt) with
      | ((io, _), Done e) => Some (io, Some e)
      | ((io, _), _) => Some (io, None)
      end
  end.

Fixpoint run (acts : list (action * Io)) (d : device) : option device :=
  match acts with
  | [] => Some d
  | (a, inp) :: acts' => d' ← act a inp d; run acts' d'
  end.

(** The first process: construct an engine and attach the store. *)
Definition launch (fuel : nat) (b : start) (inp : Io) (dk : Disk) : option device :=
  match construct fuel b (feed inp (mkIo [] [] [] [] [] [] dk), tt) with
  | ((io, _), Done e) =>
      match attach_store (io, e) with
      | ((io', e'), Done _) => Some (io', Some e')
      | _ => None
      end
  | _ => None
  end.

(** The invariant of a device. *)
Definition durable (d : device) : Prop :=
  match d.2 with
  | Some e => I (d.1, e)
  | None => known (trace d.1) ⊆ dk_seen (disk d.1) /\ once (trace d.1)
  end.

Lemma durable_down io e : I (io, e) -> durable (io, None).
Proof. intros [D1 D2 D3 D4]. split; simpl in *; [set_solver|done]. Qed.

Lemma run_op_keeps o : keeps (run_op o).
Proof.
  destruct o; simpl.
  - apply k_bind; [intros w Hw; exact (next_event_keeps _ w Hw)|]. intros ?. by apply t_ret.
  - apply send_message_keeps.
  - apply k_bind; [apply k_inbox; intros ib w Hw; exact (commit_keeps _ _ _ w Hw)|]. intros ?. by apply t_ret.
  - intros w Hw. exact (await_pairing_keeps _ w Hw).
  - apply k_bind; [apply contact_link_keeps|]. intros ?. by apply t_ret.
Qed.

Lemma launch_durable fuel b inp dk d : launch fuel b inp dk = Some d -> durable d.
Proof.
  unfold launch. set (w := (feed inp (mkIo [] [] [] [] [] [] dk), tt)).
  assert (Hc : calm id (construct fuel b)) by (destruct b; [apply calm_connect|apply calm_pair]).
  assert (Hb : forall w' e, construct fuel b w = (w', Done e) -> blank e = (∅, false)).
  { intros w' e. destruct b; [apply connect_blank|apply pair_blank]. }
  destruct (Hc w) as (_ & _ & Hk & Ho). destruct (construct fuel b w) as [[io []] [e|x|]]; [|done|done].
  specialize (Hb _ e eq_refl). injection Hb as Hs _. simpl in Hk, Ho.
  unfold attach_store, w_bind, w_set, w_get, persist, Store_commit. simpl.
  destruct (hd true (io_commits io)); [|done]. intros [= <-]. unfold durable. simpl.
  split; simpl; [done|rewrite Hs; set_solver|by rewrite Hk|apply Ho, once_nil].
Qed.

(** A restarted engine has every id of the disk in its seen set. *)
Lemma seen_ids_mapM (l : list bytes) ids : mapM seen_id l = Some ids -> ids = l.
Proof.
  revert ids. induction l as [|v l IH]; intros ids; simpl; [by intros [= <-]|].
  destruct (seen_id v) as [b|] eqn:Ev; simpl; [|done]. destruct (mapM seen_id l) as [ids'|]; simpl; [|done].
  unfold seen_id in Ev. destruct (len v =? 16); simplify_eq.
  intros [= <-]. f_equal. by apply IH.
Qed.

Lemma calm_resume : calm (@id unit) resume.
Proof.
  intros [io s]. unfold resume.
  match goal with |- context [w_bind ?m ?k (io, s)] => assert (Hc : calm (@id unit) (w_bind m k)) end.
  { unfold rc_subscribe. auto 30 with calm. }
  exact (Hc (io, s)).
Qed.

Lemma resume_shape io e w' :
  resume (io, tt) = (w', Done e) -> seen e = dk_seen (disk io) /\ store e = true.
Proof.
  unfold resume, w_bind, w_option, w_result.
  destruct (Store_get (str "engine") (disk io)) as [r|]; [|done]. destruct (bincode_deserialize r) as [rec|]; [|done].
  destruct (Store_get (str "session") (disk io)) as [bs|]; [|done]. destruct (restore bs) as [s|]; [|done].
  destruct (mapM seen_id (Store_seen_ids (disk io))) as [ids|] eqn:Ei; [|done]. apply seen_ids_mapM in Ei as ->.
  destruct (connect_relay (io, tt)) as [w1 [[]|x|]]; [|done|done].
  destruct (rc_subscribe _ w1) as [w2 [[]|x|]]; [|done|done].
  intros [= _ <-]. simpl. split; [|done]. unfold Store_seen_ids. apply list_to_set_elements_L.
Qed.

Lemma act_durable a inp d d' : durable d -> act a inp d = Some d' -> durable d'.
Proof.
  destruct d as [io oe]. unfold durable, act. destruct a as [o| |]; destruct oe as [e|]; cbn [fst snd].
  - intros Hi E. pose proof (run_op_keeps o (feed inp io, e)) as Hk.
    assert (Hi' : I (feed inp io, e)) by (destruct Hi; by split). specialize (Hk Hi').
    destruct (run_op o (feed inp io, e)) as [[io' e'] [u|x|]]; by simplify_eq.
  - intros Hd [= <-]. done.
  - intros Hi [= <-]. by eapply durable_down.
  - intros Hd [= <-]. done.
  - intros Hi [= <-]. done.
  - intros [Hk Ho] E. destruct (calm_resume (feed inp io, tt)) as (_ & Ed & Et & Eo).
    pose proof (resume_shape (feed inp io)) as Hs.
    destruct (resume (feed inp io, tt)) as [[io' []] [e|x|]]; injection E as <-; simpl in Ed, Et, Eo; simpl;
      [|rewrite Ed, Et; eauto..].
    destruct (Hs e _ eq_refl) as [Es Est].
    split; simpl; [done|rewrite Ed, Es; set_solver|by rewrite Et, Es|by apply Eo].
Qed.

Lemma run_durable acts d d' : durable d -> run acts d = Some d' -> durable d'.
Proof.
  revert d. induction acts as [|[a inp] acts IH]; intros d Hd; simpl; [by intros [= <-]|].
  destruct (act a inp d) as [d1|] eqn:E; simpl; [|done]. apply IH. by eapply act_durable.
Qed.

End Runs.

(** ** Durability of what was received *)

#[local] Arguments persist {X} _ _ : simpl never.
#[local] Arguments try_ack {X} _ _ _ : simpl never.
#[local] Arguments resume {X S} _ : simpl never.

Section Durability.
Context {X : ClientExt}.

(** What [persist] leaves on disk. *)
Definition saved (e : Engine) (ids : gset MessageId) (d : Disk) : Disk :=
  mkDisk (dk_key d)
    (<[str "session":=snapshot (session e)]> (<[str "engine":=bincode_serialize (engine_record e)]> (dk_kv d)))
    (ids ∪ dk_seen d).

Definition set_disk (d : Disk) (io : Io) : Io :=
  mkIo (io_calls io) (io_pushes io) (io_connects io) (tail (io_commits io)) (io_rnd io) (trace io) d.

Lemma persist_run l io e :
  store e = true -> hd true (io_commits io) = true ->
  persist l (io, e) = ((set_disk (saved e (list_to_set l) (disk io)) io, e), Done tt).
Proof. intros Hs Hc. unfold persist. by rewrite Hs, Hc. Qed.

(** What a restart makes of an engine: its events and tokens are gone. *)
Definition revived (e : Engine) (ids : gset MessageId) : Engine :=
  mkEngine (display_name e) (session e) (relay_addr_ e) (relay_fp e) (mailbox_qid e) (mailbox_key e) (inbox e) ids [] true [].

Lemma seen_ids_ok (l : list bytes) : Forall (fun v => len v = 16) l -> mapM seen_id l = Some l.
Proof.
  induction 1 as [|v l Hv _ IH]; [done|].
  assert (E : seen_id v = Some v) by (unfold seen_id; by rewrite Hv). simpl. rewrite E. simpl. by rewrite IH.
Qed.

Context {BE : BincodeLaws PersistedEngine} {BS : BincodeLaws SessionSnapshot}.

Lemma resume_saved e ids d io cs rs :
  disk io = saved e ids d -> in_sync (session e) -> set_Forall (fun v => len v = 16) (ids ∪ dk_seen d) ->
  io_connects io = true :: cs -> io_calls io = Some SOk :: rs ->
  resume (io, tt) =
    ((mkIo rs (io_pushes io) cs (io_commits io) (io_rnd io) (trace io ++ [Called (Subscribe [mailbox_qid e])]) (disk io), tt),
     Done (revived e (ids ∪ dk_seen d))).
Proof.
  intros Hd Hs Hl Hc Hr. unfold resume, w_bind, w_option, w_result, Store_get. rewrite Hd. simpl.
  rewrite lookup_insert_ne by done. rewrite lookup_insert_eq. rewrite bincode_roundtrip_exact.
  rewrite lookup_insert_eq, restore_snapshot by done. unfold Store_seen_ids. simpl.
  rewrite seen_ids_ok by (apply Forall_forall; intros v Hv; apply Hl; by apply elem_of_elements).
  unfold connect_relay. rewrite Hc. unfold rc_subscribe, call, note, w_bind, set_trace. simpl. rewrite Hr. simpl.
  by rewrite list_to_set_elements_L, Hd.
Qed.

Lemma try_ack_run q id io e :
  (try_ack q id (io, e)).1 =
  (mkIo (tail (io_calls io)) (io_pushes io) (io_connects io) (io_commits io) (io_rnd io)
     (trace io ++ [Called (Ack q id)]) (disk io), e).
Proof.
  unfold try_ack, rc_ack, w_try, w_bind, call, note, set_trace. simpl.
  destruct (io_calls io) as [|[[]|] rs] eqn:E; unfold w_bind; simpl; by rewrite ?E.
Qed.

(** The event of an applied message, by the session it leaves. *)
Definition incoming_event (s : Session) (inc : Incoming) : option Event :=
  match inc with
  | Application m => Some (EMessage m)
  | CommitApplied => match epoch s with Ok n => Some (EpochAdvanced n) | Err _ => None end
  end.

(** First sight of a message, up to its persisting. *)
Lemma pump_until_persist io e q env ps s' inc ev :
  io_pushes io = Some (q, env) :: ps -> message_id env ∉ seen e ->
  process_incoming (padded_ciphertext env) (session e) = (s', Ok inc) -> incoming_event s' inc = Some ev ->
  pump_one (io, e) =
  (_ <~ persist [message_id env]; try_ack q (message_id env))
    (mkIo (io_calls io) ps (io_connects io) (io_commits io) (io_rnd io) (trace io ++ [Applied (message_id env)]) (disk io),
     set_events (pending_events e ++ [ev]) (set_session s' (set_seen ({[message_id env]} ∪ seen e) e))).
Proof.
  intros Hp Hn Hm He. unfold pump_one, w_bind at 1, recv. rewrite Hp. unfold w_bind, w_get, mark_seen, w_set. simpl.
  rewrite (bool_decide_eq_false_2 _ Hn). unfold apply_push, note, on_session, w_bind. simpl. rewrite Hm. simpl.
  assert (Hev : forall w : Io * Engine, session w.2 = s' -> event_of inc w = (w, Done ev)).
  { intros [io0 e0] <-. destruct inc; simpl in *; [by simplify_eq|]. unfold w_bind, session_read. simpl.
    by destruct (epoch (session e0)); simplify_eq. }
  by rewrite Hev.
Qed.

(** ... and up to its acknowledgement. *)
Lemma pump_first_sight io e q env ps s' inc ev :
  store e = true -> io_pushes io = Some (q, env) :: ps -> message_id env ∉ seen e ->
  process_incoming (padded_ciphertext env) (session e) = (s', Ok inc) -> incoming_event s' inc = Some ev ->
  hd true (io_commits io) = true ->
  let e' := set_events (pending_events e ++ [ev]) (set_session s' (set_seen ({[message_id env]} ∪ seen e) e)) in
  (pump_one (io, e)).1 =
  (mkIo (tail (io_calls io)) ps (io_connects io) (tail (io_commits io)) (io_rnd io)
     (trace io ++ [Applied (message_id env); Called (Ack q (message_id env))])
     (saved e' {[message_id env]} (disk io)), e').
Proof.
  intros Hs Hp Hn Hm He Hc. rewrite (pump_until_persist io e q env ps s' inc ev) by done. unfold w_bind.
  rewrite persist_run by done. simpl. rewrite try_ack_run. simpl. rewrite <- app_assoc. by rewrite union_empty_r_L.
Qed.

(** A message that is already in the seen set is acknowledged again, and that is all. *)
Lemma pump_known io e q env ps :
  io_pushes io = Some (q, env) :: ps -> message_id env ∈ seen e ->
  (pump_one (io, e)).1 =
  (mkIo (tail (io_calls io)) ps (io_connects io) (io_commits io) (io_rnd io)
     (trace io ++ [Called (Ack q (message_id env))]) (disk io), e).
Proof.
  intros Hp Hn. unfold pump_one, w_bind at 1, recv. rewrite Hp. unfold w_bind, w_get, mark_seen, w_set. simpl.
  rewrite (bool_decide_eq_true_2 _ Hn). simpl. rewrite try_ack_run. simpl. f_equal.
  destruct e. unfold set_seen. simpl in *. f_equal. set_solver.
Qed.

(** An engine that is about to see a message for the first time. *)
Record arrival (io : Io) (e : Engine) (q : QueueId) (env : Envelope) (s' : Session) (inc : Incoming) (ev : Event) : Prop := {
  ar_store : store e = true;
  ar_push : exists ps, io_pushes io = Some (q, env) :: ps;
  ar_new : message_id env ∉ seen e;
  ar_applies : process_incoming (padded_ciphertext env) (session e) = (s', Ok inc);
  ar_event : incoming_event s' inc = Some ev;
  ar_sync : in_sync s';
  ar_ids : set_Forall (fun v => len v = 16) ({[message_id env]} ∪ dk_seen (disk io));
}.

(** The outside world lets a restart succeed. *)
Definition reachable (inp : Io) : Prop :=
  exists cs rs, io_connects inp = true :: cs /\ io_calls inp = Some SOk :: rs.

Lemma received_survives io e q env s' inc ev inp :
  arrival io e q env s' inc ev -> hd true (io_commits io) = true -> reachable inp ->
  let id := message_id env in
  let '(io1, e1) := (pump_one (io, e)).1 in
  session e1 = s' /\ pending_events e1 = pending_events e ++ [ev] /\ seen e1 = {[id]} ∪ seen e /\
  trace io1 = trace io ++ [Applied id; Called (Ack q id)] /\ disk io1 = saved e1 {[id]} (disk io) /\
  exists io2, resume (feed inp io1, tt) = ((io2, tt), Done (revived e1 ({[id]} ∪ dk_seen (disk io)))) /\
              trace io2 = trace io1 ++ [Called (Subscribe [mailbox_qid e])] /\ disk io2 = disk io1.
Proof.
  intros [A1 [ps A2] A3 A4 A5 A6 A7] Hc (cs & rs & Hcs & Hrs).
  rewrite (pump_first_sight io e q env ps s' inc ev) by done. simpl.
  repeat (split; [done|]). eexists. split; [by eapply resume_saved|]. done.
Qed.

(** C22: a message is durable before it is acknowledged. When a message is seen for
    the first time and the transaction goes through, the session it leaves, the
    seen set and the engine record are on disk in one write and its event is
    queued; only then is it acknowledged. A process that starts on that disk has
    exactly that session, inbox and mailbox again, knows the message, and subscribes
    to the same mailbox. *)
Theorem received_survives_crash io e q env s' inc ev inp :
  arrival io e q env s' inc ev -> hd true (io_commits io) = true -> reachable inp ->
  let id := message_id env in
  let '(io1, e1) := (pump_one (io, e)).1 in
  session e1 = s' /\ pending_events e1 = pending_events e ++ [ev] /\ seen e1 = {[id]} ∪ seen e /\
  trace io1 = trace io ++ [Applied id; Called (Ack q id)] /\ disk io1 = saved e1 {[id]} (disk io) /\
  exists io2, resume (feed inp io1, tt) = ((io2, tt), Done (revived e1 ({[id]} ∪ dk_seen (disk io)))) /\
              trace io2 = trace io1 ++ [Called (Subscribe [mailbox_qid e])] /\ disk io2 = disk io1.
Proof. apply received_survives. Qed.

(** The queued event does not survive: when the process dies after a message was
    persisted and before its event was taken, the restarted engine has no event for
    it, and the redelivery of the message only acknowledges it. Its plaintext is
    gone: the session has moved on and never sees the message again. *)
Theorem crash_drops_event io e q env s' m inp inp' ps :
  arrival io e q env s' (Application m) (EMessage m) -> hd true (io_commits io) = true -> reachable inp ->
  io_pushes inp' = Some (q, env) :: ps ->
  exists io2 e2, resume (feed inp (pump_one (io, e)).1.1, tt) = ((io2, tt), Done e2) /\
  let '(io3, e3) := (pump_one (feed inp' io2, e2)).1 in
  pending_events e3 = [] /\ session e3 = s' /\ trace io3 = trace io2 ++ [Called (Ack q (message_id env))].
Proof.
  intros HA Hc Hr Hp. pose proof (received_survives io e q env s' _ _ inp HA Hc Hr) as H.
  destruct (pump_one (io, e)).1 as [io1 e1]. destruct H as (Hs & _ & _ & _ & _ & io2 & Hres & _).
  exists io2, (revived e1 ({[message_id env]} ∪ dk_seen (disk io))). split; [done|].
  rewrite (pump_known _ _ q env ps) by (done || (simpl; set_solver)). done.
Qed.

(** A message the session refuses. *)
Lemma pump_refused io e q env ps s' err :
  io_pushes io = Some (q, env) :: ps -> message_id env ∉ seen e ->
  process_incoming (padded_ciphertext env) (session e) = (s', Err err) ->
  pump_one (io, e) =
    ((mkIo (io_calls io) ps (io_connects io) (io_commits io) (io_rnd io) (trace io ++ [Applied (message_id env)]) (disk io),
      set_session s' (set_seen ({[message_id env]} ∪ seen e) e)), Failed OtherErr).
Proof.
  intros Hp Hn Hm. unfold pump_one, w_bind at 1, recv. rewrite Hp. unfold w_bind, w_get, mark_seen, w_set. simpl.
  rewrite (bool_decide_eq_false_2 _ Hn). unfold apply_push, note, on_session, w_bind. simpl. by rewrite Hm.
Qed.

(** A message the session refuses is neither persisted nor acknowledged, and a
    restart meets it again in the same state: the redelivered message fails the
    engine the same way every time. Within the same process its redelivery is
    acknowledged as a duplicate, although it was never applied. *)
Theorem refused_message io e q env ps s' err :
  io_pushes io = Some (q, env) :: ps -> message_id env ∉ seen e ->
  process_incoming (padded_ciphertext env) (session e) = (s', Err err) ->
  let '((io1, e1), r) := pump_one (io, e) in
  r = Failed OtherErr /\ disk io1 = disk io /\ trace io1 = trace io ++ [Applied (message_id env)] /\
  pending_events e1 = pending_events e /\
  forall inp ps', io_pushes inp = Some (q, env) :: ps' ->
    trace (pump_one (feed inp io1, e1)).1.1 = trace io1 ++ [Called (Ack q (message_id env))] /\
    disk (pump_one (feed inp io1, e1)).1.1 = disk io.
Proof.
  intros Hp Hn Hm. rewrite (pump_refused io e q env ps s' err) by done.
  repeat (split; [done|]). intros inp ps' Hp'.
  rewrite (pump_known _ _ q env ps') by (done || (simpl; set_solver)). done.
Qed.

(** When the transaction of a first sight fails, the redelivery in the same
    process is acknowledged although neither the message nor its id ever reached
    the disk. *)
Theorem acked_without_persist io e q env s' inc ev inp ps :
  arrival io e q env s' inc ev -> hd true (io_commits io) = false ->
  io_pushes inp = Some (q, env) :: ps ->
  let '((io1, e1), r) := pump_one (io, e) in
  r = Failed OtherErr /\ disk io1 = disk io /\
  let '(io2, e2) := (pump_one (feed inp io1, e1)).1 in
  trace io2 = trace io ++ [Applied (message_id env); Called (Ack q (message_id env))] /\ disk io2 = disk io.
Proof.
  intros [A1 [ps' A2] A3 A4 A5 A6 A7] Hc Hp.
  assert (E : pump_one (io, e) =
    ((set_disk (disk io) (mkIo (io_calls io) ps' (io_connects io) (io_commits io) (io_rnd io)
        (trace io ++ [Applied (message_id env)]) (disk io)),
      set_events (pending_events e ++ [ev]) (set_session s' (set_seen ({[message_id env]} ∪ seen e) e))), Failed OtherErr)).
  { rewrite pump_until_persist with (q := q) (env := env) (ps := ps') (s' := s') (inc := inc) (ev := ev) by done.
    unfold w_bind, persist. simpl. by rewrite A1, Hc. }
  rewrite E. split; [done|]. split; [done|].
  rewrite (pump_known _ _ q env ps) by (done || (simpl; set_solver)). simpl. by rewrite <- app_assoc.
Qed.
End Durability.
