(* ===== verification/EnginePair.v ===== *)
(** * Pairing, and commits under a lossy connection

    The scanner's half of a pairing and the listener's half meet in the bootstrap
    envelope: both end with the same group inbox. [EngineExamples] instantiates
    the client's parameters and runs the scenarios of the engine's theorems. *)

From S2P Require Import Prelude Text External Proto ProtoProps CoreSession CoreProps Engine EngineInv EngineProps.

#[local] Arguments persist {X} _ _ : simpl never.
#[local] Arguments try_ack {X} _ _ _ : simpl never.

Section Pairing.
Context {X : ClientExt}.

Lemma bind_Done {S A B} (m : W S A) (k : A -> W S B) w w' b :
  w_bind m k w = (w', Done b) -> exists w1 a, m w = (w1, Done a) /\ k a w1 = (w', Done b).
Proof. unfold w_bind. destruct (m w) as [w1 [a|x|]]; [|done|done]. eauto. Qed.

Lemma on_session_Done {A} (m : Ses A) io e w' a :
  on_session m (io, e) = (w', Done a) -> exists s', m (session e) = (s', Ok a) /\ w' = (io, set_session s' e).
Proof. unfold on_session. destruct (m (session e)) as [s' [b|x]]; [|done]. intros [= <- <-]. eauto. Qed.

(** A successful request: the script's next answer, and one more effect. *)
Lemma call_Done {S} m io (s : S) w' r :
  call m (io, s) = (w', Done r) ->
  exists rs, io_calls io = Some r :: rs /\
    w' = (mkIo rs (io_pushes io) (io_connects io) (io_commits io) (io_rnd io) (trace io ++ [Called m]) (disk io), s).
Proof.
  unfold call, w_bind, note. simpl. destruct (io_calls io) as [|[a|] rs]; [done| |done].
  intros [= <- <-]. by exists rs.
Qed.

Lemma send_to_mailbox_Done {S} q key env io (s : S) w' :
  rc_send_to_mailbox q key env (io, s) = (w', Done tt) ->
  w'.2 = s /\ trace w'.1 = trace io ++ [Called (SendToMailbox q (compute_tag key q env) env)].
Proof.
  intros (w1 & r & Hc & Hk)%bind_Done. apply call_Done in Hc as (rs & _ & ->). destruct r; unfold w_ret, w_fail in Hk; by simplify_eq.
Qed.

(** A queue is created with a solved proof of work and the token. *)
Lemma create_queue_Done {S} fuel build io (s : S) w' ib :
  create_queue_with_pow fuel build (io, s) = (w', Done ib) ->
  w'.2 = s /\ disk w'.1 = disk io /\ exists c sol, PowChallenge_solve c fuel = Some sol /\
    trace w'.1 = trace io ++ [Called RequestPowChallenge; Called (build sol)].
Proof.
  intros (w1 & r & Hc & Hk)%bind_Done. apply call_Done in Hc as (rs & _ & ->).
  apply bind_Done in Hk as (w2 & c & Hc & Hk). destruct r; unfold w_ret, w_fail in Hc; simplify_eq/=.
  apply bind_Done in Hk as (w3 & sol & Hs & Hk). unfold solve in Hs.
  destruct (PowChallenge_solve _ fuel) as [sol'|] eqn:Esol; simplify_eq.
  apply bind_Done in Hk as (w4 & r & Hc & Hk). apply call_Done in Hc as (rs' & _ & ->).
  destruct r; unfold w_ret, w_fail in Hk; simplify_eq/=.
  split; [done|]. split; [done|]. exists c, sol. by rewrite <- app_assoc.
Qed.

(** The scanner's half: what it built, what it asked for, what it sent. *)
Lemma found_group_Done fuel link ep io e io1 e1 :
  found_group fuel link ep (io, e) = ((io1, e1), Done tt) ->
  exists kp r1 s1 r2 s2 welcome tree ib env sol,
    key_package_from_link link = Ok kp /\
    create_group r1 (session e) = (s1, Ok tt) /\ add_members r2 [kp] s1 = (s2, Ok welcome) /\
    export_ratchet_tree s2 = (s2, Ok tree) /\
    wrap (bincode_serialize (mkBootstrap welcome tree ib.1 ib.2)) = Some env /\
    inbox e1 = Some ib /\ session e1 = s2 /\ attestation_tokens e1 = tail (attestation_tokens e) /\
    trace io1 = trace io ++
      [Called RequestPowChallenge;
       Called (CreateGroupInbox sol 1 [mailbox_qid e; ep_queue_id ep] (head (attestation_tokens e)));
       Called (SendToMailbox (ep_queue_id ep) (compute_tag (ep_send_key ep) (ep_queue_id ep) env) env)].
Proof.
  intros (w0 & kp & Hkp & H)%bind_Done. unfold w_result in Hkp. destruct (key_package_from_link link) as [kp'|]; simplify_eq.
  apply bind_Done in H as ([ioa ea] & r1 & Hr & H). injection Hr as <- <- <-.
  apply bind_Done in H as (w1 & [] & Hg & H). apply on_session_Done in Hg as (s1 & Hg & ->).
  apply bind_Done in H as ([iob eb] & r2 & Hr & H). injection Hr as <- <- <-.
  apply bind_Done in H as (w2 & welcome & Ha & H). apply on_session_Done in Ha as (s2 & Ha & ->).
  apply bind_Done in H as (w3 & tree & Ht & H). apply on_session_Done in Ht as (s3 & Ht & ->).
  assert (s3 = s2) as ->. { simpl in Ht. unfold export_ratchet_tree in Ht. by destruct (s_group s2); simplify_eq. }
  apply bind_Done in H as (w4 & tokens & Hk & H). injection Hk as <- <-.
  apply bind_Done in H as (w5 & [] & Hk & H). injection Hk as <-.
  apply bind_Done in H as (w6 & own & Hk & H). injection Hk as <- <-.
  apply bind_Done in H as ([io2 e2] & ib & Hc & H). apply create_queue_Done in Hc as (E2 & _ & c & sol & _ & Et). simpl in E2, Et.
  apply bind_Done in H as (w7 & env & Hw & H). unfold w_option in Hw.
  destruct (wrap _) as [env'|] eqn:Ew; simplify_eq.
  apply bind_Done in H as ([io3 e3] & [] & Hs & H). apply send_to_mailbox_Done in Hs as (E3 & Et3). simpl in E3, Et3.
  injection H as <- <-. subst e3.
  exists kp, (hd [] (io_rnd io)), s1, (hd [] (io_rnd (rnd (io, e)).1.1)), s2, welcome, tree, ib, env, sol.
  repeat (split; [done|]). rewrite Et3, Et. by rewrite <- app_assoc.
Qed.

Context {BB : BincodeLaws BootstrapPayload}.

Lemma wrap_bootstrap (b : BootstrapPayload) env :
  wrap (bincode_serialize b) = Some env -> bincode_deserialize (padded_ciphertext env) = Some b.
Proof.
  unfold wrap. destruct (pad _) as [p|] eqn:E; simpl; [|done]. intros [= <-]. simpl.
  apply pad_extends in E as [k ->]. apply bincode_roundtrip.
Qed.

(** The listener's half, up to the acknowledgement. *)
Lemma await_pairing_run io e q env ps b s' :
  store e = true -> hd true (io_commits io) = true -> io_pushes io = Some (q, env) :: ps ->
  bincode_deserialize (padded_ciphertext env) = Some b ->
  join_from_welcome (welcome_wire b) (tree_wire b) (session e) = (s', Ok tt) ->
  let id := message_id env in
  let e' := set_inbox (Some (inbox_qid b, inbox_key b)) (set_seen ({[id]} ∪ seen e) (set_session s' e)) in
  (await_pairing (io, e)).1 =
  (mkIo (tail (io_calls io)) ps (io_connects io) (tail (io_commits io)) (io_rnd io)
     (trace io ++ [Joined id; Called (Ack q id)]) (saved e' {[id]} (disk io)), e').
Proof.
  intros Hs Hc Hp Hb Hj id e'. unfold await_pairing. simpl. rewrite Hp. cbn [length await_pairing_loop].
  unfold w_bind at 1, recv. rewrite Hp. unfold w_bind, w_option, on_session, mark_seen, w_set, note. simpl.
  rewrite Hb. simpl. rewrite Hj. simpl. rewrite persist_run by done. simpl. rewrite try_ack_run. simpl.
  by rewrite union_empty_r_L, <- app_assoc.
Qed.

(** C23: the two sides of a pairing end up in the same conversation. When the scanner's
    half succeeds, it has created a group inbox that fans out to both mailboxes,
    added the key package of the link to its group, and put one envelope into the
    listener's mailbox, under a tag the relay accepts; and any listener that can
    join with the welcome in it ends with that same inbox and send key, on disk
    before the bootstrap message is acknowledged. *)
Theorem pairing_agrees fuel link ep io e io1 e1 :
  found_group fuel link ep (io, e) = ((io1, e1), Done tt) ->
  exists kp r1 s1 r2 welcome tree ib env sol,
    key_package_from_link link = Ok kp /\ create_group r1 (session e) = (s1, Ok tt) /\
    add_members r2 [kp] s1 = (session e1, Ok welcome) /\ inbox e1 = Some ib /\
    trace io1 = trace io ++
      [Called RequestPowChallenge;
       Called (CreateGroupInbox sol 1 [mailbox_qid e; ep_queue_id ep] (head (attestation_tokens e)));
       Called (SendToMailbox (ep_queue_id ep) (compute_tag (ep_send_key ep) (ep_queue_id ep) env) env)] /\
    verify_tag (ep_send_key ep) (ep_queue_id ep) env (compute_tag (ep_send_key ep) (ep_queue_id ep) env) = true /\
    forall io' e' ps s', store e' = true -> hd true (io_commits io') = true ->
      io_pushes io' = Some (ep_queue_id ep, env) :: ps ->
      join_from_welcome welcome tree (session e') = (s', Ok tt) ->
      let '(io2, e2) := (await_pairing (io', e')).1 in
      inbox e2 = inbox e1 /\ session e2 = s' /\ is_paired e2 = true /\ disk io2 = saved e2 {[message_id env]} (disk io') /\
      trace io2 = trace io' ++ [Joined (message_id env); Called (Ack (ep_queue_id ep) (message_id env))].
Proof.
  intros (kp & r1 & s1 & r2 & s2 & welcome & tree & ib & env & sol & H1 & H2 & H3 & H4 & H5 & H6 & H7 & H8 & H9)%found_group_Done.
  exists kp, r1, s1, r2, welcome, tree, ib, env, sol. rewrite H7.
  repeat (split; [done|]). split; [by apply bool_decide_eq_true_2|]. intros io' e' ps s' Hs Hc Hp Hj.
  rewrite (await_pairing_run io' e' (ep_queue_id ep) env ps _ s' Hs Hc Hp (wrap_bootstrap _ _ H5) Hj).
  rewrite H6. destruct ib. repeat (split; [done|]). done.
Qed.
End Pairing.

(** ** A concrete client *)

Module EngineExamples.
Import ToyInstances ToyMls.

#[export] Instance bootstrap_eq_dec : EqDecision BootstrapPayload.
Proof. solve_decision. Defined.
#[export] Instance bootstrap_countable : Countable BootstrapPayload.
Proof.
  refine (inj_countable' (fun b => (welcome_wire b, tree_wire b, inbox_qid b, inbox_key b))
            (fun '(a, b, c, d) => mkBootstrap a b c d) _). by intros [].
Defined.
#[export] Instance record_eq_dec : EqDecision PersistedEngine.
Proof. solve_decision. Defined.
#[export] Instance record_countable : Countable PersistedEngine.
Proof.
  refine (inj_countable' (fun r => (p_display_name r, p_relay_addr r, p_relay_fingerprint r, p_mailbox_qid r, p_mailbox_key r, p_inbox r))
            (fun '(a, b, c, d, e, f) => mkPersisted a b c d e f) _). by intros [].
Defined.

(** A checksum in the first byte of 32, so that message ids differ. *)
Definition id_sha : Sha256 := fun m => (zsum id m mod 256) :: replicate 31 0.

#[export] Instance toy_client : ClientExt := {|
  client_mls := toy_mls; client_sha := id_sha; client_hmac := toy_hmac; client_base64 := toy_base64;
  client_envelope := toy_bincode; client_link := toy_bincode; client_bootstrap := toy_bincode;
  client_snapshot := toy_bincode; client_record := toy_bincode;
|}.

Definition script (calls : list (option ServerMessage)) (pushes : list (option (QueueId * Envelope))) (connects commits : list bool)
    (rnds : list bytes) : Io := mkIo calls pushes connects commits rnds [] (mkDisk [] ∅ ∅).

Definition easy : PowChallenge := mkPowChallenge [5] 0.

(** Bob listens and shows a link. *)
Definition bob_start : start := Listen (str "bob") "relay:7443" [7] bob0 [].
Definition bob_script : Io := script [Some (SPowChallenge easy); Some (SQueueCreated [8] [9]); Some SOk] [] [true] [] [].
Definition bob_disk : Disk := mkDisk [1] ∅ ∅.
Abbreviation bob_launch := (launch 1 bob_start bob_script bob_disk).

Definition the_device (o : option (Io * option Engine)) : Io * option Engine := default (script [] [] [] [] [], None) o.
Definition the_engine (o : option (Io * option Engine)) : Engine :=
  match (the_device o).2 with
  | Some e => e
  | None => mkEngine [] bob0 "" [] [] [] None ∅ [] false []
  end.

Definition bob_linked : option (Io * option Engine) :=
  run [(Do MakeLink, script [] [] [] [] [[3]])] (the_device bob_launch).

Definition toy_link : ContactLink := mkContactLink 1 (pack 2 (str "bob", [2], [3])) [mkEndpoint "relay:7443" [7] [8] [9]].

(** Alice scans it. *)
Definition alice_launch : option (Io * option Engine) :=
  launch 1 (Scan (str "alice") (b64_encode (ContactLink_to_bytes toy_link)) (Some alice0) [])
    (script [Some (SPowChallenge easy); Some (SQueueCreated [18] [19]); Some SOk;
             Some (SPowChallenge easy); Some (SQueueCreated [28] [29]); Some SOk]
       [] [true] [] [[0]; [4]; [5]]) (mkDisk [2] ∅ ∅).

(** What a device sent last. *)
Definition last_sent (t : list Effect) : Envelope :=
  match last t with
  | Some (Called (SendToMailbox _ _ env)) | Some (Called (SendToGroupInbox _ _ _ env)) => env
  | _ => mkEnvelope [] RelayFanout []
  end.

Definition bootstrap_env : Envelope := last_sent (trace (the_device alice_launch).1).
Definition bob_paired : option (Io * option Engine) :=
  run [(Do AwaitPairing, script [Some SOk] [Some ([8], bootstrap_env)] [] [] [])] (the_device bob_linked).

(** Alice says hello. *)
Definition alice_sent : option (Io * option Engine) :=
  run [(Do (SendMessage (str "hi")), script [Some SOk] [] [] [] [[6]])] (the_device alice_launch).
Definition hi_env : Envelope := last_sent (trace (the_device alice_sent).1).

(** Bob gets the message twice, with a crash and a restart in between. *)
Definition bob_history : list (action * Io) :=
  [(Do MakeLink, script [] [] [] [] [[3]]);
   (Do AwaitPairing, script [Some SOk] [Some ([8], bootstrap_env)] [] [] []);
   (Do NextEvent, script [None] [Some ([8], hi_env)] [] [] []);
   (Crash, script [] [] [] [] []);
   (Restart, script [Some SOk] [] [true] [] []);
   (Do NextEvent, script [Some SOk] [Some ([8], hi_env)] [] [] [])].
Abbreviation bob_later := (run bob_history (the_device bob_launch)).

(** Equations that do not compare whole engines. *)
Definition some {A} (o : option A) : bool := match o with Some _ => true | None => false end.
Lemma the_device_eq o : some o = true -> o = Some (the_device o).
Proof. by destruct o. Qed.
Lemma session_eq {A} (m : Ses A) s r : (m s).2 = r -> m s = ((m s).1, r).
Proof. intros <-. by destruct (m s). Qed.
Lemma outcome_eq {S A} (m : W S A) w r : (m w).2 = r -> m w = (((m w).1.1, (m w).1.2), r).
Proof. intros <-. by destruct (m w) as [[] ?]. Qed.

Lemma bob_launch_eq : launch 1 bob_start bob_script bob_disk = Some (the_device bob_launch).
Proof. apply the_device_eq. vm_compute. reflexivity. Qed.
Lemma bob_later_eq : run bob_history (the_device bob_launch) = Some (the_device bob_later).
Proof. apply the_device_eq. vm_compute. reflexivity. Qed.

Lemma bob_applied_hi :
  omap (fun e => match e with Applied id => Some id | _ => None end) (trace (the_device bob_later).1) = [message_id hi_env].
Proof. vm_compute. reflexivity. Qed.


(** Bob is about to see Alice's message. *)
Definition bob_ready : Engine := the_engine bob_paired.
Definition bob_hears (commits : list bool) : Io :=
  feed (script [Some SOk] [Some ([8], hi_env)] [] commits []) (the_device bob_paired).1.
Abbreviation heard := (process_incoming (padded_ciphertext hi_env) (session bob_ready)).1.
Definition back_up : Io := script [Some SOk] [] [true] [] [].

Lemma heard_group : s_group heard = Some (group_of heard).
Proof. vm_compute. reflexivity. Qed.

Lemma in_sync_of (s : Session) g : s_group s = Some g -> group_load (s_storage s) (group_id g) = Some (Some g) -> in_sync s.
Proof. intros Hs Hl g' Hg'. rewrite Hs in Hg'. by injection Hg' as <-. Qed.
Lemma heard_saved : group_load (s_storage heard) (group_id (group_of heard)) = Some (Some (group_of heard)).
Proof. vm_compute. reflexivity. Qed.
Lemma feed_disk inp io : disk (feed inp io) = disk io.
Proof. reflexivity. Qed.
Lemma hi_ids : set_Forall (fun v => len v = 16) ({[message_id hi_env]} ∪ dk_seen (disk (the_device bob_paired).1)).
Proof. apply (bool_decide_unpack _). vm_compute. exact Logic.I. Qed.
Lemma hi_applies : (process_incoming (padded_ciphertext hi_env) (session bob_ready)).2 = Ok (Application (str "hi")).
Proof. vm_compute. reflexivity. Qed.

Lemma bob_arrival commits : arrival (bob_hears commits) bob_ready [8] hi_env heard (Application (str "hi")) (EMessage (str "hi")).
Proof.
  split.
  - vm_compute. reflexivity.
  - eexists. reflexivity.
  - apply (bool_decide_eq_false_1 _). vm_compute. reflexivity.
  - exact (session_eq _ _ _ hi_applies).
  - reflexivity.
  - exact (in_sync_of _ _ heard_group heard_saved).
  - unfold bob_hears. rewrite feed_disk. exact hi_ids.
Qed.

Lemma reachable_back_up : reachable back_up.
Proof. exists [], []. split; reflexivity. Qed.

Lemma received_survives_crash_witness :
  let '(io1, e1) := (pump_one (bob_hears [], bob_ready)).1 in session e1 = heard /\ disk io1 = saved e1 {[message_id hi_env]} (disk (bob_hears [])).
Proof.
  pose proof (received_survives_crash _ _ _ _ _ _ _ back_up (bob_arrival []) eq_refl reachable_back_up) as H.
  destruct ((pump_one (bob_hears [], bob_ready)).1) as [io1 e1].
  destruct H as (H1 & _ & _ & _ & H5 & _). split; [exact H1|exact H5].
Defined.

Lemma crash_drops_event_witness :
  exists io2 e2, resume (feed back_up (pump_one (bob_hears [], bob_ready)).1.1, tt) = ((io2, tt), Done e2) /\
    pending_events (pump_one (feed (bob_hears []) io2, e2)).1.2 = [].
Proof.
  destruct (crash_drops_event _ _ _ _ _ _ back_up (bob_hears []) [] (bob_arrival []) eq_refl reachable_back_up eq_refl)
    as (io2 & e2 & H1 & H2).
  exists io2, e2. split; [exact H1|]. destruct ((pump_one (feed (bob_hears []) io2, e2)).1) as [io3 e3]. exact (proj1 H2).
Defined.

Lemma acked_without_persist_witness :
  (message_id hi_env ∉ dk_seen (disk (bob_hears [false]))) /\
  disk (pump_one (bob_hears [false], bob_ready)).1.1 = disk (bob_hears [false]).
Proof.
  split; [apply (bool_decide_eq_false_1 _); vm_compute; reflexivity|].
  pose proof (acked_without_persist _ _ _ _ _ _ _ (bob_hears []) [] (bob_arrival [false]) eq_refl eq_refl) as H.
  destruct (pump_one (bob_hears [false], bob_ready)) as [[io1 e1] r]. destruct H as (_ & H & _). exact H.
Defined.

(** A message from outside of the group. *)
Definition junk : Envelope := mkEnvelope (replicate 16 1) RelayFanout [0; 0].
Definition bob_gets_junk : Io := feed (script [] [Some ([8], junk)] [] [] []) (the_device bob_paired).1.

Lemma junk_new : message_id junk ∉ seen bob_ready.
Proof. apply (bool_decide_eq_false_1 _). vm_compute. reflexivity. Qed.
Lemma junk_refused : process_incoming (padded_ciphertext junk) (session bob_ready)
  = ((process_incoming (padded_ciphertext junk) (session bob_ready)).1, Err SessionDecode).
Proof. apply (session_eq (process_incoming (padded_ciphertext junk)) (session bob_ready)). vm_compute. reflexivity. Qed.

Lemma refused_message_witness : disk (pump_one (bob_gets_junk, bob_ready)).1.1 = disk bob_gets_junk /\ store bob_ready = true.
Proof.
  split; [|vm_compute; reflexivity].
  pose proof (refused_message bob_gets_junk bob_ready [8] junk [] _ _ eq_refl junk_new junk_refused) as H.
  destruct (pump_one (bob_gets_junk, bob_ready)) as [[io1 e1] r]. destruct H as (_ & H & _). exact H.
Defined.

(** Alice, connected and about to found the group. *)
Definition alice_connected : Engine := mkEngine (str "alice") alice0 "relay:7443" [7] [18] [19] None ∅ [] false [].
Definition alice_io : Io :=
  script [Some (SPowChallenge easy); Some (SQueueCreated [28] [29]); Some SOk] [] [] [] [[4]; [5]].
Definition toy_ep : Endpoint := mkEndpoint "relay:7443" [7] [8] [9].
Abbreviation alice_found := (found_group 1 toy_link toy_ep (alice_io, alice_connected)).1.

Lemma alice_found_eq : found_group 1 toy_link toy_ep (alice_io, alice_connected) = ((alice_found.1, alice_found.2), Done tt).
Proof. apply (outcome_eq (found_group 1 toy_link toy_ep)). vm_compute. reflexivity. Qed.

Lemma pairing_agrees_witness : exists ib, inbox alice_found.2 = Some ib /\ inbox bob_ready = Some ib.
Proof.
  destruct (pairing_agrees 1 toy_link toy_ep alice_io alice_connected _ _ alice_found_eq)
    as (kp & r1 & s1 & r2 & welcome & tree & ib & env & sol & _ & _ & _ & Hib & _).
  exists ib. split; [exact Hib|]. transitivity (inbox alice_found.2); [vm_compute; reflexivity|exact Hib].
Defined.

(** ** Findings *)

(** A contact link is handed out without a write: its key package's private part is
    in memory only, so a listener that restarts before the scanner's bootstrap
    arrives cannot join with it any more. *)
Definition bob_restarted : option (Io * option Engine) :=
  run [(Crash, script [] [] [] [] []); (Restart, back_up)] (the_device bob_linked).

Lemma restart_forgets_link :
  disk (the_device bob_linked).1 = disk (the_device bob_launch).1 /\
  (await_pairing (feed (script [Some SOk] [Some ([8], bootstrap_env)] [] [] []) (the_device bob_restarted).1, the_engine bob_restarted)).2
    = Failed OtherErr /\
  (await_pairing (feed (script [Some SOk] [Some ([8], bootstrap_env)] [] [] []) (the_device bob_linked).1, the_engine bob_linked)).2
    = Done tt.
Proof. vm_compute. repeat split. Qed.

(** The relay accepts a commit and the connection dies before its answer: the resend
    conflicts with the commit itself, the pending commit is discarded, and its own
    echo is fed to the session as the winner's. *)
Definition update_env : Envelope :=
  last_sent (trace (commit_self_update (feed (script [Some SOk] [] [] [] [[11]]) (the_device alice_sent).1, the_engine alice_sent)).1.1).

Lemma lost_commit_reply :
  (commit_self_update
     (feed (script [None; Some SOk; Some (SError EpochConflict)] [Some ([18], update_env)] [true] [] [[11]])
        (the_device alice_sent).1, the_engine alice_sent)).2 = Failed OtherErr /\
  (commit_self_update (feed (script [Some SOk] [] [] [] [[11]]) (the_device alice_sent).1, the_engine alice_sent)).2 = Done 2.
Proof. vm_compute. repeat split. Qed.
End EngineExamples.
