(* ===== verification/Network.v ===== *)
(** * Engines on a relay

    The engine's theorems speak of scripts and the relay's of requests; here the
    script of an engine is what the relay answers and pushes. A device that
    reconnects works through its backlog: it applies what it has not seen, each
    message once and in order, acknowledges everything, and leaves its mailbox
    empty. From there, end to end: a message one engine sends is handed to the app of
    every other one, whatever the relay went through in between. *)

From S2P Require Import Prelude Text External Proto ProtoProps Relay RelaySpec RelayRefine RelayDurable RelayRun RelayProps RelayPush RelayGates CoreSession CoreProps Engine EngineInv EngineProps EnginePair.

(** ** The relay's side of a connection *)

Section RelaySide.
Context {R : RelayExt} `{!RelayExtLaws R}.
Implicit Types (w : World) (c : ChanId).

(** The replies to the requests of one connection, in order; [None] when the relay
    fails to answer one. *)
Fixpoint answer (c : ChanId) (envs : nat -> Relay.Env) (reqs : list ClientMessage) (w : World)
  : option (World * list ServerMessage) :=
  match reqs with
  | [] => Some (w, [])
  | m :: reqs' =>
      match handle (envs O) m (Some c) w with
      | (w1, Relay.Done r) => '(w2, rs) ← answer c (fun n => envs (S n)) reqs' w1; Some (w2, r :: rs)
      | _ => None
      end
  end.

(** A relay that is up: its invariant holds and its mutex is not poisoned. *)
Record up (w : World) : Prop := { up_inv : Inv (inner w); up_lock : poisoned w = false }.

(** Writes go through. *)
Definition healthy (envs : nat -> Relay.Env) : Prop := forall n, disk_ok (envs n) = true.

Lemma healthy_S envs : healthy envs -> healthy (fun n => envs (S n)).
Proof. intros H n. apply H. Qed.

Lemma db_write_world e f w w' r : db_write e f w = (w', r) -> poisoned w' = poisoned w.
Proof.
  intros H. apply db_write_inv in H as [(_ & [[_ ->]|(d & d' & _ & _ & _ & ->)])|(_ & -> & _)]; done.
Qed.

Lemma ack_answer e q mid c w :
  up w -> disk_ok e = true ->
  exists w', handle e (Ack q mid) (Some c) w = (w', Relay.Done SOk) /\ up w' /\ chans w' = chans w /\
             abs (inner w') = ack_abs q mid (abs (inner w)).
Proof.
  intros [Hi Hp] Ho.
  destruct (db_write_run e (sql_delete_pending q mid) w Ho) as [w1 Hw].
  assert (Ha : ack e q mid w = (set_inner (ack_inner q mid (inner w1)) w1, Relay.Done tt)).
  { unfold ack, locked. rewrite Hp. by erewrite bind_done by done. }
  pose proof (step_ack _ _ _ _ _ _ Hi Ha) as [Hs Hi']. inversion Hs as [| | | |s q' mid' E1 E2 E3]; subst.
  eexists. split; [simpl; unfold reply_of; by rewrite Ha|]. split; [split; [done|]|].
  - simpl. rewrite <- Hp. by eapply db_write_world.
  - split; [|done]. apply ack_inv in Ha as [[[] _]|(_ & i1 & _ & _ & _ & _ & Hc & _)]. done.
Qed.

Lemma subscribe_answer e q c w :
  up w -> open_chan w c = true ->
  exists w', handle e (Subscribe [q]) (Some c) w = (w', Relay.Done SOk) /\ up w' /\
             abs (inner w') = abs (inner w) /\ sent w' c = sent w c ++ backlog_msgs (inner w) [q].
Proof.
  intros [Hi Hp] Ho. unfold open_chan in Ho. apply negb_true_iff in Ho.
  destruct (subscribe [q] c w) as [w' r] eqn:E.
  pose proof (subscribe_inv _ _ _ _ _ E) as Hs.
  assert (Hp' : poisoned w' = false /\ r = Relay.Done tt).
  { unfold subscribe, locked in E. rewrite Hp in E. unfold modify_world in E. by simplify_eq/=. }
  destruct Hp' as [Hp' ->]. exists w'. split; [simpl; unfold reply_of; by rewrite E|].
  split; [split; [by eapply inv_soft|done]|]. split; [by destruct Hs as (-> & _)|].
  apply subscribe_run in E as [[? _]|(_ & E & Hc)]; [done|]. rewrite drain_queues_spec in Hc by done.
  assert (Hb : backlog_msgs (inner w') [q] = backlog_msgs (inner w) [q]) by by rewrite E.
  rewrite Hb in Hc. unfold sent. rewrite Hc, lookup_alter_eq. unfold chan_closed in Ho.
  by destruct (chans w !! c).
Qed.

(** Acknowledgements of a mailbox, in any number. *)
Definition ack_many (q : QueueId) (ids : list MessageId) (s : AState) : AState :=
  foldl (fun s id => ack_abs q id s) s ids.

Lemma ack_many_ne q ids s q' : q' <> q -> ack_many q ids s !! q' = s !! q'.
Proof.
  intros Hne. unfold ack_many. revert s. induction ids as [|id ids IH]; intros s; [done|]. cbn [foldl].
  rewrite IH, ack_abs_lookup. by rewrite bool_decide_eq_false_2.
Qed.

(** A mailbox whose every message is acknowledged is empty. *)
Lemma ack_many_drains q ids s key p :
  s !! q = Some (key, Mailbox p) -> Forall (fun m => m.1 ∈ ids) p ->
  ack_many q ids s !! q = Some (key, Mailbox []).
Proof.
  unfold ack_many. revert s p. induction ids as [|id ids IH]; intros s p Hq Hp.
  - destruct p as [|m p]; [done|]. apply Forall_cons in Hp as [Hm _]. set_solver.
  - cbn [foldl]. eapply IH; [rewrite ack_abs_lookup, Hq; by rewrite bool_decide_eq_true_2|].
    apply Forall_forall. intros m [Hm Hn]%retain_elem. rewrite Forall_forall in Hp. apply Hp in Hm.
    unfold acked in Hn. bools. set_solver.
Qed.

Lemma acks_answered q ids envs c w :
  up w -> healthy envs ->
  exists w', answer c envs (Ack q <$> ids) w = Some (w', replicate (length ids) SOk) /\ up w' /\
             chans w' = chans w /\ abs (inner w') = ack_many q ids (abs (inner w)).
Proof.
  revert envs w. induction ids as [|id ids IH]; intros envs w Hu He; [by exists w|].
  destruct (ack_answer (envs O) q id c w Hu (He O)) as (w1 & H1 & Hu1 & Hc1 & Ha1).
  destruct (IH _ w1 Hu1 (healthy_S _ He)) as (w' & H2 & Hu2 & Hc2 & Ha2).
  exists w'. cbn [fmap list_fmap answer]. rewrite H1, H2. split; [done|]. split; [done|].
  rewrite Hc2, Ha2, Ha1. done.
Qed.

(** A whole catch-up, as the relay sees it. *)
Lemma catch_up_answered q key p envs c w :
  up w -> healthy envs -> open_chan w c = true -> abs (inner w) !! q = Some (key, Mailbox p) ->
  exists w', answer c envs (Subscribe [q] :: (Ack q <$> p.*1)) w = Some (w', replicate (S (length p)) SOk) /\ up w' /\
             sent w' c = sent w c ++ ((fun m => (q, m.1, m.2)) <$> p) /\
             abs (inner w') !! q = Some (key, Mailbox []) /\
             (forall q', q' <> q -> abs (inner w') !! q' = abs (inner w) !! q').
Proof.
  intros Hu He Ho Hq. destruct (subscribe_answer (envs O) q c w Hu Ho) as (w1 & H1 & Hu1 & Ha1 & Hs1).
  destruct (acks_answered q p.*1 _ c w1 Hu1 (healthy_S _ He)) as (w' & H2 & Hu2 & Hc2 & Ha2).
  exists w'. cbn [answer]. rewrite H1, H2. split; [simpl; by rewrite length_fmap|]. split; [done|].
  rewrite Ha2, Ha1. split; [|split].
  - unfold sent in *. rewrite Hc2, Hs1. unfold backlog_msgs. simpl. rewrite app_nil_r, mailbox_pending_abs, Hq. done.
  - eapply ack_many_drains; [done|]. apply Forall_forall. intros m Hm. by apply list_elem_of_fmap_2.
  - intros q' Hne. by apply ack_many_ne.
Qed.
End RelaySide.

(** ** The engine's side *)

#[local] Arguments persist {X} _ _ : simpl never.

Section EngineSide.
Context {X : ClientExt} {BE : BincodeLaws PersistedEngine} {BS : BincodeLaws SessionSnapshot}.
Implicit Types (e : Engine) (l : list Envelope) (k : gset MessageId).

(** What the reader of the connection hands on of a push. *)
Definition forwarded (ms : list PushMsg) : list (option (QueueId * Envelope)) := (fun m => Some (m.1.1, m.2)) <$> ms.

Definition requests (t : list Effect) : list ClientMessage :=
  omap (fun x => match x with Called m => Some m | _ => None end) t.
Definition applied (t : list Effect) : list MessageId :=
  omap (fun x => match x with Applied id => Some id | _ => None end) t.

Fixpoint pump_n (n : nat) : W Engine unit :=
  match n with O => w_ret tt | S n' => _ <~ pump_one; pump_n n' end.

(** Reconnect, then take [n] pushes. *)
Definition catch_up (n : nat) : W Engine unit := _ <~ reconnect; pump_n n.

(** The ids of a backlog that are not in the seen set, each at its first place. *)
Fixpoint unseen (k : gset MessageId) (l : list Envelope) : list MessageId :=
  match l with
  | [] => []
  | env :: l' =>
      let id := message_id env in
      if bool_decide (id ∈ k) then unseen k l' else id :: unseen ({[id]} ∪ k) l'
  end.

(** The session takes every message of a backlog that is not in the seen set, and
    these are the events. *)
Inductive absorbs : Session -> gset MessageId -> list Envelope -> Session -> list Event -> Prop :=
| absorbs_nil s k : absorbs s k [] s []
| absorbs_known s k env l s' evs :
    message_id env ∈ k -> absorbs s k l s' evs -> absorbs s k (env :: l) s' evs
| absorbs_new s k env l s1 inc ev s' evs :
    message_id env ∉ k -> process_incoming (padded_ciphertext env) s = (s1, Ok inc) ->
    incoming_event s1 inc = Some ev -> absorbs s1 ({[message_id env]} ∪ k) l s' evs ->
    absorbs s k (env :: l) s' (ev :: evs).

Lemma unseen_spec k l id : id ∈ unseen k l <-> id ∈ message_id <$> l /\ id ∉ k.
Proof.
  revert k. induction l as [|env l IH]; intros k; simpl; [set_solver|].
  case_bool_decide; rewrite ?elem_of_cons, IH; [set_solver|].
  destruct (decide (id = message_id env)); set_solver.
Qed.

Lemma unseen_NoDup k l : NoDup (unseen k l).
Proof.
  revert k. induction l as [|env l IH]; intros k; simpl; [constructor|].
  case_bool_decide; [done|]. constructor; [|done]. rewrite unseen_spec. set_solver.
Qed.

Lemma unseen_app k l1 l2 : unseen k (l1 ++ l2) = unseen k l1 ++ unseen (list_to_set (message_id <$> l1) ∪ k) l2.
Proof.
  revert k. induction l1 as [|env l1 IH]; intros k; cbn [unseen app fmap list_fmap list_to_set].
  { by rewrite (left_id_L ∅ (∪)). }
  case_bool_decide as Hk.
  - rewrite IH. f_equal. f_equal. set_solver.
  - rewrite IH. simpl. f_equal. f_equal. f_equal. set_solver.
Qed.

(** An accepted message gives its event. *)
Lemma absorbs_event s k l s' evs env m :
  absorbs s k l s' evs -> env ∈ l -> message_id env ∉ k ->
  (forall env', env' ∈ l -> message_id env' = message_id env -> env' = env) ->
  (forall s1 s2 inc, process_incoming (padded_ciphertext env) s1 = (s2, Ok inc) -> inc = Application m) ->
  EMessage m ∈ evs.
Proof.
  intros H He Hk Hu Hd. induction H as [|s k env' l s' evs Hk' _ IH|s k env' l s1 inc ev s' evs Hk' Hp Hev _ IH]; [set_solver|..].
  - apply IH; [set_solver|done|set_solver].
  - destruct (decide (message_id env' = message_id env)) as [E|Hne].
    + apply Hu in E as ->; [|set_solver]. apply Hd in Hp as ->. simpl in Hev. simplify_eq. set_solver.
    + apply list_elem_of_further, IH; set_solver.
Qed.

Lemma try_ack_done q id io e rs :
  io_calls io = Some SOk :: rs -> (try_ack q id (io, e)).2 = Done tt.
Proof. intros Hr. destruct io. simpl in Hr. by subst. Qed.

(** A pump of one message: known, or taken by the session. *)
Lemma pump_known_done io e q env ps rs :
  io_pushes io = Some (q, env) :: ps -> message_id env ∈ seen e -> io_calls io = Some SOk :: rs ->
  (pump_one (io, e)).2 = Done tt.
Proof.
  intros Hp Hn Hr. unfold pump_one, w_bind at 1, recv. rewrite Hp. unfold w_bind, w_get, mark_seen, w_set. simpl.
  rewrite (bool_decide_eq_true_2 _ Hn). simpl. by eapply try_ack_done.
Qed.

Lemma pump_first_done io e q env ps rs s' inc ev :
  store e = true -> io_pushes io = Some (q, env) :: ps -> message_id env ∉ seen e ->
  process_incoming (padded_ciphertext env) (session e) = (s', Ok inc) -> incoming_event s' inc = Some ev ->
  hd true (io_commits io) = true -> io_calls io = Some SOk :: rs ->
  (pump_one (io, e)).2 = Done tt.
Proof.
  intros Hs Hp Hn Hm He Hc Hr. rewrite (pump_until_persist io e q env ps s' inc ev) by done. unfold w_bind.
  rewrite persist_run by done. by eapply try_ack_done.
Qed.

(** What stays of an engine that works through its backlog. *)
Record caught_up (q : QueueId) (l : list Envelope) (s' : Session) (evs : list Event) (io : Io) (e : Engine)
    (io' : Io) (e' : Engine) : Prop := {
  cu_requests : requests (trace io') = requests (trace io) ++ (Ack q <$> (message_id <$> l));
  cu_applied : applied (trace io') = applied (trace io) ++ unseen (seen e) l;
  cu_events : pending_events e' = pending_events e ++ evs;
  cu_session : session e' = s';
  cu_seen : seen e' = list_to_set (message_id <$> l) ∪ seen e;
  cu_disk : seen e ⊆ dk_seen (disk io) -> seen e' ⊆ dk_seen (disk io');
  cu_rest : io_pushes io' = [] /\ io_calls io' = [] /\ inbox e' = inbox e /\ mailbox_qid e' = mailbox_qid e;
}.

Lemma requests_app t t' : requests (t ++ t') = requests t ++ requests t'.
Proof. apply omap_app. Qed.
Lemma applied_app t t' : applied (t ++ t') = applied t ++ applied t'.
Proof. apply omap_app. Qed.

Lemma pump_backlog q l s' evs io e :
  store e = true -> absorbs (session e) (seen e) l s' evs -> io_commits io = [] ->
  io_pushes io = (fun env => Some (q, env)) <$> l -> io_calls io = replicate (length l) (Some SOk) ->
  exists io' e', pump_n (length l) (io, e) = ((io', e'), Done tt) /\ caught_up q l s' evs io e io' e'.
Proof.
  revert io e evs. induction l as [|env l IH]; intros io e evs Hs Ha Hc Hp Hr.
  { inversion Ha; subst. exists io, e. split; [done|]. split; rewrite ?app_nil_r; try done; simpl; set_solver. }
  cbn [length pump_n]. cbn [length replicate] in Hr. cbn [fmap list_fmap] in Hp.
  inversion Ha as [|? ? ? ? ? ? Hk Ha'|? ? ? ? s1 inc ev ? evs' Hk Hm He Ha']; subst.
  - pose proof (pump_known io e q env _ Hp Hk) as H1. pose proof (pump_known_done io e q env _ _ Hp Hk Hr) as H2.
    unfold w_bind. destruct (pump_one (io, e)) as [w r]. simpl in H1, H2. subst w r.
    match goal with |- context [pump_n _ (?io1, ?e1)] =>
      destruct (IH io1 e1 evs) as (io' & e' & Hrun & [C1 C2 C3 C4 C5 C6 C7]); try (simpl; by rewrite ?Hr) end.
    exists io', e'. split; [exact Hrun|]. simpl in *.
    rewrite requests_app in C1. rewrite applied_app, app_nil_r in C2.
    split; cbn [unseen]; rewrite ?(bool_decide_eq_true_2 _ Hk); try done; [by rewrite C1, <- app_assoc|set_solver].
  - assert (Hc' : hd true (io_commits io) = true) by by rewrite Hc.
    pose proof (pump_first_sight io e q env _ s1 inc ev Hs Hp Hk Hm He Hc') as H1.
    pose proof (pump_first_done io e q env _ _ s1 inc ev Hs Hp Hk Hm He Hc' Hr) as H2.
    unfold w_bind. destruct (pump_one (io, e)) as [w r]. simpl in H1, H2. subst w r.
    match goal with |- context [pump_n _ (?io1, ?e1)] =>
      destruct (IH io1 e1 evs') as (io' & e' & Hrun & [C1 C2 C3 C4 C5 C6 C7]); try (simpl; by rewrite ?Hr, ?Hc) end.
    exists io', e'. split; [exact Hrun|]. simpl in *.
    rewrite requests_app in C1. rewrite applied_app in C2.
    split; cbn [unseen]; rewrite ?(bool_decide_eq_false_2 _ Hk); try done; [by rewrite C1, <- app_assoc|by rewrite C2, <- app_assoc|by rewrite C3, <- app_assoc|set_solver|].
    intros Hd. apply C6. set_solver.
Qed.

Lemma reconnect_run io e cs rs :
  io_connects io = true :: cs -> io_calls io = Some SOk :: rs ->
  reconnect (io, e) =
    ((mkIo rs (io_pushes io) cs (io_commits io) (io_rnd io) (trace io ++ [Called (Subscribe [mailbox_qid e])]) (disk io), e),
     Done tt).
Proof.
  intros Hc Hr. unfold reconnect. cbn [reconnect_loop ATTEMPTS]. unfold w_bind at 1, w_try, connect_relay. rewrite Hc.
  destruct io. simpl in *. by subst.
Qed.

Lemma catch_up_run l s' evs io e cs :
  store e = true -> absorbs (session e) (seen e) l s' evs -> io_commits io = [] -> io_connects io = true :: cs ->
  io_pushes io = (fun env => Some (mailbox_qid e, env)) <$> l -> io_calls io = replicate (S (length l)) (Some SOk) ->
  exists io' e' io1, catch_up (length l) (io, e) = ((io', e'), Done tt) /\ caught_up (mailbox_qid e) l s' evs io1 e io' e' /\
    trace io1 = trace io ++ [Called (Subscribe [mailbox_qid e])] /\ disk io1 = disk io.
Proof.
  intros Hs Ha Hc Hn Hp Hr. unfold catch_up, w_bind. rewrite (reconnect_run io e cs _ Hn Hr).
  match goal with |- context [pump_n _ (?io1, ?e1)] =>
    destruct (pump_backlog (mailbox_qid e) l s' evs io1 e1) as (io' & e' & Hrun & C); try done; exists io', e', io1 end.
  by rewrite Hrun.
Qed.
End EngineSide.

(** ** Together *)

(** Client and relay link the same hash and serialization crates. *)
Class SameCrates (X : ClientExt) (R : RelayExt) : Prop := {
  same_hmac : @relay_hmac R = @client_hmac X;
  same_envelope : @relay_bincode R = @client_envelope X;
}.

Section Network.
Context {X : ClientExt} {BE : BincodeLaws PersistedEngine} {BS : BincodeLaws SessionSnapshot}.
Context {R : RelayExt} `{!RelayExtLaws R} {SC : SameCrates X R}.

Abbreviation client_tag := (@compute_tag client_hmac client_envelope).

Lemma client_tag_verifies key q env : @verify_tag relay_hmac relay_bincode key q env (client_tag key q env) = true.
Proof. rewrite same_hmac, same_envelope. by apply bool_decide_eq_true_2. Qed.

Lemma filed_ids s q key p : wf_abs s -> s !! q = Some (key, Mailbox p) -> message_id <$> p.*2 = p.*1.
Proof.
  intros W Hq. destruct (wf_abs_lookup _ _ _ _ W Hq) as (_ & _ & Hp). simpl in Hp.
  rewrite <- list_fmap_compose. apply list_fmap_ext. intros i m Hm. symmetry. by eapply Forall_lookup in Hp.
Qed.

(** The script of an engine whose connection [c] took the relay from [w] to [w'] with
    these replies: a connection attempt that works, the replies, and the pushes. *)
Record script_of (c : ChanId) (w w' : World) (replies : list ServerMessage) (io : Io) : Prop := {
  so_connects : exists cs, io_connects io = true :: cs;
  so_calls : io_calls io = Some <$> replies;
  so_pushes : io_pushes io = forwarded (drop (length (sent w c)) (sent w' c));
  so_commits : io_commits io = [];
}.

(** A device that comes back to a relay that is up: its store works and its session
    takes what is in its backlog. *)
Record comes_back (c : ChanId) (w : World) (e : Engine) (key : bytes) (p : list (MessageId * Envelope))
    (s' : Session) (evs : list Event) : Prop := {
  cb_up : up w;
  cb_open : open_chan w c = true;
  cb_backlog : abs (inner w) !! mailbox_qid e = Some (key, Mailbox p);
  cb_store : store e = true;
  cb_absorbs : absorbs (session e) (seen e) (p.*2) s' evs;
}.

(** The relay answers every request the device is going to make, its mailbox is empty
    at the end and no other queue changed; and a device with these answers makes
    exactly these requests, and has applied exactly what it had not seen. *)
Definition drains (c : ChanId) (envs : nat -> Relay.Env) (w : World) (e : Engine) (key : bytes)
    (p : list (MessageId * Envelope)) (s' : Session) (evs : list Event) : Prop :=
  let q := mailbox_qid e in
  let reqs := Subscribe [q] :: (Ack q <$> p.*1) in
  exists w' replies,
    answer c envs reqs w = Some (w', replies) /\ abs (inner w') !! q = Some (key, Mailbox []) /\
    (forall q', q' <> q -> abs (inner w') !! q' = abs (inner w) !! q') /\
    forall io, script_of c w w' replies io ->
    exists io' e', catch_up (length p) (io, e) = ((io', e'), Done tt) /\
      requests (trace io') = requests (trace io) ++ reqs /\
      applied (trace io') = applied (trace io) ++ unseen (seen e) (p.*2) /\
      pending_events e' = pending_events e ++ evs /\ session e' = s' /\
      seen e' = list_to_set (p.*1) ∪ seen e /\
      (seen e ⊆ dk_seen (disk io) -> seen e' ⊆ dk_seen (disk io')).

Lemma comes_back_drains c envs w e key p s' evs :
  comes_back c w e key p s' evs -> healthy envs -> drains c envs w e key p s' evs.
Proof.
  intros [Hu Ho Hq Hs Ha] He.
  destruct (catch_up_answered _ key p envs c w Hu He Ho Hq) as (w' & H1 & _ & H2 & H3 & H4).
  exists w', (replicate (S (length p)) SOk). split; [done|]. split; [done|]. split; [done|].
  intros io [[cs Hn] Hr Hp Hc]. rewrite H2, drop_app_length in Hp. rewrite fmap_replicate in Hr.
  pose proof (filed_ids _ _ _ _ (inv_wf _ (up_inv _ Hu)) Hq) as Hf.
  destruct (catch_up_run (p.*2) s' evs io e cs) as (io' & e' & io1 & Hrun & [C1 C2 C3 C4 C5 C6 _] & Ht & Hd); try done.
  - rewrite Hp. unfold forwarded. by rewrite <- !list_fmap_compose.
  - by rewrite Hr, length_fmap.
  - rewrite length_fmap in Hrun. rewrite Ht, ?requests_app, ?applied_app, ?app_nil_r in *. rewrite Hd in C6.
    rewrite Hf in *. exists io', e'. rewrite <- app_assoc in C1. done.
Qed.

(** C4: at-least-once delivery and the seen set make exactly-once delivery. A device
    reconnects to a relay that is up, with the disks at work, and its session accepts
    every message of the backlog that it has not seen, one after the other. (One that it
    refuses ends the loop instead and stays in the mailbox: [refused_message].) Working
    through its backlog the device then applies the messages it has not seen, each once
    and in the order they were accepted, queues their events, has every id of the
    backlog on disk, and acknowledges all of it: the relay answers every one of these
    requests and ends with that mailbox empty and every other queue untouched. *)
Theorem backlog_delivered_once c envs w e key p s' evs :
  comes_back c w e key p s' evs -> healthy envs ->
  drains c envs w e key p s' evs /\ NoDup (unseen (seen e) (p.*2)) /\
  (forall id, id ∈ unseen (seen e) (p.*2) <-> id ∈ p.*1 /\ id ∉ seen e).
Proof.
  intros Hb He. split; [by apply comes_back_drains|]. split; [apply unseen_NoDup|]. intros id.
  destruct Hb as [Hu _ Hq _ _]. rewrite unseen_spec, (filed_ids _ _ _ _ (inv_wf _ (up_inv _ Hu)) Hq). done.
Qed.

(** ** From one engine to another *)

Lemma copies_pos roster q : q ∈ roster -> copies roster q <> O.
Proof.
  intros Hq. unfold copies. assert (H : q ∈ retain (fun m => bool_decide (m = q)) roster).
  { apply retain_elem. split; [done|]. by apply bool_decide_eq_true_2. }
  destruct (retain _ roster); [set_solver|done].
Qed.

(** A paired engine that is about to send: the envelope of the message. *)
Record sends (e : Engine) (r m : bytes) (q : QueueId) (key : bytes) (env : Envelope) : Prop := {
  sd_inbox : inbox e = Some (q, key);
  sd_store : store e = true;
  sd_wire : exists s' wire, encrypt_application r m (session e) = (s', Ok wire) /\ wrap wire = Some env;
}.

Definition send_request (q : QueueId) (key : bytes) (env : Envelope) : ClientMessage :=
  SendToGroupInbox q Proto.Application (client_tag key q env) env.

Lemma send_message_run e r m q key env io rs :
  sends e r m q key env -> io_calls io = [Some SOk] -> io_rnd io = r :: rs -> io_commits io = [] ->
  exists io' e', send_message m (io, e) = ((io', e'), Done tt) /\
    requests (trace io') = requests (trace io) ++ [send_request q key env] /\ applied (trace io') = applied (trace io) /\
    message_id env ∈ seen e' /\ message_id env ∈ dk_seen (disk io').
Proof.
  intros [Hi Hs (s' & wire & Hw & Hv)] Hc Hr Hk. destruct io as [calls pushes connects commits rnds t d]. simpl in *. subst.
  unfold send_message, w_bind, w_get, w_option, rnd, on_session, mark_seen, w_set. simpl. rewrite Hi. simpl.
  rewrite Hw. simpl. rewrite Hv. simpl. rewrite persist_run by done.
  eexists _, _. split; [reflexivity|]. simpl. rewrite requests_app, applied_app, app_nil_r. set_solver.
Qed.

(** The relay has room for a message of this inbox. *)
Record takes (er : Relay.Env) (w : World) (q : QueueId) (key : bytes) (roster : list QueueId) (env : Envelope) : Prop := {
  tk_up : up w;
  tk_disk : disk_ok er = true;
  tk_inbox : exists en ep, queues (inner w) !! q = Some en /\ send_key en = key /\ kind en = GroupInbox ep roster /\
               rate_room (mono er) en = true;
  tk_room : fits (inner w) (env_len env * len roster) = true;
}.

Lemma wrap_len wire env : wrap wire = Some env -> env_len env <= MAX_MESSAGE_SIZE.
Proof.
  unfold wrap. pose proof (pad_spec wire) as H. destruct (pad wire) as [p|]; simpl; [|done]. intros [= <-].
  by destruct H as (_ & _ & _ & H).
Qed.

(** Acceptance of any group send the relay has room for. *)
Lemma group_accepted er w c q k key ep roster env en :
  up w -> disk_ok er = true -> queues (inner w) !! q = Some en -> send_key en = key -> kind en = GroupInbox ep roster ->
  epoch_ok k ep = true -> (forall t d, k = Commit t -> db (inner w) = Some d -> t < i64_max) ->
  rate_room (mono er) en = true -> fits (inner w) (env_len env * len roster) = true -> env_len env <= MAX_MESSAGE_SIZE ->
  exists w1, handle er (SendToGroupInbox q k (client_tag key q env) env) (Some c) w = (w1, Relay.Done SOk) /\ Inv (inner w1) /\
             spec_step (abs (inner w)) (LGroup q k roster env) (abs (inner w1)).
Proof.
  intros [Hi Hp] Hd Hq Hk Hg He Hc Hr Hf Hl.
  pose proof (group_send_verdict er q k (client_tag key q env) env w Hi Hp Hd) as Hv.
  unfold group_verdict in Hv. rewrite Hq, Hk, client_tag_verifies, Hg, He, Hf, Hr in Hv.
  rewrite (proj2 (Z.ltb_ge _ _) Hl) in Hv. simpl in Hv.
  destruct (send_to_group_inbox _ _ _ _ _ w) as [w1 r] eqn:E. simpl in Hv. subst r. exists w1.
  assert (Ha : abs (inner w) !! q = Some (key, GroupInbox ep roster)) by by rewrite (abs_lookup_Some _ _ _ Hq), Hk, Hg.
  pose proof (step_send_to_group_inbox _ _ _ _ _ _ _ _ Hi Hc E) as [Hst Hi1].
  unfold roster_of in Hst. rewrite Ha in Hst. simpl. unfold reply_of. by rewrite E.
Qed.

Lemma send_accepted er w c q key roster env :
  takes er w q key roster env -> env_len env <= MAX_MESSAGE_SIZE ->
  exists w1, handle er (send_request q key env) (Some c) w = (w1, Relay.Done SOk) /\ Inv (inner w1) /\
             (forall m km p, abs (inner w) !! m = Some (km, Mailbox p) ->
                abs (inner w1) !! m = Some (km, Mailbox (p ++ replicate (copies roster m) (message_id env, env)))).
Proof.
  intros [Hu Hd (en & ep & Hq & Hk & Hg & Hr) Hf] Hl.
  destruct (group_accepted er w c q Proto.Application key ep roster env en) as (w1 & H1 & H2 & H3); try done.
  exists w1. split; [done|]. split; [done|]. intros m km p Hm. by apply (spec_step_mailbox _ _ _ _ _ _ H3).
Qed.

(** An accepted message waits in every mailbox of the roster, whatever else happens to
    the relay, until that mailbox acknowledges it. *)
Lemma accepted_waits er w c q key roster env (m : QueueId) (km : bytes) p0 :
  takes er w q key roster env -> env_len env <= MAX_MESSAGE_SIZE -> m ∈ roster -> abs (inner w) !! m = Some (km, Mailbox p0) ->
  exists w1, handle er (send_request q key env) (Some c) w = (w1, Relay.Done SOk) /\
    forall ops, ops_ok ops w1 = true -> LAcked m (message_id env) ∉ (RelayRun.run ops w1).2 ->
      exists p, abs (inner (RelayRun.run ops w1).1) !! m = Some (km, Mailbox p) /\ (message_id env, env) ∈ p.
Proof.
  intros Ht Hl Hb Hm. destruct (send_accepted er w c q key roster env Ht Hl) as (w1 & H1 & Hi1 & Hq1).
  exists w1. split; [done|]. intros ops Hok Ha. destruct (run_refines ops w1 Hi1 Hok) as [Hss _].
  pose proof (spec_steps_mailbox _ _ _ _ _ _ Hss (Hq1 _ _ _ Hm)) as Hq2. eexists. split; [exact Hq2|].
  apply backlog_keeps; [|done]. apply elem_of_app. right. apply elem_of_replicate. split; [done|]. by apply copies_pos.
Qed.

(** A message arrives. A paired engine sends while the relay has room: the relay
    accepts the very request the engine makes. Whatever then happens to the relay,
    restarts and other traffic included, as long as the recipient's mailbox does not
    acknowledge the message: when the recipient comes back and works through its
    backlog, the message is applied once, the plaintext is among the events handed to
    the app, and the mailbox ends empty. About MLS this takes that a session which
    accepts the ciphertext decrypts it to the plaintext. *)
Theorem message_arrives a r m q key env er w ca roster b km p0 :
  sends a r m q key env -> takes er w q key roster env ->
  mailbox_qid b ∈ roster -> abs (inner w) !! mailbox_qid b = Some (km, Mailbox p0) -> message_id env ∉ seen b ->
  (forall s1 s2 inc, process_incoming (padded_ciphertext env) s1 = (s2, Ok inc) -> inc = Application m) ->
  exists w1, answer ca (fun _ => er) [send_request q key env] w = Some (w1, [SOk]) /\
    (forall io rs, io_calls io = [Some SOk] -> io_rnd io = r :: rs -> io_commits io = [] ->
       exists io' a', send_message m (io, a) = ((io', a'), Done tt) /\
         requests (trace io') = requests (trace io) ++ [send_request q key env] /\
         applied (trace io') = applied (trace io) /\ message_id env ∈ seen a' /\ message_id env ∈ dk_seen (disk io')) /\
    (forall ops, ops_ok ops w1 = true -> LAcked (mailbox_qid b) (message_id env) ∉ (RelayRun.run ops w1).2 ->
       let w2 := (RelayRun.run ops w1).1 in
       exists p, abs (inner w2) !! mailbox_qid b = Some (km, Mailbox p) /\ (message_id env, env) ∈ p /\
       forall cb envs s' evs, comes_back cb w2 b km p s' evs -> healthy envs ->
         (forall env', env' ∈ p.*2 -> message_id env' = message_id env -> env' = env) ->
         drains cb envs w2 b km p s' evs /\ message_id env ∈ unseen (seen b) (p.*2) /\ EMessage m ∈ evs).
Proof.
  intros Hs Ht Hb Hm Hn Hd. destruct (sd_wire _ _ _ _ _ _ Hs) as (sa & wire & _ & Hw).
  destruct (accepted_waits er w ca q key roster env _ km p0 Ht (wrap_len _ _ Hw) Hb Hm) as (w1 & H1 & Hwait).
  exists w1. split; [cbn [answer]; by rewrite H1|]. split; [intros; by eapply send_message_run|].
  intros ops Hok Ha w2. destruct (Hwait ops Hok Ha) as (p & Hp & He). exists p. split; [done|]. split; [done|].
  intros cb envs s' evs Hcb Hh Hu. pose proof (list_elem_of_fmap_2 snd p _ He) as He2. simpl in He2.
  split; [by apply comes_back_drains|]. split; [apply unseen_spec; split; [by apply list_elem_of_fmap_2|done]|].
  eapply absorbs_event; [apply (cb_absorbs _ _ _ _ _ _ _ Hcb)|done..].
Qed.
End Network.

(** ** Alice and Bob on one relay *)

Module NetworkExamples.
Import ToyInstances RelayToy Scenario ToyMls EngineExamples.

#[export] Instance toy_same : SameCrates toy_client toy_relay.
Proof. by split. Qed.

(** The two of [EngineExamples], with the queues of [Scenario]. *)
Definition alice : Engine :=
  mkEngine (str "alice") (session (the_engine alice_launch)) "relay:7443" [7] (idq 1) (idq 101) (Some (idq 3, idq 103)) ∅ [] true [].
Definition bob : Engine :=
  mkEngine (str "bob") (session (the_engine bob_paired)) "relay:7443" [7] (idq 2) (idq 102) (Some (idq 3, idq 103)) ∅ [] true [].

Definition hi_wire : bytes := match (encrypt_application [6] (str "hi") (session alice)).2 with Ok wire => wire | Err _ => [] end.
Definition hi : Envelope := default (mkEnvelope [] RelayFanout []) (wrap hi_wire).

Lemma alice_encrypts : (encrypt_application [6] (str "hi") (session alice)).2 = Ok hi_wire.
Proof. vm_compute. reflexivity. Qed.
Lemma hi_wrapped : wrap hi_wire = Some hi.
Proof. vm_compute. reflexivity. Qed.

Lemma alice_sends : sends alice [6] (str "hi") (idq 3) (idq 103) hi.
Proof.
  split; [reflexivity|reflexivity|]. exists (encrypt_application [6] (str "hi") (session alice)).1, hi_wire.
  split; [exact (session_eq _ _ _ alice_encrypts)|exact hi_wrapped].
Qed.

Lemma ready_up : up ready.
Proof. split; [exact ready_inv|vm_compute; reflexivity]. Qed.

Lemma ready_takes : takes (at_ 4 []) ready (idq 3) (idq 103) [idq 1; idq 2] hi.
Proof.
  split; [exact ready_up|reflexivity| |vm_compute; reflexivity].
  exists (mkEntry (idq 103) (GroupInbox 7 [idq 1; idq 2]) 0 (secs 3)), 7. split; [vm_compute; reflexivity|].
  repeat (split; [reflexivity|]). vm_compute. reflexivity.
Qed.

(** What the toy session decrypts is in the ciphertext. *)
Lemma hi_decrypts s1 s2 inc : process_incoming (padded_ciphertext hi) s1 = (s2, Ok inc) -> inc = Application (str "hi").
Proof.
  assert (Hb : mls_message_in (padded_ciphertext hi) = Some (PrivateBody (0, 1, [1], str "hi"))) by (vm_compute; reflexivity).
  unfold process_incoming. rewrite Hb. destruct (s_group s1) as [g|] eqn:Hg; [|done].
  unfold s_bind, s_option, on_group. simpl. rewrite Hg. destruct g as [[[[gid gep] ms] me] pend]. simpl.
  by destruct (_ || _); simpl; intros [= _ <-].
Qed.

(** The relay restarts before Bob connects. *)
Definition after : World := (exec (OHandle (at_ 4 []) (send_request (idq 3) (idq 103) hi) (Some 0%nat)) ready).1.
Definition gap : list Op := [ORestart 7 None; OConnect 1%nat].
Definition later : World := (RelayRun.run gap after).1.
Definition waiting : list (MessageId * Envelope) := [(message_id hi, hi)].
Abbreviation heard_hi := (process_incoming (padded_ciphertext hi) (session bob)).1.

Lemma bob_decrypts : (process_incoming (padded_ciphertext hi) (session bob)).2 = Ok (Application (str "hi")).
Proof. vm_compute. reflexivity. Qed.
Lemma bob_backlog : abs (inner later) !! idq 2 = Some (idq 102, Mailbox waiting).
Proof. vm_compute. reflexivity. Qed.
Lemma after_inv : Inv (inner after).
Proof. apply (exec_refines (OHandle (at_ 4 []) (send_request (idq 3) (idq 103) hi) (Some 0%nat)) ready ready_inv). reflexivity. Qed.
Lemma later_up : up later.
Proof.
  split; [|vm_compute; reflexivity]. apply (run_refines gap after after_inv). vm_compute. reflexivity.
Qed.
Lemma bob_absorbs : absorbs (session bob) ∅ [hi] heard_hi [EMessage (str "hi")].
Proof.
  exact (absorbs_new (session bob) ∅ hi [] heard_hi (Application (str "hi")) (EMessage (str "hi")) heard_hi []
           (not_elem_of_empty _) (session_eq _ _ _ bob_decrypts) eq_refl (absorbs_nil _ _)).
Qed.
Lemma bob_comes_back : comes_back 1%nat later bob (idq 102) waiting heard_hi [EMessage (str "hi")].
Proof. split; [exact later_up|vm_compute; reflexivity|exact bob_backlog|reflexivity|exact bob_absorbs]. Qed.
Lemma at_healthy : healthy (fun _ => at_ 9 []).
Proof. by intros n. Qed.

Lemma backlog_delivered_once_witness :
  unseen (seen bob) (waiting.*2) = [message_id hi] /\
  drains 1%nat (fun _ => at_ 9 []) later bob (idq 102) waiting heard_hi [EMessage (str "hi")].
Proof.
  split; [reflexivity|].
  exact (proj1 (backlog_delivered_once 1%nat (fun _ => at_ 9 []) later bob (idq 102) waiting heard_hi _ bob_comes_back at_healthy)).
Defined.

Lemma answer_one c envs m w w' rs :
  answer c envs [m] w = Some (w', rs) -> w' = (exec (OHandle (envs O) m (Some c)) w).1.
Proof. simpl. destruct (handle _ m _ w) as [w1 []]; simpl; intros H; by simplify_eq. Qed.
Lemma gap_ok : ops_ok gap after = true.
Proof. vm_compute. reflexivity. Qed.
Lemma gap_no_ack : LAcked (mailbox_qid bob) (message_id hi) ∉ (RelayRun.run gap after).2.
Proof. apply (bool_decide_unpack _). vm_compute. exact Logic.I. Qed.
Lemma bob_before : abs (inner ready) !! mailbox_qid bob = Some (idq 102, Mailbox []).
Proof. vm_compute. reflexivity. Qed.
Lemma bob_member : mailbox_qid bob ∈ [idq 1; idq 2].
Proof. apply (bool_decide_unpack _). vm_compute. exact Logic.I. Qed.
Lemma same_backlog p : abs (inner later) !! mailbox_qid bob = Some (idq 102, Mailbox p) -> p = waiting.
Proof. intros H. assert (E : Some (idq 102, Mailbox p) = Some (idq 102, Mailbox waiting)) by (rewrite <- H; exact bob_backlog). by injection E. Qed.
Lemma waiting_unique env' : env' ∈ waiting.*2 -> message_id env' = message_id hi -> env' = hi.
Proof. intros ->%list_elem_of_singleton. done. Qed.

Lemma message_arrives_witness :
  drains 1%nat (fun _ => at_ 9 []) later bob (idq 102) waiting heard_hi [EMessage (str "hi")] /\
  message_id hi ∈ unseen (seen bob) (waiting.*2).
Proof.
  destruct (message_arrives alice [6] (str "hi") (idq 3) (idq 103) hi (at_ 4 []) ready 0%nat [idq 1; idq 2] bob (idq 102) []
              alice_sends ready_takes bob_member bob_before (not_elem_of_empty _) hi_decrypts) as (w1 & H1 & _ & H2).
  apply answer_one in H1. change (w1 = after) in H1. subst w1.
  destruct (H2 gap gap_ok gap_no_ack) as (p & Hp & _ & H3). apply same_backlog in Hp. subst p.
  destruct (H3 1%nat (fun _ => at_ 9 []) heard_hi _ bob_comes_back at_healthy waiting_unique) as (Hd & Hu & _).
  exact (conj Hd Hu).
Defined.
End NetworkExamples.
