(* ===== verification/NetworkCommit.v ===== *)
(** * Racing commits on a relay

    The relay takes one commit per epoch. A member whose commit lost the race gets an
    epoch conflict: it discards its commit, works through its backlog until the
    winner's commit has moved its session on, and commits again for the new epoch.
    Here both sides run together, on the requests and replies they exchange. *)

From S2P Require Import Prelude Text External Proto ProtoProps Relay RelaySpec RelayRefine RelayDurable RelayRun RelayProps RelayPush RelayGates CoreSession CoreProps Engine EngineInv EngineProps EnginePair Network.

#[local] Arguments persist {X} _ _ : simpl never.

(** ** The relay's side *)

Section RelaySide.
Context {R : RelayExt} `{!RelayExtLaws R}.

Lemma answer_app c envs r1 r2 w :
  answer c envs (r1 ++ r2) w =
  ('(w1, a1) ← answer c envs r1 w; '(w2, a2) ← answer c (fun n => envs (length r1 + n)%nat) r2 w1; Some (w2, a1 ++ a2)).
Proof.
  revert envs w. induction r1 as [|m r1 IH]; intros envs w; cbn [app answer].
  { simpl. by destruct (answer c _ r2 w) as [[w2 a2]|]. }
  destruct (handle (envs O) m (Some c) w) as [w1 [r|x| |]]; try done. rewrite IH.
  destruct (answer c _ r1 w1) as [[w2 a1]|]; simpl; [|done]. by destruct (answer c _ r2 w2) as [[w3 a2]|].
Qed.

(** Acknowledgements leave other queues alone, their rate windows included. *)
Lemma ack_queues e q mid c w w' :
  handle e (Ack q mid) (Some c) w = (w', Relay.Done SOk) -> forall q', q' <> q -> queues (inner w') !! q' = queues (inner w) !! q'.
Proof.
  intros H q' Hne. simpl in H. apply reply_of_inv in H as (r & H & E). destruct r; simplify_eq/=.
  unfold ack in H. apply locked_inv in H as [(_ & ? & _)|(w1 & H & _ & Hi & _)]; [done|]. rewrite Hi.
  apply mbind_inv in H as [(u & w2 & Hd & H)|(r0 & _ & _ & [])]. unfold modify in H. simplify_eq. simpl.
  apply db_write_inv in Hd as [(_ & [[_ ->]|(d & d' & _ & _ & _ & ->)])|(? & _)]; [..|done];
    unfold ack_inner; simpl; destruct (queues (inner w) !! q) as [en|]; try done; destruct (kind en); try done;
    simpl; by rewrite lookup_insert_ne.
Qed.

Lemma acks_queues q ids envs c w w' rs :
  up w -> healthy envs -> answer c envs (Ack q <$> ids) w = Some (w', rs) ->
  forall q', q' <> q -> queues (inner w') !! q' = queues (inner w) !! q'.
Proof.
  revert envs w rs. induction ids as [|id ids IH]; intros envs w rs Hu He H q' Hne; [by injection H as <- <-|].
  destruct (ack_answer (envs O) q id c w Hu (He O)) as (w1 & H1 & Hu1 & _).
  cbn [fmap list_fmap answer] in H. rewrite H1 in H. destruct (answer c _ (Ack q <$> ids) w1) as [[w2 rs2]|] eqn:E; [|done].
  simpl in H. simplify_eq. rewrite (IH _ _ _ Hu1 (healthy_S _ He) E q' Hne). by eapply ack_queues.
Qed.

Lemma abytes_ack_many q ids s : abytes (ack_many q ids s) <= abytes s.
Proof.
  unfold ack_many. revert s. induction ids as [|id ids IH]; intros s; cbn [foldl]; [lia|].
  specialize (IH (ack_abs q id s)). pose proof (abytes_ack q id s). lia.
Qed.

(** A commit for an epoch that is not the inbox's changes nothing. *)
Lemma conflict_answer e q n tag env c w en ep roster :
  poisoned w = false -> env_len env <= MAX_MESSAGE_SIZE -> queues (inner w) !! q = Some en -> kind en = GroupInbox ep roster ->
  verify_tag (send_key en) q env tag = true -> n <> ep ->
  handle e (SendToGroupInbox q (Commit n) tag env) (Some c) w = (w, Relay.Done (SError EpochConflict)).
Proof.
  intros Hp Hl Hq Hk Hv Hn. simpl. unfold reply_of, send_to_group_inbox, locked.
  rewrite (proj2 (Z.ltb_ge _ _) Hl), Hp, gets_bind, Hq. autorewrite with run. rewrite Hv, Hk. simpl.
  by rewrite (proj2 (Z.eqb_neq _ _) Hn).
Qed.
End RelaySide.

(** ** The engine's side *)

Lemma w_bind_done {S A B} (m : W S A) (k : A -> W S B) w w' a : m w = (w', Done a) -> w_bind m k w = k a w'.
Proof. intros H. unfold w_bind. by rewrite H. Qed.

Section EngineSide.
Context {X : ClientExt} {BE : BincodeLaws PersistedEngine} {BS : BincodeLaws SessionSnapshot}.
Implicit Types (e : Engine) (l : list Envelope) (k : gset MessageId).

(** The session is at epoch [n] until the last of these messages moves it on. *)
Inductive overtakes (n : Z) : Session -> gset MessageId -> list Envelope -> Session -> list Event -> Prop :=
| overtakes_done s k n' : epoch s = Ok n' -> n' <> n -> overtakes n s k [] s []
| overtakes_known s k env l s' evs :
    epoch s = Ok n -> message_id env ∈ k -> overtakes n s k l s' evs -> overtakes n s k (env :: l) s' evs
| overtakes_new s k env l s1 inc ev s' evs :
    epoch s = Ok n -> message_id env ∉ k -> process_incoming (padded_ciphertext env) s = (s1, Ok inc) ->
    incoming_event s1 inc = Some ev -> overtakes n s1 ({[message_id env]} ∪ k) l s' evs ->
    overtakes n s k (env :: l) s' (ev :: evs).

(** What draining leaves. *)
Record drained (q : QueueId) (l : list Envelope) (s' : Session) (evs : list Event) (cs : list (option ServerMessage)) (ps : list (option (QueueId * Envelope))) (io : Io)
    (e : Engine) (io' : Io) (e' : Engine) : Prop := {
  dr_requests : requests (trace io') = requests (trace io) ++ (Ack q <$> (message_id <$> l));
  dr_applied : applied (trace io') = applied (trace io) ++ unseen (seen e) l;
  dr_events : pending_events e' = pending_events e ++ evs;
  dr_session : session e' = s';
  dr_seen : seen e' = list_to_set (message_id <$> l) ∪ seen e;
  dr_rest : io_calls io' = cs /\ io_pushes io' = ps /\ io_commits io' = [] /\ io_rnd io' = io_rnd io /\ store e' = true /\ inbox e' = inbox e;
}.

Lemma drain_run n q l s' evs cs ps io e fuel :
  store e = true -> overtakes n (session e) (seen e) l s' evs -> io_commits io = [] ->
  io_pushes io = ((fun env => Some (q, env)) <$> l) ++ ps -> io_calls io = replicate (length l) (Some SOk) ++ cs -> (length l < fuel)%nat ->
  exists io' e', drain_loop fuel n (io, e) = ((io', e'), Done tt) /\ drained q l s' evs cs ps io e io' e'.
Proof.
  revert io e evs fuel. induction l as [|env l IH]; intros io e evs fuel Hs Ha Hc Hp Hr Hf; (destruct fuel as [|fuel]; [lia|]);
    cbn [drain_loop]; unfold w_bind at 1, session_read.
  { inversion Ha as [s k n' En Hn| |]; subst. rewrite En, (proj2 (Z.eqb_neq _ _) Hn). exists io, e. split; [done|].
    split; rewrite ?app_nil_r; try done. simpl. set_solver. }
  cbn [length replicate app] in Hr. cbn [fmap list_fmap app] in Hp. cbn [length] in Hf.
  inversion Ha as [|? ? ? ? ? ? En Hk Ha'|? ? ? ? s1 inc ev ? evs' En Hk Hm He Ha']; subst; rewrite En, Z.eqb_refl; unfold w_bind at 1.
  - pose proof (pump_known io e q env _ Hp Hk) as H1. pose proof (pump_known_done io e q env _ _ Hp Hk Hr) as H2.
    destruct (pump_one (io, e)) as [w r]. simpl in H1, H2. subst w r.
    match goal with |- context [drain_loop _ _ (?io1, ?e1)] =>
      destruct (IH io1 e1 evs fuel) as (io' & e' & Hrun & [C1 C2 C3 C4 C6 C5]); try (simpl; by rewrite ?Hr); try lia end.
    exists io', e'. split; [exact Hrun|]. simpl in *. rewrite requests_app in C1. rewrite applied_app, app_nil_r in C2.
    split; cbn [unseen]; rewrite ?(bool_decide_eq_true_2 _ Hk); try done; [by rewrite C1, <- app_assoc|]. rewrite C6. set_solver.
  - assert (Hc' : hd true (io_commits io) = true) by by rewrite Hc.
    pose proof (pump_first_sight io e q env _ s1 inc ev Hs Hp Hk Hm He Hc') as H1.
    pose proof (pump_first_done io e q env _ _ s1 inc ev Hs Hp Hk Hm He Hc' Hr) as H2.
    destruct (pump_one (io, e)) as [w r]. simpl in H1, H2. subst w r.
    match goal with |- context [drain_loop _ _ (?io1, ?e1)] =>
      destruct (IH io1 e1 evs' fuel) as (io' & e' & Hrun & [C1 C2 C3 C4 C6 C5]); try (simpl; by rewrite ?Hr, ?Hc); try lia end.
    exists io', e'. split; [exact Hrun|]. simpl in *. rewrite requests_app in C1. rewrite applied_app in C2.
    split; cbn [unseen]; rewrite ?(bool_decide_eq_false_2 _ Hk); try done;
      [by rewrite C1, <- app_assoc|by rewrite C2, <- app_assoc|by rewrite C3, <- app_assoc|]. rewrite C6. set_solver.
Qed.

(** A round that is lost: the epoch the member commits for, its commit, and what it
    drains until its session moves. *)
Record Round := mkRound { rd_epoch : Z; rd_commit : Envelope; rd_drained : list Envelope }.

Definition drained_all (rounds : list Round) : list Envelope := mjoin (rd_drained <$> rounds).

(** A member works its way through lost rounds, from one session to another. *)
Inductive catches : Session -> gset MessageId -> list bytes -> list Round -> Session -> list Event -> Prop :=
| catches_done s k : catches s k [] [] s []
| catches_round s k r rs n env l rounds s1 wire s2 s3 evs1 s' evs :
    epoch s = Ok n -> self_update r s = (s1, Ok wire) -> wrap wire = Some env -> discard_pending_commit s1 = (s2, Ok tt) ->
    overtakes n s2 k l s3 evs1 -> catches s3 (list_to_set (message_id <$> l) ∪ k) rs rounds s' evs ->
    catches s k (r :: rs) (mkRound n env l :: rounds) s' (evs1 ++ evs).

(** A member that loses some rounds and then commits for epoch [n']. *)
Record loses (e : Engine) (q : QueueId) (key : bytes) (rs : list bytes) (rounds : list Round) (r : bytes) (env : Envelope)
    (n' n'' : Z) (evs : list Event) : Prop := {
  ls_inbox : inbox e = Some (q, key);
  ls_store : store e = true;
  ls_steps : exists s s1 s2 wire,
    catches (session e) (seen e) rs rounds s evs /\ epoch s = Ok n' /\ self_update r s = (s1, Ok wire) /\ wrap wire = Some env /\
    merge_pending_commit s1 = (s2, Ok tt) /\ epoch s2 = Ok n'';
}.

(** What a round asks of the relay, and what it gets. *)
Definition round_requests (q : QueueId) (key : bytes) (m : QueueId) (r : Round) : list ClientMessage :=
  SendToGroupInbox q (Commit (rd_epoch r)) (compute_tag key q (rd_commit r)) (rd_commit r) :: (Ack m <$> (message_id <$> rd_drained r)).
Definition round_replies (r : Round) : list ServerMessage := SError EpochConflict :: replicate (length (rd_drained r)) SOk.

Lemma commit_send_reply fuel q key ep env io e r rs a :
  io_calls io = Some r :: rs -> match r with SOk => Some (Ok tt) | SError c => Some (Err c) | _ => None end = Some a ->
  commit_send_loop (S fuel) q key ep env (io, e) =
  ((mkIo rs (io_pushes io) (io_connects io) (io_commits io) (io_rnd io)
      (trace io ++ [Called (SendToGroupInbox q (Commit ep) (compute_tag key q env) env)]) (disk io), e), Done a).
Proof. intros Hr Ha. destruct io. simpl in *. subst. by destruct r; simplify_eq. Qed.

(** The lost rounds, then the rest of the loop. *)
Lemma commit_rounds q key m rs rounds s evs cs ps rest fuel io e :
  store e = true -> catches (session e) (seen e) rs rounds s evs -> io_commits io = [] -> io_rnd io = rs ++ rest ->
  io_pushes io = ((fun env => Some (m, env)) <$> drained_all rounds) ++ ps ->
  io_calls io = (Some <$> mjoin (round_replies <$> rounds)) ++ cs ->
  exists io' e', commit_loop (length rounds + fuel) q key (io, e) = commit_loop fuel q key (io', e') /\
    requests (trace io') = requests (trace io) ++ mjoin (round_requests q key m <$> rounds) /\
    applied (trace io') = applied (trace io) ++ Network.unseen (seen e) (drained_all rounds) /\
    pending_events e' = pending_events e ++ evs /\ session e' = s /\
    io_calls io' = cs /\ io_commits io' = [] /\ io_rnd io' = rest /\ store e' = true.
Proof.
  revert rs evs io e. induction rounds as [|[n env l] rounds IH]; intros rs evs io e Hs Hcat Hc Hr Hp Hcalls.
  { inversion Hcat; subst. exists io, e. rewrite !app_nil_r. done. }
  inversion Hcat as [|? ? r rs' ? ? ? ? s1 wire s2 s3 evs1 ? evs2 En U W D O C]; subst.
  unfold drained_all in Hp. cbn [fmap list_fmap mjoin list_join rd_drained] in Hp. rewrite fmap_app, <- app_assoc in Hp.
  cbn [fmap list_fmap mjoin list_join] in Hcalls. unfold round_replies at 1 in Hcalls. cbn [rd_drained] in Hcalls.
  rewrite fmap_app, <- app_assoc, fmap_cons, fmap_replicate in Hcalls. cbn [app] in Hcalls.
  cbn [length Nat.add commit_loop].
  erewrite w_bind_done by (unfold session_read; by rewrite En). erewrite w_bind_done by reflexivity.
  erewrite w_bind_done by (unfold on_session; simpl; rewrite Hr; simpl; by rewrite U).
  erewrite w_bind_done by (unfold w_option; by rewrite W).
  erewrite w_bind_done by (eapply commit_send_reply; [simpl; exact Hcalls|reflexivity]). cbv beta iota.
  erewrite w_bind_done by (unfold on_session; simpl; by rewrite D).
  match goal with |- context [w_bind _ _ (?io1, ?e1)] =>
    destruct (drain_run n m l s3 evs1 ((Some <$> mjoin (round_replies <$> rounds)) ++ cs)
                (((fun env => Some (m, env)) <$> drained_all rounds) ++ ps) io1 e1 (S (length (io_pushes io))))
      as (io2 & e2 & Hrun & [C1 C2 C3 C4 C6 (C5 & C7 & C8 & C9 & C10 & C11)]); try done; [rewrite Hp, length_app, length_fmap; lia|] end.
  erewrite w_bind_done by exact Hrun. simpl in C1, C2, C3, C6.
  destruct (IH rs' evs2 io2 e2) as (io' & e' & H1 & H2 & H3 & H4 & H5); try done.
  { by rewrite C4, C6. }
  exists io', e'. split; [exact H1|]. rewrite H2, H3, H4, C1, C2, C3, requests_app, applied_app, C6, app_nil_r.
  unfold drained_all. cbn [fmap list_fmap mjoin list_join rd_drained]. rewrite unseen_app, <- !app_assoc. done.
Qed.

(** The round that is won. *)
Lemma commit_wins q key n' n'' r env s1 s2 wire fuel io e cs rest :
  store e = true -> epoch (session e) = Ok n' -> self_update r (session e) = (s1, Ok wire) -> wrap wire = Some env ->
  merge_pending_commit s1 = (s2, Ok tt) -> epoch s2 = Ok n'' -> io_commits io = [] -> io_rnd io = r :: rest -> io_calls io = Some SOk :: cs ->
  exists io' e', commit_loop (S fuel) q key (io, e) = ((io', e'), Done n'') /\
    requests (trace io') = requests (trace io) ++ [SendToGroupInbox q (Commit n') (compute_tag key q env) env] /\
    applied (trace io') = applied (trace io) /\ pending_events e' = pending_events e /\
    message_id env ∈ seen e' /\ message_id env ∈ dk_seen (disk io').
Proof.
  intros Hs E U W M E2 Hc Hr Hcalls. cbn [commit_loop].
  erewrite w_bind_done by (unfold session_read; by rewrite E). erewrite w_bind_done by reflexivity.
  erewrite w_bind_done by (unfold on_session; simpl; rewrite Hr; simpl; by rewrite U).
  erewrite w_bind_done by (unfold w_option; by rewrite W).
  erewrite w_bind_done by (eapply commit_send_reply; [simpl; exact Hcalls|reflexivity]). cbv beta iota.
  erewrite w_bind_done by reflexivity. erewrite w_bind_done by (unfold on_session; simpl; by rewrite M).
  erewrite w_bind_done by reflexivity.
  erewrite w_bind_done by (apply persist_run; simpl; [done|by rewrite Hc]).
  unfold session_read. simpl. rewrite E2. eexists _, _. split; [reflexivity|]. simpl.
  rewrite !requests_app, !applied_app. simpl. rewrite !app_nil_r. split; [done|]. split; [done|]. split; [done|]. set_solver.
Qed.

Lemma commit_retry e q key rs rounds r env n' n'' evs m io ps rest :
  loses e q key rs rounds r env n' n'' evs -> io_commits io = [] -> io_rnd io = rs ++ r :: rest ->
  io_pushes io = ((fun env => Some (m, env)) <$> drained_all rounds) ++ ps ->
  io_calls io = Some <$> (mjoin (round_replies <$> rounds) ++ [SOk]) ->
  exists io' e', commit_self_update (io, e) = ((io', e'), Done n'') /\
    requests (trace io') = requests (trace io) ++ mjoin (round_requests q key m <$> rounds) ++
      [SendToGroupInbox q (Commit n') (compute_tag key q env) env] /\
    applied (trace io') = applied (trace io) ++ Network.unseen (seen e) (drained_all rounds) /\
    pending_events e' = pending_events e ++ evs /\ message_id env ∈ seen e' /\ message_id env ∈ dk_seen (disk io').
Proof.
  intros [Hi Hs (s & s1 & s2 & wire & C & E & U & W & M & E2)] Hc Hr Hp Hcalls.
  unfold commit_self_update. erewrite w_bind_done by reflexivity. rewrite (w_bind_done _ _ _ _ (q, key)) by (unfold w_option; simpl; by rewrite Hi).
  cbn [fst snd]. rewrite fmap_app in Hcalls.
  assert (Hf : exists fuel, S (length (io_calls io)) = (length rounds + S fuel)%nat).
  { exists (length (io_calls io) - length rounds)%nat. rewrite Hcalls, length_app, length_fmap.
    assert (length rounds <= length (mjoin (round_replies <$> rounds)))%nat; [|lia].
    clear. induction rounds as [|x rounds IH]; [done|].
    change (S (length rounds) <= length (round_replies x ++ mjoin (round_replies <$> rounds)))%nat. rewrite length_app. unfold round_replies at 1.
    cbn [length]. lia. }
  destruct Hf as [fuel ->].
  destruct (commit_rounds q key m rs rounds s evs [Some SOk] ps (r :: rest) (S fuel) io e)
    as (io1 & e1 & -> & H2 & H3 & H4 & H5 & H6 & H7 & H8 & H9); try done.
  destruct (commit_wins q key n' n'' r env s1 s2 wire fuel io1 e1 [] rest) as (io' & e' & -> & G2 & G3 & G4 & G5); try (by rewrite H5); try done.
  exists io', e'. split; [done|]. rewrite G2, G3, G4, H2, H3, H4, <- app_assoc. done.
Qed.
End EngineSide.

(** ** Together *)

Section Race.
Context {X : ClientExt} {BE : BincodeLaws PersistedEngine} {BS : BincodeLaws SessionSnapshot}.
Context {R : RelayExt} `{!RelayExtLaws R} {SC : SameCrates X R}.

Abbreviation client_tag := (@compute_tag client_hmac client_envelope).

(** The relay has moved on to epoch [n'], with room for another commit; the member's
    backlog is [p]. *)
Record moved_on (er : Relay.Env) (w : World) (q : QueueId) (key : bytes) (n' : Z) (roster : list QueueId) (m : QueueId) (km : bytes)
    (p : list (MessageId * Envelope)) (env : Envelope) : Prop := {
  mo_up : up w;
  mo_inbox : exists en, queues (inner w) !! q = Some en /\ send_key en = key /\ kind en = GroupInbox n' roster /\
               rate_room (mono er) en = true;
  mo_backlog : abs (inner w) !! m = Some (km, Mailbox p);
  mo_room : fits (inner w) (env_len env * len roster) = true;
  mo_epoch : n' < i64_max;
}.

Lemma ack_many_lookup (q : QueueId) (ids : list MessageId) (s : AState) (key : bytes) (p : list (MessageId * Envelope)) :
  s !! q = Some (key, Mailbox p) ->
  ack_many q ids s !! q = Some (key, Mailbox (retain (fun x => negb (bool_decide (x.1 ∈ ids))) p)).
Proof.
  unfold ack_many. revert s p. induction ids as [|id ids IH]; intros s p Hq; cbn [foldl].
  - rewrite Hq. do 3 f_equal. symmetry. apply retain_all, Forall_forall. intros x _. by rewrite bool_decide_eq_false_2 by set_solver.
  - erewrite IH by (rewrite ack_abs_lookup, Hq; by rewrite bool_decide_eq_true_2). do 3 f_equal. clear.
    induction p as [|x p IH]; [done|]. simpl. unfold acked at 1. destruct (decide (x.1 = id)) as [E|E].
    + rewrite (bool_decide_eq_true_2 _ E), (bool_decide_eq_true_2 (x.1 ∈ id :: ids)) by set_solver. exact IH.
    + rewrite (bool_decide_eq_false_2 _ E). simpl. rewrite IH.
      by rewrite (bool_decide_ext (x.1 ∈ id :: ids) (x.1 ∈ ids)) by set_solver.
Qed.

(** The relay through the lost rounds: every commit is refused, every message that was
    drained is acknowledged, and nothing else changes. *)
Lemma rounds_answered rounds c envs w q key n' roster m en :
  up w -> healthy envs -> queues (inner w) !! q = Some en -> send_key en = key -> kind en = GroupInbox n' roster -> q <> m ->
  Forall (fun r => rd_epoch r <> n' /\ env_len (rd_commit r) <= MAX_MESSAGE_SIZE) rounds ->
  exists w', answer c envs (mjoin (round_requests q key m <$> rounds)) w = Some (w', mjoin (round_replies <$> rounds)) /\
    up w' /\ queues (inner w') !! q = Some en /\
    abs (inner w') = ack_many m (message_id <$> drained_all rounds) (abs (inner w)).
Proof.
  intros Hu He Hq Hk Hg Hne. revert envs w Hu He Hq. induction rounds as [|[n env l] rounds IH]; intros envs w Hu He Hq HF; [by exists w|].
  apply Forall_cons in HF as [[Hn Hl] HF]. simpl in Hn, Hl.
  assert (Hcon : handle (envs O) (SendToGroupInbox q (Commit n) (client_tag key q env) env) (Some c) w
                 = (w, Relay.Done (SError EpochConflict))).
  { eapply conflict_answer; [apply Hu|done|done|done|rewrite Hk; apply client_tag_verifies|done]. }
  destruct (acks_answered m (message_id <$> l) _ c w Hu (healthy_S _ He)) as (w1 & H1 & Hu1 & _ & Ha1).
  pose proof (acks_queues _ _ _ _ _ _ _ Hu (healthy_S _ He) H1 q Hne) as Hq1. rewrite Hq in Hq1.
  destruct (IH (fun x => envs (S (length (Ack m <$> (message_id <$> l)) + x))) w1 Hu1) as (w' & H2 & Hu2 & Hq2 & Ha2); [intros x; apply He|done|done|].
  exists w'.
  change (mjoin (round_requests q key m <$> mkRound n env l :: rounds)) with
    (SendToGroupInbox q (Commit n) (client_tag key q env) env :: (Ack m <$> (message_id <$> l)) ++ mjoin (round_requests q key m <$> rounds)).
  change (mjoin (round_replies <$> mkRound n env l :: rounds)) with
    (SError EpochConflict :: replicate (length l) SOk ++ mjoin (round_replies <$> rounds)). cbn [answer].
  rewrite Hcon, answer_app, H1. cbn [mbind option_bind].
  cbv beta. rewrite H2. cbn [mbind option_bind]. rewrite length_fmap. split; [done|]. split; [done|]. split; [done|].
  rewrite Ha2, Ha1. change (drained_all (mkRound n env l :: rounds)) with (l ++ drained_all rounds).
  unfold ack_many. by rewrite fmap_app, foldl_app.
Qed.

Lemma catches_commits s k rs rounds s' evs :
  catches s k rs rounds s' evs -> Forall (fun r => env_len (rd_commit r) <= MAX_MESSAGE_SIZE) rounds.
Proof. induction 1; constructor; [by eapply wrap_len|done]. Qed.

(** C6: a lost race ends in agreement. A member whose session is behind the relay's epoch,
    by any number of commits, commits: for every epoch it is behind, the relay answers
    with a conflict and changes nothing, the member discards its commit and takes its
    backlog, acknowledging every message, until its session has moved on. It commits
    again; the commit for the relay's epoch is accepted, the epoch moves on by one, and
    the member knows the id of its commit. What it took of the backlog is applied once,
    in order; what came after stays in its mailbox, before the copies of its own commit.
    Needed are a session that accepts the messages it is given ([overtakes]), a relay
    and a store that are up with room for the commit, and an epoch below SQLite's
    largest integer ([moved_on]). *)
Theorem lost_race_recovers c envs w e q key rs rounds r env n' n'' evs roster km p later :
  let m := mailbox_qid e in
  let reqs := mjoin (round_requests q key m <$> rounds) ++ [SendToGroupInbox q (Commit n') (client_tag key q env) env] in
  let replies := mjoin (round_replies <$> rounds) ++ [SOk] in
  loses e q key rs rounds r env n' n'' evs -> p.*2 = drained_all rounds ++ later ->
  moved_on (envs (length (mjoin (round_requests q key m <$> rounds)))) w q key n' roster m km p env ->
  healthy envs -> Forall (fun x => rd_epoch x <> n') rounds ->
  exists w', answer c envs reqs w = Some (w', replies) /\ Inv (inner w') /\
    abs (inner w') !! q = Some (key, GroupInbox (n' +64 1) roster) /\
    abs (inner w') !! m = Some (km, Mailbox (retain (fun x => negb (bool_decide (x.1 ∈ message_id <$> drained_all rounds))) p ++
                                             replicate (copies roster m) (message_id env, env))) /\
    forall io rest, io_commits io = [] -> io_rnd io = rs ++ r :: rest -> io_pushes io = (fun env => Some (m, env)) <$> p.*2 ->
      io_calls io = Some <$> replies ->
      exists io' e', commit_self_update (io, e) = ((io', e'), Done n'') /\
        requests (trace io') = requests (trace io) ++ reqs /\
        applied (trace io') = applied (trace io) ++ unseen (seen e) (drained_all rounds) /\
        pending_events e' = pending_events e ++ evs /\ message_id env ∈ seen e' /\ message_id env ∈ dk_seen (disk io').
Proof.
  intros m reqs replies HL Hp [Hu (en & Hq & Hk & Hg & Hr) Hm Hf Hep] He Hn.
  destruct (ls_steps _ _ _ _ _ _ _ _ _ _ HL) as (s & s1 & s2 & wire & HC & _ & _ & W & _). apply wrap_len in W.
  assert (Hqm : q <> m).
  { intros ->. rewrite (abs_lookup_Some _ _ _ Hq), Hg in Hm. done. }
  destruct (rounds_answered rounds c envs w q key n' roster m en Hu He Hq Hk Hg Hqm) as (wa & Ha & Hua & Hqa & Haa).
  { apply catches_commits in HC. apply Forall_forall. intros x Hx. rewrite Forall_forall in HC, Hn. auto. }
  set (k := length (mjoin (round_requests q key m <$> rounds))) in *.
  destruct (group_accepted (envs k) wa c q (Commit n') key n' roster env en) as (w' & Hw' & Hi' & Hst); try done.
  { simpl. apply Z.eqb_refl. }
  { by intros t d [= <-] _. }
  { unfold fits in *. rewrite Haa. pose proof (abytes_ack_many m (message_id <$> drained_all rounds) (abs (inner w))). bools. apply Z.leb_le. lia. }
  exists w'. split; [|split; [done|split; [|split]]].
  - unfold reqs. rewrite answer_app, Ha. cbn [mbind option_bind answer]. fold k. rewrite Nat.add_0_r, Hw'. reflexivity.
  - assert (Hab : abs (inner wa) !! q = Some (key, GroupInbox n' roster)).
    { rewrite Haa, ack_many_ne by done. by rewrite (abs_lookup_Some _ _ _ Hq), Hk, Hg. }
    destruct (spec_step_inbox _ _ _ _ _ _ _ Hst Hab) as [[E _]|[_ E]]; [|exact E].
    simpl in E. by rewrite bool_decide_eq_true_2 in E.
  - assert (Hmb := ack_many_lookup m (message_id <$> drained_all rounds) _ _ _ Hm). rewrite <- Haa in Hmb.
    by apply (spec_step_mailbox _ _ _ _ _ _ Hst) in Hmb.
  - intros io rest Hc Hrnd Hps Hcalls. rewrite Hp, fmap_app in Hps.
    by destruct (commit_retry e q key rs rounds r env n' n'' evs m io _ rest HL Hc Hrnd Hps Hcalls) as (io' & e' & H1); exists io', e'.
Qed.
End Race.

(** ** Alice commits twice and writes, Bob catches up *)

Module RaceExamples.
Import ToyInstances RelayToy Scenario ToyMls EngineExamples NetworkExamples.

Definition enveloped (r : result bytes SessionError) : Envelope :=
  default (mkEnvelope [] RelayFanout []) (match r with Ok wire => wrap wire | Err _ => None end).

(** Alice's commits for the epochs 1 and 2 and a message after them, on a relay whose
    inbox starts there. *)
Abbreviation alice1 := (merge_pending_commit (self_update [9] (session alice)).1).1.
Abbreviation alice2 := (merge_pending_commit (self_update [12] alice1).1).1.
Definition alices1 : Envelope := enveloped (self_update [9] (session alice)).2.
Definition alices2 : Envelope := enveloped (self_update [12] alice1).2.
Definition alices3 : Envelope := enveloped (encrypt_application [13] (str "hi") alice2).2.
Definition in_group (k : GroupSendKind) (env : Envelope) : Op :=
  OHandle (at_ 4 []) (SendToGroupInbox (idq 3) k (compute_tag (idq 103) (idq 3) env) env) None.
Definition race : list Op :=
  [OHandle (at_ 1 [idq 201]) RequestPowChallenge None;
   OHandle (at_ 1 [idq 1; idq 101]) (CreateMailbox (solved 201) None) None;
   OHandle (at_ 2 [idq 202]) RequestPowChallenge None;
   OHandle (at_ 2 [idq 2; idq 102]) (CreateMailbox (solved 202) None) None;
   OHandle (at_ 3 [idq 203]) RequestPowChallenge None;
   OHandle (at_ 3 [idq 3; idq 103]) (CreateGroupInbox (solved 203) 1 [idq 1; idq 2] None) None;
   in_group (Commit 1) alices1; in_group (Commit 2) alices2; in_group Proto.Application alices3].
Definition won : World := (RelayRun.run race boot).1.

Lemma won_up : up won.
Proof. split; [|vm_compute; reflexivity]. apply (run_refines race boot boot_inv). vm_compute. reflexivity. Qed.

(** Bob's sessions on the way. *)
Abbreviation bob1 := (self_update [10] (session bob)).1.
Abbreviation bob2 := (discard_pending_commit bob1).1.
Abbreviation bob3 := (process_incoming (padded_ciphertext alices1) bob2).1.
Abbreviation bob4 := (self_update [11] bob3).1.
Abbreviation bob5 := (discard_pending_commit bob4).1.
Abbreviation bob6 := (process_incoming (padded_ciphertext alices2) bob5).1.
Abbreviation bob7 := (self_update [14] bob6).1.
Abbreviation bob8 := (merge_pending_commit bob7).1.
Definition bobs1 : Envelope := enveloped (self_update [10] (session bob)).2.
Definition bobs2 : Envelope := enveloped (self_update [11] bob3).2.
Definition bobs3 : Envelope := enveloped (self_update [14] bob6).2.
Definition lost : list Round := [mkRound 1 bobs1 [alices1]; mkRound 2 bobs2 [alices2]].

Lemma enveloped_wraps (m : Ses bytes) s b :
  match (m s).2 with Ok w => bool_decide (wrap w = Some (enveloped (m s).2)) | Err _ => false end = b -> b = true ->
  exists w, m s = ((m s).1, Ok w) /\ wrap w = Some (enveloped (m s).2).
Proof. intros <-. destruct (m s) as [s' [w|x]]; simpl; [|done]. intros H%bool_decide_eq_true. by exists w. Qed.

(** One commit moves the session on. *)
Lemma overtaken (n n' : Z) (s : Session) (k : gset MessageId) (env : Envelope) (s' : Session) :
  n' <> n -> epoch s = Ok n -> message_id env ∉ k -> process_incoming (padded_ciphertext env) s = (s', Ok CommitApplied) ->
  epoch s' = Ok n' -> overtakes n s k [env] s' [EpochAdvanced n'].
Proof.
  intros Hn E Hk Hp E'. eapply overtakes_new; [done|done|exact Hp|simpl; by rewrite E'|]. by eapply overtakes_done.
Qed.
Lemma bob_new2 : message_id alices2 ∉ list_to_set (C:=gset MessageId) (message_id <$> [alices1]) ∪ seen bob.
Proof. apply (bool_decide_unpack _). vm_compute. exact Logic.I. Qed.

Lemma bob_catches : catches (session bob) (seen bob) [[10]; [11]] lost bob6 [EpochAdvanced 2; EpochAdvanced 3].
Proof.
  destruct (enveloped_wraps (self_update [10]) (session bob) true) as (w1 & U1 & W1); [vm_compute; reflexivity|done|].
  destruct (enveloped_wraps (self_update [11]) bob3 true) as (w2 & U2 & W2); [vm_compute; reflexivity|done|].
  refine (catches_round _ _ _ _ _ _ _ _ _ _ bob2 bob3 [EpochAdvanced 2] _ [EpochAdvanced 3] _ U1 W1 (session_eq _ _ _ _)
            (overtaken 1 2 _ _ _ _ ltac:(lia) _ (not_elem_of_empty _) (session_eq _ _ _ _) _)
            (catches_round _ _ _ _ _ _ _ _ _ _ bob5 bob6 [EpochAdvanced 3] _ [] _ U2 W2 (session_eq _ _ _ _)
               (overtaken 2 3 _ _ _ _ ltac:(lia) _ bob_new2 (session_eq _ _ _ _) _) (catches_done _ _))); vm_compute; reflexivity.
Qed.

Lemma bob_loses : loses bob (idq 3) (idq 103) [[10]; [11]] lost [14] bobs3 3 4 [EpochAdvanced 2; EpochAdvanced 3].
Proof.
  split; [reflexivity|reflexivity|].
  destruct (enveloped_wraps (self_update [14]) bob6 true) as (w3 & U3 & W3); [vm_compute; reflexivity|done|].
  exists bob6, bob7, bob8, w3. split; [exact bob_catches|]. split; [vm_compute; reflexivity|].
  split; [exact U3|]. split; [exact W3|]. split; [apply session_eq; vm_compute; reflexivity|]. vm_compute. reflexivity.
Qed.

Definition behind : list (MessageId * Envelope) := (fun env => (message_id env, env)) <$> [alices1; alices2; alices3].
Lemma relay_moved_on : moved_on (at_ 9 []) won (idq 3) (idq 103) 3 [idq 1; idq 2] (mailbox_qid bob) (idq 102) behind bobs3.
Proof.
  split; [exact won_up| |vm_compute; reflexivity|vm_compute; reflexivity|reflexivity].
  exists (mkEntry (idq 103) (GroupInbox 3 [idq 1; idq 2]) 3 (secs 3)). split; [vm_compute; reflexivity|].
  repeat (split; [reflexivity|]). vm_compute. reflexivity.
Qed.

Lemma lost_race_recovers_witness :
  exists w', answer 1%nat (fun _ => at_ 9 [])
    (mjoin (round_requests (idq 3) (idq 103) (mailbox_qid bob) <$> lost) ++
       [SendToGroupInbox (idq 3) (Commit 3) (compute_tag (idq 103) (idq 3) bobs3) bobs3]) won
    = Some (w', [SError EpochConflict; SOk; SError EpochConflict; SOk; SOk]) /\
    abs (inner w') !! idq 3 = Some (idq 103, GroupInbox 4 [idq 1; idq 2]) /\
    abs (inner w') !! idq 2 = Some (idq 102, Mailbox [(message_id alices3, alices3); (message_id bobs3, bobs3)]).
Proof.
  destruct (lost_race_recovers 1%nat (fun _ => at_ 9 []) won bob (idq 3) (idq 103) [[10]; [11]] lost [14] bobs3 3 4
              [EpochAdvanced 2; EpochAdvanced 3] [idq 1; idq 2] (idq 102) behind [alices3] bob_loses eq_refl relay_moved_on at_healthy)
    as (w' & H1 & _ & H2 & H3 & _); [repeat constructor; simpl; lia|].
  exists w'. split; [exact H1|]. split; [exact H2|]. refine (eq_trans H3 _). vm_compute. reflexivity.
Defined.
End RaceExamples.
