(* ===== verification/Cli.v ===== *)
(** * The command line client (cli/src/main.rs)

    [listen] and [connect] build an engine without a store; the REPL then races typed
    lines against the engine's events. Whichever of the two is ready first is taken
    and the other future is dropped where it waits, so the REPL rests on
    [next_event] being safe to drop: no message is lost or shown twice. *)

From S2P Require Import Prelude Text External Proto ProtoProps Relay RelayNet CoreSession CoreProps Engine EngineInv EngineProps EnginePair Network.

#[local] Arguments persist {X} _ _ : simpl never.
#[local] Arguments next_event {X} _ : simpl never.
#[local] Arguments send_message {X} _ _ : simpl never.

Section Cli.
Context {X : ClientExt}.

Inductive Command :=
| CListen (relay_fingerprint name : bytes) (relay : string)
| CConnect (link name : bytes).

(** From the command to the line "Paired. Epoch ..."; [None] is the panic of slicing the
    fingerprint inside a character. *)
Definition cli_start (fuel : nat) (c : Command) : option (W unit (Engine * Z)) :=
  match c with
  | CListen fp name relay =>
      r ← parse_fingerprint fp;
      Some (fp <~ w_result (fun _ => OtherErr) r;
            r <~ rnd;
            e <~ connect_with_session fuel name relay fp (ChatSession_new r name) [];
            with_engine (_ <~ contact_link; _ <~ await_pairing; session_read epoch) e)
  | CConnect link name =>
      Some (e <~ pair_with_link_using fuel name link None [];
            with_engine (session_read epoch) e)
  end.

(** One turn of [select!]. A typed line, or the end of the input, was ready first: the
    event future had not been polled, or was polled on [polled] and is dropped where it
    waits. Or an event was ready first. *)
Inductive turn :=
| Typed (line : bytes) (polled : option Io) (inp : Io)
| InputEnds (polled : option Io)
| Heard (inp : Io).

Inductive repl_end := Quit | Crashed (e : EngErr) | Running.

(** Poll the event future and drop it; [None] when it would have been ready. *)
Definition poll (polled : option Io) (w : Io * Engine) : option (Io * Engine) :=
  match polled with
  | None => Some w
  | Some inp => match next_event (feed inp w.1, w.2) with (w', Blocked) => Some w' | _ => None end
  end.

(** The state the loop leaves, and the events it printed; [None] for turns that cannot
    happen in this order. *)
Fixpoint chat_repl (ts : list turn) (w : Io * Engine) : option ((Io * Engine) * list Event * repl_end) :=
  match ts with
  | [] => Some (w, [], Running)
  | InputEnds polled :: _ => w1 ← poll polled w; Some (w1, [], Quit)
  | Typed line polled inp :: ts' =>
      w1 ← poll polled w;
      match send_message line (feed inp w1.1, w1.2) with
      | (w2, Done _) => chat_repl ts' w2
      | (w2, Failed x) => Some (w2, [], Crashed x)
      | (w2, Blocked) => Some (w2, [], Running)
      end
  | Heard inp :: ts' =>
      match next_event (feed inp w.1, w.2) with
      | (w2, Done ev) => '(w3, printed, r) ← chat_repl ts' w2; Some (w3, ev :: printed, r)
      | (w2, Failed x) => Some (w2, [], Crashed x)
      | (w2, Blocked) => Some (w2, [], Running)
      end
  end.

(** ** What every step keeps *)

(** The events that stand for a received message. *)
Definition from_message (ev : Event) : bool := match ev with ConnectionChanged _ => false | _ => true end.
Definition received (evs : list Event) : Z := len (retain from_message evs).

(** Every applied message is one event, waiting here or among the [n] taken before. *)
Record shown (n : Z) (w : Io * Engine) : Prop := {
  sh_seen : Forall (fun id => id ∈ seen w.2) (applied (trace w.1));
  sh_once : NoDup (applied (trace w.1));
  sh_count : len (applied (trace w.1)) = n + received (pending_events w.2);
}.

(** Computations that apply no message and touch no event. *)
Definition steady {A} (m : W Engine A) : Prop := forall w,
  applied (trace (m w).1.1) = applied (trace w.1) /\ seen w.2 ⊆ seen (m w).1.2 /\
  pending_events (m w).1.2 = pending_events w.2.

Lemma shown_steady {A} n (m : W Engine A) w : steady m -> shown n w -> shown n (m w).1.
Proof.
  intros Hm [H1 H2 H3]. destruct (Hm w) as (E1 & E2 & E3). split; rewrite E1, ?E3; [|done|done].
  eapply Forall_impl; [exact H1|]. simpl. set_solver.
Qed.

Lemma steady_bind {A B} (m : W Engine A) (k : A -> W Engine B) : steady m -> (forall a, steady (k a)) -> steady (w_bind m k).
Proof.
  intros Hm Hk w. unfold w_bind. destruct (Hm w) as (E1 & E2 & E3). destruct (m w) as [w1 [a|x|]]; simpl in *; [|done|done].
  destruct (Hk a w1) as (F1 & F2 & F3). rewrite F1, F3. split; [done|]. split; [set_solver|done].
Qed.
Lemma steady_try {A} (m : W Engine A) : steady m -> steady (w_try m).
Proof. intros Hm w. unfold w_try. specialize (Hm w). by destruct (m w) as [w1 [a|x|]]. Qed.
Lemma steady_pure {A} (f : Io * Engine -> outcome A) : steady (fun w => (w, f w)).
Proof. by intros w. Qed.
Lemma steady_call m : steady (call m).
Proof.
  intros [io e]. unfold call, w_bind, note. simpl. destruct (io_calls io) as [|r rs]; simpl;
    rewrite applied_app, app_nil_r; done.
Qed.
Lemma steady_rnd : steady rnd.
Proof. by intros [io e]. Qed.
Lemma steady_recv : steady recv.
Proof. intros [io e]. unfold recv. by destruct (io_pushes io). Qed.
Lemma steady_connect : steady connect_relay.
Proof. intros [io e]. unfold connect_relay. by destruct (io_connects io). Qed.
Lemma steady_session {A} (m : Ses A) : steady (on_session m).
Proof. intros [io e]. unfold on_session. by destruct (m (session e)). Qed.
Lemma steady_read {A} (f : Session -> result A SessionError) : steady (session_read f).
Proof. by intros [io e]. Qed.
Lemma steady_mark id : steady (mark_seen id).
Proof. intros [io e]. simpl. split; [done|]. split; [set_solver|done]. Qed.
Lemma steady_persist l : steady (persist l).
Proof. intros [io e]. unfold persist. destruct (store e); [|done]. by destruct (hd true (io_commits io)). Qed.
Lemma steady_joined id : steady (note (Joined id)).
Proof. intros [io e]. simpl. by rewrite applied_app, app_nil_r. Qed.

Create HintDb steady.
#[local] Hint Resolve steady_bind steady_try steady_call steady_rnd steady_recv steady_connect steady_session steady_read
  steady_mark steady_persist steady_joined : steady.
#[local] Hint Extern 1 (steady (w_ret _)) => apply (steady_pure (fun _ => Done _)) : steady.
#[local] Hint Extern 1 (steady (w_fail _)) => apply (steady_pure (fun _ => Failed _)) : steady.
#[local] Hint Extern 1 (steady w_block) => apply (steady_pure (fun _ => Blocked)) : steady.
#[local] Hint Extern 1 (steady (w_get _)) => by intros [? ?] : steady.
#[local] Hint Extern 1 (steady (w_option _ _)) => by intros [? ?] : steady.

Lemma steady_subscribe qs : steady (rc_subscribe qs).
Proof. apply steady_bind; [auto with steady|]. intros []; auto with steady. Qed.
Lemma steady_reconnect n : steady (reconnect_loop n).
Proof.
  induction n as [|n IH]; simpl; [auto with steady|]. apply steady_bind; [auto with steady|]. intros [r|x].
  - apply steady_bind; [auto with steady|]. intros q. apply steady_subscribe.
  - destruct n; auto with steady.
Qed.
Lemma steady_try_ack q id : steady (try_ack q id).
Proof.
  apply steady_bind; [apply steady_try, steady_bind; [auto with steady|]; intros []; auto with steady|].
  intros [r|[]]; auto with steady.
Qed.
Lemma steady_group_send q key k env : steady (rc_send_to_group_inbox q key k env).
Proof. apply steady_bind; [auto with steady|]. intros []; auto with steady. Qed.
Lemma steady_send_loop n q key env : steady (send_loop n q key env).
Proof.
  induction n as [|n IH]; simpl; [auto with steady|]. apply steady_bind; [apply steady_try, steady_group_send|].
  intros [[r|c]|[]]; auto with steady. apply steady_bind; [apply steady_reconnect|done].
Qed.
Lemma steady_send line : steady (send_message line).
Proof.
  unfold send_message. repeat (apply steady_bind; [by auto with steady|intros ?]).
  intros w. apply steady_send_loop.
Qed.

(** A computation that keeps the count wherever it is done or dropped. *)
Definition counts {A} (n : Z) (P : Io * Engine -> Prop) (m : W Engine A) (Q : A -> Io * Engine -> Prop) : Prop :=
  forall w, P w -> match m w with (w', Done a) => Q a w' | (w', Blocked) => shown n w' | (_, Failed _) => True end.

Lemma c_bind {A B} n P (m : W Engine A) Q (k : A -> W Engine B) S :
  counts n P m Q -> (forall a, counts n (Q a) (k a) S) -> counts n P (w_bind m k) S.
Proof. intros Hm Hk w Hw. unfold w_bind. specialize (Hm w Hw). destruct (m w) as [w' [a|x|]]; [by apply Hk|done|done]. Qed.

Lemma c_steady {A} n (m : W Engine A) : steady m -> counts n (shown n) m (fun _ => shown n).
Proof. intros Hm w Hw. pose proof (shown_steady n m w Hm Hw). by destruct (m w) as [w' [a|x|]]. Qed.

Lemma received_snoc evs ev : received (evs ++ [ev]) = received evs + (if from_message ev then 1 else 0).
Proof.
  unfold received. rewrite retain_app, len_app. f_equal. simpl. by destruct (from_message ev).
Qed.

Lemma c_connection n b : counts n (shown n) (push_event (ConnectionChanged b)) (fun _ => shown n).
Proof. intros [io e] [H1 H2 H3]. split; simpl in *; [done|done|]. rewrite received_snoc. simpl. lia. Qed.

(** A message just marked, and its event. *)
Lemma c_apply_push n env :
  counts n (fun w => shown n w /\ message_id env ∈ seen w.2 /\ message_id env ∉ applied (trace w.1)) (apply_push env) (fun _ => shown n).
Proof.
  intros [io e] ([H1 H2 H3] & Hs & Hn). unfold apply_push, w_bind at 1, note. simpl in *.
  unfold w_bind at 1, on_session. simpl. destruct (process_incoming (padded_ciphertext env) (session e)) as [s' [inc|x]]; [|done].
  unfold w_bind at 1. set (w1 := (set_trace (trace io ++ [Applied (message_id env)]) io, set_session s' e)).
  assert (He : match event_of inc w1 with (w', Done ev) => w' = w1 /\ from_message ev = true | (_, Blocked) => False | _ => True end).
  { destruct inc; simpl; [done|]. unfold w_bind, session_read. simpl. by destruct (epoch s'). }
  destruct (event_of inc w1) as [w2 [ev|x|]]; [|done|done]. destruct He as [-> Hev].
  apply (c_steady n (persist [message_id env]) (steady_persist _)). split; simpl; rewrite applied_app.
  - apply Forall_app. split; [done|]. by repeat constructor.
  - apply NoDup_app. split; [done|]. split; [set_solver|]. apply NoDup_singleton.
  - rewrite len_app, received_snoc, Hev, H3. unfold len. simpl. lia.
Qed.

Lemma c_pump n : counts n (shown n) pump_one (fun _ => shown n).
Proof.
  eapply c_bind; [apply c_steady, steady_recv|]. intros [[q env]|].
  - intros w Hw. unfold w_bind at 1, w_get. unfold w_bind at 1. simpl.
    assert (Hm : shown n (w.1, set_seen ({[message_id env]} ∪ seen w.2) w.2)).
    { pose proof (shown_steady n _ w (steady_mark (message_id env)) Hw) as Hx. exact Hx. }
    destruct (bool_decide (message_id env ∈ seen w.2)) eqn:E.
    + apply (c_steady n (try_ack q (message_id env)) (steady_try_ack _ _)), Hm.
    + apply bool_decide_eq_false in E.
      assert (Hn : message_id env ∉ applied (trace w.1)).
      { intros Hin. destruct Hw as [H1 _ _]. rewrite Forall_forall in H1. by apply E, H1. }
      eapply (c_bind n _ (apply_push env) (fun _ => shown n)); [apply c_apply_push| |].
      * intros ?. apply c_steady, steady_try_ack.
      * split; [exact Hm|]. split; [simpl; set_solver|exact Hn].
  - eapply c_bind; [apply c_connection|]. intros ?. eapply c_bind; [apply c_steady, steady_reconnect|]. intros ?. apply c_connection.
Qed.

(** Taking an event is all that changes the count. *)
Definition worth (ev : Event) : Z := if from_message ev then 1 else 0.

Lemma c_next_event n k : counts n (shown n) (next_event_loop k) (fun ev => shown (n + worth ev)).
Proof.
  induction k as [|k IH]; simpl; [by intros w Hw|]. intros w Hw. unfold w_bind at 1, w_get.
  destruct (pending_events w.2) as [|ev rest] eqn:E.
  - by apply (c_bind n _ pump_one (fun _ => shown n) _ _ (c_pump n)); [intros ?; apply IH|].
  - destruct Hw as [H1 H2 H3]. rewrite E in H3. split; simpl; [done|done|].
    rewrite H3. unfold received, worth. simpl. destruct (from_message ev); rewrite ?len_cons; lia.
Qed.

Lemma c_next n : counts n (shown n) next_event (fun ev => shown (n + worth ev)).
Proof. intros w Hw. by apply (c_next_event n (S (S (length (io_pushes w.1))))). Qed.

Lemma shown_feed n inp w : shown n w -> shown n (feed inp w.1, w.2).
Proof. intros [H1 H2 H3]. by split. Qed.

Lemma poll_shown n polled w w' : poll polled w = Some w' -> shown n w -> shown n w'.
Proof.
  destruct polled as [inp|]; simpl; [|by intros [= <-]]. intros H Hw.
  pose proof (c_next n (feed inp w.1, w.2) (shown_feed _ _ _ Hw)) as Hc. destruct (next_event _) as [w1 [ev|x|]]; by simplify_eq.
Qed.

Lemma chat_repl_shown ts n w w' printed r :
  shown n w -> chat_repl ts w = Some (w', printed, r) -> (forall x, r <> Crashed x) -> shown (n + received printed) w'.
Proof.
  revert n w printed. induction ts as [|[line polled inp|polled|inp] ts IH]; intros n w printed Hw H Hr; simpl in H.
  - simplify_eq. by rewrite Z.add_0_r.
  - destruct (poll polled w) as [w1|] eqn:E; [|done]. simpl in H. apply (poll_shown n) in E; [|done].
    pose proof (c_steady n _ (steady_send line) (feed inp w1.1, w1.2) (shown_feed _ _ _ E)) as Hs.
    destruct (send_message line _) as [w2 [a|x|]]; [by eapply IH|by simplify_eq; destruct (Hr x)|].
    simplify_eq. by rewrite Z.add_0_r.
  - destruct (poll polled w) as [w1|] eqn:E; [|done]. simpl in H. simplify_eq. rewrite Z.add_0_r. by eapply poll_shown.
  - pose proof (c_next n (feed inp w.1, w.2) (shown_feed _ _ _ Hw)) as Hc. destruct (next_event _) as [w2 [ev|x|]].
    + destruct (chat_repl ts w2) as [[[w3 p3] r3]|] eqn:E; [|done]. simpl in H. simplify_eq.
      apply (IH _ _ _ Hc) in E; [|done]. replace (n + received (ev :: p3)) with (n + worth ev + received p3); [done|].
      unfold received, worth. simpl. destruct (from_message ev); rewrite ?len_cons; lia.
    + simplify_eq. by destruct (Hr x).
    + simplify_eq. by rewrite Z.add_0_r.
Qed.

(** ** From the command line *)

(** A constructor applies nothing and gives an engine with no event waiting. *)
Definition builds {S A} (g : A -> Engine) (m : W S A) : Prop := forall w,
  match m w with
  | (w', Done a) => applied (trace w'.1) = applied (trace w.1) /\ pending_events (g a) = []
  | _ => True
  end.
Definition silent {S A} (m : W S A) : Prop := forall w, applied (trace (m w).1.1) = applied (trace w.1).

Lemma builds_bind {S A B} (m : W S A) (k : A -> W S B) g : silent m -> (forall a, builds g (k a)) -> builds g (w_bind m k).
Proof.
  intros Hm Hk w. unfold w_bind. specialize (Hm w). destruct (m w) as [w1 [a|x|]]; [|done|done]. specialize (Hk a w1).
  simpl in Hm. by rewrite <- Hm.
Qed.
Lemma silent_bind {S A B} (m : W S A) (k : A -> W S B) : silent m -> (forall a, silent (k a)) -> silent (w_bind m k).
Proof.
  intros Hm Hk w. unfold w_bind. specialize (Hm w). destruct (m w) as [w1 [a|x|]]; simpl in *; [|done|done].
  by rewrite Hk.
Qed.
Lemma silent_call {S} m : silent (call (S:=S) m).
Proof.
  intros [io e]. unfold call, w_bind, note. simpl. destruct (io_calls io) as [|r rs]; simpl;
    rewrite applied_app, app_nil_r; done.
Qed.
Lemma silent_rnd {S} : silent (rnd (S:=S)).
Proof. by intros [io e]. Qed.
Lemma silent_connect {S} : silent (connect_relay (S:=S)).
Proof. intros [io e]. unfold connect_relay. by destruct (io_connects io). Qed.
Lemma silent_create_queue {S} fuel build : silent (create_queue_with_pow (S:=S) fuel build).
Proof.
  apply silent_bind; [apply silent_call|]. intros r. apply silent_bind; [by destruct r|]. intros c.
  apply silent_bind; [by intros w|]. intros s. apply silent_bind; [apply silent_call|]. by intros [].
Qed.
Lemma steady_create_queue fuel build : steady (create_queue_with_pow fuel build).
Proof.
  apply steady_bind; [auto with steady|]. intros r. apply steady_bind; [destruct r; auto with steady|]. intros c.
  apply steady_bind; [by intros w|]. intros s. apply steady_bind; [auto with steady|]. intros []; auto with steady.
Qed.

Lemma connect_builds {S} fuel name addr fp s tokens : builds id (connect_with_session (S:=S) fuel name addr fp s tokens).
Proof.
  apply builds_bind; [apply silent_connect|]. intros ?. apply builds_bind; [apply silent_create_queue|]. intros m.
  apply builds_bind; [|by intros ? w]. apply silent_bind; [apply silent_call|]. by intros [].
Qed.

Lemma builds_engine {S A} (m : W S Engine) (f : W Engine A) :
  builds id m -> steady f -> builds fst (e <~ m; with_engine f e).
Proof.
  intros Hm Hf [io s]. unfold w_bind. specialize (Hm (io, s)). destruct (m (io, s)) as [[io1 s1] [e|x|]]; [|done|done].
  destruct Hm as [E1 E2]. unfold with_engine. destruct (Hf (io1, e)) as (F1 & _ & F2).
  destruct (f (io1, e)) as [[io2 e2] [a|x|]]; [|done|done]. simpl in *. unfold id in E2. by rewrite F1, F2.
Qed.

Lemma steady_contact_link : steady contact_link.
Proof. unfold contact_link. repeat (apply steady_bind; [by auto with steady || (by intros [])|intros ?]). auto with steady. Qed.
Lemma steady_await n : steady (await_pairing_loop n).
Proof.
  induction n as [|n IH]; simpl; [auto with steady|]. apply steady_bind; [auto with steady|]. intros [[q env]|].
  - repeat (apply steady_bind; [by auto with steady || (by intros [])|intros ?]). apply steady_try_ack.
  - apply steady_bind; [apply steady_reconnect|done].
Qed.
Lemma steady_found_group fuel link ep : steady (found_group fuel link ep).
Proof.
  unfold found_group, rc_create_group_inbox. repeat (apply steady_bind; [by auto using steady_create_queue with steady || (by intros [])|intros ?]).
  apply steady_bind; [apply steady_bind; [auto with steady|intros []; auto with steady]|]. intros ?. by intros [].
Qed.

Lemma pair_builds {S} fuel name link so tokens : builds id (pair_with_link_using (S:=S) fuel name link so tokens).
Proof.
  unfold pair_with_link_using. apply builds_bind; [by intros w|]. intros bs. apply builds_bind; [by intros w|]. intros l.
  apply builds_bind; [by intros w|]. intros ep. apply builds_bind; [apply silent_rnd|]. intros r.
  pose proof (fun e => builds_engine (connect_with_session (S:=S) fuel name (relay_addr ep) (relay_fingerprint ep)
    (match so with Some s0 => s0 | None => ChatSession_new r name end) tokens) (found_group fuel l ep) (connect_builds _ _ _ _ _ _)
    (steady_found_group fuel l ep) e) as Hb. intros w. specialize (Hb w). unfold w_bind in *.
  destruct (connect_with_session _ _ _ _ _ _ w) as [w1 [e|x|]]; [|done|done].
  by destruct (with_engine _ e w1) as [w2 [a|x|]].
Qed.

Lemma cli_builds fuel c m : cli_start fuel c = Some m -> builds fst m.
Proof.
  destruct c as [fp name relay|link name]; simpl; [|intros [= <-]].
  - destruct (parse_fingerprint fp) as [r|]; simpl; [|done]. intros [= <-].
    apply builds_bind; [by intros w|]. intros fp'. apply builds_bind; [apply silent_rnd|]. intros rd.
    apply builds_engine; [apply connect_builds|]. apply steady_bind; [apply steady_contact_link|]. intros ?.
    apply steady_bind; [intros w; apply steady_await|]. intros ?. auto with steady.
  - apply builds_engine; [apply pair_builds|auto with steady].
Qed.

(** C17: the chat loop neither loses nor repeats a message. Whatever the order in which
    lines are typed and events arrive, and wherever the event future is dropped for a
    line, in a session without an error every message the MLS session was given was
    given to it once, and is one event: printed, or still waiting in the engine. *)
Theorem repl_shows_once fuel c m io io1 e ep ts w' printed r :
  cli_start fuel c = Some m -> applied (trace io) = [] -> m (io, tt) = ((io1, tt), Done (e, ep)) ->
  chat_repl ts (io1, e) = Some (w', printed, r) -> (forall x, r <> Crashed x) ->
  NoDup (applied (trace w'.1)) /\ len (applied (trace w'.1)) = received (printed ++ pending_events w'.2).
Proof.
  intros Hc Ha Hm Hr Hx. pose proof (cli_builds _ _ _ Hc (io, tt)) as Hb. rewrite Hm in Hb. simpl in Hb. destruct Hb as [E1 E2].
  assert (H0 : shown 0 (io1, e)) by (split; simpl; rewrite E1, Ha, ?E2; [constructor|constructor|done]).
  destruct (chat_repl_shown _ _ _ _ _ _ H0 Hr Hx) as [_ H2 H3]. split; [done|]. rewrite H3.
  unfold received. rewrite retain_app, len_app. lia.
Qed.
End Cli.

(** ** A session *)

Module CliExamples.
Import ToyInstances ToyMls EngineExamples.

(** Bob listens, is paired by Alice of [EngineExamples], and types while her message is
    on its way: the event future is dropped while it waits for the acknowledgement. *)
Definition bob_command : Command := CListen (hex (replicate 32 7)) (str "bob") "relay:7443".
Definition bob_io : Io :=
  script [Some (SPowChallenge easy); Some (SQueueCreated [8] [9]); Some SOk; Some SOk] [Some ([8], bootstrap_env)] [true] []
    [[2]; [3]].
Definition bob_turns : list turn :=
  [Typed (str "hello?") (Some (script [] [Some ([8], hi_env)] [] [] [])) (script [Some SOk] [] [] [] [[6]]);
   Heard (script [] [] [] [] []);
   InputEnds None].

Definition engine_of {A} (r : outcome (Engine * A)) : Engine :=
  match r with Done x => x.1 | _ => mkEngine [] bob0 "" [] [] [] None ∅ [] false [] end.
Definition started {A} (r : outcome A) : option A := match r with Done a => Some a | _ => None end.

Lemma started_eq {A} (m : W unit (Engine * A)) io a :
  snd <$> started (m (io, tt)).2 = Some a -> m (io, tt) = (((m (io, tt)).1.1, tt), Done (engine_of (m (io, tt)).2, a)).
Proof. destruct (m (io, tt)) as [[io1 []] [[e b]|x|]]; simpl; intros H; by simplify_eq. Qed.
Lemma repl_eq (o : option ((Io * Engine) * list Event * repl_end)) (d : Io * Engine) p r :
  (fun x => (x.1.2, x.2)) <$> o = Some (p, r) -> o = Some (from_option (fun x => x.1.1) d o, p, r).
Proof. destruct o as [[[w p'] r']|]; simpl; intros H; by simplify_eq. Qed.

Definition bob_main : W unit (Engine * Z) := default (w_fail OtherErr) (cli_start 1 bob_command).
Lemma bob_main_eq : cli_start 1 bob_command = Some bob_main.
Proof. reflexivity. Qed.
Abbreviation bob_up := (bob_main (bob_io, tt)).
Lemma bob_starts : snd <$> started bob_up.2 = Some 1.
Proof. vm_compute. reflexivity. Qed.
Abbreviation bob_world := (bob_up.1.1, engine_of bob_up.2).
Abbreviation bob_chat := (chat_repl bob_turns bob_world).
Lemma bob_chats : (fun x => (x.1.2, x.2)) <$> bob_chat = Some ([EMessage (str "hi")], Quit).
Proof. vm_compute. reflexivity. Qed.
Abbreviation bob_end := (from_option (fun x => x.1.1) bob_world bob_chat).

Lemma repl_shows_once_witness :
  NoDup (applied (trace bob_end.1)) /\
  len (applied (trace bob_end.1)) = received ([EMessage (str "hi")] ++ pending_events bob_end.2).
Proof.
  refine (repl_shows_once 1 bob_command bob_main bob_io bob_up.1.1 (engine_of bob_up.2) 1 bob_turns bob_end _ Quit
            bob_main_eq eq_refl (started_eq _ _ _ bob_starts) (repl_eq _ bob_world _ _ bob_chats) _).
  intros x. discriminate.
Defined.
End CliExamples.
