(* ===== verification/Ffi.v ===== *)
(** * The client object (ffi/src/lib.rs)

    What the app holds: conversations and messages, the recovery operations, and the
    threads behind it. [App] is the object with its shared state; the engine's
    thread is [a_backend], the dispatch thread's channel, buffer and deliveries are
    [a_channel], [a_buffer] and [a_delivered]. A call that waits for the engine's
    thread is answered by what that thread does next; the 30 second limit on
    starting it is not modelled. The database file is the disk of the script;
    constructors take what is at the path. Reasons in error messages are left out,
    and a panic is [None]. *)

From S2P Require Import Prelude Text External Proto CoreBackup CoreSession Engine.

(** ** Records and enums of the interface *)

Record Conversation := mkConv {
  c_id : bytes;
  c_display_name : bytes;
  c_last_message : option bytes;
  c_unread : Z;
  c_verified : bool;
}.

Inductive DeliveryState := DPending | DSent | DFailed | DReceived.

Record ChatMessage := mkMsg {
  m_id : bytes;
  m_body : bytes;
  m_mine : bool;
  m_timestamp_ms : Z;
  m_delivery : DeliveryState;
}.

(** The app's form of an attestation token. *)
Record FfiToken := mkFfiToken { ft_nonce : bytes; ft_expires_at : Z; ft_signature : bytes }.

Definition attestation_to_proto (t : FfiToken) : option AttestationToken :=
  if len (ft_nonce t) =? 16 then Some (mkToken (ft_nonce t) (ft_expires_at t) (ft_signature t)) else None.

Inductive EngineEvent :=
| MessageReceived (conversation : bytes) (message : ChatMessage)
| ConversationUpdated (conversation : bytes)
| ConnectionStateChanged (online : bool)
| SecurityCodeChanged (conversation : bytes).

(** The app's mirror of a recovery bundle. *)
Record FfiBundle := mkFfiBundle {
  fb_blob : bytes; fb_w_pin : bytes; fb_salt_p : bytes; fb_w_phrase : bytes; fb_salt_f : bytes;
  fb_auth_pin : bytes; fb_salt_a : bytes; fb_auth_phrase : bytes; fb_salt_pa : bytes;
}.

Definition bundle_from_core (b : BackupBundle) : FfiBundle :=
  mkFfiBundle (bb_blob b) (bb_w_pin b) (bb_salt_p b) (bb_w_phrase b) (bb_salt_f b) (bb_auth_pin b) (bb_salt_a b)
    (bb_auth_phrase b) (bb_salt_pa b).

Definition bundle_to_core (b : FfiBundle) : BackupBundle :=
  mkBundle (fb_blob b) (fb_w_pin b) (fb_salt_p b) (fb_w_phrase b) (fb_salt_f b) (fb_auth_pin b) (fb_salt_a b)
    (fb_auth_phrase b) (fb_salt_pa b).

Inductive EngineError :=
| InvalidContactLink
| UnknownConversation
| SendFailed
| RelayUnreachable
| NotSupported
| StorageFailed
| InvalidPin
| WrongRecoverySecret.

Definition CONVERSATION_ID : bytes := str "conv-1".

Record RelayConfig := mkRelayConfig { rc_addr : string; rc_fingerprint : bytes }.

(** The two environment variables the client reads. *)
Record Env := mkEnv { CHAT_RELAY_ADDR : option string; CHAT_RELAY_FINGERPRINT : option bytes }.

(** [None]: a slice in the middle of a character panics. *)
Definition relay_config_from_env (env : Env) : option (option RelayConfig) :=
  match CHAT_RELAY_ADDR env, CHAT_RELAY_FINGERPRINT env with
  | Some addr, Some hex =>
      let hex := trim hex in
      if negb (len hex =? 64) then Some None
      else match decode_hex_pairs hex with None => None | Some r => Some (mkRelayConfig addr <$> r) end
  | _, _ => Some None
  end.

(** The conversations and messages. *)
Record UiStore := mkUi {
  u_conversations : list Conversation;
  u_messages : gmap (list Z) (list ChatMessage);
}.

Definition UiStore_default : UiStore := mkUi [] ∅.

Inductive DispatchMsg := DEvent (e : EngineEvent) | ListenerChanged.

(** The third-party code of the client object. *)
Class FfiExt := {
  ffi_client :: ClientExt;
  ffi_argon :: Argon2Recovery;
  ffi_aead :: XChaCha20Poly1305;
  ffi_lower :: Lowercase;
  ffi_ui :: Bincode (UiStore * Z);
  ffi_bundle :: Bincode BackupBundle;
  ffi_payload :: Bincode BackupPayload;
}.

Section Ffi.
Context {X : FfiExt}.

(** ** The object *)

(** The engine's thread: not spawned; trying to resume, and whether it reported that
    it cannot; running with the conversation it serves; ended. *)
Inductive Backend :=
| NoBackend
| Resuming (reported_offline : bool)
| Actor (core : Engine) (conversation : option bytes)
| Ended.

Record App := mkApp {
  a_display_name : bytes;
  a_relay_cfg : option RelayConfig;
  a_persist : option bytes;            (** the database key *)
  a_ui : UiStore;
  a_seq : Z;
  a_disk : bool;                       (** whether the UI half has a database *)
  a_attestation : list AttestationToken;
  a_backend : Backend;
  a_listener : bool;
  a_channel : list DispatchMsg;
  a_buffer : list EngineEvent;
  a_delivered : list EngineEvent;
}.

Definition set_ui (u : UiStore) (a : App) : App :=
  mkApp (a_display_name a) (a_relay_cfg a) (a_persist a) u (a_seq a) (a_disk a) (a_attestation a) (a_backend a)
    (a_listener a) (a_channel a) (a_buffer a) (a_delivered a).
Definition set_seq (n : Z) (a : App) : App :=
  mkApp (a_display_name a) (a_relay_cfg a) (a_persist a) (a_ui a) n (a_disk a) (a_attestation a) (a_backend a)
    (a_listener a) (a_channel a) (a_buffer a) (a_delivered a).
Definition set_attestation (t : list AttestationToken) (a : App) : App :=
  mkApp (a_display_name a) (a_relay_cfg a) (a_persist a) (a_ui a) (a_seq a) (a_disk a) t (a_backend a)
    (a_listener a) (a_channel a) (a_buffer a) (a_delivered a).
Definition set_backend (b : Backend) (a : App) : App :=
  mkApp (a_display_name a) (a_relay_cfg a) (a_persist a) (a_ui a) (a_seq a) (a_disk a) (a_attestation a) b
    (a_listener a) (a_channel a) (a_buffer a) (a_delivered a).
Definition set_dispatch (l : bool) (c : list DispatchMsg) (b d : list EngineEvent) (a : App) : App :=
  mkApp (a_display_name a) (a_relay_cfg a) (a_persist a) (a_ui a) (a_seq a) (a_disk a) (a_attestation a) (a_backend a)
    l c b d.

(** ** Events *)

Definition post (m : DispatchMsg) (a : App) : App :=
  set_dispatch (a_listener a) (a_channel a ++ [m]) (a_buffer a) (a_delivered a) a.

Definition dispatch (e : EngineEvent) : W App unit := w_set (post (DEvent e)).

Definition set_listener (a : App) : App :=
  post ListenerChanged (set_dispatch true (a_channel a) (a_buffer a) (a_delivered a) a).

(** One turn of the dispatch thread. *)
Definition dispatch_turn (a : App) : App :=
  match a_channel a with
  | [] => a
  | m :: ms =>
      let buffer := a_buffer a ++ match m with DEvent e => [e] | ListenerChanged => [] end in
      if a_listener a then set_dispatch (a_listener a) ms [] (a_delivered a ++ buffer) a
      else set_dispatch (a_listener a) ms buffer (a_delivered a) a
  end.

(** ** The shared state *)

Definition next_msg_id : W App bytes := fun '(io, a) =>
  ((io, set_seq (a_seq a +64 1) a), Done (str "msg-" ++ decimal (a_seq a))).

(** Best effort: the result of the transaction is ignored. *)
Definition persist_ui : W App unit := fun '(io, a) =>
  if a_disk a then
    let ok := hd true (io_commits io) in
    let '(d, _) := Store_commit ok [(str "ui.state", bincode_serialize (a_ui a, a_seq a))] [] (disk io) in
    ((mkIo (io_calls io) (io_pushes io) (io_connects io) (tail (io_commits io)) (io_rnd io) (trace io) d, a), Done tt)
  else ((io, a), Done tt).

(** ** Constructors *)

Definition build (env : Env) (name : bytes) (persist : option bytes) (has_disk : bool) (ui : UiStore) (seq : Z)
  : option App :=
  cfg ← relay_config_from_env env;
  Some (mkApp name cfg persist ui seq has_disk [] NoBackend false [] [] []).

Definition ChatEngine_new (env : Env) (name : bytes) : option App := build env name None false UiStore_default 1.

Definition is_some {A} (o : option A) : bool := match o with Some _ => true | None => false end.

(** The file afterwards, and the object. *)
Definition new_persistent (env : Env) (name key : bytes) (file : option Disk)
  : option (option Disk * result App EngineError) :=
  match Store_open key file with
  | Err _ => Some (file, Err StorageFailed)
  | Ok d =>
      let has_engine_state := is_some (Store_get (str "engine") d) in
      let state := match Store_get (str "ui.state") d with
                   | Some blob => bincode_deserialize blob
                   | None => Some (UiStore_default, 1)
                   end in
      match state with
      | None => Some (Some d, Err StorageFailed)
      | Some (ui, seq) =>
          a ← build env name (Some key) true ui seq;
          Some (Some d, Ok (if has_engine_state then set_backend (Resuming false) a else a))
      end
  end.

(** The conversation a restore leaves for the first contact. *)
Definition stub_ui (contacts : list bytes) : UiStore :=
  match contacts with
  | [] => UiStore_default
  | first :: _ => mkUi [mkConv CONVERSATION_ID first None 0 false] {[CONVERSATION_ID := []]}
  end.

(** The key of a bundle by a PIN or a phrase. *)
Definition unwrap_with (b : BackupBundle) (secret : bytes) : option (result bytes BackupError) :=
  if validate_pin secret then unwrap_bk secret (bb_salt_p b) (bb_w_pin b)
  else unwrap_bk (normalize_phrase secret) (bb_salt_f b) (bb_w_phrase b).

Definition new_from_backup (ok : bool) (env : Env) (display_name key : bytes) (file : option Disk) (bundle : FfiBundle)
    (secret : bytes) : option (option Disk * result App EngineError) :=
  let core_bundle := bundle_to_core bundle in
  bk ← unwrap_with core_bundle secret;
  match bk with
  | Err _ => Some (file, Err WrongRecoverySecret)
  | Ok bk =>
      match open_blob bk (bb_blob core_bundle) with
      | Err _ => Some (file, Err WrongRecoverySecret)
      | Ok payload_bytes =>
          match bincode_deserialize payload_bytes : option BackupPayload with
          | None => Some (file, Err StorageFailed)
          | Some payload =>
              match file with
              | Some _ => Some (file, Err StorageFailed)
              | None =>
                  let name := default display_name (bp_username payload) in
                  let ui := stub_ui (bp_contacts payload) in
                  let kv := [(str "backup.bk", bk); (str "backup.bundle", bincode_serialize core_bundle);
                             (str "ui.state", bincode_serialize (ui, 1))] ++
                            match bp_identity payload with Some i => [(str "session", i)] | None => [] end in
                  match Store_commit ok kv [] (mkDisk key ∅ ∅) with
                  | (_, Err _) => Some (None, Err StorageFailed)
                  | (d, Ok _) => a ← build env name (Some key) true ui 1; Some (Some d, Ok a)
                  end
              end
          end
      end
  end.

Definition stock_attestation_tokens (tokens : list FfiToken) (a : App) : App :=
  set_attestation (a_attestation a ++ omap attestation_to_proto tokens) a.

(** ** Recovery *)

Definition backup_auth_proof (secret salt : bytes) : option bytes :=
  auth_hash (if validate_pin secret then secret else normalize_phrase secret) salt.

Definition backup_payload (a : App) (d : Disk) : result bytes EngineError :=
  identity <-? match Store_get (str "session") d with
               | None => Ok None
               | Some b => i <-? map_err (fun _ => StorageFailed) (strip_snapshot_to_identity b); Ok (Some i)
               end;
  Ok (bincode_serialize (mkPayload identity (Some (a_display_name a)) (c_display_name <$> u_conversations (a_ui a)))).

(** [words], [draws], [bk] and [r]: the word list and the random draws. *)
Definition backup_enroll (ok : bool) (words : list bytes) (draws : list nat) (bk : bytes) (r : BundleRandom) (pin : bytes)
    (a : App) (d : Disk) : option (Disk * result (bytes * FfiBundle) EngineError) :=
  if negb (validate_pin pin) then Some (d, Err InvalidPin)
  else if negb (a_disk a) then Some (d, Err NotSupported)
  else
    phrase ← generate_phrase words draws;
    match backup_payload a d with
    | Err e => Some (d, Err e)
    | Ok payload =>
        b ← build_bundle r pin phrase bk payload;
        match b with
        | Err _ => Some (d, Err InvalidPin)
        | Ok bundle =>
            match Store_commit ok [(str "backup.bk", bk); (str "backup.bundle", bincode_serialize bundle)] [] d with
            | (d', Err _) => Some (d', Err StorageFailed)
            | (d', Ok _) => Some (d', Ok (phrase, bundle_from_core bundle))
            end
        end
    end.

Definition with_blob (blob : bytes) (b : BackupBundle) : BackupBundle :=
  mkBundle blob (bb_w_pin b) (bb_salt_p b) (bb_w_phrase b) (bb_salt_f b) (bb_auth_pin b) (bb_salt_a b)
    (bb_auth_phrase b) (bb_salt_pa b).

Definition backup_bundle_current (ok : bool) (nonce : bytes) (a : App) (d : Disk)
  : Disk * result (option FfiBundle) EngineError :=
  if negb (a_disk a) then (d, Ok None)
  else
    match Store_get (str "backup.bk") d, Store_get (str "backup.bundle") d with
    | Some bk, Some bs =>
        if negb (len bk =? 32) then (d, Err StorageFailed)
        else
          match bincode_deserialize bs with
          | None => (d, Err StorageFailed)
          | Some bundle =>
              match backup_payload a d with
              | Err e => (d, Err e)
              | Ok payload =>
                  let bundle := with_blob (seal_blob bk nonce payload) bundle in
                  match Store_commit ok [(str "backup.bundle", bincode_serialize bundle)] [] d with
                  | (d', Err _) => (d', Err StorageFailed)
                  | (d', Ok _) => (d', Ok (Some (bundle_from_core bundle)))
                  end
              end
          end
    | _, _ => (d, Ok None)
    end.

Definition backup_verify_secret (secret : bytes) (a : App) (d : Disk) : option (result bool EngineError) :=
  if negb (a_disk a) then Some (Ok false)
  else
    match Store_get (str "backup.bundle") d with
    | None => Some (Ok false)
    | Some bs =>
        match bincode_deserialize bs with
        | None => Some (Err StorageFailed)
        | Some bundle => r ← unwrap_with bundle secret; Some (Ok match r with Ok _ => true | Err _ => false end)
        end
    end.

Definition with_pin (w_pin salt_p auth_pin salt_a : bytes) (b : BackupBundle) : BackupBundle :=
  mkBundle (bb_blob b) w_pin salt_p (bb_w_phrase b) (bb_salt_f b) auth_pin salt_a (bb_auth_phrase b) (bb_salt_pa b).

Definition backup_rewrap_pin (ok : bool) (salt_p salt_a nonce new_pin : bytes) (a : App) (d : Disk)
  : option (Disk * result FfiBundle EngineError) :=
  if negb (validate_pin new_pin) then Some (d, Err InvalidPin)
  else if negb (a_disk a) then Some (d, Err NotSupported)
  else
    match Store_get (str "backup.bk") d, Store_get (str "backup.bundle") d with
    | Some bk, Some bs =>
        if negb (len bk =? 32) then Some (d, Err StorageFailed)
        else
          match bincode_deserialize bs with
          | None => Some (d, Err StorageFailed)
          | Some bundle =>
              w_pin ← wrap_bk new_pin salt_p nonce bk;
              auth_pin ← auth_hash new_pin salt_a;
              let bundle := with_pin w_pin salt_p auth_pin salt_a bundle in
              match Store_commit ok [(str "backup.bundle", bincode_serialize bundle)] [] d with
              | (d', Err _) => Some (d', Err StorageFailed)
              | (d', Ok _) => Some (d', Ok (bundle_from_core bundle))
              end
          end
    | _, _ => Some (d, Err NotSupported)
    end.

(** ** Conversations *)

(** Change the first element that satisfies [p]. *)
Fixpoint update_first {A} (p : A -> bool) (f : A -> A) (l : list A) : list A :=
  match l with
  | [] => []
  | x :: l' => if p x then f x :: l' else x :: update_first p f l'
  end.

Definition has_id (id : bytes) (c : Conversation) : bool := bool_decide (c_id c = id).

Definition with_name (n : bytes) (c : Conversation) : Conversation :=
  mkConv (c_id c) n (c_last_message c) (c_unread c) (c_verified c).
Definition with_last (m : bytes) (c : Conversation) : Conversation :=
  mkConv (c_id c) (c_display_name c) (Some m) (c_unread c) (c_verified c).
Definition with_received (m : bytes) (c : Conversation) : Conversation :=
  mkConv (c_id c) (c_display_name c) (Some m) (c_unread c +32 1) (c_verified c).
Definition with_verified (c : Conversation) : Conversation :=
  mkConv (c_id c) (c_display_name c) (c_last_message c) (c_unread c) true.

(** What [create_conversation] makes of the store. *)
Definition upsert (display_name : bytes) (u : UiStore) : UiStore :=
  mkUi (if existsb (has_id CONVERSATION_ID) (u_conversations u)
        then update_first (has_id CONVERSATION_ID) (with_name display_name) (u_conversations u)
        else u_conversations u ++ [mkConv CONVERSATION_ID display_name None 0 false])
       (match u_messages u !! CONVERSATION_ID with
        | Some _ => u_messages u
        | None => <[CONVERSATION_ID:=[]]> (u_messages u)
        end).

Definition create_conversation (peer_name : option bytes) : W App bytes :=
  _ <~ w_set (fun a => set_ui (upsert (default (str "New contact") peer_name) (a_ui a)) a);
  _ <~ persist_ui;
  _ <~ dispatch (ConversationUpdated CONVERSATION_ID);
  w_ret CONVERSATION_ID.

(** Push a message to a conversation's list, and change its row. *)
Definition record (conv : bytes) (m : ChatMessage) (f : Conversation -> Conversation) (u : UiStore) : UiStore :=
  mkUi (update_first (has_id conv) f (u_conversations u))
       (match u_messages u !! conv with
        | Some ms => <[conv:=ms ++ [m]]> (u_messages u)
        | None => u_messages u
        end).

Definition conversations (a : App) : list Conversation := u_conversations (a_ui a).
Definition messages (conv : bytes) (a : App) : list ChatMessage := default [] (u_messages (a_ui a) !! conv).

Definition mark_verified (conv : bytes) : W App (result unit EngineError) := fun '(io, a) =>
  if existsb (has_id conv) (u_conversations (a_ui a)) then
    (_ <~ w_set (fun a => set_ui (mkUi (update_first (has_id conv) with_verified (u_conversations (a_ui a)))
                                    (u_messages (a_ui a))) a);
     _ <~ persist_ui;
     _ <~ dispatch (ConversationUpdated conv);
     w_ret (Ok tt)) (io, a)
  else ((io, a), Done (Err UnknownConversation)).

(** ** The engine's thread *)

(** Run a computation of the core engine on the actor's thread. *)
Definition with_core {A} (core : Engine) (conv : option bytes) (m : W Engine A) : W App (result A EngErr) := fun '(io, a) =>
  match m (io, core) with
  | ((io', core'), Done x) => ((io', set_backend (Actor core' conv) a), Done (Ok x))
  | ((io', core'), Failed e) => ((io', set_backend (Actor core' conv) a), Done (Err e))
  | ((io', core'), Blocked) => ((io', set_backend (Actor core' conv) a), Blocked)
  end.

Definition restored_session (a : App) (d : Disk) : option Session :=
  key ← a_persist a;
  match Store_open key (Some d) with
  | Err _ => None
  | Ok disk =>
      match Store_get (str "engine") disk with
      | Some _ => None
      | None => bs ← Store_get (str "session") disk;
                match restore bs with Ok s => Some s | Err _ => None end
      end
  end.

Definition attach_disk (persist : option bytes) : W Engine unit := fun '(io, e) =>
  match persist with
  | None => ((io, e), Done tt)
  | Some key => match Store_open key (Some (disk io)) with
                | Err _ => ((io, e), Failed OtherErr)
                | Ok _ => attach_store (io, e)
                end
  end.

Definition forward_event (now : Z) (ev : Event) (conv : bytes) : W App unit :=
  match ev with
  | EMessage bs =>
      id <~ next_msg_id;
      let message := mkMsg id (utf8_lossy bs) false now DReceived in
      _ <~ w_set (fun a => set_ui (record conv message (with_received (m_body message)) (a_ui a)) a);
      _ <~ persist_ui;
      dispatch (MessageReceived conv message)
  | EpochAdvanced _ => dispatch (SecurityCodeChanged conv)
  | ConnectionChanged online => dispatch (ConnectionStateChanged online)
  end.

(** The top of the actor's loop: the listen side became paired. *)
Definition actor_top (core : Engine) (conv : option bytes) : W App (option bytes) :=
  match conv with
  | None =>
      if is_paired core then
        id <~ create_conversation (peer_name core);
        _ <~ w_set (set_backend (Actor core (Some id)));
        w_ret (Some id)
      else w_ret None
  | Some _ => w_ret conv
  end.

Definition stop_offline : W App unit :=
  _ <~ dispatch (ConnectionStateChanged false); w_set (set_backend Ended).

(** A turn of the actor in which no command arrives. *)
Definition actor_turn (now : Z) : W App unit := fun '(io, a) =>
  match a_backend a with
  | Actor core conv =>
      (conv <~ actor_top core conv;
       match conv with
       | Some c =>
           r <~ with_core core conv next_event;
           match r with Ok ev => forward_event now ev c | Err _ => stop_offline end
       | None =>
           r <~ with_core core None await_pairing;
           match r with Ok _ => w_ret tt | Err _ => stop_offline end
       end) (io, a)
  | _ => ((io, a), Done tt)
  end.

(** A turn of the loop that resumes the engine. *)
Definition resume_turn : W App unit := fun '(io, a) =>
  match a_backend a, a_persist a with
  | Resuming reported, Some key =>
      let '((io', _), r) := match Store_open key (Some (disk io)) with
                            | Err _ => ((io, tt), Failed OtherErr)
                            | Ok _ => resume (io, tt)
                            end in
      match r with
      | Done core =>
          let a' := if reported then post (DEvent (ConnectionStateChanged true)) a else a in
          ((io', set_backend (Actor core (c_id <$> head (u_conversations (a_ui a)))) a'), Done tt)
      | Failed _ =>
          let a' := if reported then a else post (DEvent (ConnectionStateChanged false)) a in
          ((io', set_backend (Resuming true) a'), Done tt)
      | Blocked => ((io', a), Blocked)
      end
  | _, _ => ((io, a), Done tt)
  end.

(** *** Commands *)

(** [handle_command] on the running actor, [reject_offline] while it resumes, and a
    closed channel after it ended. *)
Definition ask_link : W App (option bytes) := fun '(io, a) =>
  match a_backend a with
  | Actor core conv =>
      (conv <~ actor_top core conv;
       r <~ with_core core conv contact_link;
       w_ret match r with Ok link => Some link | Err _ => None end) (io, a)
  | _ => ((io, a), Done None)
  end.

Definition ask_safety_number : W App (result bytes EngineError) := fun '(io, a) =>
  match a_backend a with
  | Actor core conv =>
      (_ <~ actor_top core conv;
       w_ret (map_err (fun _ => UnknownConversation) (safety_number (session core)))) (io, a)
  | Resuming _ => ((io, a), Done (Err UnknownConversation))
  | _ => ((io, a), Done (Err SendFailed))
  end.

Definition ask_send (now : Z) (body : bytes) : W App (result unit EngineError) := fun '(io, a) =>
  match a_backend a with
  | Actor core conv =>
      (conv <~ actor_top core conv;
       let c := default CONVERSATION_ID conv in
       if negb (is_paired core) then w_ret (Err SendFailed)
       else
         res <~ with_core core conv (send_message body);
         id <~ next_msg_id;
         let message := mkMsg id body true now (match res with Ok _ => DSent | Err _ => DFailed end) in
         _ <~ w_set (fun a => set_ui (record c message (with_last body) (a_ui a)) a);
         _ <~ persist_ui;
         _ <~ dispatch (ConversationUpdated c);
         w_ret (map_err (fun _ => SendFailed) res)) (io, a)
  | _ => ((io, a), Done (Err SendFailed))
  end.

(** ** The calls that start or ask the engine *)

Definition take_tokens : W App (list AttestationToken) := fun '(io, a) =>
  ((io, set_attestation [] a), Done (a_attestation a)).

(** Start an engine on its thread: a core, a store for it, and what to answer. *)
Definition launch_core {A} (persist : option bytes) (mk : W unit Engine) (first : W Engine A) : W App (result (Engine * A) EngErr) :=
  fun '(io, a) =>
  match (core <~ mk; with_engine (_ <~ attach_disk persist; first) core) (io, tt) with
  | ((io', _), Done r) => ((io', a), Done (Ok r))
  | ((io', _), Failed e) => ((io', a), Done (Err e))
  | ((io', _), Blocked) => ((io', a), Blocked)
  end.

Definition create_contact_link (fuel : nat) : W App bytes := fun '(io, a) =>
  match a_backend a with
  | NoBackend =>
      match a_relay_cfg a with
      | None => (_ <~ dispatch (ConnectionStateChanged false); w_ret []) (io, a)
      | Some cfg =>
          (tokens <~ take_tokens;
           r <~ launch_core (a_persist a)
                  (r <~ rnd;
                   let s := default (ChatSession_new r (a_display_name a)) (restored_session a (disk io)) in
                   connect_with_session fuel (a_display_name a) (rc_addr cfg) (rc_fingerprint cfg) s tokens)
                  contact_link;
           match r with
           | Ok (core, link) => _ <~ w_set (set_backend (Actor core None)); w_ret link
           | Err _ => _ <~ dispatch (ConnectionStateChanged false); w_ret []
           end) (io, a)
      end
  | _ =>
      (r <~ ask_link;
       match r with
       | Some link => w_ret link
       | None => _ <~ dispatch (ConnectionStateChanged false); w_ret []
       end) (io, a)
  end.

Definition pair_with_link (fuel : nat) (link : bytes) : W App (result bytes EngineError) := fun '(io, a) =>
  if bool_decide (trim link = []) then ((io, a), Done (Err InvalidContactLink))
  else
    match a_backend a with
    | NoBackend =>
        (tokens <~ take_tokens;
         r <~ launch_core (a_persist a)
                (pair_with_link_using fuel (a_display_name a) link (restored_session a (disk io)) tokens)
                (w_ret tt);
         match r with
         | Ok (core, _) =>
             id <~ create_conversation (peer_name core);
             _ <~ w_set (set_backend (Actor core (Some id)));
             w_ret (Ok id)
         | Err (LinkErr _) | Err Base64Err => w_ret (Err InvalidContactLink)
         | Err _ => w_ret (Err RelayUnreachable)
         end) (io, a)
    | _ => ((io, a), Done (Err NotSupported))
    end.

Definition send (now : Z) (conv body : bytes) : W App (result unit EngineError) := fun '(io, a) =>
  match u_messages (a_ui a) !! conv with
  | None => ((io, a), Done (Err UnknownConversation))
  | Some _ =>
      match a_backend a with
      | NoBackend => ((io, a), Done (Err UnknownConversation))
      | _ => ask_send now body (io, a)
      end
  end.

Definition security_code (conv : bytes) : W App (result bytes EngineError) := fun '(io, a) =>
  match a_backend a with
  | NoBackend => ((io, a), Done (Err UnknownConversation))
  | _ => ask_safety_number (io, a)
  end.
End Ffi.
