(* ===== verification/FfiProps.v ===== *)
(** * Account recovery, end to end

    An enrollment gives a bundle from which a new device restores the account with
    the PIN or with any typing of the phrase; what changes the stored bundle keeps
    it restorable; a restore that fails leaves nothing behind. *)

From S2P Require Import Prelude Text External Proto RelayNet CoreBackup CoreSession CoreProps Engine Ffi.

Section Recovery.
Context {X : FfiExt} {AL : Argon2RecoveryLaws} {XL : XChaCha20Poly1305Laws} {SL : Sha256Laws} {LL : LowercaseLaws}
  {BB : BincodeLaws BackupBundle} {BP : BincodeLaws BackupPayload} {BS : BincodeLaws SessionSnapshot}.

(** A PIN is its own normal form, so no typing of a phrase is taken for a PIN. *)
Lemma pin_normalizes pin : validate_pin pin = true -> normalize_phrase pin = pin.
Proof.
  intros Hp. apply validate_pin_len in Hp as [Hl Hd].
  assert (Hv : Forall visible pin) by (eapply Forall_impl; [exact Hd|]; intros b Hb; unfold visible; simpl in Hb; lia).
  assert (Hn : pin <> []) by (intros ->; unfold len in Hl; simpl in Hl; lia).
  unfold normalize_phrase. change pin with (join_sp [pin]) at 1. rewrite split_join by (repeat constructor; done).
  simpl. rewrite lowercase_ascii by (eapply Forall_impl; [exact Hd|]; intros b Hb; simpl in Hb; lia).
  clear Hl Hv Hn. induction Hd as [|b pin Hb Hd IH]; [done|]. csimpl. rewrite IH. f_equal. unfold ascii_lower.
  destruct (Z.leb_spec 65 b); simpl; lia.
Qed.

(** What a user may type to recover: the PIN, or something that reads as the phrase. *)
Definition opens (pin phrase secret : bytes) : Prop :=
  secret = pin \/ (validate_pin secret = false /\ normalize_phrase secret = phrase).

Lemma phrase_typing words draws phrase secret :
  Forall word_ok words -> generate_phrase words draws = Some phrase ->
  normalize_phrase secret = phrase -> validate_pin secret = false.
Proof.
  intros Hw Hg Hn. destruct (validate_pin secret) eqn:Ev; [|done].
  rewrite (pin_normalizes _ Ev) in Hn. subst. by rewrite (phrase_not_pin _ _ _ Hw Hg) in Ev.
Qed.

(** A bundle both secrets open, with its payload and its proofs. *)
Record good_bundle (b : BackupBundle) (pin phrase bk payload : bytes) : Prop := {
  gb_pin_ok : validate_pin pin = true;
  gb_pin : unwrap_bk pin (bb_salt_p b) (bb_w_pin b) = Some (Ok bk);
  gb_phrase : unwrap_bk phrase (bb_salt_f b) (bb_w_phrase b) = Some (Ok bk);
  gb_blob : open_blob bk (bb_blob b) = Ok payload;
  gb_auth_pin : auth_hash pin (bb_salt_a b) = Some (bb_auth_pin b);
  gb_auth_phrase : auth_hash phrase (bb_salt_pa b) = Some (bb_auth_phrase b);
}.

(** The database of an enrolled device. *)
Definition enrolled (d : Disk) (pin phrase bk payload : bytes) : Prop :=
  len bk = 32 /\ Store_get (str "backup.bk") d = Some bk /\
  exists b, Store_get (str "backup.bundle") d = Some (bincode_serialize b) /\ good_bundle b pin phrase bk payload.

Lemma unwrap_with_opens b pin phrase bk payload secret :
  good_bundle b pin phrase bk payload -> opens pin phrase secret -> unwrap_with b secret = Some (Ok bk).
Proof.
  intros [G1 G2 G3 G4 G5 G6] [->|[Hv Hn]]; unfold unwrap_with; [by rewrite G1|]. by rewrite Hv, Hn.
Qed.

Lemma bundle_conversions b : bundle_to_core (bundle_from_core b) = b.
Proof. by destruct b. Qed.

(** The contents of the two tables after a transaction. *)
Lemma commit_get_new k v d : Store_get k (Store_commit true [(k, v)] [] d).1 = Some v.
Proof. unfold Store_get. simpl. apply lookup_insert_eq. Qed.
Lemma commit_get_other k k' v d : k <> k' -> Store_get k (Store_commit true [(k', v)] [] d).1 = Store_get k d.
Proof. intros Hk. unfold Store_get. simpl. by apply lookup_insert_ne. Qed.

(** Enrolling. *)
Lemma enroll_spec words draws bk r pin phrase a d payload :
  a_disk a = true -> random_ok r -> len bk = 32 -> validate_pin pin = true ->
  generate_phrase words draws = Some phrase -> len phrase < 2 ^ 32 -> backup_payload a d = Ok payload ->
  exists d' b, backup_enroll true words draws bk r pin a d = Some (d', Ok (phrase, bundle_from_core b)) /\
    good_bundle b pin phrase bk payload /\ enrolled d' pin phrase bk payload.
Proof.
  intros Ha Hr Hb Hp Hg Hl Hpay.
  destruct (build_bundle_spec r pin phrase bk payload Hr Hp Hl Hb) as (b & Eb & G1 & G2 & G3 & G4 & G5 & _).
  assert (HG : good_bundle b pin phrase bk payload) by by split.
  unfold backup_enroll. rewrite Hp, Ha, Hg. simpl. rewrite Hpay. simpl. rewrite Eb. simpl.
  eexists _, b. split; [reflexivity|]. split; [done|]. split; [done|]. unfold Store_get. simpl. split.
  - rewrite lookup_insert_ne by done. by rewrite lookup_insert_eq.
  - exists b. by rewrite lookup_insert_eq.
Qed.

(** Restoring from a good bundle. *)
Lemma restore_spec env cfg name key b pin phrase bk p secret :
  relay_config_from_env env = Some cfg -> len bk = 32 ->
  good_bundle b pin phrase bk (bincode_serialize p) -> opens pin phrase secret ->
  exists d a, new_from_backup true env name key None (bundle_from_core b) secret = Some (Some d, Ok a) /\
    a_display_name a = default name (bp_username p) /\ a_ui a = stub_ui (bp_contacts p) /\
    a_persist a = Some key /\ a_disk a = true /\ a_backend a = NoBackend /\ dk_key d = key /\
    Store_get (str "session") d = bp_identity p /\ Store_get (str "engine") d = None /\
    Store_get (str "ui.state") d = Some (bincode_serialize (a_ui a, a_seq a)) /\
    enrolled d pin phrase bk (bincode_serialize p).
Proof.
  intros He Hb HG Ho. unfold new_from_backup. rewrite bundle_conversions.
  rewrite (unwrap_with_opens _ _ _ _ _ _ HG Ho). simpl. rewrite (gb_blob _ _ _ _ _ HG).
  rewrite bincode_roundtrip_exact. destruct (bp_identity p) as [i|] eqn:Ei; unfold build; rewrite He; simpl;
    (eexists _, _; split; [reflexivity|]); unfold enrolled, Store_get; simpl;
    rewrite ?lookup_insert_eq; repeat (rewrite lookup_insert_ne by done); rewrite ?lookup_insert_eq, ?lookup_empty;
    repeat (split; [done|]); by exists b.
Qed.

(** C7: account recovery round trip. A device with a database enrolls under a PIN: it
    gets a phrase and a bundle, and from that bundle a new device restores the
    account with the PIN or with anything that reads as the phrase up to case and
    white space. The restored object carries the account's name, a stub for the
    first contact, and exactly the MLS identity of the old device with no group or
    ratchet state; it is enrolled with the same key, so that both secrets keep
    working; and the proofs the directory asks for match the uploaded hashes. *)
Theorem recovery_roundtrip words draws bk r pin phrase a d (os : option Session) env cfg name key secret :
  a_disk a = true -> Store_get (str "session") d = snapshot <$> os ->
  random_ok r -> len bk = 32 -> validate_pin pin = true ->
  Forall word_ok words -> generate_phrase words draws = Some phrase -> len phrase < 2 ^ 32 ->
  relay_config_from_env env = Some cfg -> (secret = pin \/ normalize_phrase secret = phrase) ->
  exists d1 b d2 a2 payload,
    backup_enroll true words draws bk r pin a d = Some (d1, Ok (phrase, b)) /\
    new_from_backup true env name key None b secret = Some (Some d2, Ok a2) /\
    a_display_name a2 = a_display_name a /\
    (c_display_name <$> u_conversations (a_ui a2)) = take 1 (c_display_name <$> u_conversations (a_ui a)) /\
    restored_session a2 d2 = identity_only <$> os /\
    enrolled d2 pin phrase bk payload /\
    backup_auth_proof pin (fb_salt_a b) = Some (fb_auth_pin b) /\
    backup_auth_proof phrase (fb_salt_pa b) = Some (fb_auth_phrase b).
Proof.
  intros Ha Hs Hr Hb Hp Hw Hg Hl He Hsec.
  set (p := mkPayload ((fun s => snapshot (identity_only s)) <$> os) (Some (a_display_name a))
              (c_display_name <$> u_conversations (a_ui a))).
  assert (Hpay : backup_payload a d = Ok (bincode_serialize p)).
  { unfold backup_payload. rewrite Hs. destruct os as [s|]; simpl; [|done]. by rewrite strip_snapshot. }
  destruct (enroll_spec words draws bk r pin phrase a d _ Ha Hr Hb Hp Hg Hl Hpay) as (d1 & b & E1 & HG & _).
  assert (Ho : opens pin phrase secret).
  { destruct Hsec as [->|Hn]; [by left|]. right. split; [by eapply phrase_typing|done]. }
  destruct (restore_spec env cfg name key b pin phrase bk p secret He Hb HG Ho)
    as (d2 & a2 & E2 & H1 & H2 & H3 & H4 & H5 & H6 & H7 & H8 & _ & H10).
  exists d1, (bundle_from_core b), d2, a2, (bincode_serialize p). split; [done|]. split; [done|]. split; [done|].
  split; [by rewrite H2; simpl; destruct (u_conversations (a_ui a))|]. split; [|split; [done|]].
  - unfold restored_session. rewrite H3. simpl. rewrite bool_decide_eq_true_2 by done. rewrite H8, H7. simpl.
    destruct os as [s|]; simpl; [|done]. by rewrite restore_snapshot.
  - unfold backup_auth_proof. destruct HG as [G1 G2 G3 G4 G5 G6]. rewrite G1. split; [done|].
    rewrite (phrase_not_pin _ _ _ Hw Hg), (normalize_generated _ _ _ Hw Hg). done.
Qed.

Lemma enrolled_commit d b pin phrase bk payload :
  len bk = 32 -> Store_get (str "backup.bk") d = Some bk -> good_bundle b pin phrase bk payload ->
  enrolled (Store_commit true [(str "backup.bundle", bincode_serialize b)] [] d).1 pin phrase bk payload.
Proof.
  intros Hb Hk HG. split; [done|]. split; [by rewrite commit_get_other|]. exists b. split; [apply commit_get_new|done].
Qed.

(** C37: whatever changes the stored bundle keeps the account recoverable. Refreshing it
    keeps both secrets and replaces the payload by the current one; changing the PIN
    installs the new PIN and keeps the phrase, the key and the payload; and both
    return the bundle they stored. *)
Theorem enrollment_maintained a d pin phrase bk payload :
  a_disk a = true -> enrolled d pin phrase bk payload ->
  (forall nonce payload', len nonce = NONCE_LEN -> backup_payload a d = Ok payload' ->
     exists d' b, backup_bundle_current true nonce a d = (d', Ok (Some (bundle_from_core b))) /\
       good_bundle b pin phrase bk payload' /\ enrolled d' pin phrase bk payload') /\
  (forall salt_p salt_a nonce new_pin, validate_pin new_pin = true -> len nonce = NONCE_LEN ->
     len salt_p = SALT_LEN -> len salt_a = SALT_LEN ->
     exists d' b, backup_rewrap_pin true salt_p salt_a nonce new_pin a d = Some (d', Ok (bundle_from_core b)) /\
       good_bundle b new_pin phrase bk payload /\ enrolled d' new_pin phrase bk payload /\
       backup_verify_secret new_pin a d' = Some (Ok true)).
Proof.
  intros Ha (Hb & Hk & b & Hs & [G1 G2 G3 G4 G5 G6]). split.
  - intros nonce payload' Hn Hpay. unfold backup_bundle_current. rewrite Ha, Hk, Hs, Hb. simpl.
    rewrite bincode_roundtrip_exact, Hpay. eexists _, _. split; [reflexivity|].
    assert (HG : good_bundle (with_blob (seal_blob bk nonce payload') b) pin phrase bk payload').
    { split; simpl; [done|done|done|by apply aead_roundtrip|done|done]. }
    split; [done|]. by apply enrolled_commit.
  - intros salt_p salt_a nonce new_pin Hp Hn Hsp Hsa. apply validate_pin_len in Hp as Hpl.
    destruct (derive_ok new_pin salt_p) as (k1 & D1 & _); [lia|done|].
    destruct (derive_ok new_pin salt_a) as (k2 & D2 & _); [lia|done|].
    unfold backup_rewrap_pin. rewrite Hp, Ha, Hk, Hs, Hb. simpl. rewrite bincode_roundtrip_exact.
    unfold wrap_bk, auth_hash. rewrite D1, D2. simpl. eexists _, _. split; [reflexivity|].
    match goal with |- good_bundle ?b' _ _ _ _ /\ _ => assert (HG : good_bundle b' new_pin phrase bk payload) end.
    { split; simpl; [done| |done|done|by unfold auth_hash; rewrite D2|done].
      apply (unwrap_wrap _ _ nonce); [done|done|by unfold wrap_bk; rewrite D1]. }
    split; [done|]. split; [by apply (enrolled_commit d)|].
    unfold backup_verify_secret. rewrite Ha. simpl. unfold Store_get. simpl. rewrite lookup_insert_eq, bincode_roundtrip_exact.
    rewrite (unwrap_with_opens _ _ _ _ _ new_pin HG) by by left. done.
Qed.

(** A restore that fails, for a wrong secret, a broken bundle, an existing database or
    a failed write, leaves the file as it was: no database where there was none, and
    an existing one is never touched. A restore that succeeds started without one. *)
Theorem restore_failure_no_trace ok env name key file bundle secret file' r :
  new_from_backup ok env name key file bundle secret = Some (file', r) ->
  match r with
  | Err _ => file' = file
  | Ok _ => file = None /\ exists d, file' = Some d /\ dk_key d = key
  end.
Proof.
  unfold new_from_backup. destruct (unwrap_with _ secret) as [[bk|]|]; simpl; [|by intros [= <- <-]|done].
  destruct (open_blob bk _) as [bs|]; [|by intros [= <- <-]].
  destruct (bincode_deserialize bs) as [p|]; [|by intros [= <- <-]].
  destruct file as [d|]; [by intros [= <- <-]|]. unfold Store_commit. destruct ok; [|by intros [= <- <-]].
  destruct (build _ _ _ _ _ _) as [a|]; simpl; [|done]. intros [= <- <-]. split; [done|]. eexists. split; [done|]. done.
Qed.

(** Opening the database with a wrong key fails and leaves it as it is; with the right
    key the object has exactly the conversations, messages and counter that were
    last written, and the engine is resumed when there is one. *)
Theorem new_persistent_resumes {BU : BincodeLaws (UiStore * Z)} env cfg name key d ui seq :
  relay_config_from_env env = Some cfg -> Store_get (str "ui.state") d = Some (bincode_serialize (ui, seq)) ->
  (key <> dk_key d -> new_persistent env name key (Some d) = Some (Some d, Err StorageFailed)) /\
  (exists a, new_persistent env name (dk_key d) (Some d) = Some (Some d, Ok a) /\ a_ui a = ui /\ a_seq a = seq /\
             (a_backend a = Resuming false <-> Store_get (str "engine") d <> None)).
Proof.
  intros He Hu. split.
  - intros Hk. unfold new_persistent. simpl. by rewrite bool_decide_eq_false_2 by done.
  - unfold new_persistent, build. simpl. rewrite bool_decide_eq_true_2 by done. rewrite Hu, bincode_roundtrip_exact, He. simpl.
    eexists. split; [reflexivity|]. destruct (Store_get (str "engine") d); simpl; naive_solver.
Qed.
End Recovery.
