(* ===== verification/FfiRun.v ===== *)
(** * The client object over time

    Every call and every turn of its threads, in any order and across restarts: what
    the conversations and messages keep, and that the listener gets every event once
    and in order. *)

From S2P Require Import Prelude Text External Proto CoreBackup CoreSession Engine EngineInv EngineProps Ffi.

(** ** What the engine leaves alone on disk *)

Section Frame.
Context {X : ClientExt}.

(** Everything but the engine's own rows of the table. *)
Definition foreign (k : bytes) : Prop := k <> str "engine" /\ k <> str "session".

Definition disk_frame (d d' : Disk) : Prop :=
  dk_key d' = dk_key d /\ forall k, foreign k -> Store_get k d' = Store_get k d.

Lemma disk_frame_refl d : disk_frame d d.
Proof. by split. Qed.
Lemma disk_frame_trans d1 d2 d3 : disk_frame d1 d2 -> disk_frame d2 d3 -> disk_frame d1 d3.
Proof. intros [E1 F1] [E2 F2]. split; [congruence|]. intros k Hk. by rewrite F2, F1. Qed.

Definition frame {S A} (m : W S A) : Prop := forall w, disk_frame (disk w.1) (disk (m w).1.1).

Lemma frame_seq {S A B} (m : W S A) (k : A -> W S B) : frame m -> (forall a, frame (k a)) -> frame (w_bind m k).
Proof.
  intros Hm Hk w. unfold w_bind. specialize (Hm w). destruct (m w) as [w' [a|x|]]; [|done|done].
  eapply disk_frame_trans; [exact Hm|apply Hk].
Qed.
Lemma frame_try {S A} (m : W S A) : frame m -> frame (w_try m).
Proof. intros Hm w. unfold w_try. specialize (Hm w). by destruct (m w) as [w' [a|x|]]. Qed.
Lemma frame_here {S A} (m : W S A) : (forall w, disk (m w).1.1 = disk w.1) -> frame m.
Proof. intros Hm w. rewrite Hm. apply disk_frame_refl. Qed.
Lemma frame_at {S A} (m : Io * S -> W S A) : (forall w0, frame (m w0)) -> frame (fun w => m w w).
Proof. intros Hm w. apply Hm. Qed.

Lemma frame_persist l : frame (persist l).
Proof.
  intros [io e]. unfold persist. destruct (store e); [|apply disk_frame_refl].
  unfold Store_commit. destruct (hd true (io_commits io)); simpl; [|apply disk_frame_refl].
  split; [done|]. intros k [H1 H2]. unfold Store_get. simpl. rewrite !lookup_insert_ne by done. done.
Qed.

Lemma frame_call {S} m : frame (@call S m).
Proof. apply frame_here. intros [io s]. unfold call, w_bind, note. simpl. by destruct (io_calls io). Qed.
End Frame.

Create HintDb frame.
#[export] Hint Resolve frame_seq frame_try frame_persist frame_call : frame.
#[export] Hint Extern 4 (frame (match ?x with _ => _ end)) => destruct x : frame.
Ltac frame_leaf :=
  apply frame_here; intros [? ?];
  cbv [w_ret w_fail w_block w_option w_result w_get w_set rnd connect_relay solve on_session session_read recv note mark_seen push_event];
  simpl; repeat case_match; done.
#[export] Hint Extern 6 (frame _) => frame_leaf : frame.

Section Frames.
Context {X : ClientExt}.

Lemma frame_reconnect n : frame (reconnect_loop n).
Proof. induction n as [|n IH]; simpl; unfold rc_subscribe; auto 20 with frame. Qed.
Lemma frame_try_ack q id : frame (try_ack q id).
Proof. unfold try_ack, rc_ack. auto 20 with frame. Qed.
Lemma frame_pump : frame pump_one.
Proof.
  unfold pump_one, apply_push, event_of, reconnect. auto 30 using frame_reconnect, frame_try_ack with frame.
Qed.
Lemma frame_next_event : frame next_event.
Proof.
  intros w. unfold next_event. generalize (S (S (length (io_pushes w.1)))). intros n. revert w.
  change (frame (next_event_loop n)). induction n as [|n IH]; simpl; auto 20 using frame_pump with frame.
Qed.
Lemma frame_await : frame await_pairing.
Proof.
  intros w. unfold await_pairing. generalize (S (length (io_pushes w.1))). intros n. revert w.
  change (frame (await_pairing_loop n)). unfold reconnect in *. induction n as [|n IH]; simpl;
    unfold reconnect; auto 30 using frame_reconnect, frame_try_ack with frame.
Qed.
Lemma frame_send m : frame (send_message m).
Proof.
  unfold send_message. repeat (apply frame_seq; [auto with frame|intros ?]).
  intros w. generalize (S (length (io_calls w.1))). intros n. revert w.
  match goal with |- forall w, disk_frame _ (disk (send_loop n ?q ?k ?e w).1.1) => change (frame (send_loop n q k e)) end.
  induction n as [|n IH]; simpl; unfold rc_send_to_group_inbox, reconnect; auto 20 using frame_reconnect with frame.
Qed.
Lemma frame_contact_link : frame contact_link.
Proof. unfold contact_link. auto 20 with frame. Qed.
Lemma frame_connect {S} fuel name addr fp s tokens : frame (@connect_with_session X S fuel name addr fp s tokens).
Proof. unfold connect_with_session, rc_create_mailbox, create_queue_with_pow, rc_subscribe. auto 20 with frame. Qed.
Lemma frame_with_engine {S A} (m : W Engine A) e : frame m -> frame (@with_engine X S A m e).
Proof. intros Hm [io s]. unfold with_engine. specialize (Hm (io, e)). by destruct (m (io, e)) as [[io' e'] [a|x|]]. Qed.
Lemma frame_pair {S} fuel name link s tokens : frame (@pair_with_link_using X S fuel name link s tokens).
Proof.
  unfold pair_with_link_using, found_group, rc_create_group_inbox, create_queue_with_pow, rc_send_to_mailbox.
  auto 40 using frame_connect, frame_with_engine with frame.
Qed.
Lemma frame_attach : frame attach_store.
Proof. unfold attach_store. auto with frame. Qed.
Lemma frame_resume : frame (@resume X unit).
Proof.
  intros [io s]. unfold resume.
  match goal with |- context [w_bind ?m ?k (io, s)] => assert (Hc : frame (w_bind m k)) end.
  { unfold rc_subscribe. auto 30 with frame. }
  exact (Hc (io, s)).
Qed.
End Frames.

(** ** Conversations and messages *)

(** A row per message list, and message ids that were handed out. *)
Record ui_ok (u : UiStore) (seq : Z) : Prop := {
  uo_ids : NoDup (c_id <$> u_conversations u);
  uo_rows : forall c, c ∈ c_id <$> u_conversations u <-> is_Some (u_messages u !! c);
  uo_unique : forall c ms, u_messages u !! c = Some ms -> NoDup (m_id <$> ms);
  uo_used : forall c ms m, u_messages u !! c = Some ms -> m ∈ ms -> exists k, 0 <= k < seq /\ m_id m = str "msg-" ++ decimal k;
}.

Lemma ui_ok_default seq : ui_ok UiStore_default seq.
Proof.
  split; simpl; [constructor| |by intros c ms H; rewrite lookup_empty in H|by intros c ms m H; rewrite lookup_empty in H].
  intros c. rewrite lookup_empty. split; [by intros H%elem_of_nil|by intros [? [=]]].
Qed.

Lemma ui_ok_mono u seq seq' : seq <= seq' -> ui_ok u seq -> ui_ok u seq'.
Proof.
  intros Hs [H1 H2 H3 H4]. split; [done|done|done|]. intros c ms m Hc Hm.
  destruct (H4 c ms m Hc Hm) as (k & Hk & E). exists k. split; [lia|done].
Qed.

Lemma update_first_ids p f (l : list Conversation) : (forall c, c_id (f c) = c_id c) -> c_id <$> update_first p f l = c_id <$> l.
Proof. intros Hf. induction l as [|c l IH]; simpl; [done|]. destruct (p c); csimpl; by rewrite ?Hf, ?IH. Qed.

Lemma update_first_None p f (l : list Conversation) : existsb p l = false -> update_first p f l = l.
Proof. induction l as [|c l IH]; simpl; [done|]. destruct (p c); simpl; [done|]. intros H. by rewrite IH. Qed.

Lemma existsb_has_id id l : existsb (has_id id) l = true <-> id ∈ c_id <$> l.
Proof.
  rewrite existsb_exists. rewrite list_elem_of_fmap. unfold has_id. split.
  - intros (c & Hc & E%bool_decide_eq_true). exists c. by rewrite list_elem_of_In.
  - intros (c & -> & Hc). exists c. rewrite bool_decide_eq_true. by rewrite <- list_elem_of_In.
Qed.

Lemma ui_ok_upsert n u seq : ui_ok u seq -> ui_ok (upsert n u) seq.
Proof.
  intros [H1 H2 H3 H4].
  assert (Hms : forall c ms, u_messages (upsert n u) !! c = Some ms -> ms = [] \/ u_messages u !! c = Some ms).
  { intros c ms. simpl. destruct (u_messages u !! CONVERSATION_ID); [by right|].
    intros [[<- <-]|[_ ?]]%lookup_insert_Some; [by left|by right]. }
  assert (Hids : forall c, c ∈ c_id <$> u_conversations (upsert n u) <-> c = CONVERSATION_ID \/ c ∈ c_id <$> u_conversations u).
  { intros c. simpl. destruct (existsb _ _) eqn:E.
    - rewrite update_first_ids by done. apply existsb_has_id in E. set_solver.
    - rewrite fmap_app. simpl. set_solver. }
  split.
  - simpl. destruct (existsb _ _) eqn:E; [by rewrite update_first_ids|].
    rewrite fmap_app. apply NoDup_app. split; [done|]. split; [|apply NoDup_singleton].
    intros c Hc ->%list_elem_of_singleton. apply existsb_has_id in Hc. simpl in *. congruence.
  - intros c. rewrite Hids, H2. simpl. destruct (u_messages u !! CONVERSATION_ID) as [ms|] eqn:E.
    + split; [intros [->|?]; [by eexists|done]|by right].
    + rewrite lookup_insert_is_Some. split; [intros [->|?]; [by left|]|].
      * destruct (decide (CONVERSATION_ID = c)); [by left|by right].
      * intros [->|[_ ?]]; [by left|by right].
  - intros c ms [->|Hc]%Hms; [constructor|by eapply H3].
  - intros c ms m [->|Hc]%Hms Hm; [by apply elem_of_nil in Hm|by eapply H4].
Qed.

(** Recording a message under a fresh id. *)
Lemma ui_ok_record conv m f u seq :
  (forall c, c_id (f c) = c_id c) -> m_id m = str "msg-" ++ decimal seq -> 0 <= seq < 10 ^ 20 - 1 ->
  ui_ok u seq -> ui_ok (record conv m f u) (seq + 1).
Proof.
  intros Hf Hm Hs [H1 H2 H3 H4]. unfold record. split; simpl.
  - by rewrite update_first_ids.
  - intros c. rewrite update_first_ids by done. rewrite H2. destruct (u_messages u !! conv) as [ms|] eqn:E; [|done].
    rewrite lookup_insert_is_Some. destruct (decide (conv = c)) as [->|]; [|naive_solver]. rewrite E. naive_solver.
  - intros c ms Hc. destruct (u_messages u !! conv) as [ms0|] eqn:E; [|by eapply H3].
    apply lookup_insert_Some in Hc as [[-> <-]|[_ Hc]]; [|by eapply H3].
    rewrite fmap_app. apply NoDup_app. split; [by eapply H3|]. split; [|apply NoDup_singleton].
    intros i Hi ->%list_elem_of_singleton. apply list_elem_of_fmap in Hi as (m' & Ei & Hm').
    destruct (H4 _ _ _ E Hm') as (k & Hk & Ek). rewrite Ek, Hm in Ei.
    apply app_inv_head in Ei. apply decimal_inj in Ei; lia.
  - intros c ms m' Hc Hm'. destruct (u_messages u !! conv) as [ms0|] eqn:E.
    + apply lookup_insert_Some in Hc as [[-> <-]|[_ Hc]].
      * apply elem_of_app in Hm' as [Hm'| ->%list_elem_of_singleton].
        -- destruct (H4 _ _ _ E Hm') as (k & Hk & Ek). exists k. split; [lia|done].
        -- exists seq. split; [lia|done].
      * destruct (H4 _ _ _ Hc Hm') as (k & Hk & Ek). exists k. split; [lia|done].
    + destruct (H4 _ _ _ Hc Hm') as (k & Hk & Ek). exists k. split; [lia|done].
Qed.

Lemma ui_ok_update p f u seq :
  (forall c, c_id (f c) = c_id c) -> ui_ok u seq -> ui_ok (mkUi (update_first p f (u_conversations u)) (u_messages u)) seq.
Proof. intros Hf [H1 H2 H3 H4]. split; simpl; rewrite ?update_first_ids by done; done. Qed.

(** ** Relations that computations of the object respect *)

Section Ens.
Context {X : FfiExt} (R : Io * App -> Io * App -> Prop) {HR : PreOrder R}.

Definition ens {A} (m : W App A) : Prop := forall w, R w (m w).1.

Lemma ens_bind {A B} (m : W App A) (k : A -> W App B) : ens m -> (forall a, ens (k a)) -> ens (w_bind m k).
Proof.
  intros Hm Hk w. unfold w_bind. specialize (Hm w). destruct (m w) as [w' [a|x|]]; [|done|done].
  etransitivity; [exact Hm|apply Hk].
Qed.
Lemma ens_ret {A} (a : A) : ens (w_ret a).
Proof. intros w. reflexivity. Qed.
Lemma ens_set f : (forall io a, R (io, a) (io, f a)) -> ens (w_set f).
Proof. intros Hf [io a]. apply Hf. Qed.

(** The engine's computations: the script and the disk move on, and the backend. *)
Hypothesis R_core : forall io io' a b, disk_frame (disk io) (disk io') -> R (io, a) (io', set_backend b a).
Hypothesis R_io : forall io io' a, disk_frame (disk io) (disk io') -> R (io, a) (io', a).
Hypothesis R_post : forall io a e, R (io, a) (io, post (DEvent e) a).
Hypothesis R_tokens : forall io a t, R (io, a) (io, set_attestation t a).
Hypothesis R_create : forall n, ens (create_conversation n).

Lemma ens_backend b : ens (w_set (set_backend b)).
Proof. apply ens_set. intros io a. apply R_core, disk_frame_refl. Qed.
Lemma ens_dispatch e : ens (dispatch e).
Proof. apply ens_set. intros io a. apply R_post. Qed.
Lemma ens_core {A} core conv (m : W Engine A) : frame m -> ens (with_core core conv m).
Proof.
  intros Hm [io a]. unfold with_core. specialize (Hm (io, core)).
  destruct (m (io, core)) as [[io' core'] [x|e|]]; by apply R_core.
Qed.
Lemma ens_launch {A} p (mk : W unit Engine) (first : W Engine A) : frame mk -> frame first -> ens (launch_core p mk first).
Proof.
  intros Hm Hf [io a]. unfold launch_core.
  match goal with |- context [w_bind mk ?k] => assert (Hfr : frame (w_bind mk k)) end.
  { apply frame_seq; [done|]. intros core. apply frame_with_engine. apply frame_seq; [|done].
    intros [io0 e0]. unfold attach_disk. destruct p as [key|]; [|apply disk_frame_refl].
    destruct (Store_open _ _); [apply (frame_attach (io0, e0))|apply disk_frame_refl]. }
  specialize (Hfr (io, tt)). destruct (w_bind mk _ (io, tt)) as [[io' u] [x|e|]]; by apply R_io.
Qed.
Lemma ens_take : ens take_tokens.
Proof. intros [io a]. apply R_tokens. Qed.
Lemma ens_stop : ens stop_offline.
Proof. apply ens_bind; [apply ens_dispatch|]. intros ?. apply ens_backend. Qed.
Lemma ens_top core conv : ens (actor_top core conv).
Proof.
  unfold actor_top. destruct conv; [apply ens_ret|]. destruct (is_paired core); [|apply ens_ret].
  apply ens_bind; [apply R_create|]. intros id. apply ens_bind; [apply ens_backend|]. intros ?. apply ens_ret.
Qed.

(** Calls and turns that hand out no message id. *)
Lemma ens_link fuel : ens (create_contact_link fuel).
Proof.
  intros [io a]. unfold create_contact_link.
  assert (Hoff : ens (_ <~ dispatch (ConnectionStateChanged false); w_ret ([] : bytes))).
  { apply ens_bind; [apply ens_dispatch|]. intros ?. apply ens_ret. }
  assert (Hask : ens ask_link).
  { intros [io0 a0]. unfold ask_link. destruct (a_backend a0); try reflexivity.
    apply ens_bind; [apply ens_top|]. intros cv. apply ens_bind; [apply ens_core, frame_contact_link|]. intros r. apply ens_ret. }
  assert (Hrun : ens (r <~ ask_link; match r with Some link => w_ret link
                      | None => _ <~ dispatch (ConnectionStateChanged false); w_ret [] end)).
  { apply ens_bind; [done|]. intros [link|]; [apply ens_ret|done]. }
  destruct (a_backend a); try apply Hrun. destruct (a_relay_cfg a) as [cfg|]; [|apply Hoff].
  apply (ens_bind take_tokens); [apply ens_take|]. intros tokens. apply ens_bind.
  - apply ens_launch; [|apply frame_contact_link]. apply frame_seq; [auto with frame|]. intros r. apply frame_connect.
  - intros [[core link]|e]; [|done]. apply ens_bind; [apply ens_backend|]. intros ?. apply ens_ret.
Qed.

Lemma ens_pair fuel link : ens (pair_with_link fuel link).
Proof.
  intros [io a]. unfold pair_with_link. destruct (bool_decide _); [reflexivity|]. destruct (a_backend a); try reflexivity.
  apply (ens_bind take_tokens); [apply ens_take|]. intros tokens. apply ens_bind.
  - apply ens_launch; [apply frame_pair|auto with frame].
  - intros [[core u]|[]]; try apply ens_ret. apply ens_bind; [apply R_create|]. intros id.
    apply ens_bind; [apply ens_backend|]. intros ?. apply ens_ret.
Qed.

Lemma ens_code conv : ens (security_code conv).
Proof.
  intros [io a]. unfold security_code, ask_safety_number. destruct (a_backend a); try reflexivity.
  apply ens_bind; [apply ens_top|]. intros ?. apply ens_ret.
Qed.

Lemma ens_resume : ens resume_turn.
Proof.
  intros [io a]. unfold resume_turn. destruct (a_backend a) as [|rep| |] eqn:E; try reflexivity.
  destruct (a_persist a) as [key|]; [|reflexivity].
  assert (Hd : disk_frame (disk io) (disk (match Store_open key (Some (disk io)) with
      Err _ => ((io, tt), Failed OtherErr) | Ok _ => resume (io, tt) end).1.1)).
  { destruct (Store_open _ _); [apply (frame_resume (io, tt))|apply disk_frame_refl]. }
  destruct (match Store_open key _ with Err _ => _ | Ok _ => _ end) as [[io' []] [core|e|]]; simpl in Hd.
  - destruct rep; [etransitivity; [apply R_post|]|]; by apply R_core.
  - destruct rep; [|etransitivity; [apply R_post|]]; by apply R_core.
  - by apply R_io.
Qed.
End Ens.

(** ** Events are only ever posted *)

Section Posts.
Context {X : FfiExt}.

Definition posts (w w' : Io * App) : Prop :=
  (exists evs, a_channel w'.2 = a_channel w.2 ++ (DEvent <$> evs)) /\
  a_buffer w'.2 = a_buffer w.2 /\ a_delivered w'.2 = a_delivered w.2 /\ a_listener w'.2 = a_listener w.2.

#[export] Instance posts_preorder : PreOrder posts.
Proof.
  split.
  - intros w. split; [exists []; by rewrite app_nil_r|done].
  - intros w1 w2 w3 ((e1 & E1) & B1 & D1 & L1) ((e2 & E2) & B2 & D2 & L2). split; [|by rewrite B2, D2, L2].
    exists (e1 ++ e2). by rewrite E2, E1, fmap_app, app_assoc.
Qed.

Lemma posts_same io io' a a' :
  a_channel a' = a_channel a -> a_buffer a' = a_buffer a -> a_delivered a' = a_delivered a -> a_listener a' = a_listener a ->
  posts (io, a) (io', a').
Proof. intros E1 E2 E3 E4. split; [exists []; simpl; by rewrite app_nil_r|done]. Qed.

Lemma posts_one io a e : posts (io, a) (io, post (DEvent e) a).
Proof. split; [by exists [e]|done]. Qed.

Lemma posts_persist : ens posts persist_ui.
Proof.
  intros [io a]. unfold persist_ui, Store_commit. destruct (a_disk a); [|reflexivity].
  destruct (hd true (io_commits io)); by apply posts_same.
Qed.
Lemma posts_id : ens posts next_msg_id.
Proof. intros [io a]. by apply posts_same. Qed.
Lemma posts_ui f : ens posts (w_set (fun a => set_ui (f a) a)).
Proof. apply ens_set. intros io a. by apply posts_same. Qed.
Lemma posts_dispatch e : ens posts (dispatch e).
Proof. apply ens_dispatch. apply posts_one. Qed.
Lemma posts_create n : ens posts (create_conversation n).
Proof.
  apply ens_bind; [apply _|apply posts_ui|]. intros ?. apply ens_bind; [apply _|apply posts_persist|]. intros ?.
  apply ens_bind; [apply _|apply posts_dispatch|]. intros ?. by apply ens_ret, _.
Qed.
Lemma posts_core io io' a b : disk_frame (disk io) (disk io') -> posts (io, a) (io', set_backend b a).
Proof. intros _. by apply posts_same. Qed.
Lemma posts_forward now ev c : ens posts (forward_event now ev c).
Proof.
  destruct ev; simpl; try apply posts_dispatch. apply ens_bind; [apply _|apply posts_id|]. intros id.
  apply ens_bind; [apply _|apply posts_ui|]. intros ?. apply ens_bind; [apply _|apply posts_persist|]. intros ?.
  apply posts_dispatch.
Qed.
Lemma posts_top core conv : ens posts (actor_top core conv).
Proof. apply ens_top; [apply _|intros; by apply posts_core|apply posts_create]. Qed.

Lemma posts_turn now : ens posts (actor_turn now).
Proof.
  assert (Hst : ens posts stop_offline) by (apply ens_stop; [apply _|intros; by apply posts_core|apply posts_one]).
  intros [io a]. unfold actor_turn. destruct (a_backend a); try reflexivity.
  apply (ens_bind posts (actor_top core conversation)); [apply posts_top|]. intros [c|].
  - apply ens_bind; [apply _|apply ens_core; [intros; by apply posts_core|apply frame_next_event]|].
    intros [ev|e]; [apply posts_forward|done].
  - apply ens_bind; [apply _|apply ens_core; [intros; by apply posts_core|apply frame_await]|].
    intros [ev|e]; [by apply ens_ret, _|done].
Qed.

Lemma posts_send now conv body : ens posts (send now conv body).
Proof.
  intros [io a]. unfold send, ask_send. destruct (u_messages _ !! conv); [|reflexivity]. destruct (a_backend a); try reflexivity.
  apply (ens_bind posts (actor_top core conversation)); [apply posts_top|]. intros cv.
  destruct (negb (is_paired core)); [by apply ens_ret, _|].
  apply ens_bind; [apply _|apply ens_core; [intros; by apply posts_core|apply frame_send]|]. intros res.
  apply ens_bind; [apply _|apply posts_id|]. intros id.
  apply ens_bind; [apply _|apply posts_ui|]. intros ?. apply ens_bind; [apply _|apply posts_persist|]. intros ?.
  apply ens_bind; [apply _|apply posts_dispatch|]. intros ?. by apply ens_ret, _.
Qed.

Lemma posts_verify conv : ens posts (mark_verified conv).
Proof.
  intros [io a]. unfold mark_verified. destruct (existsb _ _); [|reflexivity].
  apply (ens_bind posts (w_set _)); [apply posts_ui|]. intros ?. apply ens_bind; [apply _|apply posts_persist|]. intros ?.
  apply ens_bind; [apply _|apply posts_dispatch|]. intros ?. by apply ens_ret, _.
Qed.

(** ** Runs of the object *)

Inductive app_call :=
| CLink (fuel : nat) | CPair (fuel : nat) (link : bytes) | CSend (now : Z) (conv body : bytes)
| CVerify (conv : bytes) | CCode (conv : bytes) | CStock (tokens : list FfiToken) | CListen
| TActor (now : Z) | TResume | TDispatch.

(** A call, or a turn of one of the threads. *)
Definition app_act (c : app_call) (w : Io * App) : Io * App :=
  match c with
  | CLink fuel => (create_contact_link fuel w).1
  | CPair fuel link => (pair_with_link fuel link w).1
  | CSend now conv body => (send now conv body w).1
  | CVerify conv => (mark_verified conv w).1
  | CCode conv => (security_code conv w).1
  | CStock tokens => (w.1, stock_attestation_tokens tokens w.2)
  | CListen => (w.1, set_listener w.2)
  | TActor now => (actor_turn now w).1
  | TResume => (resume_turn w).1
  | TDispatch => (w.1, dispatch_turn w.2)
  end.

Definition app_run (cs : list (app_call * Io)) (w : Io * App) : Io * App :=
  foldl (fun w '(c, inp) => app_act c (feed inp w.1, w.2)) w cs.

(** Everything posted so far, in order: delivered, buffered, or in the channel. *)
Definition in_channel (m : DispatchMsg) : option EngineEvent := match m with DEvent e => Some e | ListenerChanged => None end.
Definition pipeline (a : App) : list EngineEvent := a_delivered a ++ a_buffer a ++ omap in_channel (a_channel a).

(** A registered listener is never left waiting: buffered events have a message
    behind them that flushes the buffer. *)
Definition attentive (a : App) : Prop := a_listener a = true -> a_buffer a = [] \/ a_channel a <> [].

Lemma omap_events (evs : list EngineEvent) : omap in_channel (DEvent <$> evs) = evs.
Proof. induction evs as [|e evs IH]; [done|]. csimpl. by rewrite IH. Qed.

Lemma posts_pipeline w w' : posts w w' ->
  (exists evs, pipeline w'.2 = pipeline w.2 ++ evs) /\ a_delivered w'.2 = a_delivered w.2 /\ (attentive w.2 -> attentive w'.2).
Proof.
  intros ((evs & E) & B & D & L). split; [|split; [done|]].
  - exists evs. unfold pipeline. by rewrite E, B, D, omap_app, omap_events, !app_assoc.
  - unfold attentive. rewrite B, L, E. intros H Hl. destruct (H Hl) as [?|?]; [by left|right].
    intros [? _]%app_eq_nil. done.
Qed.

Lemma act_posts c w : match c with CListen | TDispatch => True | _ => posts w (app_act c w) end.
Proof.
  destruct w as [io a], c; cbn [app_act]; try exact Logic.I.
  - apply (ens_link posts); [intros; by apply posts_core|intros; by apply posts_same|apply posts_one|
                             intros; by apply posts_same|apply posts_create].
  - apply (ens_pair posts); [intros; by apply posts_core|intros; by apply posts_same|
                             intros; by apply posts_same|apply posts_create].
  - apply posts_send.
  - apply posts_verify.
  - apply (ens_code posts); [intros; by apply posts_core|apply posts_create].
  - by apply posts_same.
  - apply posts_turn.
  - apply (ens_resume posts); [intros; by apply posts_core|intros; by apply posts_same|apply posts_one].
Qed.

Lemma pipeline_act c w :
  (exists evs, pipeline (app_act c w).2 = pipeline w.2 ++ evs) /\
  (exists done, a_delivered (app_act c w).2 = a_delivered w.2 ++ done) /\
  (attentive w.2 -> attentive (app_act c w).2).
Proof.
  pose proof (act_posts c w) as Hp.
  assert (H : posts w (app_act c w) -> (exists evs, pipeline (app_act c w).2 = pipeline w.2 ++ evs) /\
            (exists done, a_delivered (app_act c w).2 = a_delivered w.2 ++ done) /\
            (attentive w.2 -> attentive (app_act c w).2)).
  { intros (He & Hd & Ha)%posts_pipeline. split; [done|]. split; [exists []; by rewrite app_nil_r|done]. }
  destruct w as [io a], c; try exact (H Hp); clear H Hp; cbn [app_act fst snd].
  - unfold set_listener, post, pipeline, attentive. simpl. split; [|split].
    + exists []. rewrite omap_app. simpl. by rewrite !app_nil_r.
    + exists []. by rewrite app_nil_r.
    + intros _ _. right. by intros [_ ?]%app_eq_nil.
  - unfold dispatch_turn, pipeline, attentive. destruct (a_channel a) as [|m ms] eqn:E.
    + rewrite E. split; [exists []; by rewrite !app_nil_r|]. split; [exists []; by rewrite app_nil_r|done].
    + destruct (a_listener a) eqn:El; simpl.
      * split; [exists []; destruct m; simpl; by rewrite ?app_nil_r, <- !app_assoc|]. split; [by eexists|by left].
      * split; [exists []; destruct m; simpl; by rewrite ?app_nil_r, <- ?app_assoc|]. split; [exists []; by rewrite app_nil_r|].
        by intros _ [=].
Qed.

Lemma pipeline_run cs w :
  (exists evs, pipeline (app_run cs w).2 = pipeline w.2 ++ evs) /\
  (exists done, a_delivered (app_run cs w).2 = a_delivered w.2 ++ done) /\
  (attentive w.2 -> attentive (app_run cs w).2).
Proof.
  revert w. induction cs as [|[c inp] cs IH]; intros w; cbn [app_run foldl].
  - split; [exists []; by rewrite app_nil_r|]. split; [exists []; by rewrite app_nil_r|done].
  - destruct (pipeline_act c (feed inp w.1, w.2)) as ((e1 & E1) & (d1 & D1) & A1).
    destruct (IH (app_act c (feed inp w.1, w.2))) as ((e2 & E2) & (d2 & D2) & A2). cbn [fst snd] in *. unfold app_run in *.
    split; [exists (e1 ++ e2); by rewrite E2, E1, app_assoc|]. split; [exists (d1 ++ d2); by rewrite D2, D1, app_assoc|].
    intros H. by apply A2, A1.
Qed.

Lemma drain_dispatch n a :
  a_listener a = true -> attentive a -> (length (a_channel a) <= n)%nat ->
  let a' := Nat.iter n dispatch_turn a in a_delivered a' = pipeline a /\ a_buffer a' = [] /\ a_channel a' = [].
Proof.
  revert a. induction n as [|n IH]; intros a Hl Ha Hn; cbn zeta.
  - destruct (a_channel a) eqn:E; [|simpl in Hn; lia]. simpl. destruct (Ha Hl) as [Hb|?]; [|done].
    unfold pipeline. by rewrite E, Hb, !app_nil_r.
  - rewrite Nat.iter_succ_r. destruct (pipeline_act TDispatch (mkIo [] [] [] [] [] [] (mkDisk [] ∅ ∅), a)) as ((evs & E) & _ & Hat).
    cbn [app_act fst snd] in *.
    assert (Hp : pipeline (dispatch_turn a) = pipeline a /\ a_listener (dispatch_turn a) = true /\ (length (a_channel (dispatch_turn a)) <= n)%nat).
    { unfold dispatch_turn, pipeline. destruct (a_channel a) as [|m ms] eqn:Ec; [by rewrite Ec, Hl; simpl; repeat split; lia|].
      rewrite Hl. simpl in *. split; [destruct m; simpl; by rewrite ?app_nil_r, <- !app_assoc|]. split; [done|lia]. }
    destruct Hp as (Hp & Hl' & Hn'). rewrite <- Hp. apply IH; [done|by apply Hat|done].
Qed.

(** C30: the listener gets every event exactly once and in order. From a new object on, over
    any interleaving of calls, turns of the engine's thread and turns of the dispatch
    thread, the delivered events followed by the waiting ones are exactly the events
    posted so far: deliveries only ever extend, nothing is reordered, dropped or
    repeated, whenever the listener is registered. Once it is, the dispatch thread
    delivers everything in as many turns as there are messages in the channel. *)
Theorem events_delivered_once env name persist has_disk ui seq a1 b io cs cs' :
  build env name persist has_disk ui seq = Some a1 ->
  let a0 := set_backend b a1 in
  let a := (app_run cs (io, a0)).2 in
  let a' := (app_run cs' (app_run cs (io, a0))).2 in
  (exists evs, pipeline a' = pipeline a ++ evs) /\ (exists more, a_delivered a' = a_delivered a ++ more) /\
  (a_listener a' = true ->
   a_delivered (Nat.iter (length (a_channel a')) dispatch_turn a') = pipeline a').
Proof.
  intros Hb a0. cbn zeta. destruct (pipeline_run cs' (app_run cs (io, a0))) as (He & Hd & _). split; [done|]. split; [done|].
  intros Hl.
  assert (Ha0 : attentive a0).
  { unfold build in Hb. destruct (relay_config_from_env env); simplify_eq/=. by left. }
  apply drain_dispatch; [done| |done].
  apply (proj2 (proj2 (pipeline_run cs' (app_run cs (io, a0))))). by apply (proj2 (proj2 (pipeline_run cs (io, a0)))).
Qed.
End Posts.
