(* ===== verification/FfiUi.v ===== *)
(** * What the conversations keep

    The invariant of conversations and messages over every call, turn and restart;
    what sending and receiving record; and where the interface does not keep what
    its comments say. *)

From S2P Require Import Prelude Text External Proto CoreBackup CoreSession CoreProps Engine EngineInv EngineProps EnginePair Ffi FfiProps FfiRun.

Section Ui.
Context {X : FfiExt} {BU : BincodeLaws (UiStore * Z)}.

(** The written state is an earlier one of the same kind. *)
Definition saved_ok (seq : Z) (d : Disk) : Prop :=
  forall blob, Store_get (str "ui.state") d = Some blob ->
  exists u n, blob = bincode_serialize (u, n) /\ ui_ok u n /\ 1 <= n <= seq.

Record app_ok (w : Io * App) : Prop := {
  ao_ui : ui_ok (a_ui w.2) (a_seq w.2);
  ao_seq : 1 <= a_seq w.2;
  ao_disk : a_disk w.2 = true -> saved_ok (a_seq w.2) (disk w.1);
}.

(** No id is handed out, and the invariant stays. *)
Definition stays (w w' : Io * App) : Prop :=
  a_seq w'.2 = a_seq w.2 /\ a_disk w'.2 = a_disk w.2 /\ (app_ok w -> app_ok w').

#[export] Instance stays_preorder : PreOrder stays.
Proof.
  split; [by intros w|]. intros w1 w2 w3 (S1 & D1 & I1) (S2 & D2 & I2). split; [congruence|]. split; [congruence|]. auto.
Qed.

Lemma ui_state_foreign : foreign (str "ui.state").
Proof. by split. Qed.

Lemma stays_same io io' a a' :
  a_ui a' = a_ui a -> a_seq a' = a_seq a -> a_disk a' = a_disk a -> disk_frame (disk io) (disk io') -> stays (io, a) (io', a').
Proof.
  intros E1 E2 E3 [_ F]. split; [done|]. split; [done|]. intros [H1 H2 H3]. simpl in *. split; simpl; rewrite ?E1, ?E2, ?E3; [done|done|].
  intros Hd blob. rewrite (F _ ui_state_foreign). by apply H3.
Qed.

Lemma stays_persist : ens stays persist_ui.
Proof.
  intros [io a]. unfold persist_ui, Store_commit. destruct (a_disk a) eqn:Ed; [|reflexivity].
  destruct (hd true (io_commits io)); [|apply stays_same; done].
  split; [done|]. split; [done|]. intros [H1 H2 H3]. simpl in *. split; simpl; [done|done|].
  intros _ blob. unfold Store_get. simpl. rewrite lookup_insert_eq. intros [= <-]. exists (a_ui a), (a_seq a).
  split; [done|]. split; [done|lia].
Qed.

Lemma stays_ui f : (forall a, ui_ok (a_ui a) (a_seq a) -> ui_ok (f a) (a_seq a)) -> ens stays (w_set (fun a => set_ui (f a) a)).
Proof.
  intros Hf [io a]. split; [done|]. split; [done|]. intros [H1 H2 H3]. split; simpl; [by apply Hf|done|done].
Qed.
Lemma stays_post io a e : stays (io, a) (io, post e a).
Proof. by apply stays_same. Qed.
Lemma stays_core io io' a b : disk_frame (disk io) (disk io') -> stays (io, a) (io', set_backend b a).
Proof. intros. by apply stays_same. Qed.
Lemma stays_dispatch e : ens stays (dispatch e).
Proof. apply ens_dispatch. intros. apply stays_post. Qed.

Lemma stays_create n : ens stays (create_conversation n).
Proof.
  apply ens_bind; [apply _|apply (stays_ui (fun a => upsert _ (a_ui a))); intros a; apply ui_ok_upsert|]. intros ?.
  apply ens_bind; [apply _|apply stays_persist|]. intros ?.
  apply ens_bind; [apply _|apply stays_dispatch|]. intros ?. by apply ens_ret, _.
Qed.
Lemma stays_top core conv : ens stays (actor_top core conv).
Proof. apply ens_top; [apply _|apply stays_core|apply stays_create]. Qed.

(** *** Steps that hand out an id *)

(** At most one id, and the invariant as long as the counter does not wrap. *)
Definition advances (w w' : Io * App) : Prop :=
  a_disk w'.2 = a_disk w.2 /\
  (app_ok w -> a_seq w.2 + 1 < 2 ^ 64 -> app_ok w' /\ a_seq w.2 <= a_seq w'.2 <= a_seq w.2 + 1).

Lemma stays_advances w w' : stays w w' -> advances w w'.
Proof. intros (S1 & D1 & I1). split; [done|]. intros Ho Hs. split; [auto|lia]. Qed.

Lemma adv_stay {A} (m : W App A) : ens stays m -> ens advances m.
Proof. intros Hm w. by apply stays_advances. Qed.
Lemma adv_bind {A B} (m : W App A) (k : A -> W App B) : ens stays m -> (forall a, ens advances (k a)) -> ens advances (w_bind m k).
Proof.
  intros Hm Hk w. unfold w_bind. specialize (Hm w). destruct (m w) as [w' [a|x|]]; [|by apply stays_advances..].
  destruct Hm as (S1 & D1 & I1). destruct (Hk a w') as (D2 & I2). simpl in *. split; [congruence|].
  intros Ho Hs. rewrite <- S1. apply I2; [auto|lia].
Qed.

(** An id, and a message recorded under it. *)
Lemma adv_record {A} (mk : bytes -> ChatMessage) conv (f : bytes -> Conversation -> Conversation) (k : bytes -> W App A) :
  (forall id, m_id (mk id) = id) -> (forall id c, c_id (f id c) = c_id c) -> (forall id, ens stays (k id)) ->
  ens advances (id <~ next_msg_id;
                _ <~ w_set (fun a => set_ui (record conv (mk id) (f id) (a_ui a)) a);
                k id).
Proof.
  intros Hm Hf Hk [io a]. set (id := str "msg-" ++ decimal (a_seq a)).
  set (w1 := (io, set_ui (record conv (mk id) (f id) (a_ui a)) (set_seq (a_seq a +64 1) a))).
  match goal with |- advances _ (?m (io, a)).1 => assert (E : m (io, a) = k id w1) by reflexivity end. rewrite E.
  destruct (Hk id w1) as (S1 & D1 & I1). cbn [w1 fst snd set_ui set_seq a_seq a_disk] in S1, D1.
  split; [exact D1|]. intros [H1 H2 H3] Hs. simpl in H1, H2, H3, Hs.
  assert (Hw : a_seq a +64 1 = a_seq a + 1).
  { unfold wrap64, u64_modulus. apply Z.mod_small. lia. }
  split; [|rewrite S1, Hw; simpl; lia]. apply I1. split; simpl; rewrite Hw.
  - apply ui_ok_record; [done|apply Hm|lia|done].
  - lia.
  - intros Hd blob Hb. destruct (H3 Hd blob Hb) as (u & n & Eb & Hu & Hn). exists u, n. split; [done|]. split; [done|lia].
Qed.

Lemma adv_forward now ev c : ens advances (forward_event now ev c).
Proof.
  destruct ev as [bs|n|b]; simpl; [|apply adv_stay, stays_dispatch..].
  apply (adv_record (fun id => mkMsg id (utf8_lossy bs) false now DReceived) c (fun _ => with_received (utf8_lossy bs))
           (fun id => _ <~ persist_ui; dispatch (MessageReceived c (mkMsg id (utf8_lossy bs) false now DReceived)))); [done|done|].
  intros id. apply ens_bind; [apply _|apply stays_persist|]. intros ?. apply stays_dispatch.
Qed.

Lemma adv_turn now : ens advances (actor_turn now).
Proof.
  assert (Hst : ens stays stop_offline) by (apply ens_stop; [apply _|apply stays_core|intros; apply stays_post]).
  intros [io a]. unfold actor_turn. destruct (a_backend a); try (by apply stays_advances).
  apply (adv_bind (actor_top core conversation)); [apply stays_top|]. intros [c|].
  - apply adv_bind; [apply ens_core; [apply stays_core|apply frame_next_event]|].
    intros [ev|e]; [apply adv_forward|by apply adv_stay].
  - apply adv_bind; [apply ens_core; [apply stays_core|apply frame_await]|].
    intros [ev|e]; apply adv_stay; [by apply ens_ret, _|done].
Qed.

Lemma adv_send now conv body : ens advances (send now conv body).
Proof.
  intros [io a]. unfold send, ask_send. destruct (u_messages _ !! conv); [|by apply stays_advances].
  destruct (a_backend a); try (by apply stays_advances).
  apply (adv_bind (actor_top core conversation)); [apply stays_top|]. intros cv.
  destruct (negb (is_paired core)); [apply adv_stay; by apply ens_ret, _|].
  apply adv_bind; [apply ens_core; [apply stays_core|apply frame_send]|]. intros res.
  apply (adv_record (fun id => mkMsg id body true now (match res with Ok _ => DSent | Err _ => DFailed end))
           (default CONVERSATION_ID cv) (fun _ => with_last body)
           (fun id => _ <~ persist_ui; _ <~ dispatch (ConversationUpdated (default CONVERSATION_ID cv));
                      w_ret (map_err (fun _ => SendFailed) res))); [done|done|].
  intros id. apply ens_bind; [apply _|apply stays_persist|]. intros ?.
  apply ens_bind; [apply _|apply stays_dispatch|]. intros ?. by apply ens_ret, _.
Qed.

Lemma stays_verify conv : ens stays (mark_verified conv).
Proof.
  intros [io a]. unfold mark_verified. destruct (existsb _ _); [|reflexivity].
  apply (ens_bind stays (w_set _)); [apply (stays_ui (fun a => mkUi _ (u_messages (a_ui a)))); intros ?; by apply ui_ok_update|].
  intros ?. apply ens_bind; [apply _|apply stays_persist|]. intros ?.
  apply ens_bind; [apply _|apply stays_dispatch|]. intros ?. by apply ens_ret, _.
Qed.

Lemma act_advances c w : advances w (app_act c w).
Proof.
  destruct w as [io a], c; cbn [app_act].
  - apply stays_advances. apply (ens_link stays); [apply stays_core|intros; by apply stays_same|intros; apply stays_post|
                             intros; by apply stays_same|apply stays_create].
  - apply stays_advances. apply (ens_pair stays); [apply stays_core|intros; by apply stays_same|
                             intros; by apply stays_same|apply stays_create].
  - apply adv_send.
  - apply stays_advances, stays_verify.
  - apply stays_advances. apply (ens_code stays); [apply stays_core|apply stays_create].
  - apply stays_advances. by apply stays_same.
  - apply stays_advances. by apply stays_same.
  - apply adv_turn.
  - apply stays_advances. apply (ens_resume stays); [apply stays_core|intros; by apply stays_same|intros; apply stays_post].
  - apply stays_advances. unfold dispatch_turn. simpl. destruct (a_channel a); [reflexivity|].
    destruct (a_listener a); by apply stays_same.
Qed.

(** ** Over restarts *)

(** A call or turn with what the outside world answers; or the process dies, and a new
    object is made of the database. *)
Inductive app_step : Io * App -> Io * App -> Prop :=
| step_act c inp io a : app_step (io, a) (app_act c (feed inp io, a))
| step_restart env name key io a d a' :
    a_disk a = true -> new_persistent env name key (Some (disk io)) = Some (d, Ok a') -> app_step (io, a) (io, a').

Lemma app_ok_restart env name key io d a' seq :
  saved_ok seq (disk io) -> 1 <= seq -> new_persistent env name key (Some (disk io)) = Some (d, Ok a') ->
  app_ok (io, a') /\ a_seq a' <= seq.
Proof.
  intros Hs H1. unfold new_persistent, Store_open. destruct (bool_decide _); [|done].
  assert (HB : forall ui n a0 b, build env name (Some key) true ui n = Some a0 -> ui_ok ui n -> 1 <= n <= seq ->
     (forall blob, Store_get (str "ui.state") (disk io) = Some blob -> blob = bincode_serialize (ui, n)) ->
     let a1 := if b : bool then set_backend (Resuming false) a0 else a0 in app_ok (io, a1) /\ a_seq a1 <= seq).
  { intros ui n a0 b Hb Hu Hn Hblob. unfold build in Hb. destruct (relay_config_from_env env); simplify_eq/=.
    destruct b; (split; [|simpl; lia]); (split; simpl; [done|lia|]); intros _ blob E; apply Hblob in E as ->; exists ui, n;
      (split; [done|]); (split; [done|lia]). }
  destruct (Store_get (str "ui.state") (disk io)) as [blob|] eqn:E.
  - destruct (Hs blob E) as (u & n & -> & Hu & Hn). rewrite bincode_roundtrip_exact.
    destruct (build _ _ _ _ _ _) as [a0|] eqn:Eb; simpl; [|done]. intros [= <- <-].
    apply (HB u n a0 (is_some _) Eb Hu Hn). by intros blob [= <-].
  - destruct (build _ _ _ _ _ _) as [a0|] eqn:Eb; simpl; [|done]. intros [= <- <-].
    apply (HB UiStore_default 1 a0 (is_some _) Eb); [apply ui_ok_default|lia|done].
Qed.

Lemma steps_ok n w w' : app_ok w -> a_seq w.2 + Z.of_nat n < 2 ^ 64 -> nsteps app_step n w w' -> app_ok w'.
Proof.
  intros Ho Hb Hn. induction Hn as [w|n w1 w2 w3 Hs Hn IH]; [done|].
  assert (H : app_ok w2 /\ a_seq w2.2 <= a_seq w1.2 + 1).
  { destruct Hs as [c inp io a|env name key io a d a' Hd Hnew].
    - destruct (act_advances c (feed inp io, a)) as [_ H]. simpl in H.
      destruct H as [H1 H2]; [by destruct Ho; split|simpl in Hb; lia|]. split; [done|simpl; lia].
    - destruct Ho as [H1 H2 H3]. simpl in *.
      destruct (app_ok_restart env name key io d a' (a_seq a) (H3 Hd) H2 Hnew). split; [done|simpl; lia]. }
  destruct H as [Ho2 Hs2]. apply IH; [done|lia].
Qed.

Lemma build_ok env name persist has_disk ui seq io a :
  build env name persist has_disk ui seq = Some a -> ui_ok ui seq -> 1 <= seq -> (has_disk = true -> saved_ok seq (disk io)) ->
  app_ok (io, a).
Proof. unfold build. destruct (relay_config_from_env env); simpl; [|done]. by intros [= <-] ???. Qed.

Lemma stub_ok cs : ui_ok (stub_ui cs) 1.
Proof.
  destruct cs as [|c cs]; [apply ui_ok_default|]. unfold stub_ui. split; simpl.
  - apply NoDup_singleton.
  - intros x. rewrite list_elem_of_singleton. rewrite lookup_singleton_is_Some. naive_solver.
  - intros x ms [<- <-]%lookup_singleton_Some. constructor.
  - intros x ms m [<- <-]%lookup_singleton_Some Hm. by apply elem_of_nil in Hm.
Qed.

(** The new objects: an in-memory one, one on a new database, one from a backup. *)
Inductive fresh_app (io : Io) : App -> Prop :=
| fresh_memory env name a : ChatEngine_new env name = Some a -> fresh_app io a
| fresh_database env name key a : new_persistent env name key None = Some (Some (disk io), Ok a) -> fresh_app io a
| fresh_restored ok env name key bundle secret a :
    new_from_backup ok env name key None bundle secret = Some (Some (disk io), Ok a) -> fresh_app io a.

Lemma fresh_ok io a : fresh_app io a -> app_ok (io, a) /\ a_seq a = 1.
Proof.
  assert (Hseq : forall env name p h ui a0, build env name p h ui 1 = Some a0 -> a_seq a0 = 1).
  { intros env name p h ui a0. unfold build. destruct (relay_config_from_env env); simpl; [|done]. by intros [= <-]. }
  intros [env name a' Hn|env name key a' Hn|ok env name key bundle secret a' Hn].
  - split; [|by eapply Hseq]. eapply build_ok; [exact Hn|apply ui_ok_default|lia|done].
  - unfold new_persistent in Hn. simpl in Hn. unfold Store_get in Hn. simpl in Hn. rewrite !lookup_empty in Hn. simpl in Hn.
    destruct (build _ _ _ _ _ _) as [a0|] eqn:Eb; [|done]. injection Hn as Hdisk <-. split; [|by eapply Hseq].
    eapply build_ok; [exact Eb|apply ui_ok_default|lia|]. intros _ blob. rewrite <- Hdisk. unfold Store_get. simpl. by rewrite lookup_empty.
  - unfold new_from_backup in Hn. destruct (unwrap_with _ _) as [[bk|]|]; simplify_eq/=.
    destruct (open_blob _ _) as [bs|]; [|done]. destruct (bincode_deserialize bs) as [p|]; [|done].
    unfold Store_commit in Hn. destruct ok; [|done]. destruct (build _ _ _ _ _ _) as [a0|] eqn:Eb; [|done].
    injection Hn as Hd <-. split; [|by eapply Hseq]. eapply build_ok; [exact Eb|apply stub_ok|lia|]. intros _ blob Hblob.
    exists (stub_ui (bp_contacts p)), 1. split; [|split; [apply stub_ok|lia]].
    revert Hblob. rewrite <- Hd. unfold Store_get. simpl.
    destruct (bp_identity p); simpl; [rewrite lookup_insert_ne by done|]; rewrite lookup_insert_eq; by intros [= <-].
Qed.

(** C31: the conversations and messages stay consistent. From any new object, over any
    sequence of calls, engine turns, dispatch turns and process deaths with a restart
    on the database, shorter than the 64-bit counter: every conversation has exactly
    one row and one message list, and no two messages of a conversation share an id,
    also across restarts. *)
Theorem conversations_consistent io a n w' :
  fresh_app io a -> 1 + Z.of_nat n < 2 ^ 64 -> nsteps app_step n (io, a) w' ->
  let u := a_ui w'.2 in
  NoDup (c_id <$> u_conversations u) /\
  (forall c, c ∈ c_id <$> conversations w'.2 <-> is_Some (u_messages u !! c)) /\
  (forall c, NoDup (m_id <$> messages c w'.2)).
Proof.
  intros [Ho Hs]%fresh_ok Hn Hst. rewrite <- Hs in Hn. destruct (steps_ok n (io, a) w' Ho Hn Hst) as [[H1 H2 H3 H4] _ _].
  split; [done|]. split; [done|]. intros c. unfold messages. destruct (u_messages _ !! c) as [ms|] eqn:E; [by eapply H3|constructor].
Qed.

(** ** Sending and receiving *)

Lemma persist_ui_state io a : exists io', persist_ui (io, a) = ((io', a), Done tt).
Proof.
  unfold persist_ui, Store_commit. destruct (a_disk a); [|by eexists].
  destruct (hd true (io_commits io)); by eexists.
Qed.

(** What recording a message shows in the conversation. *)
Lemma messages_record c m f a u : u_messages (a_ui a) !! c = Some u ->
  forall a', a_ui a' = record c m f (a_ui a) ->
  messages c a' = messages c a ++ [m] /\ forall c', c' <> c -> messages c' a' = messages c' a.
Proof.
  intros Hu a' E. unfold messages. rewrite E. unfold record. rewrite Hu. simpl. rewrite lookup_insert_eq. split; [done|].
  intros c' Hc. by rewrite lookup_insert_ne.
Qed.

(** What [send] reports and records on a paired engine: the call succeeds exactly when
    the relay accepted the message, and the conversation gets the message in either
    case, under a new id, marked as sent or as failed; a change of the conversation is
    announced; no other conversation changes. *)
Theorem send_outcome now c body io a core ms io1 core1 r :
  a_backend a = Actor core (Some c) -> is_paired core = true -> u_messages (a_ui a) !! c = Some ms ->
  send_message body (io, core) = ((io1, core1), r) -> r <> Blocked ->
  exists io2 a2,
    send now c body (io, a) = ((io2, a2), Done match r with Done _ => Ok tt | _ => Err SendFailed end) /\
    a_backend a2 = Actor core1 (Some c) /\
    messages c a2 = messages c a ++
      [mkMsg (str "msg-" ++ decimal (a_seq a)) body true now match r with Done _ => DSent | _ => DFailed end] /\
    (forall c', c' <> c -> messages c' a2 = messages c' a) /\
    a_channel a2 = a_channel a ++ [DEvent (ConversationUpdated c)].
Proof.
  intros Hb Hp Hm Hs Hr. unfold send, ask_send. rewrite Hm, Hb. unfold actor_top. rewrite Hp.
  unfold w_bind at 1. cbn [w_ret default negb]. unfold w_bind at 1, with_core. rewrite Hs.
  set (msg := mkMsg (str "msg-" ++ decimal (a_seq a)) body true now match r with Done _ => DSent | _ => DFailed end).
  set (a1 := set_ui (record c msg (with_last body) (a_ui a)) (set_seq (a_seq a +64 1) (set_backend (Actor core1 (Some c)) a))).
  destruct (persist_ui_state io1 a1) as [io2 E].
  exists io2, (post (DEvent (ConversationUpdated c)) a1).
  split; [|split; [done|split; [|split; [|done]]]].
  - assert (Ek : forall res : result unit EngErr, (_ <~ persist_ui; _ <~ dispatch (ConversationUpdated c);
        w_ret (map_err (fun _ => SendFailed) res)) (io1, a1)
        = ((io2, post (DEvent (ConversationUpdated c)) a1), Done (map_err (fun _ => SendFailed) res))).
    { intros res. unfold w_bind at 1. by rewrite E. }
    destruct r as [[]|x|]; [exact (Ek (Ok tt))|exact (Ek (Err x))|done].
  - by apply (messages_record c msg (with_last body) a ms).
  - by apply (messages_record c msg (with_last body) a ms).
Qed.

(** What a received message becomes: when the engine's next event is a message, the
    conversation gets it under a new id, with the exact text for UTF-8 content; its row
    shows it and counts one more unread; and the listener's event carries it. *)
Theorem receive_recorded now c bs io a core ms io1 core1 :
  a_backend a = Actor core (Some c) -> u_messages (a_ui a) !! c = Some ms ->
  next_event (io, core) = ((io1, core1), Done (EMessage bs)) -> utf8 bs ->
  exists io2 a2,
    let message := mkMsg (str "msg-" ++ decimal (a_seq a)) bs false now DReceived in
    actor_turn now (io, a) = ((io2, a2), Done tt) /\
    a_backend a2 = Actor core1 (Some c) /\ messages c a2 = messages c a ++ [message] /\
    conversations a2 = update_first (has_id c) (with_received bs) (conversations a) /\
    a_channel a2 = a_channel a ++ [DEvent (MessageReceived c message)].
Proof.
  intros Hb Hm Hs Hu. unfold actor_turn. rewrite Hb. unfold actor_top.
  unfold w_bind at 1. cbn [w_ret]. unfold w_bind at 1, with_core. rewrite Hs. cbn [forward_event]. rewrite (utf8_lossy_id _ Hu).
  set (msg := mkMsg (str "msg-" ++ decimal (a_seq a)) bs false now DReceived).
  set (a1 := set_ui (record c msg (with_received bs) (a_ui a)) (set_seq (a_seq a +64 1) (set_backend (Actor core1 (Some c)) a))).
  destruct (persist_ui_state io1 a1) as [io2 E].
  exists io2, (post (DEvent (MessageReceived c msg)) a1). cbn zeta. split; [|split; [done|split; [|split; [done|done]]]].
  - assert (Ek : (_ <~ persist_ui; dispatch (MessageReceived c msg)) (io1, a1)
        = ((io2, post (DEvent (MessageReceived c msg)) a1), Done tt)) by (unfold w_bind; by rewrite E).
    exact Ek.
  - by apply (messages_record c msg (with_received bs) a ms).
Qed.

(** ** Where the interface differs from its comments *)

(** A send that never reaches the engine is not recorded: while the engine is resuming,
    after it ended, or before it is paired, [send] on an existing conversation fails and
    changes nothing, so there is no failed message to retry. *)
Theorem send_unrecorded now conv body io a ms :
  u_messages (a_ui a) !! conv = Some ms ->
  match a_backend a with
  | NoBackend => False
  | Resuming _ | Ended => True
  | Actor core _ => is_paired core = false
  end ->
  send now conv body (io, a) = ((io, a), Done (Err SendFailed)).
Proof.
  intros Hm Hb. unfold send, ask_send. rewrite Hm. destruct (a_backend a) as [| |core cv|]; [done|done| |done].
  unfold w_bind at 1, actor_top. rewrite Hb. by destruct cv.
Qed.

(** Pairing does not clear the verified mark: whoever is paired into a conversation
    that was marked verified before, such as the stub of a restored contact, takes it
    over with the new name. *)
Theorem verification_survives_pairing io a c cs peer :
  u_conversations (a_ui a) = c :: cs -> c_id c = CONVERSATION_ID -> c_verified c = true ->
  exists c' cs', conversations (create_conversation (Some peer) (io, a)).1.2 = c' :: cs' /\
    c_display_name c' = peer /\ c_verified c' = true.
Proof.
  intros Hc Hid Hv. unfold create_conversation, w_bind at 1, w_set. cbn [fst snd].
  set (a1 := set_ui _ a). destruct (persist_ui_state io a1) as [io' E]. unfold w_bind. rewrite E.
  exists (with_name peer c), cs. split; [|done]. unfold conversations. cbn. unfold a1. cbn. rewrite Hc. simpl.
  unfold has_id. by rewrite bool_decide_eq_true_2.
Qed.

(** An engine without a group that is fed a message by [next_event]. *)
Lemma next_event_no_group io e q env ps :
  s_group (session e) = None -> pending_events e = [] -> io_pushes io = Some (q, env) :: ps -> message_id env ∉ seen e ->
  exists io' e', next_event (io, e) = ((io', e'), Failed OtherErr) /\ disk io' = disk io /\
    trace io' = trace io ++ [Applied (message_id env)].
Proof.
  intros Hg He Hp Hn. assert (Hr : process_incoming (padded_ciphertext env) (session e) = (session e, Err NoGroup)).
  { unfold process_incoming. by rewrite Hg. }
  eexists _, _. split; [|split; [|]]; cycle 1.
  3: { unfold next_event. cbn [next_event_loop]. unfold w_bind at 1, w_get. cbn [fst snd]. rewrite He.
       unfold w_bind. rewrite (pump_refused io e q env ps _ _ Hp Hn Hr). reflexivity. }
  all: done.
Qed.

(** A restored device that restarts before it is paired can never be paired by its
    link. The stub of its contact makes the resumed actor serve that conversation, so
    the scanner's bootstrap message goes to the MLS session instead of the pairing: the
    session has no group, the actor ends, nothing is acknowledged and nothing written,
    and the next start meets the same message in the same state. *)
Theorem restored_stub_never_pairs {BE : BincodeLaws PersistedEngine} {BS : BincodeLaws SessionSnapshot}
    io a rep c cs e ids d inp q env ps now :
  a_backend a = Resuming rep -> a_persist a = Some (dk_key (disk io)) -> u_conversations (a_ui a) = c :: cs ->
  disk io = saved e ids d -> inbox e = None -> s_group (session e) = None ->
  set_Forall (fun v => len v = 16) (ids ∪ dk_seen d) -> reachable io ->
  io_pushes inp = Some (q, env) :: ps -> message_id env ∉ ids ∪ dk_seen d ->
  let '(io1, a1) := (resume_turn (io, a)).1 in
  let '(io2, a2) := (actor_turn now (feed inp io1, a1)).1 in
  a_backend a1 = Actor (revived e (ids ∪ dk_seen d)) (Some (c_id c)) /\ is_paired (revived e (ids ∪ dk_seen d)) = false /\
  a_backend a2 = Ended /\ a_ui a2 = a_ui a /\ disk io2 = disk io /\
  trace io2 = trace io ++ [Called (Subscribe [mailbox_qid e]); Applied (message_id env)].
Proof.
  intros Hb Hp Hc Hd Hi Hg Hids (cs' & rs & Hcs & Hrs) Hpush Hn.
  assert (Hsync : in_sync (session e)) by (intros g Hg'; by rewrite Hg in Hg').
  unfold resume_turn. rewrite Hb, Hp. unfold Store_open. rewrite bool_decide_eq_true_2 by done.
  rewrite (resume_saved e ids d io cs' rs Hd Hsync Hids Hcs Hrs). rewrite Hc. cbn [fst snd head fmap option_fmap option_map].
  set (core := revived e (ids ∪ dk_seen d)). set (a0 := if rep then _ else a).
  set (io1 := mkIo rs _ _ _ _ _ _).
  destruct (next_event_no_group (feed inp io1) core q env ps Hg eq_refl Hpush Hn) as (io2 & core2 & En & Ed & Et).
  assert (Et1 : actor_turn now (feed inp io1, set_backend (Actor core (Some (c_id c))) a0)
    = ((io2, set_backend Ended (post (DEvent (ConnectionStateChanged false)) (set_backend (Actor core2 (Some (c_id c))) (set_backend (Actor core (Some (c_id c))) a0)))), Done tt)).
  { unfold actor_turn. cbn [a_backend set_backend]. unfold w_bind at 1, actor_top, w_ret. unfold w_bind at 1, with_core.
    by rewrite En. }
  rewrite Et1. cbn [fst snd]. split; [done|]. split; [unfold is_paired; simpl; by rewrite Hi|].
  split; [done|]. split; [by destruct rep|]. split; [by rewrite Ed|]. rewrite Et. simpl. by rewrite <- app_assoc.
Qed.
End Ui.
