(* ===== verification/FfiExamples.v ===== *)
(** * A concrete client object

    [toy_ffi] instantiates the parameters of the client object on top of the concrete
    client of [EnginePair.v]; the scenarios run an enrollment, a restore, a pairing
    and an exchange, and apply the theorems to them. *)

From S2P Require Import Prelude Text External Proto RelayNet CoreBackup CoreSession CoreProps Engine EngineInv EngineProps EnginePair Ffi FfiProps FfiRun FfiUi.
Import ToyInstances ToyMls EngineExamples.

(** ** Instances *)

#[export] Instance bundle_eq_dec : EqDecision BackupBundle.
Proof. solve_decision. Defined.
#[export] Instance bundle_countable : Countable BackupBundle.
Proof.
  refine (inj_countable' (fun b => (bb_blob b, bb_w_pin b, bb_salt_p b, bb_w_phrase b, bb_salt_f b, bb_auth_pin b, bb_salt_a b,
                                    bb_auth_phrase b, bb_salt_pa b))
            (fun '(a, b, c, d, e, f, g, h, i) => mkBundle a b c d e f g h i) _). by intros [].
Defined.
#[export] Instance payload_eq_dec : EqDecision BackupPayload.
Proof. solve_decision. Defined.
#[export] Instance payload_countable : Countable BackupPayload.
Proof.
  refine (inj_countable' (fun p => (bp_identity p, bp_username p, bp_contacts p)) (fun '(a, b, c) => mkPayload a b c) _). by intros [].
Defined.
#[export] Instance delivery_eq_dec : EqDecision DeliveryState.
Proof. solve_decision. Defined.
#[export] Instance delivery_countable : Countable DeliveryState.
Proof.
  refine (inj_countable' (fun s => match s with DPending => 0 | DSent => 1 | DFailed => 2 | DReceived => 3 end)%nat
            (fun n => match n with 0 => DPending | 1 => DSent | 2 => DFailed | _ => DReceived end)%nat _). by intros [].
Defined.
#[export] Instance message_eq_dec : EqDecision ChatMessage.
Proof. solve_decision. Defined.
#[export] Instance message_countable : Countable ChatMessage.
Proof.
  refine (inj_countable' (fun m => (m_id m, m_body m, m_mine m, m_timestamp_ms m, m_delivery m))
            (fun '(a, b, c, d, e) => mkMsg a b c d e) _). by intros [].
Defined.
#[export] Instance conversation_eq_dec : EqDecision Conversation.
Proof. solve_decision. Defined.
#[export] Instance conversation_countable : Countable Conversation.
Proof.
  refine (inj_countable' (fun c => (c_id c, c_display_name c, c_last_message c, c_unread c, c_verified c))
            (fun '(a, b, c, d, e) => mkConv a b c d e) _). by intros [].
Defined.
#[export] Instance ui_eq_dec : EqDecision UiStore.
Proof. solve_decision. Defined.
#[export] Instance ui_countable : Countable UiStore.
Proof.
  refine (inj_countable' (fun u => (u_conversations u, map_to_list (u_messages u)))
            (fun '(a, b) => mkUi a (list_to_map b)) _).
  intros [a b]. simpl. by rewrite list_to_map_to_list.
Defined.

#[export] Instance toy_ffi : FfiExt := {|
  ffi_client := toy_client; ffi_argon := toy_argon2_recovery; ffi_aead := toy_aead; ffi_lower := toy_lowercase;
  ffi_ui := toy_bincode; ffi_bundle := toy_bincode; ffi_payload := toy_bincode;
|}.

#[export] Instance id_sha_laws : @Sha256Laws id_sha.
Proof.
  constructor; intros m; [done|]. unfold are_bytes. constructor; [unfold is_byte; apply Z.mod_pos_bound; lia|].
  apply Forall_replicate. unfold is_byte. lia.
Qed.

(** ** Scenarios *)

Definition no_env : Env := mkEnv None None.
Definition the_app (o : option App) : App := match o with Some a => a | None => mkApp [] None None UiStore_default 0 false [] NoBackend false [] [] [] end.

Definition word_list : list bytes := [str "acid"; str "yo-yo"; str "zoom"].
Definition drawn : list nat := [0; 2; 1; 0; 0]%nat.
Definition zeros (n : nat) : bytes := replicate n 0.
Definition rand : BundleRandom := mkRandom (zeros 16) (zeros 16) (zeros 16) (zeros 16) (zeros 24) (zeros 24) (zeros 24).
Definition the_bk : bytes := replicate 32 7.
Definition sloppy : bytes := str "  Acid  ZOOM yo-yo acid ACID ".
Definition phrase : bytes := str "acid zoom yo-yo acid acid".

(** Mira's device: one conversation, and the session of a paired engine on disk. *)
Definition mira_ui : UiStore := mkUi [mkConv CONVERSATION_ID (str "bob") None 0 true] {[CONVERSATION_ID := []]}.
Definition mira : App := the_app (build no_env (str "mira#04") (Some [1]) true mira_ui 1).
Definition mira_disk : Disk := mkDisk [1] {[str "session" := snapshot alice2]} ∅.

Lemma rand_ok : random_ok rand.
Proof. split; repeat constructor. Qed.
Lemma words_ok : Forall word_ok word_list.
Proof. repeat constructor; try discriminate; lia. Qed.

Lemma recovery_roundtrip_witness :
  normalize_phrase sloppy = phrase /\
  exists d1 b d2 a2, backup_enroll true word_list drawn the_bk rand (str "4321") mira mira_disk = Some (d1, Ok (phrase, b)) /\
    new_from_backup true no_env (str "ignored") [2] None b sloppy = Some (Some d2, Ok a2) /\
    a_display_name a2 = str "mira#04" /\ restored_session a2 d2 = Some (identity_only alice2).
Proof.
  assert (Hn : normalize_phrase sloppy = phrase) by (vm_compute; reflexivity). split; [exact Hn|].
  destruct (recovery_roundtrip word_list drawn the_bk rand (str "4321") phrase mira mira_disk (Some alice2) no_env None
              (str "ignored") [2] sloppy) as (d1 & b & d2 & a2 & p & H1 & H2 & H3 & _ & H5 & _);
    [reflexivity|reflexivity|exact rand_ok|reflexivity|reflexivity|exact words_ok|reflexivity|reflexivity|reflexivity|
     right; exact Hn|].
  exists d1, b, d2, a2. split; [exact H1|]. split; [exact H2|]. split; [exact H3|exact H5].
Defined.

Definition mira_payload : bytes := match backup_payload mira mira_disk with Ok p => p | Err _ => [] end.

Lemma mira_payload_eq : backup_payload mira mira_disk = Ok mira_payload.
Proof. reflexivity. Qed.

Lemma enrollment_maintained_witness :
  exists d1, enrolled d1 (str "4321") phrase the_bk mira_payload /\
    exists d2 b, backup_rewrap_pin true (zeros 16) (zeros 16) (zeros 24) (str "777777") mira d1 = Some (d2, Ok b) /\
      backup_verify_secret (str "777777") mira d2 = Some (Ok true).
Proof.
  destruct (enroll_spec word_list drawn the_bk rand (str "4321") phrase mira mira_disk mira_payload
              eq_refl rand_ok eq_refl eq_refl eq_refl eq_refl mira_payload_eq) as (d1 & b & _ & _ & He).
  exists d1. split; [exact He|].
  destruct (enrollment_maintained mira d1 (str "4321") phrase the_bk mira_payload eq_refl He) as [_ H].
  destruct (H (zeros 16) (zeros 16) (zeros 24) (str "777777") eq_refl eq_refl eq_refl eq_refl) as (d2 & b2 & H1 & _ & _ & H4).
  exists d2, (bundle_from_core b2). split; [exact H1|exact H4].
Defined.

(** A bundle that nothing opens. *)
Definition junk_bundle : FfiBundle := mkFfiBundle [] [] [] [] [] [] [] [] [].
Lemma junk_restore : new_from_backup true no_env (str "x") [2] None junk_bundle (str "1234") = Some (None, Err WrongRecoverySecret).
Proof. reflexivity. Qed.

Lemma restore_failure_no_trace_witness :
  new_from_backup true no_env (str "x") [2] None junk_bundle (str "1234") = Some (None, Err WrongRecoverySecret) /\ @None Disk = None.
Proof. split; [exact junk_restore|]. exact (restore_failure_no_trace _ _ _ _ _ _ _ _ _ junk_restore). Defined.

Definition mira_saved : Disk := mkDisk [1] {[str "ui.state" := bincode_serialize (mira_ui, 5)]} ∅.
Lemma new_persistent_resumes_witness : exists a, new_persistent no_env (str "mira#04") [1] (Some mira_saved) = Some (Some mira_saved, Ok a) /\ a_seq a = 5.
Proof.
  assert (Hu : Store_get (str "ui.state") mira_saved = Some (bincode_serialize (mira_ui, 5))) by (apply lookup_singleton_eq).
  destruct (new_persistent_resumes no_env None (str "mira#04") [1] mira_saved mira_ui 5 eq_refl Hu) as [_ (a & H1 & _ & H3 & _)].
  exists a. split; [exact H1|exact H3].
Defined.

(** *** Calls and turns *)

Definition empty_io : Io := script [] [] [] [] [].
Definition mira_build : option App := build no_env (str "mira#04") (Some [1]) true mira_ui 1.
Definition calls : list (app_call * Io) := [(CVerify CONVERSATION_ID, empty_io); (CListen, empty_io); (CLink 1, empty_io)].

Lemma mira_build_eq : build no_env (str "mira#04") (Some [1]) true mira_ui 1 = Some mira.
Proof. reflexivity. Qed.

Lemma events_delivered_once_witness :
  let a := (app_run [] (app_run calls (empty_io, set_backend NoBackend mira))).2 in
  a_listener a = true /\ a_delivered (Nat.iter 3 dispatch_turn a) = [ConversationUpdated CONVERSATION_ID; ConnectionStateChanged false].
Proof.
  destruct (events_delivered_once no_env (str "mira#04") (Some [1]) true mira_ui 1 mira NoBackend empty_io calls [] mira_build_eq)
    as (_ & _ & H).
  split; [reflexivity|]. transitivity (pipeline (app_run [] (app_run calls (empty_io, set_backend NoBackend mira))).2); [|reflexivity].
  apply H. reflexivity.
Defined.

(** A new object in memory that fails to make a link. *)
Definition newcomer : App := the_app (ChatEngine_new no_env (str "zed")).
Lemma newcomer_fresh : fresh_app empty_io newcomer.
Proof. apply (fresh_memory _ no_env (str "zed")). reflexivity. Qed.
Lemma newcomer_steps : nsteps app_step 1 (empty_io, newcomer) (app_act (CLink 1) (feed empty_io empty_io, newcomer)).
Proof. eapply nsteps_l; [apply step_act|apply nsteps_O]. Qed.

Lemma conversations_consistent_witness :
  let w := app_act (CLink 1) (feed empty_io empty_io, newcomer) in
  NoDup (c_id <$> u_conversations (a_ui w.2)) /\ a_channel w.2 = [DEvent (ConnectionStateChanged false)].
Proof.
  split; [|reflexivity].
  exact (proj1 (conversations_consistent empty_io newcomer 1 _ newcomer_fresh eq_refl newcomer_steps)).
Defined.

(** Bob's object around the paired engine of [EngineExamples]. *)
Definition bob_ui : UiStore := mkUi [mkConv CONVERSATION_ID (str "alice") None 0 false] {[CONVERSATION_ID := []]}.
Definition bob_app : App := set_backend (Actor bob_ready (Some CONVERSATION_ID)) (the_app (build no_env (str "bob") (Some [1]) true bob_ui 1)).
Definition bob_write : Io := feed (script [Some SOk] [] [] [] [[12]]) (the_device bob_paired).1.

Lemma outcome_eq3 {S A} (m : W S A) w : m w = (((m w).1.1, (m w).1.2), (m w).2).
Proof. by destruct (m w) as [[] ?]. Qed.

Lemma bob_paired_yes : is_paired bob_ready = true.
Proof. vm_compute. reflexivity. Qed.
Lemma bob_rows : u_messages (a_ui bob_app) !! CONVERSATION_ID = Some [].
Proof. apply lookup_singleton_eq. Qed.
Lemma bob_write_done : (send_message (str "yo") (bob_write, bob_ready)).2 = Done tt.
Proof. vm_compute. reflexivity. Qed.
Lemma bob_write_eq : send_message (str "yo") (bob_write, bob_ready)
  = (((send_message (str "yo") (bob_write, bob_ready)).1.1, (send_message (str "yo") (bob_write, bob_ready)).1.2), Done tt).
Proof. exact (outcome_eq (send_message (str "yo")) _ _ bob_write_done). Qed.

Lemma send_outcome_witness :
  exists io2 a2, send 99 CONVERSATION_ID (str "yo") (bob_write, bob_app) = ((io2, a2), Done (Ok tt)) /\
    messages CONVERSATION_ID a2 = [mkMsg (str "msg-1") (str "yo") true 99 DSent].
Proof.
  destruct (send_outcome 99 CONVERSATION_ID (str "yo") bob_write bob_app bob_ready [] _ _ _ eq_refl bob_paired_yes bob_rows bob_write_eq
              ltac:(discriminate)) as (io2 & a2 & H1 & _ & H3 & _).
  exists io2, a2. split; [exact H1|exact H3].
Defined.

Lemma bob_hears_done : (next_event (bob_hears [], bob_ready)).2 = Done (EMessage (str "hi")).
Proof. vm_compute. reflexivity. Qed.
Lemma hi_utf8 : utf8 (str "hi").
Proof. do 2 (apply utf8_1; [split; [vm_compute; discriminate|vm_compute; reflexivity]|]). apply utf8_nil. Qed.

Lemma receive_recorded_witness :
  exists io2 a2, actor_turn 99 (bob_hears [], bob_app) = ((io2, a2), Done tt) /\
    messages CONVERSATION_ID a2 = [mkMsg (str "msg-1") (str "hi") false 99 DReceived].
Proof.
  destruct (receive_recorded 99 CONVERSATION_ID (str "hi") (bob_hears []) bob_app bob_ready [] _ _ eq_refl bob_rows
              (outcome_eq next_event _ _ bob_hears_done) hi_utf8) as (io2 & a2 & H1 & _ & H3 & _).
  exists io2, a2. split; [exact H1|exact H3].
Defined.

Lemma send_unrecorded_witness :
  send 99 CONVERSATION_ID (str "yo") (empty_io, set_backend (Resuming true) bob_app)
  = ((empty_io, set_backend (Resuming true) bob_app), Done (Err SendFailed)) /\ True.
Proof.
  split; [|exact Logic.I].
  exact (send_unrecorded 99 CONVERSATION_ID (str "yo") empty_io (set_backend (Resuming true) bob_app) [] bob_rows Logic.I).
Defined.

Lemma verification_survives_pairing_witness :
  c_verified (mkConv CONVERSATION_ID (str "bob") None 0 true) = true /\
  exists c' cs', conversations (create_conversation (Some (str "mallory")) (empty_io, mira)).1.2 = c' :: cs' /\
    c_display_name c' = str "mallory" /\ c_verified c' = true.
Proof.
  split; [reflexivity|].
  exact (verification_survives_pairing empty_io mira _ [] (str "mallory") eq_refl eq_refl eq_refl).
Defined.

(** Mira restored, made a link, and died before anybody scanned it. *)
Definition mira_engine : Engine := mkEngine (str "mira#04") (identity_only alice2) "relay:7443" [7] [8] [9] None ∅ [] true [].
Definition mira_down : Disk := saved mira_engine ∅ (mkDisk [1] ∅ ∅).
Definition mira_up : Io := mkIo [Some SOk] [] [true] [] [] [] mira_down.
Definition mira_resuming : App := set_backend (Resuming false) mira.

Lemma ids_16 : set_Forall (fun v : list Z => len v = 16) (∅ ∪ ∅ : gset (list Z)).
Proof. by intros v. Qed.
Lemma mira_reachable : reachable mira_up.
Proof. exists [], []. split; reflexivity. Qed.
Lemma none_seen (x : list Z) : x ∉ (∅ ∪ ∅ : gset (list Z)).
Proof. set_solver. Qed.

Lemma restored_stub_never_pairs_witness :
  a_backend mira_resuming = Resuming false /\
  let '(io1, a1) := (resume_turn (mira_up, mira_resuming)).1 in
  let '(io2, a2) := (actor_turn 0 (feed (script [] [Some ([8], bootstrap_env)] [] [] []) io1, a1)).1 in
  a_backend a2 = Ended /\ disk io2 = mira_down.
Proof.
  split; [reflexivity|].
  pose proof (restored_stub_never_pairs mira_up mira_resuming false (mkConv CONVERSATION_ID (str "bob") None 0 true) [] mira_engine ∅
    (mkDisk [1] ∅ ∅) (script [] [Some ([8], bootstrap_env)] [] [] []) [8] bootstrap_env [] 0
    eq_refl eq_refl eq_refl eq_refl eq_refl eq_refl ids_16 mira_reachable eq_refl (none_seen (message_id bootstrap_env))) as H.
  destruct ((resume_turn (mira_up, mira_resuming)).1) as [io1 a1].
  destruct ((actor_turn 0 (feed (script [] [Some ([8], bootstrap_env)] [] [] []) io1, a1)).1) as [io2 a2].
  destruct H as (_ & _ & H3 & _ & H5 & _). split; [exact H3|exact H5].
Defined.
