(* ===== verification/Tls.v ===== *)
(** * The pinned connection (engine/src/tls.rs, relay/src/identity.rs, the start of
      RelayClient::connect)

    The client trusts one certificate, by its hash. The verifier is the implementation
    of rustls's trait, the two configurations are built as the code builds them, and
    rustls itself is a parameter: what a handshake asks of the verifier and what a server
    presents are its documented behaviour ([TlsLaws]). *)

From S2P Require Import Prelude Text External Proto RelayNet Ffi.

(** ** rustls *)

Inductive TlsVersion := Tls12 | Tls13.

(** [Error::General], and every error rustls makes itself. *)
Inductive TlsError := General (m : bytes) | RustlsError.

Class Rustls := {
  Algorithms : Type;                                          (* WebPkiSupportedAlgorithms *)
  Signed : Type;                                              (* DigitallySignedStruct *)
  Scheme : Type;                                              (* SignatureScheme *)
  ServerName : Type;
  PrivateKey : Type;
  ring_algorithms : Algorithms;                               (* of the ring provider *)
  ring_default_versions : bool;                               (* it supports the default versions *)
  supported_schemes : Algorithms -> list Scheme;
  crypto_verify_tls12 : bytes -> bytes -> Signed -> Algorithms -> result unit TlsError;
  crypto_verify_tls13 : bytes -> bytes -> Signed -> Algorithms -> result unit TlsError;
  parse_server_name : bytes -> option ServerName;             (* ServerName::try_from *)
  parse_private_key : bytes -> option PrivateKey;             (* PrivateKeyDer::try_from *)
  key_matches : list bytes -> PrivateKey -> bool;             (* with_single_cert accepts the pair *)
}.

Section Configs.
Context `{Sha256} {T : Rustls}.

(** The trait [ServerCertVerifier]. *)
Record ServerCertVerifier := mkVerifier {
  v_server_cert : bytes -> list bytes -> ServerName -> bytes -> Z -> result unit TlsError;
  v_tls12_signature : bytes -> bytes -> Signed -> result unit TlsError;
  v_tls13_signature : bytes -> bytes -> Signed -> result unit TlsError;
  v_schemes : list Scheme;
}.

(** A client's configuration: its verifier, and whether it authenticates itself. *)
Record ClientConfig := mkClientConfig { cc_verifier : ServerCertVerifier; cc_client_auth : bool }.

Record ServerConfig := mkServerConfig { sc_certs : list bytes; sc_key : PrivateKey; sc_client_auth : bool }.

(** ** tls.rs *)

Record PinnedFingerprint := mkPinned { pinned_fingerprint : bytes; supported : Algorithms }.

Definition pin_mismatch : bytes :=
  str "relay TLS certificate does not match the fingerprint pinned in the contact link".

Definition verify_server_cert (self : PinnedFingerprint) (end_entity : bytes) (_intermediates : list bytes)
    (_server_name : ServerName) (_ocsp_response : bytes) (_now : Z) : result unit TlsError :=
  let got := sha256 end_entity in
  if bool_decide (got = pinned_fingerprint self) then Ok tt else Err (General pin_mismatch).

Definition verify_tls12_signature (self : PinnedFingerprint) (message cert : bytes) (dss : Signed) : result unit TlsError :=
  crypto_verify_tls12 message cert dss (supported self).

Definition verify_tls13_signature (self : PinnedFingerprint) (message cert : bytes) (dss : Signed) : result unit TlsError :=
  crypto_verify_tls13 message cert dss (supported self).

Definition supported_verify_schemes (self : PinnedFingerprint) : list Scheme := supported_schemes (supported self).

(** [impl ServerCertVerifier for PinnedFingerprint]. *)
Definition pinned_verifier (self : PinnedFingerprint) : ServerCertVerifier :=
  mkVerifier (verify_server_cert self) (verify_tls12_signature self) (verify_tls13_signature self) (supported_verify_schemes self).

(** [None] is the panic of the [expect]. *)
Definition pinned_client_config (fp : bytes) : option ClientConfig :=
  let verifier := mkPinned fp ring_algorithms in
  if ring_default_versions then Some (mkClientConfig (pinned_verifier verifier) false) else None.

Definition relay_server_name : option ServerName := parse_server_name (str "chat-relay").

(** ** identity.rs *)

Definition server_config (i : RelayIdentity) : option ServerConfig :=
  let certs := [cert_der i] in
  key ← parse_private_key (key_der i);
  if ring_default_versions && key_matches certs key then Some (mkServerConfig certs key false) else None.

(** ** A handshake *)

(** What a server presents: the version, its certificates, the transcript it signed and
    the signature; and what else of the handshake works out. *)
Record Flight := mkFlight {
  f_version : TlsVersion;
  f_leaf : bytes;
  f_intermediates : list bytes;
  f_ocsp : bytes;
  f_transcript : bytes;
  f_signed : Signed;
  f_agreed : bool;
}.

(** The verifier's word on the signature of a flight. *)
Definition signature_of (v : ServerCertVerifier) (f : Flight) : result unit TlsError :=
  match f_version f with
  | Tls12 => v_tls12_signature v (f_transcript f) (f_leaf f) (f_signed f)
  | Tls13 => v_tls13_signature v (f_transcript f) (f_leaf f) (f_signed f)
  end.

(** [connector.connect], and a server's answer to a client. *)
Class TlsStack := {
  client_handshake : ClientConfig -> ServerName -> Z -> Flight -> result unit TlsError;
  server_flight : ServerConfig -> bytes -> Flight;
}.

(** A client asks its verifier about the certificate, then about the signature, and goes
    on only when it accepts both; a server presents the certificates it was configured
    with, and a signature the ring provider accepts. *)
Class TlsLaws {S : TlsStack} : Prop := {
  handshake_cert : forall cfg n now f e,
    v_server_cert (cc_verifier cfg) (f_leaf f) (f_intermediates f) n (f_ocsp f) now = Err e ->
    client_handshake cfg n now f = Err e;
  handshake_signature : forall cfg n now f e,
    v_server_cert (cc_verifier cfg) (f_leaf f) (f_intermediates f) n (f_ocsp f) now = Ok tt ->
    signature_of (cc_verifier cfg) f = Err e -> client_handshake cfg n now f = Err e;
  handshake_completes : forall cfg n now f,
    v_server_cert (cc_verifier cfg) (f_leaf f) (f_intermediates f) n (f_ocsp f) now = Ok tt ->
    signature_of (cc_verifier cfg) f = Ok tt -> f_agreed f = true -> client_handshake cfg n now f = Ok tt;
  server_presents : forall cfg hello leaf rest,
    sc_certs cfg = leaf :: rest -> key_matches (sc_certs cfg) (sc_key cfg) = true ->
    let f := server_flight cfg hello in
    f_leaf f = leaf /\ f_agreed f = true /\
    match f_version f with
    | Tls12 => crypto_verify_tls12 (f_transcript f) leaf (f_signed f) ring_algorithms = Ok tt
    | Tls13 => crypto_verify_tls13 (f_transcript f) leaf (f_signed f) ring_algorithms = Ok tt
    end;
}.

(** ** RelayClient::connect *)

Inductive ConnectError := TcpFailed | TlsFailed (e : TlsError).

(** The peer at the address, if there is one, by the flight it presents; the outer
    [None] is a panic. *)
Definition rc_connect {S : TlsStack} (now : Z) (peer : option Flight) (fp : bytes) : option (result unit ConnectError) :=
  match peer with
  | None => Some (Err TcpFailed)
  | Some f =>
      config ← pinned_client_config fp;
      name ← relay_server_name;
      Some (map_err TlsFailed (client_handshake config name now f))
  end.

(** ** The pin, end to end *)

Section Pin.
Context {S : TlsStack} {TL : TlsLaws} {SL : Sha256Laws}.

(** The ring provider as it is shipped. *)
Definition ring_ready : Prop := ring_default_versions = true /\ is_Some relay_server_name.

Lemma pinned_connects now f fp :
  ring_ready -> f_agreed f = true ->
  rc_connect now (Some f) fp =
    Some (if bool_decide (sha256 (f_leaf f) = fp)
          then map_err TlsFailed (signature_of (pinned_verifier (mkPinned fp ring_algorithms)) f)
          else Err (TlsFailed (General pin_mismatch))).
Proof.
  intros [Hv [n Hn]] Hf. unfold rc_connect, pinned_client_config. rewrite Hv, Hn. simpl.
  set (cfg := mkClientConfig _ _).
  assert (Hc : v_server_cert (cc_verifier cfg) (f_leaf f) (f_intermediates f) n (f_ocsp f) now
     = if bool_decide (sha256 (f_leaf f) = fp) then Ok tt else Err (General pin_mismatch)) by done.
  case_bool_decide; [|by rewrite (handshake_cert _ _ _ _ _ Hc)].
  destruct (signature_of _ f) as [[]|e] eqn:Es.
  - by rewrite (handshake_completes cfg n now f Hc Es Hf).
  - by rewrite (handshake_signature cfg n now f e Hc Es).
Qed.

(** An accepted peer: its certificate has the pinned hash, and the signature over the
    transcript is one of that certificate's key. *)
Lemma connected_inv now f fp :
  ring_ready -> rc_connect now (Some f) fp = Some (Ok tt) ->
  sha256 (f_leaf f) = fp /\ signature_of (pinned_verifier (mkPinned fp ring_algorithms)) f = Ok tt.
Proof.
  intros [Hv [n Hn]]. unfold rc_connect, pinned_client_config. rewrite Hv, Hn. simpl. set (cfg := mkClientConfig _ _).
  destruct (client_handshake cfg n now f) as [[]|] eqn:Eh; [intros _|done].
  destruct (v_server_cert (cc_verifier cfg) (f_leaf f) (f_intermediates f) n (f_ocsp f) now) as [[]|e] eqn:Ec;
    [|by rewrite (handshake_cert _ _ _ _ _ Ec) in Eh].
  destruct (signature_of (cc_verifier cfg) f) as [[]|e] eqn:Es; [|by rewrite (handshake_signature _ _ _ _ _ Ec Es) in Eh].
  split; [|done]. simpl in Ec. unfold verify_server_cert in Ec. simpl in Ec. by case_bool_decide.
Qed.

(** C39: pinning, end to end. A relay keeps the identity it first wrote, whatever a later
    start would have generated, and its configuration presents that certificate; the
    fingerprint it prints is read back exactly by the CLI and by the client's
    configuration. With that pin a client connects to the relay, every time. It connects
    to no peer whose certificate has another hash, which is refused with the pin's error,
    nor to one that shows the relay's certificate without a signature of its key: a
    connection is proof of both. *)
Theorem pinned_channel cert key k addr :
  len cert < 2 ^ 32 -> key <> [] -> ring_ready -> parse_private_key key = Some k -> key_matches [cert] k = true ->
  let i := identity_generate cert key in
  exists file cfg,
    load_or_create true i NotFound = (file, Some i) /\
    (forall ok fresh, load_or_create ok fresh file = (file, Some i)) /\
    server_config i = Some cfg /\
    parse_fingerprint (fingerprint_hex i) = Some (Ok (fingerprint i)) /\
    relay_config_from_env (mkEnv (Some addr) (Some (fingerprint_hex i))) = Some (Some (mkRelayConfig addr (fingerprint i))) /\
    (forall now hello, rc_connect now (Some (server_flight cfg hello)) (fingerprint i) = Some (Ok tt)) /\
    (forall now f, f_agreed f = true -> sha256 (f_leaf f) <> sha256 cert ->
       rc_connect now (Some f) (fingerprint i) = Some (Err (TlsFailed (General pin_mismatch)))) /\
    (forall now f, rc_connect now (Some f) (fingerprint i) = Some (Ok tt) ->
       sha256 (f_leaf f) = sha256 cert /\
       match f_version f with
       | Tls12 => crypto_verify_tls12 (f_transcript f) (f_leaf f) (f_signed f) ring_algorithms = Ok tt
       | Tls13 => crypto_verify_tls13 (f_transcript f) (f_leaf f) (f_signed f) ring_algorithms = Ok tt
       end).
Proof.
  intros Hc Hk Hr Hp Hm. cbv zeta. set (i := identity_generate cert key).
  exists (Contents (to_file_bytes i)), (mkServerConfig [cert] k false). split; [done|].
  assert (Hf : fingerprint i = fingerprint_of (cert_der i)) by done.
  destruct (hex_fingerprint_decodes _ Hf) as (Ht & Hl & Hd).
  pose proof (identity_file_roundtrip cert key Hc Hk) as Hi. fold i in Hi.
  split; [intros ok fresh; unfold load_or_create; by rewrite Hi|].
  split; [unfold server_config; simpl; rewrite Hp; simpl; by rewrite Hm, (proj1 Hr)|].
  split; [unfold parse_fingerprint; by rewrite Ht, Hl, Hd|].
  split; [unfold relay_config_from_env; simpl; by rewrite Ht, Hl, Hd|].
  split; [|split].
  - intros now hello. destruct (server_presents (mkServerConfig [cert] k false) hello cert [] eq_refl Hm) as (E & Ha & Hs).
    rewrite pinned_connects by done. rewrite E. rewrite bool_decide_eq_true_2 by done.
    unfold signature_of, pinned_verifier, verify_tls12_signature, verify_tls13_signature. simpl. rewrite E.
    by destruct (f_version _); rewrite Hs.
  - intros now f Ha Hn. rewrite pinned_connects by done. by rewrite bool_decide_eq_false_2.
  - intros now f [H1 H2]%connected_inv; [|done]. split; [exact H1|]. unfold signature_of in H2. by destruct (f_version f).
Qed.
End Pin.
End Configs.

(** ** Example: a stack whose signatures are tags of the key's bytes *)

Module TlsExamples.
Import ToyInstances.

(** A certificate starts with its public key, which is the private one plus one; a
    signature of a transcript is the public key and the transcript. *)
Definition toy_key_of (cert : bytes) : Z := hd 0 cert.
Definition toy_check (message cert : bytes) (s : bytes) (_ : unit) : result unit TlsError :=
  if bool_decide (s = toy_key_of cert :: message) then Ok tt else Err RustlsError.

#[export] Instance toy_rustls : Rustls := {|
  Algorithms := unit; Signed := bytes; Scheme := unit; ServerName := bytes; PrivateKey := Z;
  ring_algorithms := tt; ring_default_versions := true; supported_schemes := fun _ => [tt];
  crypto_verify_tls12 := toy_check; crypto_verify_tls13 := toy_check;
  parse_server_name := Some; parse_private_key := head;
  key_matches := fun certs k => match certs with c :: _ => toy_key_of c =? k + 1 | [] => false end;
|}.

#[export] Instance toy_stack : TlsStack := {|
  client_handshake cfg n now f :=
    _ <-? v_server_cert (cc_verifier cfg) (f_leaf f) (f_intermediates f) n (f_ocsp f) now;
    _ <-? signature_of (cc_verifier cfg) f;
    if f_agreed f then Ok tt else Err RustlsError;
  server_flight cfg hello := mkFlight Tls13 (hd [] (sc_certs cfg)) (tail (sc_certs cfg)) [] hello (sc_key cfg + 1 :: hello) true;
|}.

#[export] Instance toy_tls_laws : @TlsLaws toy_rustls toy_stack.
Proof.
  split; simpl.
  - intros cfg n now f e ->. done.
  - intros cfg n now f e -> ->. done.
  - intros cfg n now f -> -> ->. done.
  - intros cfg hello leaf rest -> Hm. simpl in *. apply Z.eqb_eq in Hm. unfold toy_check. rewrite Hm.
    by rewrite bool_decide_eq_true_2.
Qed.

Definition relay_cert : bytes := [5; 6; 7].
Definition flight : Flight := server_flight (mkServerConfig [relay_cert] 4 false) [1; 2].
(** The relay's certificate, shown by someone without its key. *)
Definition imposter : Flight := mkFlight Tls13 relay_cert [] [] [1; 2] [9; 1; 2] true.

Lemma toy_ring : ring_ready.
Proof. split; [reflexivity|]. by eexists. Qed.

Lemma pinned_channel_witness :
  ring_ready /\ rc_connect 0 (Some flight) (fingerprint (identity_generate relay_cert [4])) = Some (Ok tt) /\
  rc_connect 0 (Some imposter) (fingerprint (identity_generate relay_cert [4])) = Some (Err (TlsFailed RustlsError)).
Proof.
  destruct (@pinned_channel _ toy_rustls toy_stack _ _ relay_cert [4] 4 "relay:7443" eq_refl ltac:(discriminate) toy_ring eq_refl eq_refl)
    as (file & cfg & _ & _ & Hcfg & _ & _ & H & _). injection Hcfg as <-.
  split; [exact toy_ring|]. split; [exact (H 0 [1; 2])|]. vm_compute. reflexivity.
Defined.
End TlsExamples.
