(* ===== verification/Chat.v ===== *)
(** * Two apps on one relay

    The composition of every part a message passes through: the client object of the
    sender, its engine, the relay, the engine of the recipient and its client object.
    The recipient's app was killed; it starts on its database, its engine's thread
    resumes, and its turns work through what the relay pushes. What they record in the
    conversation is a function of the events alone ([inbound]). *)

From S2P Require Import Prelude Text External Proto ProtoProps Relay RelaySpec RelayRefine RelayDurable RelayRun RelayProps RelayPush RelayGates CoreBackup CoreSession CoreProps Engine EngineInv EngineProps EnginePair Network Ffi FfiProps FfiRun FfiUi.

#[local] Arguments persist {X} _ _ : simpl never.

(** ** An engine that works through pushes *)

Section Pumping.
Context {X : ClientExt} {BE : BincodeLaws PersistedEngine} {BS : BincodeLaws SessionSnapshot}.
Implicit Types (e : Engine) (l : list Envelope) (k : gset MessageId).

(** What an engine that took the pushes [l] of the mailbox [q] has done. *)
Record took (q : QueueId) (l : list Envelope) (io : Io) (e : Engine) (io' : Io) (e' : Engine) : Prop := {
  tk_requests : requests (trace io') = requests (trace io) ++ (Ack q <$> (message_id <$> l));
  tk_applied : applied (trace io') = applied (trace io) ++ unseen (seen e) l;
  tk_seen : seen e' = list_to_set (message_id <$> l) ∪ seen e;
  tk_kept : seen e ⊆ dk_seen (disk io) -> seen e' ⊆ dk_seen (disk io');
  tk_engine : store e' = store e /\ mailbox_qid e' = mailbox_qid e /\ inbox e' = inbox e;
}.

Lemma took_nil q io e : took q [] io e io e.
Proof. split; simpl; rewrite ?app_nil_r, ?(left_id_L ∅ (∪)); done. Qed.

Lemma took_app q l1 l2 io e io1 e1 io2 e2 :
  took q l1 io e io1 e1 -> took q l2 io1 e1 io2 e2 -> took q (l1 ++ l2) io e io2 e2.
Proof.
  intros [A1 A2 A3 A4 A5] [B1 B2 B3 B4 B5]. split.
  - by rewrite B1, A1, !fmap_app, app_assoc.
  - by rewrite B2, A2, A3, unseen_app, app_assoc.
  - rewrite B3, A3, fmap_app, list_to_set_app_L. set_solver.
  - auto.
  - naive_solver congruence.
Qed.

(** The script still holds the pushes [l] and an answer to each acknowledgement. *)
Record fed (q : QueueId) (l : list Envelope) (io : Io) : Prop := {
  fd_pushes : io_pushes io = (fun env => Some (q, env)) <$> l;
  fd_calls : io_calls io = replicate (length l) (Some SOk);
  fd_commits : io_commits io = [];
}.

(** One pump: the message was known, or it is the next event. *)
Lemma pump_absorbs q env l s' evs io e :
  store e = true -> absorbs (session e) (seen e) (env :: l) s' evs -> fed q (env :: l) io ->
  exists io' e', pump_one (io, e) = ((io', e'), Done tt) /\ took q [env] io e io' e' /\ fed q l io' /\
    ((pending_events e' = pending_events e /\ absorbs (session e') (seen e') l s' evs) \/
     (exists ev evs', evs = ev :: evs' /\ pending_events e' = pending_events e ++ [ev] /\
                      absorbs (session e') (seen e') l s' evs')).
Proof.
  intros Hs Ha [Hp Hr Hc]. cbn [length replicate] in Hr. cbn [fmap list_fmap] in Hp.
  assert (Hc' : hd true (io_commits io) = true) by by rewrite Hc.
  inversion Ha as [|? ? ? ? ? ? Hk Ha'|? ? ? ? s1 inc ev ? evs' Hk Hm He Ha']; subst.
  - pose proof (pump_known io e q env _ Hp Hk) as H1. pose proof (pump_known_done io e q env _ _ Hp Hk Hr) as H2.
    destruct (pump_one (io, e)) as [w r]. simpl in H1, H2. subst w r. eexists _, _. split; [reflexivity|].
    split; [|split; [split; simpl; by rewrite ?Hr|by left]].
    split; simpl; rewrite ?requests_app, ?applied_app, ?(bool_decide_eq_true_2 _ Hk); try done. set_solver.
  - pose proof (pump_first_sight io e q env _ s1 inc ev Hs Hp Hk Hm He Hc') as H1.
    pose proof (pump_first_done io e q env _ _ s1 inc ev Hs Hp Hk Hm He Hc' Hr) as H2.
    destruct (pump_one (io, e)) as [w r]. simpl in H1, H2. subst w r. eexists _, _. split; [reflexivity|].
    split; [|split; [split; simpl; by rewrite ?Hr, ?Hc|right; by exists ev, evs']].
    split; simpl; rewrite ?requests_app, ?applied_app, ?(bool_decide_eq_false_2 _ Hk); try done; set_solver.
Qed.

Lemma next_event_pop fuel io e ev rest :
  pending_events e = ev :: rest -> next_event_loop (S fuel) (io, e) = ((io, set_events rest e), Done ev).
Proof. intros He. cbn [next_event_loop]. unfold w_bind at 1, w_get. simpl. by rewrite He. Qed.
Lemma next_event_pump fuel io e io' e' :
  pending_events e = [] -> pump_one (io, e) = ((io', e'), Done tt) ->
  next_event_loop (S fuel) (io, e) = next_event_loop fuel (io', e').
Proof. intros He Hp. cbn [next_event_loop]. unfold w_bind at 1, w_get. simpl. rewrite He. unfold w_bind. by rewrite Hp. Qed.

(** The next event of an engine that has one coming. *)
Lemma next_event_loop_run q l s' ev evs io e fuel :
  store e = true -> absorbs (session e) (seen e) l s' (ev :: evs) -> pending_events e = [] -> fed q l io -> (length l < fuel)%nat ->
  exists l1 l2 io' e', l = l1 ++ l2 /\ next_event_loop fuel (io, e) = ((io', e'), Done ev) /\ took q l1 io e io' e' /\
    fed q l2 io' /\ pending_events e' = [] /\ absorbs (session e') (seen e') l2 s' evs.
Proof.
  revert io e fuel. induction l as [|env l IH]; intros io e fuel Hs Ha He Hf Hl; [inversion Ha|].
  destruct fuel as [|fuel]; [simpl in Hl; lia|]. cbn [length] in Hl.
  destruct (pump_absorbs q env l s' _ io e Hs Ha Hf) as (io1 & e1 & Hp & T & F & [[Hq Ha1]|(ev' & evs' & [= <- <-] & Hq & Ha1)]);
    rewrite (next_event_pump _ _ _ _ _ He Hp); rewrite He in Hq.
  - destruct (IH io1 e1 fuel) as (l1 & l2 & io' & e' & -> & Hr & T' & H'); [|done|done|done|lia|].
    { by rewrite (proj1 (tk_engine _ _ _ _ _ _ T)). }
    exists (env :: l1), l2, io', e'. split; [done|]. split; [done|]. split; [by eapply (took_app q [env])|done].
  - destruct fuel as [|fuel]; [lia|]. rewrite (next_event_pop _ _ _ ev []) by done.
    exists [env], l, io1, (set_events [] e1). split; [done|]. split; [done|]. split; [|done]. destruct T. by split.
Qed.

(** An engine with nothing but known messages ahead acknowledges them and waits. *)
Lemma next_event_loop_idle q l s' io e fuel :
  store e = true -> absorbs (session e) (seen e) l s' [] -> pending_events e = [] -> fed q l io -> (length l < fuel)%nat ->
  exists io' e', next_event_loop fuel (io, e) = ((io', e'), Blocked) /\ took q l io e io' e' /\ session e' = s'.
Proof.
  revert io e fuel. induction l as [|env l IH]; intros io e fuel Hs Ha He Hf Hl; (destruct fuel as [|fuel]; [lia|]).
  { inversion Ha; subst. exists io, e. split; [|split; [apply took_nil|done]].
    cbn [next_event_loop]. unfold w_bind at 1, w_get. simpl. rewrite He. unfold pump_one, w_bind, recv.
    by rewrite (fd_pushes _ _ _ Hf). }
  cbn [length] in Hl.
  destruct (pump_absorbs q env l s' _ io e Hs Ha Hf) as (io1 & e1 & Hp & T & F & [[Hq Ha1]|(? & ? & [=] & _)]).
  rewrite (next_event_pump _ _ _ _ _ He Hp). rewrite He in Hq.
  destruct (IH io1 e1 fuel) as (io' & e' & Hr & T' & H'); [|done|done|done|lia|].
  { by rewrite (proj1 (tk_engine _ _ _ _ _ _ T)). }
  exists io', e'. split; [done|]. split; [by eapply (took_app q [env])|done].
Qed.

Lemma fed_fuel q l io : fed q l io -> (length l < S (S (length (io_pushes io))))%nat.
Proof. intros [-> _ _]. rewrite length_fmap. lia. Qed.
End Pumping.

(** ** An app that works through pushes *)

Section Turns.
Context {X : FfiExt} {BE : BincodeLaws PersistedEngine} {BS : BincodeLaws SessionSnapshot} {BU : BincodeLaws (UiStore * Z)}.
Implicit Types (io : Io) (a : App) (e : Engine) (c : bytes).

(** Turns of the engine's thread, by the clock of each. *)
Fixpoint turns (nows : list Z) : W App unit :=
  match nows with [] => w_ret tt | now :: nows' => _ <~ actor_turn now; turns nows' end.

(** The message a received text becomes. *)
Definition received (seq now : Z) (bs : bytes) : ChatMessage :=
  mkMsg (str "msg-" ++ decimal seq) (utf8_lossy bs) false now DReceived.

Definition seq_after (seq : Z) (ev : Event) : Z := match ev with EMessage _ => seq +64 1 | _ => seq end.

(** What a conversation gets from events taken at these times, from message [seq] on. *)
Fixpoint inbound (seq : Z) (nows : list Z) (evs : list Event) : list ChatMessage :=
  match nows, evs with
  | now :: nows', ev :: evs' =>
      match ev with EMessage bs => [received seq now bs] | _ => [] end ++ inbound (seq_after seq ev) nows' evs'
  | _, _ => []
  end.

(** ... and what the listener is told. *)
Fixpoint announced (c : bytes) (seq : Z) (nows : list Z) (evs : list Event) : list EngineEvent :=
  match nows, evs with
  | now :: nows', ev :: evs' =>
      match ev with
      | EMessage bs => MessageReceived c (received seq now bs)
      | EpochAdvanced _ => SecurityCodeChanged c
      | ConnectionChanged b => ConnectionStateChanged b
      end :: announced c (seq_after seq ev) nows' evs'
  | _, _ => []
  end.

Lemma inbound_announced c seq nows evs bs :
  EMessage bs ∈ evs -> length nows = length evs ->
  exists m, m ∈ inbound seq nows evs /\ MessageReceived c m ∈ announced c seq nows evs /\
            m_body m = utf8_lossy bs /\ m_mine m = false /\ m_delivery m = DReceived.
Proof.
  revert seq nows. induction evs as [|ev evs IH]; intros seq [|now nows] He Hl; try done; [set_solver|].
  apply elem_of_cons in He as [<-|He].
  - exists (received seq now bs). simpl. set_solver.
  - injection Hl as Hl. destruct (IH (seq_after seq ev) nows He Hl) as (m & H1 & H2 & H3).
    exists m. simpl. split; [apply elem_of_app; by right|]. split; [by apply list_elem_of_further|done].
Qed.

(** The database holds the conversations as they are shown. *)
Definition synced io a : Prop := Store_get (str "ui.state") (disk io) = Some (bincode_serialize (a_ui a, a_seq a)).

(** The app took these events. *)
Record absorbed c (nows : list Z) (evs : list Event) io a io' a' : Prop := {
  ab_messages : messages c a' = messages c a ++ inbound (a_seq a) nows evs;
  ab_others : forall c', c' <> c -> messages c' a' = messages c' a;
  ab_list : is_Some (u_messages (a_ui a) !! c) -> is_Some (u_messages (a_ui a') !! c);
  ab_seq : a_seq a' = foldl seq_after (a_seq a) evs;
  ab_channel : a_channel a' = a_channel a ++ (DEvent <$> announced c (a_seq a) nows evs);
  ab_disk : a_disk a' = a_disk a;
  ab_synced : a_disk a = true -> synced io a -> synced io' a';
}.

Lemma absorbed_cons c now ev nows evs io a io1 a1 io2 a2 :
  absorbed c [now] [ev] io a io1 a1 -> absorbed c nows evs io1 a1 io2 a2 -> absorbed c (now :: nows) (ev :: evs) io a io2 a2.
Proof.
  intros [A1 A2 A3 A4 A5 A6 A7] [B1 B2 B3 B4 B5 B6 B7]. simpl in *. split; simpl.
  - rewrite B1, A1, A4, app_nil_r, <- app_assoc. done.
  - intros c' Hc. by rewrite B2, A2.
  - auto.
  - by rewrite B4, A4.
  - by rewrite B5, A5, A4, <- app_assoc.
  - congruence.
  - intros Hd Hs. apply B7; [congruence|]. auto.
Qed.

(** A transaction of the UI half, when the store takes it. *)
Lemma persist_ui_run io a : a_disk a = true -> io_commits io = [] ->
  exists d, persist_ui (io, a) = ((set_disk d io, a), Done tt) /\ dk_seen d = dk_seen (disk io) /\ synced (set_disk d io) a.
Proof.
  intros Hd Hc. unfold persist_ui, Store_commit. rewrite Hd, Hc. eexists. split; [unfold set_disk; by rewrite Hc|].
  split; [apply (left_id_L ∅ (∪))|]. unfold synced, Store_get. simpl. by rewrite lookup_insert_eq.
Qed.

Lemma set_disk_same io : io_commits io = [] -> set_disk (disk io) io = io.
Proof. destruct io. simpl. by intros ->. Qed.

(** One event, forwarded. *)
Lemma forward_run now ev c io a :
  a_disk a = true -> is_Some (u_messages (a_ui a) !! c) -> io_commits io = [] ->
  exists d a', forward_event now ev c (io, a) = ((set_disk d io, a'), Done tt) /\ dk_seen d = dk_seen (disk io) /\
    a_backend a' = a_backend a /\ absorbed c [now] [ev] io a (set_disk d io) a'.
Proof.
  intros Hd [ms Hm] Hc.
  assert (Hquiet : forall x, (forall s, announced c s [now] [ev] = [x]) -> (forall s, inbound s [now] [ev] = []) -> seq_after (a_seq a) ev = a_seq a ->
    exists d a', dispatch x (io, a) = ((set_disk d io, a'), Done tt) /\ dk_seen d = dk_seen (disk io) /\
      a_backend a' = a_backend a /\ absorbed c [now] [ev] io a (set_disk d io) a').
  { intros x H1 H2 H3. exists (disk io), (post (DEvent x) a). rewrite set_disk_same by done. repeat (split; [done|]).
    split; rewrite ?H1, ?H2, ?app_nil_r; done. }
  destruct ev as [bs|n|b]; [|by apply Hquiet..].
  set (m := received (a_seq a) now bs).
  set (a1 := set_ui (record c m (with_received (m_body m)) (a_ui a)) (set_seq (a_seq a +64 1) a)).
  destruct (persist_ui_run io a1 Hd Hc) as (d & E & Hseen & Hsync).
  exists d, (post (DEvent (MessageReceived c m)) a1). split; [|split; [done|split; [done|]]].
  - assert (Ek : (_ <~ persist_ui; dispatch (MessageReceived c m)) (io, a1) = ((set_disk d io, post (DEvent (MessageReceived c m)) a1), Done tt))
      by (unfold w_bind; by rewrite E). exact Ek.
  - destruct (messages_record c m (with_received (m_body m)) a ms Hm a1 eq_refl) as [M1 M2].
    split; try done. intros _. simpl. rewrite Hm. simpl. rewrite lookup_insert_eq. by eexists.
Qed.

Lemma took_script q io e d : io_commits io = [] -> dk_seen d = dk_seen (disk io) -> took q [] io e (set_disk d io) e.
Proof. intros _ Hd. split; simpl; rewrite ?app_nil_r, ?(left_id_L ∅ (∪)), ?Hd; done. Qed.

(** Turns that work through everything the relay pushes, and the one that then waits. *)
Lemma turns_run q c l s' evs nows t io a e :
  a_backend a = Actor e (Some c) -> a_disk a = true -> is_Some (u_messages (a_ui a) !! c) -> store e = true ->
  absorbs (session e) (seen e) l s' evs -> pending_events e = [] -> fed q l io -> length nows = length evs ->
  exists io' a' e', turns (nows ++ [t]) (io, a) = ((io', a'), Blocked) /\ a_backend a' = Actor e' (Some c) /\ session e' = s' /\
    took q l io e io' e' /\ absorbed c nows evs io a io' a'.
Proof.
  revert nows l io a e. induction evs as [|ev evs IH]; intros [|now nows] l io a e Hb Hd Hm Hs Ha He Hf Hl; try done.
  - destruct (next_event_loop_idle q l s' io e _ Hs Ha He Hf (fed_fuel _ _ _ Hf)) as (io' & e' & Hn & T & Hs').
    exists io', (set_backend (Actor e' (Some c)) a), e'.
    split; [|split; [done|split; [done|split; [done|]]]].
    + cbn [app turns]. unfold w_bind at 1, actor_turn. rewrite Hb. unfold actor_top, w_bind at 1. cbn [w_ret].
      unfold w_bind at 1, with_core, next_event. cbn [fst]. by rewrite Hn.
    + split; simpl; rewrite ?app_nil_r; try done. unfold synced.
      pose proof (frame_next_event (io, e)) as [_ Hfr]. unfold next_event in Hfr. cbn [fst] in Hfr. rewrite Hn in Hfr. cbn [fst] in Hfr.
      intros _. by rewrite Hfr by apply ui_state_foreign.
  - destruct (next_event_loop_run q l s' ev evs io e _ Hs Ha He Hf (fed_fuel _ _ _ Hf))
      as (l1 & l2 & io1 & e1 & -> & Hn & T & F & He1 & Ha1).
    set (a1 := set_backend (Actor e1 (Some c)) a).
    destruct (forward_run now ev c io1 a1 Hd Hm (fd_commits _ _ _ F)) as (d & a2 & Hw & Hseen & Hb2 & Ab).
    destruct (IH nows l2 (set_disk d io1) a2 e1) as (io' & a' & e' & Hr & Hb' & Hs' & T' & Ab'); try done.
    { by rewrite (ab_disk _ _ _ _ _ _ _ Ab). }
    { by apply (ab_list _ _ _ _ _ _ _ Ab). }
    { by rewrite (proj1 (tk_engine _ _ _ _ _ _ T)). }
    { destruct F as [F1 F2 F3]. split; simpl; by rewrite ?F3. }
    { by injection Hl. }
    exists io', a', e'. split; [|split; [done|split; [done|split]]].
    + cbn [app turns]. unfold w_bind at 1, actor_turn at 1. rewrite Hb. unfold actor_top, w_bind at 1. cbn [w_ret].
      unfold w_bind at 1, with_core, next_event. cbn [fst]. rewrite Hn. fold a1. rewrite Hw. exact Hr.
    + eapply took_app; [exact T|]. apply (took_app q [] l2 _ _ (set_disk d io1) e1); [|done].
      apply took_script; [apply F|done].
    + eapply absorbed_cons; [|exact Ab'].
      pose proof (frame_next_event (io, e)) as [_ Hfr]. unfold next_event in Hfr. cbn [fst] in Hfr. rewrite Hn in Hfr. cbn [fst] in Hfr.
      destruct Ab as [B1 B2 B3 B4 B5 B6 B7]. split; try done. intros Hd' Hsy. apply B7; [done|].
      unfold synced. by rewrite Hfr by apply ui_state_foreign.
Qed.
End Turns.

(** ** The two together *)

Section Chat.
Context {X : FfiExt} {BE : BincodeLaws PersistedEngine} {BS : BincodeLaws SessionSnapshot} {BU : BincodeLaws (UiStore * Z)}.
Context {R : RelayExt} `{!RelayExtLaws R} {SC : SameCrates ffi_client R}.

(** The database of an app that is not running: the conversations [u], with [c] the one
    its engine serves, the next message number, and the engine [e]. *)
Record asleep (c : bytes) (u : UiStore) (n : Z) (e : Engine) (d : Disk) : Prop := {
  as_ui : Store_get (str "ui.state") d = Some (bincode_serialize (u, n));
  as_row : c_id <$> head (u_conversations u) = Some c;
  as_list : is_Some (u_messages u !! c);
  as_engine : exists ids d0, d = saved e ids d0 /\ seen e = ids ∪ dk_seen d0;
  as_ids : set_Forall (fun v => len v = 16) (seen e);
  as_sync : in_sync (session e);
}.

(** The engine's rows leave the conversations alone. *)
Lemma saved_ui e ids d : Store_get (str "ui.state") (saved e ids d) = Store_get (str "ui.state") d.
Proof. unfold Store_get, saved. simpl. by rewrite !lookup_insert_ne by done. Qed.

(** The app starts on its database and its engine resumes. *)
Lemma wakes c u n e d env cfg name :
  asleep c u n e d -> relay_config_from_env env = Some cfg ->
  exists b, new_persistent env name (dk_key d) (Some d) = Some (Some d, Ok b) /\ a_ui b = u /\ a_seq b = n /\ a_channel b = [] /\
    a_disk b = true /\
    forall io cs rs, disk io = d -> io_connects io = true :: cs -> io_calls io = Some SOk :: rs ->
      resume_turn (io, b) =
        ((mkIo rs (io_pushes io) cs (io_commits io) (io_rnd io) (trace io ++ [Called (Subscribe [mailbox_qid e])]) d,
          set_backend (Actor (revived e (seen e)) (Some c)) b), Done tt).
Proof.
  intros [Hu Hrow Hlist (ids & d0 & Hd & Hseen) Hids Hsync] Hcfg.
  assert (He : Store_get (str "engine") d = Some (bincode_serialize (engine_record e))).
  { rewrite Hd. unfold Store_get, saved. simpl. rewrite lookup_insert_ne by done. apply lookup_insert_eq. }
  exists (mkApp name cfg (Some (dk_key d)) u n true [] (Resuming false) false [] [] []).
  split; [|repeat (split; [done|])].
  - unfold new_persistent, Store_open. rewrite bool_decide_eq_true_2 by done. rewrite Hu, bincode_roundtrip_exact. unfold build.
    rewrite Hcfg, He. done.
  - intros io cs rs Hio Hc Hr. unfold resume_turn, Store_open. cbn [a_backend a_persist a_ui].
    rewrite Hio, bool_decide_eq_true_2 by done.
    rewrite (resume_saved e ids d0 io cs rs) by (try done; by rewrite ?Hio, <- ?Hseen). rewrite Hrow, <- Hseen, Hio. done.
Qed.

(** What happens when that app is opened with the backlog [p] waiting at the relay. The
    relay answers every request its engine is going to make, and its mailbox ends up
    empty; the app, with these answers and pushes, makes exactly these requests, shows
    the messages of the events in order, announces them, and has all of it on disk when
    its thread waits for the next push. *)
Definition catches_up (cb : ChanId) (envs : nat -> Relay.Env) (w : World) (c : bytes) (u : UiStore) (n : Z) (e : Engine) (d : Disk)
    (km : bytes) (p : list (MessageId * Envelope)) (s' : Session) (evs : list Event) (env : Env) (name : bytes) : Prop :=
  let q := mailbox_qid e in
  let reqs := Subscribe [q] :: (Ack q <$> p.*1) in
  exists w' replies b,
    answer cb envs reqs w = Some (w', replies) /\ abs (inner w') !! q = Some (km, Mailbox []) /\
    new_persistent env name (dk_key d) (Some d) = Some (Some d, Ok b) /\
    forall io nows t, script_of cb w w' replies io -> disk io = d -> length nows = length evs ->
      exists io' b' e', (_ <~ resume_turn; turns (nows ++ [t])) (io, b) = ((io', b'), Blocked) /\
        a_backend b' = Actor e' (Some c) /\ session e' = s' /\
        requests (trace io') = requests (trace io) ++ reqs /\
        applied (trace io') = applied (trace io) ++ unseen (seen e) (p.*2) /\
        messages c b' = default [] (u_messages u !! c) ++ inbound n nows evs /\
        a_channel b' = DEvent <$> announced c n nows evs /\
        list_to_set (p.*1) ∪ seen e ⊆ dk_seen (disk io') /\ synced io' b'.

Lemma asleep_catches_up cb envs w c u n e d km p s' evs env cfg name :
  asleep c u n e d -> relay_config_from_env env = Some cfg -> up w -> open_chan w cb = true -> healthy envs ->
  abs (inner w) !! mailbox_qid e = Some (km, Mailbox p) -> absorbs (session e) (seen e) (p.*2) s' evs ->
  catches_up cb envs w c u n e d km p s' evs env name.
Proof.
  intros Has Hcfg Hu Ho He Hq Ha. destruct (wakes c u n e d env cfg name Has Hcfg) as (b & Hnew & Hui & Hseq & Hch & Hbd & Hres).
  destruct (catch_up_answered _ km p envs cb w Hu He Ho Hq) as (w' & H1 & _ & H2 & H3 & _).
  exists w', (replicate (S (length p)) SOk), b. split; [done|]. split; [done|]. split; [done|].
  intros io nows t [[cs Hn] Hr Hp Hc] Hd Hl. rewrite H2, drop_app_length in Hp. rewrite fmap_replicate in Hr.
  pose proof (filed_ids _ _ _ _ (inv_wf _ (up_inv _ Hu)) Hq) as Hf. cbn [replicate] in Hr.
  unfold w_bind. rewrite (Hres io cs _ Hd Hn Hr). clear Hres.
  set (b1 := set_backend _ b). set (io1 := mkIo _ _ _ _ _ _ _).
  destruct (turns_run (mailbox_qid e) c (p.*2) s' evs nows t io1 b1 (revived e (seen e))) as (io' & b' & e' & Hrun & Hb' & Hs' & T & Ab); try done.
  { unfold b1. simpl. rewrite Hui. apply Has. }
  { split; simpl; [rewrite Hp; unfold forwarded; by rewrite <- !list_fmap_compose|by rewrite length_fmap|done]. }
  destruct T as [T1 T2 T3 T4 _], Ab as [B1 _ _ _ B5 _ B7]. simpl in T1, T2, T3, T4.
  rewrite requests_app, Hf, <- app_assoc in T1. rewrite applied_app, app_nil_r in T2.
  exists io', b', e'. split; [done|]. split; [done|]. split; [done|]. split; [done|]. split; [done|].
  split; [by rewrite B1; unfold messages, b1; simpl; rewrite Hui, Hseq|].
  split; [by rewrite B5; unfold b1; simpl; rewrite Hch, Hseq|]. split.
  - rewrite <- Hf, <- T3. apply T4. destruct Has as [_ _ _ (ids & d0 & -> & ->) _ _]. done.
  - apply B7; [done|]. unfold synced, b1. simpl. rewrite Hui, Hseq. apply Has.
Qed.

(** A send of the client object whose engine gets the answer of the relay. *)
Lemma app_sends now c r text q key env io rs a core ms :
  a_backend a = Actor core (Some c) -> u_messages (a_ui a) !! c = Some ms -> sends core r text q key env ->
  io_calls io = [Some SOk] -> io_rnd io = r :: rs -> io_commits io = [] ->
  exists io' a', send now c text (io, a) = ((io', a'), Done (Ok tt)) /\
    requests (trace io') = requests (trace io) ++ [send_request q key env] /\
    messages c a' = messages c a ++ [mkMsg (str "msg-" ++ decimal (a_seq a)) text true now DSent].
Proof.
  intros Hb Hm Hs Hc Hr Hk. destruct (send_message_run core r text q key env io rs Hs Hc Hr Hk) as (io1 & core1 & E & T & _).
  assert (Hp : is_paired core = true) by (unfold is_paired; by rewrite (sd_inbox _ _ _ _ _ _ Hs)).
  unfold send, ask_send. rewrite Hm, Hb. unfold actor_top. rewrite Hp.
  unfold w_bind at 1. cbn [w_ret default negb]. unfold w_bind at 1, with_core. rewrite E.
  set (msg := mkMsg (str "msg-" ++ decimal (a_seq a)) text true now DSent).
  set (a1 := set_ui (record c msg (with_last text) (a_ui a)) (set_seq (a_seq a +64 1) (set_backend (Actor core1 (Some c)) a))).
  assert (Hpu : exists d, persist_ui (io1, a1) = ((if a_disk a1 then set_disk d io1 else io1, a1), Done tt)).
  { unfold persist_ui. destruct (a_disk a1); [|by exists (disk io1)]. destruct (Store_commit _ _ _ _) as [d res]. by exists d. }
  destruct Hpu as [d Hpu]. eexists _, (post (DEvent (ConversationUpdated c)) a1). split; [|split].
  - assert (Ek : (_ <~ persist_ui; _ <~ dispatch (ConversationUpdated c); w_ret (Ok tt : result unit EngineError)) (io1, a1)
        = ((if a_disk a1 then set_disk d io1 else io1, post (DEvent (ConversationUpdated c)) a1), Done (Ok tt))).
    { unfold w_bind at 1. by rewrite Hpu. }
    exact Ek.
  - rewrite <- T. by destruct (a_disk a1).
  - by apply (messages_record c msg (with_last text) a ms).
Qed.

(** C2: a text gets from one person to the other. The sender's app reports the text as
    sent, and the relay accepts the very request its engine makes. Whatever admissible
    operations the relay then goes through, restarts and other traffic included (no
    commit for epoch 2^63-1 on a relay with a database, which could not be opened
    again: [last_epoch_commit_bricks_database]), as long as the recipient's mailbox does
    not acknowledge the message, it waits there. When the
    recipient opens the app, with the relay up and the disks at work, and its session
    accepts every message of the backlog it has not seen (one that it refuses ends the
    loop and stays first in line: [refused_message]), its engine resumes and takes the
    backlog, each message once; the mailbox ends up empty; the conversation shows the
    text, announced to the listener and recorded in the database. About MLS this takes
    further that a session which accepts the ciphertext decrypts it to the text. *)
Theorem chat_delivered a core ca ms r text q key env er w conn roster c u n e d km p0 genv cfg name :
  a_backend a = Actor core (Some ca) -> u_messages (a_ui a) !! ca = Some ms -> utf8 text ->
  sends core r text q key env -> takes er w q key roster env ->
  asleep c u n e d -> relay_config_from_env genv = Some cfg ->
  mailbox_qid e ∈ roster -> abs (inner w) !! mailbox_qid e = Some (km, Mailbox p0) -> message_id env ∉ seen e ->
  (forall s1 s2 inc, process_incoming (padded_ciphertext env) s1 = (s2, Ok inc) -> inc = Application text) ->
  exists w1, answer conn (fun _ => er) [send_request q key env] w = Some (w1, [SOk]) /\
    (forall io rs now, io_calls io = [Some SOk] -> io_rnd io = r :: rs -> io_commits io = [] ->
       exists io' a', send now ca text (io, a) = ((io', a'), Done (Ok tt)) /\
         requests (trace io') = requests (trace io) ++ [send_request q key env] /\
         messages ca a' = messages ca a ++ [mkMsg (str "msg-" ++ decimal (a_seq a)) text true now DSent]) /\
    (forall ops, ops_ok ops w1 = true -> LAcked (mailbox_qid e) (message_id env) ∉ (RelayRun.run ops w1).2 ->
       let w2 := (RelayRun.run ops w1).1 in
       exists p, abs (inner w2) !! mailbox_qid e = Some (km, Mailbox p) /\ (message_id env, env) ∈ p /\
       forall cb envs s' evs, up w2 -> open_chan w2 cb = true -> healthy envs -> absorbs (session e) (seen e) (p.*2) s' evs ->
         (forall env', env' ∈ p.*2 -> message_id env' = message_id env -> env' = env) ->
         catches_up cb envs w2 c u n e d km p s' evs genv name /\
         forall nows, length nows = length evs ->
           exists m, m ∈ inbound n nows evs /\ MessageReceived c m ∈ announced c n nows evs /\
                     m_body m = text /\ m_mine m = false /\ m_delivery m = DReceived).
Proof.
  intros Hb Hm Htext Hs Ht Has Hcfg Hin Hq Hn Hd. destruct (sd_wire _ _ _ _ _ _ Hs) as (sa & wire & _ & Hw).
  destruct (accepted_waits er w conn q key roster env _ km p0 Ht (wrap_len _ _ Hw) Hin Hq) as (w1 & H1 & Hwait).
  exists w1. split; [cbn [answer]; by rewrite H1|]. split; [intros; by eapply app_sends|].
  intros ops Hok Ha w2. destruct (Hwait ops Hok Ha) as (p & Hp & He). exists p. split; [done|]. split; [done|].
  intros cb envs s' evs Hu Ho Hh Hab Huniq. split; [by eapply asleep_catches_up|]. intros nows Hl.
  pose proof (list_elem_of_fmap_2 snd p _ He) as He2. simpl in He2.
  assert (Hev : EMessage text ∈ evs) by (by eapply absorbs_event).
  destruct (inbound_announced c n nows evs text Hev Hl) as (m & M1 & M2 & M3 & M4). exists m. by rewrite M3, (utf8_lossy_id text Htext).
Qed.
End Chat.
