(* ===== verification/ChatExamples.v ===== *)
(** * Two concrete apps on one relay

    Alice writes to Bob while Bob's phone is off and the relay restarts: the composition
    theorems of [Chat.v] at the apps, engines and relay of the other scenarios. *)

From S2P Require Import Prelude Text External Proto ProtoProps Relay RelaySpec RelayRefine RelayDurable RelayRun RelayProps RelayPush RelayGates CoreBackup CoreSession CoreProps Engine EngineInv EngineProps EnginePair Network Ffi FfiProps FfiRun FfiUi FfiExamples Chat.

Module ChatExamples.
Import ToyInstances RelayToy Scenario ToyMls EngineExamples NetworkExamples.

Definition alice_ui : UiStore := mkUi [mkConv CONVERSATION_ID (str "bob") None 0 false] {[CONVERSATION_ID := []]}.
Definition alice_app : App := set_backend (Actor alice (Some CONVERSATION_ID)) (the_app (build no_env (str "alice") (Some [1]) true alice_ui 1)).
Definition bob_disk : Disk := saved bob ∅ (mkDisk [2] {[str "ui.state" := bincode_serialize (bob_ui, 1)]} ∅).

Lemma alice_rows : u_messages (a_ui alice_app) !! CONVERSATION_ID = Some [].
Proof. apply lookup_singleton_eq. Qed.

Lemma bob_synced : in_sync (session bob).
Proof. intros g Hg. vm_compute in Hg. injection Hg as <-. vm_compute. reflexivity. Qed.

Lemma bob_asleep : asleep CONVERSATION_ID bob_ui 1 bob bob_disk.
Proof.
  split; [|reflexivity|exists []; apply lookup_singleton_eq| |by intros v|exact bob_synced].
  - exact (eq_trans (saved_ui bob ∅ _) (lookup_singleton_eq _ _)).
  - exists ∅, (mkDisk [2] {[str "ui.state" := bincode_serialize (bob_ui, 1)]} ∅). split; reflexivity.
Qed.

Lemma chat_delivered_witness :
  catches_up 1%nat (fun _ => at_ 9 []) later CONVERSATION_ID bob_ui 1 bob bob_disk (idq 102) waiting heard_hi [EMessage (str "hi")] no_env (str "bob") /\
  exists m, m ∈ inbound 1 [99] [EMessage (str "hi")] /\ m_body m = str "hi".
Proof.
  destruct (chat_delivered alice_app alice CONVERSATION_ID [] [6] (str "hi") (idq 3) (idq 103) hi (at_ 4 []) ready 0%nat [idq 1; idq 2]
              CONVERSATION_ID bob_ui 1 bob bob_disk (idq 102) [] no_env None (str "bob")
              eq_refl alice_rows hi_utf8 alice_sends ready_takes bob_asleep eq_refl bob_member bob_before (not_elem_of_empty _) hi_decrypts)
    as (w1 & H1 & _ & H2).
  apply answer_one in H1. change (w1 = after) in H1. subst w1.
  destruct (H2 gap gap_ok gap_no_ack) as (p & Hp & _ & H3). apply same_backlog in Hp. subst p.
  destruct (H3 1%nat (fun _ => at_ 9 []) heard_hi _ later_up eq_refl at_healthy bob_absorbs waiting_unique) as (Hc & Hm).
  split; [exact Hc|]. destruct (Hm [99] eq_refl) as (m & M1 & _ & M3 & _). exists m. split; [exact M1|exact M3].
Defined.
End ChatExamples.
