(* ===== verification/Deploy.v ===== *)
(** * The binaries (directory/src/main.rs, relay/src/main.rs, and what they start)

    How the two servers come up from their environment: the directory's pepper, OTP
    vendor and attestation key, the relay's identity, state and attestation key. What
    the operating system holds is an argument: environment variables, files, the
    answers of the OTP vendor's HTTP interface. The listening loops are not modelled.
    The chain of an attestation token, from the directory that signs it through the
    app to the relay that takes it, is a theorem about all of them together. *)

From S2P Require Import Prelude Text External Proto ProtoProps Relay RelaySpec RelayRefine RelayDurable RelayRun RelayProps RelayTokens RelayNet CoreSession Engine Ffi DirLogic DirStore DirApi DirInv DirProps.

(** ** The Twilio client (directory/src/verify.rs) *)

(** A POST with basic authentication and a form. *)
Record HttpPost := mkPost { post_url : bytes; post_user : bytes; post_password : bytes; post_form : list (bytes * bytes) }.

Record Twilio := mkTwilio { account_sid : bytes; auth_token : bytes; verify_service_sid : bytes }.

Definition verifications_url (t : Twilio) : bytes :=
  str "https://verify.twilio.com/v2/Services/" ++ verify_service_sid t ++ str "/Verifications".
Definition verification_check_url (t : Twilio) : bytes :=
  str "https://verify.twilio.com/v2/Services/" ++ verify_service_sid t ++ str "/VerificationCheck".

Definition twilio_vendor (http : HttpPost -> HttpResult) (t : Twilio) : OtpVendor :=
  TwilioOtpVendor
    (fun e164 => http (mkPost (verifications_url t) (account_sid t) (auth_token t)
                         [(str "To", e164); (str "Channel", str "sms")]))
    (fun e164 code => http (mkPost (verification_check_url t) (account_sid t) (auth_token t)
                              [(str "To", e164); (str "Code", code)])).

(** An unset or undecodable variable is [None]. *)
Definition vendor_from_env (http : HttpPost -> HttpResult) (sid token service dev : option bytes) : result OtpVendor unit :=
  match sid, token, service with
  | Some s, Some t, Some v => Ok (twilio_vendor http (mkTwilio s t v))
  | _, _, _ => match dev with Some _ => Ok DevOtpVendor | None => Err tt end
  end.

(** ** directory/src/main.rs *)

Record DirectoryVars := mkVars {
  DIRECTORY_ADDR : option bytes;
  DATABASE_URL : option bytes;
  DIRECTORY_PEPPER : option bytes;
  DIRECTORY_ALLOW_DEV_PEPPER : option bytes;
  TWILIO_ACCOUNT_SID : option bytes;
  TWILIO_AUTH_TOKEN : option bytes;
  TWILIO_VERIFY_SERVICE_SID : option bytes;
  DIRECTORY_ALLOW_DEV_OTP_VENDOR : option bytes;
  DIRECTORY_ATTESTATION_SIGNING_KEY : option bytes;
  DIRECTORY_ALLOW_DEV_ATTESTATION : option bytes;
  DIRECTORY_ACCOUNTS_ENABLED : option bytes;
  DIRECTORY_SEARCH_ENABLED : option bytes;
}.

Inductive StartError := NoDatabaseUrl | NoPepper | NoDatabase | NoVendor | BadSigningKey.

Definition DEV_PEPPER : bytes := str "dev-only-pepper-do-not-use-in-production".

Definition pepper_from_env (pepper dev : option bytes) : result bytes StartError :=
  match pepper with
  | Some p => Ok p
  | None => match dev with Some _ => Ok DEV_PEPPER | None => Err NoPepper end
  end.

(** A directory that is up: where it listens, what its handlers share, and the public
    key it logs. *)
Record Started := mkStarted { st_addr : bytes; st_app : DirApi.App; st_pubkey : option bytes }.

Section Main.
Context `{Ed25519, Base64}.

(** [connects] is whether the database can be reached and migrated; [None] is the panic
    of slicing the key inside a character. *)
Definition directory_main (http : HttpPost -> HttpResult) (connects : bytes -> bool) (v : DirectoryVars)
  : option (result Started StartError) :=
  let addr := default (str "127.0.0.1:7444") (DIRECTORY_ADDR v) in
  match DATABASE_URL v with
  | None => Some (Err NoDatabaseUrl)
  | Some url =>
      match pepper_from_env (DIRECTORY_PEPPER v) (DIRECTORY_ALLOW_DEV_PEPPER v) with
      | Err e => Some (Err e)
      | Ok pep =>
          if negb (connects url) then Some (Err NoDatabase)
          else
            match vendor_from_env http (TWILIO_ACCOUNT_SID v) (TWILIO_AUTH_TOKEN v) (TWILIO_VERIFY_SERVICE_SID v)
                    (DIRECTORY_ALLOW_DEV_OTP_VENDOR v) with
            | Err _ => Some (Err NoVendor)
            | Ok vend =>
                r ← signing_key_from_env (DIRECTORY_ATTESTATION_SIGNING_KEY v) (DIRECTORY_ALLOW_DEV_ATTESTATION v);
                Some (match r with
                      | Err _ => Err BadSigningKey
                      | Ok key =>
                          Ok (mkStarted addr
                                (DirApi.mkApp vend pep
                                   (DirectoryConfig_from_env (DIRECTORY_ACCOUNTS_ENABLED v) (DIRECTORY_SEARCH_ENABLED v)) key)
                                ((fun k => b64_encode (ed25519_verifying_key k)) <$> key))
                      end)
            end
      end
  end.

(** ** relay/src/main.rs *)

(** What the arguments name: files for the identity and the state. *)
Definition arg (args : list bytes) (n : nat) (dflt : string) : bytes := default (str dflt) (args !! n).

Definition parse_pubkey (b64 : bytes) : option bytes :=
  bs ← b64_decode (trim b64);
  if len bs =? 32 then verifying_key_from_bytes bs else None.

Inductive RelayStartError := BadIdentity | BadState | BadPubkey.

(** What a relay starts with. *)
Record RelayUp := mkRelayUp { ru_addr : bytes; ru_identity : RelayIdentity; ru_world : World }.

Section Relay.
Context {R : RelayExt}.

(** [fs] and [dbs] are the files by their paths, [fresh] the identity that would be
    generated and [ok] whether it can be written; an absent state file is an empty
    database, [None] one that cannot be opened. Returns what the identity file holds
    afterwards. *)
Definition relay_main (ok : bool) (fresh : RelayIdentity) (fs : bytes -> FileRead) (dbs : bytes -> option Db) (now : Z)
    (args : list bytes) (pubkey : option bytes) : FileRead * result RelayUp RelayStartError :=
  let addr := arg args 1 "127.0.0.1:7443" in
  let '(file, identity) := load_or_create ok fresh (fs (arg args 2 "relay_identity.der")) in
  (file,
   match identity with
   | None => Err BadIdentity
   | Some i =>
       match dbs (arg args 3 "relay_state.sqlite3") ≫= relay_open now with
       | None => Err BadState
       | Some inner =>
           let w := mkWorld inner ∅ false in
           match pubkey with
           | None => Ok (mkRelayUp addr i w)
           | Some b64 =>
               match parse_pubkey b64 with
               | None => Err BadPubkey
               | Some key => Ok (mkRelayUp addr i (set_attestation_key (Some key) w).1)
               end
           end
       end
   end).
End Relay.
End Main.

(** ** Facts *)

Lemma u8_from_hex2_byte a b x : u8_from_hex2 a b = Some x -> is_byte x.
Proof.
  unfold u8_from_hex2, hex_value, is_ascii_digit, is_byte. intros H.
  repeat case_match; simplify_eq/=; bools; lia.
Qed.

Lemma decode_hex_pairs_len s bs : decode_hex_pairs s = Some (Some bs) -> len s = 2 * len bs /\ are_bytes bs.
Proof.
  revert bs. induction s as [s IH] using (induction_ltof1 _ (@length Z)). unfold ltof in IH. intros bs H.
  destruct s as [|a [|b s]]; cbn [decode_hex_pairs] in H; [simplify_eq; by split; [|constructor]|done|].
  destruct (mid_char s); [done|]. destruct (u8_from_hex2 a b) eqn:Ex; [|done].
  destruct (decode_hex_pairs s) as [[bs'|]|] eqn:E; simpl in H; simplify_eq.
  apply IH in E as [E Hb]; [|simpl; lia]. rewrite !len_cons. split; [lia|]. constructor; [by eapply u8_from_hex2_byte|done].
Qed.

(** A configured attestation key is a 32-byte seed. *)
Lemma signing_key_len key dev seed :
  signing_key_from_env key dev = Some (Ok (Some seed)) -> len seed = 32 /\ are_bytes seed.
Proof.
  unfold signing_key_from_env. destruct key as [h|].
  - unfold decode_hex_32. destruct (Z.eqb_spec (len h) 64) as [Hl|]; simpl; [|by intros; simplify_eq].
    destruct (decode_hex_pairs h) as [[bs|]|] eqn:E; simpl; intros; simplify_eq.
    apply decode_hex_pairs_len in E as [E Hb]. split; [lia|done].
  - destruct dev; intros; simplify_eq. split; [done|]. repeat constructor; done.
Qed.

(** Nothing insecure is on unless it was asked for. *)
Lemma directory_main_Ok `{Ed25519, Base64} http connects v st :
  directory_main http connects v = Some (Ok st) ->
  (exists url, DATABASE_URL v = Some url /\ connects url = true) /\
  (DIRECTORY_PEPPER v = Some (pepper (st_app st)) \/ is_Some (DIRECTORY_ALLOW_DEV_PEPPER v)) /\
  ((exists t, vendor (st_app st) = twilio_vendor http t) \/ is_Some (DIRECTORY_ALLOW_DEV_OTP_VENDOR v)) /\
  signing_key_from_env (DIRECTORY_ATTESTATION_SIGNING_KEY v) (DIRECTORY_ALLOW_DEV_ATTESTATION v)
    = Some (Ok (app_attestation_key (st_app st))) /\
  st_pubkey st = (fun k => b64_encode (ed25519_verifying_key k)) <$> app_attestation_key (st_app st).
Proof.
  unfold directory_main. destruct (DATABASE_URL v) as [url|]; [|done].
  destruct (pepper_from_env _ _) as [pep|] eqn:Ep; [|done]. destruct (connects url) eqn:Ec; simpl; [|done].
  destruct (vendor_from_env _ _ _ _ _) as [vend|] eqn:Ev; [|done].
  destruct (signing_key_from_env _ _) as [[key|]|]; simpl; [|done|done]. intros [= <-]. simpl.
  split; [by eauto|]. unfold pepper_from_env in Ep. unfold vendor_from_env in Ev.
  split; [destruct (DIRECTORY_PEPPER v), (DIRECTORY_ALLOW_DEV_PEPPER v); simplify_eq; eauto|].
  split; [|done].
  destruct (TWILIO_ACCOUNT_SID v), (TWILIO_AUTH_TOKEN v), (TWILIO_VERIFY_SERVICE_SID v);
    simplify_eq; eauto; right; destruct (DIRECTORY_ALLOW_DEV_OTP_VENDOR v); simplify_eq; eauto.
Qed.

(** ** The attestation chain *)

Section Chain.
Context {X : DirExt} {R : RelayExt}.
(** Both servers link the same Ed25519 crate. *)
Context (same_ed : @relay_ed25519 R = @dir_ed25519 X).
Context {RL : RelayExtLaws R} {EL : Ed25519Laws} {EK : Ed25519KeyLaws} {BL : Base64Laws} {BT : Base64TextLaws}.

Lemma pubkey_parses sk :
  len sk = 32 -> are_bytes sk -> parse_pubkey (b64_encode (ed25519_verifying_key sk)) = Some (ed25519_verifying_key sk).
Proof.
  intros Hl Hs. destruct (ed25519_public_len sk Hl Hs) as [H32 Hb]. unfold parse_pubkey.
  rewrite trim_visible by exact (b64_printable _ Hb). rewrite b64_roundtrip. simpl. rewrite H32. apply ed25519_public_roundtrip.
Qed.

(** What the app makes of one entry of the directory's answer: the two base64 fields
    decoded, then the record for the engine. *)
Definition redeem (dto : bytes * Z * bytes) : option AttestationToken :=
  n ← b64_decode dto.1.1;
  s ← b64_decode dto.2;
  attestation_to_proto (mkFfiToken n dto.1.2 s).

(** A token of this key, and the nonces drawn for a batch. *)
Definition minted (sk : bytes) (exp : Z) (n : bytes) : AttestationToken := AttestationToken_sign sk n exp.

Lemma minted_valid sk exp n : @signature_valid relay_ed25519 (minted sk exp n) (ed25519_verifying_key sk) = true.
Proof.
  rewrite same_ed. unfold signature_valid, minted, AttestationToken_sign. simpl. rewrite ed25519_slice. apply ed25519_correct.
Qed.

Lemma mint_n_run E sk exp n d :
  exists d', mint_n E sk exp n d = (d', Ok (minted sk exp <$> (d_rng E <$> seq (io d) n))) /\ io d' = (io d + n)%nat.
Proof.
  revert d. induction n as [|n IH]; intros d; [exists d; split; [done|lia]|]. cbn [mint_n seq fmap list_fmap].
  unfold d_bind, draw at 1. destruct (IH (mkDir (tables d) (restore_tokens d) (rate_limiter d) (S (io d)))) as (d' & -> & Hd).
  exists d'. split; [done|]. simpl in Hd. lia.
Qed.

Lemma authenticate_io E h d d' u : authenticate E h d = (d', Ok u) -> (io d <= io d')%nat.
Proof.
  unfold authenticate. intros (v & d1 & Hv & H)%d_bind_Ok. apply d_option_Ok in Hv as [_ ->].
  apply d_bind_Ok in H as (tok & d2 & Ht & H). apply d_option_Ok in Ht as [_ ->].
  apply d_bind_Ok in H as (o & d3 & Ho & H). apply d_option_Ok in H as [_ ->]. apply d_map_err_Ok in Ho.
  unfold session_user_id, db_read, db_call in Ho. destruct (d_db_ok E (io d)); simplify_eq. simpl. lia.
Qed.

(** Taking a token off a relay whose gate is on. *)
Lemma gate_takes er t vk w :
  attestation_key (inner w) = Some vk -> @signature_valid relay_ed25519 t vk = true -> unix er < expires_at t ->
  (forall x, spent_tokens (inner w) !! token_nonce t = Some x -> x <= unix er) ->
  consume_attestation er (Some t) w =
    (set_inner (set_spent (<[token_nonce t:=expires_at t]> (filter (fun kv => unix er < kv.2) (spent_tokens (inner w)))) (inner w)) w,
     Relay.Done tt).
Proof.
  intros Hk Hv He Hs. unfold consume_attestation. rewrite gets_bind, Hk. autorewrite with run.
  unfold is_expired. rewrite (proj2 (Z.leb_gt _ _) He), Hv. simpl. autorewrite with run. simpl.
  destruct (filter _ _ !! token_nonce t) as [x|] eqn:E; [|done].
  apply map_lookup_filter_Some in E as [E1 E2]. apply Hs in E1. simpl in E2. lia.
Qed.

(** A relay with this key that has none of these nonces in its spent set. *)
Definition gated (vk : bytes) (ns : list bytes) (w : World) : Prop :=
  attestation_key (inner w) = Some vk /\ Forall (fun n => spent_tokens (inner w) !! n = None) ns.

(** A creation request and the circumstances it is served in: the clocks and the disk,
    the solved challenge, what is asked for, and the id and key that are drawn. *)
Record Purchase := mkPurchase {
  p_env : Relay.Env; p_tx : option ChanId; p_pow : PowSolution; p_wanted : Wanted; p_queue : QueueId; p_key : bytes;
}.

Definition purchase (p : Purchase) (att : option AttestationToken) : World -> World * Relay.outcome ServerMessage :=
  handle (p_env p) (create_request (p_pow p) (p_wanted p) att) (p_tx p).

(** The queue it buys. *)
Definition bought (p : Purchase) : QueueEntry := mkEntry (p_key p) (wanted_kind (p_wanted p)) 0 (mono (p_env p)).

(** One request after the other, each with its token. *)
Fixpoint purchases (l : list (Purchase * AttestationToken)) (w : World) : World * list (Relay.outcome ServerMessage) :=
  match l with
  | [] => (w, [])
  | (p, t) :: l' => let '(w1, r) := purchase p (Some t) w in let '(w2, rs) := purchases l' w1 in (w2, r :: rs)
  end.

(** The request's values are of their types, and its epoch fits an SQLite integer. *)
Definition purchase_ok (p : Purchase) : bool :=
  forallb is_32 (draws (p_env p)) &&
  match p_wanted p with
  | None => true
  | Some (ep, roster) => forallb is_32 roster && (len roster <? u32_modulus) && (0 <=? ep) && (ep <=? i64_max)
  end.

(** Before [exp], on a relay that is up with its disk at work: each request with a
    solved challenge of its own, and an unused id drawn for it. *)
Record affordable (exp : Z) (ps : list Purchase) (w : World) : Prop := {
  af_up : poisoned w = false;
  af_inv : Inv (inner w);
  af_each : Forall (fun p => unix (p_env p) < exp /\ disk_ok (p_env p) = true /\ purchase_ok p = true) ps;
  af_pow : Forall (fun p => solves w (p_pow p)) ps /\ NoDup ((fun p => ps_challenge (p_pow p)) <$> ps);
  af_ids : Forall (fun p => queues (inner w) !! p_queue p = None /\ exists ds, draws (p_env p) = p_queue p :: p_key p :: ds) ps /\
           NoDup (p_queue <$> ps);
}.

Lemma purchase_row p d s :
  durable d s -> s !! p_queue p = None -> purchase_ok p = true ->
  is_Some (match p_wanted p with
           | None => sql_insert_queue (p_queue p) (p_key p) SqlNull d
           | Some (ep, roster) => create_inbox_tx ep roster (p_queue p) (p_key p) d
           end).
Proof.
  intros D Hn Hok. unfold purchase_ok in Hok. destruct (p_wanted p) as [[ep roster]|]; bools;
    [by eapply durable_inbox_rows|by eapply durable_mailbox_row].
Qed.

Lemma purchase_op_ok p att w : purchase_ok p = true -> op_ok w (OHandle (p_env p) (create_request (p_pow p) (p_wanted p) att) (p_tx p)) = true.
Proof.
  unfold purchase_ok, create_request. destruct (p_wanted p) as [[ep roster]|]; simpl; intros H; bools; [|done].
  repeat (apply andb_true_iff; split); try done; [by apply Z.ltb_lt|by apply Z.leb_le|apply Z.ltb_lt].
  unfold i64_max, u64_modulus in *. lia.
Qed.

Lemma reply_of_Done {A} (f : A -> ServerMessage) m w w' a : m w = (w', Relay.Done a) -> reply_of f m w = (w', Relay.Done (f a)).
Proof. unfold reply_of. by intros ->. Qed.

(** A request that gets past the gate. *)
Lemma purchase_served exp p ps att sp w :
  affordable exp (p :: ps) w ->
  consume_attestation (p_env p) att w = (set_inner (set_spent sp (inner w)) w, Relay.Done tt) ->
  exists w', purchase p att w = (w', Relay.Done (SQueueCreated (p_queue p) (p_key p))) /\
    poisoned w' = false /\ queues (inner w') = <[p_queue p:=bought p]> (queues (inner w)) /\
    gates (inner w') = (delete (ps_challenge (p_pow p)) (outstanding_challenges (inner w)), challenge_order (inner w),
                        attestation_key (inner w), sp).
Proof.
  intros [Hup I He [Hpow _] [Hids _]] Ha.
  apply Forall_cons in He as [(_ & Hdisk & Hok) _], Hpow as [Hpow _], Hids as [(Hq & ds & Hd) _].
  destruct (create_queue_run (p_env p) att (p_pow p) sp (wanted_kind (p_wanted p))
    (fun qk => match p_wanted p with
               | None => sql_insert_queue qk.1 qk.2 SqlNull
               | Some (ep, roster) => create_inbox_tx ep roster qk.1 qk.2
               end) (p_queue p) (p_key p) ds w Hup Ha Hpow Hd Hq) as (w' & Hr & H).
  - intros d Hdb. split; [done|]. destruct (purchase_row p d (abs (inner w))) as [d' Hd'].
    + by apply I.
    + by rewrite abs_lookup, Hq.
    + done.
    + exists d'. by destruct (p_wanted p) as [[ep roster]|].
  - exists w'. split; [|done]. unfold purchase, create_request. destruct (p_wanted p) as [[ep roster]|];
      exact (reply_of_Done _ _ _ _ _ Hr).
Qed.

(** What is left to buy stays affordable. *)
Lemma affordable_next exp p ps att w w' r sp :
  affordable exp (p :: ps) w -> purchase p att w = (w', r) -> poisoned w' = false ->
  queues (inner w') = <[p_queue p:=bought p]> (queues (inner w)) ->
  gates (inner w') = (delete (ps_challenge (p_pow p)) (outstanding_challenges (inner w)), challenge_order (inner w),
                      attestation_key (inner w), sp) ->
  affordable exp ps w'.
Proof.
  intros [Hup I He [Hpow Hcs] [Hids Hqs]] Hr Hup' Hqu Hg. rewrite fmap_cons in Hcs, Hqs.
  apply NoDup_cons in Hcs as [Hc Hcs], Hqs as [Hq Hqs].
  apply Forall_cons in He as [(_ & _ & Hok) He], Hpow as [_ Hpow], Hids as [_ Hids].
  unfold gates in Hg. split; [done| |done|split; [|done]|split; [|done]].
  - eapply (step_handle (p_env p)); [exact I|by apply purchase_op_ok|exact Hr].
  - rewrite Forall_forall in *. intros x Hx. destruct (Hpow x Hx) as (d & Hd & Hv). exists d. split; [|done].
    injection Hg as -> _ _ _. rewrite lookup_delete_ne; [done|]. intros Ex. apply Hc. rewrite Ex.
    apply list_elem_of_fmap. eauto.
  - rewrite Forall_forall in *. intros x Hx. destruct (Hids x Hx) as [Hx1 Hx2]. split; [|done].
    rewrite Hqu, lookup_insert_ne; [done|]. intros Ex. apply Hq. rewrite Ex. apply list_elem_of_fmap. eauto.
Qed.

(** One request with a token the relay has not seen. *)
Lemma purchase_pays sk exp n ns p ps w :
  n ∉ ns -> gated (ed25519_verifying_key sk) (n :: ns) w -> affordable exp (p :: ps) w ->
  exists w', purchase p (Some (minted sk exp n)) w = (w', Relay.Done (SQueueCreated (p_queue p) (p_key p))) /\
    gated (ed25519_verifying_key sk) ns w' /\ affordable exp ps w' /\
    queues (inner w') = <[p_queue p:=bought p]> (queues (inner w)) /\
    spent_tokens (inner w') !! n = Some exp /\
    forall m, spent_tokens (inner w) !! m = Some exp -> spent_tokens (inner w') !! m = Some exp.
Proof.
  intros Hn [Hk Hf] Haf. apply Forall_cons in Hf as [Hf1 Hf].
  pose proof (proj1 (proj1 (Forall_cons _ _ _) (af_each _ _ _ Haf))) as (He & _).
  pose proof (gate_takes (p_env p) (minted sk exp n) _ w Hk (minted_valid _ _ _) He) as Ha.
  destruct (purchase_served _ _ _ _ _ _ Haf (Ha ltac:(simpl; intros; congruence))) as (w' & Hr & Hup & Hq & Hg). clear Ha.
  exists w'. split; [done|]. pose proof (affordable_next _ _ _ _ _ _ _ _ Haf Hr Hup Hq Hg) as Haf'.
  unfold gates in Hg. injection Hg as _ _ Hk' Hsp. simpl in Hsp.
  split; [split; [congruence|]|split; [done|split; [done|split; [by rewrite Hsp, lookup_insert_eq|]]]].
  - rewrite Forall_forall in *. intros m Hm. rewrite Hsp, lookup_insert_ne by set_solver.
    apply map_lookup_filter_None. left. by apply Hf.
  - intros m Hm. rewrite Hsp. destruct (decide (n = m)) as [<-|]; [congruence|].
    rewrite lookup_insert_ne by done. by apply map_lookup_filter_Some.
Qed.

(** As many requests as there are tokens. *)
Lemma purchases_pay sk exp ns ps w :
  length ps = length ns -> NoDup ns -> gated (ed25519_verifying_key sk) ns w -> affordable exp ps w ->
  exists w', purchases (zip ps (minted sk exp <$> ns)) w =
      (w', (fun p => Relay.Done (SQueueCreated (p_queue p) (p_key p))) <$> ps) /\
    queues (inner w') = foldl (fun qs p => <[p_queue p:=bought p]> qs) (queues (inner w)) ps /\
    attestation_key (inner w') = Some (ed25519_verifying_key sk) /\
    (forall n, n ∈ ns -> spent_tokens (inner w') !! n = Some exp) /\
    forall m, spent_tokens (inner w) !! m = Some exp -> spent_tokens (inner w') !! m = Some exp.
Proof.
  revert ps w. induction ns as [|n ns IH]; intros [|p ps] w Hl Hnd Hg Haf; try done.
  { exists w. split; [done|]. split; [done|]. split; [apply Hg|]. split; [set_solver|done]. }
  apply NoDup_cons in Hnd as [Hn Hnd].
  destruct (purchase_pays _ _ _ _ _ _ _ Hn Hg Haf) as (w1 & Hr & Hg1 & Haf1 & Hq1 & Hs1 & Hk1).
  destruct (IH ps w1 ltac:(simpl in Hl; lia) Hnd Hg1 Haf1) as (w2 & Hr2 & Hq2 & Hkey & Hs2 & Hk2).
  exists w2. split; [rewrite fmap_cons; cbn [zip_with purchases]; by rewrite Hr, Hr2|]. split; [by rewrite Hq2, Hq1|]. split; [done|]. split; [|by auto].
  intros m [->|Hm]%elem_of_cons; auto.
Qed.

(** The directory's answer for one token. *)
Definition dto (t : AttestationToken) : bytes * Z * bytes := (b64_encode (token_nonce t), expires_at t, b64_encode (signature t)).

Lemma redeem_minted sk exp n :
  len n = 16 -> redeem (dto (minted sk exp n)) = Some (minted sk exp n).
Proof.
  intros Hn. unfold redeem. simpl. rewrite !b64_roundtrip. simpl. unfold attestation_to_proto. simpl. by rewrite Hn.
Qed.

(** No token, no queue. *)
Lemma tokenless_refused seed p w :
  attestation_key (inner w) = Some (ed25519_verifying_key seed) -> poisoned w = false ->
  purchase p None w = (w, Relay.Done (SError InvalidAttestation)).
Proof.
  intros Hk Hp. unfold purchase.
  destruct (creation_run (p_env p) _ (p_tx p) (p_pow p) None (create_request_creation (p_pow p) (p_wanted p) None)) as (rest & _ & ->).
  unfold reply_of, locked. rewrite Hp. erewrite bind_rejected; [done|].
  unfold consume_attestation. rewrite gets_bind, Hk. by autorewrite with run.
Qed.

Lemma seq_sublist a b k n : (a <= k)%nat -> (k + n <= b)%nat -> seq k n `sublist_of` seq a (b - a).
Proof.
  intros Ha Hb. replace (b - a)%nat with ((k - a) + (n + (b - k - n)))%nat by lia.
  rewrite !seq_app. replace (a + (k - a))%nat with k by lia. by apply sublist_inserts_l, sublist_inserts_r.
Qed.

#[local] Opaque BATCH_SIZE.

Lemma issue_run E app seed h d d' dtos :
  app_attestation_key app = Some seed -> issue_attestation_tokens E app h d = (d', Ok dtos) ->
  exists k, dtos = dto <$> (minted seed (d_unix E + TOKEN_TTL_SECS) <$> (d_rng E <$> seq k BATCH_SIZE)) /\
    (io d <= k /\ k + BATCH_SIZE <= io d')%nat.
Proof.
  intros Hs Hi. unfold issue_attestation_tokens in Hi.
  apply d_bind_Ok in Hi as (u & d1 & Hu%authenticate_io & Hi). rewrite Hs in Hi.
  apply d_bind_Ok in Hi as (k & d2 & Hk & Hi). injection Hk as <- <-.
  apply d_bind_Ok in Hi as (ts & d3 & Ht & Hi). unfold mint_batch in Ht.
  destruct (mint_n_run E seed (d_unix E + TOKEN_TTL_SECS) BATCH_SIZE d1) as (d4 & E4 & Hio). rewrite E4 in Ht.
  exists (io d1). assert (Ets : forall l, (d4, @Ok _ ApiError l) = (d3, Ok ts) -> l = ts /\ d4 = d3) by (intros; split; congruence).
  apply Ets in Ht as [<- ->].
  assert (El : forall l, (d3, @Ok _ ApiError l) = (d', Ok dtos) -> dtos = l /\ d3 = d') by (intros; split; congruence).
  apply El in Hi as [-> <-]. split; [done|]. lia.
Qed.

(** A batch with nonces of their size, all different, buys a queue per token. *)
Lemma batch_buys seed (rng : nat -> bytes) exp k n :
  (forall i, (k <= i < k + n)%nat -> len (rng i) = 16) -> NoDup (rng <$> seq k n) ->
  exists ts, mapM redeem (dto <$> (minted seed exp <$> (rng <$> seq k n))) = Some ts /\ length ts = n /\
    Forall (fun t => expires_at t = exp) ts /\ NoDup (token_nonce <$> ts) /\
    forall ps w, length ps = n -> gated (ed25519_verifying_key seed) (token_nonce <$> ts) w -> affordable exp ps w ->
      exists w', purchases (zip ps ts) w = (w', (fun p => Relay.Done (SQueueCreated (p_queue p) (p_key p))) <$> ps) /\
        queues (inner w') = foldl (fun qs p => <[p_queue p:=bought p]> qs) (queues (inner w)) ps /\
        attestation_key (inner w') = Some (ed25519_verifying_key seed) /\
        forall t, t ∈ ts -> spent_tokens (inner w') !! token_nonce t = Some (expires_at t).
Proof.
  intros Hn Hnd. set (ns := rng <$> seq k n) in *. exists (minted seed exp <$> ns).
  assert (Hns : token_nonce <$> (minted seed exp <$> ns) = ns) by (rewrite <- list_fmap_compose; apply list_fmap_id).
  rewrite Hns. assert (Hlen : length ns = n) by (unfold ns; by rewrite length_fmap, length_seq).
  split; [|split; [|split; [|split; [done|]]]].
  - apply mapM_Some, Forall2_fmap_l, Forall2_fmap_l, Forall2_fmap_r, Forall_Forall2_diag, Forall_forall. intros i Hi.
    apply list_elem_of_fmap in Hi as (j & -> & Hj%elem_of_seq). by apply redeem_minted, Hn.
  - by rewrite length_fmap.
  - apply Forall_fmap, Forall_forall. done.
  - intros ps w Hl Hg Haf. destruct (purchases_pay seed exp ns ps w) as (w' & H1 & H2 & H3 & H4 & _); try done; [congruence|].
    exists w'. split; [done|]. split; [done|]. split; [done|].
    intros t (m & -> & Hm)%list_elem_of_fmap. by apply H4.
Qed.

(** C16: the attestation chain, from deployment to use. A directory that starts with
    attestation on logs a public key that the relay's start-up reads back exactly, so
    a relay that comes up with it holds the directory's key. Every entry of a batch
    the directory then issues, drawn as different 16-byte nonces, is decoded by the app
    into a token that is good for 30 days. Put into creation requests, of mailboxes or
    group inboxes, before they expire (each with a solved challenge of its own and an
    unused id drawn, on a relay that is up with its disk at work and has not seen them),
    the twenty tokens buy twenty queues, the ones asked for; a creation with
    a token used up that way is refused from then on, until the relay restarts or the
    clock is set back, and one without a token always. *)
Theorem attestation_chain http connects v st seed :
  directory_main http connects v = Some (Ok st) -> app_attestation_key (st_app st) = Some seed ->
  exists line, st_pubkey st = Some line /\
    (forall ok fresh fs dbs now args,
       match (relay_main ok fresh fs dbs now args (Some line)).2 with
       | Ok up => attestation_key (inner (ru_world up)) = Some (ed25519_verifying_key seed)
       | Err e => e <> BadPubkey
       end) /\
    (forall E h d d' dtos, issue_attestation_tokens E (st_app st) h d = (d', Ok dtos) ->
       let drawn := seq (io d) (io d' - io d) in
       let expiry := d_unix E + 30 * 24 * 60 * 60 in
       (forall n, n ∈ drawn -> len (d_rng E n) = 16) -> NoDup (d_rng E <$> drawn) ->
       exists ts, mapM redeem dtos = Some ts /\ length ts = 20%nat /\
         Forall (fun t => expires_at t = expiry) ts /\ NoDup (token_nonce <$> ts) /\
         forall ps w, length ps = 20%nat -> gated (ed25519_verifying_key seed) (token_nonce <$> ts) w -> affordable expiry ps w ->
           exists w', purchases (zip ps ts) w = (w', (fun p => Relay.Done (SQueueCreated (p_queue p) (p_key p))) <$> ps) /\
             queues (inner w') = foldl (fun qs p => <[p_queue p:=bought p]> qs) (queues (inner w)) ps /\
             forall t ops p, t ∈ ts -> forallb (live_until (unix (p_env p))) ops = true ->
               let r := (purchase p (Some t) (run ops w').1).2 in
               r = Relay.Done (SError InvalidAttestation) \/ r = Panicked) /\
    (forall p w, attestation_key (inner w) = Some (ed25519_verifying_key seed) -> poisoned w = false ->
       purchase p None w = (w, Relay.Done (SError InvalidAttestation))).
Proof.
  intros Hm Hs. apply directory_main_Ok in Hm as (_ & _ & _ & Hk & Hp). rewrite Hs in Hk, Hp.
  exists (b64_encode (ed25519_verifying_key seed)). split; [done|]. apply signing_key_len in Hk as [Hl Hb].
  split; [|split; [|apply tokenless_refused]].
  - intros ok fresh fs dbs now args. unfold relay_main. destruct (load_or_create _ _ _) as [file [i|]]; simpl; [|done].
    destruct (dbs _ ≫= relay_open now) as [inn|]; simpl; [|done]. by rewrite pubkey_parses.
  - intros E h d d' dtos Hi drawn expiry Hn Hnd. apply (issue_run _ _ _ _ _ _ _ Hs) in Hi as (k & -> & Hk1 & Hk2).
    destruct (batch_buys seed (d_rng E) expiry k BATCH_SIZE) as (ts & H1 & H2 & H3 & H4 & H5).
    + intros i Hi; apply Hn, elem_of_seq; lia.
    + eapply sublist_NoDup; [exact Hnd|]. by apply fmap_sublist, seq_sublist.
    + exists ts. do 4 (split; [done|]). intros ps w Hps Hg Haf.
      destruct (H5 ps w Hps Hg Haf) as (w' & Hr & Hq & Hkey & Hsp). exists w'. do 2 (split; [done|]).
      intros t ops p Ht Hlive. apply (spent_token_refused t (ed25519_verifying_key seed) _ _ _ _ _ (p_pow p)); auto.
      apply create_request_creation.
Qed.
End Chain.

(** ** A deployment *)

Module DeployExamples.
Import ToyInstances RelayToy.

(** A text encoding: the bits of a code of the bytes, and a mark at the end. *)
Fixpoint bits (p : positive) : bytes :=
  match p with xH => [46] | xO p' => 48 :: bits p' | xI p' => 49 :: bits p' end.
Fixpoint unbits (s : bytes) : option positive :=
  match s with
  | [46] => Some xH
  | 48 :: s' => xO <$> unbits s'
  | 49 :: s' => xI <$> unbits s'
  | _ => None
  end.

Lemma unbits_bits p : unbits (bits p) = Some p.
Proof. induction p as [p IH|p IH|]; [..|done]; cbn [bits unbits]; rewrite IH; done. Qed.
Lemma bits_printable p : Forall (fun c => 33 <= c < 127) (bits p).
Proof. induction p; simpl; constructor; try done; constructor. Qed.

#[export] Instance text_base64 : Base64 := {| b64_encode bs := bits (encode bs); b64_decode s := unbits s ≫= decode |}.
#[export] Instance text_base64_laws : Base64Laws.
Proof. constructor. intros bs. simpl. rewrite unbits_bits. simpl. apply decode_encode. Qed.
#[export] Instance text_base64_text : Base64TextLaws.
Proof. constructor. intros bs _. apply bits_printable. Qed.

#[export] Instance text_dir : DirExt := {|
  dir_argon2 := toy_argon2; dir_base64 := text_base64; dir_hasher := toy_hasher; dir_ip := toy_ip_parse; dir_ed25519 := toy_ed25519;
|}.

Definition toy_vars : DirectoryVars :=
  mkVars None (Some (str "postgres://db")) (Some (str "pepper")) None (Some (str "AC1")) (Some (str "secret")) (Some (str "VA1")) None
    (Some (hex (replicate 32 7))) None None None.
Definition toy_http (p : HttpPost) : HttpResult := Response 200 (Some (Some (str "approved"))).
Definition toy_started : Started :=
  mkStarted (str "127.0.0.1:7444")
    (DirApi.mkApp (twilio_vendor toy_http (mkTwilio (str "AC1") (str "secret") (str "VA1"))) (str "pepper") (mkConfig true true)
       (Some (replicate 32 7)))
    (Some (b64_encode (replicate 32 7))).

Lemma toy_starts : directory_main toy_http (fun _ => true) toy_vars = Some (Ok toy_started).
Proof. vm_compute. reflexivity. Qed.

(** A relay started with what this directory logged. *)
Abbreviation toy_relay_up line :=
  (relay_main true (identity_generate [1; 2] [3]) (fun _ => RelayNet.NotFound) (fun _ => Some empty_db) 0 [] (Some line)).2.

(** Alice's session asks this directory for a batch, in the 104th second. *)
Definition toy_env : DirEnv := mkDirEnv 104 0 (fun n => replicate 15 0 ++ [Z.of_nat n]) (fun _ => true).
Abbreviation toy_issue := (issue_attestation_tokens toy_env (st_app toy_started) DirScenario.alice DirScenario.findable).
Definition toy_batch : list (bytes * Z * bytes) := match toy_issue.2 with Ok l => l | Err _ => [] end.

Lemma toy_issued : toy_issue = (toy_issue.1, Ok toy_batch).
Proof. vm_compute. reflexivity. Qed.

(** A relay with the directory's key that has handed out twenty challenges, and twenty
    requests: every other one for a group inbox. *)
Definition toy_gated : World := (set_attestation_key (Some (replicate 32 7)) Scenario.boot).1.
Definition toy_asked : World :=
  (run ((fun n => OHandle (Scenario.at_ 200 [Scenario.idq (Z.of_nat n)]) RequestPowChallenge None) <$> seq 0 20) toy_gated).1.
Definition toy_purchase (n : nat) : Purchase :=
  mkPurchase (Scenario.at_ 201 [Scenario.idq (100 + Z.of_nat n); Scenario.idq (200 + Z.of_nat n)]) None
    (Scenario.solved (Z.of_nat n))
    (if Nat.even n then None else Some (7, [Scenario.idq 1])) (Scenario.idq (100 + Z.of_nat n)) (Scenario.idq (200 + Z.of_nat n)).
Definition toy_purchases : list Purchase := toy_purchase <$> seq 0 20.

Lemma toy_asked_inv : Inv (inner toy_asked).
Proof.
  apply run_refines; [|vm_compute; reflexivity].
  apply (inv_soft (inner Scenario.boot)); [repeat split; vm_compute; reflexivity|apply Scenario.boot_inv].
Qed.

Lemma toy_affordable : affordable (104 + 30 * 24 * 60 * 60) toy_purchases toy_asked.
Proof.
  split.
  - vm_compute. reflexivity.
  - apply toy_asked_inv.
  - repeat constructor.
  - split; [|apply (bool_decide_eq_true_1 _); vm_compute; reflexivity].
    repeat first [apply Forall_nil_2 | apply Forall_cons_2;
      [exists QUEUE_CREATION_POW_DIFFICULTY; split; vm_compute; reflexivity|]].
  - split; [|apply (bool_decide_eq_true_1 _); vm_compute; reflexivity].
    repeat first [apply Forall_nil_2 | apply Forall_cons_2; [split; [vm_compute; reflexivity|exists []; reflexivity]|]].
Qed.

(** Deployed, the directory's batch buys twenty queues of the relay. *)
Lemma attestation_chain_witness :
  exists line ts w', st_pubkey toy_started = Some line /\
    match toy_relay_up line with
    | Ok up => attestation_key (inner (ru_world up)) = Some (replicate 32 7)
    | Err e => e <> BadPubkey
    end /\
    mapM redeem toy_batch = Some ts /\
    purchases (zip toy_purchases ts) toy_asked = (w', (fun p => Relay.Done (SQueueCreated (p_queue p) (p_key p))) <$> toy_purchases) /\
    purchase (toy_purchase 0) None toy_asked = (toy_asked, Relay.Done (SError InvalidAttestation)).
Proof.
  destruct (attestation_chain (X := text_dir) (R := toy_relay) eq_refl toy_http (fun _ => true) toy_vars toy_started (replicate 32 7)
              toy_starts eq_refl) as (line & H1 & H2 & H3 & H4).
  destruct (H3 toy_env _ _ _ _ toy_issued) as (ts & Ht & _ & _ & _ & Hbuy).
  - intros n _. vm_compute. reflexivity.
  - apply (bool_decide_eq_true_1 _). vm_compute. reflexivity.
  - destruct (Hbuy toy_purchases toy_asked eq_refl) as (w' & Hw & _).
    + split; [vm_compute; reflexivity|]. apply Forall_forall. intros n _. reflexivity.
    + exact toy_affordable.
    + exists line, ts, w'. split; [exact H1|]. split; [apply H2|]. split; [exact Ht|]. split; [exact Hw|].
      apply H4; vm_compute; reflexivity.
Defined.
End DeployExamples.
